(* ===== verification/_CoqProject ===== *)
-Q . S2P
Prelude.v
Shared.v
Execution.v
Samples.v
Rounds.v
Sessions.v
Server.v
Rpc.v
ServerSamples.v
Invariant.v
History.v
Topology.v
Machine.v
Ledger.v
LedgerFacts.v
Requests.v
RequestsFacts.v
Inputs.v
Votes.v
Registry.v
Answers.v
Outputs.v
Feed.v
FeedFacts.v
NodeRpc.v
NodeBook.v
NodeBookFacts.v
Client.v
ClientFacts.v
Delivery.v
Dispatch.v
Coordinator.v
CoordinatorFacts.v
Browser.v
BrowserSamples.v
BrowserFacts.v
NodeWorld.v
Masks.v
BrowserRequests.v
BrowserServe.v
BrowserClient.v
BrowserTests.v
RunCoord.v
RunCoordFacts.v
UnitTests.v
OnChain.v
OnChainFacts.v
ChainRuns.v
OnChainWaits.v
Listener.v
ListenerFacts.v
OneOff.v
Deploy.v
Tls.v
Startup.v
StartupFacts.v
TlsFacts.v
Main.v
ChainSetup.v
Service.v
