(* ===== verification/Prelude.v ===== *)
(** * The Stoffel MPC coordinator

    This is the root file of a verification of the Stoffel MPC coordinator
    (src/crates): shared notation, automation and lemmas, and this description.

    ** The program

    A coordinator leads several _parties_ (MPC nodes) and _clients_ through the
    rounds of program executions.  A party registers an execution; a quorum of the
    parties votes each round in; clients reserve input masks, fetch their shares of
    the masks from the nodes, and submit masked inputs; the parties receive the
    inputs over a feed, run the program, and send encrypted output shares, which the
    coordinator hands to the clients as snapshots; at the end the parties retire the
    execution.  Native clients are identified by the key of their TLS certificate;
    browsers have none and sign each request, under a session key that a WebAuthn
    authenticator vouched for.  With the on-chain backend a contract takes the
    coordinator's place and clients are Ethereum addresses.

    ** The files and the code

    Common ground:
    - [Prelude]: machine integers, the [result] type with its panics, record
      updates, hash maps, the hint database [coord].
    - [Shared]: coord-shared/src/lib.rs: execution identifiers, rounds, errors,
      share thresholds.
    - [Samples], [ServerSamples], [BrowserSamples]: concrete states for witnesses.

    The off-chain coordinator (off-chain/src/lib.rs):
    - [Execution]: [CoordinatorExecutionState], its construction, replays, the round
      engine [try_advance] and the output snapshot; [Rounds]: the abstract round
      machine it refines.
    - [Server]: [CoordinatorRPCServerSharedBase] and [RetiredExecutions]: topology,
      registration with eviction, retirement, shutdown; [Topology], [Registry]:
      their invariant and exact behaviour.
    - [Rpc]: every method of the RPC interface.  A handler is cut where it releases
      the state lock; each piece, a _segment_, is a definition, and the handler is
      their composition.
    - [Invariant], [History]: the well-formedness of an execution and its growth,
      for every segment; [Machine]: the coordinator as a step relation over all
      segments, reachable states, and what holds in them.
    - [Ledger]: the abstract specification: what is recorded for each execution and
      who may write it when; [LedgerFacts]: every segment is a step of the ledger.
    - [Requests]: the two RPC traits as data, [serve] as their dispatch;
      [RequestsFacts]: every request as an act of its caller, refusals; [Answers]:
      which requests panic.
    - [Inputs], [Votes], [Outputs]: reservation and submission, proposals, output
      shares, on every branch.
    - [Feed]: worlds in which any number of submissions, cut at every point where
      they release the state lock, interleave with every other segment of the
      coordinator, with everything that was sent; [FeedFacts]: the invariant of these
      worlds.

    Nodes and clients (off-chain/src/lib.rs):
    - [NodeRpc]: the node's server that releases mask shares ([node_rpc]).
    - [NodeBook]: the abstract specification of one execution at a node, a book of
      reservations, shares and waiting clients; [NodeBookFacts]: every handler is an
      operation on the book.  [NodeWorld]: a node with both transports as a step
      relation, its invariant, and the book behind each of its state objects.
    - [Client], [ClientFacts]: the waiting loops, mask collection, sealing and
      opening of outputs of [NodeRPCClient] and [OffChainCoordinatorClient].
    - [Coordinator], [CoordinatorFacts]: the trait [Coordinator] as the class
      [CoordinatorOps] with its default methods, and the off-chain client as an
      instance whose calls act on the model of the server.
    - [Delivery], [Dispatch], [Masks]: the parts together: inputs from the clients
      to every party, outputs from the parties to the client, mask shares from the
      nodes to the client.

    The browser transport (off-chain/src/browser_rpc.rs):
    - [Sessions]: nonces, signature counters, WebAuthn bindings.
    - [Browser], [BrowserFacts], [BrowserRequests]: signed requests, the bind
      ceremony, every [browser_*] method, on top of [Rpc] and [NodeRpc].
    - [BrowserServe]: both listeners' methods as one dispatch.  [BrowserClient]: the
      other side, as the tests of browser_rpc.rs play it: an authenticator's
      assertion and a signed request.
    - [BrowserTests], [UnitTests]: the unit tests of browser_rpc.rs,
      coord-shared/src/lib.rs and run-coord.rs as executable definitions.

    The on-chain backend (on-chain/src/lib.rs): [OnChain], the node server that
    authenticates by signature and the client of the contract; [OnChainFacts],
    [OnChainWaits]; [ChainRuns]: one client's calls among any calls of others at a
    node; [ChainSetup]: the client's set-up, and a mask's way to it.

    Processes:
    - [Listener], [ListenerFacts]: coord-shared/src/rpc.rs: connections, the identity
      of a caller, shutdown.
    - [OneOff]: [start_coord_one_off] and the machine together: the end of a one-off
      coordinator.
    - [RunCoord], [RunCoordFacts]: bins/src/bin/run-coord.rs: the client manifest and
      the first execution; [Startup], [StartupFacts]: its command line, and the
      listeners and connections each process starts; [Main]: its [main] as a whole.
    - [Tls]: coord-shared/src/self_signed_certs.rs and bins/src/bin/generate-ids.rs:
      verifiers, configurations, certificates, identities; [TlsFacts].
    - [Service]: both transports, their listeners and the coordinator as one system.
    - [Deploy]: bins/src/bin/deploy-contract.rs: the contract's arguments.

    ** What is shown

    - The round engine terminates and refines the abstract round machine; rounds are
      entered only on an honest party's proposal and, when a quorum proposes, they
      are entered; the program starts on complete inputs only.
    - The coordinator refines an abstract ledger: in any interleaving each segment is
      one ledger step, and a request is at most one act its caller is entitled to,
      followed by moves that quorums allow.  Hence every record is its caller's,
      outsiders change nothing, and, over both transports, each caller has proved
      to hold the key of the identity it acts for.
    - Every state reachable by any interleaving of segments is well formed,
      executions only grow, and a refusal leaves no trace.  A request is answered
      unless it registers vectors beyond the address space or, interrupted, finds its
      execution reclaimed where the code expects it ([Answers]).
    - Each handler does what its contract says on every branch, errors included.
    - End to end, under any interleaving: the feed delivers exactly once and in order
      and drops no subscriber it can reach, unless an identifier is registered again
      while a submission to its evicted execution is in progress; an attached party
      obtains exactly the inputs in the slots if no client named an index twice in a
      call; and the client opens and reconstructs its outputs from the first snapshot
      it reads.
    - A node refines its mask books in any interleaving: a subscription is answered
      once, with recorded shares of the client that opened it, also when its
      execution has been retired since, and as long as no batch fails nobody waits
      for shares that are there.  Where no batch failed half way and the client's
      subscription was its last, the client recovers its masks from any sufficient set
      of nodes, whatever the order in which each of them learns of reservations,
      shares and requests; so does a client of the on-chain nodes that has one index
      there.
    - Browser requests act only for identities that authorised them, signatures
      cover the whole request, and nothing is replayed; every browser request is
      answered, and an honest browser's ceremony and requests succeed; native calls are made by the
      holder of the presented certificate's key, and generated identities are served
      as the ones on the roster; on-chain shares go only to the owner.
    - The program's own unit tests pass on the model ([UnitTests], a check of the
      definitions rather than a property).
    - Quorums do not wrap, contain an honest party and can be met without the faulty
      ones.
    - A one-off process runs exactly the program its command line names; processes
      come up with both listeners or with none; the configured coordinators of a program agree on its shape; a
      one-off coordinator never loses its execution and ends when all parties are
      done.

    Lemmas also record where the code falls short of its comments (repeated indices
    in a batch, oversized registrations, one unopenable share, a displaced execution, the default reservation
    loop, a failed on-chain authentication).

    ** Conventions and bounds

    - Integers are [N] with the wrap-around written out: the build is a release
      build for a 64-bit target, so [u64] and [usize] wrap at [2^64] and [as]
      conversions truncate.  A vector that would exceed [isize::MAX] bytes panics
      where its length comes from a request ([with_capacity], [vec_repeat]); other
      vectors exist in memory already and are shorter.  Running out of memory below
      that bound is not modelled.
    - A failed [expect], [unwrap] or assertion is the value [Panic]; an error is
      [Err].  RPC errors are kept by code; message texts are not.
    - The iteration order of hash maps comes from an instance of [HashOrder];
      theorems hold for every order.  Which sends succeed and which sinks are closed
      comes from a [Net].
    - [try_advance] runs with fuel 7.  A round is left for a later one in each turn
      and at most six can be entered ([Rounds.try_advance_loop_more]: more fuel
      changes nothing).  All other recursion is structural; the waiting loops recurse
      on the stream they read.
    - Cryptography (P-256, SHA-256, HPKE, Keccak, ECDSA recovery), share arithmetic
      and codecs, JSON, base64 and hex belong to other crates: they are arguments or
      the class [Platform], and what the code relies on is a hypothesis where a
      theorem needs it.  Witnesses instantiate them with concrete functions.

    ** Not modelled

    The TLS handshake itself (what rustls asks of the verifiers is a class of laws,
    [TlsFacts.RustlsServer]), sockets, HTTP and JSON-RPC framing, request timeouts,
    the parsing of flags, and the contract itself: library calls without logic of
    the program's own.  The two unit tests of the on-chain crate, which draw random
    numbers to test the codecs of other crates, and the integration tests. *)
From Stdlib Require Export NArith Lia.
From Stdlib Require Strings.Byte.
From stdpp Require Export base list gmap vector countable finite strings sorting.

#[global] Set Default Goal Selector "!".
Declare Scope coord_scope.
Delimit Scope coord_scope with coord.
Open Scope coord_scope.

(** ** Machine integers *)

(** [u64] and [usize] values are carried as [N]; the target is 64-bit, so both
    wrap at [2^64].  The wrap-around of each operation is written out. *)
Abbreviation u64 := N.
Abbreviation u32 := N.
Abbreviation usize := N.

Definition u64_modulus : N := Eval cbv in (2 ^ 64)%N.
Definition u32_modulus : N := Eval cbv in (2 ^ 32)%N.

Definition u64_wrap (x : N) : u64 := (x mod u64_modulus)%N.
Definition u64_add (x y : u64) : u64 := u64_wrap (x + y).
Definition u64_sub (x y : u64) : u64 := u64_wrap (x + u64_modulus - y).
Definition u64_checked_add (x y : u64) : option u64 :=
  if (x + y <? u64_modulus)%N then Some (x + y)%N else None.
Definition u64_checked_mul (x y : u64) : option u64 :=
  if (x * y <? u64_modulus)%N then Some (x * y)%N else None.
Definition u64_abs_diff (x y : u64) : u64 := if (x <=? y)%N then (y - x)%N else (x - y)%N.
Definition u64_saturating_sub (x y : u64) : u64 := (x - y)%N.

(** [value as usize] of a [u64] on a 64-bit target, and [usize::try_from]. *)
Definition as_usize (x : u64) : usize := u64_wrap x.
Definition usize_try_from (x : u64) : option usize :=
  if (x <? u64_modulus)%N then Some x else None.
Definition u32_try_from (x : usize) : option u32 :=
  if (x <? u32_modulus)%N then Some x else None.

(** [Iterator::sum::<u64>] without overflow checks. *)
Definition u64_sum (l : list u64) : u64 := foldr u64_add 0%N l.

(** [isize::MAX]: no allocation is larger, in bytes, so a vector of identities has
    fewer than [2^63] elements. *)
Definition isize_max : N := Eval cbv in (2 ^ 63 - 1)%N.

(** [Vec::len]. *)
Definition vlen {A} (l : list A) : usize := N.of_nat (length l).

(** ** Outcomes of a call *)

(** A Rust call returns a value, returns an error or panics. *)
Inductive result (E A : Type) : Type :=
  | Ok (a : A)
  | Err (e : E)
  | Panic.
Arguments Ok {E A} a.
Arguments Err {E A} e.
Arguments Panic {E A}.

#[export] Instance result_ret E : MRet (result E) := fun A a => Ok a.
#[export] Instance result_bind E : MBind (result E) := fun A B f r =>
  match r with Ok a => f a | Err e => Err e | Panic => Panic end.
#[export] Instance result_fmap E : FMap (result E) := fun A B f r =>
  match r with Ok a => Ok (f a) | Err e => Err e | Panic => Panic end.

(** [if !cond { return Err(e) }] *)
Definition ensure {E} (cond : bool) (e : E) : result E unit :=
  if cond then Ok tt else Err e.

(** [option.ok_or(e)?] *)
Definition ok_or {E A} (o : option A) (e : E) : result E A :=
  match o with Some a => Ok a | None => Err e end.

(** [option.expect(..)] and [vec[i]] *)
Definition expect {E A} (o : option A) : result E A :=
  match o with Some a => Ok a | None => Panic end.
Definition index {E A} (l : list A) (i : usize) : result E A := expect (l !! N.to_nat i).

(** The allocation of a buffer for [len] elements of [elem_size] bytes: it panics
    with [capacity overflow] beyond [isize::MAX] bytes.  That the machine has the
    memory is not modelled: an allocation it cannot serve aborts the process. *)
Definition with_capacity {E} (elem_size : N) (len : N) : result E unit :=
  if (elem_size * len <=? isize_max)%N then Ok tt else Panic.

(** [vec![x; len]] *)
Definition vec_repeat {E A} (elem_size : N) (x : A) (len : usize) : result E (list A) :=
  match with_capacity elem_size len with
  | Ok _ => Ok (replicate (N.to_nat len) x)
  | Err e => Err e
  | Panic => Panic
  end.

Definition map_err {E F A} (f : E → F) (r : result E A) : result F A :=
  match r with Ok a => Ok a | Err e => Err (f e) | Panic => Panic end.

Definition is_ok {E A} (r : result E A) : bool :=
  match r with Ok _ => true | _ => false end.
Definition no_panic {E A} (r : result E A) : Prop :=
  match r with Panic => False | _ => True end.
Definition res_ok {E A} (r : result E A) : option A :=
  match r with Ok a => Some a | _ => None end.

(** The value of a call known to succeed. *)
Definition unwrap {E A} (r : result E A) : is_ok r = true → A :=
  match r with
  | Ok a => fun _ => a
  | _ => fun H => False_rect _ (diff_false_true H)
  end.

(** [for x in xs { f(x)?; }] *)
Fixpoint for_each {E A} (f : A → result E unit) (xs : list A) : result E unit :=
  match xs with
  | [] => Ok tt
  | x :: xs => _ ← f x; for_each f xs
  end.

(** [iter.map(f).collect::<Result<Vec<_>, _>>()] *)
Fixpoint try_map {E A B} (f : A → result E B) (xs : list A) : result E (list B) :=
  match xs with
  | [] => Ok []
  | x :: xs => y ← f x; ys ← try_map f xs; Ok (y :: ys)
  end.

(** ** Record update *)

Class Eta (R : Type) : Type := eta : R → R.
Class Setter {R T : Type} (proj : R → T) : Type := upd : (T → T) → R → R.
Ltac derive_setter :=
  lazymatch goal with
  | |- @Setter ?R ?T ?proj =>
      let e := constr:(_ : Eta R) in
      let e := eval hnf in e in
      let abs := eval pattern proj in e in
      lazymatch abs with
      | ?g _ => let s := eval cbv beta in (fun (f : T → T) (r : R) => g (fun x => f (proj x)) r) in
                exact s
      end
  end.
#[export] Hint Extern 1 (Setter _) => derive_setter : typeclass_instances.
Notation "r <| proj := v |>" := (upd (proj := proj) (fun _ => v) r)
  (at level 1, left associativity, format "r  <| proj  :=  v |>") : coord_scope.
Notation "r <| proj ::= f |>" := (upd (proj := proj) f r)
  (at level 1, left associativity, format "r  <| proj  ::=  f |>") : coord_scope.

(** ** Bytes *)

Abbreviation byte := Byte.byte.
Abbreviation bytes := (list byte).

#[export] Instance byte_eq_dec : EqDecision byte := Byte.byte_eq_dec.
#[export] Program Instance byte_countable : Countable byte :=
  inj_countable' Byte.to_N (fun n => default Byte.x00 (Byte.of_N n)) _.
Next Obligation. intros b; simpl. by rewrite Byte.of_to_N. Qed.

(** [slice.try_into()] to an array of [n] elements. *)
Fixpoint try_into {A} (n : nat) (l : list A) : option (vec A n) :=
  match n, l with
  | O, [] => Some [#]
  | S n, x :: l => vcons x <$> try_into n l
  | _, _ => None
  end.

Lemma try_into_vec {A n} (v : vec A n) : try_into n (vec_to_list v) = Some v.
Proof. induction v as [|x n v IH]; simpl; [done|]. by rewrite IH. Qed.

(** [x.to_le_bytes()], [n] bytes. *)
Fixpoint to_le_bytes (n : nat) (x : N) : bytes :=
  match n with
  | O => []
  | S n => default Byte.x00 (Byte.of_N (x mod 256)) :: to_le_bytes n (x / 256)
  end.

(** [uN::from_be_bytes]. *)
Definition from_be_bytes (l : bytes) : N :=
  foldl (fun acc b => (acc * 256 + Byte.to_N b)%N) 0%N l.

(** ** Hash maps *)

(** The iteration order of Rust's [HashMap] and [HashSet] is unspecified: every
    function that iterates over one takes the order from an instance. *)
Class HashOrder : Type := {
  map_iter : ∀ {K V : Type} `{Countable K}, gmap K V → list (K * V);
  map_iter_perm : ∀ {K V : Type} `{Countable K} (m : gmap K V), map_iter m ≡ₚ map_to_list m;
  set_iter : ∀ {K : Type} `{Countable K}, gset K → list K;
  set_iter_perm : ∀ {K : Type} `{Countable K} (s : gset K), set_iter s ≡ₚ elements s;
}.

(** The order of stdpp's own enumeration is one possible order; it makes every
    function of the development executable. *)
Definition stdpp_hash_order : HashOrder := {|
  map_iter _ _ _ _ m := map_to_list m;
  map_iter_perm _ _ _ _ m := reflexivity (map_to_list m);
  set_iter _ _ _ s := elements s;
  set_iter_perm _ _ _ s := reflexivity (elements s);
|}.

(** ** Lemmas on outcomes *)

Create HintDb coord.

Section outcomes.
Context {E : Type}.

Lemma Ok_inj {A} (a b : A) : Ok (E := E) a = Ok b → a = b.
Proof. by intros [= ->]. Qed.

Lemma bind_Ok_inv {A B} (m : result E A) (k : A → result E B) b :
  (m ≫= k) = Ok b ↔ ∃ a, m = Ok a ∧ k a = Ok b.
Proof. destruct m; simpl; naive_solver. Qed.

Lemma bind_Err_inv {A B} (m : result E A) (k : A → result E B) e :
  (m ≫= k) = Err e ↔ m = Err e ∨ ∃ a, m = Ok a ∧ k a = Err e.
Proof. destruct m; simpl; naive_solver. Qed.

Lemma ensure_Ok_inv (c : bool) (e : E) u : ensure c e = Ok u ↔ c = true.
Proof. destruct c, u; simpl; naive_solver. Qed.

Lemma ensure_no_panic (c : bool) (e : E) : no_panic (ensure c e).
Proof. by destruct c. Qed.

Lemma bind_no_panic {A B} (m : result E A) (k : A → result E B) :
  no_panic m → (∀ a, m = Ok a → no_panic (k a)) → no_panic (m ≫= k).
Proof. destruct m; simpl; eauto. Qed.

Lemma for_each_Ok_inv {A} (f : A → result E unit) xs u :
  for_each f xs = Ok u ↔ Forall (fun x => f x = Ok tt) xs.
Proof.
  destruct u. induction xs as [|x xs IH]; simpl; [naive_solver|].
  rewrite Forall_cons, <-IH. destruct (f x) as [[]| |]; simpl; naive_solver.
Qed.

Lemma for_each_no_panic {A} (f : A → result E unit) xs :
  Forall (fun x => no_panic (f x)) xs → no_panic (for_each f xs).
Proof.
  induction 1 as [|x xs Hx Hxs IH]; simpl; [done|].
  by apply bind_no_panic.
Qed.

Lemma index_Ok {A} (l : list A) (i : usize) a :
  index (E := E) l i = Ok a ↔ l !! N.to_nat i = Some a.
Proof. unfold index. destruct (l !! N.to_nat i); simpl; naive_solver. Qed.

Lemma index_no_panic {A} (l : list A) (i : usize) :
  (i < vlen l)%N → no_panic (index (E := E) l i).
Proof.
  intros Hi. unfold index, vlen in *.
  destruct (lookup_lt_is_Some_2 l (N.to_nat i)) as [x ->]; [lia|done].
Qed.

Lemma ok_or_Ok_inv {A} (o : option A) (e : E) a : ok_or o e = Ok a ↔ o = Some a.
Proof. destruct o; simpl; naive_solver. Qed.

Lemma with_capacity_Ok size len u :
  with_capacity (E := E) size len = Ok u ↔ (size * len <= isize_max)%N.
Proof. unfold with_capacity. destruct u, (N.leb_spec (size * len) isize_max); split; intros; (done || lia). Qed.

Lemma vec_repeat_Ok {A} size (x : A) len l :
  vec_repeat (E := E) size x len = Ok l ↔
  l = replicate (N.to_nat len) x ∧ (size * len <= isize_max)%N.
Proof.
  rewrite <-(with_capacity_Ok size len tt). unfold vec_repeat.
  destruct (with_capacity size len) as [[]| |]; naive_solver.
Qed.

Lemma vec_repeat_no_panic {A} size (x : A) len :
  (size * len <= isize_max)%N → no_panic (vec_repeat (E := E) size x len).
Proof. intros Hfit. by rewrite (proj2 (vec_repeat_Ok size x len _) (conj eq_refl Hfit)). Qed.

Lemma ok_or_no_panic {A} (o : option A) (e : E) : no_panic (ok_or o e).
Proof. by destruct o. Qed.
End outcomes.

#[export] Hint Resolve ensure_no_panic ok_or_no_panic : coord.

(** Decompose hypotheses that say a guarded computation succeeded. *)
Ltac inv_ok_step :=
  match goal with
  | u : unit |- _ => destruct u
  | H : Ok ?a = Ok ?b |- _ => apply Ok_inj in H; first [subst a | subst b | simplify_eq H | idtac]
  | H : Err _ = Ok _ |- _ => discriminate H
  | H : Panic = Ok _ |- _ => discriminate H
  | H : mbind _ _ = Ok _ |- _ =>
      let a := fresh "a" in let H1 := fresh "Hok" in
      apply bind_Ok_inv in H as (a & H1 & H)
  | H : ensure _ _ = Ok _ |- _ => apply ensure_Ok_inv in H
  | H : for_each _ _ = Ok _ |- _ => apply for_each_Ok_inv in H
  | H : ok_or _ _ = Ok _ |- _ => apply ok_or_Ok_inv in H
  | H : index _ _ = Ok _ |- _ => apply index_Ok in H
  | H : with_capacity _ _ = Ok _ |- _ => apply with_capacity_Ok in H
  | H : vec_repeat _ _ _ = Ok _ |- _ => apply vec_repeat_Ok in H as [? H]
  end.
Ltac inv_ok := repeat inv_ok_step.

(** Boolean tests as propositions. *)
Ltac reflect_bool :=
  repeat match goal with
  | H : (_ <? _)%N = true |- _ => apply N.ltb_lt in H
  | H : (_ <? _)%N = false |- _ => apply N.ltb_ge in H
  | H : (_ <=? _)%N = true |- _ => apply N.leb_le in H
  | H : (_ <=? _)%N = false |- _ => apply N.leb_gt in H
  | H : (_ =? _)%N = true |- _ => apply N.eqb_eq in H
  | H : (_ =? _)%N = false |- _ => apply N.eqb_neq in H
  | H : negb _ = true |- _ => apply negb_true_iff in H
  | H : negb _ = false |- _ => apply negb_false_iff in H
  | H : _ && _ = true |- _ => apply andb_true_iff in H as [? ?]
  | H : _ || _ = false |- _ => apply orb_false_iff in H as [? ?]
  | H : bool_decide _ = true |- _ => apply bool_decide_eq_true in H
  | H : bool_decide _ = false |- _ => apply bool_decide_eq_false in H
  end.

(** ** Ranges *)

(** [start..end_] *)
Definition range_iter (start end_ : u64) : list u64 :=
  (fun k => (start + N.of_nat k)%N) <$> seq 0 (N.to_nat (end_ - start)).

Lemma length_range_iter a b : length (range_iter a b) = N.to_nat (b - a).
Proof. unfold range_iter. by rewrite length_fmap, length_seq. Qed.

Lemma elem_of_range_iter a b i : i ∈ range_iter a b ↔ (a <= i < b)%N.
Proof.
  unfold range_iter. rewrite list_elem_of_fmap. setoid_rewrite elem_of_seq.
  split; [intros (k & -> & Hk); lia|].
  intros Hi. exists (N.to_nat (i - a)). lia.
Qed.

Lemma range_iter_lookup a b (k : nat) i :
  range_iter a b !! k = Some i ↔ i = (a + N.of_nat k)%N ∧ (i < b)%N.
Proof.
  unfold range_iter. rewrite list_lookup_fmap, fmap_Some.
  setoid_rewrite lookup_seq. split; [intros (? & [-> ?] & ->); lia|].
  intros [-> Hb]. exists k. lia.
Qed.

(** ** Lists with optional slots *)

Definition is_some {A} (o : option A) : bool :=
  match o with Some _ => true | None => false end.

Definition count_some {A} (l : list (option A)) : nat := length (filter is_Some l).
Definition count_none {A} (l : list (option A)) : nat :=
  length (filter (fun o => o = None) l).

(** Writing the value [v] into each slot of [ix]. *)
Definition fill {A} (v : A) (ix : list u64) (l : list (option A)) : list (option A) :=
  foldl (fun l i => <[N.to_nat i := Some v]> l) l ix.

Lemma length_fill {A} (v : A) ix l : length (fill v ix l) = length l.
Proof.
  revert l. induction ix as [|i ix IH]; intros l; simpl; [done|].
  unfold fill in *. simpl. rewrite IH. apply length_insert.
Qed.

Lemma lookup_fill {A} (v : A) ix l (k : nat) :
  fill v ix l !! k =
    if decide (N.of_nat k ∈ ix ∧ k < length l) then Some (Some v) else l !! k.
Proof.
  revert l. induction ix as [|i ix IH]; intros l.
  { case_decide as Hd; [|done]. destruct Hd as [Hd _]. by apply not_elem_of_nil in Hd. }
  unfold fill in *. simpl. rewrite IH, length_insert.
  destruct (decide (N.to_nat i = k)) as [Hik|Hne].
  - destruct (decide (k < length l)) as [Hlt|Hge].
    + rewrite (decide_True (P := (N.of_nat k ∈ i :: ix ∧ k < length l))) by
        (split; [rewrite elem_of_cons; left; lia|done]).
      destruct (decide _) as [_|_]; [done|].
      subst k. by apply list_lookup_insert_eq.
    + rewrite !decide_False by naive_solver. by rewrite list_insert_ge by lia.
  - rewrite list_lookup_insert_ne by done.
    apply decide_ext. rewrite elem_of_cons.
    split; [naive_solver|]. intros [[?|?] ?]; [lia|done].
Qed.

Lemma count_none_zero {A} (l : list (option A)) :
  count_none l = 0 ↔ Forall is_Some l.
Proof.
  unfold count_none. induction l as [|[a|] l IH].
  - by split.
  - rewrite filter_cons_False by done. rewrite IH, Forall_cons. naive_solver.
  - rewrite filter_cons_True by done. simpl. rewrite Forall_cons.
    split; [lia|]. by intros [[? ?] ?].
Qed.

(** [vec[i] = v]: panics out of range. *)
Definition vec_set {E A} (l : list A) (i : usize) (v : A) : result E (list A) :=
  if (i <? vlen l)%N then Ok (<[N.to_nat i := v]> l) else Panic.

Lemma vec_set_Ok {E A} (l : list A) (i : usize) (v : A) :
  (i < vlen l)%N → vec_set (E := E) l i v = Ok (<[N.to_nat i := v]> l).
Proof. intros Hi. unfold vec_set. by rewrite (proj2 (N.ltb_lt _ _) Hi). Qed.

Lemma vlen_insert {A} (l : list A) (i : nat) (v : A) : vlen (<[i := v]> l) = vlen l.
Proof. unfold vlen. by rewrite length_insert. Qed.

(** Writing each value of [ps] into its slot; the last write to a slot stays. *)
Definition fill_pairs {A} (ps : list (u64 * A)) (l : list (option A)) : list (option A) :=
  foldl (fun l p => <[N.to_nat p.1 := Some p.2]> l) l ps.

Lemma length_fill_pairs {A} (ps : list (u64 * A)) l : length (fill_pairs ps l) = length l.
Proof.
  revert l. induction ps as [|p ps IH]; intros l; simpl; [done|].
  unfold fill_pairs in *. simpl. rewrite IH. apply length_insert.
Qed.

Lemma lookup_fill_pairs_ne {A} (ps : list (u64 * A)) l (k : nat) :
  N.of_nat k ∉ ps.*1 → fill_pairs ps l !! k = l !! k.
Proof.
  revert l. induction ps as [|[i v] ps IH]; intros l Hk; simpl; [done|].
  unfold fill_pairs in *. simpl. apply not_elem_of_cons in Hk as [Hki Hk].
  rewrite IH by done. apply list_lookup_insert_ne. simpl in *. lia.
Qed.

Lemma lookup_fill_pairs_elem {A} (ps : list (u64 * A)) l (k : nat) :
  N.of_nat k ∈ ps.*1 → k < length l →
  ∃ v, (N.of_nat k, v) ∈ ps ∧ fill_pairs ps l !! k = Some (Some v).
Proof.
  revert l. induction ps as [|[i v] ps IH]; intros l Hin Hlt.
  { by apply not_elem_of_nil in Hin. }
  destruct (decide (N.of_nat k ∈ ps.*1)) as [Hps|Hps].
  - destruct (IH (<[N.to_nat i := Some v]> l)) as (w & Hw & Heq); [done|by rewrite length_insert|].
    exists w. split; [by right|done].
  - assert (i = N.of_nat k) as -> by (apply elem_of_cons in Hin as [?|?]; [done|done]).
    exists v. split; [left|]. change (fill_pairs ps (<[N.to_nat (N.of_nat k):=Some v]> l) !! k = Some (Some v)).
    rewrite lookup_fill_pairs_ne, Nat2N.id by done. by apply list_lookup_insert_eq.
Qed.

Lemma u64_wrap_small x : (x < u64_modulus)%N → u64_wrap x = x.
Proof. apply N.mod_small. Qed.

Lemma as_usize_small x : (x < u64_modulus)%N → as_usize x = x.
Proof. apply u64_wrap_small. Qed.

Lemma as_usize_idemp x : as_usize (as_usize x) = as_usize x.
Proof. unfold as_usize, u64_wrap. by rewrite N.Div0.mod_mod. Qed.

Lemma as_usize_lt x : (as_usize x < u64_modulus)%N.
Proof. apply N.mod_lt. done. Qed.

Lemma vlen_lt {A} (l : list A) (i : nat) : (N.of_nat i < vlen l)%N ↔ i < length l.
Proof. unfold vlen. lia. Qed.

(** The three parts of an outcome. *)
Lemma outcome_eta {A B C} (x : A * B * C) : x = (x.1.1, x.1.2, x.2).
Proof. by destruct x as [[??]?]. Qed.

(** A wrapping sum is the sum modulo [2^64]. *)
Lemma u64_sum_mod l : u64_sum l = (foldr N.add 0 l mod u64_modulus)%N.
Proof.
  induction l as [|x l IH]; simpl; [done|].
  unfold u64_add, u64_wrap. rewrite IH. by rewrite N.Div0.add_mod_idemp_r.
Qed.

Lemma u64_sum_lt l : (u64_sum l < u64_modulus)%N.
Proof. rewrite u64_sum_mod. by apply N.mod_lt. Qed.

Lemma try_map_Ok {E A B} (f : A → result E B) (g : A → B) xs :
  (∀ x, x ∈ xs → f x = Ok (g x)) → try_map f xs = Ok (g <$> xs).
Proof.
  induction xs as [|x xs IH]; intros Hf; [done|]. cbn [try_map]. rewrite Hf by left.
  cbn [mbind result_bind]. rewrite IH by (intros ??; apply Hf; by right). done.
Qed.
