(* ===== verification/Shared.v ===== *)
(** The [coord-shared] crate: execution identifiers, protocol rounds, error
    types and the threshold arithmetic of the two share backends
    (src/crates/coord-shared/src/lib.rs). *)
From S2P Require Import Prelude.

(** ** Execution identifiers *)

Record ExecutionId : Type := from_bytes { as_bytes : vec byte 32 }.

#[export] Instance ExecutionId_eq_dec : EqDecision ExecutionId.
Proof. solve_decision. Defined.
#[export] Program Instance ExecutionId_countable : Countable ExecutionId :=
  inj_countable (fun id => vec_to_list (as_bytes id)) (fun l => from_bytes <$> try_into 32 l) _.
Next Obligation. intros [v]. cbn [as_bytes]. by rewrite try_into_vec. Qed.

Definition zero_bytes : vec byte 32 := vreplicate 32 Byte.x00.
Definition is_zero (id : ExecutionId) : bool := bool_decide (as_bytes id = zero_bytes).

(** ** Protocol rounds *)

Inductive Round : Type :=
  | Idle
  | Preprocessing
  | InputMaskReservation
  | InputCollection
  | MPCExecution
  | OutputDistribution
  | ProgramFinished.

#[export] Instance Round_eq_dec : EqDecision Round.
Proof. solve_decision. Defined.
#[export] Program Instance Round_finite : Finite Round := {|
  enum := [Idle; Preprocessing; InputMaskReservation; InputCollection; MPCExecution;
           OutputDistribution; ProgramFinished] |}.
Next Obligation. apply (bool_decide_unpack _); by vm_compute. Qed.
Next Obligation. intros []; apply (bool_decide_unpack _); by vm_compute. Qed.

Definition round_index (round : Round) : N :=
  match round with
  | Idle => 0
  | Preprocessing => 1
  | InputMaskReservation => 2
  | InputCollection => 3
  | MPCExecution => 4
  | OutputDistribution => 5
  | ProgramFinished => 6
  end.

Definition round_before (current : Round) : option Round :=
  match current with
  | Idle => None
  | Preprocessing => Some Idle
  | InputMaskReservation => Some Preprocessing
  | InputCollection => Some InputMaskReservation
  | MPCExecution => Some InputCollection
  | OutputDistribution => Some MPCExecution
  | ProgramFinished => Some OutputDistribution
  end.

(** ** Errors *)

(** [String] payloads keep the literal or format string of the source; the
    values interpolated into it are not kept. *)
Inductive CoordinatorError : Type :=
  | IndexAlreadyReserved (i : usize)
  | MaskedInputAlreadySent (i : usize)
  | MaskReconstructionFailed (n : usize)
  | EthereumError (m : string)
  | U256ToFrError
  | U256ToU64Error
  | U64ToUsizeError
  | ParsingDERAsPKCS8Failed
  | ParsingPrivateKeyFailed
  | DeserializationError
  | SerializationError
  | ParsingPublicKeyFailed
  | EncryptionError
  | DecryptionError
  | JSONError (m : string)
  | SubscriptionError (m : string)
  | ParsingEncapsulatedKeyFailed
  | CannotTransitionToIdle
  | ShareErr
  | BindError (m : string)
  | ConnectError (m : string)
  | TlsConfigError (m : string).

Inductive NodeRPCError : Type :=
  | NodeExecutionNotFound
  | IndexAlreadyAdded
  | IndexNotAdded
  | NodeJSONError
  | NodeSerializationError
  | NodeEthereumError (m : string)
  | AuthenticationFailed (id : bytes).

(** ** Backends *)

Inductive MpcBackend : Type := HoneyBadger | Avss.

(** [RobustShare::min_shares] and [FeldmanShamirShare::min_shares]. *)
Definition robust_min_shares (t : usize) : usize := u64_add (u64_wrap (2 * t)) 1.
Definition feldman_min_shares (t : usize) : usize := u64_add t 1.

Definition min_shares (b : MpcBackend) : usize → usize :=
  match b with HoneyBadger => robust_min_shares | Avss => feldman_min_shares end.

(** ** Hexadecimal form of an identifier *)

(** [hex::encode] and [hex::decode] belong to another crate: they are arguments,
    and what the code relies on is stated as hypotheses. *)
Section hex.
Context (hex_encode : bytes → string) (hex_decode : string → option bytes).

(** [Display for ExecutionId] *)
Definition to_string (id : ExecutionId) : string := hex_encode (vec_to_list (as_bytes id)).

(** [FromStr for ExecutionId]: the length test, the decoding, and the conversion
    of the bytes to an array, which panics on a wrong length. *)
Definition from_str (value : string) : result string ExecutionId :=
  if bool_decide (String.length value = 64%nat) then
    bs ← ok_or (hex_decode value) "invalid execution ID: {error}"%string;
    arr ← expect (try_into 32 bs);
    Ok (from_bytes arr)
  else Err "execution ID must contain exactly 64 hexadecimal characters, got {}"%string.

(** [parse_nonzero_execution_id] of run-coord. *)
Definition parse_nonzero_execution_id (value : string) : result string ExecutionId :=
  id ← from_str value;
  if is_zero id then Err "execution ID must be nonzero"%string else Ok id.
End hex.
