(* ===== verification/Execution.v ===== *)
(** One program invocation: the registration data, the mutable per-execution
    state, the subscription replays and the voting round engine
    (src/crates/off-chain/src/lib.rs, [CoordinatorExecutionState]). *)
From S2P Require Import Prelude Shared.

(** ** Wire data *)

Abbreviation ClientIdentity := bytes.

Record AssignedMaskReservation : Type := mkAssignedMaskReservation {
  amr_client : ClientIdentity;
  amr_reserved_index : u64;
  amr_input_ordinal : u64 }.

Record AssignedMaskedInputEvent : Type := mkAssignedMaskedInputEvent {
  amie_client : ClientIdentity;
  amie_reserved_index : u64;
  amie_input_ordinal : u64;
  amie_masked_input : bytes }.

Record InputSlotAssignment : Type := mkInputSlotAssignment {
  slot_client_index : u32;
  slot_label : u64 }.

Record InputClientRange : Type := mkInputClientRange {
  range_client_index : u32;
  range_count : u64 }.

Record InputAssignment : Type := mkInputAssignment {
  ia_clients : list ClientIdentity;
  ia_ranges : list InputClientRange }.

Definition InputAssignment_default : InputAssignment := mkInputAssignment [] [].

Record ExecutionRegistration : Type := mkExecutionRegistration {
  execution_id : ExecutionId;
  program_hash : vec byte 32;
  n_inputs : u64;
  reg_output_clients : list ClientIdentity;
  input_assignment : InputAssignment;
  min_output_shares : u64 }.

#[export] Instance InputSlotAssignment_eq_dec : EqDecision InputSlotAssignment.
Proof. solve_decision. Defined.
#[export] Instance InputClientRange_eq_dec : EqDecision InputClientRange.
Proof. solve_decision. Defined.
#[export] Instance InputAssignment_eq_dec : EqDecision InputAssignment.
Proof. solve_decision. Defined.
#[export] Instance ExecutionRegistration_eq_dec : EqDecision ExecutionRegistration.
Proof. solve_decision. Defined.

Inductive Event : Type :=
  | CoordinatorInitialized (creation_block : u64) (designated_party : ClientIdentity)
  | MaskedInputEvent (client : ClientIdentity) (masked_inputs : list (u64 * bytes))
  | IndexBufferEvent (total_indices : u64) (designated_party : ClientIdentity)
  | ReservedInputEvent (client : ClientIdentity) (reserved_indices : list u64)
  | PreprocessingStarted (designated_party : ClientIdentity)
  | InputCollectionStarted
  | InputMaskReservationStarted
  | MPCStarted
  | ExecutionDone
  | OutputSendingStarted
  | OutputsPublished
  | ClientInputMaskReservationEvent
  | ClientOutputCollection
  | PreprocessingRoundExecuted.

(** ** RPC errors: the code of the error object; its text is not modelled *)

Inductive CoordinatorRPCBaseError : Type :=
  | NotDesignatedParty | WrongRound | IndexOutOfBounds | BadID
  | MaskedInputAlreadySubmitted | IndexNotReserved | IndexReservedAlready
  | OutputSharesAlreadySent | OutputSharesAlreadyRequested | NotParty
  | SendingFailed | NotOutputClient | MismatchedBatchLengths
  | ClientAlreadyReserved | UnauthorizedClientIo | ExecutionNotFound
  | ExecutionAlreadyRegistered | ShutdownNotAccepted | EmptyBatch.

Definition base_error_code (e : CoordinatorRPCBaseError) : Z :=
  match e with
  | NotDesignatedParty => 1
  | WrongRound => 2
  | IndexOutOfBounds => 3
  | BadID => 4
  | MaskedInputAlreadySubmitted => 5
  | IndexNotReserved => 6
  | IndexReservedAlready => 7
  | OutputSharesAlreadySent => 8
  | OutputSharesAlreadyRequested => 9
  | NotParty => 10
  | SendingFailed => 11
  | NotOutputClient => 12
  | MismatchedBatchLengths => 13
  | ClientAlreadyReserved => 14
  | UnauthorizedClientIo => 15
  | ExecutionNotFound => 16
  | ExecutionAlreadyRegistered => 17
  | ShutdownNotAccepted => 18
  | EmptyBatch => 19
  end.

(** [ErrorObjectOwned], by its code. *)
Record ErrorObject : Type := rpc_error { code : Z }.
Definition server_error (e : CoordinatorRPCBaseError) : ErrorObject :=
  rpc_error (base_error_code e).
Definition invalid_params : ErrorObject := rpc_error (-32602).

#[export] Instance ErrorObject_eq_dec : EqDecision ErrorObject.
Proof. solve_decision. Defined.

(** ** Subscriptions *)

(** A subscription sink is an identity; what is sent to it is recorded in a
    log.  Whether the [k]-th send of a call reaches a sink in time, and whether
    a sink is closed, is decided by the environment. *)
Abbreviation SubscriptionSink := positive.

Inductive Message : Type :=
  | MEvent (e : Event)
  | MReservations (l : list AssignedMaskReservation)
  | MMaskedInputs (l : list AssignedMaskedInputEvent)
  | MOutputShares (l : list (bytes * bytes)).

Abbreviation Send := (SubscriptionSink * Message)%type.

Record Net : Type := mkNet {
  send_ok : SubscriptionSink → nat → bool;
  is_closed : SubscriptionSink → bool }.

Definition all_up : Net := mkNet (fun _ _ => true) (fun _ => false).

(** Sends [msgs] in order, stopping at the first failure; the attempts made and
    whether all of them succeeded. *)
Fixpoint replay (net : Net) (sink : SubscriptionSink) (k : nat) (msgs : list Message)
    : list Send * bool :=
  match msgs with
  | [] => ([], true)
  | m :: msgs =>
      if send_ok net sink k then
        let '(log, ok) := replay net sink (S k) msgs in ((sink, m) :: log, ok)
      else ([(sink, m)], false)
  end.

(** [join_all(sinks.map(send))]: one concurrent send per sink; the sinks whose
    send succeeded are kept, in order. *)
Definition broadcast (sinks : list SubscriptionSink) (m : Message) : list Send :=
  (fun s => (s, m)) <$> sinks.
Definition delivered (net : Net) (sinks : list SubscriptionSink) : list SubscriptionSink :=
  filter (fun s => send_ok net s 0 = true) sinks.

(** ** Per-execution state *)

Abbreviation LockId := positive.

Record CoordinatorExecutionState : Type := mkExec {
  registration : ExecutionRegistration;
  retirement_acks : gset ClientIdentity;
  transition_votes : gmap Round (gset ClientIdentity);
  sinks : gmap Round (list SubscriptionSink);
  trans_events : gmap Round Event;
  reserved_index_events : list Event;
  reserved_index_sinks : list SubscriptionSink;
  assigned_reserved_index_events : list AssignedMaskReservation;
  assigned_reserved_index_sinks : list SubscriptionSink;
  masked_input_events : list Event;
  masked_input_sinks : list SubscriptionSink;
  assigned_masked_input_events : list AssignedMaskedInputEvent;
  assigned_masked_input_sinks : list SubscriptionSink;
  masked_input_delivery : LockId;
  n_reserved : u64;
  reserved_indices : list (option ClientIdentity);
  masked_inputs : list (option bytes);
  round : Round;
  output_shares : gmap (ClientIdentity * ClientIdentity) (bytes * bytes);
  output_sinks : gmap ClientIdentity SubscriptionSink;
  output_clients : list ClientIdentity;
  input_assignments : list InputSlotAssignment }.

#[export] Instance exec_eta : Eta CoordinatorExecutionState := fun d =>
  mkExec (registration d) (retirement_acks d) (transition_votes d) (sinks d)
    (trans_events d) (reserved_index_events d) (reserved_index_sinks d)
    (assigned_reserved_index_events d) (assigned_reserved_index_sinks d)
    (masked_input_events d) (masked_input_sinks d) (assigned_masked_input_events d)
    (assigned_masked_input_sinks d) (masked_input_delivery d) (n_reserved d)
    (reserved_indices d) (masked_inputs d) (round d) (output_shares d)
    (output_sinks d) (output_clients d) (input_assignments d).

(** [expand_input_ranges] *)
Definition expand_range (range : InputClientRange) : list InputSlotAssignment :=
  mkInputSlotAssignment (range_client_index range) <$> range_iter 0 (range_count range).
Definition input_slots (ranges : list InputClientRange) : list InputSlotAssignment :=
  ranges ≫= expand_range.

(** [size_of] of an [InputSlotAssignment] and of an [Option<Vec<u8>>]. *)
Definition SLOT_SIZE : N := 16.
Definition OPTION_VEC_SIZE : N := 24.

(** The capacity is asked for the wrapped total of the counts; the vector then has
    to grow to the true total, which is larger only when it exceeds every capacity. *)
Definition expand_input_ranges {E} (ranges : list InputClientRange)
    : result E (list InputSlotAssignment) :=
  _ ← with_capacity SLOT_SIZE (u64_sum (range_count <$> ranges));
  _ ← with_capacity SLOT_SIZE (foldr N.add 0%N (range_count <$> ranges));
  Ok (input_slots ranges).

(** [CoordinatorExecutionState::new]; [delivery] is the freshly allocated
    delivery mutex. *)
Definition new_execution (reg : ExecutionRegistration) (n : u64) (delivery : LockId)
    : result CoordinatorError CoordinatorExecutionState :=
  let ranges := ia_ranges (input_assignment reg) in
  _ ← ensure (negb (is_zero (execution_id reg)))
        (JSONError "execution ID must be nonzero");
  _ ← ensure (negb (bool_decide (program_hash reg = zero_bytes)))
        (JSONError "program hash must be nonzero");
  let ranges_total := u64_sum (range_count <$> ranges) in
  _ ← ensure (bool_decide (ranges = []) || (n_inputs reg =? ranges_total)%N)
        (JSONError "Input assignment covers {ranges_total} inputs, but coordinator was configured with {} inputs");
  let n_clients := vlen (ia_clients (input_assignment reg)) in
  _ ← ensure (forallb (fun range => negb (n_clients <=? range_client_index range)%N) ranges)
        (JSONError "Input range references client_index {}, but only {n_clients} clients were provided");
  _ ← ensure (negb ((min_output_shares reg =? 0)%N || (n <? min_output_shares reg)%N))
        (JSONError "Output quorum {} must be between 1 and {n}");
  size ← ok_or (usize_try_from (n_inputs reg)) U64ToUsizeError;
  reserved ← vec_repeat OPTION_VEC_SIZE None size;
  masked ← vec_repeat OPTION_VEC_SIZE None size;
  slots ← expand_input_ranges ranges;
  Ok {| registration := reg;
        retirement_acks := ∅;
        transition_votes := ∅;
        sinks := ∅;
        trans_events := ∅;
        reserved_index_events := [];
        reserved_index_sinks := [];
        assigned_reserved_index_events := [];
        assigned_reserved_index_sinks := [];
        masked_input_events := [];
        masked_input_sinks := [];
        assigned_masked_input_events := [];
        assigned_masked_input_sinks := [];
        masked_input_delivery := delivery;
        n_reserved := 0;
        reserved_indices := reserved;
        masked_inputs := masked;
        round := Idle;
        output_shares := ∅;
        output_sinks := ∅;
        output_clients := reg_output_clients reg;
        input_assignments := slots |}.

(** [input_slot_client] *)
Definition input_slot_client (d : CoordinatorExecutionState) (slot : InputSlotAssignment)
    : option ClientIdentity :=
  ia_clients (input_assignment (registration d)) !! N.to_nat (slot_client_index slot).

(** ** Subscription with replay of the event history *)

Definition subscribe_reserved_indices (net : Net) (sink : SubscriptionSink)
    (d : CoordinatorExecutionState) : CoordinatorExecutionState * list Send :=
  let '(log, ok) := replay net sink 0 (MEvent <$> reserved_index_events d) in
  (if ok then d <| reserved_index_sinks ::= (.++ [sink]) |> else d, log).

Definition subscribe_masked_inputs (net : Net) (sink : SubscriptionSink)
    (d : CoordinatorExecutionState) : CoordinatorExecutionState * list Send :=
  let '(log, ok) := replay net sink 0 (MEvent <$> masked_input_events d) in
  (if ok then d <| masked_input_sinks ::= (.++ [sink]) |> else d, log).

(** The assigned-event histories are replayed as one batch, if there are any. *)
Definition subscribe_assigned_reserved_indices (net : Net) (sink : SubscriptionSink)
    (d : CoordinatorExecutionState) : CoordinatorExecutionState * list Send :=
  let batch := if bool_decide (assigned_reserved_index_events d = []) then []
               else [MReservations (assigned_reserved_index_events d)] in
  let '(log, ok) := replay net sink 0 batch in
  (if ok then d <| assigned_reserved_index_sinks ::= (.++ [sink]) |> else d, log).

Definition subscribe_assigned_masked_inputs (net : Net) (sink : SubscriptionSink)
    (d : CoordinatorExecutionState) : CoordinatorExecutionState * list Send :=
  let batch := if bool_decide (assigned_masked_input_events d = []) then []
               else [MMaskedInputs (assigned_masked_input_events d)] in
  let '(log, ok) := replay net sink 0 batch in
  (if ok then d <| assigned_masked_input_sinks ::= (.++ [sink]) |> else d, log).

(** ** The round engine *)

(** Every round except [Idle], in protocol order. *)
Definition ORDERED_ROUNDS : list Round :=
  [Preprocessing; InputMaskReservation; InputCollection; MPCExecution;
   OutputDistribution; ProgramFinished].

Definition skips_empty_input_rounds (d : CoordinatorExecutionState) (next_round : Round) : bool :=
  bool_decide (round d = Preprocessing) && bool_decide (next_round = MPCExecution).

Definition skips_empty_output_rounds (d : CoordinatorExecutionState) (next_round : Round) : bool :=
  bool_decide (round d = MPCExecution) && bool_decide (next_round = ProgramFinished).

(** [blocking_precondition]: the reason text is not modelled, only whether there
    is one. *)
Definition blocking_precondition (d : CoordinatorExecutionState) (next_round : Round) : bool :=
  bool_decide (next_round = MPCExecution) &&
  negb (skips_empty_input_rounds d next_round) &&
  (0 <? N.of_nat (count_none (masked_inputs d)))%N.

(** The number of parties that proposed a round. *)
Definition vote_count (d : CoordinatorExecutionState) (r : Round) : option usize :=
  (fun voters => N.of_nat (size voters)) <$> transition_votes d !! r.

Definition quorum_candidate (quorum : usize) (d : CoordinatorExecutionState) (candidate : Round)
    : bool :=
  (bool_decide (round_before candidate = Some (round d)) ||
   skips_empty_input_rounds d candidate ||
   skips_empty_output_rounds d candidate) &&
  match vote_count d candidate with
  | Some voters => (quorum <=? voters)%N
  | None => false
  end.

(** [iter.find(p)] *)
Fixpoint iter_find {A} (p : A → bool) (l : list A) : option A :=
  match l with
  | [] => None
  | x :: l => if p x then Some x else iter_find p l
  end.

Definition next_quorum_round (quorum : usize) (d : CoordinatorExecutionState) : option Round :=
  iter_find (quorum_candidate quorum d) ORDERED_ROUNDS.

(** [CoordinatorExecutionState::transition]: the sinks waiting for the round,
    and the state in which the round is current and recorded. *)
Definition transition (event : Event) (r : Round) (d : CoordinatorExecutionState)
    : result CoordinatorError (list SubscriptionSink * CoordinatorExecutionState) :=
  match round_before r with
  | None => Err CannotTransitionToIdle
  | Some _ =>
      let waiting := default [] (sinks d !! r) in
      Ok (waiting,
          d <| sinks ::= delete r |> <| trans_events ::= <[r := event]> |> <| round := r |>)
  end.

(** The event announcing a round; [None] for [Idle]. *)
Definition round_event (roster_head : ClientIdentity) (r : Round) : option Event :=
  match r with
  | Idle => None
  | Preprocessing => Some (PreprocessingStarted roster_head)
  | InputMaskReservation => Some InputMaskReservationStarted
  | InputCollection => Some InputCollectionStarted
  | MPCExecution => Some MPCStarted
  | OutputDistribution => Some OutputSendingStarted
  | ProgramFinished => Some ExecutionDone
  end.

Abbreviation TransitionDelivery := (Round * Event * list SubscriptionSink)%type.

(** The loop of [try_advance].  Each iteration moves to a later round, so seven
    units of fuel are enough (see [Rounds.try_advance_loop_more]). *)
Fixpoint try_advance_loop (fuel : nat) (quorum : usize) (roster_head : ClientIdentity)
    (d : CoordinatorExecutionState) (deliveries : list TransitionDelivery)
    : result ErrorObject (CoordinatorExecutionState * list TransitionDelivery) :=
  match fuel with
  | O => Ok (d, deliveries)
  | S fuel =>
      match next_quorum_round quorum d with
      | None => Ok (d, deliveries)
      | Some next_round =>
          if blocking_precondition d next_round then Ok (d, deliveries)
          else
            match round_event roster_head next_round with
            | None => Ok (d, deliveries)
            | Some event =>
                match transition event next_round d with
                | Ok (waiting, d') =>
                    try_advance_loop fuel quorum roster_head d'
                      (deliveries ++ [(next_round, event, waiting)])
                | _ => Panic
                end
            end
      end
  end.

Definition try_advance (quorum : usize) (roster_head : ClientIdentity)
    (d : CoordinatorExecutionState)
    : result ErrorObject (CoordinatorExecutionState * list TransitionDelivery) :=
  try_advance_loop 7 quorum roster_head d [].

(** [deliver_transitions] *)
Definition deliver_transitions (deliveries : list TransitionDelivery) : list Send :=
  deliveries ≫= (fun '(_, event, waiting) => broadcast waiting (MEvent event)).

(** ** Output snapshots *)

Section outputs.
Context `{HashOrder}.

(** The shares stored for one client, in the map's iteration order. *)
Definition shares_for (d : CoordinatorExecutionState) (client_id : ClientIdentity)
    : list (bytes * bytes) :=
  snd <$> filter (fun e => e.1.1 = client_id) (map_iter (output_shares d)).

(** [ready_output_snapshot] *)
Definition ready_output_snapshot (net : Net) (client_id : ClientIdentity) (min_shares : usize)
    (d : CoordinatorExecutionState)
    : CoordinatorExecutionState * option (SubscriptionSink * list (bytes * bytes)) :=
  match output_sinks d !! client_id with
  | None => (d, None)
  | Some waiter =>
      if is_closed net waiter then (d <| output_sinks ::= delete client_id |>, None)
      else
        let shares := shares_for d client_id in
        if (vlen shares <? min_shares)%N then (d, None) else (d, Some (waiter, shares))
  end.
End outputs.
