(* ===== verification/Samples.v ===== *)
(** Concrete parties, registrations and executions on which the theorems are
    exercised. *)
From S2P Require Import Prelude Shared Execution.

Definition party1 : ClientIdentity := [Byte.x01].
Definition party2 : ClientIdentity := [Byte.x02].
Definition party3 : ClientIdentity := [Byte.x03].
Definition party4 : ClientIdentity := [Byte.x04].
Definition parties : list ClientIdentity := [party1; party2; party3; party4].
Definition client1 : ClientIdentity := [Byte.xc1].
Definition client2 : ClientIdentity := [Byte.xc2].

Definition sample_eid : ExecutionId := from_bytes (vreplicate 32 Byte.x11).
Definition sample_eid2 : ExecutionId := from_bytes (vreplicate 32 Byte.x22).
Definition sample_hash : vec byte 32 := vreplicate 32 Byte.xaa.

(** Two clients with one input each; four parties, one of which may be faulty. *)
Definition sample_assignment : InputAssignment :=
  mkInputAssignment [client1; client2] [mkInputClientRange 0 1; mkInputClientRange 1 1].
Definition sample_registration : ExecutionRegistration :=
  mkExecutionRegistration sample_eid sample_hash 2 [client1] sample_assignment 3.

Definition sample_exec : CoordinatorExecutionState :=
  unwrap (new_execution sample_registration 4 1) eq_refl.

(** Votes of three parties for every round. *)
Definition sample_votes : gmap Round (gset ClientIdentity) :=
  list_to_map ((fun r => (r, {[party1; party2; party3]})) <$> ORDERED_ROUNDS).

(** Waiting for the inputs, with the votes for the execution already there. *)
Definition sample_collecting : CoordinatorExecutionState :=
  sample_exec <| round := InputCollection |> <| transition_votes := sample_votes |>.

(** The same with both inputs submitted. *)
Definition sample_submitted : CoordinatorExecutionState :=
  sample_collecting <| masked_inputs := [Some [Byte.x10]; Some [Byte.x20]] |>.
