(* ===== verification/Rounds.v ===== *)
(** The voting round engine: an abstract round machine, and the proof that
    [try_advance] runs it to rest ([Execution.try_advance]). *)
From S2P Require Import Prelude Shared Execution Samples.

(** ** The abstract round machine *)

(** The moves between rounds the coordinator can make: to the following round,
    past the two input rounds, or past output distribution. *)
Inductive legal_move : Round → Round → Prop :=
  | move_next r r' : round_before r' = Some r → legal_move r r'
  | move_skip_inputs : legal_move Preprocessing MPCExecution
  | move_skip_outputs : legal_move MPCExecution ProgramFinished.

Definition inputs_complete (d : CoordinatorExecutionState) : Prop :=
  Forall is_Some (masked_inputs d).

(** At least [quorum] distinct parties proposed [r]. *)
Definition has_quorum (quorum : usize) (votes : gmap Round (gset ClientIdentity)) (r : Round) : Prop :=
  ∃ voters, votes !! r = Some voters ∧ (quorum <= N.of_nat (size voters))%N.

(** One move of the abstract machine: legal, backed by a quorum, and into
    [MPCExecution] only with every input present, unless the input rounds are
    skipped altogether. *)
Inductive round_step (quorum : usize) (d : CoordinatorExecutionState) : Round → Round → Prop :=
  | round_step_intro r r' :
      legal_move r r' →
      has_quorum quorum (transition_votes d) r' →
      (r' = MPCExecution → r = Preprocessing ∨ inputs_complete d) →
      round_step quorum d r r'.

(** A run of the abstract machine and the rounds it enters. *)
Inductive round_run (quorum : usize) (d : CoordinatorExecutionState)
    : Round → list Round → Round → Prop :=
  | round_run_nil r : round_run quorum d r [] r
  | round_run_cons r r' rs r'' :
      round_step quorum d r r' → round_run quorum d r' rs r'' →
      round_run quorum d r (r' :: rs) r''.

(** The engine is at rest: no move is possible. *)
Definition settled (quorum : usize) (d : CoordinatorExecutionState) : Prop :=
  ∀ r, next_quorum_round quorum d = Some r → blocking_precondition d r = true.

#[export] Hint Constructors legal_move round_run : coord.

(** ** Rounds *)

Lemma legal_move_index r r' : legal_move r r' → (round_index r < round_index r')%N.
Proof. intros [? r2 Hb| |]; [destruct r2; naive_solver|done|done]. Qed.

Lemma legal_move_not_idle r r' : legal_move r r' → r' ≠ Idle.
Proof. intros [? r2 Hb| |]; [destruct r2; naive_solver|done|done]. Qed.

Lemma legal_move_exists r : r ≠ ProgramFinished → ∃ r', legal_move r r'.
Proof.
  destruct r; intros ?; [exists Preprocessing|exists InputMaskReservation|exists InputCollection
    |exists MPCExecution|exists OutputDistribution|exists ProgramFinished|done]; by apply move_next.
Qed.

Lemma round_index_inj r r' : round_index r = round_index r' → r = r'.
Proof. by destruct r, r'. Qed.

Lemma round_before_Some r : r ≠ Idle → is_Some (round_before r).
Proof. destruct r; naive_solver. Qed.

Lemma round_event_Some head r : r ≠ Idle → is_Some (round_event head r).
Proof. destruct r; naive_solver. Qed.

Lemma elem_of_ORDERED_ROUNDS r : r ∈ ORDERED_ROUNDS ↔ r ≠ Idle.
Proof.
  split; [intros H ->; revert H; apply (bool_decide_unpack _); by vm_compute|].
  intros. destruct r; [done|..]; apply (bool_decide_unpack _); by vm_compute.
Qed.

(** ** [find] *)

Lemma iter_find_Some {A} (p : A → bool) l x : iter_find p l = Some x → x ∈ l ∧ p x = true.
Proof.
  induction l as [|y l IH]; simpl; [done|]. destruct (p y) eqn:Hp.
  - intros [= ->]. split; [left|done].
  - intros Hf. apply IH in Hf as [??]. split; [by right|done].
Qed.

Lemma iter_find_None {A} (p : A → bool) l : iter_find p l = None ↔ ∀ x, x ∈ l → p x = false.
Proof.
  induction l as [|y l IH]; simpl.
  { split; [intros _ x Hx; by apply not_elem_of_nil in Hx|done]. }
  destruct (p y) eqn:Hp; [split; [done|]|].
  - intros Hall. specialize (Hall y ltac:(left)). congruence.
  - rewrite IH. setoid_rewrite elem_of_cons. naive_solver.
Qed.

(** ** The candidate test *)

Lemma quorum_candidate_true quorum d r :
  quorum_candidate quorum d r = true ↔
  legal_move (round d) r ∧ has_quorum quorum (transition_votes d) r.
Proof.
  unfold quorum_candidate, vote_count, has_quorum, skips_empty_input_rounds,
    skips_empty_output_rounds.
  rewrite andb_true_iff, !orb_true_iff, !andb_true_iff, !bool_decide_eq_true.
  assert ((round_before r = Some (round d) ∨ round d = Preprocessing ∧ r = MPCExecution)
          ∨ round d = MPCExecution ∧ r = ProgramFinished ↔ legal_move (round d) r) as ->.
  { split.
    - intros [[?|[-> ->]]|[-> ->]]; eauto with coord.
    - intros Hm. inversion Hm; naive_solver. }
  destruct (transition_votes d !! r) as [voters|] eqn:Hv; simpl; rewrite ?N.leb_le; naive_solver.
Qed.

Lemma next_quorum_round_Some quorum d r :
  next_quorum_round quorum d = Some r →
  legal_move (round d) r ∧ has_quorum quorum (transition_votes d) r.
Proof.
  unfold next_quorum_round. intros [_ Hc]%iter_find_Some. by apply quorum_candidate_true.
Qed.

Lemma next_quorum_round_None quorum d :
  next_quorum_round quorum d = None ↔
  ∀ r, legal_move (round d) r → ¬ has_quorum quorum (transition_votes d) r.
Proof.
  unfold next_quorum_round. rewrite iter_find_None. split.
  - intros Hn r Hm Hq. assert (r ∈ ORDERED_ROUNDS) as Hin%Hn
      by (by apply elem_of_ORDERED_ROUNDS, (legal_move_not_idle (round d))).
    assert (quorum_candidate quorum d r = true) by by apply quorum_candidate_true. congruence.
  - intros Hn r _. destruct (quorum_candidate quorum d r) eqn:Hc; [|done].
    apply quorum_candidate_true in Hc as [Hm Hq]. by destruct (Hn r).
Qed.

Lemma blocking_precondition_false d r :
  blocking_precondition d r = false ↔
  (r = MPCExecution → round d = Preprocessing ∨ inputs_complete d).
Proof.
  unfold blocking_precondition, skips_empty_input_rounds, inputs_complete.
  rewrite <-count_none_zero.
  destruct (decide (r = MPCExecution)) as [->|Hr].
  2: { rewrite (bool_decide_eq_false_2 _ Hr). simpl. naive_solver. }
  rewrite !(bool_decide_eq_true_2 (MPCExecution = MPCExecution)) by done.
  destruct (decide (round d = Preprocessing)) as [Hp|Hp].
  { rewrite bool_decide_eq_true_2 by done. simpl. naive_solver. }
  rewrite bool_decide_eq_false_2 by done. simpl. rewrite N.ltb_ge.
  split; [intros ? _; right; lia|]. intros [?|?]; [done|done|lia].
Qed.

(** ** One iteration *)

(** The state and history after one accepted move. *)
Definition after_move (event : Event) (r : Round) (d : CoordinatorExecutionState) :=
  d <| sinks ::= delete r |> <| trans_events ::= <[r := event]> |> <| round := r |>.

Lemma transition_Ok event r d :
  r ≠ Idle →
  transition event r d =
    Ok (default [] (sinks d !! r), after_move event r d).
Proof. intros [b Hb]%round_before_Some. unfold transition. by rewrite Hb. Qed.

(** A change of the state that moves the round machine only. *)
Definition same_but_round (d d' : CoordinatorExecutionState) : Prop :=
  d' = d <| sinks := sinks d' |> <| trans_events := trans_events d' |> <| round := round d' |>.

#[export] Instance same_but_round_preorder : PreOrder same_but_round.
Proof.
  split.
  - by intros [].
  - unfold same_but_round. intros d1 d2 d3 H12 H23.
    rewrite H23. rewrite H12. destruct d1, d2, d3. by simplify_eq/=.
Qed.

Lemma same_but_round_fields d d' : same_but_round d d' →
  transition_votes d' = transition_votes d ∧ masked_inputs d' = masked_inputs d ∧
  registration d' = registration d ∧ reserved_indices d' = reserved_indices d.
Proof. unfold same_but_round. intros ->. by destruct d. Qed.

Lemma round_step_frame quorum d d' r r' :
  same_but_round d d' → round_step quorum d r r' ↔ round_step quorum d' r r'.
Proof.
  intros (Hv & Hm & _ & _)%same_but_round_fields.
  split; intros [??]; constructor; unfold inputs_complete in *; rewrite ?Hv, ?Hm in *; done.
Qed.

Lemma round_run_frame quorum d d' r rs r' :
  same_but_round d d' → round_run quorum d' r rs r' → round_run quorum d r rs r'.
Proof.
  intros Hf. induction 1; econstructor; [|done]. by eapply round_step_frame.
Qed.

Lemma after_move_frame event r d : same_but_round d (after_move event r d).
Proof. done. Qed.

(** ** The loop *)

Definition entered (dels : list TransitionDelivery) : list Round := (fun x => x.1.1) <$> dels.

(** What a run of the loop that produced [dels] did to the state: it moved the
    round machine along the entered rounds, recorded each round's event, and took
    the sinks waiting for it. *)
Record advanced (quorum : usize) (head : ClientIdentity) (d d' : CoordinatorExecutionState)
    (dels : list TransitionDelivery) : Prop := {
  adv_frame : same_but_round d d';
  adv_run : round_run quorum d (round d) (entered dels) (round d');
  adv_dels : Forall (fun '(r, e, w) =>
    round_event head r = Some e ∧ w = default [] (sinks d !! r)) dels;
  adv_events : ∀ r, trans_events d' !! r =
    if decide (r ∈ entered dels) then round_event head r else trans_events d !! r;
  adv_sinks : ∀ r, sinks d' !! r =
    if decide (r ∈ entered dels) then None else sinks d !! r }.

Lemma round_run_index quorum d r rs r' :
  round_run quorum d r rs r' →
  (round_index r + N.of_nat (length rs) <= round_index r')%N ∧
  Forall (fun x => (round_index r < round_index x)%N) rs.
Proof.
  induction 1 as [r|r r1 rs r2 Hs Hr [IH1 IH2]]; simpl; [by split; [lia|]|].
  destruct Hs as [? ? Hm%legal_move_index _ _]. split; [lia|].
  constructor; [done|]. eapply Forall_impl; [done|]. simpl. lia.
Qed.

Lemma advanced_refl quorum head d : advanced quorum head d d [].
Proof.
  split; [done|constructor|constructor|intros r|intros r];
    rewrite decide_False; [done|apply not_elem_of_nil|done|apply not_elem_of_nil].
Qed.

Lemma advanced_step quorum head d r e d' dels :
  round_step quorum d (round d) r → round_event head r = Some e →
  advanced quorum head (after_move e r d) d' dels →
  advanced quorum head d d' ((r, e, default [] (sinks d !! r)) :: dels).
Proof.
  intros Hstep He [Hf Hrun Hdels Hev Hsk].
  assert (Forall (fun x => (round_index r < round_index x)%N) (entered dels)) as Hlater.
  { apply round_run_index in Hrun as [_ Hrun]. exact Hrun. }
  assert (r ∉ entered dels) as Hr.
  { intros Hin. rewrite Forall_forall in Hlater. apply Hlater in Hin. lia. }
  split; simpl.
  - etrans; [apply after_move_frame|done].
  - econstructor; [done|]. eapply round_run_frame; [apply after_move_frame|done].
  - constructor; [done|].
    rewrite Forall_forall in Hdels |- *. intros [[r' e'] w] Hin.
    destruct (Hdels _ Hin) as [He' Hw]. split; [done|]. rewrite Hw. simpl.
    rewrite lookup_delete_ne; [done|]. intros ->. apply Hr.
    by apply (list_elem_of_fmap_2 (fun x : TransitionDelivery => x.1.1) _ (r', e', w)).
  - intros x. rewrite Hev. simpl. destruct (decide (x = r)) as [->|Hne].
    + rewrite decide_False by done. rewrite decide_True by (by left).
      by rewrite lookup_insert_eq.
    + rewrite lookup_insert_ne by done. apply decide_ext. rewrite elem_of_cons. naive_solver.
  - intros x. rewrite Hsk. simpl. destruct (decide (x = r)) as [->|Hne].
    + rewrite decide_False by done. rewrite decide_True by (by left).
      by rewrite lookup_delete_eq.
    + rewrite lookup_delete_ne by done. apply decide_ext. rewrite elem_of_cons. naive_solver.
Qed.

Lemma next_quorum_round_step quorum d r :
  next_quorum_round quorum d = Some r → blocking_precondition d r = false →
  round_step quorum d (round d) r.
Proof.
  intros [Hm Hq]%next_quorum_round_Some Hb. constructor; [done..|].
  by apply blocking_precondition_false.
Qed.

Lemma try_advance_loop_spec fuel quorum head d acc :
  ∃ d' dels, try_advance_loop fuel quorum head d acc = Ok (d', acc ++ dels) ∧
    advanced quorum head d d' dels ∧ (settled quorum d' ∨ fuel ≤ length dels).
Proof.
  revert d acc. induction fuel as [|fuel IH]; intros d acc; simpl.
  { exists d, []. rewrite app_nil_r. eauto using advanced_refl with lia. }
  destruct (next_quorum_round quorum d) as [r|] eqn:Hnext.
  2: { exists d, []. rewrite app_nil_r. split; [done|]. split; [apply advanced_refl|].
       left. intros ?. by rewrite Hnext. }
  destruct (blocking_precondition d r) eqn:Hb.
  { exists d, []. rewrite app_nil_r. split; [done|]. split; [apply advanced_refl|].
    left. intros r'. rewrite Hnext. by intros [= <-]. }
  pose proof (next_quorum_round_step _ _ _ Hnext Hb) as Hstep.
  assert (r ≠ Idle) as Hidle by (destruct Hstep; eauto using legal_move_not_idle).
  destruct (round_event_Some head r Hidle) as [e He]. rewrite He, transition_Ok by done.
  destruct (IH (after_move e r d) (acc ++ [(r, e, default [] (sinks d !! r))]))
    as (d' & dels & -> & Hadv & Hend).
  eexists d', (_ :: dels). split; [by rewrite <-app_assoc|]. split; [by apply advanced_step|].
  simpl. destruct Hend; [by left|right; lia].
Qed.

Lemma try_advance_ok quorum head d :
  ∃ d' dels, try_advance quorum head d = Ok (d', dels) ∧
    advanced quorum head d d' dels ∧ settled quorum d'.
Proof.
  destruct (try_advance_loop_spec 7 quorum head d []) as (d' & dels & Heq & Hadv & Hend).
  exists d', dels. split; [exact Heq|]. split; [done|].
  destruct Hend as [?|Hlong]; [done|]. exfalso.
  destruct Hadv as [_ Hrun _ _ _]. apply round_run_index in Hrun as [Hlen _].
  unfold entered in Hlen. rewrite length_fmap in Hlen.
  assert (round_index (round d') <= 6)%N by (by destruct (round d')). lia.
Qed.

(** ** The engine as a sequence of single moves *)

(** One accepted move, and its transitive closure: the shape in which
    invariants of the engine are proved. *)
Definition move (quorum : usize) (head : ClientIdentity) (d d' : CoordinatorExecutionState) : Prop :=
  ∃ r e, round_step quorum d (round d) r ∧ round_event head r = Some e ∧ d' = after_move e r d.

Lemma try_advance_loop_moves fuel quorum head d acc d' dels :
  try_advance_loop fuel quorum head d acc = Ok (d', dels) → rtc (move quorum head) d d'.
Proof.
  revert d acc. induction fuel as [|fuel IH]; intros d acc; simpl; [by intros [= <- _]|].
  destruct (next_quorum_round quorum d) as [r|] eqn:Hnext; [|by intros [= <- _]].
  destruct (blocking_precondition d r) eqn:Hb; [by intros [= <- _]|].
  pose proof (next_quorum_round_step _ _ _ Hnext Hb) as Hstep.
  destruct (round_event head r) as [e|] eqn:He; [|by intros [= <- _]].
  rewrite transition_Ok by (destruct Hstep; eauto using legal_move_not_idle).
  intros Hl%IH. eapply rtc_l; [|done]. by exists r, e.
Qed.

Lemma try_advance_moves quorum head d d' dels :
  try_advance quorum head d = Ok (d', dels) → rtc (move quorum head) d d'.
Proof. apply try_advance_loop_moves. Qed.

(** Calling the engine again without a new vote or input changes nothing. *)
Lemma settled_try_advance quorum head d :
  settled quorum d → try_advance quorum head d = Ok (d, []).
Proof.
  intros Hs. unfold try_advance. simpl.
  destruct (next_quorum_round quorum d) as [r|] eqn:Hnext; [|done]. by rewrite Hs.
Qed.

(** ** Fuel *)

Lemma round_index_bound r : (round_index r <= 6)%N.
Proof. by destruct r. Qed.

Lemma try_advance_loop_more fuel k quorum head d acc :
  (7 <= round_index (round d) + N.of_nat fuel)%N →
  try_advance_loop (fuel + k) quorum head d acc = try_advance_loop fuel quorum head d acc.
Proof.
  revert d acc. induction fuel as [|fuel IH]; intros d acc Hf.
  { pose proof (round_index_bound (round d)). lia. }
  cbn [try_advance_loop Nat.add]. destruct (next_quorum_round quorum d) as [r|] eqn:Hr; [|done].
  destruct (blocking_precondition d r); [done|].
  destruct (round_event head r) as [e|]; [|done].
  apply next_quorum_round_Some in Hr as [Hm _].
  rewrite transition_Ok by eauto using legal_move_not_idle.
  apply IH. simpl. apply legal_move_index in Hm. lia.
Qed.

(** The loop itself, and not only its bounded version, stops within seven
    iterations. *)
Lemma try_advance_loop_fuel fuel quorum head d :
  7 ≤ fuel → try_advance_loop fuel quorum head d [] = try_advance quorum head d.
Proof.
  intros Hf. replace fuel with (7 + (fuel - 7)) by lia. apply try_advance_loop_more. lia.
Qed.

(** Why a settled execution cannot move: no legal move has its quorum, or the
    program is held back for its inputs. *)
Lemma settled_cases quorum d :
  settled quorum d →
  (∀ r, legal_move (round d) r → ¬ has_quorum quorum (transition_votes d) r) ∨
  (round d = InputCollection ∧ has_quorum quorum (transition_votes d) MPCExecution ∧
   ¬ inputs_complete d).
Proof.
  intros Hset. destruct (next_quorum_round quorum d) as [r|] eqn:Hnext.
  - right. pose proof (Hset _ Hnext) as Hb. apply next_quorum_round_Some in Hnext as [Hm Hq].
    pose proof (blocking_precondition_false d r) as Hf. rewrite Hb in Hf.
    destruct (decide (r = MPCExecution)) as [->|]; [|naive_solver].
    inversion Hm as [? ? Hbef|Heq|]; [|naive_solver].
    simpl in Hbef. split; [congruence|]. naive_solver.
  - left. by apply next_quorum_round_None.
Qed.

(** ** Claims *)

(** C2: the cascade of [try_advance] always terminates without panicking.  It
    follows the abstract round machine (each move legal, backed by a quorum of
    votes, and into [MPCExecution] only with every input present unless the input
    rounds are skipped), announces exactly the entered rounds to exactly the sinks
    that waited for them, changes nothing else, stops only when no further move is
    possible, and running it again changes nothing. *)
Theorem try_advance_refines_round_machine quorum head d :
  ∃ d' dels,
    (∀ fuel, 7 ≤ fuel → try_advance_loop fuel quorum head d [] = Ok (d', dels)) ∧
    try_advance quorum head d = Ok (d', dels) ∧
    advanced quorum head d d' dels ∧
    ((∀ r, legal_move (round d') r → ¬ has_quorum quorum (transition_votes d') r) ∨
     (round d' = InputCollection ∧ has_quorum quorum (transition_votes d') MPCExecution ∧
      ¬ inputs_complete d')) ∧
    try_advance quorum head d' = Ok (d', []).
Proof.
  destruct (try_advance_ok quorum head d) as (d' & dels & Heq & Hadv & Hset).
  exists d', dels. split_and!; [|done|done| |by apply settled_try_advance].
  - intros fuel Hf. by rewrite try_advance_loop_fuel.
  - by apply settled_cases.
Qed.

(** An execution that has left [Preprocessing] for the input rounds never
    gets past [InputCollection] while an input slot is empty, whatever the votes
    and the quorum are. *)
Theorem missing_inputs_hold_execution quorum head d d' dels
    (Hround : round d = InputMaskReservation ∨ round d = InputCollection)
    (Hmissing : ∃ i, masked_inputs d !! i = Some None)
    (Hadv : try_advance quorum head d = Ok (d', dels)) :
  (round d' = InputMaskReservation ∨ round d' = InputCollection) ∧
  masked_inputs d' = masked_inputs d.
Proof.
  assert (¬ inputs_complete d) as Hinc.
  { destruct Hmissing as [i Hi]. intros Hall. unfold inputs_complete in Hall. rewrite Forall_lookup in Hall.
    by destruct (Hall _ _ Hi). }
  apply try_advance_moves in Hadv. clear Hmissing.
  induction Hadv as [|d d1 d2 (r & e & Hstep & _ & ->) _ IH]; [done|].
  apply IH; [|done]. simpl. inversion_clear Hstep as [? ? Hm _ Hin].
  destruct Hm as [? r' Hb| |]; [|naive_solver..]. destruct r', Hround; naive_solver.
Qed.

Lemma missing_inputs_hold_execution_witness :
  ∃ d' dels, try_advance 3 party1 sample_collecting = Ok (d', dels) ∧
    (round d' = InputMaskReservation ∨ round d' = InputCollection) ∧
    masked_inputs d' = masked_inputs sample_collecting.
Proof.
  destruct (try_advance_ok 3 party1 sample_collecting) as (d' & dels & Heq & _).
  exists d', dels. split; [exact Heq|].
  apply (missing_inputs_hold_execution 3 party1 sample_collecting d' dels); [| |exact Heq].
  - right. reflexivity.
  - exists 0. reflexivity.
Defined.

(** Progress: when every later round has its quorum of votes and every input
    is present, one run of the engine takes the execution to [ProgramFinished]. *)
Theorem quorum_everywhere_finishes quorum head d
    (Hvotes : ∀ r, (round_index (round d) < round_index r)%N → has_quorum quorum (transition_votes d) r)
    (Hinputs : inputs_complete d) :
  ∃ d' dels, try_advance quorum head d = Ok (d', dels) ∧ round d' = ProgramFinished.
Proof.
  destruct (try_advance_ok quorum head d) as (d' & dels & Heq & Hadv & Hset).
  exists d', dels. split; [done|]. destruct (decide (round d' = ProgramFinished)) as [|Hne]; [done|].
  exfalso. pose proof (adv_frame _ _ _ _ _ Hadv) as Hf.
  destruct (same_but_round_fields _ _ Hf) as (Hv & Hm & _).
  destruct (round_run_index _ _ _ _ _ (adv_run _ _ _ _ _ Hadv)) as [Hidx _].
  destruct (legal_move_exists _ Hne) as [r Hr].
  destruct (next_quorum_round quorum d') as [r'|] eqn:Hnext.
  - specialize (Hset _ Hnext). enough (blocking_precondition d' r' = false) by congruence.
    apply blocking_precondition_false. unfold inputs_complete in *. rewrite Hm. auto.
  - rewrite next_quorum_round_None in Hnext. apply (Hnext r Hr). rewrite Hv. apply Hvotes.
    apply legal_move_index in Hr. lia.
Qed.

Lemma quorum_everywhere_finishes_witness :
  ∃ d' dels, try_advance 3 party1 sample_submitted = Ok (d', dels) ∧ round d' = ProgramFinished.
Proof.
  apply (quorum_everywhere_finishes 3 party1 sample_submitted).
  - intros r Hr. exists {[party1; party2; party3]}.
    destruct r; try (exfalso; vm_compute in Hr; discriminate Hr);
      (split; apply (bool_decide_unpack _); by vm_compute).
  - unfold inputs_complete. vm_compute. repeat constructor; eexists; reflexivity.
Defined.
