(* ===== verification/Sessions.v ===== *)
(** Session state of the browser transport: the nonce book, the signature
    counters and the WebAuthn bindings
    (src/crates/off-chain/src/browser_rpc.rs). *)
From S2P Require Import Prelude Shared Execution Samples.

Definition AUTH_ERROR : Z := -32050.
Definition BAD_BODY : Z := -32602.
Definition NONCE_WINDOW_SECONDS : u64 := 120.

Definition auth_error : ErrorObject := rpc_error AUTH_ERROR.

(** ** The nonce book *)

Abbreviation Nonce := (vec byte 16).
Abbreviation SeenNonces := (list (u64 * Nonce)).
Abbreviation NonceKey := (ExecutionId * ClientIdentity)%type.

Record NonceBook : Type := mkNonceBook { seen : gmap NonceKey SeenNonces }.
Definition NonceBook_default : NonceBook := mkNonceBook ∅.

(** [NonceBook::accept].  A stale timestamp is refused before the book is
    touched; a used nonce is refused after the expired entries were dropped. *)
Definition nonce_accept (b : NonceBook) (eid : ExecutionId) (identity : ClientIdentity)
    (created : u64) (nonce : Nonce) (now : u64) : NonceBook * result ErrorObject unit :=
  if (NONCE_WINDOW_SECONDS <? u64_abs_diff now created)%N then (b, Err auth_error)
  else
    let key := (eid, identity) in
    let entries := filter (fun e => (u64_saturating_sub now e.1 <=? NONCE_WINDOW_SECONDS)%N = true)
                     (default [] (seen b !! key)) in
    if existsb (fun e => bool_decide (e.2 = nonce)) entries
    then (mkNonceBook (<[key := entries]> (seen b)), Err auth_error)
    else (mkNonceBook (<[key := entries ++ [(created, nonce)]]> (seen b)), Ok tt).

(** ** Signature counters *)

Record SignCounts : Type := mkSignCounts { last_known : gmap ClientIdentity u32 }.
Definition SignCounts_default : SignCounts := mkSignCounts ∅.

(** [SignCounts::accept] *)
Definition sign_count_accept (s : SignCounts) (identity : ClientIdentity) (sign_count : u32)
    : SignCounts * result ErrorObject unit :=
  let stored := default 0%N (last_known s !! identity) in
  if (negb (sign_count =? 0)%N || negb (stored =? 0)%N) && (sign_count <=? stored)%N
  then (s, Err auth_error)
  else (mkSignCounts (<[identity := sign_count]> (last_known s)), Ok tt).

(** ** WebAuthn bindings *)

Record WebauthnBinding : Type := mkWebauthnBinding {
  client_identity : ClientIdentity;
  ecdsa_public_key : bytes;
  ecdh_public_key : bytes }.

Record WebauthnBindings : Type := mkWebauthnBindings {
  by_token : gmap string WebauthnBinding;
  by_execution_and_client_identity : gmap (ExecutionId * ClientIdentity) WebauthnBinding }.

#[export] Instance bindings_eta : Eta WebauthnBindings := fun b =>
  mkWebauthnBindings (by_token b) (by_execution_and_client_identity b).

Definition WebauthnBindings_default : WebauthnBindings := mkWebauthnBindings ∅ ∅.

(** [WebauthnBindings::insert]: draw tokens until an unused one comes up.
    [encode] is the base64 encoding of 32 random bytes; [draws] are the values
    the random generator yields, one per iteration; [None] when every draw given
    was taken. *)
Fixpoint bindings_insert (encode : vec byte 32 → string) (draws : list (vec byte 32))
    (eid : option ExecutionId) (binding : WebauthnBinding) (b : WebauthnBindings)
    : option (string * WebauthnBindings) :=
  match draws with
  | [] => None
  | token_bytes :: draws =>
      let token := encode token_bytes in
      match by_token b !! token with
      | Some _ => bindings_insert encode draws eid binding b
      | None =>
          let b1 := match eid with
                    | Some eid => b <| by_execution_and_client_identity ::=
                                        <[(eid, client_identity binding) := binding]> |>
                    | None => b
                    end in
          Some (token, b1 <| by_token ::= <[token := binding]> |>)
      end
  end.

(** [WebauthnBindings::resolve_ecdh_public_key] *)
Definition resolve_ecdh_public_key (b : WebauthnBindings) (eid : ExecutionId)
    (client_id : ClientIdentity) : option bytes :=
  ecdh_public_key <$> by_execution_and_client_identity b !! (eid, client_id).

(** [WebauthnBindings::get] *)
Definition bindings_get (b : WebauthnBindings) (token : string) : option WebauthnBinding :=
  by_token b !! token.

(** [WebauthnBindings::pin_binding_from_token] *)
Definition pin_binding_from_token (b : WebauthnBindings) (eid : ExecutionId)
    (session_token : string) : WebauthnBindings :=
  match by_token b !! session_token with
  | Some binding => b <| by_execution_and_client_identity ::=
                          <[(eid, client_identity binding) := binding]> |>
  | None => b
  end.

(** ** The nonce book over time *)

Record NonceRequest : Type := mkNonceRequest {
  nr_execution : ExecutionId;
  nr_identity : ClientIdentity;
  nr_created : u64;
  nr_nonce : Nonce;
  nr_now : u64 }.

Definition nonce_step (b : NonceBook) (q : NonceRequest) : NonceBook :=
  (nonce_accept b (nr_execution q) (nr_identity q) (nr_created q) (nr_nonce q) (nr_now q)).1.
Definition nonce_run (b : NonceBook) (qs : list NonceRequest) : NonceBook := foldl nonce_step b qs.

(** The entry of [created] and [nonce] is still remembered. *)
Definition remembered (b : NonceBook) (key : NonceKey) (created : u64) (nonce : Nonce) : Prop :=
  (created, nonce) ∈ default [] (seen b !! key).

Lemma nonce_accept_remembers b eid identity created nonce now b' :
  nonce_accept b eid identity created nonce now = (b', Ok tt) →
  remembered b' (eid, identity) created nonce.
Proof.
  unfold nonce_accept, remembered. intros Hok. repeat case_match; simplify_eq. simpl.
  rewrite lookup_insert_eq. simpl. apply elem_of_app. right. left.
Qed.

(** A remembered entry survives every call made before it expires. *)
Lemma nonce_step_remembers b q key created nonce :
  remembered b key created nonce →
  (u64_saturating_sub (nr_now q) created <= NONCE_WINDOW_SECONDS)%N →
  remembered (nonce_step b q) key created nonce.
Proof.
  unfold remembered, nonce_step, nonce_accept. intros Hin Hwin.
  destruct (_ <? _)%N; [done|].
  assert (∀ k, (nr_execution q, nr_identity q) = k → k = key →
    (created, nonce) ∈ filter (fun e => (u64_saturating_sub (nr_now q) e.1 <=? NONCE_WINDOW_SECONDS)%N = true)
      (default [] (seen b !! k))) as Hf.
  { intros k Hk ->. apply list_elem_of_filter. split; [by apply N.leb_le|done]. }
  destruct (existsb _ _); simpl; rewrite lookup_insert;
    (case_decide as Hd; [|done]); simpl; [by apply Hf|apply elem_of_app; left; by apply Hf].
Qed.

Lemma nonce_run_remembers b qs key created nonce now2 :
  remembered b key created nonce → Forall (fun q => (nr_now q <= now2)%N) qs →
  (u64_saturating_sub now2 created <= NONCE_WINDOW_SECONDS)%N →
  remembered (nonce_run b qs) key created nonce.
Proof.
  intros Hr Hall Hw. revert b Hr. induction Hall as [|q qs Hq _ IH]; intros b Hr; [done|].
  simpl. apply IH, nonce_step_remembers; [done|]. unfold u64_saturating_sub in *. lia.
Qed.

Lemma nonce_remembered_refused b eid identity created created' nonce now :
  remembered b (eid, identity) created nonce →
  (u64_saturating_sub now created <= NONCE_WINDOW_SECONDS)%N →
  (nonce_accept b eid identity created' nonce now).2 = Err auth_error.
Proof.
  unfold remembered, nonce_accept. intros Hin Hw. destruct (_ <? _)%N; [done|].
  rewrite (proj2 (existsb_exists _ _)); [done|]. exists (created, nonce).
  split; [|by apply bool_decide_eq_true]. apply list_elem_of_In, list_elem_of_filter.
  split; [by apply N.leb_le|done].
Qed.

(** ** Claims *)

(** C38: no signed request is accepted twice.  As long as the clock does not run
    backwards, a request that was accepted is refused whenever it is presented
    again, whatever other requests came in between; the same nonce with a fresh
    timestamp is refused too while the first is inside the window. *)
Theorem accepted_request_is_never_replayed b eid identity created nonce now1 b1 qs now2
    (Haccept : nonce_accept b eid identity created nonce now1 = (b1, Ok tt))
    (Hclock : Forall (fun q => (nr_now q <= now2)%N) qs) :
  (nonce_accept (nonce_run b1 qs) eid identity created nonce now2).2 = Err auth_error ∧
  ∀ created', (u64_saturating_sub now2 created <= NONCE_WINDOW_SECONDS)%N →
    (nonce_accept (nonce_run b1 qs) eid identity created' nonce now2).2 = Err auth_error.
Proof.
  apply nonce_accept_remembers in Haccept as Hr.
  assert (∀ created', (u64_saturating_sub now2 created <= NONCE_WINDOW_SECONDS)%N →
    (nonce_accept (nonce_run b1 qs) eid identity created' nonce now2).2 = Err auth_error) as Hw.
  { intros created' Hw. eapply nonce_remembered_refused; [|done]. by eapply nonce_run_remembers. }
  split; [|done].
  destruct (decide (u64_saturating_sub now2 created <= NONCE_WINDOW_SECONDS)%N) as [|Hgt]; [by apply Hw|].
  unfold nonce_accept. rewrite (proj2 (N.ltb_lt _ _)); [done|].
  unfold u64_abs_diff, u64_saturating_sub in *. destruct (now2 <=? created)%N eqn:Hle; reflect_bool; lia.
Qed.

Lemma accepted_request_is_never_replayed_witness :
  let book := (nonce_accept NonceBook_default sample_eid client1 1000 (vreplicate 16 Byte.x05) 1010).1 in
  (nonce_accept (nonce_run book [mkNonceRequest sample_eid client2 1020 (vreplicate 16 Byte.x06) 1020])
     sample_eid client1 1000 (vreplicate 16 Byte.x05) 1050).2 = Err auth_error.
Proof.
  intros book.
  refine (proj1 (accepted_request_is_never_replayed NonceBook_default sample_eid client1 1000
    (vreplicate 16 Byte.x05) 1010 book
    [mkNonceRequest sample_eid client2 1020 (vreplicate 16 Byte.x06) 1020] 1050 _ _)).
  - reflexivity.
  - repeat constructor. by vm_compute.
Defined.

(** Signature counters.  Once an identity has shown a nonzero count, only a
    strictly larger one is accepted; identities that never count are not refused;
    a refusal leaves the record alone, and one identity does not affect another. *)
Theorem sign_count_strictly_increases s identity count :
  let stored := default 0%N (last_known s !! identity) in
  let '(s', r) := sign_count_accept s identity count in
  (r = Ok tt ↔ (stored < count)%N ∨ (stored = 0%N ∧ count = 0%N)) ∧
  (r = Ok tt → default 0%N (last_known s' !! identity) = count) ∧
  (r ≠ Ok tt → s' = s) ∧
  ∀ other, other ≠ identity → last_known s' !! other = last_known s !! other.
Proof.
  intros stored. unfold sign_count_accept. fold stored.
  destruct (negb (count =? 0)%N || negb (stored =? 0)%N) eqn:Hz; simpl.
  - destruct (count <=? stored)%N eqn:Hle; reflect_bool.
    + split_and!; [|done|done|done]. split; [done|]. intros [?|[-> ->]]; [lia|done].
    + split_and!; [split; [by left|done]|intros _; simpl; by rewrite lookup_insert_eq|done|].
      intros other Hne. simpl. by rewrite lookup_insert_ne.
  - reflect_bool. split_and!; [split; [by right|done]|intros _; simpl; by rewrite lookup_insert_eq|done|].
    intros other Hne. simpl. by rewrite lookup_insert_ne.
Qed.

(** A new WebAuthn session gets a token no session had, so no session is
    overwritten: every old token keeps its binding, the new one resolves to the
    new binding, and the encryption key of the execution's client becomes the new
    one; pinning a token restores that token's key for the execution and touches
    no session. *)
Theorem bindings_insert_is_fresh encode draws eid binding b token b'
    (Hinsert : bindings_insert encode draws (Some eid) binding b = Some (token, b')) :
  by_token b !! token = None ∧ bindings_get b' token = Some binding ∧
  (∀ other old, bindings_get b other = Some old → bindings_get b' other = Some old) ∧
  resolve_ecdh_public_key b' eid (client_identity binding) = Some (ecdh_public_key binding) ∧
  (∀ eid' other, (eid', other) ≠ (eid, client_identity binding) →
     resolve_ecdh_public_key b' eid' other = resolve_ecdh_public_key b eid' other) ∧
  ∀ b2, bindings_get b2 token = Some binding →
    by_token (pin_binding_from_token b2 eid token) = by_token b2 ∧
    resolve_ecdh_public_key (pin_binding_from_token b2 eid token) eid (client_identity binding) =
      Some (ecdh_public_key binding).
Proof.
  induction draws as [|draw draws IH]; [done|]. simpl in Hinsert.
  destruct (by_token b !! encode draw) eqn:Ht; [by apply IH|]. clear IH. simplify_eq.
  unfold bindings_get, resolve_ecdh_public_key. simpl. split_and!.
  - done.
  - by rewrite lookup_insert_eq.
  - intros other old Ho. rewrite lookup_insert_ne; [done|]. intros <-. congruence.
  - by rewrite lookup_insert_eq.
  - intros eid' other Hne. by rewrite lookup_insert_ne.
  - intros b2 Hb2. unfold pin_binding_from_token. rewrite Hb2. simpl. split; [done|].
    by rewrite lookup_insert_eq.
Qed.

Lemma bindings_insert_is_fresh_witness :
  let binding := mkWebauthnBinding client1 [Byte.x01] [Byte.x02] in
  by_token WebauthnBindings_default !! "token"%string = None.
Proof.
  intros binding.
  refine (proj1 (bindings_insert_is_fresh (fun _ => "token"%string) [vreplicate 32 Byte.x00] sample_eid
    binding WebauthnBindings_default "token"%string _ _)).
  reflexivity.
Defined.
