(* ===== verification/Server.v ===== *)
(** The coordinator-wide state: topology, quorums, registration, retirement and
    shutdown (src/crates/off-chain/src/lib.rs, [CoordinatorRPCServerSharedBase]
    and [RetiredExecutions]). *)
From S2P Require Import Prelude Shared Execution Sessions.

Definition DEFAULT_MAX_CONCURRENT_EXECUTIONS : usize := 1024.
Definition DEFAULT_MAX_RETIRED_EXECUTIONS : usize := 4096.

(** ** Sealed executions *)

Record RetiredExecutions : Type := mkRetiredExecutions {
  acks : gmap ExecutionId (gset ClientIdentity);
  order : list ExecutionId }.

Definition RetiredExecutions_default : RetiredExecutions := mkRetiredExecutions ∅ [].

(** The loop of [seal]: forget the oldest execution while there are too many. *)
Fixpoint drop_oldest (acks : gmap ExecutionId (gset ClientIdentity)) (order : list ExecutionId)
    : RetiredExecutions :=
  match order with
  | [] => mkRetiredExecutions acks []
  | evicted :: rest =>
      if (DEFAULT_MAX_RETIRED_EXECUTIONS <? vlen order)%N
      then drop_oldest (delete evicted acks) rest
      else mkRetiredExecutions acks order
  end.

(** [RetiredExecutions::seal] *)
Definition seal (r : RetiredExecutions) (eid : ExecutionId) (a : gset ClientIdentity)
    : RetiredExecutions :=
  let order' := match acks r !! eid with Some _ => order r | None => order r ++ [eid] end in
  drop_oldest (<[eid := a]> (acks r)) order'.

(** [RetiredExecutions::acknowledge] *)
Definition acknowledge (r : RetiredExecutions) (eid : ExecutionId) (party : ClientIdentity)
    (n : usize) : RetiredExecutions * bool :=
  match acks r !! eid with
  | None => (r, false)
  | Some a =>
      let a' := {[party]} ∪ a in
      if (n <=? N.of_nat (size a'))%N
      then (mkRetiredExecutions (delete eid (acks r)) (filter (fun c => c ≠ eid) (order r)), true)
      else (mkRetiredExecutions (<[eid := a']> (acks r)) (order r), true)
  end.

(** [RetiredExecutions::contains] *)
Definition retired_contains (r : RetiredExecutions) (eid : ExecutionId) : bool :=
  is_some (acks r !! eid).

(** ** The shared state *)

Record CoordinatorRPCServerSharedBase : Type := mkServer {
  mpc_nodes : list ClientIdentity;
  n : u64;
  t : u64;
  executions : gmap ExecutionId CoordinatorExecutionState;
  shutdown_notify : option positive;
  one_off_execution : option ExecutionId;
  retired : RetiredExecutions;
  webauthn_bindings : WebauthnBindings }.

#[export] Instance server_eta : Eta CoordinatorRPCServerSharedBase := fun s =>
  mkServer (mpc_nodes s) (n s) (t s) (executions s) (shutdown_notify s)
    (one_off_execution s) (retired s) (webauthn_bindings s).

(** [slice.contains(x)] *)
Definition contains (l : list ClientIdentity) (x : ClientIdentity) : bool :=
  bool_decide (x ∈ l).

(** [iter.enumerate().any(|(i, x)| all[..i].contains(x))] *)
Fixpoint any_repeated (before rest : list ClientIdentity) : bool :=
  match rest with
  | [] => false
  | x :: rest => contains before x || any_repeated (before ++ [x]) rest
  end.

Definition validate_topology (n t : u64) (initial_mpc_nodes : list ClientIdentity)
    : result CoordinatorError unit :=
  _ ← ensure (negb (bool_decide (initial_mpc_nodes = [])))
        (JSONError "Coordinator requires at least one MPC node");
  n_usize ← ok_or (usize_try_from n) U64ToUsizeError;
  _ ← ensure (vlen initial_mpc_nodes =? n_usize)%N
        (JSONError "Coordinator was configured for {n} MPC nodes, but received {} node identities");
  _ ← ensure (negb (n <=? t)%N)
        (JSONError "Threshold {t} must be less than the MPC node count {n}");
  _ ← ensure (negb (n <? u64_add (u64_wrap (2 * t)) 1)%N)
        (JSONError "MPC node count {n} must be at least 2t + 1 = {} for threshold {t}");
  ensure (negb (any_repeated [] initial_mpc_nodes))
        (JSONError "MPC node identities must be unique").

(** [CoordinatorRPCServerSharedBase::new] *)
Definition new_server (n t : u64) (initial_mpc_nodes : list ClientIdentity)
    : result CoordinatorError CoordinatorRPCServerSharedBase :=
  _ ← validate_topology n t initial_mpc_nodes;
  Ok (mkServer initial_mpc_nodes n t ∅ None None RetiredExecutions_default
        WebauthnBindings_default).

Definition transition_quorum (s : CoordinatorRPCServerSharedBase) : usize :=
  let liveness_bound := as_usize (u64_sub (n s) (t s)) in
  let honest_majority := as_usize (u64_add (u64_wrap (2 * t s)) 1) in
  N.max (N.min honest_majority liveness_bound) (as_usize (u64_add (t s) 1)).

Definition retirement_quorum (s : CoordinatorRPCServerSharedBase) : usize :=
  as_usize (u64_sub (n s) (t s)).

(** An execution whose slot may be reclaimed. *)
Definition evictable (s : CoordinatorRPCServerSharedBase)
    (e : ExecutionId * CoordinatorExecutionState) : bool :=
  negb (bool_decide (one_off_execution s = Some e.1)) &&
  (retirement_quorum s <=? N.of_nat (size (retirement_acks e.2)))%N.

Section server.
Context `{HashOrder}.

(** [register_execution]; [delivery] is the mutex allocated for the execution.
    The state is returned also on an error, because the reclaimed slot stays
    reclaimed. *)
Definition register_execution (reg : ExecutionRegistration) (delivery : LockId)
    (s : CoordinatorRPCServerSharedBase)
    : CoordinatorRPCServerSharedBase * result CoordinatorError unit :=
  match executions s !! execution_id reg with
  | Some existing =>
      if bool_decide (registration existing = reg) then (s, Ok tt)
      else (s, Err (JSONError "Execution {} is already registered with different metadata"))
  | None =>
      let reclaimed :=
        if (DEFAULT_MAX_CONCURRENT_EXECUTIONS <=? N.of_nat (size (executions s)))%N then
          match iter_find (evictable s) (map_iter (executions s)) with
          | Some (eid, execution) =>
              Some (s <| executions ::= delete eid |>
                      <| retired ::= fun r => seal r eid (retirement_acks execution) |>)
          | None => None
          end
        else Some s in
      match reclaimed with
      | None => (s, Err (JSONError "Execution capacity {} reached"))
      | Some s =>
          match new_execution reg (n s) delivery with
          | Ok execution => (s <| executions ::= <[execution_id reg := execution]> |>, Ok tt)
          | Err e => (s, Err e)
          | Panic => (s, Panic)
          end
      end
  end.

(** [new_for_execution] *)
Definition new_for_execution (eid : ExecutionId) (prog_hash : vec byte 32) (n t : u64)
    (initial_mpc_nodes : list ClientIdentity) (n_inputs : u64)
    (output_clients : list ClientIdentity) (input_assignment : InputAssignment)
    (delivery : LockId) : result CoordinatorError CoordinatorRPCServerSharedBase :=
  min_output_shares ← ok_or (twice ← u64_checked_mul t 2; u64_checked_add twice 1)
                        (JSONError "output quorum overflow");
  shared ← new_server n t initial_mpc_nodes;
  let '(shared, r) := register_execution
    (mkExecutionRegistration eid prog_hash n_inputs output_clients input_assignment
       min_output_shares) delivery shared in
  _ ← r;
  Ok shared.
End server.

(** [round] *)
Definition server_round (s : CoordinatorRPCServerSharedBase) (eid : ExecutionId) : option Round :=
  round <$> executions s !! eid.

(** [watch_for_shutdown_request]; [tx] names the channel it allocates. *)
Definition watch_for_shutdown_request (eid : ExecutionId) (tx : positive)
    (s : CoordinatorRPCServerSharedBase) : CoordinatorRPCServerSharedBase * positive :=
  (s <| shutdown_notify := Some tx |> <| one_off_execution := Some eid |>, tx).

(** [retire_execution] *)
Definition retire_execution (eid : ExecutionId) (party : ClientIdentity)
    (s : CoordinatorRPCServerSharedBase)
    : CoordinatorRPCServerSharedBase * result CoordinatorError unit :=
  if negb (contains (mpc_nodes s) party)
  then (s, Err (JSONError "Only configured MPC parties can retire executions"))
  else
    let '(r, sealed) := acknowledge (retired s) eid party (vlen (mpc_nodes s)) in
    let s := s <| retired := r |> in
    if sealed then (s, Ok tt)
    else
      match executions s !! eid with
      | None => (s, Ok tt)
      | Some execution =>
          (s <| executions ::= <[eid := execution <| retirement_acks ::= ({[party]} ∪.) |>]> |>,
           Ok tt)
      end.

(** [is_retired] *)
Definition is_retired (s : CoordinatorRPCServerSharedBase) (eid : ExecutionId) : bool :=
  retired_contains (retired s) eid ||
  match executions s !! eid with
  | Some execution => (retirement_quorum s <=? N.of_nat (size (retirement_acks execution)))%N
  | None => false
  end.

(** [retirement_progress]: acknowledgements, parties, complete. *)
Definition retirement_progress (s : CoordinatorRPCServerSharedBase) (eid : ExecutionId)
    : usize * usize * bool :=
  let n := vlen (mpc_nodes s) in
  match executions s !! eid with
  | Some execution =>
      let acknowledged := N.of_nat (size (retirement_acks execution)) in
      (acknowledged, n, (n <=? acknowledged)%N)
  | None =>
      match acks (retired s) !! eid with
      | Some a => (N.of_nat (size a), n, false)
      | None => (n, n, true)
      end
  end.
