(* ===== verification/Rpc.v ===== *)
(** The pre-implemented RPC methods of the coordinator
    (src/crates/off-chain/src/lib.rs, [CoordinatorRPCBaseServer for
    CoordinatorRPCServerConnectionBase]).

    A handler runs in segments, each of which holds the coordinator-wide mutex
    and is therefore atomic; between two segments other handlers may run.  Each
    segment is a definition of its own, and a handler that is not interrupted is
    the composition of its segments.  [self] is the caller's identity. *)
From S2P Require Import Prelude Shared Execution Sessions Server.

Abbreviation Exec := CoordinatorExecutionState.
Abbreviation Server := CoordinatorRPCServerSharedBase.

(** What a call did: the new state, the messages sent, the reply. *)
Abbreviation Outcome A := (Server * list Send * result ErrorObject A)%type.

Definition put_execution (eid : ExecutionId) (d : Exec) (s : Server) : Server :=
  s <| executions ::= <[eid := d]> |>.

(** [self.execution_state(eid)] *)
Definition execution_state (s : Server) (eid : ExecutionId) : result ErrorObject Exec :=
  ok_or (executions s !! eid) (server_error ExecutionNotFound).

(** Run [f] on the locked execution. *)
Definition with_execution {A} (eid : ExecutionId)
    (f : Exec → Exec * list Send * result ErrorObject A) (s : Server) : Outcome A :=
  match execution_state s eid with
  | Ok d => let '(d', log, r) := f d in (put_execution eid d' s, log, r)
  | Err e => (s, [], Err e)
  | Panic => (s, [], Panic)
  end.

(** [shared.mpc_nodes[0].clone()] *)
Definition roster_head (s : Server) : result ErrorObject ClientIdentity :=
  index (mpc_nodes s) 0.

Section rpc.
Context `{HashOrder}.

(** ** Registration, retirement, shutdown *)

Definition rpc_register_execution (self : ClientIdentity) (reg : ExecutionRegistration)
    (delivery : LockId) (s : Server) : Outcome unit :=
  if negb (contains (mpc_nodes s) self) then (s, [], Err (server_error NotParty))
  else
    let '(s', r) := register_execution reg delivery s in
    (s', [], map_err (fun _ => server_error ExecutionAlreadyRegistered) r).

Definition rpc_retire_execution (self : ClientIdentity) (eid : ExecutionId) (s : Server)
    : Outcome unit :=
  if negb (contains (mpc_nodes s) self) then (s, [], Err (server_error NotParty))
  else
    let '(s', r) := retire_execution eid self s in
    (s', [], map_err (fun _ => server_error ExecutionNotFound) r).

(** The channel is fired by taking it out of the state; the caller learns which. *)
Definition rpc_request_shutdown (self : ClientIdentity) (s : Server)
    : Server * option positive * result ErrorObject unit :=
  match roster_head s with
  | Ok designated_party =>
      if negb (bool_decide (self = designated_party))
      then (s, None, Err (server_error NotDesignatedParty))
      else
        match one_off_execution s with
        | None => (s, None, Err (server_error ShutdownNotAccepted))
        | Some eid =>
            if negb (bool_decide (server_round s eid = Some ProgramFinished))
            then (s, None, Err (server_error WrongRound))
            else
              match shutdown_notify s with
              | Some tx => (s <| shutdown_notify := None |>, Some tx, Ok tt)
              | None => (s, None, Err (server_error ShutdownNotAccepted))
              end
        end
  | Err e => (s, None, Err e)
  | Panic => (s, None, Panic)
  end.

(** ** Reservation of input masks *)

(** [available_input_masks]: the subtraction wraps. *)
Definition available_input_masks (eid : ExecutionId) (s : Server) : result ErrorObject u64 :=
  d ← execution_state s eid;
  Ok (u64_sub (vlen (masked_inputs d)) (n_reserved d)).

(** The checks made for one index of a batch. *)
Definition check_reserve (self : ClientIdentity) (d : Exec) (i : u64) : result ErrorObject unit :=
  _ ← ensure (negb (vlen (reserved_indices d) <=? as_usize i)%N) (server_error IndexOutOfBounds);
  owner ← index (reserved_indices d) (as_usize i);
  _ ← ensure (negb (is_some owner)) (server_error IndexReservedAlready);
  match input_assignments d !! N.to_nat (as_usize i) with
  | Some slot => ensure (bool_decide (input_slot_client d slot = Some self))
                   (server_error UnauthorizedClientIo)
  | None => Ok tt
  end.

Definition check_reserve_batch (self : ClientIdentity) (d : Exec) (indices : list u64)
    : result ErrorObject unit :=
  _ ← ensure (bool_decide (round d = InputMaskReservation)) (server_error WrongRound);
  _ ← ensure (negb (bool_decide (indices = []))) (server_error EmptyBatch);
  _ ← ensure (negb (existsb (fun owner => bool_decide (owner = Some self)) (reserved_indices d)))
        (server_error ClientAlreadyReserved);
  for_each (check_reserve self d) indices.

(** The loop that writes the reservations and collects the assigned ones. *)
Fixpoint reserve_loop (self : ClientIdentity) (indices : list u64) (d : Exec)
    (assigned : list AssignedMaskReservation)
    : result ErrorObject (Exec * list AssignedMaskReservation) :=
  match indices with
  | [] => Ok (d, assigned)
  | i :: indices =>
      let assigned :=
        match input_assignments d !! N.to_nat (as_usize i) with
        | Some slot => assigned ++ [mkAssignedMaskReservation self i (slot_label slot)]
        | None => assigned
        end in
      r ← vec_set (reserved_indices d) (as_usize i) (Some self);
      reserve_loop self indices
        (d <| reserved_indices := r |> <| n_reserved ::= fun k => u64_add k 1 |>) assigned
  end.

(** The state lock is held through the broadcasts, so the handler is one segment. *)
Definition reserve_batch (net : Net) (self : ClientIdentity) (indices : list u64) (d : Exec)
    : Exec * list Send * result ErrorObject unit :=
  match check_reserve_batch self d indices with
  | Ok _ =>
      match reserve_loop self indices d [] with
      | Ok (d, assigned) =>
          let event := ReservedInputEvent self indices in
          let d := d <| reserved_index_events ::= (.++ [event]) |>
                     <| assigned_reserved_index_events ::= (.++ assigned) |> in
          let log1 := broadcast (reserved_index_sinks d) (MEvent event) in
          let d := d <| reserved_index_sinks ::= delivered net |> in
          if bool_decide (assigned = []) then (d, log1, Ok tt)
          else
            let log2 := broadcast (assigned_reserved_index_sinks d) (MReservations assigned) in
            (d <| assigned_reserved_index_sinks ::= delivered net |>, log1 ++ log2, Ok tt)
      | Err e => (d, [], Err e)
      | Panic => (d, [], Panic)
      end
  | Err e => (d, [], Err e)
  | Panic => (d, [], Panic)
  end.

Definition reserve_mask_indices (net : Net) (self : ClientIdentity) (eid : ExecutionId)
    (indices : list u64) : Server → Outcome unit :=
  with_execution eid (reserve_batch net self indices).

Definition reserve_mask_index (net : Net) (self : ClientIdentity) (eid : ExecutionId) (i : u64)
    : Server → Outcome unit :=
  reserve_mask_indices net self eid [i].

(** ** Submission of masked inputs *)

(** The checks made for one index of a batch. *)
Definition check_submit (self : ClientIdentity) (d : Exec) (raw : u64) : result ErrorObject unit :=
  let i := as_usize raw in
  _ ← ensure (negb (vlen (masked_inputs d) <=? i)%N) (server_error IndexOutOfBounds);
  owner ← index (reserved_indices d) i;
  match owner with
  | Some public_key =>
      _ ← ensure (bool_decide (public_key = self)) (server_error BadID);
      previous ← index (masked_inputs d) i;
      ensure (negb (is_some previous)) (server_error MaskedInputAlreadySubmitted)
  | None => Err (server_error IndexNotReserved)
  end.

Definition check_submit_batch (self : ClientIdentity) (d : Exec) (inputs : list bytes)
    (indices : list u64) : result ErrorObject unit :=
  _ ← ensure (bool_decide (round d = InputCollection)) (server_error WrongRound);
  _ ← ensure (vlen inputs =? vlen indices)%N (server_error MismatchedBatchLengths);
  _ ← ensure (negb (bool_decide (indices = []))) (server_error EmptyBatch);
  for_each (check_submit self d) indices.

(** The loop that writes the inputs and collects the assigned events. *)
Fixpoint submit_loop (self : ClientIdentity) (pairs : list (u64 * bytes)) (d : Exec)
    (assigned : list AssignedMaskedInputEvent)
    : result ErrorObject (Exec * list AssignedMaskedInputEvent) :=
  match pairs with
  | [] => Ok (d, assigned)
  | (raw, masked_input) :: pairs =>
      let i := as_usize raw in
      m ← vec_set (masked_inputs d) i (Some masked_input);
      let assigned :=
        match input_assignments d !! N.to_nat i with
        | Some slot =>
            assigned ++ [mkAssignedMaskedInputEvent self raw (slot_label slot) masked_input]
        | None => assigned
        end in
      submit_loop self pairs (d <| masked_inputs := m |>) assigned
  end.

(** What the commit segment leaves for the rest of the handler: the sinks it
    took out of the state and the messages for them. *)
Record PendingSubmit : Type := mkPendingSubmit {
  ps_event : Event;
  ps_assigned : list AssignedMaskedInputEvent;
  ps_sinks : list SubscriptionSink;
  ps_assigned_sinks : list SubscriptionSink }.

(** The segment under the delivery mutex that validates and records the batch. *)
Definition submit_commit (self : ClientIdentity) (inputs : list bytes) (indices : list u64)
    (d : Exec) : Exec * result ErrorObject PendingSubmit :=
  match check_submit_batch self d inputs indices with
  | Ok _ =>
      let pairs := zip indices inputs in
      match submit_loop self pairs d [] with
      | Ok (d, assigned) =>
          let event := MaskedInputEvent self pairs in
          let d := d <| masked_input_events ::= (.++ [event]) |>
                     <| assigned_masked_input_events ::= (.++ assigned) |> in
          let taken := masked_input_sinks d in
          let d := d <| masked_input_sinks := [] |> in
          if bool_decide (assigned = [])
          then (d, Ok (mkPendingSubmit event assigned taken []))
          else (d <| assigned_masked_input_sinks := [] |>,
                Ok (mkPendingSubmit event assigned taken (assigned_masked_input_sinks d)))
      | Err e => (d, Err e)
      | Panic => (d, Panic)
      end
  | Err e => (d, Err e)
  | Panic => (d, Panic)
  end.

(** The sends made between the two segments. *)
Definition submit_sends (p : PendingSubmit) : list Send :=
  broadcast (ps_sinks p) (MEvent (ps_event p)) ++
  broadcast (ps_assigned_sinks p) (MMaskedInputs (ps_assigned p)).

(** The segment that puts the reached sinks back and re-checks the rounds. *)
Definition submit_finish (net : Net) (quorum : usize) (head : ClientIdentity) (p : PendingSubmit)
    (d : Exec) : Exec * list Send * result ErrorObject unit :=
  let d := d <| masked_input_sinks ::= (.++ delivered net (ps_sinks p)) |>
             <| assigned_masked_input_sinks ::= (.++ delivered net (ps_assigned_sinks p)) |> in
  match try_advance quorum head d with
  | Ok (d, transitions) => (d, deliver_transitions transitions, Ok tt)
  | Err e => (d, [], Err e)
  | Panic => (d, [], Panic)
  end.

(** The uninterrupted handler. *)
Definition submit_masked_inputs (net : Net) (self : ClientIdentity) (eid : ExecutionId)
    (inputs : list bytes) (indices : list u64) (s : Server) : Outcome unit :=
  match roster_head s with
  | Ok head =>
      with_execution eid (fun d =>
        match submit_commit self inputs indices d with
        | (d, Ok p) =>
            let '(d, log, r) := submit_finish net (transition_quorum s) head p d in
            (d, submit_sends p ++ log, r)
        | (d, Err e) => (d, [], Err e)
        | (d, Panic) => (d, [], Panic)
        end) s
  | Err e => (s, [], Err e)
  | Panic => (s, [], Panic)
  end.

Definition submit_masked_input (net : Net) (self : ClientIdentity) (eid : ExecutionId)
    (masked_input : bytes) (reserved_index : u64) : Server → Outcome unit :=
  submit_masked_inputs net self eid [masked_input] [reserved_index].

(** ** Round transitions *)

(** The segment that records the vote and advances. *)
Definition transition_vote (self : ClientIdentity) (quorum : usize) (head : ClientIdentity)
    (next_round : Round) (d : Exec) : Exec * list Send * result ErrorObject unit :=
  if (round_index next_round <=? round_index (round d))%N then (d, [], Ok tt)
  else
    let voters := default ∅ (transition_votes d !! next_round) in
    let d := d <| transition_votes ::= <[next_round := {[self]} ∪ voters]> |> in
    match try_advance quorum head d with
    | Ok (d, transitions) => (d, deliver_transitions transitions, Ok tt)
    | Err e => (d, [], Err e)
    | Panic => (d, [], Panic)
    end.

Definition rpc_transition (self : ClientIdentity) (eid : ExecutionId) (next_round : Round)
    (s : Server) : Outcome unit :=
  match roster_head s with
  | Ok head =>
      if negb (contains (mpc_nodes s) self) then (s, [], Err (server_error NotParty))
      else
        match round_before next_round with
        | None => (s, [], Err invalid_params)
        | Some _ => with_execution eid (transition_vote self (transition_quorum s) head next_round) s
        end
  | Err e => (s, [], Err e)
  | Panic => (s, [], Panic)
  end.

(** The developer-facing methods of the ready-to-use connection
    (src/crates/off-chain/src/tests/fake_coord.rs). *)
Definition start_preprocessing self eid := rpc_transition self eid Preprocessing.
Definition reserve_input_masks self eid := rpc_transition self eid InputMaskReservation.
Definition collect_inputs self eid := rpc_transition self eid InputCollection.
Definition start_mpc self eid := rpc_transition self eid MPCExecution.
Definition send_output self eid := rpc_transition self eid OutputDistribution.
Definition finalize self eid := rpc_transition self eid ProgramFinished.

(** ** Output shares *)

(** The segment that validates and stores one party's encrypted shares; it
    yields the output quorum of the execution. *)
Definition store_output_shares (self client_id : ClientIdentity) (is_party : bool)
    (enc_shares : bytes * bytes) (d : Exec) : Exec * list Send * result ErrorObject usize :=
  if negb is_party then (d, [], Err (server_error NotParty))
  else if negb (contains (output_clients d) client_id)
  then (d, [], Err (server_error NotOutputClient))
  else if is_some (output_shares d !! (client_id, self))
  then (d, [], Err (server_error OutputSharesAlreadySent))
  else (d <| output_shares ::= <[(client_id, self) := enc_shares]> |>, [],
        Ok (as_usize (min_output_shares (registration d)))).

(** [deliver_ready_output_waiters], first segment: the execution is expected to
    be still registered. *)
Definition output_snapshot (net : Net) (eid : ExecutionId) (client_id : ClientIdentity)
    (min_shares : usize) (s : Server)
    : Server * result ErrorObject (option (SubscriptionSink * list (bytes * bytes))) :=
  match executions s !! eid with
  | None => (s, Panic)
  | Some d =>
      let '(d, snapshot) := ready_output_snapshot net client_id min_shares d in
      (put_execution eid d s, Ok snapshot)
  end.

(** Second segment, after a failed send: forget the waiter if it is still the
    current one. *)
Definition forget_waiter (eid : ExecutionId) (client_id : ClientIdentity)
    (waiter : SubscriptionSink) (s : Server) : Server :=
  match executions s !! eid with
  | None => s
  | Some d =>
      if bool_decide (output_sinks d !! client_id = Some waiter)
      then put_execution eid (d <| output_sinks ::= delete client_id |>) s
      else s
  end.

Definition deliver_ready_output_waiters (net : Net) (eid : ExecutionId)
    (client_id : ClientIdentity) (min_shares : usize) (s : Server) : Outcome unit :=
  match output_snapshot net eid client_id min_shares s with
  | (s, Ok None) => (s, [], Ok tt)
  | (s, Ok (Some (waiter, shares))) =>
      let s := if send_ok net waiter 0 then s else forget_waiter eid client_id waiter s in
      (s, [(waiter, MOutputShares shares)], Ok tt)
  | (s, Err e) => (s, [], Err e)
  | (s, Panic) => (s, [], Panic)
  end.

Definition send_output_shares (net : Net) (self : ClientIdentity) (eid : ExecutionId)
    (client_id : ClientIdentity) (enc_shares : bytes * bytes) (s : Server) : Outcome unit :=
  let is_party := contains (mpc_nodes s) self in
  match with_execution eid (store_output_shares self client_id is_party enc_shares) s with
  | (s, _, Ok min_shares) => deliver_ready_output_waiters net eid client_id min_shares s
  | (s, log, Err e) => (s, log, Err e)
  | (s, log, Panic) => (s, log, Panic)
  end.

(** [resolve_output_encryption_key] *)
Definition resolve_output_encryption_key (eid : ExecutionId) (client_id : ClientIdentity)
    (s : Server) : result ErrorObject (option bytes) :=
  Ok (resolve_ecdh_public_key (webauthn_bindings s) eid client_id).

(** ** Subscriptions *)

(** The end of a subscription call: rejected with an error, not completed by the
    client ([pending.accept()] failed), or run to its end. *)
Inductive SubOutcome : Type :=
  | Rejected (e : ErrorObject)
  | NotAccepted
  | Subscribed.

(** The segment that decides whether to accept a round subscription. *)
Definition sub_round_check (eid : ExecutionId) (r : Round) (s : Server) : option ErrorObject :=
  match round_before r with
  | None => Some invalid_params
  | Some _ => if is_some (executions s !! eid) then None
              else Some (server_error ExecutionNotFound)
  end.

(** The segment that attaches the accepted sink, or replays a past round. *)
Definition sub_round_attach (eid : ExecutionId) (r : Round) (sink : SubscriptionSink) (s : Server)
    : Server * list Send :=
  match executions s !! eid with
  | None => (s, [])
  | Some d =>
      match trans_events d !! r with
      | Some event => (s, [(sink, MEvent event)])
      | None => (put_execution eid
                   (d <| sinks ::= <[r := default [] (sinks d !! r) ++ [sink]]> |>) s, [])
      end
  end.

Definition sub_round (accept : option SubscriptionSink) (eid : ExecutionId) (r : Round)
    (s : Server) : Server * list Send * SubOutcome :=
  match sub_round_check eid r s, accept with
  | Some e, _ => (s, [], Rejected e)
  | None, None => (s, [], NotAccepted)
  | None, Some sink => let '(s, log) := sub_round_attach eid r sink s in (s, log, Subscribed)
  end.

(** The four event subscriptions share their shape. *)
Definition sub_events (attach : SubscriptionSink → Exec → Exec * list Send)
    (accept : option SubscriptionSink) (eid : ExecutionId) (s : Server)
    : Server * list Send * SubOutcome :=
  match executions s !! eid, accept with
  | None, _ => (s, [], Rejected (server_error ExecutionNotFound))
  | Some _, None => (s, [], NotAccepted)
  | Some d, Some sink => let '(d, log) := attach sink d in (put_execution eid d s, log, Subscribed)
  end.

Definition sub_reserved_indices (net : Net) := sub_events (subscribe_reserved_indices net).
Definition sub_masked_inputs (net : Net) := sub_events (subscribe_masked_inputs net).
Definition sub_assigned_reserved_indices (net : Net) :=
  sub_events (subscribe_assigned_reserved_indices net).
Definition sub_assigned_masked_inputs (net : Net) :=
  sub_events (subscribe_assigned_masked_inputs net).

(** A waiter for [id] is present and open. *)
Definition has_open_waiter (net : Net) (id : ClientIdentity) (d : Exec) : bool :=
  match output_sinks d !! id with Some sink => negb (is_closed net sink) | None => false end.

(** [obtain_output_shares]: the rejection test. *)
Definition obtain_check (net : Net) (self : ClientIdentity) (eid : ExecutionId) (s : Server)
    : option ErrorObject :=
  match execution_state s eid with
  | Ok d =>
      if negb (contains (output_clients d) self) then Some (server_error NotOutputClient)
      else if has_open_waiter net self d then Some (server_error OutputSharesAlreadyRequested)
      else None
  | Err e => Some e
  | Panic => None
  end.

(** The segment after the handshake: the output quorum when the sink was
    registered, [None] when the call ends here. *)
Definition obtain_attach (net : Net) (self : ClientIdentity) (eid : ExecutionId)
    (sink : SubscriptionSink) (s : Server) : Server * option usize :=
  match executions s !! eid with
  | None => (s, None)
  | Some d =>
      if negb (contains (output_clients d) self) || has_open_waiter net self d then (s, None)
      else (put_execution eid (d <| output_sinks ::= <[self := sink]> |>) s,
            Some (as_usize (min_output_shares (registration d))))
  end.

Definition obtain_output_shares (net : Net) (accept : option SubscriptionSink)
    (self : ClientIdentity) (eid : ExecutionId) (s : Server)
    : Server * list Send * result ErrorObject SubOutcome :=
  match obtain_check net self eid s, accept with
  | Some e, _ => (s, [], Ok (Rejected e))
  | None, None => (s, [], Ok NotAccepted)
  | None, Some sink =>
      match obtain_attach net self eid sink s with
      | (s, None) => (s, [], Ok Subscribed)
      | (s, Some min_shares) =>
          let '(s, log, r) := deliver_ready_output_waiters net eid self min_shares s in
          (s, log, (fun _ => Subscribed) <$> r)
      end
  end.
End rpc.
