(* ===== verification/ServerSamples.v ===== *)
(** Concrete coordinators on which the theorems are exercised: four parties, one
    of which may be faulty, and the sample execution at several points of its
    life. *)
From S2P Require Import Prelude Shared Execution Samples Sessions Server Rpc.

#[export] Instance sample_order : HashOrder := stdpp_hash_order.

Definition sample_server : Server := unwrap (new_server 4 1 parties) eq_refl.

(** A coordinator that runs the execution [d] only. *)
Definition sample_running (d : Exec) : Server := put_execution sample_eid d sample_server.

Definition sample_registered : Server := sample_running sample_exec.

(** A run from the start: registration, then three parties propose a round. *)
Definition sample_start : Server :=
  (rpc_register_execution party1 sample_registration 1 sample_server).1.1.
Definition vote_all (r : Round) (s : Server) : Server :=
  foldl (fun s p => (rpc_transition p sample_eid r s).1.1) s [party1; party2; party3].
Definition sample_preprocessing : Server := vote_all Preprocessing sample_start.

(** The sample execution of a coordinator. *)
Definition sample_get (s : Server) : Exec := default sample_exec (executions s !! sample_eid).

Lemma sample_get_Some s :
  is_some (executions s !! sample_eid) = true →
  executions s !! sample_eid = Some (sample_get s).
Proof. unfold sample_get. by destruct (executions s !! sample_eid). Qed.

Lemma is_some_true {A} (o : option A) : is_some o = true → is_Some o.
Proof. destruct o; [eauto|done]. Qed.
