(* ===== verification/Invariant.v ===== *)
(** Well-formedness of one execution, and the proof that every segment of every
    handler that changes an execution preserves it. *)
From S2P Require Import Prelude Shared Execution Rounds Sessions Server Rpc.

(** ** The invariant *)

(** The vectors of an execution fit into the address space. *)
Definition total_inputs (reg : ExecutionRegistration) : N :=
  foldr N.add 0%N (range_count <$> ia_ranges (input_assignment reg)).
Definition registration_fits (reg : ExecutionRegistration) : Prop :=
  (OPTION_VEC_SIZE * n_inputs reg <= isize_max)%N ∧ (SLOT_SIZE * total_inputs reg <= isize_max)%N.

(** [client] submitted [m] for the index [raw]. *)
Definition submitted (d : Exec) (client : ClientIdentity) (raw : u64) (m : bytes) : Prop :=
  ∃ pairs, MaskedInputEvent client pairs ∈ masked_input_events d ∧ (raw, m) ∈ pairs.

Record exec_wf (nodes : list ClientIdentity) (q : usize) (d : Exec) : Prop := {
  wf_n_inputs : (n_inputs (registration d) < u64_modulus)%N;
  wf_fits : registration_fits (registration d);
  wf_reserved_len : vlen (reserved_indices d) = n_inputs (registration d);
  wf_masked_len : vlen (masked_inputs d) = n_inputs (registration d);
  wf_output_clients : output_clients d = reg_output_clients (registration d);
  wf_output_quorum : (1 <= min_output_shares (registration d) <= vlen nodes)%N;
  wf_slots : input_assignments d =
    input_slots (ia_ranges (input_assignment (registration d)));
  wf_slot_clients : Forall (fun slot => is_Some (input_slot_client d slot)) (input_assignments d);
  wf_coverage : ia_ranges (input_assignment (registration d)) = [] ∨
    n_inputs (registration d) =
      u64_sum (range_count <$> ia_ranges (input_assignment (registration d)));
  wf_votes : ∀ r voters, transition_votes d !! r = Some voters → voters ⊆ list_to_set nodes;
  wf_acks : retirement_acks d ⊆ list_to_set nodes;
  wf_shares : ∀ c p sh, output_shares d !! (c, p) = Some sh → c ∈ output_clients d ∧ p ∈ nodes;
  wf_waiters : ∀ c k, output_sinks d !! c = Some k → c ∈ output_clients d;
  wf_owner : ∀ i c slot, reserved_indices d !! i = Some (Some c) →
    input_assignments d !! i = Some slot → input_slot_client d slot = Some c;
  wf_masked_reserved : ∀ i m, masked_inputs d !! i = Some (Some m) →
    ∃ c, reserved_indices d !! i = Some (Some c);
  wf_author : ∀ i m, masked_inputs d !! i = Some (Some m) →
    ∃ c raw, submitted d c raw m ∧ N.to_nat (as_usize raw) = i;
  wf_written : ∀ c raw m, submitted d c raw m →
    reserved_indices d !! N.to_nat (as_usize raw) = Some (Some c);
  wf_history : ∀ r, is_Some (trans_events d !! r) → (round_index r <= round_index (round d))%N;
  wf_current : round d ≠ Idle → is_Some (trans_events d !! round d);
  wf_waiting : ∀ r, is_Some (trans_events d !! r) → sinks d !! r = None;
  wf_inputs : is_Some (trans_events d !! InputCollection) →
    is_Some (trans_events d !! MPCExecution) → inputs_complete d;
  wf_quorum : ∀ r, is_Some (trans_events d !! r) → has_quorum q (transition_votes d) r }.

(** As many slots as the ranges count, which fit the address space. *)
Lemma vlen_expand_ranges ranges :
  vlen (input_slots ranges) = foldr N.add 0%N (range_count <$> ranges).
Proof.
  unfold input_slots. induction ranges as [|x ranges IH]; [done|].
  rewrite bind_cons, fmap_cons. simpl. unfold vlen in *.
  rewrite length_app, Nat2N.inj_add, IH. unfold expand_range at 1.
  rewrite length_fmap, length_range_iter. f_equal. lia.
Qed.

Lemma slots_fit nodes q d : exec_wf nodes q d → (vlen (input_assignments d) <= isize_max)%N.
Proof.
  intros Hwf. rewrite (wf_slots _ _ _ Hwf), vlen_expand_ranges.
  destruct (wf_fits _ _ _ Hwf) as [_ Hs]. unfold total_inputs, SLOT_SIZE in Hs. lia.
Qed.

(** [expand_input_ranges] panics exactly when the slots do not fit. *)
Lemma expand_input_ranges_Ok {E} ranges slots :
  expand_input_ranges (E := E) ranges = Ok slots ↔
  slots = input_slots ranges ∧ (SLOT_SIZE * foldr N.add 0 (range_count <$> ranges) <= isize_max)%N.
Proof.
  unfold expand_input_ranges. split.
  - intros Hs. by inv_ok.
  - intros [-> Hfit]. rewrite (proj2 (with_capacity_Ok _ (u64_sum _) tt)).
    + simpl. by rewrite (proj2 (with_capacity_Ok _ _ tt) Hfit).
    + etrans; [|exact Hfit]. apply N.mul_le_mono_l. rewrite u64_sum_mod. by apply N.Div0.mod_le.
Qed.

(** Decompose a hypothesis that says an execution was created. *)
Ltac inv_new H :=
  unfold new_execution in H; inv_ok;
  match goal with Hx : expand_input_ranges _ = Ok _ |- _ => apply expand_input_ranges_Ok in Hx as [? ?] end;
  unfold usize_try_from in *; case_match; simplify_eq.

(** Close the conjuncts a segment does not touch. *)
Ltac keep_wf H := destruct H; constructor; simpl in *; try done.

(** ** Closed forms of the two batch loops *)

Definition assigned_reservations (self : ClientIdentity) (d : Exec) (indices : list u64)
    : list AssignedMaskReservation :=
  omap (fun i => (fun slot => mkAssignedMaskReservation self i (slot_label slot)) <$>
          input_assignments d !! N.to_nat (as_usize i)) indices.

Definition assigned_inputs (self : ClientIdentity) (d : Exec) (pairs : list (u64 * bytes))
    : list AssignedMaskedInputEvent :=
  omap (fun p => (fun slot => mkAssignedMaskedInputEvent self p.1 (slot_label slot) p.2) <$>
          input_assignments d !! N.to_nat (as_usize p.1)) pairs.

Definition bump (k : u64) (indices : list u64) : u64 := foldl (fun k _ => u64_add k 1) k indices.

Lemma reserve_loop_eq self indices d acc :
  Forall (fun i => (as_usize i < vlen (reserved_indices d))%N) indices →
  reserve_loop self indices d acc =
    Ok (d <| reserved_indices := fill self (as_usize <$> indices) (reserved_indices d) |>
          <| n_reserved := bump (n_reserved d) indices |>,
        acc ++ assigned_reservations self d indices).
Proof.
  revert d acc. induction indices as [|i indices IH]; intros d acc Hall; simpl.
  { rewrite app_nil_r. by destruct d. }
  apply Forall_cons in Hall as [Hi Hall]. rewrite vec_set_Ok by done. simpl.
  rewrite IH by (simpl; by rewrite vlen_insert). f_equal. f_equal.
  unfold assigned_reservations. simpl.
  destruct (input_assignments d !! N.to_nat (as_usize i)); simpl; [by rewrite <-app_assoc|done].
Qed.

Lemma submit_loop_eq self pairs d acc :
  Forall (fun p => (as_usize p.1 < vlen (masked_inputs d))%N) pairs →
  submit_loop self pairs d acc =
    Ok (d <| masked_inputs := fill_pairs (prod_map as_usize id <$> pairs) (masked_inputs d) |>,
        acc ++ assigned_inputs self d pairs).
Proof.
  revert d acc. induction pairs as [|[i m] pairs IH]; intros d acc Hall; simpl.
  { rewrite app_nil_r. by destruct d. }
  apply Forall_cons in Hall as [Hi Hall]. simpl in Hi. rewrite vec_set_Ok by done. simpl.
  rewrite IH by (simpl; by rewrite vlen_insert). f_equal. f_equal.
  unfold assigned_inputs. simpl.
  destruct (input_assignments d !! N.to_nat (as_usize i)); simpl; [by rewrite <-app_assoc|done].
Qed.

(** ** What the checks guarantee *)

Lemma check_reserve_Ok self d i :
  check_reserve self d i = Ok tt →
  (as_usize i < vlen (reserved_indices d))%N ∧
  reserved_indices d !! N.to_nat (as_usize i) = Some None ∧
  (∀ slot, input_assignments d !! N.to_nat (as_usize i) = Some slot →
     input_slot_client d slot = Some self).
Proof.
  unfold check_reserve. intros Hc. inv_ok. reflect_bool.
  destruct a as [c|]; [done|]. split; [lia|]. split; [done|].
  intros slot Hslot. rewrite Hslot in Hc. inv_ok. by reflect_bool.
Qed.

Lemma check_reserve_batch_Ok self d indices u :
  check_reserve_batch self d indices = Ok u →
  round d = InputMaskReservation ∧ indices ≠ [] ∧
  (∀ k, reserved_indices d !! k ≠ Some (Some self)) ∧
  Forall (fun i => check_reserve self d i = Ok tt) indices.
Proof.
  unfold check_reserve_batch. intros Hc. inv_ok. reflect_bool.
  repeat split; [done..| |done]. intros k Hk.
  match goal with H : existsb _ _ = false |- _ =>
    apply not_true_iff_false in H; apply H, existsb_exists end.
  exists (Some self). rewrite bool_decide_eq_true. split; [|done].
  apply list_elem_of_In. by eapply list_elem_of_lookup_2.
Qed.

Lemma check_submit_Ok self d raw :
  check_submit self d raw = Ok tt →
  (as_usize raw < vlen (masked_inputs d))%N ∧
  reserved_indices d !! N.to_nat (as_usize raw) = Some (Some self) ∧
  masked_inputs d !! N.to_nat (as_usize raw) = Some None.
Proof.
  unfold check_submit. intros Hc. inv_ok. reflect_bool.
  destruct a as [c|]; [|done]. inv_ok. reflect_bool. subst c.
  destruct a as [?|]; [done|]. split; [lia|]. by split.
Qed.

Lemma check_submit_batch_Ok self d inputs indices u :
  check_submit_batch self d inputs indices = Ok u →
  round d = InputCollection ∧ length inputs = length indices ∧ indices ≠ [] ∧
  Forall (fun i => check_submit self d i = Ok tt) indices.
Proof.
  unfold check_submit_batch. intros Hc. inv_ok. reflect_bool.
  repeat split; [done| |done..]. unfold vlen in *. lia.
Qed.

(** ** Preservation: the round engine *)

(** A vote only adds to the support of a round. *)
Lemma has_quorum_insert q votes self r r' :
  has_quorum q votes r → has_quorum q (<[r' := {[self]} ∪ default ∅ (votes !! r')]> votes) r.
Proof.
  intros (v & Hv & Hq). unfold has_quorum. rewrite lookup_insert. case_decide; [|by eauto].
  subst r'. rewrite Hv. simpl. eexists. split; [done|].
  assert (size v ≤ size ({[self]} ∪ v)) by (apply subseteq_size; set_solver). lia.
Qed.

Section preservation.
Context `{HashOrder} (nodes : list ClientIdentity) (q : usize).
Implicit Types d : Exec.

Lemma move_wf head d d' :
  exec_wf nodes q d → move q head d d' → exec_wf nodes q d'.
Proof.
  intros Hwf (r & e & Hstep & He & ->). inversion_clear Hstep as [? ? Hm Hq Hin].
  pose proof (legal_move_index _ _ Hm) as Hlt.
  keep_wf Hwf.
  - intros r'. destruct (decide (r = r')) as [<-|Hne]; [lia|].
    rewrite lookup_insert_ne by done. intros Hs. apply wf_history0 in Hs. lia.
  - intros _. rewrite lookup_insert_eq. eauto.
  - intros r' Hs. destruct (decide (r = r')) as [<-|Hne]; [apply lookup_delete_eq|].
    rewrite lookup_insert_ne in Hs by done. rewrite lookup_delete_ne by done. auto.
  - unfold inputs_complete in *. simpl.
    destruct (decide (r = MPCExecution)) as [->|Hmpc].
    + rewrite lookup_insert_ne by done. intros Hic%wf_history0 _.
      destruct (Hin eq_refl) as [Hp|?]; [|done]. rewrite Hp in Hic. by compute in Hic.
    + rewrite (lookup_insert_ne _ r MPCExecution) by done.
      destruct (decide (r = InputCollection)) as [->|?].
      * intros _ Hmp%wf_history0. simpl in *. lia.
      * rewrite lookup_insert_ne by done. auto.
  - intros r'. destruct (decide (r = r')) as [<-|Hne]; [done|].
    rewrite lookup_insert_ne by done. auto.
Qed.

Lemma moves_wf head d d' :
  exec_wf nodes q d → rtc (move q head) d d' → exec_wf nodes q d'.
Proof. intros Hwf. induction 1; eauto using move_wf. Qed.

Lemma try_advance_wf head d d' dels :
  exec_wf nodes q d → try_advance q head d = Ok (d', dels) → exec_wf nodes q d'.
Proof. eauto using moves_wf, try_advance_moves. Qed.

(** ** Preservation: creation *)

Lemma new_execution_wf reg n delivery d :
  n = vlen nodes → new_execution reg n delivery = Ok d →
  exec_wf nodes q d ∧ registration d = reg ∧ is_zero (execution_id reg) = false.
Proof.
  intros -> Hn. inv_new Hn. reflect_bool.
  match goal with H : (_ || _) = true |- _ => apply orb_true_iff in H end.
  split; [|by split]. constructor; simpl.
  - by reflect_bool.
  - by split.
  - unfold vlen. by rewrite length_replicate, N2Nat.id.
  - unfold vlen. by rewrite length_replicate, N2Nat.id.
  - done.
  - lia.
  - done.
  - unfold input_slot_client, input_slots. simpl. apply Forall_forall.
    intros slot (range & Hs & Hr)%list_elem_of_bind.
    match goal with H : forallb _ _ = true |- _ =>
      rewrite forallb_forall in H; specialize (H range (proj1 (list_elem_of_In _ _) Hr)) end.
    apply list_elem_of_fmap in Hs as (k & -> & _). simpl. reflect_bool.
    apply lookup_lt_is_Some_2. unfold vlen in *. lia.
  - destruct (decide (ia_ranges (input_assignment reg) = [])); [by left|right].
    naive_solver (reflect_bool; done).
  - intros r voters. by rewrite lookup_empty.
  - apply empty_subseteq.
  - intros c p sh. by rewrite lookup_empty.
  - intros c k. by rewrite lookup_empty.
  - intros i c slot Hl. apply lookup_replicate in Hl. naive_solver.
  - intros i m Hl. apply lookup_replicate in Hl. naive_solver.
  - intros i m Hl. apply lookup_replicate in Hl. naive_solver.
  - intros c raw m (pairs & Hin & _). by apply not_elem_of_nil in Hin.
  - intros r. rewrite lookup_empty. by intros [??].
  - done.
  - intros r. by rewrite !lookup_empty.
  - rewrite lookup_empty. by intros [??].
  - intros r. rewrite lookup_empty. by intros [??].
Qed.

(** ** Preservation: reservations *)

Lemma reserve_written_wf self d indices k :
  exec_wf nodes q d → Forall (fun i => check_reserve self d i = Ok tt) indices →
  exec_wf nodes q (d <| reserved_indices := fill self (as_usize <$> indices) (reserved_indices d) |>
                   <| n_reserved := k |>).
Proof.
  intros Hwf Hall. keep_wf Hwf.
  - unfold vlen in *. by rewrite length_fill.
  - intros i c slot Hi Hslot. rewrite lookup_fill in Hi. case_decide as Hd; [|by eapply wf_owner0].
    simplify_eq. destruct Hd as [(j & Hj & Hin)%list_elem_of_fmap _].
    rewrite Forall_forall in Hall. destruct (check_reserve_Ok _ _ _ (Hall _ Hin)) as (_ & _ & Ho).
    apply Ho. by rewrite <-Hj, Nat2N.id.
  - intros i m Hm. destruct (wf_masked_reserved0 i m Hm) as [c Hc]. exists c.
    rewrite lookup_fill. case_decide as Hd; [|done].
    destruct Hd as [(j & Hj & Hin)%list_elem_of_fmap _].
    rewrite Forall_forall in Hall. destruct (check_reserve_Ok _ _ _ (Hall _ Hin)) as (_ & Hn & _).
    rewrite <-Hj, Nat2N.id in Hn. congruence.
  - intros c raw m Hs. apply wf_written0 in Hs. rewrite lookup_fill. case_decide as Hd; [|done].
    destruct Hd as [(j & Hj & Hin)%list_elem_of_fmap _].
    rewrite Forall_forall in Hall. destruct (check_reserve_Ok _ _ _ (Hall _ Hin)) as (_ & Hn & _).
    rewrite <-Hj, Nat2N.id in Hn. congruence.
Qed.

(** The outcome of a reservation call: refused with nothing changed, or carried
    out in full. *)
Definition reserved_state (self : ClientIdentity) (indices : list u64) (d : Exec) : Exec :=
  d <| reserved_indices := fill self (as_usize <$> indices) (reserved_indices d) |>
    <| n_reserved := bump (n_reserved d) indices |>
    <| reserved_index_events ::= (.++ [ReservedInputEvent self indices]) |>
    <| assigned_reserved_index_events ::= (.++ assigned_reservations self d indices) |>.

Lemma reserve_batch_cases net self indices d d' log r :
  reserve_batch net self indices d = (d', log, r) →
  (∃ e, check_reserve_batch self d indices = Err e ∧ r = Err e ∧ d' = d ∧ log = []) ∨
  (check_reserve_batch self d indices = Panic ∧ r = Panic ∧ d' = d ∧ log = []) ∨
  (check_reserve_batch self d indices = Ok tt ∧ r = Ok tt ∧
   let assigned := assigned_reservations self d indices in
   let log1 := broadcast (reserved_index_sinks d) (MEvent (ReservedInputEvent self indices)) in
   let d1 := reserved_state self indices d
               <| reserved_index_sinks := delivered net (reserved_index_sinks d) |> in
   if bool_decide (assigned = []) then d' = d1 ∧ log = log1
   else d' = d1 <| assigned_reserved_index_sinks :=
                     delivered net (assigned_reserved_index_sinks d) |> ∧
        log = log1 ++ broadcast (assigned_reserved_index_sinks d) (MReservations assigned)).
Proof.
  unfold reserve_batch. intros Hr.
  destruct (check_reserve_batch self d indices) as [[]| |] eqn:Hc; [|naive_solver..].
  right; right. pose proof (check_reserve_batch_Ok _ _ _ _ Hc) as (_ & _ & _ & Hall).
  rewrite reserve_loop_eq in Hr.
  2: { eapply Forall_impl; [done|]. by intros i (? & _)%check_reserve_Ok. }
  simpl in Hr. split; [done|].
  case_bool_decide; injection Hr as <- <- <-; (split; [done|]; by split).
Qed.

Lemma reserve_batch_wf net self indices d d' log r :
  exec_wf nodes q d → reserve_batch net self indices d = (d', log, r) → exec_wf nodes q d'.
Proof.
  intros Hwf [(e & _ & _ & -> & _)|[(_ & _ & -> & _)|(Hc & _ & Hd)]]%reserve_batch_cases;
    [done..|].
  pose proof (check_reserve_batch_Ok _ _ _ _ Hc) as (_ & _ & _ & Hall).
  pose proof (reserve_written_wf self d indices (bump (n_reserved d) indices) Hwf Hall) as Hw.
  simpl in Hd. case_bool_decide; destruct Hd as [-> _]; keep_wf Hw.
Qed.

(** ** Preservation: submissions *)

(** The commit segment: refused with nothing changed, or recorded in full with
    the subscribers taken out. *)
Definition submitted_state (self : ClientIdentity) (pairs : list (u64 * bytes)) (d : Exec) : Exec :=
  d <| masked_inputs := fill_pairs (prod_map as_usize id <$> pairs) (masked_inputs d) |>
    <| masked_input_events ::= (.++ [MaskedInputEvent self pairs]) |>
    <| assigned_masked_input_events ::= (.++ assigned_inputs self d pairs) |>
    <| masked_input_sinks := [] |>.

Lemma submit_commit_cases self inputs indices d d' r :
  submit_commit self inputs indices d = (d', r) →
  (∃ e, check_submit_batch self d inputs indices = Err e ∧ r = Err e ∧ d' = d) ∨
  (check_submit_batch self d inputs indices = Panic ∧ r = Panic ∧ d' = d) ∨
  (check_submit_batch self d inputs indices = Ok tt ∧
   let pairs := zip indices inputs in
   let assigned := assigned_inputs self d pairs in
   if bool_decide (assigned = [])
   then d' = submitted_state self pairs d ∧
        r = Ok (mkPendingSubmit (MaskedInputEvent self pairs) assigned (masked_input_sinks d) [])
   else d' = submitted_state self pairs d <| assigned_masked_input_sinks := [] |> ∧
        r = Ok (mkPendingSubmit (MaskedInputEvent self pairs) assigned (masked_input_sinks d)
                  (assigned_masked_input_sinks d))).
Proof.
  unfold submit_commit. intros Hr.
  destruct (check_submit_batch self d inputs indices) as [[]| |] eqn:Hc; [|naive_solver..].
  right; right. pose proof (check_submit_batch_Ok _ _ _ _ _ Hc) as (_ & _ & _ & Hall).
  rewrite submit_loop_eq in Hr.
  2: { apply Forall_forall. intros [i m] Hin. rewrite Forall_forall in Hall. simpl.
       destruct (check_submit_Ok self d i) as [? _]; [|done].
       apply Hall. by apply elem_of_zip_l in Hin. }
  simpl in *. split; [done|]. case_bool_decide; by simplify_eq.
Qed.

(** What a slot holds after a batch was written. *)
Lemma written_slot (pairs : list (u64 * bytes)) l (i : nat) m :
  fill_pairs (prod_map as_usize id <$> pairs) l !! i = Some (Some m) →
  (∃ raw, (raw, m) ∈ pairs ∧ N.to_nat (as_usize raw) = i) ∨ l !! i = Some (Some m).
Proof.
  set (ps := prod_map as_usize id <$> pairs). intros Hm.
  destruct (decide (N.of_nat i ∈ ps.*1)) as [Hin|Hin]; [left|right; by rewrite lookup_fill_pairs_ne in Hm].
  assert (i < length l) as Hlt by (apply lookup_lt_Some in Hm; by rewrite length_fill_pairs in Hm).
  destruct (lookup_fill_pairs_elem ps l i Hin Hlt) as (v & Hv & Hl). rewrite Hl in Hm. injection Hm as ->.
  apply list_elem_of_fmap in Hv as ([raw b] & [= Hi ->] & Hv). exists raw. split; [done|]. lia.
Qed.

Lemma submitted_app self pairs d c raw m :
  submitted (submitted_state self pairs d) c raw m ↔
  submitted d c raw m ∨ c = self ∧ (raw, m) ∈ pairs.
Proof.
  unfold submitted. simpl. setoid_rewrite elem_of_app. setoid_rewrite list_elem_of_singleton. naive_solver.
Qed.

Lemma submitted_state_wf self inputs indices d :
  exec_wf nodes q d → check_submit_batch self d inputs indices = Ok tt →
  exec_wf nodes q (submitted_state self (zip indices inputs) d).
Proof.
  intros Hwf Hc. pose proof (check_submit_batch_Ok _ _ _ _ _ Hc) as (Hround & _ & _ & Hall).
  assert (∀ raw m, (raw, m) ∈ zip indices inputs →
    reserved_indices d !! N.to_nat (as_usize raw) = Some (Some self)) as Howned.
  { intros raw m Hin%elem_of_zip_l. rewrite Forall_forall in Hall. by apply check_submit_Ok, Hall. }
  keep_wf Hwf.
  - unfold vlen in *. by rewrite length_fill_pairs.
  - intros i m [(raw & Hin & <-)|Hm]%written_slot; [|eauto]. exists self. by eapply Howned.
  - intros i m [(raw & Hin & Hi)|Hm]%written_slot.
    + exists self, raw. rewrite submitted_app. auto.
    + destruct (wf_author0 i m Hm) as (c & raw & Hs & Hi). exists c, raw. rewrite submitted_app. auto.
  - intros c raw m [Hs|[-> Hin]]%submitted_app; [by eapply wf_written0|by eapply Howned].
  - intros _ Hmp%wf_history0. rewrite Hround in Hmp. simpl in Hmp. lia.
Qed.

Lemma submit_commit_wf self inputs indices d d' r :
  exec_wf nodes q d → submit_commit self inputs indices d = (d', r) → exec_wf nodes q d'.
Proof.
  intros Hwf [(e & _ & _ & ->)|[(_ & _ & ->)|(Hc & Hd)]]%submit_commit_cases; [done..|].
  pose proof (submitted_state_wf _ _ _ _ Hwf Hc) as Hw. simpl in Hd.
  case_bool_decide; destruct Hd as [-> _]; [done|]. keep_wf Hw.
Qed.

Lemma submit_finish_wf net head p d d' log r :
  exec_wf nodes q d → submit_finish net q head p d = (d', log, r) → exec_wf nodes q d'.
Proof.
  unfold submit_finish. intros Hwf Hf.
  match type of Hf with context [try_advance _ _ ?x] => set (d1 := x) in Hf end.
  destruct (try_advance_ok q head d1) as (d2 & dels & Heq & _). rewrite Heq in Hf.
  injection Hf as <- _ _. eapply try_advance_wf, Heq. subst d1. keep_wf Hwf.
Qed.

(** ** Preservation: votes *)

Lemma vote_recorded_wf self next_round d :
  self ∈ nodes → exec_wf nodes q d →
  exec_wf nodes q (d <| transition_votes ::=
    <[next_round := {[self]} ∪ default ∅ (transition_votes d !! next_round)]> |>).
Proof.
  intros Hself Hwf. keep_wf Hwf.
  - intros r voters. rewrite lookup_insert.
    case_decide; [|by apply wf_votes0]. intros [= <-]. subst r.
    destruct (transition_votes d !! next_round) as [v|] eqn:Hv; simpl; [|set_solver].
    apply wf_votes0 in Hv. set_solver.
  - intros r Hr. apply has_quorum_insert. auto.
Qed.

Lemma transition_vote_wf self head next_round d d' log r :
  self ∈ nodes → exec_wf nodes q d →
  transition_vote self q head next_round d = (d', log, r) → exec_wf nodes q d'.
Proof.
  unfold transition_vote. intros Hself Hwf Hf. case_match; [by injection Hf as <- _ _|].
  match type of Hf with context [try_advance _ _ ?x] => set (d1 := x) in Hf end.
  destruct (try_advance_ok q head d1) as (d2 & dels & Heq & _). rewrite Heq in Hf.
  injection Hf as <- _ _. eapply try_advance_wf, Heq. by apply vote_recorded_wf.
Qed.

(** ** Preservation: retirement and outputs *)

Lemma retirement_ack_wf party d :
  party ∈ nodes → exec_wf nodes q d → exec_wf nodes q (d <| retirement_acks ::= ({[party]} ∪.) |>).
Proof. intros Hp Hwf. keep_wf Hwf. set_solver. Qed.

Lemma store_output_shares_wf self client_id is_party sh d d' log r :
  (is_party = true → self ∈ nodes) → exec_wf nodes q d →
  store_output_shares self client_id is_party sh d = (d', log, r) → exec_wf nodes q d'.
Proof.
  unfold store_output_shares. intros Hp Hwf Hf.
  destruct is_party; simpl in Hf; [|by injection Hf as <- _ _].
  destruct (contains (output_clients d) client_id) eqn:Hc; simpl in Hf; [|by injection Hf as <- _ _].
  case_match; [by injection Hf as <- _ _|]. injection Hf as <- _ _.
  unfold contains in Hc. reflect_bool. keep_wf Hwf.
  intros c p sh'. rewrite lookup_insert. case_decide; [|by apply wf_shares0].
  intros _. simplify_eq. auto.
Qed.

Lemma drop_waiter_wf client_id d :
  exec_wf nodes q d → exec_wf nodes q (d <| output_sinks ::= delete client_id |>).
Proof.
  intros Hwf. keep_wf Hwf. intros c k. rewrite lookup_delete. case_decide; [done|]. apply wf_waiters0.
Qed.

Lemma ready_output_snapshot_wf net client_id m d d' o :
  exec_wf nodes q d → ready_output_snapshot net client_id m d = (d', o) → exec_wf nodes q d'.
Proof.
  unfold ready_output_snapshot. intros Hwf Hf.
  repeat case_match; injection Hf as <- _; eauto using drop_waiter_wf.
Qed.

Lemma add_waiter_wf client_id sink d :
  client_id ∈ output_clients d → exec_wf nodes q d →
  exec_wf nodes q (d <| output_sinks ::= <[client_id := sink]> |>).
Proof.
  intros Hc Hwf. keep_wf Hwf. intros c k. rewrite lookup_insert.
  case_decide; [by intros _; subst|]. apply wf_waiters0.
Qed.

(** ** Preservation: subscriptions *)

Lemma round_waiter_wf r sink d :
  trans_events d !! r = None → exec_wf nodes q d →
  exec_wf nodes q (d <| sinks ::= <[r := default [] (sinks d !! r) ++ [sink]]> |>).
Proof.
  intros Hr Hwf. keep_wf Hwf. intros r' Hs. rewrite lookup_insert.
  case_decide; [|by auto]. subst r'. rewrite Hr in Hs. by destruct Hs.
Qed.

Lemma subscribe_wf net sink d :
  exec_wf nodes q d →
  exec_wf nodes q (subscribe_reserved_indices net sink d).1 ∧
  exec_wf nodes q (subscribe_masked_inputs net sink d).1 ∧
  exec_wf nodes q (subscribe_assigned_reserved_indices net sink d).1 ∧
  exec_wf nodes q (subscribe_assigned_masked_inputs net sink d).1.
Proof.
  intros Hwf. unfold subscribe_reserved_indices, subscribe_masked_inputs,
    subscribe_assigned_reserved_indices, subscribe_assigned_masked_inputs.
  split_and!; (destruct (replay _ _ _ _) as [log []]; simpl; [keep_wf Hwf|done]).
Qed.

(** ** No segment panics *)

Lemma check_reserve_batch_no_panic self d indices :
  no_panic (check_reserve_batch self d indices).
Proof.
  unfold check_reserve_batch. repeat (apply bind_no_panic; [auto with coord|intros [] _]).
  apply for_each_no_panic, Forall_forall. intros i _. unfold check_reserve.
  apply bind_no_panic; [auto with coord|intros [] Hb]. inv_ok. reflect_bool.
  apply bind_no_panic; [by apply index_no_panic|intros o _].
  apply bind_no_panic; [auto with coord|intros [] _]. case_match; [auto with coord|done].
Qed.

Lemma check_submit_batch_no_panic self d inputs indices :
  exec_wf nodes q d → no_panic (check_submit_batch self d inputs indices).
Proof.
  intros Hwf. pose proof (wf_reserved_len _ _ _ Hwf) as H1.
  pose proof (wf_masked_len _ _ _ Hwf) as H2.
  unfold check_submit_batch. repeat (apply bind_no_panic; [auto with coord|intros [] _]).
  apply for_each_no_panic, Forall_forall. intros i _. unfold check_submit.
  apply bind_no_panic; [auto with coord|intros [] Hb]. inv_ok. reflect_bool.
  apply bind_no_panic; [apply index_no_panic; lia|intros [c|] _; [|done]].
  apply bind_no_panic; [auto with coord|intros [] _].
  apply bind_no_panic; [apply index_no_panic; lia|intros o _]. auto with coord.
Qed.

Lemma reserve_batch_no_panic net self indices d :
  no_panic (reserve_batch net self indices d).2.
Proof.
  destruct (reserve_batch net self indices d) as [[d' log] r] eqn:Hr. simpl.
  pose proof (check_reserve_batch_no_panic self d indices) as Hn.
  apply reserve_batch_cases in Hr as [(e & _ & -> & _)|[(Hp & _)|(_ & -> & _)]]; [done| |done].
  by rewrite Hp in Hn.
Qed.

Lemma submit_commit_no_panic self inputs indices d :
  exec_wf nodes q d → no_panic (submit_commit self inputs indices d).2.
Proof.
  intros Hwf. destruct (submit_commit self inputs indices d) as [d' r] eqn:Hr. simpl.
  pose proof (check_submit_batch_no_panic self d inputs indices Hwf) as Hn.
  apply submit_commit_cases in Hr as [(e & _ & -> & _)|[(Hp & _)|(_ & Hd)]]; [done| |].
  - by rewrite Hp in Hn.
  - simpl in Hd. case_bool_decide; by destruct Hd as [_ ->].
Qed.

Lemma submit_finish_ok net quorum head p d :
  ∃ d' log, submit_finish net quorum head p d = (d', log, Ok tt).
Proof.
  unfold submit_finish. match goal with |- context [try_advance _ _ ?x] =>
    destruct (try_advance_ok quorum head x) as (d2 & dels & -> & _) end. eauto.
Qed.

Lemma transition_vote_ok self quorum head next_round d :
  ∃ d' log, transition_vote self quorum head next_round d = (d', log, Ok tt).
Proof.
  unfold transition_vote. case_match; [eauto|]. match goal with |- context [try_advance _ _ ?x] =>
    destruct (try_advance_ok quorum head x) as (d2 & dels & -> & _) end. eauto.
Qed.
End preservation.
