(* ===== verification/History.v ===== *)
(** An execution only ever grows: rounds advance, slots are written once, votes,
    acknowledgements, shares and event histories accumulate.  Proved for every
    segment that changes an execution. *)
From S2P Require Import Prelude Shared Execution Rounds Sessions Server Rpc Invariant.

Record exec_le (d d' : Exec) : Prop := {
  le_registration : registration d' = registration d;
  le_delivery : masked_input_delivery d' = masked_input_delivery d;
  le_round : (round_index (round d) <= round_index (round d'))%N;
  le_reserved : ∀ i c, reserved_indices d !! i = Some (Some c) →
    reserved_indices d' !! i = Some (Some c);
  le_masked : ∀ i m, masked_inputs d !! i = Some (Some m) → masked_inputs d' !! i = Some (Some m);
  le_events : trans_events d ⊆ trans_events d';
  le_votes : ∀ r v, transition_votes d !! r = Some v →
    ∃ v', transition_votes d' !! r = Some v' ∧ v ⊆ v';
  le_acks : retirement_acks d ⊆ retirement_acks d';
  le_shares : output_shares d ⊆ output_shares d';
  le_reserved_history : reserved_index_events d `prefix_of` reserved_index_events d';
  le_assigned_history :
    assigned_reserved_index_events d `prefix_of` assigned_reserved_index_events d';
  le_masked_history : masked_input_events d `prefix_of` masked_input_events d';
  le_assigned_masked_history :
    assigned_masked_input_events d `prefix_of` assigned_masked_input_events d' }.

#[export] Instance exec_le_preorder : PreOrder exec_le.
Proof.
  split.
  - intros d. constructor; eauto; done.
  - intros d1 d2 d3 [] []. constructor; try (by etrans); eauto.
    intros r v Hv. destruct (le_votes0 r v Hv) as (v' & Hv' & ?).
    destruct (le_votes1 r v' Hv') as (v'' & ? & ?). exists v''. split; [done|]. by etrans.
Qed.

(** Close the parts of the order a segment does not touch. *)
Ltac keep_le := constructor; simpl; eauto using prefix_app_r; try done.

Section history.
Context `{HashOrder} (nodes : list ClientIdentity) (q : usize).
Implicit Types d : Exec.

Lemma move_le head d d' : exec_wf nodes q d → move q head d d' → exec_le d d'.
Proof.
  intros Hwf (r & e & Hstep & He & ->). inversion_clear Hstep as [? ? Hm _ Hin].
  pose proof (legal_move_index _ _ Hm) as Hlt. keep_le; [lia|].
  apply insert_subseteq. destruct (trans_events d !! r) eqn:Hr; [|done].
  assert (round_index r <= round_index (round d))%N by (eapply wf_history; eauto). lia.
Qed.

Lemma try_advance_le head d d' dels :
  exec_wf nodes q d → try_advance q head d = Ok (d', dels) → exec_le d d'.
Proof.
  intros Hwf Hadv%try_advance_moves. induction Hadv as [|d d1 d2 Hmv _ IH]; [done|].
  etrans; [by eapply move_le|]. by eapply IH, move_wf.
Qed.

Lemma reserve_batch_le net self indices d d' log r :
  reserve_batch net self indices d = (d', log, r) → exec_le d d'.
Proof.
  intros [(e & _ & _ & -> & _)|[(_ & _ & -> & _)|(Hc & _ & Hd)]]%reserve_batch_cases; [done..|].
  assert (∀ i c, reserved_indices d !! i = Some (Some c) →
    fill self (as_usize <$> indices) (reserved_indices d) !! i = Some (Some c)) as Hw.
  { pose proof (check_reserve_batch_Ok _ _ _ _ Hc) as (_ & _ & _ & Hall).
    intros i c Hi. rewrite lookup_fill. case_decide as Hd'; [|done].
    destruct Hd' as [(j & Hj & Hin)%list_elem_of_fmap _]. rewrite Forall_forall in Hall.
    destruct (check_reserve_Ok _ _ _ (Hall _ Hin)) as (_ & Hn & _).
    rewrite <-Hj, Nat2N.id in Hn. congruence. }
  simpl in Hd. case_bool_decide; destruct Hd as [-> _]; keep_le.
Qed.

Lemma submit_commit_le self inputs indices d d' r :
  submit_commit self inputs indices d = (d', r) → exec_le d d'.
Proof.
  intros [(e & _ & _ & ->)|[(_ & _ & ->)|(Hc & Hd)]]%submit_commit_cases; [done..|].
  assert (∀ i m, masked_inputs d !! i = Some (Some m) →
    fill_pairs (prod_map as_usize id <$> zip indices inputs) (masked_inputs d) !! i = Some (Some m))
    as Hw.
  { pose proof (check_submit_batch_Ok _ _ _ _ _ Hc) as (_ & _ & _ & Hall).
    intros i m Hi. rewrite lookup_fill_pairs_ne; [done|].
    intros ([j b] & Hj & ([raw b'] & [= -> ->] & Hin)%list_elem_of_fmap)%list_elem_of_fmap.
    simpl in Hj. apply elem_of_zip_l in Hin. rewrite Forall_forall in Hall.
    destruct (check_submit_Ok _ _ _ (Hall _ Hin)) as (_ & _ & Hn).
    rewrite <-Hj, Nat2N.id in Hn. congruence. }
  simpl in Hd. case_bool_decide; destruct Hd as [-> _]; keep_le.
Qed.

Lemma submit_finish_le net head p d d' log r :
  exec_wf nodes q d → submit_finish net q head p d = (d', log, r) → exec_le d d'.
Proof.
  unfold submit_finish. intros Hwf Hf.
  match type of Hf with context [try_advance _ _ ?x] => set (d1 := x) in Hf end.
  destruct (try_advance_ok q head d1) as (d2 & dels & Heq & _). rewrite Heq in Hf.
  injection Hf as <- _ _. etrans; [|eapply try_advance_le, Heq]; subst d1; [keep_le|keep_wf Hwf].
Qed.

Lemma transition_vote_le self head next_round d d' log r :
  self ∈ nodes → exec_wf nodes q d →
  transition_vote self q head next_round d = (d', log, r) → exec_le d d'.
Proof.
  unfold transition_vote. intros Hself Hwf Hf. case_match; [by injection Hf as <- _ _|].
  match type of Hf with context [try_advance _ _ ?x] => set (d1 := x) in Hf end.
  destruct (try_advance_ok q head d1) as (d2 & dels & Heq & _). rewrite Heq in Hf.
  injection Hf as <- _ _. etrans; [|eapply try_advance_le, Heq; by apply vote_recorded_wf].
  subst d1. keep_le. intros r' v Hv. rewrite lookup_insert. case_decide; [|by eauto].
  subst r'. rewrite Hv. eexists. split; [done|]. set_solver.
Qed.

Lemma retirement_ack_le party d : exec_le d (d <| retirement_acks ::= ({[party]} ∪.) |>).
Proof. keep_le. set_solver. Qed.

Lemma store_output_shares_le self client_id is_party sh d d' log r :
  store_output_shares self client_id is_party sh d = (d', log, r) → exec_le d d'.
Proof.
  unfold store_output_shares. intros Hf.
  repeat (case_match; [by injection Hf as <- _ _|]). injection Hf as <- _ _.
  keep_le. apply insert_subseteq. by destruct (output_shares d !! (client_id, self)).
Qed.

Lemma drop_waiter_le client_id d : exec_le d (d <| output_sinks ::= delete client_id |>).
Proof. keep_le. Qed.

Lemma ready_output_snapshot_le net client_id m d d' o :
  ready_output_snapshot net client_id m d = (d', o) → exec_le d d'.
Proof.
  unfold ready_output_snapshot. intros Hf.
  repeat case_match; injection Hf as <- _; eauto using drop_waiter_le; done.
Qed.

Lemma subscribe_le net sink d :
  exec_le d (subscribe_reserved_indices net sink d).1 ∧
  exec_le d (subscribe_masked_inputs net sink d).1 ∧
  exec_le d (subscribe_assigned_reserved_indices net sink d).1 ∧
  exec_le d (subscribe_assigned_masked_inputs net sink d).1.
Proof.
  unfold subscribe_reserved_indices, subscribe_masked_inputs,
    subscribe_assigned_reserved_indices, subscribe_assigned_masked_inputs.
  split_and!; (destruct (replay _ _ _ _) as [log []]; simpl; [keep_le|done]).
Qed.
End history.
