(* ===== verification/Topology.v ===== *)
(** The coordinator-wide invariant: topology and quorum arithmetic, the sealed
    executions, and their preservation by the registry operations. *)
From S2P Require Import Prelude Shared Execution Samples Rounds Sessions Server Rpc ServerSamples.
From S2P Require Import Invariant History.

(** ** Topology *)

Record topology_ok (n t : u64) (nodes : list ClientIdentity) : Prop := {
  top_count : n = vlen nodes;
  top_threshold : (2 * t + 1 <= n)%N;
  top_width : (n <= isize_max)%N;
  top_unique : NoDup nodes }.

Lemma any_repeated_false before rest :
  any_repeated before rest = false ↔ NoDup rest ∧ ∀ x, x ∈ rest → x ∉ before.
Proof.
  revert before. induction rest as [|x rest IH]; intros before; simpl.
  { split; [|done]. intros _. split; [constructor|set_solver]. }
  rewrite orb_false_iff, IH, NoDup_cons. unfold contains. rewrite bool_decide_eq_false. set_solver.
Qed.

Lemma validate_topology_Ok n t nodes :
  (vlen nodes <= isize_max)%N →
  validate_topology n t nodes = Ok tt ↔ topology_ok n t nodes.
Proof.
  intros Hw. unfold validate_topology, usize_try_from. split.
  - intros Hv. inv_ok. case_match; simplify_eq. reflect_bool. inv_ok.
    match goal with H : any_repeated _ _ = false |- _ => apply any_repeated_false in H as [Hnd _] end.
    unfold isize_max, u64_add, u64_wrap, u64_modulus in *.
    match goal with H : (_ `mod` _ <= _)%N |- _ =>
      rewrite (N.mod_small (2 * t)), (N.mod_small (2 * t + 1)) in H by lia end.
    constructor; unfold isize_max; [lia..|done].
  - intros [Hn Ht Hm Hnd]. subst n. unfold isize_max, u64_add, u64_wrap, u64_modulus in *.
    rewrite (N.mod_small (2 * t)), N.mod_small by lia.
    rewrite (bool_decide_false (nodes = [])) by (intros ->; unfold vlen in *; simpl in *; lia).
    replace (vlen nodes <? 18446744073709551616)%N with true by (symmetry; apply N.ltb_lt; lia).
    simpl. rewrite N.eqb_refl, (proj2 (N.leb_gt (vlen nodes) t)), (proj2 (N.ltb_ge (vlen nodes) _))
      by lia. simpl.
    rewrite (proj2 (any_repeated_false [] nodes)) by (split; [done|set_solver]). done.
Qed.

(** Under a valid topology no quorum computation wraps. *)
Lemma transition_quorum_eq s :
  topology_ok (n s) (t s) (mpc_nodes s) →
  transition_quorum s = N.max (N.min (2 * t s + 1) (n s - t s)) (t s + 1).
Proof.
  intros [Hn Ht Hm _]. unfold transition_quorum, as_usize, u64_add, u64_sub, u64_wrap,
    isize_max, u64_modulus in *.
  rewrite (N.mod_small (2 * t s)) by lia. rewrite !(N.mod_small (2 * t s + 1)) by lia.
  rewrite !(N.mod_small (t s + 1)) by lia.
  fold u64_modulus. replace (n s + u64_modulus - t s)%N with ((n s - t s) + 1 * u64_modulus)%N by (unfold u64_modulus; lia).
  rewrite N.Div0.mod_add, !(N.mod_small (n s - t s)) by (unfold u64_modulus; lia). done.
Qed.

Lemma retirement_quorum_eq s :
  topology_ok (n s) (t s) (mpc_nodes s) → retirement_quorum s = (n s - t s)%N.
Proof.
  intros [Hn Ht Hm _]. unfold retirement_quorum, as_usize, u64_sub, u64_wrap,
    isize_max, u64_modulus in *.
  fold u64_modulus. replace (n s + u64_modulus - t s)%N with ((n s - t s) + 1 * u64_modulus)%N by (unfold u64_modulus; lia).
  rewrite N.Div0.mod_add, !(N.mod_small (n s - t s)) by (unfold u64_modulus; lia). done.
Qed.

(** The roster as a set has [n] members. *)
Lemma roster_size n t nodes :
  topology_ok n t nodes → N.of_nat (size (list_to_set nodes : gset ClientIdentity)) = n.
Proof. intros [-> _ _ Hnd]. by rewrite size_list_to_set. Qed.

Lemma roster_head_Ok s :
  topology_ok (n s) (t s) (mpc_nodes s) → ∃ head, roster_head s = Ok head ∧ head ∈ mpc_nodes s.
Proof.
  intros [Hn Ht _ _]. unfold roster_head, index. destruct (mpc_nodes s) as [|head nodes].
  - unfold vlen in Hn. simpl in *. lia.
  - exists head. split; [done|left].
Qed.

(** ** Sealed executions *)

Record retired_wf (nodes : list ClientIdentity) (r : RetiredExecutions) : Prop := {
  ret_nodup : NoDup (order r);
  ret_dom : ∀ eid, eid ∈ order r ↔ is_Some (acks r !! eid);
  ret_bound : (vlen (order r) <= DEFAULT_MAX_RETIRED_EXECUTIONS)%N;
  ret_acks : ∀ eid a, acks r !! eid = Some a → a ⊆ list_to_set nodes }.

Lemma drop_oldest_suffix a o :
  ∃ k, order (drop_oldest a o) = drop k o ∧
    acks (drop_oldest a o) = foldr delete a (rev (take k o)) ∧
    (k = length o - N.to_nat DEFAULT_MAX_RETIRED_EXECUTIONS)%nat.
Proof.
  revert a. induction o as [|x o IH]; intros a; [by exists 0|].
  cbn [drop_oldest]. destruct (DEFAULT_MAX_RETIRED_EXECUTIONS <? vlen (x :: o))%N eqn:Hb.
  - destruct (IH (delete x a)) as (k & -> & -> & Hk). exists (S k). cbn [drop take rev].
    unfold vlen in *. reflect_bool. cbn [length] in *. split; [done|]. split; [|lia].
    by rewrite foldr_app.
  - exists 0. unfold vlen in *. reflect_bool. split; [done|]. split; [done|lia].
Qed.

Lemma lookup_foldr_delete `{Countable K} {A} (m : gmap K A) l eid :
  foldr delete m l !! eid = if decide (eid ∈ l) then None else m !! eid.
Proof.
  induction l as [|x l IH]; cbn [foldr].
  - case_decide as Hd; [by apply not_elem_of_nil in Hd|done].
  - destruct (decide (x = eid)) as [->|Hne].
    + rewrite lookup_delete_eq, decide_True; [done|left].
    + rewrite lookup_delete_ne, IH by done. apply decide_ext. rewrite elem_of_cons. naive_solver.
Qed.

Lemma elem_of_reverse' {A} (l : list A) x : x ∈ rev l ↔ x ∈ l.
Proof. rewrite !list_elem_of_In. symmetry. apply in_rev. Qed.

(** The loop keeps the newest entries, and exactly their acknowledgements. *)
Lemma drop_oldest_wf nodes a o :
  NoDup o → (∀ eid, eid ∈ o ↔ is_Some (a !! eid)) →
  (∀ eid s, a !! eid = Some s → s ⊆ list_to_set nodes) →
  retired_wf nodes (drop_oldest a o).
Proof.
  intros Hnd Hdom Hacks. destruct (drop_oldest_suffix a o) as (k & Ho & Ha & Hk).
  rewrite <-(take_drop k o) in Hnd. apply NoDup_app in Hnd as (_ & Hdisj & Hnd).
  constructor; rewrite ?Ho, ?Ha.
  - done.
  - intros eid. rewrite lookup_foldr_delete. case_decide as Hd; rewrite elem_of_reverse' in Hd.
    + split; [intros ?; by edestruct Hdisj|by intros []].
    + rewrite <-Hdom. rewrite <-(take_drop k o) at 2. rewrite elem_of_app. naive_solver.
  - unfold vlen. rewrite length_drop. lia.
  - intros eid s. rewrite lookup_foldr_delete. case_decide; [done|]. apply Hacks.
Qed.

Lemma retired_default_wf nodes : retired_wf nodes RetiredExecutions_default.
Proof.
  constructor; simpl; [constructor| |done|].
  - intros e. rewrite lookup_empty. split; [intros Hx; by apply not_elem_of_nil in Hx|by intros []].
  - intros ??. by rewrite lookup_empty.
Qed.

Lemma seal_wf nodes r eid a :
  retired_wf nodes r → a ⊆ list_to_set nodes → retired_wf nodes (seal r eid a).
Proof.
  intros [Hnd Hdom Hb Hacks] Ha. unfold seal. apply drop_oldest_wf.
  - case_match eqn:He; [done|]. apply NoDup_app. split; [done|]. split; [|apply NoDup_singleton].
    intros e Hin ->%list_elem_of_singleton. rewrite Hdom, He in Hin. by destruct Hin.
  - intros e. rewrite lookup_insert. case_match eqn:He.
    + rewrite Hdom. case_decide; [subst e; rewrite He; naive_solver|done].
    + rewrite elem_of_app, Hdom, list_elem_of_singleton. case_decide; naive_solver.
  - intros e s. rewrite lookup_insert. case_decide; [by intros [= <-]|apply Hacks].
Qed.

(** The execution just sealed is kept. *)
Lemma seal_lookup nodes r eid a : retired_wf nodes r → acks (seal r eid a) !! eid = Some a.
Proof.
  intros [Hnd Hdom Hb _]. unfold seal. unfold vlen in Hb.
  match goal with |- acks (drop_oldest ?m ?o) !! _ = _ =>
    destruct (drop_oldest_suffix m o) as (k & _ & -> & Hk) end.
  rewrite lookup_foldr_delete, decide_False; [apply lookup_insert_eq|].
  rewrite elem_of_reverse', elem_of_take. intros (i & Hi & Hlt).
  destruct (acks r !! eid) eqn:He; [unfold DEFAULT_MAX_RETIRED_EXECUTIONS in *; lia|].
  rewrite length_app in Hk. cbn [length] in Hk.
  rewrite lookup_app_l in Hi by (unfold DEFAULT_MAX_RETIRED_EXECUTIONS in *; lia).
  apply list_elem_of_lookup_2 in Hi. rewrite Hdom, He in Hi. by destruct Hi.
Qed.

Lemma acknowledge_wf nodes r eid party k :
  retired_wf nodes r → party ∈ nodes → retired_wf nodes (acknowledge r eid party k).1.
Proof.
  intros Hr Hp. unfold acknowledge. destruct (acks r !! eid) as [a|] eqn:He; [|done].
  destruct Hr as [Hnd Hdom Hb Hacks]. case_match; constructor; simpl.
  - by apply NoDup_filter.
  - intros e. rewrite list_elem_of_filter, Hdom, lookup_delete. case_decide; naive_solver.
  - unfold vlen in *. etrans; [|exact Hb]. pose proof (length_filter (λ c, c ≠ eid) (order r)). lia.
  - intros e s. rewrite lookup_delete. case_decide; [done|apply Hacks].
  - done.
  - intros e. rewrite Hdom, lookup_insert. case_decide; [subst e; rewrite He; naive_solver|done].
  - done.
  - intros e s. rewrite lookup_insert. case_decide; [|apply Hacks].
    intros [= <-]. apply Hacks in He. set_solver.
Qed.

(** ** Claims *)

(** A coordinator starts exactly on the topologies the protocol needs: as
    many distinct identities as configured, at least [2t+1] of them.  The
    arithmetic of the test never wraps, and anything else is an error value. *)
Theorem validate_topology_exact n t nodes (Hwidth : (vlen nodes <= isize_max)%N) :
  (validate_topology n t nodes = Ok tt ↔
     n = vlen nodes ∧ (2 * t + 1 <= n)%N ∧ NoDup nodes) ∧
  (∀ e, validate_topology n t nodes = Err e → new_server n t nodes = Err e) ∧
  validate_topology n t nodes ≠ Panic.
Proof.
  split_and!.
  - rewrite validate_topology_Ok by done. split; [by intros []|].
    intros (-> & ? & ?). by constructor.
  - intros e He. unfold new_server. by rewrite He.
  - intros Hp. enough (no_panic (validate_topology n t nodes)) by by rewrite Hp in *.
    unfold validate_topology. repeat (apply bind_no_panic; [auto with coord|intros ? _]).
    auto with coord.
Qed.

Lemma validate_topology_exact_witness :
  (validate_topology 4 1 parties = Ok tt ↔
     4%N = vlen parties ∧ (2 * 1 + 1 <= 4)%N ∧ NoDup parties) ∧
  (∀ e, validate_topology 4 1 parties = Err e → new_server 4 1 parties = Err e) ∧
  validate_topology 4 1 parties ≠ Panic.
Proof. apply (validate_topology_exact 4 1 parties). vm_compute. discriminate. Defined.

(** C26: the two quorums.  Neither computation wraps; the transition quorum lies
    between [t+1] and [n-t] and is [2t+1] when [n >= 3t+1]; whatever [t] parties
    are faulty, a transition quorum contains an honest party and the honest
    parties alone make up both quorums; a retirement quorum meets every transition
    quorum. *)
Theorem quorums_safe_and_live s (Htop : topology_ok (n s) (t s) (mpc_nodes s)) :
  let roster : gset ClientIdentity := list_to_set (mpc_nodes s) in
  let count (ps : gset ClientIdentity) := N.of_nat (size ps) in
  (t s + 1 <= transition_quorum s <= n s - t s)%N ∧
  ((3 * t s + 1 <= n s)%N → transition_quorum s = (2 * t s + 1)%N) ∧
  (∀ voters faulty, (transition_quorum s <= count voters)%N → (count faulty <= t s)%N →
     ∃ p, p ∈ voters ∧ p ∉ faulty) ∧
  (∀ faulty, (count faulty <= t s)%N →
     (transition_quorum s <= count (roster ∖ faulty))%N ∧
     (retirement_quorum s <= count (roster ∖ faulty))%N) ∧
  (∀ voters done, voters ⊆ roster → done ⊆ roster →
     (transition_quorum s <= count voters)%N → (retirement_quorum s <= count done)%N →
     ∃ p, p ∈ voters ∧ p ∈ done).
Proof.
  intros roster count. pose proof (transition_quorum_eq s Htop) as Hq.
  pose proof (retirement_quorum_eq s Htop) as Hr. pose proof (roster_size _ _ _ Htop) as Hsize.
  destruct Htop as [_ Ht _ _]. subst count. simpl in *.
  assert (∀ a b : gset ClientIdentity, (N.of_nat (size b) < N.of_nat (size a))%N →
    ∃ p, p ∈ a ∧ p ∉ b) as Hex.
  { intros a b Hlt. destruct (set_choose_or_empty (a ∖ b)) as [[p Hp]|He]; [set_solver|].
    pose proof (subseteq_size a b ltac:(set_solver)). lia. }
  split_and!; [lia..| | |].
  - intros voters faulty Hv Hf. apply Hex. lia.
  - intros faulty Hf. pose proof (size_difference_alt roster faulty) as Hd.
    pose proof (subseteq_size (roster ∩ faulty) faulty ltac:(set_solver)). subst roster. lia.
  - intros voters done Hvs Hds Hv Hd.
    destruct (set_choose_or_empty (voters ∩ done)) as [[p Hp]|He]; [set_solver|].
    pose proof (size_union voters done ltac:(set_solver)) as Hu.
    pose proof (subseteq_size (voters ∪ done) roster ltac:(set_solver)). subst roster. lia.
Qed.

Lemma quorums_safe_and_live_witness :
  (2 <= transition_quorum sample_server <= 3)%N.
Proof.
  apply (quorums_safe_and_live sample_server).
  apply (validate_topology_Ok 4 1 parties); [vm_compute; discriminate|reflexivity].
Defined.

(** Sealing keeps the newest tombstones: the execution just sealed and its
    acknowledgements are kept, at most one older execution is forgotten, namely
    the oldest one and only when the bound of 4096 was reached, and the other
    tombstones are untouched. *)
Theorem seal_forgets_oldest_only nodes r eid a
    (Hwf : retired_wf nodes r) (Hnew : acks r !! eid = None) :
  order (seal r eid a) =
    (if (DEFAULT_MAX_RETIRED_EXECUTIONS <=? vlen (order r))%N then drop 1 (order r) else order r)
      ++ [eid] ∧
  acks (seal r eid a) !! eid = Some a ∧
  (∀ e, e ∈ order (seal r eid a) → e ≠ eid → acks (seal r eid a) !! e = acks r !! e) ∧
  (vlen (order (seal r eid a)) <= DEFAULT_MAX_RETIRED_EXECUTIONS)%N.
Proof.
  destruct Hwf as [Hnd Hdom Hb _]. unfold seal. rewrite Hnew.
  destruct (drop_oldest_suffix (<[eid := a]> (acks r)) (order r ++ [eid])) as (k & -> & -> & Hk).
  rewrite length_app in Hk. cbn [length] in Hk. unfold vlen in *.
  assert (eid ∉ order r) as Hfresh by (rewrite Hdom, Hnew; by intros []).
  assert (k <= length (order r)) as Hk1 by (unfold DEFAULT_MAX_RETIRED_EXECUTIONS in *; lia).
  assert (take k (order r ++ [eid]) = take k (order r)) as Htake by by apply take_app_le.
  assert (eid ∉ rev (take k (order r))) as Hnt.
  { rewrite elem_of_reverse'. intros (i & Hx & _)%elem_of_take. by eapply Hfresh, list_elem_of_lookup_2. }
  split_and!.
  - rewrite drop_app_le by done. f_equal. destruct (_ <=? _)%N eqn:Hfull; reflect_bool;
      [replace k with 1 by lia|replace k with 0 by lia]; done.
  - rewrite lookup_foldr_delete, Htake, decide_False by done. apply lookup_insert_eq.
  - intros e He Hne. rewrite lookup_foldr_delete, Htake, lookup_insert_ne by done.
    rewrite decide_False; [done|]. rewrite elem_of_reverse'. intros Hx.
    rewrite <-(take_drop k (order r)) in Hnd. apply NoDup_app in Hnd as (_ & Hdisj & _).
    rewrite drop_app_le in He by done. apply elem_of_app in He as [He|He%list_elem_of_singleton];
      [by eapply Hdisj|done].
  - rewrite length_drop, length_app. cbn [length]. lia.
Qed.

Lemma seal_forgets_oldest_only_witness :
  acks (seal RetiredExecutions_default sample_eid {[party1; party2; party3]}) !! sample_eid =
    Some {[party1; party2; party3]}.
Proof.
  apply (seal_forgets_oldest_only parties RetiredExecutions_default).
  - apply (retired_default_wf parties).
  - reflexivity.
Defined.

