(* ===== verification/Machine.v ===== *)
(** The coordinator as a state machine whose steps are the atomic segments of
    the handlers, in any interleaving: the invariant of reachable states and the
    growth of every execution along a run. *)
From S2P Require Import Prelude Shared Execution Samples Rounds Sessions Server Rpc ServerSamples.
From S2P Require Import Invariant History Topology.

Record server_wf (s : Server) : Prop := {
  sw_topology : topology_ok (n s) (t s) (mpc_nodes s);
  sw_execs : ∀ eid d, executions s !! eid = Some d →
    execution_id (registration d) = eid ∧ is_zero eid = false ∧ exec_wf (mpc_nodes s) (transition_quorum s) d;
  sw_capacity : (N.of_nat (size (executions s)) <= DEFAULT_MAX_CONCURRENT_EXECUTIONS)%N;
  sw_retired : retired_wf (mpc_nodes s) (retired s) }.

(** What no step changes. *)
Definition same_topology (s s' : Server) : Prop :=
  mpc_nodes s' = mpc_nodes s ∧ n s' = n s ∧ t s' = t s.

#[export] Instance same_topology_equiv : Equivalence same_topology.
Proof. unfold same_topology. split; red; intuition congruence. Qed.

Lemma same_topology_quorum s s' :
  same_topology s s' → transition_quorum s' = transition_quorum s.
Proof. intros (_ & Hn & Ht). unfold transition_quorum. by rewrite Hn, Ht. Qed.

Section machine.
Context `{HashOrder}.
Implicit Types (s : Server) (d : Exec).

(** ** The registry operations *)

Lemma new_server_wf n t nodes s :
  (vlen nodes <= isize_max)%N → new_server n t nodes = Ok s → server_wf s.
Proof.
  intros Hw Hn. unfold new_server in Hn. inv_ok.
  match goal with H : validate_topology _ _ _ = _ |- _ => apply validate_topology_Ok in H; [|done] end.
  constructor; simpl; [done|intros ??; by rewrite lookup_empty|by rewrite map_size_empty|].
  apply retired_default_wf.
Qed.

(** Replacing a registered execution by a well-formed one of the same id. *)
Lemma put_execution_wf eid d d' s :
  server_wf s → executions s !! eid = Some d → registration d' = registration d →
  exec_wf (mpc_nodes s) (transition_quorum s) d' → server_wf (put_execution eid d' s).
Proof.
  intros [Htop Hex Hcap Hret] Hd Hreg Hwf. constructor; simpl; [done| | |done].
  - intros e x. rewrite lookup_insert. case_decide; [|by apply Hex].
    intros [= <-]. subst e. destruct (Hex eid d Hd) as (? & ? & _). rewrite Hreg. auto.
  - by rewrite map_size_insert_Some by eauto.
Qed.

Lemma iter_find_execution s eid d :
  iter_find (evictable s) (map_iter (executions s)) = Some (eid, d) →
  executions s !! eid = Some d ∧ evictable s (eid, d) = true.
Proof.
  intros [Hin He]%iter_find_Some. split; [|done].
  rewrite map_iter_perm in Hin. by apply elem_of_map_to_list.
Qed.

(** The state in which the slot of [eid] was reclaimed. *)
Definition reclaimed (eid : ExecutionId) (d : Exec) (s : Server) : Server :=
  s <| executions ::= delete eid |> <| retired ::= fun r => seal r eid (retirement_acks d) |>.

Lemma reclaimed_wf eid d s :
  server_wf s → executions s !! eid = Some d → server_wf (reclaimed eid d s).
Proof.
  intros [Htop Hex Hcap Hret] Hd. constructor; simpl; [done| | |].
  - intros e x. rewrite lookup_delete. case_decide; [done|apply Hex].
  - rewrite map_size_delete_Some by eauto. lia.
  - apply seal_wf; [done|]. by eapply wf_acks, (Hex eid).
Qed.

(** Making room: nothing to do, or one evictable execution reclaimed. *)
Inductive room_made (s : Server) : Server → Prop :=
  | room_free :
      (N.of_nat (size (executions s)) < DEFAULT_MAX_CONCURRENT_EXECUTIONS)%N → room_made s s
  | room_reclaimed eid d :
      (DEFAULT_MAX_CONCURRENT_EXECUTIONS <= N.of_nat (size (executions s)))%N →
      executions s !! eid = Some d → evictable s (eid, d) = true →
      room_made s (reclaimed eid d s).

(** Every outcome of a registration. *)
Inductive register_outcome (reg : ExecutionRegistration) (delivery : LockId) (s : Server)
    : Server → result CoordinatorError unit → Prop :=
  | reg_same d :
      executions s !! execution_id reg = Some d → registration d = reg →
      register_outcome reg delivery s s (Ok tt)
  | reg_conflict d e :
      executions s !! execution_id reg = Some d → registration d ≠ reg →
      register_outcome reg delivery s s (Err e)
  | reg_full e :
      executions s !! execution_id reg = None →
      (DEFAULT_MAX_CONCURRENT_EXECUTIONS <= N.of_nat (size (executions s)))%N →
      (∀ eid d, executions s !! eid = Some d → evictable s (eid, d) = false) →
      register_outcome reg delivery s s (Err e)
  | reg_admitted s1 d :
      executions s !! execution_id reg = None → room_made s s1 →
      new_execution reg (n s) delivery = Ok d →
      register_outcome reg delivery s (put_execution (execution_id reg) d s1) (Ok tt)
  | reg_invalid s1 e :
      executions s !! execution_id reg = None → room_made s s1 →
      new_execution reg (n s) delivery = Err e →
      register_outcome reg delivery s s1 (Err e)
  | reg_oversized s1 :
      executions s !! execution_id reg = None → room_made s s1 →
      new_execution reg (n s) delivery = Panic → ¬ registration_fits reg →
      register_outcome reg delivery s s1 Panic.

(** The creation of an execution panics only for want of address space. *)
Lemma new_execution_panic reg k delivery :
  registration_fits reg → no_panic (new_execution reg k delivery).
Proof.
  intros [Hn Hs]. unfold new_execution.
  do 5 (apply bind_no_panic; [auto with coord|intros ? _]).
  apply bind_no_panic; [auto with coord|]. intros size Hsize%ok_or_Ok_inv.
  assert (size = n_inputs reg) as -> by (unfold usize_try_from in Hsize; by case_match; simplify_eq).
  do 2 (apply bind_no_panic; [by apply vec_repeat_no_panic|intros ? _]).
  apply bind_no_panic; [|done]. by rewrite (proj2 (expand_input_ranges_Ok _ _) (conj eq_refl Hs)).
Qed.

Lemma register_execution_outcome reg delivery s s' r :
  register_execution reg delivery s = (s', r) → register_outcome reg delivery s s' r.
Proof.
  unfold register_execution. intros Hr.
  destruct (executions s !! execution_id reg) as [d|] eqn:Hd.
  { case_bool_decide; simplify_eq; [by eapply reg_same|by eapply reg_conflict]. }
  assert (∀ s1, room_made s s1 → n s1 = n s →
    match new_execution reg (n s1) delivery with
    | Ok x => (s1 <| executions ::= <[execution_id reg := x]> |>, Ok tt)
    | Err e => (s1, Err e) | Panic => (s1, Panic) end = (s', r) →
    register_outcome reg delivery s s' r) as Hadm.
  { intros s1 Hroom ->. pose proof (new_execution_panic reg (n s) delivery) as Hnp.
    destruct (new_execution reg (n s) delivery) eqn:Hn; intros [= <- <-];
      [by eapply reg_admitted|by eapply reg_invalid|]. eapply reg_oversized; [done..|by intros ?%Hnp]. }
  destruct (_ <=? _)%N eqn:Hfull; reflect_bool.
  - destruct (iter_find _ _) as [[eid d]|] eqn:Hf.
    + apply iter_find_execution in Hf as [??].
      eapply Hadm; [by eapply room_reclaimed| |exact Hr]. done.
    + simplify_eq. eapply reg_full; [done..|]. intros eid d He.
      rewrite iter_find_None in Hf. apply Hf. rewrite map_iter_perm. by apply elem_of_map_to_list.
  - eapply Hadm; [by apply room_free| |exact Hr]. done.
Qed.

Lemma room_made_wf s s1 :
  server_wf s → room_made s s1 →
  server_wf s1 ∧ (N.of_nat (size (executions s1)) < DEFAULT_MAX_CONCURRENT_EXECUTIONS)%N ∧
  executions s1 ⊆ executions s ∧ same_topology s s1.
Proof.
  intros Hwf [Hlt|eid d Hge Hd Hev].
  { split_and!; try done. }
  pose proof (reclaimed_wf eid d s Hwf Hd). split_and!; try done; simpl.
  - rewrite map_size_delete_Some by eauto. pose proof (sw_capacity s Hwf).
    assert (size (executions s) ≠ 0)%nat by (unfold DEFAULT_MAX_CONCURRENT_EXECUTIONS in *; lia). lia.
  - apply delete_subseteq.
Qed.

Lemma register_execution_wf reg delivery s s' r :
  server_wf s → register_execution reg delivery s = (s', r) → server_wf s'.
Proof.
  intros Hwf Hr%register_execution_outcome.
  destruct Hr as [| | |s1 d Hnone Hroom Hn|s1 e Hnone Hroom Hn|s1 Hnone Hroom Hn _]; [done..| | |];
    destruct (room_made_wf s s1 Hwf Hroom) as (Hwf1 & Hlt & Hsub & Hsame); [|done..].
  pose proof (same_topology_quorum _ _ Hsame) as Hq. destruct Hsame as (Htn & _ & _).
  apply (new_execution_wf (mpc_nodes s) (transition_quorum s)) in Hn as (Hd & Hreg & Hz); [|by eapply top_count, sw_topology].
  destruct Hwf1 as [Htop Hex Hcap Hret]. constructor; simpl; [done| | |done].
  - intros e x. rewrite lookup_insert. case_decide; [|by apply Hex].
    intros [= <-]. subst e. change (transition_quorum (put_execution _ _ s1)) with (transition_quorum s1).
    rewrite Htn, Hreg, Hq. auto.
  - rewrite map_size_insert_None; [lia|]. eapply lookup_weaken_None; eauto.
Qed.

Lemma retire_execution_cases eid party s s' r :
  retire_execution eid party s = (s', r) →
  (party ∉ mpc_nodes s ∧ s' = s ∧ ∃ e, r = Err e) ∨
  (party ∈ mpc_nodes s ∧ r = Ok tt ∧
   ((is_Some (acks (retired s) !! eid) ∧
     s' = s <| retired := (acknowledge (retired s) eid party (vlen (mpc_nodes s))).1 |>) ∨
    (acks (retired s) !! eid = None ∧ executions s !! eid = None ∧ s' = s) ∨
    (∃ d, acks (retired s) !! eid = None ∧ executions s !! eid = Some d ∧
      s' = put_execution eid (d <| retirement_acks ::= ({[party]} ∪.) |>) s))).
Proof.
  unfold retire_execution, acknowledge, contains. intros Hr.
  case_bool_decide as Hp; simpl in Hr; [|simplify_eq; naive_solver]. right. split; [done|].
  assert (s <| retired := retired s |> = s) as Hid by by destruct s.
  destruct (acks (retired s) !! eid) as [a|] eqn:Ha.
  - destruct (vlen (mpc_nodes s) <=? _)%N; injection Hr as <- <-; (split; [done|]; left; by split; [eauto|]).
  - rewrite Hid in Hr. destruct (executions s !! eid) as [d|] eqn:Hd; simplify_eq; naive_solver.
Qed.

Lemma retire_execution_wf eid party s s' r :
  server_wf s → retire_execution eid party s = (s', r) → server_wf s'.
Proof.
  intros Hwf [(_ & -> & _)|(Hp & _ & [[_ ->]|[(_ & _ & ->)|(d & _ & Hd & ->)]])]%retire_execution_cases;
    try done.
  - destruct Hwf. constructor; simpl; try done. by apply acknowledge_wf.
  - eapply put_execution_wf; [done..|]. apply retirement_ack_wf; [done|]. by eapply sw_execs.
Qed.

(** ** Steps *)

(** The four event feeds of an execution. *)
Inductive feed (net : Net) : (SubscriptionSink → Exec → Exec * list Send) → Prop :=
  | feed_reserved : feed net (subscribe_reserved_indices net)
  | feed_masked : feed net (subscribe_masked_inputs net)
  | feed_assigned_reserved : feed net (subscribe_assigned_reserved_indices net)
  | feed_assigned_masked : feed net (subscribe_assigned_masked_inputs net).

(** One atomic segment of one handler. *)
Inductive step (s : Server) : Server → Prop :=
  | step_register self reg delivery s' log r :
      rpc_register_execution self reg delivery s = (s', log, r) → step s s'
  | step_retire self eid s' log r :
      rpc_retire_execution self eid s = (s', log, r) → step s s'
  | step_shutdown self s' fired r :
      rpc_request_shutdown self s = (s', fired, r) → step s s'
  | step_watch eid tx :
      step s (watch_for_shutdown_request eid tx s).1
  | step_reserve net self eid indices s' log r :
      reserve_mask_indices net self eid indices s = (s', log, r) → step s s'
  | step_submit_commit self eid inputs indices d d' r :
      executions s !! eid = Some d → submit_commit self inputs indices d = (d', r) →
      step s (put_execution eid d' s)
  | step_submit_finish net head eid p d d' log r :
      executions s !! eid = Some d → roster_head s = Ok head →
      submit_finish net (transition_quorum s) head p d = (d', log, r) →
      step s (put_execution eid d' s)
  | step_vote self eid next_round s' log r :
      rpc_transition self eid next_round s = (s', log, r) → step s s'
  | step_store self eid client_id enc_shares s' log r :
      with_execution eid
        (store_output_shares self client_id (contains (mpc_nodes s) self) enc_shares) s
        = (s', log, r) → step s s'
  | step_snapshot net eid client_id k s' r :
      output_snapshot net eid client_id k s = (s', r) → step s s'
  | step_forget eid client_id waiter :
      step s (forget_waiter eid client_id waiter s)
  | step_sub_round eid r sink s' log :
      sub_round_attach eid r sink s = (s', log) → step s s'
  | step_sub_events net attach accept eid s' log r :
      feed net attach → sub_events attach accept eid s = (s', log, r) → step s s'
  | step_obtain net self eid sink s' o :
      obtain_attach net self eid sink s = (s', o) → step s s'
  | step_bind encode draws eid binding token b :
      bindings_insert encode draws eid binding (webauthn_bindings s) = Some (token, b) →
      step s (s <| webauthn_bindings := b |>)
  | step_pin eid session_token :
      step s (s <| webauthn_bindings ::= fun b => pin_binding_from_token b eid session_token |>).

(** The effect of a step on the executions: one execution changed in place and
    grew, or the registry changed, or nothing did. *)
Inductive effect (s : Server) : Server → Prop :=
  | eff_other s' :
      executions s' = executions s → retired s' = retired s → same_topology s s' → effect s s'
  | eff_exec eid d d' :
      executions s !! eid = Some d → exec_wf (mpc_nodes s) (transition_quorum s) d' → exec_le d d' →
      effect s (put_execution eid d' s)
  | eff_register reg delivery s' r :
      register_execution reg delivery s = (s', r) → effect s s'
  | eff_retire eid party s' r :
      retire_execution eid party s = (s', r) → effect s s'.

Lemma effect_refl s : effect s s.
Proof. by apply eff_other. Qed.

Lemma with_execution_effect {A} eid (f : Exec → Exec * list Send * result ErrorObject A) s s' log r :
  server_wf s →
  (∀ d d' log r, exec_wf (mpc_nodes s) (transition_quorum s) d → f d = (d', log, r) →
     exec_wf (mpc_nodes s) (transition_quorum s) d' ∧ exec_le d d') →
  with_execution eid f s = (s', log, r) → effect s s'.
Proof.
  intros Hwf Hf. unfold with_execution, execution_state.
  destruct (executions s !! eid) as [d|] eqn:Hd; simpl; [|intros [= <- _ _]; apply effect_refl].
  destruct (f d) as [[d' log'] r'] eqn:Hfd. intros [= <- _ _].
  destruct (Hf d d' log' r') as [??]; [by eapply sw_execs|done|]. by eapply eff_exec.
Qed.

Lemma contains_true l x : contains l x = true ↔ x ∈ l.
Proof. unfold contains. apply bool_decide_eq_true. Qed.

Lemma contains_false l x : contains l x = false ↔ x ∉ l.
Proof. unfold contains. apply bool_decide_eq_false. Qed.

Lemma step_vote_effect self eid next_round s s' log r :
  server_wf s → rpc_transition self eid next_round s = (s', log, r) → effect s s'.
Proof.
  intros Hwf. unfold rpc_transition.
  destruct (roster_head s); try (intros [= <- _ _]; apply effect_refl).
  destruct (contains (mpc_nodes s) self) eqn:Hc; simpl; [|intros [= <- _ _]; apply effect_refl].
  apply contains_true in Hc. destruct (round_before next_round);
    [|intros [= <- _ _]; apply effect_refl].
  apply with_execution_effect; [done|]. intros d d' log' r' Hd Ht.
  split; [by eapply transition_vote_wf|by eapply transition_vote_le].
Qed.

Lemma step_shutdown_effect self s s' fired r :
  rpc_request_shutdown self s = (s', fired, r) → effect s s'.
Proof.
  unfold rpc_request_shutdown. intros Hr.
  repeat case_match; simplify_eq; by apply eff_other.
Qed.

Lemma step_output_effect net eid client_id k sink self waiter s :
  server_wf s →
  effect s (output_snapshot net eid client_id k s).1 ∧
  effect s (forget_waiter eid client_id waiter s) ∧
  effect s (obtain_attach net self eid sink s).1.
Proof.
  intros Hwf. unfold output_snapshot, forget_waiter, obtain_attach.
  destruct (executions s !! eid) as [d|] eqn:Hd; [|eauto using effect_refl].
  assert (exec_wf (mpc_nodes s) (transition_quorum s) d) as Hdwf by (by eapply sw_execs). split_and!.
  - destruct (ready_output_snapshot net client_id k d) as [d' o] eqn:Hs. simpl.
    eapply eff_exec; [done|by eapply ready_output_snapshot_wf|by eapply ready_output_snapshot_le].
  - case_match; [|apply effect_refl].
    eapply eff_exec; [done|by apply drop_waiter_wf|apply drop_waiter_le].
  - destruct (contains (output_clients d) self) eqn:Hc; simpl; [|apply effect_refl].
    case_match; [apply effect_refl|]. simpl. apply contains_true in Hc.
    eapply eff_exec; [done|by apply add_waiter_wf|]. by constructor; simpl; eauto.
Qed.

Lemma step_subscribe_effect net attach accept eid s s' log r :
  server_wf s → feed net attach → sub_events attach accept eid s = (s', log, r) → effect s s'.
Proof.
  intros Hwf Hfeed. unfold sub_events.
  destruct (executions s !! eid) as [d|] eqn:Hd, accept as [sink|];
    try (intros [= <- _ _]; apply effect_refl).
  destruct (subscribe_wf (mpc_nodes s) (transition_quorum s) net sink d) as (W1 & W2 & W3 & W4); [by eapply sw_execs|].
  destruct (subscribe_le net sink d) as (L1 & L2 & L3 & L4).
  destruct (attach sink d) as [d' log'] eqn:Ha. intros [= <- _ _].
  eapply eff_exec; [done|..]; destruct Hfeed; by rewrite Ha in *.
Qed.

Lemma step_sub_round_effect eid r sink s s' log :
  server_wf s → sub_round_attach eid r sink s = (s', log) → effect s s'.
Proof.
  intros Hwf. unfold sub_round_attach.
  destruct (executions s !! eid) as [d|] eqn:Hd; [|intros [= <- _]; apply effect_refl].
  destruct (trans_events d !! r) eqn:Hr; intros [= <- _]; [apply effect_refl|].
  eapply eff_exec; [done| |by constructor; simpl; eauto].
  apply round_waiter_wf; [done|]. by eapply sw_execs.
Qed.

Lemma step_effect s s' : server_wf s → step s s' → effect s s'.
Proof.
  intros Hwf. destruct 1 as [self reg delivery s' log r Hr|self eid s' log r Hr|self s' fired r Hr
    |eid tx|net self eid indices s' log r Hr|self eid inputs indices d d' r Hd Hr
    |net head eid p d d' log r Hd Hh Hr|self eid nr s' log r Hr|self eid c sh s' log r Hr
    |net eid c k s' r Hr|eid c w|eid r sink s' log Hr|net attach accept eid s' log r Hf Hr
    |net self eid sink s' o Hr|encode draws eid b tok b' Hr|eid tok].
  - unfold rpc_register_execution in Hr. case_match; simplify_eq; [apply effect_refl|].
    destruct (register_execution reg delivery s) eqn:Hreg; simplify_eq. by eapply eff_register.
  - unfold rpc_retire_execution in Hr. case_match; simplify_eq; [apply effect_refl|].
    destruct (retire_execution eid self s) eqn:Hret; simplify_eq. by eapply eff_retire.
  - by eapply step_shutdown_effect.
  - by apply eff_other.
  - eapply with_execution_effect, Hr; [done|]. intros d d' log' r' Hdwf Hres.
    split; [by eapply reserve_batch_wf|by eapply reserve_batch_le].
  - assert (exec_wf (mpc_nodes s) (transition_quorum s) d) by (by eapply sw_execs).
    eapply eff_exec; [done|by eapply submit_commit_wf|by eapply submit_commit_le].
  - assert (exec_wf (mpc_nodes s) (transition_quorum s) d) by (by eapply sw_execs).
    eapply eff_exec; [done|by eapply submit_finish_wf|by eapply submit_finish_le].
  - by eapply step_vote_effect.
  - eapply with_execution_effect, Hr; [done|]. intros d d' log' r' Hdwf Hst.
    split; [|by eapply store_output_shares_le].
    eapply store_output_shares_wf, Hst; [|done]. by rewrite contains_true.
  - replace s' with (output_snapshot net eid c k s).1 by by rewrite Hr.
    by apply (step_output_effect net eid c k 1%positive [] 1%positive s).
  - by apply (step_output_effect all_up eid c 0%N 1%positive [] w s).
  - by eapply step_sub_round_effect.
  - by eapply step_subscribe_effect.
  - replace s' with (obtain_attach net self eid sink s).1 by by rewrite Hr.
    by apply (step_output_effect net eid [] 0%N sink self 1%positive s).
  - by apply eff_other.
  - by apply eff_other.
Qed.

Lemma effect_wf s s' : server_wf s → effect s s' → server_wf s'.
Proof.
  intros Hwf [s'' He Hr Hsame|eid d d' Hd Hd' Hle|reg delivery s'' r Hr|eid p s'' r Hr].
  - pose proof (same_topology_quorum _ _ Hsame) as Hq. destruct Hsame as (Hn & Hnn & Ht).
    destruct Hwf. constructor; rewrite ?Hn, ?Hnn, ?Ht, ?He, ?Hr, ?Hq; done.
  - eapply put_execution_wf; [done..| |done]. apply Hle.
  - by eapply register_execution_wf.
  - by eapply retire_execution_wf.
Qed.

Lemma effect_topology s s' : effect s s' → same_topology s s'.
Proof.
  intros [s'' _ _ Hs|eid d d' Hd Hd' Hle|reg delivery s'' r Hr|eid p s'' r Hr]; [done|done| |].
  - apply register_execution_outcome in Hr as [| | |s1 d _ Hroom _|s1 e _ Hroom _|s1 _ Hroom _ _]; try done;
      by destruct Hroom.
  - apply retire_execution_cases in Hr as [(_ & -> & _)|(_ & _ & Hr)]; [done|].
    by destruct Hr as [[_ ->]|[(_ & _ & ->)|(d & _ & _ & ->)]].
Qed.

(** An execution grows, or an evictable one is reclaimed. *)
Definition grows (s s' : Server) (eid : ExecutionId) (d : Exec) : Prop :=
  match executions s' !! eid with
  | Some d' => exec_le d d'
  | None => evictable s (eid, d) = true
  end.

Lemma room_made_grows s s1 eid d :
  room_made s s1 → executions s !! eid = Some d → grows s s1 eid d.
Proof.
  intros [Hlt|e x Hge Hx Hev] Hd; unfold grows; simpl; [by rewrite Hd|].
  rewrite lookup_delete. case_decide; [subst e; congruence|by rewrite Hd].
Qed.

Lemma effect_grows s s' eid d :
  effect s s' → executions s !! eid = Some d → grows s s' eid d.
Proof.
  intros [s'' He _ _|e x x' Hx Hx' Hle|reg delivery s'' r Hr|e p s'' r Hr] Hd.
  - unfold grows. by rewrite He, Hd.
  - unfold grows. simpl. rewrite lookup_insert. case_decide; [|by rewrite Hd].
    subst e. by rewrite Hd in Hx; simplify_eq.
  - apply register_execution_outcome in Hr as [| | |s1 x Hnone Hroom _|s1 e Hnone Hroom _|s1 Hnone Hroom _ _];
      try (unfold grows; by rewrite Hd).
    + pose proof (room_made_grows s s1 eid d Hroom Hd) as Hg. unfold grows in *. simpl.
      rewrite lookup_insert_ne by congruence. done.
    + by apply room_made_grows.
    + by apply room_made_grows.
  - apply retire_execution_cases in Hr as [(_ & -> & _)|(_ & _ & Hr)];
      [unfold grows; by rewrite Hd|].
    destruct Hr as [[_ ->]|[(_ & _ & ->)|(x & _ & Hx & ->)]];
      unfold grows; simpl; [by rewrite Hd..|].
    rewrite lookup_insert. case_decide; [|by rewrite Hd].
    subst e. rewrite Hd in Hx; simplify_eq. apply retirement_ack_le.
Qed.

(** ** Reachable states *)

(** A coordinator is created by [new_server] and then runs segments in any
    order. *)
Inductive reachable : Server → Prop :=
  | reach_new n t nodes s :
      (vlen nodes <= isize_max)%N → new_server n t nodes = Ok s → reachable s
  | reach_step s s' : reachable s → step s s' → reachable s'.

Lemma reachable_wf s : reachable s → server_wf s.
Proof. induction 1; eauto using new_server_wf, effect_wf, step_effect. Qed.

Lemma reachable_exec_wf s eid d :
  reachable s → executions s !! eid = Some d → exec_wf (mpc_nodes s) (transition_quorum s) d.
Proof. intros Hr%reachable_wf Hd. by eapply sw_execs. Qed.

(** ** Uninterrupted handlers do not panic *)

Lemma with_execution_no_panic {A} eid (f : Exec → Exec * list Send * result ErrorObject A) s :
  (∀ d, executions s !! eid = Some d → no_panic (f d).2) → no_panic (with_execution eid f s).2.
Proof.
  intros Hf. unfold with_execution, execution_state.
  destruct (executions s !! eid) as [d|] eqn:Hd; simpl; [|done].
  specialize (Hf d eq_refl). by destruct (f d) as [[d' log] r].
Qed.

Lemma submit_masked_inputs_no_panic net self eid inputs indices s :
  server_wf s → no_panic (submit_masked_inputs net self eid inputs indices s).2.
Proof.
  intros Hwf. unfold submit_masked_inputs.
  destruct (roster_head_Ok s (sw_topology s Hwf)) as (head & -> & _).
  apply with_execution_no_panic. intros d Hd.
  pose proof (submit_commit_no_panic (mpc_nodes s) (transition_quorum s) self inputs indices d) as Hn.
  destruct (submit_commit self inputs indices d) as [d1 [p| |]]; simpl in *; [|done|].
  - destruct (submit_finish_ok net (transition_quorum s) head p d1) as (d2 & log & ->). done.
  - apply Hn. by eapply sw_execs.
Qed.

Lemma deliver_no_panic net eid client_id k s :
  is_Some (executions s !! eid) → no_panic (deliver_ready_output_waiters net eid client_id k s).2.
Proof.
  intros [d Hd]. unfold deliver_ready_output_waiters, output_snapshot. rewrite Hd.
  destruct (ready_output_snapshot net client_id k d) as [d' [[w sh]|]]; done.
Qed.

Lemma put_execution_lookup eid d s : executions (put_execution eid d s) !! eid = Some d.
Proof. apply lookup_insert_eq. Qed.

Lemma send_output_shares_no_panic net self eid client_id sh s :
  no_panic (send_output_shares net self eid client_id sh s).2.
Proof.
  unfold send_output_shares, with_execution, execution_state.
  destruct (executions s !! eid) as [d|] eqn:Hd; simpl; [|done].
  destruct (store_output_shares _ _ _ _ d) as [[d' log] r] eqn:Hst.
  assert (r ≠ Panic) as Hr.
  { unfold store_output_shares in Hst. repeat case_match; by simplify_eq. }
  destruct r; [|done..]. apply deliver_no_panic. rewrite put_execution_lookup. eauto.
Qed.

Lemma obtain_output_shares_no_panic net accept self eid s :
  no_panic (obtain_output_shares net accept self eid s).2.
Proof.
  unfold obtain_output_shares. destruct (obtain_check _ _ _ _); [done|].
  destruct accept as [sink|]; [|done]. unfold obtain_attach.
  destruct (executions s !! eid) as [d|] eqn:Hd; [|done].
  destruct (negb _ || _); [done|].
  match goal with |- context [deliver_ready_output_waiters ?a ?b ?c ?e ?x] =>
    pose proof (deliver_no_panic a b c e x) as Hn;
    destruct (deliver_ready_output_waiters a b c e x) as [[s' log] []] end; try done.
  apply Hn. rewrite put_execution_lookup. eauto.
Qed.

(** ** Claims *)

(** C3: the invariant.  In every state a coordinator can reach, through any
    interleaving of the atomic segments of its handlers, the topology is valid,
    each registered execution is stored under its own nonzero identifier and is
    well formed, at most 1024 executions are live and at most 4096 tombstones are
    kept. *)
Theorem reachable_states_well_formed s (Hreach : reachable s) : server_wf s.
Proof. by apply reachable_wf. Qed.

(** C4: an execution is never rolled back.  A step leaves the roster and the
    thresholds alone, and every registered execution either grows (its round,
    reservations, inputs, votes, shares and histories only accumulate, and what
    was written once stays) or is reclaimed, and then it was not the one-off
    execution and a retirement quorum had acknowledged it. *)
Theorem executions_only_grow s s' eid d
    (Hreach : reachable s) (Hstep : step s s') (Hd : executions s !! eid = Some d) :
  same_topology s s' ∧
  match executions s' !! eid with
  | Some d' => exec_le d d'
  | None => one_off_execution s ≠ Some eid ∧
            (retirement_quorum s <= N.of_nat (size (retirement_acks d)))%N
  end.
Proof.
  apply reachable_wf in Hreach. apply step_effect in Hstep; [|done].
  split; [by apply effect_topology|]. pose proof (effect_grows _ _ _ _ Hstep Hd) as Hg.
  unfold grows in Hg. case_match; [done|]. unfold evictable in Hg. by reflect_bool.
Qed.

(** C5: a colluding minority cannot move an execution: whatever [t] parties are
    faulty, every round an execution has entered was proposed by an honest party
    of the roster. *)
Theorem entered_rounds_have_honest_proposer s (eid : ExecutionId) d (r : Round) (faulty : gset ClientIdentity)
    (Hreach : reachable s) (Hd : executions s !! eid = Some d)
    (Hentered : is_Some (trans_events d !! r)) (Hfaulty : (N.of_nat (size faulty) <= t s)%N) :
  ∃ voters p, transition_votes d !! r = Some voters ∧ p ∈ voters ∧ p ∈ mpc_nodes s ∧ p ∉ faulty.
Proof.
  pose proof (reachable_exec_wf _ _ _ Hreach Hd) as Hwf.
  pose proof (sw_topology s (reachable_wf s Hreach)) as Htop.
  pose proof (transition_quorum_eq s Htop) as Hq. apply top_threshold in Htop.
  destruct (wf_quorum _ _ _ Hwf r Hentered) as (voters & Hv & Hsize).
  pose proof (wf_votes _ _ _ Hwf r voters Hv) as Hsub.
  destruct (set_choose_or_empty (voters ∖ faulty)) as [[p Hp]|He].
  - exists voters, p. set_solver.
  - pose proof (subseteq_size voters faulty ltac:(set_solver)). lia.
Qed.

(** C7: the program starts on complete inputs, and each of them came from the owner
    of its slot.  An execution that collected inputs and entered [MPCExecution] holds
    a masked input for every slot; the slot is reserved, by the client it is assigned
    to if it is assigned at all; the input was submitted by that client, and nobody
    else ever submitted one for the slot. *)
Theorem program_runs_on_complete_inputs s eid d
    (Hreach : reachable s) (Hd : executions s !! eid = Some d)
    (Hcollected : is_Some (trans_events d !! InputCollection))
    (Hstarted : is_Some (trans_events d !! MPCExecution)) (i : nat)
    (Hi : (N.of_nat i < n_inputs (registration d))%N) :
  ∃ m owner, masked_inputs d !! i = Some (Some m) ∧ reserved_indices d !! i = Some (Some owner) ∧
    (∀ slot, input_assignments d !! i = Some slot → input_slot_client d slot = Some owner) ∧
    (∃ raw, submitted d owner raw m ∧ N.to_nat (as_usize raw) = i) ∧
    (∀ client raw m', submitted d client raw m' → N.to_nat (as_usize raw) = i → client = owner).
Proof.
  pose proof (reachable_exec_wf _ _ _ Hreach Hd) as Hwf.
  pose proof (wf_inputs _ _ _ Hwf Hcollected Hstarted) as Hc. unfold inputs_complete in Hc.
  rewrite <-(wf_masked_len _ _ _ Hwf) in Hi. unfold vlen in Hi.
  destruct (lookup_lt_is_Some_2 (masked_inputs d) i) as [o Ho]; [lia|].
  rewrite Forall_lookup in Hc. destruct (Hc _ _ Ho) as [m ->].
  destruct (wf_author _ _ _ Hwf i m Ho) as (owner & raw & Hs & <-).
  pose proof (wf_written _ _ _ Hwf _ _ _ Hs) as Hown.
  exists m, owner. split_and!; [done..| | |].
  - intros slot Hslot. by eapply wf_owner.
  - eauto.
  - intros client raw' m' Hs' Hraw. apply (wf_written _ _ _ Hwf) in Hs'. rewrite Hraw in Hs'. congruence.
Qed.

(** No handler that runs uninterrupted panics in a reachable state, whatever
    its arguments and whatever the network does, except on a registration whose
    vectors do not fit the address space. *)
Theorem handlers_never_panic s (Hreach : reachable s) :
  (∀ self reg delivery, registration_fits reg → no_panic (rpc_register_execution self reg delivery s).2) ∧
  (∀ self eid, no_panic (rpc_retire_execution self eid s).2) ∧
  (∀ self, no_panic (rpc_request_shutdown self s).2) ∧
  (∀ net self eid indices, no_panic (reserve_mask_indices net self eid indices s).2) ∧
  (∀ net self eid inputs indices, no_panic (submit_masked_inputs net self eid inputs indices s).2) ∧
  (∀ self eid r, no_panic (rpc_transition self eid r s).2) ∧
  (∀ net self eid client_id sh, no_panic (send_output_shares net self eid client_id sh s).2) ∧
  (∀ net accept self eid, no_panic (obtain_output_shares net accept self eid s).2).
Proof.
  apply reachable_wf in Hreach as Hwf.
  destruct (roster_head_Ok s (sw_topology s Hwf)) as (head & Hhead & _).
  split_and!; intros.
  - unfold rpc_register_execution. case_match; [done|].
    destruct (register_execution reg delivery s) as [s' r] eqn:Hr.
    by apply register_execution_outcome in Hr as [].
  - unfold rpc_retire_execution. case_match; [done|].
    destruct (retire_execution eid self s) as [s' r] eqn:Hr.
    apply retire_execution_cases in Hr as [(_ & _ & e & ->)|(_ & -> & _)]; done.
  - unfold rpc_request_shutdown. rewrite Hhead. by repeat case_match.
  - apply with_execution_no_panic. intros d _. apply reserve_batch_no_panic.
  - by apply submit_masked_inputs_no_panic.
  - unfold rpc_transition. rewrite Hhead. case_match; [done|]. case_match; [|done].
    apply with_execution_no_panic. intros d _.
    destruct (transition_vote_ok self (transition_quorum s) head r d) as (d' & log & ->). done.
  - apply send_output_shares_no_panic.
  - apply obtain_output_shares_no_panic.
Qed.
End machine.

(** ** Witnesses *)

Lemma sample_server_reachable : reachable sample_server.
Proof. apply (reach_new 4 1 parties); [by vm_compute|reflexivity]. Qed.

Lemma sample_start_reachable : reachable sample_start.
Proof.
  eapply reach_step; [apply sample_server_reachable|]. eapply step_register, outcome_eta.
Qed.

Lemma vote_all_reachable r s : reachable s → reachable (vote_all r s).
Proof.
  intros Hs. unfold vote_all. simpl.
  repeat (eapply reach_step; [|eapply step_vote, outcome_eta]). done.
Qed.

Lemma reachable_states_well_formed_witness : server_wf (vote_all Preprocessing sample_start).
Proof.
  apply (reachable_states_well_formed (vote_all Preprocessing sample_start)).
  apply vote_all_reachable, sample_start_reachable.
Defined.

Lemma executions_only_grow_witness :
  same_topology sample_start (rpc_transition party1 sample_eid Preprocessing sample_start).1.1.
Proof.
  apply (executions_only_grow sample_start _ sample_eid (sample_get sample_start)).
  - apply sample_start_reachable.
  - eapply step_vote, outcome_eta.
  - apply sample_get_Some. by vm_compute.
Defined.

Lemma entered_rounds_have_honest_proposer_witness :
  ∃ voters p,
    transition_votes (sample_get sample_preprocessing) !! Preprocessing = Some voters ∧
    p ∈ voters ∧ p ∈ mpc_nodes sample_preprocessing ∧ p ∉ ({[party1]} : gset ClientIdentity).
Proof.
  apply (entered_rounds_have_honest_proposer sample_preprocessing sample_eid).
  - apply vote_all_reachable, sample_start_reachable.
  - apply sample_get_Some. by vm_compute.
  - apply is_some_true. by vm_compute.
  - by vm_compute.
Defined.

(** A full input phase: both clients reserve and submit. *)
Definition sample_run : Server :=
  let s := vote_all InputMaskReservation sample_preprocessing in
  let s := (reserve_mask_indices all_up client1 sample_eid [0%N] s).1.1 in
  let s := (reserve_mask_indices all_up client2 sample_eid [1%N] s).1.1 in
  let s := vote_all InputCollection s in
  let s := (submit_masked_inputs all_up client1 sample_eid [[Byte.x10]] [0%N] s).1.1 in
  let s := (submit_masked_inputs all_up client2 sample_eid [[Byte.x20]] [1%N] s).1.1 in
  vote_all MPCExecution s.

Lemma submit_masked_inputs_reachable `{HashOrder} net self eid inputs indices s :
  reachable s → reachable (submit_masked_inputs net self eid inputs indices s).1.1.
Proof.
  intros Hs. unfold submit_masked_inputs. destruct (roster_head s) as [head| |] eqn:Hh; [|done..].
  unfold with_execution, execution_state.
  destruct (executions s !! eid) as [d|] eqn:Hd; simpl; [|done].
  destruct (submit_commit self inputs indices d) as [d1 r1] eqn:Hc.
  assert (reachable (put_execution eid d1 s)) as H1.
  { eapply reach_step; [exact Hs|by eapply step_submit_commit]. }
  destruct r1 as [p| |]; [|done..].
  destruct (submit_finish net (transition_quorum s) head p d1) as [[d2 log] r2] eqn:Hf. simpl.
  replace (put_execution eid d2 s) with (put_execution eid d2 (put_execution eid d1 s)).
  - eapply reach_step; [exact H1|]. eapply step_submit_finish; [apply put_execution_lookup|..]; done.
  - unfold put_execution. simpl. unfold upd. simpl. by rewrite insert_insert_eq.
Qed.

Lemma sample_run_reachable : reachable sample_run.
Proof.
  unfold sample_run. cbv zeta. apply vote_all_reachable. do 2 apply submit_masked_inputs_reachable. apply vote_all_reachable.
  do 2 (eapply reach_step; [|eapply step_reserve, outcome_eta]).
  do 2 apply vote_all_reachable. apply sample_start_reachable.
Qed.

Lemma program_runs_on_complete_inputs_witness :
  ∃ m owner, masked_inputs (sample_get sample_run) !! 1%nat = Some (Some m) ∧
    reserved_indices (sample_get sample_run) !! 1%nat = Some (Some owner) ∧
    ∃ raw, submitted (sample_get sample_run) owner raw m ∧ N.to_nat (as_usize raw) = 1%nat.
Proof.
  destruct (program_runs_on_complete_inputs sample_run sample_eid (sample_get sample_run)) with (i := 1%nat)
    as (m & owner & Hm & Hr & _ & Hs & _); [..|exists m, owner; exact (conj Hm (conj Hr Hs))].
  - apply sample_run_reachable.
  - apply sample_get_Some. by vm_compute.
  - apply is_some_true. by vm_compute.
  - apply is_some_true. by vm_compute.
  - by vm_compute.
Defined.

Lemma handlers_never_panic_witness :
  no_panic (submit_masked_inputs all_up client1 sample_eid [[Byte.x30]] [7%N] sample_run).2.
Proof.
  pose proof (handlers_never_panic sample_run sample_run_reachable) as (_ & _ & _ & _ & Hs & _).
  exact (Hs all_up client1 sample_eid [[Byte.x30]] [7%N]).
Defined.
