(* ===== verification/Ledger.v ===== *)
(** What a coordinator promises, without how it keeps it: a ledger that holds, for
    every live execution, who owns which input slot, what was submitted for it,
    who proposed which round and which output shares were handed in, and says who
    may write what and when.  Event histories, subscribers, counters, iteration
    orders and locks are not part of it. *)
From S2P Require Import Prelude Shared Execution Rounds Server Rpc.

(** ** The ledger *)

(** One execution. *)
Record Board : Type := mkBoard {
  b_registration : ExecutionRegistration;
  b_round : Round;
  b_entered : gset Round;
  b_owners : gmap nat ClientIdentity;
  b_inputs : gmap nat bytes;
  b_proposals : gmap Round (gset ClientIdentity);
  b_shares : gmap (ClientIdentity * ClientIdentity) (bytes * bytes);
  b_retired_by : gset ClientIdentity }.

#[export] Instance board_eta : Eta Board := fun b =>
  mkBoard (b_registration b) (b_round b) (b_entered b) (b_owners b) (b_inputs b)
    (b_proposals b) (b_shares b) (b_retired_by b).

Record Ledger : Type := mkLedger {
  l_roster : list ClientIdentity;
  l_faulty : N;
  l_live : gmap ExecutionId Board;
  l_sealed : gmap ExecutionId (gset ClientIdentity);
  l_one_off : option ExecutionId;
  l_listening : bool }.

#[export] Instance ledger_eta : Eta Ledger := fun l =>
  mkLedger (l_roster l) (l_faulty l) (l_live l) (l_sealed l) (l_one_off l) (l_listening l).

(** The proposals that move an execution, and the acknowledgements that allow its
    slot to be reclaimed. *)
Definition l_parties (l : Ledger) : N := vlen (l_roster l).
Definition round_quorum (l : Ledger) : N :=
  N.min (2 * l_faulty l + 1) (l_parties l - l_faulty l).
Definition reclaim_quorum (l : Ledger) : N := l_parties l - l_faulty l.

(** The client a slot of the registration is assigned to. *)
Definition assigned_client (reg : ExecutionRegistration) (i : nat) : option ClientIdentity :=
  slot ← input_slots (ia_ranges (input_assignment reg)) !! i;
  ia_clients (input_assignment reg) !! N.to_nat (slot_client_index slot).

(** An input slot a client may take. *)
Definition may_own (b : Board) (c : ClientIdentity) (i : nat) : Prop :=
  (N.of_nat i < n_inputs (b_registration b))%N ∧ b_owners b !! i = None ∧
  ∀ a, assigned_client (b_registration b) i = Some a → a = c.

Definition blank (reg : ExecutionRegistration) : Board :=
  mkBoard reg Idle ∅ ∅ ∅ ∅ ∅ ∅.

(** Registrations a ledger accepts. *)
Definition acceptable (l : Ledger) (reg : ExecutionRegistration) : Prop :=
  is_zero (execution_id reg) = false ∧ program_hash reg ≠ zero_bytes ∧
  (1 <= min_output_shares reg <= l_parties l)%N.

(** ** Who may write what *)

(** What the identity [p] may write on the board of one execution. *)
Inductive writes (l : Ledger) (p : ClientIdentity) (b : Board) : Board → Prop :=
  | w_reserve slots :
      b_round b = InputMaskReservation → slots ≠ ∅ →
      (∀ i, b_owners b !! i ≠ Some p) → (∀ i, i ∈ slots → may_own b p i) →
      writes l p b (b <| b_owners ::= (gset_to_gmap p slots ∪.) |>)
  | w_submit inputs :
      b_round b = InputCollection → inputs ≠ ∅ →
      (∀ i m, inputs !! i = Some m → b_owners b !! i = Some p ∧ b_inputs b !! i = None) →
      writes l p b (b <| b_inputs ::= (inputs ∪.) |>)
  | w_propose r :
      p ∈ l_roster l → (round_index (b_round b) < round_index r)%N →
      writes l p b
        (b <| b_proposals ::= fun v => <[r := {[p]} ∪ default ∅ (v !! r)]> v |>)
  | w_share c sh :
      p ∈ l_roster l → c ∈ reg_output_clients (b_registration b) → b_shares b !! (c, p) = None →
      writes l p b (b <| b_shares ::= <[(c, p) := sh]> |>)
  | w_retire :
      p ∈ l_roster l → writes l p b (b <| b_retired_by ::= ({[p]} ∪.) |>).

(** Nobody's doing: an execution moves to a round that a quorum proposed, into the
    program only with every input present or past both input rounds. *)
Inductive advances (l : Ledger) (b : Board) : Board → Prop :=
  | adv_to r voters :
      legal_move (b_round b) r → b_proposals b !! r = Some voters →
      (round_quorum l <= N.of_nat (size voters))%N →
      (r = MPCExecution → b_round b = Preprocessing ∨
         ∀ i, (N.of_nat i < n_inputs (b_registration b))%N → is_Some (b_inputs b !! i)) →
      advances l b (b <| b_round := r |> <| b_entered ::= ({[r]} ∪.) |>).

(** Room for one more execution: there is some, or a retired one that is not the
    one-off execution gives way; its acknowledgements are kept, at the expense of
    older ones. *)
Inductive makes_room (l : Ledger) : Ledger → Prop :=
  | room_left :
      (N.of_nat (size (l_live l)) < DEFAULT_MAX_CONCURRENT_EXECUTIONS)%N → makes_room l l
  | room_taken eid b sealed :
      (DEFAULT_MAX_CONCURRENT_EXECUTIONS <= N.of_nat (size (l_live l)))%N →
      l_live l !! eid = Some b → l_one_off l ≠ Some eid →
      (reclaim_quorum l <= N.of_nat (size (b_retired_by b)))%N →
      sealed !! eid = Some (b_retired_by b) → sealed ⊆ <[eid := b_retired_by b]> (l_sealed l) →
      makes_room l (l <| l_live ::= delete eid |> <| l_sealed := sealed |>).

(** What the identity [p] may do to the ledger. *)
Inductive acts (p : ClientIdentity) (l : Ledger) : Ledger → Prop :=
  | act_write eid b b' :
      l_live l !! eid = Some b → writes l p b b' →
      acts p l (l <| l_live ::= <[eid := b']> |>)
  | act_register reg l1 :
      p ∈ l_roster l → l_live l !! execution_id reg = None → acceptable l reg → makes_room l l1 →
      acts p l (l1 <| l_live ::= <[execution_id reg := blank reg]> |>)
  | act_displace l1 :
      p ∈ l_roster l → makes_room l l1 → acts p l l1
  | act_seal eid a :
      p ∈ l_roster l → l_sealed l !! eid = Some a →
      (N.of_nat (size ({[p]} ∪ a)) < l_parties l)%N →
      acts p l (l <| l_sealed ::= <[eid := {[p]} ∪ a]> |>)
  | act_forget eid a :
      p ∈ l_roster l → l_sealed l !! eid = Some a →
      (l_parties l <= N.of_nat (size ({[p]} ∪ a)))%N →
      acts p l (l <| l_sealed ::= delete eid |>)
  | act_stop eid b :
      l_roster l !! 0 = Some p → l_one_off l = Some eid → l_live l !! eid = Some b →
      b_round b = ProgramFinished → l_listening l = true →
      acts p l (l <| l_listening := false |>).

Inductive progresses (l : Ledger) : Ledger → Prop :=
  | prog_board eid b b' :
      l_live l !! eid = Some b → advances l b b' →
      progresses l (l <| l_live ::= <[eid := b']> |>).

(** A request of [p]: nothing, or one act of [p] and the progress it allows. *)
Definition requests (p : ClientIdentity) (l l' : Ledger) : Prop :=
  l' = l ∨ ∃ l1, acts p l l1 ∧ rtc progresses l1 l'.

(** One step of the ledger: a request of someone, progress on its own, or the
    process that owns the coordinator declaring its one execution. *)
Inductive ledger_step (l : Ledger) : Ledger → Prop :=
  | ls_request p l' : requests p l l' → ledger_step l l'
  | ls_progress l' : rtc progresses l l' → ledger_step l l'
  | ls_one_off eid :
      ledger_step l (l <| l_one_off := Some eid |> <| l_listening := true |>).

(** The ledgers that can arise for a roster. *)
Inductive ledger_reachable (roster : list ClientIdentity) (t : N) : Ledger → Prop :=
  | lr_new : ledger_reachable roster t (mkLedger roster t ∅ ∅ None false)
  | lr_step l l' : ledger_reachable roster t l → ledger_step l l' → ledger_reachable roster t l'.

(** ** The ledger of a coordinator *)

(** The filled positions of a vector of slots. *)
Definition filled {A} (slots : list (option A)) : gmap nat A := omap id (map_seq 0 slots).

Definition board (d : Exec) : Board :=
  mkBoard (registration d) (round d) (dom (trans_events d)) (filled (reserved_indices d))
    (filled (masked_inputs d)) (transition_votes d) (output_shares d) (retirement_acks d).

Definition ledger (s : Server) : Ledger :=
  mkLedger (mpc_nodes s) (t s) (board <$> executions s) (acks (retired s)) (one_off_execution s)
    (is_some (shutdown_notify s)).
