(* ===== verification/LedgerFacts.v ===== *)
(** The coordinator implements its ledger: every atomic segment of every handler is
    a step of the ledger of [Ledger]. *)
From S2P Require Import Prelude Shared Execution Samples Rounds Sessions Server Rpc ServerSamples.
From S2P Require Import Invariant History Topology Machine Ledger.

(** ** Slots *)

Lemma lookup_filled {A} (slots : list (option A)) i : filled slots !! i = mjoin (slots !! i).
Proof. unfold filled. rewrite lookup_omap, lookup_map_seq_0. by destruct (slots !! i). Qed.

Lemma lookup_filled_Some {A} (slots : list (option A)) i v :
  filled slots !! i = Some v ↔ slots !! i = Some (Some v).
Proof. rewrite lookup_filled. destruct (slots !! i) as [[]|]; naive_solver. Qed.

Lemma lookup_filled_None {A} (slots : list (option A)) i :
  filled slots !! i = None ↔ ∀ v, slots !! i ≠ Some (Some v).
Proof. rewrite lookup_filled. destruct (slots !! i) as [[]|]; naive_solver. Qed.

(** The positions a batch of indices names. *)
Definition positions (indices : list u64) : gset nat :=
  list_to_set ((fun i => N.to_nat (as_usize i)) <$> indices).

Lemma elem_of_positions indices i :
  i ∈ positions indices ↔ N.of_nat i ∈ as_usize <$> indices.
Proof.
  unfold positions. rewrite elem_of_list_to_set, !list_elem_of_fmap.
  split; intros (x & Hx & Hin); exists x; split; [lia|done|lia|done].
Qed.

Lemma filled_fill {A} (v : A) indices (slots : list (option A)) :
  Forall (fun i => (as_usize i < vlen slots)%N) indices →
  filled (fill v (as_usize <$> indices) slots) =
  gset_to_gmap v (positions indices) ∪ filled slots.
Proof.
  intros Hb. apply map_eq. intros i. rewrite lookup_union, lookup_gset_to_gmap, !lookup_filled, lookup_fill.
  destruct (decide (i ∈ positions indices)) as [Hin|Hin].
  - rewrite option_guard_True by done. apply elem_of_positions in Hin.
    apply list_elem_of_fmap in Hin as (x & Hx & Hin) . rewrite Forall_forall in Hb.
    apply Hb in Hin as Hlt. rewrite decide_True.
    + simpl. by destruct (mjoin (slots !! i)).
    + split; [apply list_elem_of_fmap; eauto|]. apply vlen_lt. by rewrite Hx.
  - rewrite option_guard_False by done. rewrite (left_id_L None _). rewrite decide_False; [done|].
    intros [Hx _]. by apply Hin, elem_of_positions.
Qed.

(** The values a batch leaves at the positions it names. *)
Definition newly_written {A} (ps : list (u64 * A)) (slots : list (option A)) : gmap nat A :=
  filter (fun e => e.1 ∈ positions ps.*1) (filled (fill_pairs (prod_map as_usize id <$> ps) slots)).

Lemma fst_prod_map {A} (ps : list (u64 * A)) : (prod_map as_usize id <$> ps).*1 = as_usize <$> ps.*1.
Proof. rewrite <-!list_fmap_compose. by apply list_fmap_ext. Qed.

Lemma newly_written_Some {A} (ps : list (u64 * A)) (slots : list (option A)) i m :
  newly_written ps slots !! i = Some m → N.of_nat i ∈ as_usize <$> ps.*1.
Proof. unfold newly_written. intros [_ Hin]%map_lookup_filter_Some. by apply elem_of_positions. Qed.

Lemma lookup_newly_written {A} (ps : list (u64 * A)) (slots : list (option A)) i :
  N.of_nat i ∈ as_usize <$> ps.*1 → i < length slots → is_Some (newly_written ps slots !! i).
Proof.
  intros Hin Hlt. destruct (lookup_fill_pairs_elem (prod_map as_usize id <$> ps) slots i) as (v & _ & Hv);
    [by rewrite fst_prod_map|done|].
  exists v. apply map_lookup_filter_Some. split; [by apply lookup_filled_Some|by apply elem_of_positions].
Qed.

Lemma filled_fill_pairs {A} (ps : list (u64 * A)) (slots : list (option A)) :
  filled (fill_pairs (prod_map as_usize id <$> ps) slots) = newly_written ps slots ∪ filled slots.
Proof.
  apply map_eq. intros i. rewrite lookup_union.
  destruct (decide (N.of_nat i ∈ as_usize <$> ps.*1)) as [Hin|Hin].
  - destruct (decide (i < length slots)) as [Hlt|Hge].
    + destruct (lookup_newly_written ps slots i Hin Hlt) as [v Hv]. rewrite Hv.
      apply map_lookup_filter_Some in Hv as [-> _]. by destruct (filled slots !! i).
    + assert (∀ l : list (option A), length l = length slots → filled l !! i = None) as Hnone.
      { intros l Hl. rewrite lookup_filled, lookup_ge_None_2 by lia. done. }
      rewrite (Hnone (fill_pairs _ _)) by apply length_fill_pairs. rewrite (Hnone slots) by done.
      rewrite (right_id_L None _). symmetry. apply eq_None_not_Some. intros [v Hv].
      apply map_lookup_filter_Some in Hv as [Hv _]. rewrite Hnone in Hv by apply length_fill_pairs. done.
  - rewrite lookup_filled, lookup_fill_pairs_ne by (by rewrite fst_prod_map).
    destruct (newly_written ps slots !! i) eqn:Hw; [by apply newly_written_Some in Hw|].
    rewrite (left_id_L None _). by rewrite lookup_filled.
Qed.

(** ** From boards to ledgers *)

Lemma ledger_put eid d s :
  ledger (put_execution eid d s) = (ledger s) <| l_live ::= <[eid := board d]> |>.
Proof. unfold ledger, put_execution, upd. simpl. by rewrite fmap_insert. Qed.

Lemma ledger_live s eid d :
  executions s !! eid = Some d → l_live (ledger s) !! eid = Some (board d).
Proof. intros Hd. simpl. by rewrite lookup_fmap, Hd. Qed.

Lemma write_back l eid b : l_live l !! eid = Some b → l <| l_live ::= <[eid := b]> |> = l.
Proof. intros Hb. destruct l. unfold upd. simpl in *. by rewrite insert_id. Qed.

Lemma rtc_progresses l eid b b' :
  l_live l !! eid = Some b → rtc (advances l) b b' →
  rtc progresses l (l <| l_live ::= <[eid := b']> |>).
Proof.
  intros Hb Hr. revert Hb. remember (advances l) as R eqn:HR.
  assert (∀ l', l_roster l' = l_roster l → l_faulty l' = l_faulty l → l_live l' !! eid = Some b →
    rtc progresses l' (l' <| l_live ::= <[eid := b']> |>)) as Hgen.
  2: { intros Hb. by apply Hgen. }
  subst R. induction Hr as [b|b b1 b' Hadv _ IH]; intros l' Hro Hfa Hb.
  { by rewrite write_back. }
  eapply rtc_l with (l' <| l_live ::= <[eid := b1]> |>).
  - econstructor; [done|]. destruct Hadv as [r voters Hm Hv Hq Hin]. econstructor; [done..| |done].
    unfold round_quorum, l_parties in *. by rewrite Hro, Hfa.
  - replace (l' <| l_live ::= <[eid := b']> |>)
      with (l' <| l_live ::= <[eid := b1]> |> <| l_live ::= <[eid := b']> |>).
    + apply IH; [done..|]. apply lookup_insert_eq.
    + unfold upd. simpl. by rewrite insert_insert_eq.
Qed.

(** What a request does to one execution. *)
Definition updates (l : Ledger) (p : ClientIdentity) (b b' : Board) : Prop :=
  b' = b ∨ ∃ b1, writes l p b b1 ∧ rtc (advances l) b1 b'.

Lemma request_put p eid d d' s :
  executions s !! eid = Some d → updates (ledger s) p (board d) (board d') →
  requests p (ledger s) (ledger (put_execution eid d' s)).
Proof.
  intros Hd%ledger_live [Heq|(b1 & Hw & Hadv)]; rewrite ledger_put.
  - left. by rewrite Heq, write_back.
  - right. exists ((ledger s) <| l_live ::= <[eid := b1]> |>). split; [by econstructor|].
    replace ((ledger s) <| l_live ::= <[eid := board d']> |>)
      with ((ledger s) <| l_live ::= <[eid := b1]> |> <| l_live ::= <[eid := board d']> |>).
    + eapply rtc_progresses; [apply lookup_insert_eq|].
      eapply rtc_congruence with (f := id); [|exact Hadv].
      intros b b'' []; by econstructor.
    + unfold upd. simpl. by rewrite insert_insert_eq.
Qed.

Lemma progress_put eid d d' s :
  executions s !! eid = Some d → rtc (advances (ledger s)) (board d) (board d') →
  rtc progresses (ledger s) (ledger (put_execution eid d' s)).
Proof. intros Hd%ledger_live Hadv. rewrite ledger_put. by eapply rtc_progresses. Qed.

Lemma request_with {A} p eid (f : Exec → Exec * list Send * result ErrorObject A) s s' log r :
  (∀ d d' log r, executions s !! eid = Some d → f d = (d', log, r) →
     updates (ledger s) p (board d) (board d')) →
  with_execution eid f s = (s', log, r) → requests p (ledger s) (ledger s').
Proof.
  intros Hf. unfold with_execution, execution_state.
  destruct (executions s !! eid) as [d|] eqn:Hd; simpl; [|intros [= <- _ _]; by left].
  destruct (f d) as [[d' log'] r'] eqn:Hfd. intros [= <- _ _].
  eapply request_put; [done|]. by eapply Hf.
Qed.

(** ** What the segments write *)

Section segments.
Context `{HashOrder} (s : Server) (Hwf : server_wf s).
Implicit Types d : Exec.
Local Abbreviation execution_wf d := (exec_wf (mpc_nodes s) (transition_quorum s) d).

Lemma round_quorum_eq : round_quorum (ledger s) = transition_quorum s.
Proof.
  pose proof (sw_topology s Hwf) as Htop. rewrite (transition_quorum_eq s Htop).
  destruct Htop as [Hn Ht _ _]. unfold round_quorum, l_parties. simpl. lia.
Qed.

Lemma reclaim_quorum_eq : reclaim_quorum (ledger s) = retirement_quorum s.
Proof.
  pose proof (sw_topology s Hwf) as Htop. rewrite (retirement_quorum_eq s Htop).
  destruct Htop as [Hn Ht _ _]. unfold reclaim_quorum, l_parties. simpl. lia.
Qed.

Lemma move_advances head d d' :
  execution_wf d → move (transition_quorum s) head d d' → advances (ledger s) (board d) (board d').
Proof.
  intros Hd (r & e & Hstep & He & ->). inversion_clear Hstep as [? ? Hm (v & Hv & Hq) Hin].
  replace (board (after_move e r d)) with ((board d) <| b_round := r |> <| b_entered ::= ({[r]} ∪.) |>).
  2: { unfold after_move, board, upd. simpl. by rewrite dom_insert_L. }
  eapply adv_to with v; [done|exact Hv|by rewrite round_quorum_eq|].
  intros Hr. destruct (Hin Hr) as [Hp|Hc]; [by left|right]. simpl. intros i Hi.
  rewrite <-(wf_masked_len _ _ _ Hd) in Hi. apply vlen_lt, lookup_lt_is_Some in Hi as [o Ho].
  unfold inputs_complete in Hc. rewrite Forall_lookup in Hc. destruct (Hc _ _ Ho) as [m ->].
  exists m. by apply lookup_filled_Some.
Qed.

Lemma try_advance_advances head d d' dels :
  execution_wf d → try_advance (transition_quorum s) head d = Ok (d', dels) →
  rtc (advances (ledger s)) (board d) (board d').
Proof.
  intros Hd Hadv%try_advance_moves. induction Hadv as [|d d1 d2 Hmv _ IH]; [done|].
  eapply rtc_l; [by eapply move_advances|]. by eapply IH, move_wf.
Qed.

Lemma reserve_updates net self indices d d' log r :
  execution_wf d → reserve_batch net self indices d = (d', log, r) →
  updates (ledger s) self (board d) (board d').
Proof.
  intros Hd [(e & _ & _ & -> & _)|[(_ & _ & -> & _)|(Hc & _ & Hd')]]%reserve_batch_cases;
    [by left..|].
  pose proof (check_reserve_batch_Ok _ _ _ _ Hc) as (Hround & Hne & Hfree & Hall).
  assert (board d' = board (reserved_state self indices d)) as ->.
  { simpl in Hd'. case_bool_decide; by destruct Hd' as [-> _]. }
  right. eexists. split; [|done].
  replace (board (reserved_state self indices d))
    with ((board d) <| b_owners ::= (gset_to_gmap self (positions indices) ∪.) |>).
  2: { unfold board, reserved_state, upd. simpl. f_equal. symmetry. apply filled_fill.
       eapply Forall_impl; [done|]. by intros i (? & _)%check_reserve_Ok. }
  apply w_reserve; [done| | |].
  - destruct indices as [|i ?]; [done|]. intros Hem.
    assert (N.to_nat (as_usize i) ∈ positions (i :: indices)) as Hin; [|by rewrite Hem in Hin; apply not_elem_of_empty in Hin].
    apply elem_of_positions. rewrite N2Nat.id. by left.
  - intros i. simpl. intros Hi%lookup_filled_Some. by destruct (Hfree i).
  - intros i (x & Hx & Hin)%elem_of_positions%list_elem_of_fmap. rewrite Forall_forall in Hall.
    destruct (check_reserve_Ok _ _ _ (Hall _ Hin)) as (Hlt & Hnone & Hslot).
    rewrite <-Hx in *. rewrite Nat2N.id in Hnone, Hslot. split_and!.
    + simpl. rewrite <-(wf_reserved_len _ _ _ Hd). lia.
    + simpl. by rewrite lookup_filled, Hnone.
    + intros a. unfold assigned_client. simpl. rewrite <-(wf_slots _ _ _ Hd).
      destruct (input_assignments d !! i) as [slot|] eqn:Hs; simpl; [|done].
      intros Ha. specialize (Hslot slot eq_refl). unfold input_slot_client in Hslot. congruence.
Qed.

Lemma submit_updates self inputs indices d d' r :
  execution_wf d → submit_commit self inputs indices d = (d', r) →
  (board d' = board d ∧ is_ok r = false) ∨ writes (ledger s) self (board d) (board d').
Proof.
  intros Hd [(e & _ & -> & ->)|[(_ & -> & ->)|(Hc & Hd')]]%submit_commit_cases; [by left..|].
  pose proof (check_submit_batch_Ok _ _ _ _ _ Hc) as (Hround & Hlen & Hne & Hall).
  right. set (ps := zip indices inputs) in *.
  assert (board d' = board (submitted_state self ps d)) as ->.
  { simpl in Hd'. case_bool_decide; by destruct Hd' as [-> _]. }
  replace (board (submitted_state self ps d))
    with ((board d) <| b_inputs ::= (newly_written ps (masked_inputs d) ∪.) |>).
  2: { unfold board, submitted_state, upd. simpl. f_equal. symmetry. apply filled_fill_pairs. }
  assert (ps.*1 = indices) as Hfst by (apply fst_zip; lia).
  rewrite Forall_forall in Hall. apply w_submit; [done| |].
  - destruct indices as [|raw indices]; [done|].
    destruct (check_submit_Ok _ _ _ (Hall raw ltac:(left))) as (Hlt & _ & _).
    destruct (lookup_newly_written ps (masked_inputs d) (N.to_nat (as_usize raw))) as [m Hm].
    + rewrite Hfst, N2Nat.id. by left.
    + apply vlen_lt. by rewrite N2Nat.id.
    + intros Hem. by rewrite Hem in Hm.
  - intros i m Hm. apply newly_written_Some in Hm. rewrite Hfst in Hm.
    apply list_elem_of_fmap in Hm as (raw & Hraw & Hin).
    destruct (check_submit_Ok _ _ _ (Hall _ Hin)) as (_ & Hres & Hnone).
    rewrite <-Hraw, Nat2N.id in Hres, Hnone. simpl.
    split; [by apply lookup_filled_Some|by rewrite lookup_filled, Hnone].
Qed.

Lemma finish_advances net head p d d' log r :
  execution_wf d → submit_finish net (transition_quorum s) head p d = (d', log, r) →
  rtc (advances (ledger s)) (board d) (board d').
Proof.
  unfold submit_finish. intros Hd Hf.
  match type of Hf with context [try_advance _ _ ?x] => set (d1 := x) in Hf end.
  destruct (try_advance_ok (transition_quorum s) head d1) as (d2 & dels & Heq & _). rewrite Heq in Hf.
  injection Hf as <- _ _. change (board d) with (board d1).
  eapply try_advance_advances, Heq. subst d1. keep_wf Hd.
Qed.

(** The uninterrupted submission. *)
Lemma submission_updates net self head inputs indices d d' log r :
  execution_wf d →
  match submit_commit self inputs indices d with
  | (d, Ok p) => let '(d, log, r) := submit_finish net (transition_quorum s) head p d in
                 (d, submit_sends p ++ log, r)
  | (d, Err e) => (d, [], Err e)
  | (d, Panic) => (d, [], Panic)
  end = (d', log, r) → updates (ledger s) self (board d) (board d').
Proof.
  intros Hd. destruct (submit_commit self inputs indices d) as [d1 o] eqn:Hc.
  pose proof (submit_commit_wf _ _ _ _ _ _ _ _ Hd Hc) as Hd1.
  apply submit_updates in Hc as [[Hb Ho]|Hw]; [| |done].
  - destruct o; [done|..]; intros [= <- _ _]; by left.
  - destruct o as [p| |]; [|intros [= <- _ _]; right; eauto using rtc_refl..].
    destruct (submit_finish net (transition_quorum s) head p d1) as [[d2 log2] r2] eqn:Hf.
    intros [= <- _ _]. right. eexists. split; [done|]. by eapply finish_advances.
Qed.

Lemma vote_updates self head next_round d d' log r :
  self ∈ mpc_nodes s → execution_wf d →
  transition_vote self (transition_quorum s) head next_round d = (d', log, r) →
  updates (ledger s) self (board d) (board d').
Proof.
  unfold transition_vote. intros Hself Hd Hf. destruct (_ <=? _)%N eqn:Hlt; reflect_bool.
  { injection Hf as <- _ _. by left. }
  match type of Hf with context [try_advance _ _ ?x] => set (d1 := x) in Hf end.
  destruct (try_advance_ok (transition_quorum s) head d1) as (d2 & dels & Heq & _). rewrite Heq in Hf.
  injection Hf as <- _ _. right. exists (board d1). split.
  - by apply (w_propose (ledger s) self (board d) next_round).
  - eapply try_advance_advances, Heq. by apply vote_recorded_wf.
Qed.

Lemma store_updates self client_id sh d d' log r :
  execution_wf d →
  store_output_shares self client_id (contains (mpc_nodes s) self) sh d = (d', log, r) →
  updates (ledger s) self (board d) (board d').
Proof.
  unfold store_output_shares. intros Hd Hf.
  destruct (contains (mpc_nodes s) self) eqn:Hp; simpl in Hf; [|injection Hf as <- _ _; by left].
  destruct (contains (output_clients d) client_id) eqn:Hc; simpl in Hf; [|injection Hf as <- _ _; by left].
  destruct (output_shares d !! (client_id, self)) eqn:Hs; simpl in Hf; injection Hf as <- _ _; [by left|].
  apply contains_true in Hp, Hc. right. eexists. split; [|done].
  apply (w_share (ledger s) self (board d) client_id sh); [done| |done].
  simpl. by rewrite <-(wf_output_clients _ _ _ Hd).
Qed.

(** Segments that only concern subscribers leave the board alone. *)
Lemma snapshot_board net client_id m d d' o :
  ready_output_snapshot net client_id m d = (d', o) → board d' = board d.
Proof. unfold ready_output_snapshot. intros Hf. by repeat case_match; injection Hf as <- _. Qed.

Lemma feed_board net attach sink d : feed net attach → board (attach sink d).1 = board d.
Proof.
  unfold subscribe_reserved_indices, subscribe_masked_inputs.
  intros []; unfold subscribe_reserved_indices, subscribe_masked_inputs,
    subscribe_assigned_reserved_indices, subscribe_assigned_masked_inputs;
    by destruct (replay _ _ _ _) as [log []].
Qed.
End segments.

(** ** Registration, retirement, shutdown *)

Lemma drop_oldest_sub a o : acks (drop_oldest a o) ⊆ a.
Proof.
  revert a. induction o as [|e o IH]; intros a; simpl; [done|]. case_match; [|done].
  etrans; [apply IH|]. apply delete_subseteq.
Qed.

Section registry.
Context `{HashOrder} (s : Server) (Hwf : server_wf s).

Lemma l_live_size : size (l_live (ledger s)) = size (executions s).
Proof. simpl. by rewrite map_size_fmap. Qed.

Lemma room_made_room s1 : room_made s s1 → makes_room (ledger s) (ledger s1).
Proof.
  intros [Hlt|eid d Hge Hd Hev].
  { apply room_left. by rewrite l_live_size. }
  unfold evictable in Hev. simpl in Hev. reflect_bool.
  replace (ledger (reclaimed eid d s)) with ((ledger s) <| l_live ::= delete eid |>
    <| l_sealed := acks (seal (retired s) eid (retirement_acks d)) |>).
  2: { unfold ledger, reclaimed, upd. simpl. by rewrite fmap_delete. }
  eapply (room_taken _ eid (board d)).
  - by rewrite l_live_size.
  - by apply ledger_live.
  - done.
  - by rewrite reclaim_quorum_eq by done.
  - eapply seal_lookup, Hwf.
  - apply drop_oldest_sub.
Qed.

Lemma register_requests self reg delivery s' r :
  self ∈ mpc_nodes s → register_execution reg delivery s = (s', r) →
  requests self (ledger s) (ledger s').
Proof.
  intros Hself Hr%register_execution_outcome.
  destruct Hr as [| | |s1 d Hnone Hroom Hn|s1 e Hnone Hroom Hn|s1 Hnone Hroom _ _]; [by left..| | |].
  - right. eexists. split; [|done]. rewrite ledger_put.
    apply (new_execution_wf (mpc_nodes s) (transition_quorum s)) in Hn as Hn'; [|by eapply top_count, sw_topology].
    destruct Hn' as (Hd & Hreg & Hz).
    assert (board d = blank reg) as ->.
    { clear -Hn. inv_new Hn. unfold board, blank, filled. simpl.
      f_equal; [apply map_eq; intros i; rewrite lookup_omap, lookup_map_seq_0, lookup_empty..].
      - destruct (replicate _ None !! i) eqn:Hi; [|done]. apply lookup_replicate in Hi. by destruct Hi as [-> _].
      - destruct (replicate _ None !! i) eqn:Hi; [|done]. apply lookup_replicate in Hi. by destruct Hi as [-> _]. }
    apply act_register; [done| | |by apply room_made_room].
    + simpl. by rewrite lookup_fmap, Hnone.
    + split_and!; [done| |rewrite <-Hreg; apply (wf_output_quorum _ _ _ Hd)..].
      clear -Hn. unfold new_execution in Hn. inv_ok. by reflect_bool.
  - right. exists (ledger s1). split; [|done]. apply act_displace; [done|]. by apply room_made_room.
  - right. exists (ledger s1). split; [|done]. apply act_displace; [done|]. by apply room_made_room.
Qed.

Lemma retire_requests self eid s' r :
  retire_execution eid self s = (s', r) → requests self (ledger s) (ledger s').
Proof.
  intros [(_ & -> & _)|(Hp & _ & [[[a Ha] ->]|[(_ & _ & ->)|(d & _ & Hd & ->)]])]%retire_execution_cases;
    [by left| |by left|].
  - right. eexists. split; [|done]. unfold acknowledge. rewrite Ha.
    destruct (_ <=? _)%N eqn:Hn; reflect_bool; unfold ledger, upd; simpl.
    + by apply (act_forget self (ledger s) eid a).
    + by apply (act_seal self (ledger s) eid a).
  - eapply request_put; [done|]. right. eexists. split; [|done].
    by apply (w_retire (ledger s) self (board d)).
Qed.

Lemma shutdown_requests self s' fired r :
  rpc_request_shutdown self s = (s', fired, r) → requests self (ledger s) (ledger s').
Proof.
  unfold rpc_request_shutdown. destruct (roster_head_Ok s (sw_topology s Hwf)) as (head & Hh & _).
  rewrite Hh. apply index_Ok in Hh. unfold server_round.
  case_bool_decide as Hd; simpl; [|intros [= <- _ _]; by left]. subst self.
  destruct (one_off_execution s) as [eid|] eqn:Ho; [|intros [= <- _ _]; by left].
  case_bool_decide as Hf; simpl; [|intros [= <- _ _]; by left].
  apply fmap_Some in Hf as (d & Hd & Hf).
  destruct (shutdown_notify s) eqn:Hn; intros [= <- _ _]; [|by left].
  right. eexists. split; [|done].
  apply (act_stop head (ledger s) eid (board d)); [done|done|by apply ledger_live|done|].
  simpl. by rewrite Hn.
Qed.
End registry.

Lemma live_same s s' :
  executions s' = executions s → mpc_nodes s' = mpc_nodes s → t s' = t s →
  retired s' = retired s → one_off_execution s' = one_off_execution s →
  shutdown_notify s' = shutdown_notify s → ledger s' = ledger s.
Proof. intros He Hm Ht Hr Ho Hs. unfold ledger. congruence. Qed.

Lemma put_same eid d d' s :
  executions s !! eid = Some d → board d' = board d → ledger (put_execution eid d' s) = ledger s.
Proof.
  intros Hd%ledger_live Hb. rewrite ledger_put, Hb. by apply write_back.
Qed.

Section steps.
Context `{HashOrder} (s : Server) (Hwf : server_wf s).

Lemma vote_requests self eid next_round s' log r :
  rpc_transition self eid next_round s = (s', log, r) → requests self (ledger s) (ledger s').
Proof.
  unfold rpc_transition. destruct (roster_head s); try (intros [= <- _ _]; by left).
  destruct (contains (mpc_nodes s) self) eqn:Hc; simpl; [|intros [= <- _ _]; by left].
  apply contains_true in Hc. destruct (round_before next_round); [|intros [= <- _ _]; by left].
  apply request_with. intros d d' log' r' Hd Hv.
  by eapply vote_updates, Hv; [| |eapply sw_execs].
Qed.

Lemma snapshot_ledger net eid client_id k s' r :
  output_snapshot net eid client_id k s = (s', r) → ledger s' = ledger s.
Proof.
  unfold output_snapshot. destruct (executions s !! eid) as [d|] eqn:Hd; [|by intros [= <- _]].
  destruct (ready_output_snapshot net client_id k d) as [d' o] eqn:Hs. intros [= <- _].
  eapply put_same; [done|]. by eapply snapshot_board.
Qed.

Lemma forget_ledger eid client_id waiter : ledger (forget_waiter eid client_id waiter s) = ledger s.
Proof.
  unfold forget_waiter. destruct (executions s !! eid) as [d|] eqn:Hd; [|done].
  case_bool_decide; [|done]. by eapply put_same.
Qed.

Lemma sub_round_ledger eid r sink s' log :
  sub_round_attach eid r sink s = (s', log) → ledger s' = ledger s.
Proof.
  unfold sub_round_attach. destruct (executions s !! eid) as [d|] eqn:Hd; [|by intros [= <- _]].
  destruct (trans_events d !! r); intros [= <- _]; [done|]. by eapply put_same.
Qed.

Lemma sub_events_ledger net attach accept eid s' log r :
  feed net attach → sub_events attach accept eid s = (s', log, r) → ledger s' = ledger s.
Proof.
  intros Hf. unfold sub_events. destruct (executions s !! eid) as [d|] eqn:Hd; [|by intros [= <- _ _]].
  destruct accept as [sink|]; [|by intros [= <- _ _]].
  pose proof (feed_board net attach sink d Hf) as Hb. destruct (attach sink d) as [d' log'].
  intros [= <- _ _]. by eapply put_same.
Qed.

Lemma obtain_ledger net self eid sink s' o :
  obtain_attach net self eid sink s = (s', o) → ledger s' = ledger s.
Proof.
  unfold obtain_attach. destruct (executions s !! eid) as [d|] eqn:Hd; [|by intros [= <- _]].
  destruct (_ || _); intros [= <- _]; [done|]. by eapply put_same.
Qed.

(** Every segment is a step of the ledger. *)
Lemma step_ledger s' : step s s' → ledger_step (ledger s) (ledger s').
Proof.
  destruct 1 as [self reg delivery s' log r Hr|self eid s' log r Hr|self s' fired r Hr
    |eid tx|net self eid indices s' log r Hr|self eid inputs indices d d' r Hd Hr
    |net head eid p d d' log r Hd Hh Hr|self eid nr s' log r Hr|self eid c sh s' log r Hr
    |net eid c k s' r Hr|eid c w|eid r sink s' log Hr|net attach accept eid s' log r Hf Hr
    |net self eid sink s' o Hr|encode draws eid b tok b' Hr|eid tok].
  - apply ls_request with self. unfold rpc_register_execution in Hr.
    destruct (contains _ _) eqn:Hc; simpl in Hr; [|simplify_eq; by left].
    destruct (register_execution reg delivery s) eqn:Hreg; simplify_eq.
    eapply register_requests; [done|by apply contains_true|done].
  - apply ls_request with self. unfold rpc_retire_execution in Hr.
    case_match; [simplify_eq; by left|].
    destruct (retire_execution eid self s) eqn:Hret; simplify_eq. by eapply retire_requests.
  - apply ls_request with self. by eapply shutdown_requests.
  - apply (ls_one_off (ledger s) eid).
  - apply ls_request with self. eapply request_with, Hr. intros d d' log' r' Hd Hres.
    eapply reserve_updates, Hres; by eapply sw_execs.
  - apply ls_request with self. eapply request_put; [done|].
    destruct (submit_updates s self inputs indices d d' r) as [[Hb _]|Hb];
      [by eapply sw_execs|done|by left|right; eauto using rtc_refl].
  - apply ls_progress. eapply progress_put; [done|]. by eapply finish_advances, Hr; [|eapply sw_execs].
  - apply ls_request with self. by eapply vote_requests.
  - apply ls_request with self. eapply request_with, Hr. intros d d' log' r' Hd Hst.
    eapply store_updates, Hst; by eapply sw_execs.
  - apply ls_progress. by rewrite (snapshot_ledger _ _ _ _ _ _ Hr).
  - apply ls_progress. by rewrite forget_ledger.
  - apply ls_progress. by rewrite (sub_round_ledger _ _ _ _ _ Hr).
  - apply ls_progress. by rewrite (sub_events_ledger _ _ _ _ _ _ _ Hf Hr).
  - apply ls_progress. by rewrite (obtain_ledger _ _ _ _ _ _ Hr).
  - by apply ls_progress.
  - by apply ls_progress.
Qed.
End steps.

(** ** Reachable states *)

Section reachable.
Context `{HashOrder}.

Lemma reachable_ledger s : reachable s → ledger_reachable (mpc_nodes s) (t s) (ledger s).
Proof.
  induction 1 as [n t nodes s Hw Hn|s s' Hr IH Hs].
  - unfold new_server in Hn. inv_ok. apply lr_new.
  - apply reachable_wf in Hr. destruct (effect_topology s s') as (-> & _ & ->); [by apply step_effect|].
    eapply lr_step; [done|]. by apply step_ledger.
Qed.
End reachable.
