(* ===== verification/Requests.v ===== *)
(** The coordinator's RPC interface as a whole
    (src/crates/off-chain/src/lib.rs, the traits [StoffelCoordinatorRPC] and
    [CoordinatorRPCBase]): a request, and what serving it without interruption
    does. *)
From S2P Require Import Prelude Shared Execution Sessions Server Rpc.

(** The developer-facing methods. *)
Inductive StoffelCoordinatorRPC : Type :=
  | StartPreprocessing (eid : ExecutionId)
  | ReserveInputMasks (eid : ExecutionId)
  | CollectInputs (eid : ExecutionId)
  | StartMpc (eid : ExecutionId)
  | SendOutput (eid : ExecutionId)
  | Finalize (eid : ExecutionId).

(** The methods implemented by the library. *)
Inductive CoordinatorRPCBase : Type :=
  | RegisterExecution (reg : ExecutionRegistration)
  | RetireExecution (eid : ExecutionId)
  | RequestShutdown
  | SubRound (eid : ExecutionId) (r : Round)
  | SubReservedIndices (eid : ExecutionId)
  | SubMaskedInputs (eid : ExecutionId)
  | SubAssignedReservedIndices (eid : ExecutionId)
  | SubAssignedMaskedInputs (eid : ExecutionId)
  | AvailableInputMasks (eid : ExecutionId)
  | ReserveMaskIndex (eid : ExecutionId) (i : u64)
  | ReserveMaskIndices (eid : ExecutionId) (indices : list u64)
  | SubmitMaskedInput (eid : ExecutionId) (masked_input : bytes) (reserved_index : u64)
  | SubmitMaskedInputs (eid : ExecutionId) (inputs : list bytes) (indices : list u64)
  | Transition (eid : ExecutionId) (next_round : Round)
  | SendOutputShares (eid : ExecutionId) (client_id : ClientIdentity) (enc_shares : bytes * bytes)
  | ResolveOutputEncryptionKey (eid : ExecutionId) (client_id : ClientIdentity)
  | ObtainOutputShares (eid : ExecutionId).

Inductive Answer : Type :=
  | Done
  | Masks (k : u64)
  | EncryptionKey (key : option bytes)
  | Subscription (o : SubOutcome).

(** What serving a request did: the state, the messages sent to subscribers, the
    shutdown channel fired, the reply. *)
Record Served : Type := mkServed {
  sv_state : Server;
  sv_sent : list Send;
  sv_fired : option positive;
  sv_reply : result ErrorObject Answer }.

Definition done_with (o : Outcome unit) : Served :=
  let '(s, log, r) := o in mkServed s log None ((fun _ => Done) <$> r).
Definition subscribed (o : Server * list Send * SubOutcome) : Served :=
  let '(s, log, r) := o in mkServed s log None (Ok (Subscription r)).
Definition queried (s : Server) (r : result ErrorObject Answer) : Served := mkServed s [] None r.

Section requests.
Context `{HashOrder}.

(** The handlers of the ready-to-use connection. *)
Definition serve_stoffel (self : ClientIdentity) (req : StoffelCoordinatorRPC) (s : Server) : Served :=
  done_with
    match req with
    | StartPreprocessing eid => start_preprocessing self eid s
    | ReserveInputMasks eid => reserve_input_masks self eid s
    | CollectInputs eid => collect_inputs self eid s
    | StartMpc eid => start_mpc self eid s
    | SendOutput eid => send_output self eid s
    | Finalize eid => finalize self eid s
    end.

(** [accept] is the sink the caller's handshake yields for a subscription, if it
    completes; [delivery] names the mutex a registration allocates. *)
Definition serve_base (net : Net) (accept : option SubscriptionSink) (delivery : LockId)
    (self : ClientIdentity) (req : CoordinatorRPCBase) (s : Server) : Served :=
  match req with
  | RegisterExecution reg => done_with (rpc_register_execution self reg delivery s)
  | RetireExecution eid => done_with (rpc_retire_execution self eid s)
  | RequestShutdown =>
      let '(s, fired, r) := rpc_request_shutdown self s in mkServed s [] fired ((fun _ => Done) <$> r)
  | SubRound eid r => subscribed (sub_round accept eid r s)
  | SubReservedIndices eid => subscribed (sub_reserved_indices net accept eid s)
  | SubMaskedInputs eid => subscribed (sub_masked_inputs net accept eid s)
  | SubAssignedReservedIndices eid => subscribed (sub_assigned_reserved_indices net accept eid s)
  | SubAssignedMaskedInputs eid => subscribed (sub_assigned_masked_inputs net accept eid s)
  | AvailableInputMasks eid => queried s (Masks <$> available_input_masks eid s)
  | ReserveMaskIndex eid i => done_with (reserve_mask_index net self eid i s)
  | ReserveMaskIndices eid indices => done_with (reserve_mask_indices net self eid indices s)
  | SubmitMaskedInput eid m i => done_with (submit_masked_input net self eid m i s)
  | SubmitMaskedInputs eid inputs indices =>
      done_with (submit_masked_inputs net self eid inputs indices s)
  | Transition eid r => done_with (rpc_transition self eid r s)
  | SendOutputShares eid client_id enc_shares =>
      done_with (send_output_shares net self eid client_id enc_shares s)
  | ResolveOutputEncryptionKey eid client_id =>
      queried s (EncryptionKey <$> resolve_output_encryption_key eid client_id s)
  | ObtainOutputShares eid =>
      let '(s, log, r) := obtain_output_shares net accept self eid s in
      mkServed s log None (Subscription <$> r)
  end.

(** The two interfaces are merged into one server. *)
Definition Request : Type := StoffelCoordinatorRPC + CoordinatorRPCBase.

Definition serve (net : Net) (accept : option SubscriptionSink) (delivery : LockId)
    (self : ClientIdentity) (req : Request) (s : Server) : Served :=
  match req with
  | inl req => serve_stoffel self req s
  | inr req => serve_base net accept delivery self req s
  end.
End requests.

(** ** One server for both interfaces *)

(** The names the two traits register. *)
Definition stoffel_methods : list string :=
  ["start_preprocessing"; "reserve_input_masks"; "collect_inputs"; "start_mpc"; "send_output";
   "finalize"].
Definition base_methods : list string :=
  ["register_execution"; "retire_execution"; "request_shutdown"; "sub_round"; "unsub_round";
   "sub_reserved_indices"; "unsub_reserved_indices"; "sub_masked_inputs"; "unsub_masked_inputs";
   "sub_assigned_reserved_indices"; "unsub_assigned_reserved_indices";
   "sub_assigned_masked_inputs"; "unsub_assigned_masked_inputs"; "available_input_masks";
   "reserve_mask_index"; "reserve_mask_indices"; "submit_masked_input"; "submit_masked_inputs";
   "transition"; "send_output_shares"; "resolve_output_encryption_key";
   "sub_obtain_output_shares"; "unsub_obtain_output_shares"].

(** [into_rpc]: the merge of the two modules is unwrapped. *)
Definition into_rpc (merge : list string → list string → option (list string))
    : result CoordinatorError (list string) := expect (merge stoffel_methods base_methods).

(** The interfaces do not clash, so a module that accepts disjoint names is built. *)
Lemma into_rpc_ok merge :
  (∀ a b, (∀ m, m ∈ b → m ∉ a) → is_Some (merge a b)) → no_panic (into_rpc merge).
Proof.
  intros Hm. destruct (Hm stoffel_methods base_methods) as [names Hn].
  { apply Forall_forall, (bool_decide_unpack _). by vm_compute. }
  unfold into_rpc. by rewrite Hn.
Qed.
