(* ===== verification/RequestsFacts.v ===== *)
(** What the RPC interface guarantees for any request: it acts for its caller only,
    and a refusal leaves no trace. *)
From S2P Require Import Prelude Shared Execution Samples Rounds Sessions Server Rpc ServerSamples.
From S2P Require Import Invariant History Topology Machine Ledger LedgerFacts Requests.

Section facts.
Context `{HashOrder}.
Implicit Types (s : Server) (d : Exec).

(** ** Every request is a request of the ledger *)

Lemma outcome_requests self s (o : Outcome unit) :
  requests self (ledger s) (ledger o.1.1) → requests self (ledger s) (ledger (sv_state (done_with o))).
Proof. by destruct o as [[s' log] r]. Qed.

Lemma deliver_ledger net eid client_id k s :
  ledger (deliver_ready_output_waiters net eid client_id k s).1.1 = ledger s.
Proof.
  unfold deliver_ready_output_waiters. destruct (output_snapshot net eid client_id k s) as [s' o] eqn:Hs.
  apply snapshot_ledger in Hs. destruct o as [[[w sh]|]| |]; simpl; [|done..].
  destruct (send_ok net w 0); [done|]. by rewrite forget_ledger.
Qed.

Lemma send_output_shares_requests net self eid client_id sh s :
  server_wf s →
  requests self (ledger s) (ledger (send_output_shares net self eid client_id sh s).1.1).
Proof.
  intros Hwf. unfold send_output_shares.
  destruct (with_execution eid _ s) as [[s1 log] r] eqn:Hst.
  eapply request_with in Hst.
  2: { intros d d' log' r' Hd Hs. eapply store_updates, Hs; by eapply sw_execs. }
  destruct r; simpl; [by rewrite deliver_ledger|done..].
Qed.

Lemma obtain_output_shares_ledger net accept self eid s :
  ledger (obtain_output_shares net accept self eid s).1.1 = ledger s.
Proof.
  unfold obtain_output_shares. destruct (obtain_check _ _ _ _); [done|].
  destruct accept as [sink|]; [|done].
  destruct (obtain_attach net self eid sink s) as [s1 o] eqn:Ho. apply obtain_ledger in Ho.
  destruct o as [k|]; [|done].
  pose proof (deliver_ledger net eid self k s1) as Hl.
  destruct (deliver_ready_output_waiters net eid self k s1) as [[s2 log] r]. simpl in *. congruence.
Qed.

Lemma submit_masked_inputs_requests net self eid inputs indices s :
  server_wf s →
  requests self (ledger s) (ledger (submit_masked_inputs net self eid inputs indices s).1.1).
Proof.
  intros Hwf. unfold submit_masked_inputs. destruct (roster_head s); [|by left..].
  eapply request_with; [|apply outcome_eta]. intros d d' log r Hd Hs.
  eapply submission_updates, Hs; [done|by eapply sw_execs].
Qed.

Lemma sub_events_served net attach accept eid s :
  feed net attach → ledger (sv_state (subscribed (sub_events attach accept eid s))) = ledger s.
Proof.
  intros Hf. pose proof (sub_events_ledger s net attach accept eid) as Hl.
  destruct (sub_events attach accept eid s) as [[s' log] r]. by eapply Hl.
Qed.

Lemma sub_round_served accept eid r s :
  ledger (sv_state (subscribed (sub_round accept eid r s))) = ledger s.
Proof.
  unfold sub_round. destruct (sub_round_check eid r s); [done|]. destruct accept as [sink|]; [|done].
  destruct (sub_round_attach eid r sink s) as [s' log] eqn:Ha. by apply sub_round_ledger in Ha.
Qed.

Lemma serve_requests net accept delivery self req s :
  server_wf s → requests self (ledger s) (ledger (sv_state (serve net accept delivery self req s))).
Proof.
  intros Hwf. destruct req as [req|req]; simpl.
  - unfold serve_stoffel. apply outcome_requests.
    destruct req; (eapply vote_requests; [done|apply outcome_eta]).
  - destruct req as [reg|eid| |eid r|eid|eid|eid|eid|eid|eid i|eid ix|eid m i|eid ms ix|eid r|eid c sh|eid c|eid];
      simpl; try apply outcome_requests.
    + unfold rpc_register_execution. destruct (contains _ _) eqn:Hc; simpl; [|by left].
      destruct (register_execution reg delivery s) as [s' r] eqn:Hr. simpl.
      eapply register_requests; [done|by apply contains_true|done].
    + unfold rpc_retire_execution. case_match; [by left|].
      destruct (retire_execution eid self s) as [s' r] eqn:Hr. by eapply retire_requests.
    + destruct (rpc_request_shutdown self s) as [[s' fired] r] eqn:Hr. by eapply shutdown_requests.
    + left. apply sub_round_served.
    + left. eapply sub_events_served, feed_reserved.
    + left. eapply sub_events_served, feed_masked.
    + left. eapply sub_events_served, feed_assigned_reserved.
    + left. eapply sub_events_served, feed_assigned_masked.
    + by left.
    + eapply request_with; [|apply outcome_eta]. intros d d' log r Hd Hr.
      eapply reserve_updates, Hr; by eapply sw_execs.
    + eapply request_with; [|apply outcome_eta]. intros d d' log r Hd Hr.
      eapply reserve_updates, Hr; by eapply sw_execs.
    + by apply submit_masked_inputs_requests.
    + by apply submit_masked_inputs_requests.
    + eapply vote_requests; [done|apply outcome_eta].
    + by apply send_output_shares_requests.
    + by left.
    + left. pose proof (obtain_output_shares_ledger net accept self eid s) as Hl.
      by destruct (obtain_output_shares net accept self eid s) as [[s' log] r].
Qed.
End facts.

(** ** A request is a run of segments *)

Section runs.
Context `{HashOrder}.
Implicit Types (s : Server) (d : Exec).

Lemma deliver_run net eid client_id k s :
  rtc step s (deliver_ready_output_waiters net eid client_id k s).1.1.
Proof.
  unfold deliver_ready_output_waiters. destruct (output_snapshot net eid client_id k s) as [s1 o] eqn:Hs.
  pose proof (step_snapshot s net eid client_id k s1 o Hs) as H1.
  destruct o as [[[w sh]|]| |]; simpl; [|by apply rtc_once..].
  eapply rtc_l; [exact H1|]. destruct (send_ok net w 0); [done|]. apply rtc_once, step_forget.
Qed.

Lemma submit_masked_inputs_run net self eid inputs indices s :
  rtc step s (submit_masked_inputs net self eid inputs indices s).1.1.
Proof.
  unfold submit_masked_inputs. destruct (roster_head s) as [head| |] eqn:Hh; [|done..].
  unfold with_execution, execution_state.
  destruct (executions s !! eid) as [d|] eqn:Hd; simpl; [|done].
  destruct (submit_commit self inputs indices d) as [d1 r1] eqn:Hc.
  eapply rtc_l; [by eapply step_submit_commit|]. destruct r1 as [p| |]; [|done..].
  destruct (submit_finish net (transition_quorum s) head p d1) as [[d2 log] r2] eqn:Hf. simpl.
  replace (put_execution eid d2 s) with (put_execution eid d2 (put_execution eid d1 s)).
  - apply rtc_once. eapply step_submit_finish; [apply put_execution_lookup|..]; done.
  - unfold put_execution, upd. simpl. by rewrite insert_insert_eq.
Qed.

Lemma sub_events_run net attach accept eid s :
  feed net attach → rtc step s (sv_state (subscribed (sub_events attach accept eid s))).
Proof.
  intros Hf. destruct (sub_events attach accept eid s) as [[s' log] r] eqn:Hs.
  apply rtc_once. by eapply step_sub_events.
Qed.

Lemma done_run s (o : Outcome unit) : rtc step s o.1.1 → rtc step s (sv_state (done_with o)).
Proof. by destruct o as [[s' log] r]. Qed.

Lemma serve_run net accept delivery self req s :
  rtc step s (sv_state (serve net accept delivery self req s)).
Proof.
  destruct req as [[]|[]]; simpl; try (apply done_run); try (by apply submit_masked_inputs_run); try done;
    try (apply rtc_once; eapply step_vote, outcome_eta);
    try (apply rtc_once; eapply step_reserve, outcome_eta).
  - apply rtc_once. eapply step_register, outcome_eta.
  - apply rtc_once. eapply step_retire, outcome_eta.
  - destruct (rpc_request_shutdown self s) as [[s' fired] r] eqn:Hr.
    apply rtc_once. by eapply step_shutdown.
  - unfold sub_round. destruct (sub_round_check eid r s); [done|]. destruct accept as [sink|]; [|done].
    destruct (sub_round_attach eid r sink s) as [s' log] eqn:Ha. apply rtc_once. by eapply step_sub_round.
  - eapply sub_events_run, feed_reserved.
  - eapply sub_events_run, feed_masked.
  - eapply sub_events_run, feed_assigned_reserved.
  - eapply sub_events_run, feed_assigned_masked.
  - unfold send_output_shares. destruct (with_execution eid _ s) as [[s1 log] r] eqn:Hw.
    eapply rtc_l; [by eapply step_store|]. destruct r; [apply deliver_run|done..].
  - unfold obtain_output_shares. destruct (obtain_check net self eid s); [done|].
    destruct accept as [sink|]; [|done]. destruct (obtain_attach net self eid sink s) as [s1 o] eqn:Ho.
    eapply rtc_l; [by eapply step_obtain|]. destruct o as [k|]; [|done].
    pose proof (deliver_run net eid self k s1) as Hd.
    by destruct (deliver_ready_output_waiters net eid self k s1) as [[s2 log] r].
Qed.

Lemma reachable_run s s' : reachable s → rtc step s s' → reachable s'.
Proof. intros Hs Hr. induction Hr; eauto using reach_step. Qed.

(** No request touches the session bindings. *)
Lemma with_execution_bindings {A} eid (f : Exec → Exec * list Send * result ErrorObject A) s :
  webauthn_bindings (with_execution eid f s).1.1 = webauthn_bindings s.
Proof.
  unfold with_execution, execution_state. destruct (executions s !! eid) as [d|]; simpl; [|done].
  by destruct (f d) as [[d' log] r].
Qed.

Lemma deliver_bindings net eid client_id k s :
  webauthn_bindings (deliver_ready_output_waiters net eid client_id k s).1.1 = webauthn_bindings s.
Proof.
  unfold deliver_ready_output_waiters, output_snapshot. destruct (executions s !! eid) as [d|]; [|done].
  destruct (ready_output_snapshot net client_id k d) as [d' [[w sh]|]]; simpl; [|done].
  destruct (send_ok net w 0); [done|]. unfold forget_waiter. simpl.
  rewrite lookup_insert_eq. by case_bool_decide.
Qed.

Lemma sub_events_bindings attach accept eid s :
  webauthn_bindings (sv_state (subscribed (sub_events attach accept eid s))) = webauthn_bindings s.
Proof.
  unfold sub_events. destruct (executions s !! eid) as [d|]; [|done].
  destruct accept as [sink|]; [|done]. by destruct (attach sink d).
Qed.

Lemma rpc_transition_bindings self eid r s :
  webauthn_bindings (rpc_transition self eid r s).1.1 = webauthn_bindings s.
Proof.
  unfold rpc_transition. destruct (roster_head s); try done. case_match; [done|].
  case_match; [|done]. apply with_execution_bindings.
Qed.

Lemma submit_bindings net self eid inputs indices s :
  webauthn_bindings (submit_masked_inputs net self eid inputs indices s).1.1 = webauthn_bindings s.
Proof. unfold submit_masked_inputs. destruct (roster_head s); [apply with_execution_bindings|done..]. Qed.

Lemma done_bindings s (o : Outcome unit) :
  webauthn_bindings o.1.1 = webauthn_bindings s →
  webauthn_bindings (sv_state (done_with o)) = webauthn_bindings s.
Proof. by destruct o as [[s' log] r]. Qed.

Lemma serve_bindings net accept delivery self req s :
  webauthn_bindings (sv_state (serve net accept delivery self req s)) = webauthn_bindings s.
Proof.
  destruct req as [[]|[]]; simpl; try (apply done_bindings); try (apply rpc_transition_bindings);
    try (apply with_execution_bindings); try (apply submit_bindings); try (apply sub_events_bindings); try done.
  - unfold rpc_register_execution, register_execution. case_match; [done|].
    by repeat case_match; simplify_eq.
  - unfold rpc_retire_execution, retire_execution. case_match; [done|].
    by repeat case_match; simplify_eq.
  - unfold rpc_request_shutdown. by repeat case_match; simplify_eq.
  - unfold sub_round, sub_round_attach. by repeat case_match; simplify_eq.
  - unfold send_output_shares. pose proof (with_execution_bindings eid
      (store_output_shares self client_id (contains (mpc_nodes s) self) enc_shares) s) as Hw.
    destruct (with_execution eid _ s) as [[s1 log] r]. simpl in Hw.
    destruct r; simpl; [by rewrite deliver_bindings|done..].
  - unfold obtain_output_shares, obtain_attach. repeat case_match; simplify_eq; try done.
    all: simpl; pose proof deliver_bindings as Hb.
    all: match goal with Hd : deliver_ready_output_waiters ?a ?b ?c ?e ?x = _ |- _ =>
      specialize (Hb a b c e x); rewrite Hd in Hb; exact Hb end.
Qed.
End runs.

(** ** Whose entries a request writes *)

(** Every entry of [b'] that [b] lacks is one [p] may write. *)
Record attributed (l : Ledger) (p : ClientIdentity) (b b' : Board) : Prop := {
  at_owner : ∀ i c, b_owners b' !! i = Some c → b_owners b !! i = Some c ∨
    c = p ∧ b_round b = InputMaskReservation ∧ may_own b p i;
  at_input : ∀ i m, b_inputs b' !! i = Some m → b_inputs b !! i = Some m ∨
    b_owners b !! i = Some p ∧ b_round b = InputCollection;
  at_proposal : ∀ r v q, b_proposals b' !! r = Some v → q ∈ v →
    q ∈ default ∅ (b_proposals b !! r) ∨ q = p ∧ p ∈ l_roster l;
  at_share : ∀ c q sh, b_shares b' !! (c, q) = Some sh → b_shares b !! (c, q) = Some sh ∨
    q = p ∧ p ∈ l_roster l ∧ c ∈ reg_output_clients (b_registration b);
  at_retired : ∀ q, q ∈ b_retired_by b' → q ∈ b_retired_by b ∨ q = p ∧ p ∈ l_roster l }.

Lemma attributed_refl l p b : attributed l p b b.
Proof. constructor; intros; try (by left). left. by rewrite H. Qed.

Lemma writes_attributed l p b b' : writes l p b b' → attributed l p b b'.
Proof.
  intros Hw. pose proof (attributed_refl l p b) as Hr.
  destruct Hw as [slots Hround _ _ Hmay|inputs Hround _ Hin|r Hp _|c sh Hp Hc Hn|Hp];
    destruct Hr; constructor; simpl in *; try done.
  - intros i c Hi. apply lookup_union_Some_raw in Hi as [Hi|[_ Hi]]; [|by left].
    apply lookup_gset_to_gmap_Some in Hi as [Hi <-]. right. split_and!; try done; by apply Hmay.
  - intros i m Hi. apply lookup_union_Some_raw in Hi as [Hi|[_ Hi]]; [|by left].
    right. by destruct (Hin i m Hi).
  - intros r' v q Hv Hq. rewrite lookup_insert in Hv. case_decide as Hr; [|by eapply at_proposal0].
    injection Hv as <-. subst r'. apply elem_of_union in Hq as [->%elem_of_singleton|Hq]; [by right|by left].
  - intros c' q sh' Hs. rewrite lookup_insert in Hs. case_decide as He; [|by left].
    simplify_eq. by right.
  - intros q [->%elem_of_singleton|Hq]%elem_of_union; [by right|by left].
Qed.

(** Progress writes no entries. *)
Definition same_entries (b b' : Board) : Prop :=
  b_registration b' = b_registration b ∧ b_owners b' = b_owners b ∧ b_inputs b' = b_inputs b ∧
  b_proposals b' = b_proposals b ∧ b_shares b' = b_shares b ∧ b_retired_by b' = b_retired_by b.

Lemma progresses_lookup l l' eid b' :
  rtc progresses l l' → l_live l' !! eid = Some b' →
  ∃ b, l_live l !! eid = Some b ∧ same_entries b b'.
Proof.
  intros Hr. induction Hr as [l|l l1 l2 Hp _ IH]; intros Hb; [by exists b'|].
  destruct (IH Hb) as (b1 & Hb1 & Hs). destruct Hp as [eid' x x' Hx Hadv]. simpl in Hb1.
  rewrite lookup_insert in Hb1. case_decide as He; [|by exists b1].
  simplify_eq. exists x. split; [done|]. destruct Hadv. destruct Hs as (? & ? & ? & ? & ? & ?). done.
Qed.

Lemma makes_room_lookup l l1 eid b : makes_room l l1 → l_live l1 !! eid = Some b → l_live l !! eid = Some b.
Proof. intros [?|eid' x sealed _ _ _ _ _ _]; [done|]. simpl. by intros [_ Hb]%lookup_delete_Some. Qed.

Lemma requests_attributed p l l' eid b b' :
  requests p l l' → l_live l !! eid = Some b → l_live l' !! eid = Some b' → attributed l p b b'.
Proof.
  intros [->|(l1 & Ha & Hp)] Hb Hb'.
  { rewrite Hb in Hb'. simplify_eq. apply attributed_refl. }
  destruct (progresses_lookup _ _ _ _ Hp Hb') as (b1 & Hb1 & Hs).
  assert (attributed l p b b1) as [].
  { destruct Ha as [eid' x x' Hx Hw|reg l2 _ Hn _ Hroom|l2 _ Hroom|eid' a _ _ _|eid' a _ _ _|eid' x _ _ _ _ _];
      simpl in Hb1.
    - rewrite lookup_insert in Hb1. case_decide as He; simplify_eq; [by apply writes_attributed|].
      apply attributed_refl.
    - rewrite lookup_insert in Hb1. case_decide as He; simplify_eq.
      apply (makes_room_lookup _ _ _ _ Hroom) in Hb1. simplify_eq. apply attributed_refl.
    - apply (makes_room_lookup _ _ _ _ Hroom) in Hb1. simplify_eq. apply attributed_refl.
    - simplify_eq. apply attributed_refl.
    - simplify_eq. apply attributed_refl.
    - simplify_eq. apply attributed_refl. }
  destruct Hs as (_ & Ho & Hi & Hv & Hs & Hr). constructor; rewrite ?Ho, ?Hi, ?Hv, ?Hs, ?Hr; done.
Qed.

(** ** Refusals *)

(** The caller got an error or no subscription. *)
Definition refused (r : result ErrorObject Answer) : Prop :=
  match r with
  | Err _ | Ok (Subscription (Rejected _)) | Ok (Subscription NotAccepted) => True
  | _ => False
  end.

(** Nothing was sent, fired or changed. *)
Definition no_trace (s : Server) (sv : Served) : Prop :=
  sv_sent sv = [] ∧ sv_fired sv = None ∧ sv_state sv = s.

Section refusals.
Context `{HashOrder}.
Implicit Types (s : Server) (d : Exec).

Lemma put_back eid d s : executions s !! eid = Some d → put_execution eid d s = s.
Proof. intros Hd. destruct s. unfold put_execution, upd. simpl in *. by rewrite insert_id. Qed.

(** A refused call on an execution that leaves the execution alone leaves no trace. *)
Lemma with_execution_refused {A} eid (f : Exec → Exec * list Send * result ErrorObject A) s s' log e :
  (∀ d d' log, f d = (d', log, Err e) → d' = d ∧ log = []) →
  with_execution eid f s = (s', log, Err e) → s' = s ∧ log = [].
Proof.
  intros Hf. unfold with_execution, execution_state.
  destruct (executions s !! eid) as [d|] eqn:Hd; simpl; [|by intros [= <- <- _]].
  destruct (f d) as [[d' log'] r] eqn:Hfd. intros [= <- <- ->].
  destruct (Hf _ _ _ Hfd) as [-> ->]. by rewrite put_back.
Qed.

Lemma reserve_refused net self eid indices s s' log e :
  reserve_mask_indices net self eid indices s = (s', log, Err e) → s' = s ∧ log = [].
Proof.
  apply with_execution_refused. intros d d' log' Hr.
  apply reserve_batch_cases in Hr as [(? & _ & _ & -> & ->)|[(_ & ? & _)|(_ & ? & _)]]; done.
Qed.

Lemma submit_refused net self eid inputs indices s s' log e :
  submit_masked_inputs net self eid inputs indices s = (s', log, Err e) → s' = s ∧ log = [].
Proof.
  unfold submit_masked_inputs. destruct (roster_head s) as [head| |]; [|by intros [= <- <- _]|done].
  apply with_execution_refused. intros d d' log'.
  destruct (submit_commit self inputs indices d) as [d1 o] eqn:Hc.
  destruct (submit_commit_cases _ _ _ _ _ _ Hc) as [(? & _ & -> & ->)|[(_ & -> & _)|(_ & Hd)]];
    [by intros [= <- <-]|done|].
  destruct o as [p| |]; [| |done].
  - destruct (submit_finish_ok net (transition_quorum s) head p d1) as (d2 & log2 & ->). done.
  - simpl in Hd. case_bool_decide; by destruct Hd.
Qed.

Lemma transition_refused self eid r s s' log e :
  rpc_transition self eid r s = (s', log, Err e) → s' = s ∧ log = [].
Proof.
  unfold rpc_transition. destruct (roster_head s) as [head| |]; [|by intros [= <- <- _]|done].
  case_match; [by intros [= <- <- _]|]. case_match; [|by intros [= <- <- _]].
  apply with_execution_refused. intros d d' log' Ht.
  destruct (transition_vote_ok self (transition_quorum s) head r d) as (d2 & log2 & Ho). congruence.
Qed.

Lemma deliver_not_refused net eid client_id k s e :
  (deliver_ready_output_waiters net eid client_id k s).2 ≠ Err e.
Proof.
  unfold deliver_ready_output_waiters, output_snapshot. destruct (executions s !! eid) as [d|]; [|done].
  by destruct (ready_output_snapshot net client_id k d) as [d' [[w sh]|]].
Qed.

Lemma send_output_shares_refused net self eid client_id sh s s' log e :
  send_output_shares net self eid client_id sh s = (s', log, Err e) → s' = s ∧ log = [].
Proof.
  unfold send_output_shares. destruct (with_execution eid _ s) as [[s1 log1] r] eqn:Hw.
  destruct r; [intros Hd| |done].
  - by destruct (deliver_not_refused net eid client_id a s1 e); rewrite Hd.
  - intros [= -> -> ->]. eapply with_execution_refused, Hw. intros d d' log' Hst.
    unfold store_output_shares in Hst. by repeat case_match; simplify_eq.
Qed.

Lemma obtain_refused net accept self eid s s' log r :
  obtain_output_shares net accept self eid s = (s', log, r) →
  match r with Ok Subscribed => True | _ => s' = s ∧ log = [] ∨ r = Panic end.
Proof.
  unfold obtain_output_shares. destruct (obtain_check _ _ _ _); [intros [= <- <- <-]; by left|].
  destruct accept as [sink|]; [|intros [= <- <- <-]; by left].
  destruct (obtain_attach net self eid sink s) as [s1 [k|]]; [|by intros [= _ _ <-]].
  pose proof (deliver_not_refused net eid self k s1) as Hn.
  destruct (deliver_ready_output_waiters net eid self k s1) as [[s2 log2] []]; intros [= _ _ <-];
    simpl in *; [done|by destruct (Hn e)|by right].
Qed.

Lemma register_refused self reg delivery s s' log e :
  rpc_register_execution self reg delivery s = (s', log, Err e) →
  (s' = s ∨ room_made s s') ∧ log = [].
Proof.
  unfold rpc_register_execution. case_match; [intros [= <- <- _]; auto|].
  destruct (register_execution reg delivery s) as [s1 r] eqn:Hr. intros [= <- <- Hm].
  split; [|done]. apply register_execution_outcome in Hr.
  destruct Hr; simpl in Hm; simplify_eq; auto.
Qed.

Lemma retire_refused self eid s s' log e :
  rpc_retire_execution self eid s = (s', log, Err e) → s' = s ∧ log = [].
Proof.
  unfold rpc_retire_execution. case_match; [by intros [= <- <- _]|].
  destruct (retire_execution eid self s) as [s1 r] eqn:Hr. intros [= <- <- Hm].
  apply retire_execution_cases in Hr as [(_ & -> & _)|(_ & -> & _)]; done.
Qed.

(** ** One method at a time *)

Lemma done_refused s (o : Outcome unit) :
  (∀ s' log e, o = (s', log, Err e) → s' = s ∧ log = []) →
  refused (sv_reply (done_with o)) → no_trace s (done_with o).
Proof.
  destruct o as [[s' log] []]; simpl; intros Ho Hr; try done. by destruct (Ho s' log e eq_refl) as [-> ->].
Qed.

Lemma sub_events_refused attach accept eid s :
  refused (sv_reply (subscribed (sub_events attach accept eid s))) →
  no_trace s (subscribed (sub_events attach accept eid s)).
Proof.
  unfold sub_events. destruct (executions s !! eid) as [d|]; [|done].
  destruct accept as [sink|]; [|done]. by destruct (attach sink d).
Qed.

Lemma sub_round_refused accept eid r s :
  refused (sv_reply (subscribed (sub_round accept eid r s))) →
  no_trace s (subscribed (sub_round accept eid r s)).
Proof.
  unfold sub_round. destruct (sub_round_check eid r s); [done|]. destruct accept as [sink|]; [|done].
  by destruct (sub_round_attach eid r sink s).
Qed.

Lemma shutdown_refused self s s' fired r :
  rpc_request_shutdown self s = (s', fired, r) → (∃ e, r = Err e) → s' = s ∧ fired = None.
Proof.
  unfold rpc_request_shutdown. intros Hr [e ->]. by repeat case_match; simplify_eq.
Qed.
End refusals.

Create HintDb refusal.
#[export] Hint Resolve reserve_refused submit_refused transition_refused send_output_shares_refused
  retire_refused : refusal.

(** ** Claims *)

Section claims.
Context `{HashOrder}.
Implicit Types (s : Server) (d : Exec).

(** C1: refinement.  The coordinator implements the ledger.  Its state is a
    reachable ledger under the map [ledger], whatever the interleaving of handler
    segments; each segment is one ledger step; and a request that is served
    without interruption is at most one act that the ledger allows its caller,
    followed by the moves quorums allow. *)
Theorem coordinator_implements_ledger s (Hreach : reachable s) :
  ledger_reachable (mpc_nodes s) (t s) (ledger s) ∧
  (∀ s', step s s' → ledger_step (ledger s) (ledger s')) ∧
  (∀ net accept delivery self req,
     requests self (ledger s) (ledger (sv_state (serve net accept delivery self req s)))).
Proof.
  split; [by apply reachable_ledger|]. apply reachable_wf in Hreach. split.
  - intros s'. by apply step_ledger.
  - intros. by apply serve_requests.
Qed.

(** C6: attribution.  Whatever is new in an execution after a request was served
    was written in the caller's name and with the right to: reservations of its own
    slots in the reservation round, inputs into slots it had reserved in the
    collection round, and proposals, output shares and acknowledgements only if it
    is a party of the roster. *)
Theorem requests_write_in_their_callers_name net accept delivery self req s eid d d'
    (Hreach : reachable s) (Hd : executions s !! eid = Some d)
    (Hd' : executions (sv_state (serve net accept delivery self req s)) !! eid = Some d') :
  (∀ i c, reserved_indices d' !! i = Some (Some c) → reserved_indices d !! i = Some (Some c) ∨
     c = self ∧ round d = InputMaskReservation ∧
     ∀ slot, input_assignments d !! i = Some slot → input_slot_client d slot = Some self) ∧
  (∀ i m, masked_inputs d' !! i = Some (Some m) → masked_inputs d !! i = Some (Some m) ∨
     reserved_indices d !! i = Some (Some self) ∧ round d = InputCollection) ∧
  (∀ r v p, transition_votes d' !! r = Some v → p ∈ v → p ∈ default ∅ (transition_votes d !! r) ∨
     p = self ∧ self ∈ mpc_nodes s) ∧
  (∀ c p sh, output_shares d' !! (c, p) = Some sh → output_shares d !! (c, p) = Some sh ∨
     p = self ∧ self ∈ mpc_nodes s ∧ c ∈ output_clients d) ∧
  (∀ p, p ∈ retirement_acks d' → p ∈ retirement_acks d ∨ p = self ∧ self ∈ mpc_nodes s).
Proof.
  apply reachable_wf in Hreach as Hwf. pose proof (sw_execs s Hwf eid d Hd) as (_ & _ & Hdwf).
  destruct (requests_attributed self _ _ eid (board d) (board d')
    (serve_requests net accept delivery self req s Hwf)) as [Ho Hi Hv Hs Hr];
    [by apply ledger_live|by apply ledger_live|]. simpl in *.
  split_and!; [| |done| |done].
  - intros i c Hc. apply lookup_filled_Some in Hc. apply Ho in Hc as [Hc|(-> & Hround & _ & _ & Ha)].
    { left. by apply lookup_filled_Some. }
    right. split_and!; [done..|]. intros slot Hslot. unfold assigned_client in Ha. simpl in Ha.
    pose proof (wf_slot_clients _ _ _ Hdwf) as Hc. rewrite Forall_lookup in Hc.
    destruct (Hc _ _ Hslot) as [c Hc']. rewrite (wf_slots _ _ _ Hdwf) in Hslot.
    rewrite Hslot in Ha. simpl in Ha. unfold input_slot_client in *. rewrite Hc'. f_equal. by apply Ha.
  - intros i m Hm. apply lookup_filled_Some, Hi in Hm as [Hm|[Hm ?]].
    + left. by apply lookup_filled_Some.
    + right. split; [by apply lookup_filled_Some|done].
  - rewrite (wf_output_clients _ _ _ Hdwf). exact Hs.
Qed.

(** C20: an outsider, who is no party and to whom no slot of any execution is open,
    changes nothing that is recorded, whatever it asks for. *)
Theorem outsiders_change_nothing net accept delivery self req s
    (Hreach : reachable s) (Hself : self ∉ mpc_nodes s)
    (Hslots : ∀ eid d i, executions s !! eid = Some d → (N.of_nat i < n_inputs (registration d))%N →
       ∃ slot, input_assignments d !! i = Some slot ∧ input_slot_client d slot ≠ Some self) :
  ledger (sv_state (serve net accept delivery self req s)) = ledger s.
Proof.
  apply reachable_wf in Hreach as Hwf.
  destruct (serve_requests net accept delivery self req s Hwf) as [Heq|(l1 & Ha & _)]; [done|].
  exfalso. destruct Ha as [eid b b' Hb Hw|? ? ? _ _ _|? ? _|? ? ? _ _|? ? ? _ _|? ? Hh _ _ _ _];
    [|done..|by apply list_elem_of_lookup_2 in Hh].
  simpl in Hb. rewrite lookup_fmap in Hb. apply fmap_Some in Hb as (d & Hd & ->).
  pose proof (sw_execs s Hwf eid d Hd) as (_ & _ & Hdwf).
  destruct Hw as [slots _ Hne _ Hmay|inputs _ Hne Hin|? ? _|? ? ? _ _|?]; [| |done..].
  - apply set_choose_L in Hne as [i Hi]. destruct (Hmay i Hi) as (Hlt & _ & Hc).
    destruct (Hslots eid d i Hd Hlt) as (slot & Hslot & Hneq).
    pose proof (wf_slot_clients _ _ _ Hdwf) as Hs. rewrite Forall_lookup in Hs.
    destruct (Hs _ _ Hslot) as [c Hc']. apply Hneq. rewrite Hc'. f_equal. apply Hc.
    unfold assigned_client. simpl. rewrite (wf_slots _ _ _ Hdwf) in Hslot. by rewrite Hslot.
  - apply map_choose in Hne as (i & m & Hi). destruct (Hin i m Hi) as [Ho%lookup_filled_Some _].
    simpl in Ho. assert (N.of_nat i < n_inputs (registration d))%N as Hlt.
    { rewrite <-(wf_reserved_len _ _ _ Hdwf). apply vlen_lt. by eapply lookup_lt_Some. }
    destruct (Hslots eid d i Hd Hlt) as (slot & Hslot & Hneq). by eapply Hneq, wf_owner.
Qed.

(** C17: errors leave no trace.  A request that is refused has sent nothing and
    changed nothing, except that a registration refused for its metadata may have
    displaced a retired execution. *)
Theorem refusals_change_nothing net accept delivery self req s (sv : Served)
    (Hsv : serve net accept delivery self req s = sv) (Href : refused (sv_reply sv)) :
  sv_sent sv = [] ∧ sv_fired sv = None ∧
  (sv_state sv = s ∨ (∃ reg, req = inr (RegisterExecution reg)) ∧ room_made s (sv_state sv)).
Proof.
  subst sv. assert (no_trace s (serve net accept delivery self req s) ∨
    ∃ reg, req = inr (RegisterExecution reg)) as [(? & ? & ?)|[reg ->]]; [|by auto|].
  - destruct req as [[]|[]]; simpl in *; try (by eauto using sub_round_refused, sub_events_refused); left;
      try (by apply done_refused; eauto with refusal); try done.
    + destruct (rpc_request_shutdown self s) as [[s' fired] []] eqn:Hr; try done.
      apply shutdown_refused in Hr as [-> ->]; eauto. done.
    + destruct (obtain_output_shares net accept self eid s) as [[s' log] r] eqn:Ho.
      apply obtain_refused in Ho. destruct r as [[]| |]; try done; by destruct Ho as [[-> ->]|?].
  - simpl in *. destruct (rpc_register_execution self reg delivery s) as [[s' log] []] eqn:Hr; try done.
    apply register_refused in Hr as [[->|Hroom] ->]; simpl; eauto 6.
Qed.

End claims.

(** ** Witnesses *)

(** The sample coordinator in its reservation round. *)
Definition sample_open : Server := vote_all InputMaskReservation sample_preprocessing.

Lemma sample_open_reachable : reachable sample_open.
Proof. do 2 apply vote_all_reachable. apply sample_start_reachable. Qed.

Lemma coordinator_implements_ledger_witness :
  requests client1 (ledger sample_open)
    (ledger (sv_state (serve all_up None 1 client1 (inr (ReserveMaskIndices sample_eid [0%N])) sample_open))).
Proof.
  pose proof (coordinator_implements_ledger sample_open sample_open_reachable) as (_ & _ & Hr).
  apply Hr.
Defined.

Lemma requests_write_in_their_callers_name_witness :
  let req := inr (ReserveMaskIndices sample_eid [0%N]) in
  let s' := sv_state (serve all_up None 1 client1 req sample_open) in
  reserved_indices (sample_get s') !! 0%nat = Some (Some client1) ∧
  (reserved_indices (sample_get sample_open) !! 0%nat = Some (Some client1) ∨
   round (sample_get sample_open) = InputMaskReservation ∧
   ∀ slot, input_assignments (sample_get sample_open) !! 0%nat = Some slot →
     input_slot_client (sample_get sample_open) slot = Some client1).
Proof.
  intros req s'.
  assert (reserved_indices (sample_get s') !! 0%nat = Some (Some client1)) as Hres by by vm_compute.
  split; [exact Hres|].
  edestruct (requests_write_in_their_callers_name all_up None 1 client1 req sample_open sample_eid
    (sample_get sample_open) (sample_get s')) as [Hown _];
    [apply sample_open_reachable|apply sample_get_Some; by vm_compute
    |apply sample_get_Some; by vm_compute|].
  destruct (Hown _ _ Hres) as [Hold|[_ Hnew]]; [by left|by right].
Defined.

(** Both slots of the sample execution belong to clients, so a stranger has none. *)
Definition stranger : ClientIdentity := [Byte.xee].

Definition closed_to (c : ClientIdentity) (d : Exec) : bool :=
  forallb (fun i => match input_assignments d !! i with
                    | Some slot => negb (bool_decide (input_slot_client d slot = Some c))
                    | None => false
                    end) (seq 0 (N.to_nat (n_inputs (registration d)))).

Lemma closed_to_true c d i :
  closed_to c d = true → (N.of_nat i < n_inputs (registration d))%N →
  ∃ slot, input_assignments d !! i = Some slot ∧ input_slot_client d slot ≠ Some c.
Proof.
  unfold closed_to. rewrite forallb_forall. intros Hall Hi. specialize (Hall i).
  destruct (input_assignments d !! i) as [slot|].
  - exists slot. split; [done|]. apply (bool_decide_eq_false _), negb_true_iff, Hall, in_seq. lia.
  - specialize (Hall ltac:(apply in_seq; lia)). done.
Qed.

Lemma outsiders_change_nothing_witness :
  ledger (sv_state (serve all_up None 1 stranger (inr (ReserveMaskIndices sample_eid [0%N])) sample_open))
  = ledger sample_open.
Proof.
  apply outsiders_change_nothing; [apply sample_open_reachable|apply (bool_decide_unpack _); by vm_compute|].
  intros eid d i Hd Hi.
  assert (map_Forall (fun _ d => closed_to stranger d = true) (executions sample_open)) as Hc.
  { apply (bool_decide_unpack _). by vm_compute. }
  by eapply closed_to_true; [eapply Hc|].
Defined.

(** A refusal: the slot belongs to another client. *)
Lemma refusals_change_nothing_witness :
  sv_sent (serve all_up None 1 client2 (inr (ReserveMaskIndices sample_eid [0%N])) sample_open) = [].
Proof.
  apply (refusals_change_nothing all_up None 1 client2 (inr (ReserveMaskIndices sample_eid [0%N]))
    sample_open _ eq_refl). by vm_compute.
Defined.
