(* ===== verification/Inputs.v ===== *)
(** The client side of an execution: reservation of input masks and submission of
    masked inputs, specified exactly. *)
From S2P Require Import Prelude Shared Execution Samples Rounds Sessions Server Rpc ServerSamples.
From S2P Require Import Invariant History Topology Machine.

(** ** When a batch is accepted *)

(** [self] may reserve slot [i]: it exists, is free, and is either unassigned or
    assigned to [self]. *)
Definition may_reserve (self : ClientIdentity) (d : Exec) (i : u64) : Prop :=
  (as_usize i < n_inputs (registration d))%N ∧
  reserved_indices d !! N.to_nat (as_usize i) = Some None ∧
  (∀ slot, input_assignments d !! N.to_nat (as_usize i) = Some slot →
     input_slot_client d slot = Some self).

Definition reservation_allowed (self : ClientIdentity) (d : Exec) (indices : list u64) : Prop :=
  round d = InputMaskReservation ∧ indices ≠ [] ∧
  (∀ k, reserved_indices d !! k ≠ Some (Some self)) ∧
  ∀ i, i ∈ indices → may_reserve self d i.

(** [self] may submit to slot [i]: it reserved the slot and the slot is empty. *)
Definition may_submit (self : ClientIdentity) (d : Exec) (i : u64) : Prop :=
  reserved_indices d !! N.to_nat (as_usize i) = Some (Some self) ∧
  masked_inputs d !! N.to_nat (as_usize i) = Some None.

Definition submission_allowed (self : ClientIdentity) (d : Exec) (inputs : list bytes)
    (indices : list u64) : Prop :=
  round d = InputCollection ∧ length inputs = length indices ∧ indices ≠ [] ∧
  ∀ i, i ∈ indices → may_submit self d i.

Section inputs.
Context (nodes : list ClientIdentity) (q : usize).
Implicit Types d : Exec.

Lemma check_reserve_iff self d i :
  exec_wf nodes q d → check_reserve self d i = Ok tt ↔ may_reserve self d i.
Proof.
  intros Hwf. pose proof (wf_reserved_len _ _ _ Hwf) as Hlen. unfold may_reserve. split.
  - intros (Hlt & Hfree & Hslot)%check_reserve_Ok. by rewrite <-Hlen.
  - intros (Hlt & Hfree & Hslot). unfold check_reserve. rewrite Hlen.
    rewrite (proj2 (N.leb_gt _ _) Hlt). simpl. unfold index. rewrite Hfree. simpl.
    destruct (input_assignments d !! _) as [slot|]; [|done].
    by rewrite bool_decide_true by auto.
Qed.

Lemma existsb_owner_false self (l : list (option ClientIdentity)) :
  existsb (fun owner => bool_decide (owner = Some self)) l = false ↔
  ∀ k, l !! k ≠ Some (Some self).
Proof.
  rewrite <-not_true_iff_false, existsb_exists. setoid_rewrite bool_decide_eq_true.
  setoid_rewrite <-list_elem_of_In. setoid_rewrite list_elem_of_lookup. naive_solver.
Qed.

Lemma check_reserve_batch_iff self d indices :
  exec_wf nodes q d → check_reserve_batch self d indices = Ok tt ↔ reservation_allowed self d indices.
Proof.
  intros Hwf. unfold reservation_allowed. split.
  - intros (? & ? & ? & Hall)%check_reserve_batch_Ok. split_and!; [done..|].
    intros i Hi. rewrite Forall_forall in Hall. by apply check_reserve_iff, Hall.
  - intros (Hr & Hne & Hown & Hall). unfold check_reserve_batch.
    rewrite (bool_decide_true (round d = _)), (bool_decide_false (indices = [])) by done. simpl.
    rewrite (proj2 (existsb_owner_false _ _)) by done. simpl.
    apply for_each_Ok_inv, Forall_forall. intros i Hi. by apply check_reserve_iff, Hall.
Qed.

Lemma check_submit_iff self d i :
  exec_wf nodes q d → check_submit self d i = Ok tt ↔ may_submit self d i.
Proof.
  intros Hwf. unfold may_submit. split; [by intros (? & ? & ?)%check_submit_Ok|].
  intros [Hown Hfree]. unfold check_submit, index. rewrite Hown, Hfree. simpl.
  rewrite bool_decide_true by done. apply lookup_lt_Some in Hfree.
  rewrite (proj2 (N.leb_gt (vlen (masked_inputs d)) _)) by (unfold vlen; lia). done.
Qed.

Lemma check_submit_batch_iff self d inputs indices :
  exec_wf nodes q d →
  check_submit_batch self d inputs indices = Ok tt ↔ submission_allowed self d inputs indices.
Proof.
  intros Hwf. unfold submission_allowed. split.
  - intros (? & ? & ? & Hall)%check_submit_batch_Ok. split_and!; [done..|].
    intros i Hi. rewrite Forall_forall in Hall. by apply check_submit_iff, Hall.
  - intros (Hr & Hlen & Hne & Hall). unfold check_submit_batch, vlen.
    rewrite (bool_decide_true (round d = _)), (bool_decide_false (indices = [])), Hlen, N.eqb_refl
      by done. simpl.
    apply for_each_Ok_inv, Forall_forall. intros i Hi. by apply check_submit_iff, Hall.
Qed.

(** ** Counting reservations *)

(** The counter agrees with the slots. *)
Definition counted (d : Exec) : Prop := n_reserved d = N.of_nat (count_some (reserved_indices d)).

Lemma count_some_insert {A} (l : list (option A)) (k : nat) (v : A) :
  l !! k = Some None → count_some (<[k := Some v]> l) = S (count_some l).
Proof.
  revert k. induction l as [|o l IH]; intros [|k] Hk; simplify_eq/=; [done|].
  destruct o as [a|]; unfold count_some in *.
  - rewrite !filter_cons_True by eauto. simpl. by rewrite IH.
  - rewrite !filter_cons_False by (by intros []). by apply IH.
Qed.

Lemma count_some_none {A} (l : list (option A)) : count_some l + count_none l = length l.
Proof.
  unfold count_some, count_none. induction l as [|[a|] l IH]; [done|..].
  - rewrite filter_cons_True, filter_cons_False by (done || eauto). simpl. lia.
  - rewrite filter_cons_False, filter_cons_True by (done || by intros []). simpl. lia.
Qed.

Lemma count_some_fill {A} (v : A) ix l :
  NoDup ix → (∀ i, i ∈ ix → l !! N.to_nat i = Some None) →
  count_some (fill v ix l) = count_some l + length ix.
Proof.
  revert l. induction ix as [|i ix IH]; intros l Hnd Hfree; simpl; [lia|].
  apply NoDup_cons in Hnd as [Hi Hnd]. unfold fill in *. simpl. rewrite IH; [|done|].
  - rewrite count_some_insert by (apply Hfree; left). lia.
  - intros j Hj. rewrite list_lookup_insert_ne; [apply Hfree; by right|].
    intros Heq%N2Nat.inj. by subst.
Qed.

Lemma bump_small k indices :
  (k + vlen indices < u64_modulus)%N → bump k indices = (k + vlen indices)%N.
Proof.
  unfold bump, vlen. revert k. induction indices as [|i indices IH]; intros k Hk; simpl in *; [lia|].
  unfold u64_add, u64_wrap. rewrite N.mod_small by lia. rewrite IH by lia. lia.
Qed.

Lemma reserve_counted net self indices d d' log r :
  exec_wf nodes q d → counted d → NoDup (as_usize <$> indices) →
  reserve_batch net self indices d = (d', log, r) → counted d'.
Proof.
  intros Hwf Hc Hnd Hr.
  apply reserve_batch_cases in Hr as [(e & _ & _ & -> & _)|[(_ & _ & -> & _)|(Hok & _ & Hd)]];
    [done..|].
  apply check_reserve_batch_iff in Hok; [|done]. destruct Hok as (_ & _ & _ & Hall).
  assert (count_some (fill self (as_usize <$> indices) (reserved_indices d)) =
    count_some (reserved_indices d) + length indices) as Hfill.
  { rewrite <-(length_fmap as_usize). apply count_some_fill; [done|].
    intros i (j & -> & Hj)%list_elem_of_fmap. by apply Hall. }
  pose proof (count_some_none (fill self (as_usize <$> indices) (reserved_indices d))) as Hle.
  rewrite length_fill in Hle. pose proof (wf_reserved_len _ _ _ Hwf) as Hlen.
  pose proof (wf_n_inputs _ _ _ Hwf) as Hw.
  assert (counted (reserved_state self indices d)) as Hcs.
  { unfold counted in *. simpl. unfold vlen in *. rewrite bump_small, Hfill; unfold vlen; lia. }
  simpl in Hd. case_bool_decide; by destruct Hd as [-> _].
Qed.
End inputs.

(** ** The handlers *)

Lemma with_execution_run {A} eid (f : Exec → Exec * list Send * result ErrorObject A) s d :
  executions s !! eid = Some d →
  with_execution eid f s = (put_execution eid (f d).1.1 s, (f d).1.2, (f d).2).
Proof.
  intros Hd. unfold with_execution, execution_state. rewrite Hd. simpl. by destruct (f d) as [[??]?].
Qed.

Lemma put_execution_id eid d s : executions s !! eid = Some d → put_execution eid d s = s.
Proof.
  intros Hd. unfold put_execution. destruct s. simpl in *. unfold upd. simpl.
  by rewrite insert_id.
Qed.

(** Two coordinators that agree on everything but one execution. *)
Definition same_but_execution (eid : ExecutionId) (s s' : Server) : Prop :=
  ∃ d', s' = put_execution eid d' s.

(** The finishing segment keeps what was recorded and leaves the rounds settled. *)
Lemma submit_finish_frame net quorum head p d :
  ∃ d' log, submit_finish net quorum head p d = (d', log, Ok tt) ∧
    masked_inputs d' = masked_inputs d ∧ masked_input_events d' = masked_input_events d ∧
    reserved_indices d' = reserved_indices d ∧ transition_votes d' = transition_votes d ∧
    registration d' = registration d ∧ input_assignments d' = input_assignments d ∧
    settled quorum d'.
Proof.
  unfold submit_finish. match goal with |- context [try_advance _ _ ?x] => set (d1 := x) end.
  destruct (try_advance_ok quorum head d1) as (d2 & dels & -> & Hadv & Hset).
  pose proof (adv_frame _ _ _ _ _ Hadv) as Hf. unfold same_but_round in Hf.
  eexists _, _. split; [done|]. split_and!; [..|done].
  - exact (f_equal masked_inputs Hf).
  - exact (f_equal masked_input_events Hf).
  - exact (f_equal reserved_indices Hf).
  - exact (f_equal transition_votes Hf).
  - exact (f_equal registration Hf).
  - exact (f_equal input_assignments Hf).
Qed.

(** The slots after an accepted batch. *)
Lemma submitted_slots self d inputs indices (k : nat) :
  check_submit_batch self d inputs indices = Ok tt →
  let after := fill_pairs (prod_map as_usize id <$> zip indices inputs) (masked_inputs d) in
  if decide (N.of_nat k ∈ as_usize <$> indices)
  then ∃ raw m, (raw, m) ∈ zip indices inputs ∧ as_usize raw = N.of_nat k ∧
         after !! k = Some (Some m)
  else after !! k = masked_inputs d !! k.
Proof.
  intros (_ & Hlen & _ & Hall)%check_submit_batch_Ok after.
  assert ((prod_map as_usize id <$> zip indices inputs).*1 = as_usize <$> indices) as Hfst.
  { rewrite <-list_fmap_compose. rewrite <-(fst_zip indices inputs) at 2 by lia.
    rewrite <-list_fmap_compose. by apply list_fmap_ext. }
  case_decide as Hk.
  - assert (k < length (masked_inputs d)) as Hlt.
    { apply list_elem_of_fmap in Hk as (i & Hi & Hin). rewrite Forall_forall in Hall.
      destruct (check_submit_Ok _ _ _ (Hall _ Hin)) as (Hlt & _). apply vlen_lt. by rewrite Hi. }
    rewrite <-Hfst in Hk. destruct (lookup_fill_pairs_elem _ (masked_inputs d) k Hk Hlt)
      as (m & ([raw m'] & [= Hraw ->] & Hin)%list_elem_of_fmap & Hm).
    exists raw, m'. split_and!; done.
  - subst after. rewrite lookup_fill_pairs_ne; [done|]. by rewrite Hfst.
Qed.

(** Submission on every branch; see [submit_masked_inputs_exact]. *)
Lemma submit_masked_inputs_spec `{HashOrder} net self eid inputs indices s d s' log r
    (Hreach : reachable s) (Hd : executions s !! eid = Some d)
    (Hcall : submit_masked_inputs net self eid inputs indices s = (s', log, r)) :
  (r = Ok tt ↔ submission_allowed self d inputs indices) ∧
  (r ≠ Ok tt → s' = s ∧ log = []) ∧
  (r = Ok tt → ∃ d', s' = put_execution eid d' s ∧
     (∀ k, if decide (N.of_nat k ∈ as_usize <$> indices)
           then ∃ raw m, (raw, m) ∈ zip indices inputs ∧ as_usize raw = N.of_nat k ∧
                  masked_inputs d' !! k = Some (Some m)
           else masked_inputs d' !! k = masked_inputs d !! k) ∧
     masked_input_events d' =
       masked_input_events d ++ [MaskedInputEvent self (zip indices inputs)] ∧
     reserved_indices d' = reserved_indices d ∧ transition_votes d' = transition_votes d ∧
     registration d' = registration d ∧ input_assignments d' = input_assignments d ∧
     settled (transition_quorum s) d').
Proof.
  pose proof (reachable_exec_wf _ _ _ Hreach Hd) as Hwf.
  destruct (roster_head_Ok s (sw_topology s (reachable_wf s Hreach))) as (head & Hhead & _).
  unfold submit_masked_inputs in Hcall. rewrite Hhead in Hcall. simpl in Hcall.
  rewrite (with_execution_run _ _ _ d Hd) in Hcall.
  pose proof (submit_commit_no_panic _ _ self inputs indices d Hwf) as Hnp.
  destruct (submit_commit self inputs indices d) as [d1 r1] eqn:Hc. simpl in Hnp.
  rewrite <-(check_submit_batch_iff _ _ self d inputs indices Hwf).
  apply submit_commit_cases in Hc as [(e & Hc & -> & ->)|[(Hc & -> & ->)|(Hc & Hd1)]]; [|done|].
  { simpl in Hcall. injection Hcall as <- <- <-. rewrite Hc.
    split_and!; [done| |done]. by rewrite put_execution_id. }
  assert (∃ p, r1 = Ok p ∧ masked_inputs d1 =
      fill_pairs (prod_map as_usize id <$> zip indices inputs) (masked_inputs d) ∧
    masked_input_events d1 =
      masked_input_events d ++ [MaskedInputEvent self (zip indices inputs)] ∧
    reserved_indices d1 = reserved_indices d ∧ transition_votes d1 = transition_votes d ∧
    registration d1 = registration d ∧ input_assignments d1 = input_assignments d)
    as (p & -> & Hm1 & He1 & Hr1 & Hv1 & Hg1 & Hi1).
  { simpl in Hd1. case_bool_decide; destruct Hd1 as [-> ->]; by eexists. }
  destruct (submit_finish_frame net (transition_quorum s) head p d1)
    as (d2 & log' & Hfin & Hm & He & Hres & Hvotes & Hreg & Hia & Hset).
  rewrite Hfin in Hcall. simpl in Hcall. injection Hcall as <- <- <-.
  rewrite Hc. split_and!; [done|done|]. intros _. exists d2.
  rewrite Hm, He, Hres, Hvotes, Hreg, Hia, Hm1. split_and!; [done| |done..].
  intros k. by eapply submitted_slots.
Qed.

(** ** Claims *)

(** C16: reservation is exact and atomic.  A batch is accepted precisely when the
    execution is in the reservation round, the client holds nothing yet, and every
    index names a free slot that is unassigned or assigned to this client.  Then
    the client owns exactly the slots of the batch in addition, the reservation is
    announced once, and nothing else changes; otherwise nothing changes at all and
    nothing is sent. *)
Theorem reserve_mask_indices_exact net self eid indices s d s' log r
    (Hwf : exec_wf (mpc_nodes s) (transition_quorum s) d) (Hd : executions s !! eid = Some d)
    (Hcall : reserve_mask_indices net self eid indices s = (s', log, r)) :
  (r = Ok tt ↔ reservation_allowed self d indices) ∧
  (r ≠ Ok tt → s' = s ∧ log = []) ∧
  (r = Ok tt → ∃ d', s' = put_execution eid d' s ∧
     (∀ k, reserved_indices d' !! k =
        if decide (N.of_nat k ∈ as_usize <$> indices) then Some (Some self)
        else reserved_indices d !! k) ∧
     reserved_index_events d' = reserved_index_events d ++ [ReservedInputEvent self indices] ∧
     masked_inputs d' = masked_inputs d ∧ round d' = round d ∧
     transition_votes d' = transition_votes d ∧ output_shares d' = output_shares d).
Proof.
  unfold reserve_mask_indices in Hcall. rewrite (with_execution_run _ _ _ d Hd) in Hcall.
  destruct (reserve_batch net self indices d) as [[d' log'] r'] eqn:Hr. simpl in Hcall.
  injection Hcall as <- <- <-. rewrite <-(check_reserve_batch_iff _ _ self d indices Hwf).
  apply reserve_batch_cases in Hr as [(e & Hc & -> & -> & ->)|[(Hc & -> & -> & ->)|(Hc & -> & Hd')]];
    rewrite Hc; [by rewrite put_execution_id by done..|].
  split_and!; [done|done|]. intros _. exists d'. split; [done|].
  pose proof (check_reserve_batch_Ok _ _ _ _ Hc) as (_ & _ & _ & Hall).
  assert (∀ k, fill self (as_usize <$> indices) (reserved_indices d) !! k =
    if decide (N.of_nat k ∈ as_usize <$> indices) then Some (Some self)
    else reserved_indices d !! k) as Hfill.
  { intros k. rewrite lookup_fill. apply decide_ext. split; [naive_solver|].
    intros Hk. split; [done|]. apply list_elem_of_fmap in Hk as (i & Hi & Hin).
    rewrite Forall_forall in Hall. destruct (check_reserve_Ok _ _ _ (Hall _ Hin)) as (Hlt & _ & _).
    apply vlen_lt. by rewrite Hi. }
  simpl in Hd'. case_bool_decide; by destruct Hd' as [-> _].
Qed.

(** Points of the sample run in which reservations and submissions are open. *)
Definition sample_reserving : Server := vote_all InputMaskReservation sample_preprocessing.
Definition sample_collecting_run : Server :=
  vote_all InputCollection
    (reserve_mask_indices all_up client2 sample_eid [1%N]
       (reserve_mask_indices all_up client1 sample_eid [0%N] sample_reserving).1.1).1.1.

Lemma sample_reserving_reachable : reachable sample_reserving.
Proof. do 2 apply vote_all_reachable. apply sample_start_reachable. Qed.

Lemma sample_collecting_run_reachable : reachable sample_collecting_run.
Proof.
  apply vote_all_reachable. do 2 (eapply reach_step; [|eapply step_reserve, outcome_eta]).
  apply sample_reserving_reachable.
Qed.

Lemma reserve_mask_indices_exact_witness :
  (reserve_mask_indices all_up client1 sample_eid [0%N] sample_reserving).2 = Ok tt ↔
  reservation_allowed client1 (sample_get sample_reserving) [0%N].
Proof.
  apply (reserve_mask_indices_exact all_up client1 sample_eid [0%N] sample_reserving
    (sample_get sample_reserving) (reserve_mask_indices all_up client1 sample_eid [0%N] sample_reserving).1.1
    (reserve_mask_indices all_up client1 sample_eid [0%N] sample_reserving).1.2).
  - eapply reachable_exec_wf; [apply sample_reserving_reachable|]. apply sample_get_Some. by vm_compute.
  - apply sample_get_Some. by vm_compute.
  - apply outcome_eta.
Defined.

(** C21: submission is exact and atomic.  A batch is accepted precisely when the
    execution collects inputs, there are as many inputs as indices and at least
    one, and every index names a slot this client reserved and has not filled.
    Then every slot of the batch holds one of the inputs given for it, no other
    slot changes, the submission is recorded once in the history, and the rounds
    are re-checked until no move is possible; otherwise nothing changes at all and
    nothing is sent. *)
Theorem submit_masked_inputs_exact `{HashOrder} net self eid inputs indices s d s' log r
    (Hreach : reachable s) (Hd : executions s !! eid = Some d)
    (Hcall : submit_masked_inputs net self eid inputs indices s = (s', log, r)) :
  (r = Ok tt ↔ submission_allowed self d inputs indices) ∧
  (r ≠ Ok tt → s' = s ∧ log = []) ∧
  (r = Ok tt → ∃ d', s' = put_execution eid d' s ∧
     (∀ k, if decide (N.of_nat k ∈ as_usize <$> indices)
           then ∃ raw m, (raw, m) ∈ zip indices inputs ∧ as_usize raw = N.of_nat k ∧
                  masked_inputs d' !! k = Some (Some m)
           else masked_inputs d' !! k = masked_inputs d !! k) ∧
     masked_input_events d' =
       masked_input_events d ++ [MaskedInputEvent self (zip indices inputs)] ∧
     reserved_indices d' = reserved_indices d ∧ transition_votes d' = transition_votes d ∧
     settled (transition_quorum s) d').
Proof.
  destruct (submit_masked_inputs_spec _ _ _ _ _ _ _ _ _ _ Hreach Hd Hcall) as (Hiff & Hbad & Hok).
  split_and!; [done..|]. intros (d' & -> & Hslots & He & Hr & Hv & _ & _ & Hs)%Hok. by exists d'.
Qed.

Lemma submit_masked_inputs_exact_witness :
  (submit_masked_inputs all_up client1 sample_eid [[Byte.x10]] [0%N] sample_collecting_run).2 = Ok tt ↔
  submission_allowed client1 (sample_get sample_collecting_run) [[Byte.x10]] [0%N].
Proof.
  pose (o := submit_masked_inputs all_up client1 sample_eid [[Byte.x10]] [0%N] sample_collecting_run).
  apply (submit_masked_inputs_exact all_up client1 sample_eid [[Byte.x10]] [0%N] sample_collecting_run
    (sample_get sample_collecting_run) o.1.1 o.1.2).
  - apply sample_collecting_run_reachable.
  - apply sample_get_Some. by vm_compute.
  - apply outcome_eta.
Defined.

(** As long as the indices of a batch are distinct, the reservation counter
    agrees with the slots, so that the number of available masks reported to
    clients is the number of free slots. *)
Theorem distinct_reservations_counted nodes q net self indices d d' log r
    (Hwf : exec_wf nodes q d) (Hcounted : counted d) (Hdistinct : NoDup (as_usize <$> indices))
    (Hcall : reserve_batch net self indices d = (d', log, r)) :
  counted d' ∧
  u64_sub (vlen (masked_inputs d')) (n_reserved d') = N.of_nat (count_none (reserved_indices d')).
Proof.
  assert (exec_wf nodes q d') as Hwf' by (by eapply reserve_batch_wf).
  assert (counted d') as Hc by (by eapply (reserve_counted nodes q net self indices d)). split; [done|].
  pose proof (count_some_none (reserved_indices d')) as Hsum.
  pose proof (wf_reserved_len _ _ _ Hwf') as Hl1. pose proof (wf_masked_len _ _ _ Hwf') as Hl2.
  pose proof (wf_n_inputs _ _ _ Hwf') as Hw. unfold counted in Hc. unfold u64_sub, u64_wrap, vlen in *.
  replace (N.of_nat (length (masked_inputs d')) + u64_modulus - n_reserved d')%N
    with (N.of_nat (count_none (reserved_indices d')) + 1 * u64_modulus)%N by lia.
  rewrite N.Div0.mod_add. apply N.mod_small. lia.
Qed.

Lemma distinct_reservations_counted_witness :
  counted (reserve_batch all_up client1 [0%N] (sample_get sample_reserving)).1.1.
Proof.
  pose (o := reserve_batch all_up client1 [0%N] (sample_get sample_reserving)).
  refine (proj1 (distinct_reservations_counted parties 3 all_up client1 [0%N]
    (sample_get sample_reserving) o.1.1 o.1.2 o.2 _ _ _ (outcome_eta o))).
  - apply (reachable_exec_wf sample_reserving sample_eid); [apply sample_reserving_reachable|].
    apply sample_get_Some. by vm_compute.
  - reflexivity.
  - apply NoDup_singleton.
Defined.

(** An index repeated inside one reservation batch is not detected: the batch
    is accepted, the counter counts the slot twice, and the number of available
    masks wraps around to [2^64 - 1] although the only slot is taken. *)
Theorem repeated_reservation_miscounts :
  let reg := mkExecutionRegistration sample_eid sample_hash 1 [] InputAssignment_default 3 in
  let s := (rpc_register_execution party1 reg 1 sample_server).1.1 in
  let s := vote_all InputMaskReservation (vote_all Preprocessing s) in
  let '(s', _, r) := reserve_mask_indices all_up client1 sample_eid [0; 0]%N s in
  r = Ok tt ∧ available_input_masks sample_eid s' = Ok (2 ^ 64 - 1)%N.
Proof. vm_compute. split; reflexivity. Qed.

(** An index repeated inside one submission batch is not detected either: the
    second value silently replaces the first, while the event announces both. *)
Theorem repeated_submission_overwrites :
  let '(s', _, r) := submit_masked_inputs all_up client1 sample_eid [[Byte.x10]; [Byte.x66]] [0; 0]%N
                       sample_collecting_run in
  r = Ok tt ∧
  masked_inputs (sample_get s') = [Some [Byte.x66]; None] ∧
  masked_input_events (sample_get s') =
    [MaskedInputEvent client1 [(0%N, [Byte.x10]); (0%N, [Byte.x66])]].
Proof. vm_compute. split_and!; reflexivity. Qed.

(** The input rounds can be skipped although the execution has client inputs:
    a quorum that proposes [MPCExecution] during [Preprocessing] starts the program
    with every input slot empty. *)
Theorem quorum_skips_nonempty_input_rounds :
  reachable (vote_all MPCExecution sample_preprocessing) ∧
  let d := sample_get (vote_all MPCExecution sample_preprocessing) in
  round d = MPCExecution ∧ n_inputs (registration d) = 2%N ∧ masked_inputs d = [None; None].
Proof.
  split; [apply vote_all_reachable, vote_all_reachable, sample_start_reachable|].
  vm_compute. split_and!; reflexivity.
Qed.
