(* ===== verification/Votes.v ===== *)
(** Round transitions by quorum: the proposal handler specified exactly, and the
    progress a quorum of proposals makes. *)
From S2P Require Import Prelude Shared Execution Samples Rounds Sessions Server Rpc ServerSamples.
From S2P Require Import Invariant History Topology Machine Inputs.

(** The vote as a state change. *)
Definition with_vote (self : ClientIdentity) (r : Round) (d : Exec) : Exec :=
  d <| transition_votes ::= <[r := {[self]} ∪ default ∅ (transition_votes d !! r)]> |>.

Lemma transition_vote_cases self quorum head r d :
  ∃ d' log, transition_vote self quorum head r d = (d', log, Ok tt) ∧
    (((round_index r <= round_index (round d))%N ∧ d' = d ∧ log = []) ∨
     ((round_index (round d) < round_index r)%N ∧ ∃ dels,
        advanced quorum head (with_vote self r d) d' dels ∧ settled quorum d' ∧
        log = deliver_transitions dels)).
Proof.
  unfold transition_vote. destruct (_ <=? _)%N eqn:Hle; reflect_bool; [naive_solver|].
  fold (with_vote self r d).
  destruct (try_advance_ok quorum head (with_vote self r d)) as (d' & dels & -> & Hadv & Hset).
  naive_solver.
Qed.

(** What the proposals of [ps] for the round [r] leave behind: the round was
    reached, or it is still the next one and they are all recorded. *)
Definition proposals_recorded (d0 d : Exec) (r : Round) (ps : list ClientIdentity) : Prop :=
  (round_index r <= round_index (round d))%N ∨
  (round d = round d0 ∧ masked_inputs d = masked_inputs d0 ∧
   ∃ voters, transition_votes d !! r = Some voters ∧ list_to_set ps ⊆ voters).

Lemma proposal_recorded quorum head self r d0 d ps d' log :
  round_before r = Some (round d0) →
  (proposals_recorded d0 d r ps ∨ (ps = [] ∧ d = d0)) →
  transition_vote self quorum head r d = (d', log, Ok tt) →
  proposals_recorded d0 d' r (self :: ps) ∧
  ((round_index (round d) < round_index r)%N → settled quorum d').
Proof.
  intros Hbefore Hrec Ht.
  assert (round_index r = round_index (round d0) + 1)%N as Hidx.
  { destruct r, (round d0); simplify_eq/=; done. }
  destruct (transition_vote_cases self quorum head r d) as (d1 & log1 & Heq & Hcase).
  rewrite Ht in Heq. injection Heq as <- <-.
  destruct Hcase as [(Hle & -> & _)|(Hlt & dels & Hadv & Hset & _)].
  { split; [by left|]. lia. }
  split; [|done].
  assert (round d = round d0 ∧ masked_inputs d = masked_inputs d0 ∧
    list_to_set ps ⊆ default ∅ (transition_votes d !! r)) as (Hr & Hm & Hv).
  { destruct Hrec as [[?|(? & ? & v & Hv & ?)]|[-> ->]]; [lia| |].
    - rewrite Hv. done.
    - split_and!; [done..|]. set_solver. }
  destruct (round_run_index _ _ _ _ _ (adv_run _ _ _ _ _ Hadv)) as [Hidx' Hgt]. simpl in Hidx'.
  destruct (same_but_round_fields _ _ (adv_frame _ _ _ _ _ Hadv)) as (Hvotes & Hmask & _).
  destruct (entered dels) as [|r1 rs] eqn:Hent.
  - pose proof (adv_run _ _ _ _ _ Hadv) as Hrun. rewrite Hent in Hrun. inversion Hrun; subst.
    right. simpl in *. split_and!; [congruence|congruence|].
    rewrite Hvotes. rewrite lookup_insert_eq. eexists. split; [done|]. set_solver.
  - left. simpl in Hidx'. rewrite Hr in Hidx'. lia.
Qed.

(** Proposals one after the other, in the order of the list. *)
Definition propose_all (eid : ExecutionId) (r : Round) (ps : list ClientIdentity) (s : Server)
    : Server :=
  foldl (fun s p => (rpc_transition p eid r s).1.1) s ps.

Lemma rpc_transition_run self eid r s d head :
  roster_head s = Ok head → self ∈ mpc_nodes s → r ≠ Idle → executions s !! eid = Some d →
  rpc_transition self eid r s =
    (put_execution eid (transition_vote self (transition_quorum s) head r d).1.1 s,
     (transition_vote self (transition_quorum s) head r d).1.2,
     (transition_vote self (transition_quorum s) head r d).2).
Proof.
  intros Hh Hs Hr Hd. unfold rpc_transition. rewrite Hh.
  rewrite (proj2 (contains_true _ _) Hs). simpl.
  destruct (round_before_Some r Hr) as [b ->]. by apply with_execution_run.
Qed.

Lemma propose_all_recorded head eid r d0 ps s d seen :
  roster_head s = Ok head → r ≠ Idle → round_before r = Some (round d0) →
  (∀ p, p ∈ ps → p ∈ mpc_nodes s) → executions s !! eid = Some d →
  (proposals_recorded d0 d r seen ∨ (seen = [] ∧ d = d0)) →
  ((round_index (round d) < round_index r)%N → seen = [] ∨ settled (transition_quorum s) d) →
  ps ≠ [] ∨ seen ≠ [] →
  ∃ d', executions (propose_all eid r ps s) !! eid = Some d' ∧
    proposals_recorded d0 d' r (reverse ps ++ seen) ∧
    ((round_index (round d') < round_index r)%N → settled (transition_quorum s) d').
Proof.
  intros Hh Hr Hb. revert s d seen Hh.
  induction ps as [|p ps IH]; intros s d seen Hh Hin Hd Hrec Hset Hne.
  { exists d. simpl. split; [done|]. destruct Hne as [|Hne]; [done|].
    split; [naive_solver|]. naive_solver. }
  assert (p ∈ mpc_nodes s) as Hp by (apply Hin; left).
  simpl. rewrite (rpc_transition_run p eid r s d head) by done. simpl.
  destruct (transition_vote_cases p (transition_quorum s) head r d) as (d1 & log & Ht & _).
  rewrite Ht. simpl.
  destruct (proposal_recorded _ _ _ _ d0 d seen d1 log Hb Hrec Ht) as [Hrec1 Hset1].
  assert ((round_index (round d1) < round_index r)%N → settled (transition_quorum s) d1) as Hset1'.
  { intros Hlt. destruct (decide (round_index (round d) < round_index r)%N) as [|Hge]; [auto|].
    exfalso. destruct (transition_vote_cases p (transition_quorum s) head r d)
      as (? & ? & Heq & [(? & -> & _)|(? & _)]); [|lia]. rewrite Ht in Heq. simplify_eq. }
  destruct (IH (put_execution eid d1 s) d1 (p :: seen)) as (d' & Hd' & Hrec' & Hset');
    [done|by intros ? ?; apply Hin; right|apply put_execution_lookup|by left|auto|by right|].
  exists d'. split; [done|]. split; [|done].
  by rewrite reverse_cons, <-app_assoc.
Qed.

(** ** Claims *)

(** C23: progress by quorum.  Once a transition quorum of distinct parties has
    proposed the next round, in whatever order, the execution has entered it,
    provided the inputs are complete when that round is [MPCExecution]; so [t]
    silent parties cannot hold an execution back. *)
Theorem quorum_of_proposals_advances s eid d r ps
    (Hwf : server_wf s) (Hd : executions s !! eid = Some d)
    (Hnext : round_before r = Some (round d)) (Hparties : ∀ p, p ∈ ps → p ∈ mpc_nodes s)
    (Hdistinct : NoDup ps) (Hquorum : (transition_quorum s <= vlen ps)%N)
    (Hinputs : r = MPCExecution → inputs_complete d) :
  ∃ d', executions (propose_all eid r ps s) !! eid = Some d' ∧
    (round_index r <= round_index (round d'))%N.
Proof.
  destruct (roster_head_Ok s (sw_topology s Hwf)) as (head & Hh & _).
  assert (1 <= transition_quorum s)%N as Hq1.
  { rewrite (transition_quorum_eq s (sw_topology s Hwf)). lia. }
  assert (r ≠ Idle) as Hr by (by intros ->).
  assert (ps ≠ []) as Hne by (intros ->; unfold vlen in Hquorum; simpl in *; lia).
  destruct (propose_all_recorded head eid r d ps s d []) as (d' & Hd' & Hrec & Hset);
    [done..|by right|by left|by left|].
  exists d'. split; [done|]. destruct Hrec as [|(Hround & Hmask & voters & Hv & Hsub)]; [done|].
  exfalso. rewrite app_nil_r in Hsub.
  assert (has_quorum (transition_quorum s) (transition_votes d') r) as Hq.
  { exists voters. split; [done|].
    assert (size (list_to_set ps : gset ClientIdentity) ≤ size voters) as Hsz.
    { apply subseteq_size. etrans; [|exact Hsub]. intros x.
      by rewrite !elem_of_list_to_set, elem_of_reverse. }
    rewrite size_list_to_set in Hsz by done. unfold vlen in Hquorum. lia. }
  assert (legal_move (round d') r) as Hm by (rewrite Hround; by apply move_next).
  pose proof (legal_move_index _ _ Hm) as Hlt.
  destruct (settled_cases _ _ (Hset Hlt)) as [Hno|(Hic & _ & Hinc)]; [by eapply Hno|].
  apply Hinc. unfold inputs_complete in *. rewrite Hmask. apply Hinputs.
  rewrite <-Hround, Hic in Hnext. by destruct r; simplify_eq/=.
Qed.

Lemma quorum_of_proposals_advances_witness :
  ∃ d', executions (propose_all sample_eid Preprocessing [party4; party2; party3] sample_start)
          !! sample_eid = Some d' ∧ (1 <= round_index (round d'))%N.
Proof.
  apply (quorum_of_proposals_advances sample_start sample_eid (sample_get sample_start) Preprocessing
    [party4; party2; party3]).
  - apply reachable_wf, sample_start_reachable.
  - apply sample_get_Some. by vm_compute.
  - reflexivity.
  - intros p Hp. apply (bool_decide_unpack _). apply list_elem_of_In in Hp.
    simpl in Hp. destruct Hp as [<-|[<-|[<-|[]]]]; by vm_compute.
  - apply (bool_decide_unpack _). by vm_compute.
  - by vm_compute.
  - discriminate.
Defined.

(** The proposal handler on every branch.  A stranger, the round [Idle] and an
    unknown execution are refused with the matching error and no effect; a
    proposal for a round already reached is acknowledged without effect; any other
    proposal adds the caller's single vote and runs the rounds until none can be
    entered, announcing exactly the rounds entered. *)
Theorem rpc_transition_exact s self eid r s' log res
    (Hwf : server_wf s) (Hcall : rpc_transition self eid r s = (s', log, res)) :
  (self ∉ mpc_nodes s ∧ res = Err (server_error NotParty) ∧ s' = s ∧ log = []) ∨
  (self ∈ mpc_nodes s ∧ r = Idle ∧ res = Err invalid_params ∧ s' = s ∧ log = []) ∨
  (self ∈ mpc_nodes s ∧ r ≠ Idle ∧ executions s !! eid = None ∧
     res = Err (server_error ExecutionNotFound) ∧ s' = s ∧ log = []) ∨
  (∃ d, self ∈ mpc_nodes s ∧ executions s !! eid = Some d ∧
     (round_index r <= round_index (round d))%N ∧ res = Ok tt ∧ s' = s ∧ log = []) ∨
  (∃ d d' head dels, self ∈ mpc_nodes s ∧ executions s !! eid = Some d ∧
     (round_index (round d) < round_index r)%N ∧ roster_head s = Ok head ∧ res = Ok tt ∧
     s' = put_execution eid d' s ∧ log = deliver_transitions dels ∧
     advanced (transition_quorum s) head (with_vote self r d) d' dels ∧
     settled (transition_quorum s) d').
Proof.
  destruct (roster_head_Ok s (sw_topology s Hwf)) as (head & Hh & _).
  destruct (decide (self ∈ mpc_nodes s)) as [Hs|Hs].
  2: { left. unfold rpc_transition in Hcall. rewrite Hh in Hcall. simpl in Hcall.
       rewrite (proj2 (contains_false _ _) Hs) in Hcall.
       simpl in Hcall. by simplify_eq. }
  right. destruct (decide (r = Idle)) as [->|Hr].
  { left. unfold rpc_transition in Hcall. rewrite Hh in Hcall. simpl in Hcall.
    rewrite (proj2 (contains_true _ _) Hs) in Hcall. simpl in Hcall. by simplify_eq. }
  right. destruct (executions s !! eid) as [d|] eqn:Hd.
  2: { left. unfold rpc_transition, with_execution, execution_state in Hcall. rewrite Hh in Hcall.
       simpl in Hcall. rewrite (proj2 (contains_true _ _) Hs), Hd in Hcall.
       destruct (round_before_Some r Hr) as [b Hb]. rewrite Hb in Hcall. simpl in Hcall.
       by simplify_eq. }
  right. rewrite (rpc_transition_run self eid r s d head) in Hcall by done.
  destruct (transition_vote_cases self (transition_quorum s) head r d)
    as (d' & log' & Ht & [(Hle & -> & ->)|(Hlt & dels & Hadv & Hset & ->)]);
    rewrite Ht in Hcall; simpl in Hcall; injection Hcall as <- <- <-.
  - left. exists d. by rewrite put_execution_id.
  - right. exists d, d', head, dels. split_and!; done.
Qed.

Lemma rpc_transition_exact_witness :
  (rpc_transition client1 sample_eid Preprocessing sample_start).2 = Err (server_error NotParty).
Proof.
  pose (o := rpc_transition client1 sample_eid Preprocessing sample_start).
  destruct (rpc_transition_exact sample_start client1 sample_eid Preprocessing o.1.1 o.1.2 o.2
    (reachable_wf _ sample_start_reachable) (outcome_eta o))
    as [(_ & He & _)|[(Hin & _)|[(Hin & _)|[(d & Hin & _)|(d & d' & h & dels & Hin & _)]]]];
    [exact He|exfalso; revert Hin; apply (bool_decide_unpack _); by vm_compute..].
Defined.
