(* ===== verification/Registry.v ===== *)
(** Registration, retirement and shutdown, specified exactly. *)
From S2P Require Import Prelude Shared Execution Samples Rounds Sessions Server Rpc ServerSamples.
From S2P Require Import Invariant History Topology Machine Inputs.

(** ** Valid registrations *)

(** Every range names a client and, unless there are none, the ranges cover the
    inputs (their total taken modulo [2^64]). *)
Definition assignment_valid (n_inputs : u64) (a : InputAssignment) : Prop :=
  (ia_ranges a = [] ∨ n_inputs = u64_sum (range_count <$> ia_ranges a)) ∧
  ∀ range, range ∈ ia_ranges a → (range_client_index range < vlen (ia_clients a))%N.

Definition registration_valid (reg : ExecutionRegistration) (n : u64) : Prop :=
  is_zero (execution_id reg) = false ∧ program_hash reg ≠ zero_bytes ∧
  assignment_valid (n_inputs reg) (input_assignment reg) ∧
  (1 <= min_output_shares reg <= n)%N ∧ (n_inputs reg < u64_modulus)%N.

Lemma new_execution_Ok_valid reg n delivery d :
  new_execution reg n delivery = Ok d → registration_valid reg n ∧ registration_fits reg.
Proof.
  intros Hn. inv_new Hn. reflect_bool. unfold registration_valid, assignment_valid.
  match goal with H : (_ || _) = true |- _ => apply orb_true_iff in H as Hcov end.
  split; [|by split]. split; [done|]. split; [done|]. split; [|split; [lia|by reflect_bool]].
  split; [destruct Hcov; reflect_bool; auto|].
  intros range Hr. match goal with H : forallb _ _ = true |- _ =>
    rewrite forallb_forall in H; specialize (H range (proj1 (list_elem_of_In _ _) Hr)) end.
  by reflect_bool.
Qed.

(** A valid registration gets as far as the allocations. *)
Lemma new_execution_not_Err reg n delivery e :
  registration_valid reg n → new_execution reg n delivery ≠ Err e.
Proof.
  intros (Hz & Hh & [Hcov Hcl] & Hq & Hw). unfold new_execution.
  rewrite Hz, (bool_decide_false (program_hash reg = zero_bytes)) by done. cbn [negb ensure mbind result_bind].
  replace (bool_decide (ia_ranges (input_assignment reg) = []) || _) with true.
  2: { symmetry. apply orb_true_iff. rewrite bool_decide_eq_true, N.eqb_eq. done. }
  simpl. rewrite (proj2 (forallb_forall _ _)).
  2: { intros range Hr%list_elem_of_In. apply Hcl in Hr. rewrite (proj2 (N.leb_gt _ _) Hr). done. }
  simpl. rewrite (proj2 (N.eqb_neq (min_output_shares reg) 0)), (proj2 (N.ltb_ge n _)) by lia. simpl.
  unfold usize_try_from. rewrite (proj2 (N.ltb_lt _ _) Hw). simpl.
  unfold vec_repeat, expand_input_ranges, with_capacity. by repeat case_match.
Qed.

Lemma new_execution_valid_Ok reg n delivery :
  registration_valid reg n → registration_fits reg → is_ok (new_execution reg n delivery) = true.
Proof.
  intros Hv Hf. pose proof (new_execution_panic reg n delivery Hf) as Hp.
  destruct (new_execution reg n delivery) as [d|e|] eqn:Hn; [done| |done].
  by apply new_execution_not_Err in Hn.
Qed.

(** An invalid registration is refused before anything is allocated. *)
Lemma new_execution_Panic_valid reg n delivery :
  new_execution reg n delivery = Panic → registration_valid reg n ∧ ¬ registration_fits reg.
Proof.
  intros Hn. split; [|by intros Hf%(new_execution_panic reg n delivery); rewrite Hn in Hf].
  unfold new_execution in Hn.
  repeat match type of Hn with context [ensure ?b _ ≫= _] => destruct b eqn:?; [simpl in Hn|discriminate Hn] end.
  destruct (usize_try_from (n_inputs reg)) eqn:Hs; [|discriminate Hn]. unfold usize_try_from in Hs.
  case_match; [|done]. reflect_bool. unfold registration_valid, assignment_valid.
  match goal with H : (_ || _) = true |- _ => apply orb_true_iff in H as Hcov end.
  split; [done|]. split; [done|]. split; [|split; [lia|done]].
  split; [destruct Hcov; reflect_bool; auto|].
  intros range Hr. match goal with H : forallb _ _ = true |- _ =>
    rewrite forallb_forall in H; specialize (H range (proj1 (list_elem_of_In _ _) Hr)) end.
  by reflect_bool.
Qed.

(** ** Claims *)

(** A registration is accepted exactly when it is valid and fits the address space
    (a valid one that does not fit panics), and the execution it creates is fresh:
    idle, with no votes, reservations, inputs, shares, acknowledgements, subscribers
    or events, one slot per input, and the slots of each range belonging to the
    client it names. *)
Theorem new_execution_exact reg n delivery :
  (is_ok (new_execution reg n delivery) = true ↔ registration_valid reg n ∧ registration_fits reg) ∧
  (new_execution reg n delivery = Panic ↔ registration_valid reg n ∧ ¬ registration_fits reg) ∧
  ∀ d, new_execution reg n delivery = Ok d →
    registration d = reg ∧ round d = Idle ∧ masked_input_delivery d = delivery ∧
    transition_votes d = ∅ ∧ trans_events d = ∅ ∧ sinks d = ∅ ∧ retirement_acks d = ∅ ∧
    output_shares d = ∅ ∧ output_sinks d = ∅ ∧ n_reserved d = 0%N ∧
    reserved_indices d = replicate (N.to_nat (n_inputs reg)) None ∧
    masked_inputs d = replicate (N.to_nat (n_inputs reg)) None ∧
    output_clients d = reg_output_clients reg ∧
    input_assignments d = input_slots (ia_ranges (input_assignment reg)).
Proof.
  split_and!.
  - split; [|by intros []; apply new_execution_valid_Ok].
    destruct (new_execution reg n delivery) as [d| |] eqn:Hn; [|done..].
    intros _. by eapply new_execution_Ok_valid.
  - split; [apply new_execution_Panic_valid|]. intros [Hv Hf].
    destruct (new_execution reg n delivery) as [d|e|] eqn:Hn; [| |done].
    + by apply new_execution_Ok_valid in Hn as [_ ?].
    + by apply new_execution_not_Err in Hn.
  - intros d Hn. by inv_new Hn.
Qed.

Section registry.
Context `{HashOrder}.


(** An invalid registration still displaces an execution: the slot is
    reclaimed before the new registration is validated, so a refused registration
    of a full coordinator drops a live execution. *)
Theorem refused_registration_displaces self reg delivery s
    (Hparty : self ∈ mpc_nodes s) (Hnew : executions s !! execution_id reg = None)
    (Hfull : (DEFAULT_MAX_CONCURRENT_EXECUTIONS <= N.of_nat (size (executions s)))%N)
    (Hevict : ∃ eid d, executions s !! eid = Some d ∧ evictable s (eid, d) = true)
    (Hinvalid : ¬ registration_valid reg (n s)) :
  ∃ eid d s' e, rpc_register_execution self reg delivery s = (s', [], Err e) ∧
    executions s !! eid = Some d ∧ executions s' = delete eid (executions s).
Proof.
  unfold rpc_register_execution. rewrite (proj2 (contains_true _ _) Hparty). simpl.
  destruct (register_execution reg delivery s) as [s' r] eqn:Hr.
  apply register_execution_outcome in Hr as Ho.
  destruct Ho as [d Hd|d e Hd|e _ _ Hno|s1 d _ Hroom Hn|s1 e _ Hroom Hn|s1 _ _ Hn _]; [congruence..| | | |].
  - destruct Hevict as (eid & d & Hd & He). rewrite (Hno eid d Hd) in He. done.
  - by apply new_execution_Ok_valid in Hn as [? _].
  - destruct Hroom as [Hlt|eid d _ Hd Hev]; [lia|]. eexists eid, d, _, _. done.
  - by apply new_execution_Panic_valid in Hn as [? _].
Qed.

(** Acknowledging completion on every branch.  A stranger is refused without
    effect; a party is never refused.  For a sealed execution only the tombstone
    changes: it gains the acknowledgement and is forgotten once the whole roster
    has acknowledged.  For a live one the acknowledgement is added and everything
    else stays, so that output shares can still be collected; for an unknown one
    nothing happens. *)
Theorem retire_execution_exact self eid s s' log r
    (Hcall : rpc_retire_execution self eid s = (s', log, r)) :
  log = [] ∧
  (self ∉ mpc_nodes s → r = Err (server_error NotParty) ∧ s' = s) ∧
  (self ∈ mpc_nodes s → r = Ok tt ∧
   match acks (retired s) !! eid, executions s !! eid with
   | Some a, _ =>
       executions s' = executions s ∧
       acks (retired s') !! eid =
         (if (vlen (mpc_nodes s) <=? N.of_nat (size ({[self]} ∪ a)))%N then None
          else Some ({[self]} ∪ a)) ∧
       ∀ eid', eid' ≠ eid → acks (retired s') !! eid' = acks (retired s) !! eid'
   | None, Some d => s' = put_execution eid (d <| retirement_acks ::= ({[self]} ∪.) |>) s
   | None, None => s' = s
   end).
Proof.
  unfold rpc_retire_execution in Hcall. destruct (contains (mpc_nodes s) self) eqn:Hc; simpl in Hcall.
  2: { injection Hcall as <- <- <-. apply contains_false in Hc. naive_solver. }
  apply contains_true in Hc.
  destruct (retire_execution eid self s) as [s1 r1] eqn:Hr. injection Hcall as <- <- <-.
  split_and!; [done|done|]. intros _.
  apply retire_execution_cases in Hr as [(? & _)|(_ & -> & Hr)]; [done|]. split; [done|].
  destruct Hr as [[[a Ha] ->]|[(Ha & Hd & ->)|(d & Ha & Hd & ->)]]; rewrite Ha, ?Hd; [|done..].
  simpl. unfold acknowledge. rewrite Ha. split; [done|].
  destruct (vlen (mpc_nodes s) <=? _)%N; simpl.
  - split; [apply lookup_delete_eq|]. intros eid' ?. by rewrite lookup_delete_ne.
  - split; [apply lookup_insert_eq|]. intros eid' ?. by rewrite lookup_insert_ne.
Qed.

(** Acknowledgements one after the other. *)
Definition retire_all (eid : ExecutionId) (ps : list ClientIdentity) (s : Server) : Server :=
  foldl (fun s p => (rpc_retire_execution p eid s).1.1) s ps.

Lemma retire_run p eid s d :
  p ∈ mpc_nodes s → acks (retired s) !! eid = None → executions s !! eid = Some d →
  (rpc_retire_execution p eid s).1.1 =
    put_execution eid (d <| retirement_acks ::= ({[p]} ∪.) |>) s.
Proof.
  intros Hp Ha Hd. unfold rpc_retire_execution. rewrite (proj2 (contains_true _ _) Hp). simpl.
  destruct (retire_execution eid p s) as [s1 r1] eqn:Hr. simpl.
  apply retire_execution_cases in Hr as [(? & _)|(_ & _ & Hr)]; [done|].
  destruct Hr as [[[a Ha'] _]|[(_ & Hd' & _)|(d' & _ & Hd' & ->)]]; congruence.
Qed.

Lemma retire_all_acks eid ps s d :
  (∀ p, p ∈ ps → p ∈ mpc_nodes s) → acks (retired s) !! eid = None →
  executions s !! eid = Some d →
  ∃ a, retire_all eid ps s = put_execution eid (d <| retirement_acks := a |>) s ∧
    a = list_to_set ps ∪ retirement_acks d.
Proof.
  revert s d. induction ps as [|p ps IH]; intros s d Hin Ha Hd; simpl.
  - exists (retirement_acks d). split; [|set_solver].
    replace (d <| retirement_acks := retirement_acks d |>) with d by (by destruct d).
    by rewrite put_execution_id.
  - assert (p ∈ mpc_nodes s) as Hp by (apply Hin; left). rewrite (retire_run p eid s d) by done.
    destruct (IH (put_execution eid (d <| retirement_acks ::= ({[p]} ∪.) |>) s)
      (d <| retirement_acks ::= ({[p]} ∪.) |>)) as (a & -> & ->);
      [intros ? ?; apply Hin; by right|done|apply put_execution_lookup|].
    exists (list_to_set ps ∪ ({[p]} ∪ retirement_acks d)). split; [|set_solver].
    unfold put_execution, upd. simpl. unfold upd. simpl. by rewrite insert_insert_eq.
Qed.

(** When a retirement quorum of distinct parties has acknowledged a live
    execution, in whatever order, it counts as retired; it is still live with its
    rounds, inputs and shares untouched, and its slot can be reclaimed unless it
    is the one-off execution. *)
Theorem retirement_quorum_retires s eid d ps
    (Hwf : server_wf s) (Hd : executions s !! eid = Some d) (Hlive : acks (retired s) !! eid = None)
    (Hparties : ∀ p, p ∈ ps → p ∈ mpc_nodes s) (Hdistinct : NoDup ps)
    (Hquorum : (n s - t s <= vlen ps)%N) :
  ∃ d', executions (retire_all eid ps s) !! eid = Some d' ∧
    d' = d <| retirement_acks := list_to_set ps ∪ retirement_acks d |> ∧
    is_retired (retire_all eid ps s) eid = true ∧
    evictable (retire_all eid ps s) (eid, d') = negb (bool_decide (one_off_execution s = Some eid)).
Proof.
  destruct (retire_all_acks eid ps s d Hparties Hlive Hd) as (a & -> & ->).
  eexists. split; [apply put_execution_lookup|]. split; [done|].
  assert (retirement_quorum s <= N.of_nat (size (list_to_set ps ∪ retirement_acks d)))%N as Hq.
  { rewrite (retirement_quorum_eq s (sw_topology s Hwf)).
    pose proof (subseteq_size (list_to_set ps) (list_to_set ps ∪ retirement_acks d)
      ltac:(set_solver)) as Hsz.
    rewrite size_list_to_set in Hsz by done. unfold vlen in Hquorum. lia. }
  apply N.leb_le in Hq. unfold is_retired, evictable.
  rewrite put_execution_lookup. simpl. unfold retired_contains. simpl. rewrite Hlive.
  change (retirement_quorum (put_execution _ _ s)) with (retirement_quorum s).
  rewrite Hq. split; [done|]. by rewrite andb_true_r.
Qed.

(** The completion signal of an execution goes back when its slot is
    reclaimed: an execution that the whole roster acknowledged reports completion
    while it is live, and reports non-completion as soon as it is sealed. *)
Theorem sealing_retracts_completion s eid d
    (Hwf : server_wf s) (Hd : executions s !! eid = Some d)
    (Hall : retirement_acks d = list_to_set (mpc_nodes s)) :
  retirement_progress s eid = (n s, n s, true) ∧
  retirement_progress (reclaimed eid d s) eid = (n s, n s, false).
Proof.
  pose proof (sw_topology s Hwf) as Htop. pose proof (roster_size _ _ _ Htop) as Hsz.
  pose proof (top_count _ _ _ Htop) as Hn. unfold retirement_progress. rewrite Hd, Hall. simpl.
  rewrite Hsz, <-Hn, N.leb_refl. split; [done|]. rewrite lookup_delete_eq.
  rewrite (seal_lookup (mpc_nodes s)) by apply (sw_retired s Hwf). by rewrite Hall, Hsz.
Qed.

(** Shutdown is granted exactly once per watch: only to the head of the
    roster, only when the one-off execution has reached [ProgramFinished], and
    only while the notification channel is still there; the channel is fired and
    removed, nothing else changes, and every later request is refused. *)
Theorem request_shutdown_once s self s' fired r
    (Hwf : server_wf s) (Hcall : rpc_request_shutdown self s = (s', fired, r)) :
  (r = Ok tt ↔ ∃ eid tx, roster_head s = Ok self ∧ one_off_execution s = Some eid ∧
     server_round s eid = Some ProgramFinished ∧ shutdown_notify s = Some tx) ∧
  (r = Ok tt → is_Some (shutdown_notify s) ∧ fired = shutdown_notify s ∧
     s' = s <| shutdown_notify := None |> ∧
     ∀ other, ∃ e, rpc_request_shutdown other s' = (s', None, Err e)) ∧
  (r ≠ Ok tt → s' = s ∧ fired = None).
Proof.
  destruct (roster_head_Ok s (sw_topology s Hwf)) as (head & Hh & _).
  unfold rpc_request_shutdown in *. rewrite Hh in *.
  case_bool_decide as Hself; simpl in Hcall; [subst head|by simplify_eq; naive_solver].
  destruct (one_off_execution s) as [eid|] eqn:Ho; [|by simplify_eq; naive_solver].
  case_bool_decide as Hr; simpl in Hcall; [|simplify_eq; split_and!; [|done|done]].
  2: { split; [done|]. intros (? & ? & _ & [= <-] & ? & _). done. }
  destruct (shutdown_notify s) as [tx|] eqn:Hn; [|by simplify_eq; naive_solver].
  injection Hcall as <- <- <-. split_and!; [|intros _|done].
  - split; [|done]. intros _. by exists eid, tx.
  - split_and!; [by eauto|done|done|]. intros other.
    change (roster_head (s <| shutdown_notify := None |>)) with (roster_head s).
    rewrite Hh. simpl. rewrite Ho.
    change (server_round (s <| shutdown_notify := None |>) eid) with (server_round s eid).
    rewrite Hr. repeat case_bool_decide; simpl; eauto.
Qed.
End registry.

(** ** Witnesses *)


(** A full coordinator: 1024 executions, each acknowledged by three parties. *)
Definition numbered_id (k : nat) : ExecutionId :=
  from_bytes (default Byte.x00 (Byte.of_N (N.of_nat k / 256)) :::
              default Byte.x00 (Byte.of_N (N.of_nat k mod 256)) ::: vreplicate 30 Byte.x77).
Definition sample_retired : Exec := sample_exec <| retirement_acks := {[party1; party2; party3]} |>.
Definition sample_full : Server :=
  sample_server <| executions :=
    list_to_map ((fun k => (numbered_id k, sample_retired)) <$> seq 0 1024) |>.

Lemma is_some_false {A} (o : option A) : is_some o = false → o = None.
Proof. by destruct o. Qed.

Lemma retire_all_reachable eid ps s : reachable s → reachable (retire_all eid ps s).
Proof.
  revert s. induction ps as [|p ps IH]; intros s Hs; [done|]. simpl. apply IH.
  eapply reach_step; [exact Hs|]. eapply step_retire, outcome_eta.
Qed.

Lemma lookup_default {A} (o : option A) (a : A) : is_some o = true → o = Some (default a o).
Proof. by destruct o. Qed.

Lemma refused_registration_displaces_witness :
  let reg := mkExecutionRegistration sample_eid zero_bytes 0 [] InputAssignment_default 3 in
  ∃ eid d s' e, rpc_register_execution party1 reg 1 sample_full = (s', [], Err e) ∧
    executions sample_full !! eid = Some d ∧ executions s' = delete eid (executions sample_full).
Proof.
  apply (refused_registration_displaces party1 _ 1 sample_full).
  - left.
  - apply is_some_false. by vm_compute.
  - by vm_compute.
  - exists (numbered_id 0), (default sample_exec (executions sample_full !! numbered_id 0)).
    split; [apply lookup_default; by vm_compute|by vm_compute].
  - intros (_ & Hh & _). by apply Hh.
Defined.

Lemma retire_execution_exact_witness :
  (rpc_retire_execution client1 sample_eid sample_start).2 = Err (server_error NotParty).
Proof.
  pose (o := rpc_retire_execution client1 sample_eid sample_start).
  destruct (retire_execution_exact client1 sample_eid sample_start o.1.1 o.1.2 o.2 (outcome_eta o))
    as (_ & Hs & _).
  apply Hs. apply (bool_decide_unpack _). by vm_compute.
Defined.

Lemma retirement_quorum_retires_witness :
  is_retired (retire_all sample_eid [party3; party1; party4] sample_start) sample_eid = true.
Proof.
  edestruct (retirement_quorum_retires sample_start sample_eid (sample_get sample_start)
    [party3; party1; party4]) as (d' & _ & _ & Hr & _); [..|exact Hr].
  - apply reachable_wf, sample_start_reachable.
  - apply sample_get_Some. by vm_compute.
  - reflexivity.
  - intros p Hp. apply (bool_decide_unpack _). apply list_elem_of_In in Hp.
    simpl in Hp. destruct Hp as [<-|[<-|[<-|[]]]]; by vm_compute.
  - apply (bool_decide_unpack _). by vm_compute.
  - by vm_compute.
Defined.

Lemma sealing_retracts_completion_witness :
  let s := retire_all sample_eid parties sample_start in
  retirement_progress s sample_eid = (4%N, 4%N, true) ∧
  retirement_progress (reclaimed sample_eid (sample_get s) s) sample_eid = (4%N, 4%N, false).
Proof.
  intros s. apply (sealing_retracts_completion s sample_eid (sample_get s)).
  - apply reachable_wf, retire_all_reachable, sample_start_reachable.
  - apply sample_get_Some. by vm_compute.
  - apply (bool_decide_unpack _). by vm_compute.
Defined.

(** The sample execution run to its end, watched for shutdown. *)
Definition sample_finished : Server :=
  (watch_for_shutdown_request sample_eid 9
     (vote_all ProgramFinished (vote_all OutputDistribution sample_run))).1.

Lemma sample_finished_reachable : reachable sample_finished.
Proof.
  eapply reach_step; [|apply step_watch]. do 2 apply vote_all_reachable. apply sample_run_reachable.
Qed.

Lemma request_shutdown_once_witness :
  (rpc_request_shutdown party1 sample_finished).2 = Ok tt ∧
  (rpc_request_shutdown party1 sample_finished).1.2 = Some 9%positive.
Proof.
  pose (o := rpc_request_shutdown party1 sample_finished).
  destruct (request_shutdown_once sample_finished party1 o.1.1 o.1.2 o.2
    (reachable_wf _ sample_finished_reachable) (outcome_eta o)) as (Hiff & Hok & _).
  assert (o.2 = Ok tt) as Hr.
  { apply Hiff. exists sample_eid, 9%positive. split_and!; by vm_compute. }
  split; [exact Hr|]. destruct (Hok Hr) as (_ & Hf & _).
  transitivity (shutdown_notify sample_finished); [exact Hf|reflexivity].
Defined.
