(* ===== verification/Answers.v ===== *)
(** Which requests are answered: when a handler of the RPC interface panics, run
    without interruption or segment by segment. *)
From S2P Require Import Prelude Shared Execution Samples Rounds Sessions Server Rpc ServerSamples.
From S2P Require Import Invariant History Topology Machine Inputs Registry Requests.

Section answers.
Context `{HashOrder}.
Implicit Types (s : Server) (d : Exec).

(** A party's new registration, valid and admitted to a place, for which the vectors
    of its execution are too large. *)
Definition overflows (s : Server) (self : ClientIdentity) (req : Request) : Prop :=
  ∃ reg, req = inr (RegisterExecution reg) ∧ self ∈ mpc_nodes s ∧
    executions s !! execution_id reg = None ∧ (∃ s1, room_made s s1) ∧
    registration_valid reg (n s) ∧ ¬ registration_fits reg.

Lemma register_panics reg delivery s :
  (register_execution reg delivery s).2 = Panic ↔
  executions s !! execution_id reg = None ∧ (∃ s1, room_made s s1) ∧
  registration_valid reg (n s) ∧ ¬ registration_fits reg.
Proof.
  destruct (register_execution reg delivery s) as [s' r] eqn:Hr.
  apply register_execution_outcome in Hr. simpl. split.
  - intros ->. inversion Hr as [| | | | |s1 Hnone Hroom Hn _]; subst.
    apply new_execution_Panic_valid in Hn as [??]. eauto.
  - intros (Hnone & [s2 Hs2] & Hv & Hf).
    destruct Hr as [d Hd|d e Hd|e _ Hfull Hno|s1 d _ _ Hn|s1 e _ _ Hn|]; [congruence..| | | |done].
    + destruct Hs2 as [|eid d _ Hd He]; [lia|]. rewrite (Hno eid d Hd) in He. done.
    + by apply new_execution_Ok_valid in Hn as [_ ?].
    + by apply new_execution_not_Err in Hn.
Qed.

Lemma rpc_register_panics self reg delivery s :
  (rpc_register_execution self reg delivery s).2 = Panic ↔
  self ∈ mpc_nodes s ∧ (register_execution reg delivery s).2 = Panic.
Proof.
  unfold rpc_register_execution. destruct (contains (mpc_nodes s) self) eqn:Hc; simpl.
  - apply contains_true in Hc. destruct (register_execution reg delivery s) as [s' []]; naive_solver.
  - apply contains_false in Hc. naive_solver.
Qed.

Lemma done_with_panic (o : Outcome unit) : sv_reply (done_with o) = Panic ↔ o.2 = Panic.
Proof. destruct o as [[s log] []]; naive_solver. Qed.

(** Every request but a registration is answered. *)
Lemma others_answered net accept delivery self req s :
  reachable s → (∀ reg, req ≠ inr (RegisterExecution reg)) →
  sv_reply (serve net accept delivery self req s) ≠ Panic.
Proof.
  intros Hreach Hno.
  pose proof (handlers_never_panic s Hreach) as (_ & Hret & Hshut & Hres & Hsub & Htrans & Hsend & Hobt).
  assert (∀ o : Outcome unit, no_panic o.2 → sv_reply (done_with o) ≠ Panic) as Hdone.
  { by intros [[s' log] []]. }
  destruct req as [[]|[]]; simpl; try done;
    try (apply Hdone; first [apply Htrans|apply Hret|apply Hres|apply Hsub|apply Hsend]).
  - exfalso. by eapply Hno.
  - specialize (Hshut self). by destruct (rpc_request_shutdown self s) as [[s' fired] []].
  - by destruct (sub_round accept eid r s) as [[s' log] o].
  - by destruct (sub_reserved_indices net accept eid s) as [[s' log] o].
  - by destruct (sub_masked_inputs net accept eid s) as [[s' log] o].
  - by destruct (sub_assigned_reserved_indices net accept eid s) as [[s' log] o].
  - by destruct (sub_assigned_masked_inputs net accept eid s) as [[s' log] o].
  - unfold available_input_masks, execution_state. by destruct (executions s !! eid).
  - specialize (Hobt net accept self eid).
    by destruct (obtain_output_shares net accept self eid s) as [[s' log] []].
Qed.

(** C18: which requests are answered.  The two interfaces can be merged into one
    server.  In a reachable state a request that is served without interruption
    makes its handler panic exactly when it is a party's new, valid registration
    for which there is a place but whose vectors would exceed the address space;
    every other request of either interface is answered, whoever sends it, whether
    or not a subscription's handshake completes and whatever the network does.  Of
    the segments that run after an interruption, those of a submission never panic,
    and the output snapshot panics exactly when the execution has been reclaimed in
    between. *)
Theorem every_request_is_answered s (Hreach : reachable s) :
  (∀ merge, (∀ a b, (∀ m, m ∈ b → m ∉ a) → is_Some (merge a b)) → no_panic (into_rpc merge)) ∧
  (∀ net accept delivery self req,
     sv_reply (serve net accept delivery self req s) = Panic ↔ overflows s self req) ∧
  (∀ self inputs indices eid d, executions s !! eid = Some d →
     no_panic (submit_commit self inputs indices d).2) ∧
  (∀ net quorum head p d, no_panic (submit_finish net quorum head p d).2) ∧
  (∀ net eid client_id k, (output_snapshot net eid client_id k s).2 = Panic ↔ executions s !! eid = None).
Proof.
  split_and!.
  - apply into_rpc_ok.
  - intros net accept delivery self req. unfold overflows. split.
    + intros Hp. assert (∃ reg, req = inr (RegisterExecution reg)) as [reg ->].
      { destruct req as [r|[]]; try (exfalso; eapply others_answered; [exact Hreach| |exact Hp]; done). eauto. }
      simpl in Hp. rewrite done_with_panic, rpc_register_panics, register_panics in Hp. naive_solver.
    + intros (reg & -> & Hself & Hrest). simpl.
      rewrite done_with_panic, rpc_register_panics, register_panics. naive_solver.
  - intros self inputs indices eid d Hd. eapply submit_commit_no_panic. by eapply reachable_exec_wf.
  - intros net quorum head p d. by destruct (submit_finish_ok net quorum head p d) as (d' & log & ->).
  - intros net eid client_id k. unfold output_snapshot. destruct (executions s !! eid); [|done].
    by destruct (ready_output_snapshot _ _ _ _) as [??].
Qed.
End answers.

(** ** Witness: a client is answered, a party's oversized registration panics *)

Definition oversized : ExecutionRegistration :=
  mkExecutionRegistration (from_bytes (vreplicate 32 Byte.x77)) sample_hash (2 ^ 62) [] (mkInputAssignment [] []) 1.

Lemma every_request_is_answered_witness :
  sv_reply (serve all_up None 1 client1 (inr RequestShutdown) sample_run) ≠ Panic ∧
  sv_reply (serve all_up None 1 party1 (inr (RegisterExecution oversized)) sample_run) = Panic.
Proof.
  pose proof (every_request_is_answered sample_run sample_run_reachable) as (_ & Ha & _). split.
  - rewrite Ha. by intros (reg & [=] & _).
  - apply Ha. exists oversized. split_and!; [done| | | | |].
    + apply (bool_decide_unpack _). by vm_compute.
    + by vm_compute.
    + exists sample_run. apply room_free. by vm_compute.
    + split; [by vm_compute|]. split; [|split; [split; [by left|]|split; by vm_compute]].
      * intros Hz. apply (f_equal (fun v => bool_decide (v = zero_bytes))) in Hz. by vm_compute in Hz.
      * intros range Hr. by apply not_elem_of_nil in Hr.
    + intros [Hn _]. by vm_compute in Hn.
Defined.
