(* ===== verification/Outputs.v ===== *)
(** Output shares: storage, the snapshot handed to a client, and delivery. *)
From S2P Require Import Prelude Shared Execution Samples Rounds Sessions Server Rpc ServerSamples.
From S2P Require Import Invariant History Topology Machine Inputs.

Section outputs.
Context `{HashOrder}.
Implicit Types d : Exec.

(** ** The snapshot *)

(** The entries stored for a client, and the parties they come from. *)
Definition entries_for (d : Exec) (c : ClientIdentity)
    : list ((ClientIdentity * ClientIdentity) * (bytes * bytes)) :=
  filter (fun e => e.1.1 = c) (map_to_list (output_shares d)).
Definition sent_by (d : Exec) (c : ClientIdentity) : gset ClientIdentity :=
  list_to_set ((fun e => e.1.2) <$> entries_for d c).

Lemma elem_of_entries_for d c k sh :
  (k, sh) ∈ entries_for d c ↔ k.1 = c ∧ output_shares d !! k = Some sh.
Proof. unfold entries_for. rewrite list_elem_of_filter, elem_of_map_to_list. done. Qed.

Lemma elem_of_sent_by d c p : p ∈ sent_by d c ↔ is_Some (output_shares d !! (c, p)).
Proof.
  unfold sent_by. rewrite elem_of_list_to_set, list_elem_of_fmap. split.
  - intros ([[c' p'] sh] & -> & [Hc Hs]%elem_of_entries_for). simpl in *. subst c'. eauto.
  - intros [sh Hs]. exists ((c, p), sh). split; [done|]. by apply elem_of_entries_for.
Qed.

Lemma entries_for_senders_NoDup d c : NoDup ((fun e => e.1.2) <$> entries_for d c).
Proof.
  apply NoDup_fmap_2_strong; [|by apply NoDup_filter, NoDup_map_to_list].
  intros [[c1 p1] s1] [[c2 p2] s2] [H1 L1]%elem_of_entries_for [H2 L2]%elem_of_entries_for Heq.
  simpl in *. subst. congruence.
Qed.

Lemma shares_for_perm d c : shares_for d c ≡ₚ snd <$> entries_for d c.
Proof. unfold shares_for, entries_for. by rewrite map_iter_perm. Qed.

Lemma shares_for_length d c : vlen (shares_for d c) = N.of_nat (size (sent_by d c)).
Proof.
  unfold vlen. rewrite shares_for_perm, length_fmap. unfold sent_by.
  rewrite size_list_to_set by apply entries_for_senders_NoDup. by rewrite length_fmap.
Qed.

Lemma sent_by_insert d c p sh :
  sent_by (d <| output_shares ::= <[(c, p) := sh]> |>) c = {[p]} ∪ sent_by d c.
Proof.
  apply set_eq. intros x. rewrite elem_of_union, elem_of_singleton, !elem_of_sent_by. simpl.
  rewrite lookup_insert. case_decide; naive_solver.
Qed.

(** ** Delivery *)

(** What is sent when the shares of [c] are looked at with the quorum [k]. *)
Definition ready_log (net : Net) (d : Exec) (c : ClientIdentity) (k : N) : list Send :=
  match output_sinks d !! c with
  | Some w => if negb (is_closed net w) && (k <=? N.of_nat (size (sent_by d c)))%N
              then [(w, MOutputShares (shares_for d c))] else []
  | None => []
  end.

(** Two executions that differ in the waiters for outputs only. *)
Definition same_but_waiters (d d' : Exec) : Prop := d' = d <| output_sinks := output_sinks d' |>.

Lemma deliver_spec net eid c k s d :
  executions s !! eid = Some d →
  ∃ d', deliver_ready_output_waiters net eid c k s =
      (put_execution eid d' s, ready_log net d c k, Ok tt) ∧
    same_but_waiters d d' ∧
    (∀ c', output_sinks d' !! c' = output_sinks d !! c' ∨ output_sinks d' !! c' = None ∧ c' = c).
Proof.
  intros Hd. unfold deliver_ready_output_waiters, output_snapshot, ready_output_snapshot, ready_log.
  rewrite Hd.
  assert (same_but_waiters d d ∧ same_but_waiters d (d <| output_sinks ::= delete c |>)) as [Hs1 Hs2]
    by by destruct d.
  assert (∀ c', output_sinks (d <| output_sinks ::= delete c |>) !! c' = output_sinks d !! c' ∨
    output_sinks (d <| output_sinks ::= delete c |>) !! c' = None ∧ c' = c) as Hdel.
  { intros c'. simpl. rewrite lookup_delete. case_decide; naive_solver. }
  destruct (output_sinks d !! c) as [w|] eqn:Hw.
  2: { exists d. split_and!; [done..|]. auto. }
  destruct (is_closed net w); simpl.
  { exists (d <| output_sinks ::= delete c |>). split_and!; done. }
  rewrite shares_for_length, N.ltb_antisym. destruct (k <=? _)%N eqn:Hk; simpl.
  2: { exists d. split_and!; [done..|]. auto. }
  destruct (send_ok net w 0).
  { exists d. split_and!; [done..|]. auto. }
  exists (d <| output_sinks ::= delete c |>). split_and!; [|done..].
  unfold forget_waiter. rewrite put_execution_lookup, bool_decide_true by done.
  unfold put_execution, upd. simpl. unfold upd. simpl. by rewrite insert_insert_eq.
Qed.

Lemma min_output_shares_usize nodes q d :
  exec_wf nodes q d → (vlen nodes <= isize_max)%N →
  as_usize (min_output_shares (registration d)) = min_output_shares (registration d).
Proof.
  intros Hwf Hn. apply as_usize_small. pose proof (wf_output_quorum _ _ _ Hwf).
  unfold isize_max, u64_modulus in *. lia.
Qed.

(** The uninterrupted handlers are runs of segments. *)
Lemma deliver_reachable net eid c k s :
  reachable s → reachable (deliver_ready_output_waiters net eid c k s).1.1.
Proof.
  intros Hs. unfold deliver_ready_output_waiters.
  destruct (output_snapshot net eid c k s) as [s1 r] eqn:Ho.
  assert (reachable s1) by (eapply reach_step; [exact Hs|by eapply step_snapshot]).
  destruct r as [[[w sh]|]| |]; [|done..]. simpl.
  destruct (send_ok net w 0); [done|]. eapply reach_step; [done|]. apply step_forget.
Qed.

Lemma send_output_shares_reachable net self eid c sh s :
  reachable s → reachable (send_output_shares net self eid c sh s).1.1.
Proof.
  intros Hs. unfold send_output_shares.
  destruct (with_execution eid _ s) as [[s1 log] r] eqn:Hw.
  assert (reachable s1) by (eapply reach_step; [exact Hs|by eapply step_store]).
  destruct r; [by apply deliver_reachable|done..].
Qed.

Lemma obtain_output_shares_reachable net accept self eid s :
  reachable s → reachable (obtain_output_shares net accept self eid s).1.1.
Proof.
  intros Hs. unfold obtain_output_shares. destruct (obtain_check net self eid s); [done|].
  destruct accept as [sink|]; [|done].
  destruct (obtain_attach net self eid sink s) as [s1 o] eqn:Ha.
  assert (reachable s1) by (eapply reach_step; [exact Hs|by eapply step_obtain]).
  destruct o as [k|]; [|done].
  pose proof (deliver_reachable net eid self k s1) as Hr.
  destruct (deliver_ready_output_waiters net eid self k s1) as [[s2 log] r]. simpl in *. auto.
Qed.

(** ** Claims *)

(** The snapshot a client receives holds exactly one share per party that
    sent one: the shares of pairwise distinct parties of the roster, all of them,
    in some order, so never more than [n]. *)
Theorem snapshot_one_share_per_party s eid d c
    (Hwf : server_wf s) (Hd : executions s !! eid = Some d) :
  ∃ senders, NoDup senders ∧ (∀ p, p ∈ senders ↔ is_Some (output_shares d !! (c, p))) ∧
    (∀ p, p ∈ senders → p ∈ mpc_nodes s) ∧
    (∃ shares, shares_for d c ≡ₚ shares ∧
       Forall2 (fun p sh => output_shares d !! (c, p) = Some sh) senders shares) ∧
    (vlen (shares_for d c) = vlen senders) ∧ (vlen senders <= n s)%N.
Proof.
  destruct (sw_execs s Hwf eid d Hd) as (_ & _ & Hdwf).
  set (senders := (fun e => e.1.2) <$> entries_for d c).
  assert (∀ p, p ∈ senders ↔ is_Some (output_shares d !! (c, p))) as Hs.
  { intros p. rewrite <-elem_of_sent_by. unfold sent_by. by rewrite elem_of_list_to_set. }
  assert (∀ p, p ∈ senders → p ∈ mpc_nodes s) as Hin.
  { intros p [sh Hp]%Hs. by apply (wf_shares _ _ _ Hdwf) in Hp as [_ ?]. }
  pose proof (entries_for_senders_NoDup d c) as Hnd. fold senders in Hnd.
  exists senders. split_and!; [done..| | |].
  - exists (snd <$> entries_for d c). split; [apply shares_for_perm|].
    apply Forall2_fmap, Forall_Forall2_diag, Forall_forall.
    intros [[c' p] sh] [Hc Hl]%elem_of_entries_for. simpl in *. by subst c'.
  - unfold vlen, senders. rewrite shares_for_perm. by rewrite !length_fmap.
  - destruct (sw_topology s Hwf) as [Hn _ _ _]. rewrite Hn. unfold vlen.
    assert (length senders ≤ length (mpc_nodes s)); [|lia].
    apply submseteq_length, NoDup_submseteq; [done|]. intros p. apply Hin.
Qed.

(** C24: sending output shares on every branch.  Strangers, unauthorised clients
    and a second share for the same client are refused without effect.  Otherwise
    the share is stored, and the client's open waiter is sent the snapshot exactly
    when the number of parties that have sent a share reaches the output quorum. *)
Theorem send_output_shares_exact net self eid c sh s d s' log r
    (Hwf : server_wf s) (Hd : executions s !! eid = Some d)
    (Hcall : send_output_shares net self eid c sh s = (s', log, r)) :
  (self ∉ mpc_nodes s → r = Err (server_error NotParty) ∧ s' = s ∧ log = []) ∧
  (self ∈ mpc_nodes s → c ∉ output_clients d →
     r = Err (server_error NotOutputClient) ∧ s' = s ∧ log = []) ∧
  (self ∈ mpc_nodes s → c ∈ output_clients d → is_Some (output_shares d !! (c, self)) →
     r = Err (server_error OutputSharesAlreadySent) ∧ s' = s ∧ log = []) ∧
  (self ∈ mpc_nodes s → c ∈ output_clients d → output_shares d !! (c, self) = None →
     r = Ok tt ∧ ∃ d', s' = put_execution eid d' s ∧
       same_but_waiters (d <| output_shares ::= <[(c, self) := sh]> |>) d' ∧
       log = match output_sinks d !! c with
             | Some w =>
                 if negb (is_closed net w) &&
                    (min_output_shares (registration d) <=?
                       N.of_nat (size ({[self]} ∪ sent_by d c)))%N
                 then [(w, MOutputShares (shares_for d' c))] else []
             | None => []
             end).
Proof.
  destruct (sw_execs s Hwf eid d Hd) as (_ & _ & Hdwf).
  pose proof (top_width _ _ _ (sw_topology s Hwf)) as Hwidth.
  rewrite (top_count _ _ _ (sw_topology s Hwf)) in Hwidth.
  pose proof (min_output_shares_usize _ _ _ Hdwf Hwidth) as Hmin.
  unfold send_output_shares, store_output_shares in Hcall.
  rewrite (with_execution_run _ _ _ d Hd) in Hcall.
  destruct (contains (mpc_nodes s) self) eqn:Hp; [apply contains_true in Hp|apply contains_false in Hp];
    simpl in Hcall.
  2: { rewrite put_execution_id in Hcall by done. simplify_eq. naive_solver. }
  destruct (contains (output_clients d) c) eqn:Hc;
    [apply contains_true in Hc|apply contains_false in Hc]; simpl in Hcall.
  2: { rewrite put_execution_id in Hcall by done. simplify_eq. naive_solver. }
  destruct (output_shares d !! (c, self)) as [old|] eqn:Ho; simpl in Hcall.
  { rewrite put_execution_id in Hcall by done. simplify_eq. naive_solver. }
  split_and!; [done|done|by intros _ _ []|]. intros _ _ _. rewrite Hmin in Hcall.
  set (d1 := d <| output_shares ::= <[(c, self) := sh]> |>) in *.
  destruct (deliver_spec net eid c (min_output_shares (registration d)) (put_execution eid d1 s) d1)
    as (d2 & Hdel & Hsame & _); [apply put_execution_lookup|].
  rewrite Hdel in Hcall. injection Hcall as <- <- <-. split; [done|]. exists d2. split_and!; [|done|].
  - unfold put_execution, upd. simpl. by rewrite insert_insert_eq.
  - unfold ready_log. subst d1. rewrite sent_by_insert. simpl.
    replace (shares_for d2 c) with (shares_for (d <| output_shares ::= <[(c, self) := sh]> |>) c).
    + done.
    + unfold shares_for. by rewrite (f_equal output_shares Hsame).
Qed.

(** Requesting outputs on every branch.  Unknown executions, unauthorised
    clients and a second request while the first is open are rejected without
    effect; otherwise the accepted subscription becomes the client's waiter, and a
    client that asks after the output quorum was reached is sent the snapshot at
    once. *)
Theorem obtain_output_shares_exact net accept self eid s s' log r
    (Hwf : server_wf s)
    (Hcall : obtain_output_shares net accept self eid s = (s', log, r)) :
  match executions s !! eid with
  | None => r = Ok (Rejected (server_error ExecutionNotFound)) ∧ s' = s ∧ log = []
  | Some d =>
      if negb (contains (output_clients d) self)
      then r = Ok (Rejected (server_error NotOutputClient)) ∧ s' = s ∧ log = []
      else if has_open_waiter net self d
      then r = Ok (Rejected (server_error OutputSharesAlreadyRequested)) ∧ s' = s ∧ log = []
      else match accept with
           | None => r = Ok NotAccepted ∧ s' = s ∧ log = []
           | Some sink =>
               r = Ok Subscribed ∧
               (∃ d', s' = put_execution eid d' s ∧ same_but_waiters d d' ∧
                  (output_sinks d' !! self = Some sink ∨ output_sinks d' !! self = None)) ∧
               log = (if negb (is_closed net sink) &&
                         (min_output_shares (registration d) <=? N.of_nat (size (sent_by d self)))%N
                      then [(sink, MOutputShares (shares_for d self))] else [])
           end
  end.
Proof.
  unfold obtain_output_shares, obtain_check, execution_state, obtain_attach in Hcall.
  destruct (executions s !! eid) as [d|] eqn:Hd; simpl in Hcall; [|by simplify_eq].
  destruct (negb (contains (output_clients d) self)) eqn:Hc; [by simplify_eq|].
  destruct (has_open_waiter net self d) eqn:Hw; [by simplify_eq|].
  destruct accept as [sink|]; [|by simplify_eq]. simpl in Hcall.
  destruct (sw_execs s Hwf eid d Hd) as (_ & _ & Hdwf).
  pose proof (top_width _ _ _ (sw_topology s Hwf)) as Hwidth.
  rewrite (top_count _ _ _ (sw_topology s Hwf)) in Hwidth.
  rewrite (min_output_shares_usize _ _ _ Hdwf Hwidth) in Hcall.
  set (d1 := d <| output_sinks ::= <[self := sink]> |>) in *.
  destruct (deliver_spec net eid self (min_output_shares (registration d)) (put_execution eid d1 s) d1)
    as (d2 & Hdel & Hsame & Hsinks); [apply put_execution_lookup|].
  rewrite Hdel in Hcall. injection Hcall as <- <- <-.
  assert (output_sinks d1 !! self = Some sink) as Hs1 by (subst d1; apply lookup_insert_eq).
  split_and!; [done| |].
  - exists d2. split_and!.
    + unfold put_execution, upd. simpl. by rewrite insert_insert_eq.
    + unfold same_but_waiters in *. rewrite Hsame. by destruct d.
    + destruct (Hsinks self) as [->|[-> _]]; auto.
  - unfold ready_log. rewrite Hs1. done.
Qed.
End outputs.

(** ** Witnesses *)

(** The sample run during output distribution: the client waits, then three
    parties send their shares. *)
Definition sample_waiting : Server :=
  (obtain_output_shares all_up (Some 5%positive) client1 sample_eid sample_run).1.1.
Definition sample_share (p : ClientIdentity) : bytes * bytes := (p, [Byte.xee]).
Definition sample_two_sent : Server :=
  foldl (fun s p => (send_output_shares all_up p sample_eid client1 (sample_share p) s).1.1)
    sample_waiting [party1; party2].

Lemma sample_two_sent_reachable : reachable sample_two_sent.
Proof.
  unfold sample_two_sent, sample_waiting. cbn [foldl].
  do 2 apply send_output_shares_reachable. apply obtain_output_shares_reachable.
  apply sample_run_reachable.
Qed.

Lemma sample_two_sent_lookup :
  executions sample_two_sent !! sample_eid = Some (sample_get sample_two_sent).
Proof. apply sample_get_Some. by vm_compute. Qed.

Lemma snapshot_one_share_per_party_witness :
  ∃ senders : list ClientIdentity,
    vlen (shares_for (sample_get sample_two_sent) client1) = vlen senders ∧ NoDup senders.
Proof.
  destruct (snapshot_one_share_per_party sample_two_sent sample_eid (sample_get sample_two_sent) client1
    (reachable_wf _ sample_two_sent_reachable) sample_two_sent_lookup)
    as (senders & Hnd & _ & _ & _ & Hlen & _).
  exists senders. split; [exact Hlen|exact Hnd].
Defined.

Lemma send_output_shares_exact_witness :
  (send_output_shares all_up party1 sample_eid client1 (sample_share party1) sample_two_sent).2 =
    Err (server_error OutputSharesAlreadySent).
Proof.
  pose proof (outcome_eta (send_output_shares all_up party1 sample_eid client1 (sample_share party1)
    sample_two_sent)) as Hcall.
  destruct (send_output_shares_exact all_up party1 sample_eid client1 (sample_share party1)
    sample_two_sent (sample_get sample_two_sent) _ _ _
    (reachable_wf _ sample_two_sent_reachable) sample_two_sent_lookup Hcall)
    as (_ & _ & Hagain & _).
  apply Hagain; [| |apply is_some_true; by vm_compute]; apply (bool_decide_unpack _); by vm_compute.
Defined.

Lemma obtain_output_shares_exact_witness :
  (obtain_output_shares all_up (Some 6%positive) client1 sample_eid sample_waiting).2 =
    Ok (Rejected (server_error OutputSharesAlreadyRequested)).
Proof.
  pose proof (outcome_eta (obtain_output_shares all_up (Some 6%positive) client1 sample_eid
    sample_waiting)) as Hcall.
  pose proof (obtain_output_shares_exact all_up (Some 6%positive) client1 sample_eid sample_waiting
    _ _ _ (reachable_wf _ (obtain_output_shares_reachable _ _ _ _ _ sample_run_reachable)) Hcall)
    as Hx.
  rewrite (sample_get_Some sample_waiting) in Hx by (by vm_compute).
  replace (negb (contains (output_clients (sample_get sample_waiting)) client1)) with false in Hx
    by (by vm_compute).
  replace (has_open_waiter all_up client1 (sample_get sample_waiting)) with true in Hx
    by (by vm_compute).
  exact (proj1 Hx).
Defined.
