(* ===== verification/Feed.v ===== *)
(** The masked-input feed under concurrency.  [submit_masked_inputs] takes the delivery
    lock of its execution, commits, releases the state lock while it writes to the
    subscribers it took out, and then puts back those it reached.  Between these
    points every other handler may run: the world below interleaves any number of
    submissions, to any executions, with every other segment of the coordinator,
    registrations (and the evictions they cause) included. *)
From S2P Require Import Prelude Shared Execution Samples Rounds Sessions Server Rpc Invariant History Topology Machine.

(** ** The other segments

    Every segment of a handler of the coordinator, with what it sends, apart from
    registration, the submission of inputs and the subscription to the feed. *)
Inductive other_feed (net : Net) : (SubscriptionSink → Exec → Exec * list Send) → Prop :=
  | other_reserved : other_feed net (subscribe_reserved_indices net)
  | other_assigned_reserved : other_feed net (subscribe_assigned_reserved_indices net)
  | other_assigned_masked : other_feed net (subscribe_assigned_masked_inputs net).

Inductive segment `{HashOrder} (s : Server) : Server → list Send → Prop :=
  | seg_retire self eid s' log r :
      rpc_retire_execution self eid s = (s', log, r) → segment s s' log
  | seg_shutdown self s' fired r :
      rpc_request_shutdown self s = (s', fired, r) → segment s s' []
  | seg_watch eid tx : segment s (watch_for_shutdown_request eid tx s).1 []
  | seg_reserve net self eid indices s' log r :
      reserve_mask_indices net self eid indices s = (s', log, r) → segment s s' log
  | seg_vote self eid next_round s' log r :
      rpc_transition self eid next_round s = (s', log, r) → segment s s' log
  | seg_store self eid client_id enc_shares s' log r :
      with_execution eid
        (store_output_shares self client_id (contains (mpc_nodes s) self) enc_shares) s
        = (s', log, r) → segment s s' log
  | seg_snapshot net eid client_id k s' r :
      output_snapshot net eid client_id k s = (s', r) → segment s s' []
  | seg_send_outputs waiter shares : segment s s [(waiter, MOutputShares shares)]
  | seg_forget eid client_id waiter : segment s (forget_waiter eid client_id waiter s) []
  | seg_sub_round eid r sink s' log :
      sub_round_attach eid r sink s = (s', log) → segment s s' log
  | seg_sub_events net attach accept eid s' log r :
      other_feed net attach → sub_events attach accept eid s = (s', log, r) → segment s s' log
  | seg_obtain net self eid sink s' o :
      obtain_attach net self eid sink s = (s', o) → segment s s' []
  | seg_bind encode draws eid binding token b :
      bindings_insert encode draws eid binding (webauthn_bindings s) = Some (token, b) →
      segment s (s <| webauthn_bindings := b |>) []
  | seg_pin eid session_token :
      segment s (s <| webauthn_bindings ::= fun b => pin_binding_from_token b eid session_token |>) [].

(** ** Submissions in progress *)

(** Where a call of [submit_masked_inputs] is: it holds a handle on the delivery lock
    and waits for it; it has the lock, has committed and has still to send; it has
    sent and has still to put its subscribers back. *)
Inductive Phase : Type :=
  | Waiting (self : ClientIdentity) (inputs : list bytes) (indices : list u64)
  | Committed (p : PendingSubmit)
  | Sent (p : PendingSubmit).

Record Submission : Type := mkSubmission {
  sub_eid : ExecutionId;
  sub_lock : LockId;
  sub_phase : Phase }.

Definition advance (t : Submission) (ph : Phase) : Submission :=
  mkSubmission (sub_eid t) (sub_lock t) ph.

(** What a submission that has the lock works on. *)
Definition in_hand (ph : Phase) : option PendingSubmit :=
  match ph with
  | Waiting _ _ _ => None
  | Committed p | Sent p => Some p
  end.
Definition in_flight (t : Submission) : option PendingSubmit := in_hand (sub_phase t).

(** The coordinator, the submissions in progress and everything sent so far.  The last
    three fields only observe: which execution each sink of the feed was opened for,
    the sinks that were lost (a send to them failed, their submission was cancelled,
    or their execution was reclaimed), and the identifiers that were registered again
    while a submission under the same identifier was still in progress. *)
Record World : Type := mkWorld {
  sv : Server;
  tasks : gmap positive Submission;
  wire : list Send;
  opened : gmap SubscriptionSink ExecutionId;
  lost : gset SubscriptionSink;
  overtaken : gset ExecutionId }.

Definition start (s : Server) : World := mkWorld s ∅ [] ∅ ∅ ∅.

(** Nobody has the lock. *)
Definition lock_free (w : World) (lock : LockId) : Prop :=
  ∀ k t, tasks w !! k = Some t → sub_lock t = lock → in_flight t = None.

(** The sinks opened for executions that are not registered. *)
Definition orphans (s : Server) (opened : gmap SubscriptionSink ExecutionId) : gset SubscriptionSink :=
  dom (filter (fun x => executions s !! x.2 = None) opened).

(** The identifiers a step registered while a submission to them was in progress. *)
Definition newly_overtaken (s s' : Server) (tasks : gmap positive Submission) (eid : ExecutionId)
    : gset ExecutionId :=
  if bool_decide (executions s !! eid = None ∧ executions s' !! eid ≠ None ∧
                  map_Exists (fun _ t => sub_eid t = eid) tasks)
  then {[eid]} else ∅.

(** Every message of a replay gets through. *)
Definition replay_complete (net : Net) (sink : SubscriptionSink) (k : nat) : bool :=
  forallb (send_ok net sink) (seq 0 k).

(** A submission may also end at any point: its execution is gone, or its future is
    dropped, perhaps after some of the sends. *)
Inductive world_step `{HashOrder} (w : World) : World → Prop :=
  | ws_register self reg delivery s' log r :
      rpc_register_execution self reg delivery (sv w) = (s', log, r) →
      world_step w (mkWorld s' (tasks w) (wire w ++ log) (opened w) (lost w ∪ orphans s' (opened w))
                      (overtaken w ∪ newly_overtaken (sv w) s' (tasks w) (execution_id reg)))
  | ws_other s' log :
      segment (sv w) s' log →
      world_step w (mkWorld s' (tasks w) (wire w ++ log) (opened w) (lost w) (overtaken w))
  | ws_subscribe net sink eid d d' log :
      opened w !! sink = None → executions (sv w) !! eid = Some d →
      subscribe_masked_inputs net sink d = (d', log) →
      world_step w (mkWorld (put_execution eid d' (sv w)) (tasks w) (wire w ++ log)
                      (<[sink := eid]> (opened w))
                      (if replay_complete net sink (length (masked_input_events d))
                       then lost w else {[sink]} ∪ lost w) (overtaken w))
  | ws_begin k self eid inputs indices d :
      tasks w !! k = None → executions (sv w) !! eid = Some d →
      world_step w (mkWorld (sv w)
                      (<[k := mkSubmission eid (masked_input_delivery d) (Waiting self inputs indices)]> (tasks w))
                      (wire w) (opened w) (lost w) (overtaken w))
  | ws_commit k t self inputs indices d d' p :
      tasks w !! k = Some t → sub_phase t = Waiting self inputs indices →
      lock_free w (sub_lock t) → executions (sv w) !! sub_eid t = Some d →
      submit_commit self inputs indices d = (d', Ok p) →
      world_step w (mkWorld (put_execution (sub_eid t) d' (sv w))
                      (<[k := advance t (Committed p)]> (tasks w))
                      (wire w) (opened w) (lost w) (overtaken w))
  | ws_refused k t self inputs indices d d' e :
      tasks w !! k = Some t → sub_phase t = Waiting self inputs indices →
      lock_free w (sub_lock t) → executions (sv w) !! sub_eid t = Some d →
      submit_commit self inputs indices d = (d', Err e) →
      world_step w (mkWorld (put_execution (sub_eid t) d' (sv w)) (delete k (tasks w))
                      (wire w) (opened w) (lost w) (overtaken w))
  | ws_send k t p :
      tasks w !! k = Some t → sub_phase t = Committed p →
      world_step w (mkWorld (sv w) (<[k := advance t (Sent p)]> (tasks w))
                      (wire w ++ submit_sends p) (opened w) (lost w) (overtaken w))
  | ws_finish net k t p head d d' log r :
      tasks w !! k = Some t → sub_phase t = Sent p → roster_head (sv w) = Ok head →
      executions (sv w) !! sub_eid t = Some d →
      submit_finish net (transition_quorum (sv w)) head p d = (d', log, r) →
      world_step w (mkWorld (put_execution (sub_eid t) d' (sv w)) (delete k (tasks w))
                      (wire w ++ log) (opened w)
                      (lost w ∪ list_to_set (filter (fun s => send_ok net s 0 = false) (ps_sinks p)))
                      (overtaken w))
  | ws_end k t log :
      tasks w !! k = Some t →
      (∀ x, x ∈ log → ∃ p, sub_phase t = Committed p ∧ x ∈ submit_sends p) →
      world_step w (mkWorld (sv w) (delete k (tasks w)) (wire w ++ log) (opened w)
                      (lost w ∪ list_to_set (from_option ps_sinks [] (in_flight t))) (overtaken w)).

(** The masked-input events sent to a subscriber, in order. *)
Definition masked_event (sink : SubscriptionSink) (x : Send) : option Event :=
  match x with
  | (s, MEvent (MaskedInputEvent c l)) =>
      if decide (s = sink) then Some (MaskedInputEvent c l) else None
  | _ => None
  end.
Definition feed_of (sink : SubscriptionSink) (log : list Send) : list Event :=
  omap (masked_event sink) log.

Definition is_masked_event (e : Event) : Prop := ∃ c l, e = MaskedInputEvent c l.

Section feed.
Context `{HashOrder}.

Lemma feed_of_app sink l1 l2 : feed_of sink (l1 ++ l2) = feed_of sink l1 ++ feed_of sink l2.
Proof. unfold feed_of. apply omap_app. Qed.

Lemma feed_of_none sink log : (∀ x, x ∈ log → masked_event sink x = None) → feed_of sink log = [].
Proof.
  unfold feed_of. induction log as [|x log IH]; intros Hx; [done|]. cbn [omap list_omap].
  rewrite (Hx x) by left. apply IH. intros y Hy. apply Hx. by right.
Qed.

(** Messages that are not masked-input events do not matter. *)
Lemma feed_of_broadcast_other sink sinks m :
  (∀ e, m = MEvent e → ¬ is_masked_event e) → feed_of sink (broadcast sinks m) = [].
Proof.
  intros Hm. apply feed_of_none. intros x (s & -> & _)%list_elem_of_fmap. simpl.
  destruct m as [e| | |]; [|done..]. destruct e; try done.
  exfalso. eapply Hm; [done|]. by eexists _, _.
Qed.

(** A broadcast reaches each of its sinks once. *)
Lemma feed_of_broadcast sink sinks e :
  is_masked_event e → NoDup sinks →
  feed_of sink (broadcast sinks (MEvent e)) = if decide (sink ∈ sinks) then [e] else [].
Proof.
  intros (c & l & ->). induction sinks as [|s sinks IH]; intros Hnd.
  { case_decide as Hd; [by apply not_elem_of_nil in Hd|done]. }
  apply NoDup_cons in Hnd as [Hs Hnd]. unfold feed_of in *. cbn [broadcast fmap list_fmap omap list_omap].
  cbn [masked_event]. fold (broadcast sinks (MEvent (MaskedInputEvent c l))). rewrite (IH Hnd).
  destruct (decide (s = sink)) as [->|Hne].
  - rewrite (decide_False (P := sink ∈ sinks)) by done. rewrite decide_True; [done|left].
  - apply decide_ext. rewrite elem_of_cons. naive_solver.
Qed.

Lemma feed_of_transitions sink head quorum d d' dels :
  advanced quorum head d d' dels → feed_of sink (deliver_transitions dels) = [].
Proof.
  intros Hadv. pose proof (adv_dels _ _ _ _ _ Hadv) as Hall. apply feed_of_none.
  intros x ([[r e] w] & Hx & Hin)%list_elem_of_bind. rewrite Forall_forall in Hall.
  destruct (Hall _ Hin) as [He _]. simpl in Hx. apply list_elem_of_fmap in Hx as (s & -> & _).
  simpl. destruct r; simplify_eq/=; done.
Qed.

(** Replaying a history that succeeds delivers it once, in order. *)
Lemma replay_ok net sink k msgs log :
  replay net sink k msgs = (log, true) → log = (fun m => (sink, m)) <$> msgs.
Proof.
  revert k log. induction msgs as [|m msgs IH]; intros k log; simpl; [by intros [= <-]|].
  destruct (send_ok net sink k); [|done].
  destruct (replay net sink (S k) msgs) as [log' ok] eqn:Hr. intros [= <- ->].
  by rewrite (IH _ _ Hr).
Qed.

Lemma replay_elem net sink k msgs log ok x :
  replay net sink k msgs = (log, ok) → x ∈ log → ∃ m, m ∈ msgs ∧ x = (sink, m).
Proof.
  revert k log ok. induction msgs as [|m msgs IH]; intros k log ok; simpl.
  { intros [= <- <-] Hx. by apply not_elem_of_nil in Hx. }
  destruct (send_ok net sink k).
  - destruct (replay net sink (S k) msgs) as [log' ok'] eqn:Hr. intros [= <- <-].
    intros [->|Hx]%elem_of_cons; [exists m; split; [left|done]|].
    destruct (IH _ _ _ Hr Hx) as (m' & ? & ->). exists m'. split; [by right|done].
  - intros [= <- <-]. intros ->%list_elem_of_singleton. exists m. split; [left|done].
Qed.

Lemma feed_of_replayed sink evs :
  Forall is_masked_event evs → feed_of sink ((fun m => (sink, m)) <$> (MEvent <$> evs)) = evs.
Proof.
  induction 1 as [|e evs (c & l & ->) _ IH]; [done|]. unfold feed_of in *.
  cbn [fmap list_fmap omap list_omap]. cbn [masked_event]. rewrite decide_True by done.
  f_equal. exact IH.
Qed.

(** A replay of other messages sends none of the feed's events. *)
Lemma feed_of_replay_other net sink k msgs log ok s :
  replay net sink k msgs = (log, ok) →
  (∀ m e, m ∈ msgs → m = MEvent e → ¬ is_masked_event e) → feed_of s log = [].
Proof.
  intros Hr Hm. apply feed_of_none. intros x Hx.
  destruct (replay_elem _ _ _ _ _ _ _ Hr Hx) as (m & Hin & ->). simpl.
  destruct m as [e| | |]; [|done..]. destruct e; try done.
  exfalso. eapply Hm; [done..|]. by eexists _, _.
Qed.


(** ** What the other segments leave alone *)

(** Events of the other feeds and of the rounds are of other kinds. *)
Definition quiet (d : Exec) : Prop :=
  Forall (fun e => ¬ is_masked_event e) (reserved_index_events d) ∧
  ∀ r e, trans_events d !! r = Some e → ¬ is_masked_event e.

Record same_feed (d d' : Exec) : Prop := {
  sf_events : masked_input_events d' = masked_input_events d;
  sf_sinks : masked_input_sinks d' = masked_input_sinks d;
  sf_delivery : masked_input_delivery d' = masked_input_delivery d;
  sf_inputs : masked_inputs d' = masked_inputs d;
  sf_registration : registration d' = registration d;
  sf_reserved : ∀ i c, reserved_indices d !! i = Some (Some c) → reserved_indices d' !! i = Some (Some c);
  sf_quiet : quiet d → quiet d' }.

Lemma same_feed_refl d : same_feed d d.
Proof. by constructor. Qed.

(** The executions are the same ones, each as far as the feed is concerned unchanged,
    and nothing of the feed was sent. *)
Definition framed (s s' : Server) (log : list Send) : Prop :=
  (∀ eid, (executions s !! eid = None ∧ executions s' !! eid = None) ∨
     ∃ d d', executions s !! eid = Some d ∧ executions s' !! eid = Some d' ∧ same_feed d d') ∧
  ∀ sink, feed_of sink log = [].

Lemma framed_same s s' log :
  executions s' = executions s → (∀ sink, feed_of sink log = []) → framed s s' log.
Proof.
  intros He Hl. split; [|done]. intros eid. rewrite He.
  destruct (executions s !! eid) as [d|]; [right|by left]. eauto using same_feed_refl.
Qed.

Lemma framed_put eid d d' s log :
  executions s !! eid = Some d → same_feed d d' → (∀ sink, feed_of sink log = []) →
  framed s (put_execution eid d' s) log.
Proof.
  intros Hd Hs Hl. split; [|done]. intros e. simpl. rewrite lookup_insert. case_decide as He.
  { subst e. eauto 10. }
  destruct (executions s !! e) as [x|]; [right|by left]. eauto using same_feed_refl.
Qed.

Lemma with_execution_framed {A} eid (f : Exec → Exec * list Send * result ErrorObject A) s s' log r :
  (∀ d d' log r, executions s !! eid = Some d → f d = (d', log, r) →
     same_feed d d' ∧ ∀ sink, feed_of sink log = []) →
  with_execution eid f s = (s', log, r) → framed s s' log.
Proof.
  intros Hf. unfold with_execution, execution_state.
  destruct (executions s !! eid) as [d|] eqn:Hd; simpl; [|intros [= <- <- _]; by apply framed_same].
  destruct (f d) as [[d' log'] r'] eqn:Hfd. intros [= <- <- _].
  destruct (Hf d d' log' r' eq_refl Hfd). by eapply framed_put.
Qed.

Lemma round_event_quiet head r e : round_event head r = Some e → ¬ is_masked_event e.
Proof. destruct r; intros [= <-] (c & l & Hx); done. Qed.

Lemma advanced_same_feed quorum head d d' dels : advanced quorum head d d' dels → same_feed d d'.
Proof.
  intros Hadv. pose proof (adv_frame _ _ _ _ _ Hadv) as Hf. constructor.
  - exact (f_equal masked_input_events Hf).
  - exact (f_equal masked_input_sinks Hf).
  - exact (f_equal masked_input_delivery Hf).
  - exact (f_equal masked_inputs Hf).
  - exact (f_equal registration Hf).
  - intros i c. pose proof (f_equal reserved_indices Hf) as Hr. simpl in Hr. by rewrite Hr.
  - intros [H1 H2]. split; [by rewrite (f_equal reserved_index_events Hf)|].
    intros r e. rewrite (adv_events _ _ _ _ _ Hadv). case_decide; [apply round_event_quiet|apply H2].
Qed.

Lemma same_feed_trans d1 d2 d3 : same_feed d1 d2 → same_feed d2 d3 → same_feed d1 d3.
Proof.
  intros [] []. constructor; [congruence..| |]; auto.
Qed.

Lemma transition_vote_framed self quorum head next_round d d' log r :
  transition_vote self quorum head next_round d = (d', log, r) →
  same_feed d d' ∧ ∀ sink, feed_of sink log = [].
Proof.
  unfold transition_vote. intros Hr. case_match; [simplify_eq; by split|].
  match type of Hr with context [try_advance _ _ ?x] =>
    destruct (try_advance_ok quorum head x) as (d2 & dels & Heq & Hadv & _) end.
  rewrite Heq in Hr. injection Hr as <- <- _. split.
  - eapply same_feed_trans, advanced_same_feed, Hadv. by constructor.
  - intros sink. by eapply feed_of_transitions.
Qed.

Lemma reserve_batch_framed net self indices d d' log r :
  reserve_batch net self indices d = (d', log, r) →
  same_feed d d' ∧ ∀ sink, feed_of sink log = [].
Proof.
  intros Hr. pose proof (reserve_batch_le _ _ _ _ _ _ _ Hr) as Hle.
  apply reserve_batch_cases in Hr as [(e & _ & _ & -> & ->)|[(_ & _ & -> & ->)|(_ & _ & Hd)]]; [by split..|].
  simpl in Hd.
  assert (quiet d → Forall (fun e => ¬ is_masked_event e)
    (reserved_index_events d ++ [ReservedInputEvent self indices])) as Hall.
  { intros [? _]. apply Forall_app. split; [done|]. repeat constructor. by intros (? & ? & ?). }
  case_bool_decide; destruct Hd as [-> ->];
    (split; [constructor; [done..|apply Hle|intros Hq; split; [by apply Hall|apply Hq]]|]); intros sink;
    rewrite ?feed_of_app, !feed_of_broadcast_other; try done; by intros e [= <-] (c & l & Hx).
Qed.

Lemma other_feed_framed net attach sink d d' log :
  quiet d → other_feed net attach → attach sink d = (d', log) →
  same_feed d d' ∧ ∀ s, feed_of s log = [].
Proof.
  intros [Hres _] Ho Ha.
  destruct Ho; unfold subscribe_reserved_indices, subscribe_assigned_reserved_indices,
    subscribe_assigned_masked_inputs in Ha; destruct (replay _ _ _ _) as [l ok] eqn:Hrep;
    (assert (∀ s, feed_of s l = []) as Hl;
      [intros s; eapply feed_of_replay_other; [done|]; intros m e Hin Hm; subst m
      |destruct ok; injection Ha as <- <-; (split; [by constructor|done])]).
  - apply list_elem_of_fmap in Hin as (e' & [= ->] & Hin). rewrite Forall_forall in Hres. auto.
  - case_bool_decide; [by apply not_elem_of_nil in Hin|]. apply list_elem_of_singleton in Hin. done.
  - case_bool_decide; [by apply not_elem_of_nil in Hin|]. apply list_elem_of_singleton in Hin. done.
Qed.

Lemma segment_framed s s' log :
  (∀ eid d, executions s !! eid = Some d → quiet d) → segment s s' log → framed s s' log.
Proof.
  intros Hquiet. destruct 1 as [self eid s' log r Hr|self s' fired r Hr|eid tx|net self eid indices s' log r Hr
    |self eid nr s' log r Hr|self eid c sh s' log r Hr|net eid c k s' r Hr|waiter sh|eid c w
    |eid r sink s' log Hr|net attach accept eid s' log r Ho Hr|net self eid sink s' o Hr
    |encode draws eid b tok b' Hr|eid tok]; try by apply framed_same.
  - unfold rpc_retire_execution in Hr. case_match; [simplify_eq; by apply framed_same|].
    destruct (retire_execution eid self s) as [s1 r1] eqn:Hret. injection Hr as <- <- _.
    apply retire_execution_cases in Hret as [(_ & -> & _)|(_ & _ & [[_ ->]|[(_ & _ & ->)|(d & _ & Hd & ->)]])];
      [by apply framed_same..|]. eapply framed_put; [done|by constructor|done].
  - apply framed_same; [|done]. unfold rpc_request_shutdown in Hr. repeat case_match; by simplify_eq.
  - eapply with_execution_framed, Hr. intros d d' log' r' _. apply reserve_batch_framed.
  - unfold rpc_transition in Hr.
    destruct (roster_head s) as [head| |]; [|simplify_eq; by apply framed_same..].
    destruct (negb _); [simplify_eq; by apply framed_same|].
    destruct (round_before nr); [|simplify_eq; by apply framed_same].
    eapply with_execution_framed, Hr. intros d d' log' r' _. apply transition_vote_framed.
  - eapply with_execution_framed, Hr. intros d d' log' r' _ Hst. unfold store_output_shares in Hst.
    repeat case_match; simplify_eq; (split; [by constructor|done]).
  - unfold output_snapshot in Hr. destruct (executions s !! eid) as [d|] eqn:Hd; [|simplify_eq; by apply framed_same].
    destruct (ready_output_snapshot net c k d) as [d' o] eqn:Hs. injection Hr as <- _.
    eapply framed_put; [done| |done]. unfold ready_output_snapshot in Hs.
    repeat case_match; simplify_eq; by constructor.
  - unfold forget_waiter. destruct (executions s !! eid) as [d|] eqn:Hd; [|by apply framed_same].
    case_bool_decide; [|by apply framed_same]. eapply framed_put; [done|by constructor|done].
  - unfold sub_round_attach in Hr. destruct (executions s !! eid) as [d|] eqn:Hd; [|simplify_eq; by apply framed_same].
    destruct (trans_events d !! r) as [e|] eqn:He; injection Hr as <- <-.
    + apply framed_same; [done|]. intros k. apply feed_of_none. intros x ->%list_elem_of_singleton.
      destruct (Hquiet _ _ Hd) as [_ Hq]. specialize (Hq _ _ He). simpl. destruct e; try done.
      destruct Hq. by eexists _, _.
    + eapply framed_put; [done|by constructor|done].
  - unfold sub_events in Hr. destruct (executions s !! eid) as [d|] eqn:Hd, accept as [sink|];
      try (simplify_eq; by apply framed_same).
    destruct (attach sink d) as [d' log'] eqn:Ha. injection Hr as <- <- _.
    destruct (other_feed_framed _ _ _ _ _ _ (Hquiet _ _ Hd) Ho Ha). by eapply framed_put.
  - unfold obtain_attach in Hr. destruct (executions s !! eid) as [d|] eqn:Hd; [|simplify_eq; by apply framed_same].
    case_match; simplify_eq; [by apply framed_same|]. eapply framed_put; [done|by constructor|done].
Qed.

(** ** What a registration does *)

Record fresh_execution (reg : ExecutionRegistration) (d : Exec) : Prop := {
  fe_registration : registration d = reg;
  fe_events : masked_input_events d = [];
  fe_sinks : masked_input_sinks d = [];
  fe_quiet : quiet d;
  fe_inputs : masked_inputs d = replicate (N.to_nat (n_inputs reg)) None;
  fe_width : (n_inputs reg < u64_modulus)%N }.

Lemma new_execution_fresh reg k delivery d : new_execution reg k delivery = Ok d → fresh_execution reg d.
Proof.
  intros Hn. inv_new Hn. reflect_bool. by constructor.
Qed.

(** Every registered execution stays as it is or is reclaimed; a new one is fresh. *)
Lemma register_lookup self reg delivery s s' log r :
  rpc_register_execution self reg delivery s = (s', log, r) →
  log = [] ∧ ∀ eid, executions s' !! eid = executions s !! eid ∨ executions s' !! eid = None ∨
    (eid = execution_id reg ∧ executions s !! eid = None ∧
     ∃ d, executions s' !! eid = Some d ∧ fresh_execution reg d).
Proof.
  unfold rpc_register_execution. intros Hr. case_match; [simplify_eq; auto|].
  destruct (register_execution reg delivery s) as [s1 r1] eqn:Hreg. injection Hr as <- <- _. split; [done|].
  apply register_execution_outcome in Hreg. intros eid.
  assert (∀ s2, room_made s s2 → executions s2 !! eid = executions s !! eid ∨ executions s2 !! eid = None) as Hroom.
  { intros s2 [|e d]; [by left|]. simpl. rewrite lookup_delete. case_decide; auto. }
  destruct Hreg as [| | |s2 d Hnone Hr Hn|s2 e Hnone Hr Hn|s2 Hnone Hr Hn]; try (by left);
    destruct (Hroom _ Hr) as [Hx|Hx]; auto; simpl; rewrite lookup_insert; (case_decide as He; [|auto]);
    subst eid; right; right; (split; [done|]); (split; [done|]); exists d; (split; [done|]);
    by eapply new_execution_fresh.
Qed.

(** ** Runs are runs of the coordinator *)

Lemma segment_step s s' log : segment s s' log → s' = s ∨ step s s'.
Proof.
  destruct 1 as [self eid s' log r Hr|self s' fired r Hr|eid tx|net self eid indices s' log r Hr
    |self eid nr s' log r Hr|self eid c sh s' log r Hr|net eid c k s' r Hr|waiter sh|eid c w
    |eid r sink s' log Hr|net attach accept eid s' log r Ho Hr|net self eid sink s' o Hr
    |encode draws eid b tok b' Hr|eid tok]; [right..| |right|right|right|right|right|right]; [..|by left| | | | | |].
  all: try by econstructor.
  eapply step_sub_events; [|exact Hr]. destruct Ho; constructor.
Qed.

Lemma world_step_reachable w w' : reachable (sv w) → world_step w w' → reachable (sv w').
Proof.
  intros Hr. destruct 1 as [self reg delivery s' log r Hs|s' log Hs|net sink eid d d' log _ Hd Hs
    |k self eid inputs indices d _ Hd|k t self inputs indices d d' p _ _ _ Hd Hs
    |k t self inputs indices d d' e _ _ _ Hd Hs|k t p _ _|net k t p head d d' log r _ _ Hh Hd Hs|k t log _ _];
    simpl; try done.
  - eapply reach_step; [done|by eapply step_register].
  - destruct (segment_step _ _ _ Hs) as [->|?]; [done|by eapply reach_step].
  - eapply reach_step; [done|]. eapply (step_sub_events _ net (subscribe_masked_inputs net) (Some sink) eid);
      [constructor|]. unfold sub_events. by rewrite Hd, Hs.
  - eapply reach_step; [done|by eapply step_submit_commit].
  - eapply reach_step; [done|by eapply step_submit_commit].
  - eapply reach_step; [done|by eapply step_submit_finish].
Qed.

Lemma world_run_reachable s0 w : reachable s0 → rtc world_step (start s0) w → reachable (sv w).
Proof.
  intros H0 Hrun. assert (reachable (sv (start s0))) as Hs by done. revert Hs.
  induction Hrun; eauto using world_step_reachable.
Qed.
End feed.
