(* ===== verification/FeedFacts.v ===== *)
(** The masked-input feed is delivered exactly once and in order, whatever the
    interleaving: the invariant of the worlds of [Feed] and its consequences. *)
From S2P Require Import Prelude Shared Execution Samples Rounds Sessions Server Rpc ServerSamples Invariant.
From S2P Require Import Machine Inputs Feed.

(** ** The invariant *)

(** What a submission in progress still owes to the sinks it took. *)
Definition flight_ok (d : Exec) (log : list Send) (ph : Phase) : Prop :=
  match ph with
  | Waiting _ _ _ => True
  | Committed p =>
      NoDup (ps_sinks p) ∧ masked_input_sinks d ## ps_sinks p ∧
      ∃ before, masked_input_events d = before ++ [ps_event p] ∧
        ∀ s, s ∈ ps_sinks p → feed_of s log = before
  | Sent p =>
      NoDup (ps_sinks p) ∧ masked_input_sinks d ## ps_sinks p ∧
      ∀ s, s ∈ ps_sinks p → feed_of s log = masked_input_events d
  end.

Record feed_ok (ts : gmap positive Submission) (log : list Send) (eid : ExecutionId) (d : Exec) : Prop := {
  fo_lock : ∀ k t, ts !! k = Some t → sub_eid t = eid → sub_lock t = masked_input_delivery d;
  fo_nodup : NoDup (masked_input_sinks d);
  fo_attached : ∀ s, s ∈ masked_input_sinks d → feed_of s log = masked_input_events d;
  fo_flight : ∀ k t, ts !! k = Some t → sub_eid t = eid → flight_ok d log (sub_phase t) }.

(** A sink is attached to the execution, or taken out of it by a submission. *)
Definition subscribed (d : Exec) (ts : gmap positive Submission) (eid : ExecutionId) (s : SubscriptionSink) : Prop :=
  s ∈ masked_input_sinks d ∨
  ∃ k t p, ts !! k = Some t ∧ sub_eid t = eid ∧ in_flight t = Some p ∧ s ∈ ps_sinks p.

Record world_ok (w : World) : Prop := {
  wo_shape : ∀ eid d, executions (sv w) !! eid = Some d →
    Forall is_masked_event (masked_input_events d) ∧ quiet d;
  wo_attached : ∀ eid d s, executions (sv w) !! eid = Some d → s ∈ masked_input_sinks d →
    opened w !! s = Some eid;
  wo_flight : ∀ k t p s, tasks w !! k = Some t → in_flight t = Some p → s ∈ ps_sinks p →
    opened w !! s = Some (sub_eid t);
  wo_unopened : ∀ s, opened w !! s = None → feed_of s (wire w) = [];
  wo_locks : ∀ k k' t t', tasks w !! k = Some t → tasks w !! k' = Some t' → sub_lock t = sub_lock t' →
    is_Some (in_flight t) → is_Some (in_flight t') → k = k';
  wo_feed : ∀ eid d, executions (sv w) !! eid = Some d → eid ∉ overtaken w →
    feed_ok (tasks w) (wire w) eid d;
  wo_kept : ∀ s eid, opened w !! s = Some eid → s ∉ lost w →
    ∃ d, executions (sv w) !! eid = Some d ∧ subscribed d (tasks w) eid s }.

Section feed.
Context `{HashOrder}.

(** A flight does not notice what is not sent to its sinks. *)
Lemma flight_ok_frame d d' log more ph :
  masked_input_events d' = masked_input_events d →
  (∀ p, in_hand ph = Some p → masked_input_sinks d' ## ps_sinks p) →
  (∀ p s, in_hand ph = Some p → s ∈ ps_sinks p → feed_of s more = []) →
  flight_ok d log ph → flight_ok d' (log ++ more) ph.
Proof.
  intros He Hs Hm. destruct ph as [| p|p]; simpl in *; [done|..].
  - intros (H1 & _ & before & H3 & H4). rewrite He. split_and!; [done|by apply Hs|]. exists before. split; [done|].
    intros s Hin. rewrite feed_of_app, (Hm p s), app_nil_r by done. auto.
  - intros (H1 & _ & H3). rewrite He. split_and!; [done|by apply Hs|].
    intros s Hin. rewrite feed_of_app, (Hm p s), app_nil_r by done. auto.
Qed.

Lemma flight_disjoint d log ph p : flight_ok d log ph → in_hand ph = Some p → masked_input_sinks d ## ps_sinks p.
Proof. destruct ph; intros Hf [= ->]; apply Hf. Qed.

(** Nor does an execution notice what is sent to the sinks of others. *)
Lemma feed_ok_frame ts ts' log more eid d d' :
  (∀ k t, ts' !! k = Some t → sub_eid t = eid → ts !! k = Some t) →
  same_feed d d' →
  (∀ s, s ∈ masked_input_sinks d → feed_of s more = []) →
  (∀ k t p s, ts' !! k = Some t → sub_eid t = eid → in_flight t = Some p → s ∈ ps_sinks p → feed_of s more = []) →
  feed_ok ts log eid d → feed_ok ts' (log ++ more) eid d'.
Proof.
  intros Hts [He Hs Hd _ _ _ _] Hm Hp [Hl Hn Ha Hf]. constructor; rewrite ?He, ?Hs, ?Hd; [by eauto|done|..].
  - intros s Hin. rewrite feed_of_app, Hm, app_nil_r by done. auto.
  - intros k t Hk Heid. pose proof (Hf k t (Hts _ _ Hk Heid) Heid) as Hok.
    eapply flight_ok_frame; [done| |by eauto|exact Hok].
    intros p Hin. rewrite Hs. by eapply flight_disjoint.
Qed.

(** ** What the segments of a submission do to the feed *)

Record commits (d d' : Exec) (p : PendingSubmit) : Prop := {
  co_events : masked_input_events d' = masked_input_events d ++ [ps_event p];
  co_event : is_masked_event (ps_event p);
  co_sinks : masked_input_sinks d' = [];
  co_taken : ps_sinks p = masked_input_sinks d;
  co_delivery : masked_input_delivery d' = masked_input_delivery d;
  co_quiet : quiet d → quiet d' }.

Lemma submit_commit_commits self inputs indices d d' p :
  submit_commit self inputs indices d = (d', Ok p) → commits d d' p.
Proof.
  intros Hc. apply submit_commit_cases in Hc as [(e & _ & [=] & _)|[(_ & [=] & _)|(_ & Hd)]]. simpl in Hd.
  case_bool_decide; destruct Hd as [-> [= ->]]; constructor; simpl; try done; by eexists _, _.
Qed.

Lemma submit_commit_refused self inputs indices d d' e :
  submit_commit self inputs indices d = (d', Err e) → d' = d.
Proof.
  intros Hc. apply submit_commit_cases in Hc as [(e' & _ & _ & ->)|[(_ & [=] & _)|(_ & Hd)]]; [done|].
  simpl in Hd. case_bool_decide; by destruct Hd as [_ [=]].
Qed.

Record finishes (net : Net) (p : PendingSubmit) (d d' : Exec) (log : list Send) : Prop := {
  fi_events : masked_input_events d' = masked_input_events d;
  fi_sinks : masked_input_sinks d' = masked_input_sinks d ++ delivered net (ps_sinks p);
  fi_delivery : masked_input_delivery d' = masked_input_delivery d;
  fi_quiet : quiet d → quiet d';
  fi_log : ∀ s, feed_of s log = [] }.

Lemma submit_finish_finishes net quorum head p d d' log r :
  submit_finish net quorum head p d = (d', log, r) → finishes net p d d' log.
Proof.
  unfold submit_finish. intros Hf.
  match type of Hf with context [try_advance _ _ ?x] =>
    destruct (try_advance_ok quorum head x) as (d2 & dels & Heq & Hadv & _) end.
  rewrite Heq in Hf. injection Hf as <- <- _.
  pose proof (advanced_same_feed _ _ _ _ _ Hadv) as [H1 H2 H3 _ _ _ H7].
  constructor; [done..|]. intros s. by eapply feed_of_transitions.
Qed.

(** Only the sinks a submission took are sent its event. *)
Lemma feed_of_submit_sends_ne s p log :
  s ∉ ps_sinks p → (∀ x, x ∈ log → x ∈ submit_sends p) → feed_of s log = [].
Proof.
  intros Hs Hlog. apply feed_of_none. intros x [Hx|Hx]%Hlog%elem_of_app;
    apply list_elem_of_fmap in Hx as (s' & -> & Hin); simpl; [|done].
  destruct (ps_event p); try done. by rewrite decide_False by congruence.
Qed.

Lemma feed_of_submit_sends s p :
  is_masked_event (ps_event p) → NoDup (ps_sinks p) → s ∈ ps_sinks p →
  feed_of s (submit_sends p) = [ps_event p].
Proof.
  intros He Hn Hs. unfold submit_sends. rewrite feed_of_app, feed_of_broadcast, decide_True by done.
  by rewrite feed_of_broadcast_other.
Qed.

Lemma replay_spec net sink k msgs :
  (replay net sink k msgs).2 = forallb (send_ok net sink) (seq k (length msgs)).
Proof.
  revert k. induction msgs as [|m msgs IH]; intros k; [done|]. simpl.
  destruct (send_ok net sink k); [|done]. rewrite <-IH. by destruct (replay _ _ _ _).
Qed.

(** A subscription: the sink alone is sent something, the whole history if every
    message gets through, and only then it is attached. *)
Lemma subscribe_cases net sink d d' log :
  Forall is_masked_event (masked_input_events d) →
  subscribe_masked_inputs net sink d = (d', log) →
  (∀ s, s ≠ sink → feed_of s log = []) ∧
  if replay_complete net sink (length (masked_input_events d))
  then d' = d <| masked_input_sinks ::= (.++ [sink]) |> ∧ feed_of sink log = masked_input_events d
  else d' = d.
Proof.
  unfold subscribe_masked_inputs, replay_complete. intros He Hs.
  pose proof (replay_spec net sink 0 (MEvent <$> masked_input_events d)) as Hok.
  destruct (replay _ _ _ _) as [l ok] eqn:Hrep. rewrite length_fmap in Hok. simpl in Hok. subst ok.
  injection Hs as <- <-. split.
  - intros s Hne. apply feed_of_none. intros x Hx.
    destruct (replay_elem _ _ _ _ _ _ _ Hrep Hx) as (m & _ & ->). simpl.
    destruct m as [e| | |]; [|done..]. destruct e; try done. by rewrite decide_False.
  - case_match; [|done]. split; [done|].
    rewrite (replay_ok _ _ _ _ _ Hrep). by apply feed_of_replayed.
Qed.

(** ** Each step keeps the invariant *)

Lemma feed_of_nothing ts log eid d :
  (∀ k t, ts !! k = Some t → sub_eid t ≠ eid) → fresh_execution (registration d) d → feed_ok ts log eid d.
Proof.
  intros Hts [_ He Hs _ _ _]. constructor.
  - intros k t Hk Ht. by destruct (Hts k t).
  - rewrite Hs. constructor.
  - rewrite Hs. intros s Hin. by apply not_elem_of_nil in Hin.
  - intros k t Hk Ht. by destruct (Hts k t).
Qed.

Lemma segment_ok w s' log :
  world_ok w → segment (sv w) s' log →
  world_ok (mkWorld s' (tasks w) (wire w ++ log) (opened w) (lost w) (overtaken w)).
Proof.
  intros [H1 H2 H3 H4 H5 H6 H7] Hseg.
  destruct (segment_framed (sv w) s' log) as [Hfr Hlog]; [intros e d Hd; by eapply H1|done|].
  assert (∀ eid d', executions s' !! eid = Some d' → ∃ d, executions (sv w) !! eid = Some d ∧ same_feed d d') as Hb.
  { intros eid d' Hd'. destruct (Hfr eid) as [[_ ?]|(d & x & ? & ? & ?)]; [congruence|]. exists d. by simplify_eq. }
  constructor; simpl; [..|done| |].
  - intros eid d' (d & Hd & Hsf)%Hb. rewrite (sf_events _ _ Hsf). split; [by eapply H1|].
    eapply sf_quiet, H1; done.
  - intros eid d' s (d & Hd & Hsf)%Hb. rewrite (sf_sinks _ _ Hsf). by apply H2.
  - done.
  - intros s Hs. by rewrite feed_of_app, Hlog, H4.
  - intros eid d' (d & Hd & Hsf)%Hb Hov. by eapply feed_ok_frame; eauto.
  - intros s eid Hs Hl. destruct (H7 s eid Hs Hl) as (d & Hd & Hin).
    destruct (Hfr eid) as [[? _]|(x & d' & Hx & ? & Hsf)]; [congruence|]. exists d'. split; [done|].
    simplify_eq. unfold subscribed. by rewrite (sf_sinks _ _ Hsf).
Qed.

Lemma register_ok w self reg delivery s' log r :
  world_ok w → rpc_register_execution self reg delivery (sv w) = (s', log, r) →
  world_ok (mkWorld s' (tasks w) (wire w ++ log) (opened w) (lost w ∪ orphans s' (opened w))
              (overtaken w ∪ newly_overtaken (sv w) s' (tasks w) (execution_id reg))).
Proof.
  intros [H1 H2 H3 H4 H5 H6 H7] [-> Hlook]%register_lookup. rewrite app_nil_r.
  constructor; simpl; [..|done|done|done| |].
  - intros eid d Hd. destruct (Hlook eid) as [Hx|[Hx|(_ & _ & x & Hx & Hf)]];
      [rewrite Hx in Hd; eauto|congruence|]. simplify_eq. destruct Hf as [_ -> _ Hq _ _]. by split.
  - intros eid d s Hd. destruct (Hlook eid) as [Hx|[Hx|(_ & _ & x & Hx & Hf)]];
      [rewrite Hx in Hd; eauto|congruence|]. simplify_eq. destruct Hf as [_ _ Hs _ _ _]. rewrite Hs. intros Hin. by apply not_elem_of_nil in Hin.
  - intros eid d Hd Hov. apply not_elem_of_union in Hov as [Hov Hnew].
    destruct (Hlook eid) as [Hx|[Hx|(-> & Hnone & x & Hx & Hf)]]; [rewrite Hx in Hd; eauto|congruence|].
    simplify_eq. apply feed_of_nothing; [|by rewrite (fe_registration _ _ Hf)].
    intros k t Hk Ht. apply Hnew. unfold newly_overtaken. rewrite bool_decide_eq_true_2; [set_solver|].
    split_and!; [done|congruence|]. by exists k, t.
  - intros s eid Hs [Hl Hor]%not_elem_of_union. destruct (H7 s eid Hs Hl) as (d & Hd & Hin).
    destruct (Hlook eid) as [Hx|[Hx|(_ & Hnone & _)]]; [|exfalso|congruence].
    + exists d. by rewrite Hx.
    + apply Hor. unfold orphans. apply elem_of_dom. exists eid. by apply map_lookup_filter_Some.
Qed.

Lemma subscribe_ok w net sink eid d d' log :
  world_ok w → opened w !! sink = None → executions (sv w) !! eid = Some d →
  subscribe_masked_inputs net sink d = (d', log) →
  world_ok (mkWorld (put_execution eid d' (sv w)) (tasks w) (wire w ++ log)
              (<[sink := eid]> (opened w))
              (if replay_complete net sink (length (masked_input_events d))
               then lost w else {[sink]} ∪ lost w) (overtaken w)).
Proof.
  intros [H1 H2 H3 H4 H5 H6 H7] Hnew Hd Hsub. destruct (H1 _ _ Hd) as [He Hq].
  apply subscribe_cases in Hsub as [Hothers Hcase]; [|done].
  assert (masked_input_events d' = masked_input_events d ∧ masked_input_delivery d' = masked_input_delivery d ∧
    quiet d' ∧ ∀ s, s ∈ masked_input_sinks d' → s ∈ masked_input_sinks d ∨ s = sink) as (Hev & Hde & Hq' & Hsi).
  { case_match; [destruct Hcase as [-> _]|subst d']; simpl; (split_and!; [done..|]); [|by left].
    intros s. rewrite elem_of_app, list_elem_of_singleton. done. }
  assert (∀ s e, opened w !! s = Some e → s ≠ sink) as Hne by (intros s e Hs ->; congruence).
  constructor; simpl; [..|done| |].
  - intros e x. rewrite lookup_insert. case_decide; [|by apply H1]. intros [= <-]. by rewrite Hev.
  - intros e x s. rewrite lookup_insert. case_decide as Hx.
    + intros [= <-]. subst e. intros [Hin| ->]%Hsi; [|by rewrite lookup_insert_eq].
      pose proof (H2 _ _ _ Hd Hin) as Ho. rewrite lookup_insert_ne; [done|]. by eapply not_eq_sym, Hne.
    + intros Hex Hin. pose proof (H2 _ _ _ Hex Hin) as Ho. rewrite lookup_insert_ne; [done|]. by eapply not_eq_sym, Hne.
  - intros k t p s Hk Hp Hin. pose proof (H3 _ _ _ _ Hk Hp Hin) as Ho.
    rewrite lookup_insert_ne; [done|]. by eapply not_eq_sym, Hne.
  - intros s. rewrite lookup_insert. case_decide; [done|]. intros Hs.
    by rewrite feed_of_app, (Hothers s), app_nil_r by congruence; apply H4.
  - intros e x. rewrite lookup_insert. case_decide as Hx; intros Hex Hov.
    + injection Hex as <-. subst e. destruct (H6 _ _ Hd Hov) as [F1 F2 F3 F4]. constructor; rewrite ?Hev, ?Hde; [done|..].
      * case_match; [destruct Hcase as [-> _]|by subst d']. simpl. apply NoDup_app. split; [done|].
        split; [|apply NoDup_singleton]. intros s Hin%(H2 _ _ _ Hd) ->%list_elem_of_singleton. congruence.
      * intros s Hin. destruct (decide (s = sink)) as [->|Hs].
        -- rewrite feed_of_app, (H4 _ Hnew). case_match; [by destruct Hcase as [_ ->]|].
           subst d'. pose proof (H2 _ _ _ Hd Hin). congruence.
        -- rewrite feed_of_app, (Hothers s Hs), app_nil_r. apply F3. by apply Hsi in Hin as [|].
      * intros k t Hk Ht. pose proof (F4 k t Hk Ht) as Hok. eapply flight_ok_frame; [done|..|exact Hok].
        -- intros p Hp s [Hin| ->]%Hsi Hs; [by eapply (flight_disjoint _ _ _ _ Hok Hp)|].
           pose proof (H3 _ _ _ _ Hk Hp Hs). congruence.
        -- intros p s Hp Hs. apply Hothers. eapply Hne, H3; done.
    + eapply feed_ok_frame; [by eauto|apply same_feed_refl|..|by apply H6].
      * intros s Hin. eapply Hothers, Hne, H2; done.
      * intros k t p s Hk _ Hp Hin. eapply Hothers, Hne, H3; done.
  - intros s e Hs Hl. rewrite lookup_insert in Hs. case_decide as Hx.
    + injection Hs as <-. subst s. exists d'. rewrite lookup_insert_eq. split; [done|]. left.
      case_match; [destruct Hcase as [-> _]; simpl; set_solver|set_solver].
    + destruct (H7 s e Hs) as (x & Hex & Hin); [case_match; set_solver|].
      rewrite lookup_insert. case_decide as Heq; [|by exists x]. subst e. exists d'. split; [done|]. simplify_eq.
      destruct Hin as [Hin|Hin]; [left|by right]. case_match; [destruct Hcase as [-> _]; simpl; set_solver|by subst].
Qed.

Lemma begin_ok w k self eid inputs indices d :
  world_ok w → tasks w !! k = None → executions (sv w) !! eid = Some d →
  world_ok (mkWorld (sv w)
              (<[k := mkSubmission eid (masked_input_delivery d) (Waiting self inputs indices)]> (tasks w))
              (wire w) (opened w) (lost w) (overtaken w)).
Proof.
  intros [H1 H2 H3 H4 H5 H6 H7] Hk Hd.
  set (t0 := mkSubmission eid (masked_input_delivery d) (Waiting self inputs indices)).
  assert (∀ k' t p, <[k := t0]> (tasks w) !! k' = Some t → in_flight t = Some p → tasks w !! k' = Some t) as Hold.
  { intros k' t p. rewrite lookup_insert. case_decide; [by intros [= <-]|done]. }
  constructor; simpl; [done|done|by eauto|done| | |].
  - intros k1 k2 t1 t2 Ht1 Ht2 Hl [p1 Hp1] [p2 Hp2].
    pose proof (Hold _ _ _ Ht1 Hp1). pose proof (Hold _ _ _ Ht2 Hp2). by eapply H5; eauto.
  - intros e x Hx Hov. destruct (H6 _ _ Hx Hov) as [F1 F2 F3 F4]. constructor; [|done..|].
    + intros k' t. rewrite lookup_insert. case_decide; [|by apply F1]. intros [= <-]. simpl. intros ->. congruence.
    + intros k' t. rewrite lookup_insert. case_decide; [|by apply F4]. by intros [= <-].
  - intros s e Hs Hl. destruct (H7 s e Hs Hl) as (x & Hx & [Hin|(k' & t & p & Ht & Hin)]); exists x; (split; [done|]);
      [by left|right]. exists k', t, p. split; [|done]. rewrite lookup_insert_ne; [done|congruence].
Qed.

Lemma commit_ok w k t self inputs indices d d' p :
  world_ok w → tasks w !! k = Some t → sub_phase t = Waiting self inputs indices →
  lock_free w (sub_lock t) → executions (sv w) !! sub_eid t = Some d → commits d d' p →
  world_ok (mkWorld (put_execution (sub_eid t) d' (sv w)) (<[k := advance t (Committed p)]> (tasks w))
              (wire w) (opened w) (lost w) (overtaken w)).
Proof.
  intros [H1 H2 H3 H4 H5 H6 H7] Hk Hw Hfree Hd [C1 C2 C3 C4 C5 C6].
  assert (in_flight t = None) as Hnone by (unfold in_flight; by rewrite Hw).
  constructor; simpl; [| | |done| | |].
  - intros e x. rewrite lookup_insert. case_decide; [|by apply H1]. intros [= <-]. destruct (H1 _ _ Hd).
    split; [|by auto]. rewrite C1. apply Forall_app. split; [done|]. by repeat constructor.
  - intros e x s. rewrite lookup_insert. case_decide; [|by apply H2]. intros [= <-]. rewrite C3.
    intros Hin. by apply not_elem_of_nil in Hin.
  - intros k' t' p' s. rewrite lookup_insert. case_decide; [|by apply H3]. intros [= <-] [= <-]. simpl.
    rewrite C4. by apply H2.
  - intros k1 k2 t1 t2. rewrite !lookup_insert. do 2 case_decide; simplify_eq/=; [done|..|by apply H5].
    + intros [= <-] Ht2 Hl _ [p2 Hp2]. specialize (Hfree k2 t2 Ht2 (eq_sym Hl)). congruence.
    + intros Ht1 [= <-] Hl [p1 Hp1] _. specialize (Hfree k1 t1 Ht1 Hl). congruence.
  - intros e x. rewrite lookup_insert. case_decide as He; intros Hx Hov.
    + injection Hx as <-. subst e. destruct (H6 _ _ Hd Hov) as [F1 F2 F3 F4].
      split; [|rewrite C3; constructor|intros s Hin; rewrite C3 in Hin; by apply not_elem_of_nil in Hin|].
      * intros k' t'. rewrite C5, lookup_insert. case_decide; [|by apply F1]. intros [= <-] _. exact (F1 _ _ Hk eq_refl).
      * intros k' t'. rewrite lookup_insert. case_decide.
        -- intros [= <-] _. simpl. rewrite C1, C3, C4. split_and!; [done|set_solver|].
           by exists (masked_input_events d).
        -- intros Ht' He'. specialize (Hfree k' t' Ht'). rewrite (F1 _ _ Ht' He'), (F1 _ _ Hk eq_refl) in Hfree.
           specialize (Hfree eq_refl). unfold in_flight in Hfree. by destruct (sub_phase t').
    + rewrite <-(app_nil_r (wire w)). eapply feed_ok_frame; [|apply same_feed_refl|done..|by apply H6].
      intros k' t'. rewrite lookup_insert. case_decide; [|done]. by intros [= <-].
  - intros s e Hs Hl. destruct (H7 s e Hs Hl) as (x & Hx & Hin). rewrite lookup_insert.
    assert (∀ k' t' p', tasks w !! k' = Some t' → in_flight t' = Some p' → k ≠ k') as Hne by congruence.
    destruct Hin as [Hin|(k' & t' & p' & Ht' & He' & Hp' & Hin)].
    + case_decide as Heq; [|exists x; by split; [|left]]. subst e. exists d'. split; [done|]. right.
      exists k, (advance t (Committed p)), p. rewrite lookup_insert_eq, C4. split_and!; try done. congruence.
    + case_decide; [exists d'|exists x]; (split; [done|]); right; exists k', t', p';
        rewrite lookup_insert_ne by eauto; done.
Qed.

(** A submission that holds the lock is the only one in flight on its execution. *)
Lemma only_flight ts log eid d k t p k' t' :
  feed_ok ts log eid d →
  (∀ k k' t t', ts !! k = Some t → ts !! k' = Some t' → sub_lock t = sub_lock t' →
    is_Some (in_flight t) → is_Some (in_flight t') → k = k') →
  ts !! k = Some t → in_flight t = Some p → sub_eid t = eid →
  ts !! k' = Some t' → sub_eid t' = eid → k' ≠ k → in_flight t' = None.
Proof.
  intros Hok Hl Hk Hp He Hk' He' Hne. destruct (in_flight t') eqn:Hp'; [|done]. destruct Hne.
  eapply (Hl k' k t' t); [done|done| |by eauto..].
  by rewrite (fo_lock _ _ _ _ Hok _ _ Hk' He'), (fo_lock _ _ _ _ Hok _ _ Hk He).
Qed.

Lemma flight_ok_waiting d log t : in_flight t = None → flight_ok d log (sub_phase t).
Proof. unfold in_flight. by destruct (sub_phase t). Qed.

Lemma send_ok_step w k t p :
  world_ok w → tasks w !! k = Some t → sub_phase t = Committed p →
  world_ok (mkWorld (sv w) (<[k := advance t (Sent p)]> (tasks w)) (wire w ++ submit_sends p)
              (opened w) (lost w) (overtaken w)).
Proof.
  intros [H1 H2 H3 H4 H5 H6 H7] Hk Hp.
  assert (in_flight t = Some p) as Hfl by (unfold in_flight; by rewrite Hp).
  assert (∀ s, opened w !! s ≠ Some (sub_eid t) → feed_of s (submit_sends p) = []) as Hothers.
  { intros s Hs. eapply feed_of_submit_sends_ne; [|done]. intros Hin. by eapply Hs, H3. }
  assert (∀ k' t' p', <[k := advance t (Sent p)]> (tasks w) !! k' = Some t' → in_flight t' = Some p' →
    ∃ t0, tasks w !! k' = Some t0 ∧ in_flight t0 = Some p' ∧ sub_eid t0 = sub_eid t' ∧ sub_lock t0 = sub_lock t') as Hold.
  { intros k' t' p'. rewrite lookup_insert. case_decide; [|by eauto]. intros [= <-] [= <-]. subst k'. by exists t. }
  constructor; simpl; [done|done|..].
  - intros k' t' p' s Hk' Hp' Hin. destruct (Hold _ _ _ Hk' Hp') as (t0 & Ht0 & Hp0 & <- & _). by eapply H3.
  - intros s Hs. rewrite feed_of_app, Hothers, app_nil_r by congruence. auto.
  - intros k1 k2 t1 t2 Hk1 Hk2 Hl [p1 Hp1] [p2 Hp2].
    destruct (Hold _ _ _ Hk1 Hp1) as (u1 & ? & ? & _ & ?), (Hold _ _ _ Hk2 Hp2) as (u2 & ? & ? & _ & ?).
    apply (H5 k1 k2 u1 u2); [done..|congruence|eauto|eauto].
  - intros e x Hx Hov. destruct (decide (e = sub_eid t)) as [->|He].
    + pose proof (H6 _ _ Hx Hov) as Hok. destruct Hok as [F1 F2 F3 F4] eqn:Hoke. clear Hoke.
      pose proof (F4 _ _ Hk eq_refl) as Hflight. rewrite Hp in Hflight.
      destruct Hflight as (Hn & Hdisj & before & Hev & Hb).
      assert (is_masked_event (ps_event p)) as Hme.
      { destruct (H1 _ _ Hx) as [He _]. rewrite Hev in He. apply Forall_app in He as [_ He]. by inversion He. }
      split; [|done|..].
      * intros k' t'. rewrite lookup_insert. case_decide; [|by apply F1]. intros [= <-] _. exact (F1 _ _ Hk eq_refl).
      * intros s Hs. rewrite feed_of_app, (feed_of_submit_sends_ne s p (submit_sends p)), app_nil_r; [by apply F3| |done].
        intros Hin. by eapply Hdisj.
      * intros k' t'. rewrite lookup_insert. case_decide as Hkk.
        -- intros [= <-] _. simpl. split_and!; [done..|]. intros s Hs.
           by rewrite feed_of_app, feed_of_submit_sends, (Hb s Hs), Hev.
        -- intros Hk' He'. apply flight_ok_waiting. by eapply (only_flight _ _ _ _ k t p k' t' Hok).
    + eapply feed_ok_frame; [|apply same_feed_refl|..|by apply H6].
      * intros k' t'. rewrite lookup_insert. case_decide; [|done]. by intros [= <-].
      * intros s Hs. apply Hothers. rewrite (H2 _ _ _ Hx Hs). congruence.
      * intros k' t' p' s Hk' He' Hp' Hin. apply Hothers.
        destruct (Hold _ _ _ Hk' Hp') as (t0 & Ht0 & Hp0 & Heq & _). rewrite (H3 _ _ _ _ Ht0 Hp0 Hin). congruence.
  - intros s e Hs Hl. destruct (H7 s e Hs Hl) as (x & Hx & [Hin|(k' & t' & p' & Ht' & He' & Hp' & Hin)]);
      exists x; (split; [done|]); [by left|right]. destruct (decide (k = k')) as [<-|Hkk].
    + exists k, (advance t (Sent p)), p. rewrite lookup_insert_eq. simplify_eq. done.
    + exists k', t', p'. by rewrite lookup_insert_ne.
Qed.

(** Removing a submission leaves the claims about the others. *)
Lemma feed_ok_removed w k t log eid d :
  world_ok w → tasks w !! k = Some t →
  (∀ x, x ∈ log → ∃ p, sub_phase t = Committed p ∧ x ∈ submit_sends p) →
  executions (sv w) !! eid = Some d → eid ∉ overtaken w →
  feed_ok (delete k (tasks w)) (wire w ++ log) eid d.
Proof.
  intros [H1 H2 H3 H4 H5 H6 H7] Hk Hlog Hd Hov. pose proof (H6 _ _ Hd Hov) as Hok.
  assert (∀ s, (∀ p, in_flight t = Some p → s ∉ ps_sinks p) → feed_of s log = []) as Hne.
  { intros s Hs. destruct (sub_phase t) as [|p|] eqn:Hp.
    - apply feed_of_none. intros x Hx. by destruct (Hlog x Hx) as (? & ? & _).
    - apply (feed_of_submit_sends_ne s p); [apply Hs; unfold in_flight; by rewrite Hp|].
      intros x Hx. by destruct (Hlog x Hx) as (? & [= ->] & ?).
    - apply feed_of_none. intros x Hx. by destruct (Hlog x Hx) as (? & ? & _). }
  eapply feed_ok_frame; [|apply same_feed_refl|..|exact Hok].
  - intros k' t' [_ ?]%lookup_delete_Some. done.
  - intros s Hs. apply Hne. intros p Hp Hin. pose proof (H3 _ _ _ _ Hk Hp Hin) as Ho.
    rewrite (H2 _ _ _ Hd Hs) in Ho. injection Ho as ->.
    exact (flight_disjoint _ _ _ p (fo_flight _ _ _ _ Hok k t Hk eq_refl) Hp s Hs Hin).
  - intros k' t' p' s [Hkk Hk']%lookup_delete_Some He Hp' Hin. apply Hne. intros p Hp Hin2.
    pose proof (H3 _ _ _ _ Hk Hp Hin2) as Ho. rewrite (H3 _ _ _ _ Hk' Hp' Hin) in Ho. injection Ho as Ho.
    pose proof (only_flight _ _ _ _ k t p k' t' Hok H5 Hk Hp ltac:(congruence) Hk' He (not_eq_sym Hkk)). congruence.
Qed.

Lemma end_ok w k t log :
  world_ok w → tasks w !! k = Some t →
  (∀ x, x ∈ log → ∃ p, sub_phase t = Committed p ∧ x ∈ submit_sends p) →
  world_ok (mkWorld (sv w) (delete k (tasks w)) (wire w ++ log) (opened w)
              (lost w ∪ list_to_set (from_option ps_sinks [] (in_flight t))) (overtaken w)).
Proof.
  intros Hw Hk Hlog. pose proof Hw as [H1 H2 H3 H4 H5 H6 H7]. constructor; simpl; [done|done|..].
  - intros k' t' p s [_ Hk']%lookup_delete_Some Hp Hin. by eapply H3.
  - intros s Hs. rewrite feed_of_app, H4 by done. apply feed_of_none. intros [s' m] Hx.
    destruct (Hlog _ Hx) as (p & Hp & [Hin|Hin]%elem_of_app); apply list_elem_of_fmap in Hin as (s1 & [= -> ->] & Hin);
      simpl; [|done]. destruct (ps_event p); try done. rewrite decide_False; [done|]. intros ->.
    assert (in_flight t = Some p) as Hfl by (unfold in_flight; by rewrite Hp).
    pose proof (H3 _ _ _ _ Hk Hfl Hin). congruence.
  - intros k1 k2 t1 t2 [_ Hk1]%lookup_delete_Some [_ Hk2]%lookup_delete_Some. by apply (H5 k1 k2 t1 t2).
  - intros e x Hx Hov. by eapply feed_ok_removed.
  - intros s e Hs [Hl Hnot]%not_elem_of_union. destruct (H7 s e Hs Hl) as (x & Hx & Hin). exists x. split; [done|].
    destruct Hin as [Hin|(k' & t' & p' & Ht' & He' & Hp' & Hin)]; [by left|right].
    exists k', t', p'. rewrite lookup_delete_ne; [done|]. intros <-. simplify_eq. rewrite Hp' in Hnot.
    simpl in Hnot. apply Hnot. by apply elem_of_list_to_set.
Qed.

Lemma delivered_sublist net sinks s : s ∈ delivered net sinks → s ∈ sinks.
Proof. unfold delivered. by rewrite list_elem_of_filter; intros []. Qed.

(** The sinks a submission reached are back, in addition to those attached meanwhile. *)
Lemma put_back_ok w k t net p d d' log :
  world_ok w → tasks w !! k = Some t → sub_phase t = Sent p →
  executions (sv w) !! sub_eid t = Some d → finishes net p d d' log →
  world_ok (mkWorld (put_execution (sub_eid t) d' (sv w)) (delete k (tasks w)) (wire w ++ log) (opened w)
              (lost w ∪ list_to_set (filter (fun s => send_ok net s 0 = false) (ps_sinks p))) (overtaken w)).
Proof.
  intros Hw Hk Hp Hd [F1 F2 F3 F4 F5]. pose proof Hw as [H1 H2 H3 H4 H5 H6 H7].
  assert (in_flight t = Some p) as Hfl by (unfold in_flight; by rewrite Hp).
  constructor; simpl.
  - intros e x. rewrite lookup_insert. case_decide; [|by apply H1]. intros [= <-]. rewrite F1.
    destruct (H1 _ _ Hd). by auto.
  - intros e x s. rewrite lookup_insert. case_decide; [|by apply H2]. intros [= <-]. subst e.
    rewrite F2. intros [Hin|Hin%delivered_sublist]%elem_of_app; [by eapply H2|by eapply H3].
  - intros k' t' p' s [_ Hk']%lookup_delete_Some Hp' Hin. by eapply H3.
  - intros s Hs. by rewrite feed_of_app, F5, app_nil_r; apply H4.
  - intros k1 k2 t1 t2 [_ Hk1]%lookup_delete_Some [_ Hk2]%lookup_delete_Some. by apply (H5 k1 k2 t1 t2).
  - intros e x. rewrite lookup_insert. case_decide as He; intros Hx Hov.
    + injection Hx as <-. subst e. pose proof (H6 _ _ Hd Hov) as Hok. pose proof Hok as [G1 G2 G3 G4].
      pose proof (G4 _ _ Hk eq_refl) as Hflight. rewrite Hp in Hflight. destruct Hflight as (Hn & Hdisj & Hsent).
      split.
      * intros k' t' [_ Hk']%lookup_delete_Some. rewrite F3. by apply (G1 k').
      * rewrite F2. apply NoDup_app. split; [done|]. split; [|by apply NoDup_filter].
        intros s Ha Hb%delivered_sublist. by eapply Hdisj.
      * intros s. rewrite F2, F1, feed_of_app, F5, app_nil_r.
        intros [Hin|Hin%delivered_sublist]%elem_of_app; auto.
      * intros k' t' [Hkk Hk']%lookup_delete_Some He'. apply flight_ok_waiting.
        by eapply (only_flight _ _ _ _ k t p k' t' Hok).
    + eapply feed_ok_frame; [|apply same_feed_refl|by auto..|by apply H6].
      by intros k' t' [_ ?]%lookup_delete_Some.
  - intros s e Hs [Hl Hnot]%not_elem_of_union. destruct (H7 s e Hs Hl) as (x & Hx & Hin). rewrite lookup_insert.
    destruct (decide (s ∈ ps_sinks p)) as [Hsp|Hsp].
    + pose proof (H3 _ _ _ _ Hk Hfl Hsp) as Ho. rewrite Hs in Ho. injection Ho as ->. rewrite decide_True by done.
      exists d'. split; [done|]. left. rewrite F2. apply elem_of_app. right. unfold delivered.
      apply list_elem_of_filter. split; [|done]. destruct (send_ok net s 0) eqn:Hok; [done|]. destruct Hnot.
      apply elem_of_list_to_set, list_elem_of_filter. done.
    + case_decide as He; [subst e; exists d'|exists x]; (split; [done|]); simplify_eq;
        destruct Hin as [Hin|(k' & t' & p' & Ht' & He' & Hp' & Hin)].
      * left. rewrite F2. apply elem_of_app. by left.
      * right. exists k', t', p'. rewrite lookup_delete_ne; [done|]. intros <-. by simplify_eq.
      * by left.
      * right. exists k', t', p'. rewrite lookup_delete_ne; [done|]. intros <-. by simplify_eq.
Qed.

Lemma world_step_ok w w' : world_ok w → world_step w w' → world_ok w'.
Proof.
  intros Hok. destruct 1 as [self reg delivery s' log r Hs|s' log Hs|net sink eid d d' log Hn Hd Hs
    |k self eid inputs indices d Hk Hd|k t self inputs indices d d' p Hk Hp Hf Hd Hs
    |k t self inputs indices d d' e Hk Hp Hf Hd Hs|k t p Hk Hp|net k t p head d d' log r Hk Hp Hh Hd Hs|k t log Hk Hl].
  - by eapply register_ok.
  - by apply segment_ok.
  - by eapply subscribe_ok.
  - by apply begin_ok.
  - eapply commit_ok; [done..|]. by eapply submit_commit_commits.
  - apply submit_commit_refused in Hs as ->. rewrite put_execution_id by done.
    pose proof (end_ok w k t [] Hok Hk) as He. unfold in_flight in He. rewrite Hp, app_nil_r in He.
    simpl in He. rewrite union_empty_r_L in He. apply He. intros x Hx. by apply not_elem_of_nil in Hx.
  - by apply send_ok_step.
  - eapply put_back_ok; [done..|]. by eapply submit_finish_finishes.
  - by apply end_ok.
Qed.

Lemma start_ok n t nodes s : new_server n t nodes = Ok s → world_ok (start s).
Proof.
  unfold new_server. intros Hn. inv_ok. constructor; simpl; try done.
Qed.

Lemma run_world_ok n t nodes s0 w :
  new_server n t nodes = Ok s0 → rtc world_step (start s0) w → world_ok w.
Proof. intros Hn%start_ok. induction 1; eauto using world_step_ok. Qed.

(** A submission does not notice that its execution was reclaimed and its identifier
    registered again while it was sending: it attaches the subscribers of the old
    execution to the new one, whose history they were not sent. *)
Lemma overtaken_subscriber_attached w net k t p head d s :
  tasks w !! k = Some t → sub_phase t = Sent p → roster_head (sv w) = Ok head →
  executions (sv w) !! sub_eid t = Some d → s ∈ ps_sinks p → send_ok net s 0 = true →
  feed_of s (wire w) ≠ masked_input_events d →
  ∃ w' d', world_step w w' ∧ executions (sv w') !! sub_eid t = Some d' ∧
    s ∈ masked_input_sinks d' ∧ feed_of s (wire w') ≠ masked_input_events d'.
Proof.
  intros Hk Hp Hh Hd Hs Hok Hne.
  destruct (submit_finish net (transition_quorum (sv w)) head p d) as [[d' log] r] eqn:Hf.
  pose proof (submit_finish_finishes _ _ _ _ _ _ _ _ Hf) as [F1 F2 _ _ F5].
  eexists _, d'. split; [by eapply ws_finish|]. simpl. split; [by rewrite lookup_insert_eq|]. split.
  - rewrite F2. apply elem_of_app. right. unfold delivered. by apply list_elem_of_filter.
  - by rewrite feed_of_app, F5, app_nil_r, F1.
Qed.

(** ** Claims *)

(** C8: the masked-input feed is delivered exactly once and in order, whatever the
    interleaving.  From the start of the coordinator, let any number of submissions to
    any executions run their segments in any order, between any segments of the other
    handlers, registrations that evict executions and registrations of an evicted
    identifier included.  For every registered execution, unless its identifier was
    registered again while an earlier submission to it was in progress: each attached
    subscriber has been sent the whole history, each event once, in order, whether it
    subscribed before, during or after a submission; one taken out by a submission in
    progress lacks exactly the event that submission is about to send; and every
    subscriber is attached or taken out, unless it was lost. *)
Theorem feed_exactly_once_in_order n t nodes s0 w eid d
    (Hnew : new_server n t nodes = Ok s0) (Hrun : rtc world_step (start s0) w)
    (Hd : executions (sv w) !! eid = Some d) (Hovertaken : eid ∉ overtaken w) :
  (∀ s, s ∈ masked_input_sinks d → feed_of s (wire w) = masked_input_events d) ∧
  (∀ k t p s, tasks w !! k = Some t → sub_eid t = eid → sub_phase t = Committed p → s ∈ ps_sinks p →
     masked_input_events d = feed_of s (wire w) ++ [ps_event p]) ∧
  (∀ k t p s, tasks w !! k = Some t → sub_eid t = eid → sub_phase t = Sent p → s ∈ ps_sinks p →
     masked_input_events d = feed_of s (wire w)) ∧
  (∀ s, opened w !! s = Some eid → s ∉ lost w → subscribed d (tasks w) eid s).
Proof.
  pose proof (run_world_ok _ _ _ _ _ Hnew Hrun) as Hok.
  destruct (wo_feed _ Hok _ _ Hd Hovertaken) as [_ _ Ha Hf]. split_and!; [done|..].
  - intros k t' p s Hk He Hp Hs. specialize (Hf k t' Hk He). rewrite Hp in Hf.
    destruct Hf as (_ & _ & before & Hev & Hb). by rewrite (Hb s Hs).
  - intros k t' p s Hk He Hp Hs. specialize (Hf k t' Hk He). rewrite Hp in Hf.
    destruct Hf as (_ & _ & Hb). by rewrite (Hb s Hs).
  - intros s Hs Hl. destruct (wo_kept _ Hok s eid Hs Hl) as (x & Hx & Hin). congruence.
Qed.
End feed.

(** ** Witness: two subscribers, two inputs

    One subscriber attaches first, the other while the first submission is between its
    commit and its sends. *)

Definition do_register (w : World) : World :=
  let o := rpc_register_execution party1 sample_registration 1 (sv w) in
  mkWorld o.1.1 (tasks w) (wire w ++ o.1.2) (opened w) (lost w ∪ orphans o.1.1 (opened w))
    (overtaken w ∪ newly_overtaken (sv w) o.1.1 (tasks w) (execution_id sample_registration)).
Definition do_segment {A} (f : Server → Outcome A) (w : World) : World :=
  let o := f (sv w) in
  mkWorld o.1.1 (tasks w) (wire w ++ o.1.2) (opened w) (lost w) (overtaken w).
Definition do_votes (r : Round) (w : World) : World :=
  foldl (fun w p => do_segment (rpc_transition p sample_eid r) w) w [party1; party2; party3].
Definition do_reserve (c : ClientIdentity) (i : u64) (w : World) : World :=
  do_segment (reserve_mask_indices all_up c sample_eid [i]) w.
Definition do_subscribe (sink : SubscriptionSink) (w : World) : World :=
  let d := sample_get (sv w) in
  let o := subscribe_masked_inputs all_up sink d in
  mkWorld (put_execution sample_eid o.1 (sv w)) (tasks w) (wire w ++ o.2) (<[sink := sample_eid]> (opened w))
    (if replay_complete all_up sink (length (masked_input_events d)) then lost w else {[sink]} ∪ lost w)
    (overtaken w).
Definition do_begin (c : ClientIdentity) (v : bytes) (i : u64) (w : World) : World :=
  mkWorld (sv w)
    (<[1%positive := mkSubmission sample_eid (masked_input_delivery (sample_get (sv w))) (Waiting c [v] [i])]> (tasks w))
    (wire w) (opened w) (lost w) (overtaken w).

(** One segment of the only submission. *)
Definition do_advance (w : World) : World :=
  match tasks w !! 1%positive with
  | None => w
  | Some t =>
      let d := sample_get (sv w) in
      match sub_phase t with
      | Waiting self inputs indices =>
          match submit_commit self inputs indices d with
          | (d', Ok p) => mkWorld (put_execution (sub_eid t) d' (sv w)) (<[1%positive := advance t (Committed p)]> (tasks w))
                            (wire w) (opened w) (lost w) (overtaken w)
          | _ => w
          end
      | Committed p => mkWorld (sv w) (<[1%positive := advance t (Sent p)]> (tasks w)) (wire w ++ submit_sends p)
                         (opened w) (lost w) (overtaken w)
      | Sent p =>
          let o := submit_finish all_up (transition_quorum (sv w)) party1 p d in
          mkWorld (put_execution (sub_eid t) o.1.1 (sv w)) (delete 1%positive (tasks w)) (wire w ++ o.1.2) (opened w)
            (lost w ∪ list_to_set (filter (fun s => send_ok all_up s 0 = false) (ps_sinks p))) (overtaken w)
      end
  end.

(** The only submission is to the sample execution, which is registered. *)
Definition on_sample (w : World) : bool :=
  is_some (executions (sv w) !! sample_eid) &&
  bool_decide (mpc_nodes (sv w) = parties) &&
  bool_decide (map_Forall (fun k t => k = 1%positive ∧ sub_eid t = sample_eid) (tasks w)).

Section runs.
Context `{HashOrder}.
Context (w0 : World).

Lemma do_segment_run {A} (f : Server → Outcome A) w :
  (∀ s' log r, f (sv w) = (s', log, r) → segment (sv w) s' log) →
  rtc world_step w0 w → rtc world_step w0 (do_segment f w).
Proof.
  intros Hf Hr. eapply rtc_r; [exact Hr|]. apply ws_other. eapply Hf, outcome_eta.
Qed.

Lemma do_votes_run r w : rtc world_step w0 w → rtc world_step w0 (do_votes r w).
Proof.
  intros Hr. unfold do_votes. simpl. repeat (apply do_segment_run; [intros; by eapply seg_vote|]). exact Hr.
Qed.

Lemma do_reserve_run c i w : rtc world_step w0 w → rtc world_step w0 (do_reserve c i w).
Proof. intros Hr. apply do_segment_run; [intros; by eapply seg_reserve|exact Hr]. Qed.

Lemma do_subscribe_run sink w :
  opened w !! sink = None → on_sample w = true →
  rtc world_step w0 w → rtc world_step w0 (do_subscribe sink w).
Proof.
  intros Hs Hon Hr. unfold on_sample in Hon. reflect_bool. eapply rtc_r; [exact Hr|].
  apply (ws_subscribe w all_up sink sample_eid (sample_get (sv w))); [done|by apply sample_get_Some|].
  by destruct (subscribe_masked_inputs _ _ _).
Qed.

Lemma do_begin_run c v i w :
  tasks w = ∅ → on_sample w = true → rtc world_step w0 w → rtc world_step w0 (do_begin c v i w).
Proof.
  intros Ht Hon Hr. unfold on_sample in Hon. reflect_bool. eapply rtc_r; [exact Hr|].
  apply (ws_begin w); [by rewrite Ht|by apply sample_get_Some].
Qed.

Lemma do_advance_run w :
  on_sample w = true → rtc world_step w0 w → rtc world_step w0 (do_advance w).
Proof.
  intros Hon Hr. unfold on_sample in Hon. reflect_bool. unfold do_advance.
  destruct (tasks w !! 1%positive) as [t|] eqn:Ht; [|done].
  match goal with Hx : map_Forall _ _ |- _ => destruct (Hx _ _ Ht) as [_ He]; rename Hx into Hall end.
  assert (executions (sv w) !! sub_eid t = Some (sample_get (sv w))) as Hd by (rewrite He; by apply sample_get_Some).
  destruct (sub_phase t) as [self inputs indices|p|p] eqn:Hp.
  - destruct (submit_commit _ _ _ _) as [d' [p| |]] eqn:Hc; [|done..].
    eapply rtc_r; [exact Hr|]. eapply ws_commit; [done..| |done|done].
    intros k' t' Hk' _. destruct (Hall _ _ Hk') as [-> _]. simplify_eq. unfold in_flight. by rewrite Hp.
  - eapply rtc_r; [exact Hr|]. by apply ws_send.
  - eapply rtc_r; [exact Hr|]. eapply ws_finish; [done|done| |done|apply outcome_eta].
    unfold roster_head. match goal with Hx : mpc_nodes _ = _ |- _ => by rewrite Hx end.
Qed.
End runs.

Definition sample_subscribed : World := do_subscribe 1 (do_register (start sample_server)).
Definition sample_waiting : World :=
  do_votes InputCollection (do_reserve client2 1 (do_reserve client1 0
    (do_votes InputMaskReservation (do_votes Preprocessing sample_subscribed)))).
Definition sample_committed : World := do_advance (do_begin client1 [Byte.x10] 0 sample_waiting).
Definition sample_first : World := do_advance (do_advance (do_subscribe 2 sample_committed)).
Definition sample_second : World := do_begin client2 [Byte.x20] 1 sample_first.
Definition sample_delivered : World := do_advance (do_advance (do_advance sample_second)).

Lemma sample_subscribed_run : rtc world_step (start sample_server) sample_subscribed.
Proof.
  unfold sample_subscribed. apply do_subscribe_run; [by vm_compute|by vm_compute|]. apply rtc_once.
  apply (ws_register (start sample_server) party1 sample_registration 1 _ _ _ (outcome_eta _)).
Qed.

Lemma sample_committed_run : rtc world_step (start sample_server) sample_committed.
Proof.
  unfold sample_committed. apply do_advance_run; [by vm_compute|].
  apply do_begin_run; [apply (bool_decide_unpack _); by vm_compute|by vm_compute|].
  unfold sample_waiting. apply do_votes_run, do_reserve_run, do_reserve_run, do_votes_run, do_votes_run.
  apply sample_subscribed_run.
Qed.

Lemma sample_delivered_run : rtc world_step (start sample_server) sample_delivered.
Proof.
  unfold sample_delivered. do 3 (apply do_advance_run; [by vm_compute|]).
  unfold sample_second. apply do_begin_run; [apply (bool_decide_unpack _); by vm_compute|by vm_compute|].
  unfold sample_first. do 2 (apply do_advance_run; [by vm_compute|]).
  apply do_subscribe_run; [by vm_compute|by vm_compute|]. apply sample_committed_run.
Qed.

Definition sample_history : list Event :=
  [MaskedInputEvent client1 [(0%N, [Byte.x10])]; MaskedInputEvent client2 [(1%N, [Byte.x20])]].

(** Both were sent both inputs, in order. *)
Lemma feed_exactly_once_in_order_witness :
  feed_of 1 (wire sample_delivered) = sample_history ∧ feed_of 2 (wire sample_delivered) = sample_history.
Proof.
  destruct (feed_exactly_once_in_order (H := sample_order) 4 1 parties sample_server sample_delivered sample_eid
    (sample_get (sv sample_delivered))) as [Hall _].
  - reflexivity.
  - exact sample_delivered_run.
  - apply sample_get_Some. by vm_compute.
  - apply (bool_decide_unpack _). by vm_compute.
  - assert (masked_input_sinks (sample_get (sv sample_delivered)) = [2%positive; 1%positive]) as Hs
      by (apply (bool_decide_unpack _); by vm_compute).
    assert (masked_input_events (sample_get (sv sample_delivered)) = sample_history) as He by (by vm_compute).
    rewrite Hs, He in Hall. split; apply Hall; [right; left|left].
Defined.
