(* ===== verification/NodeRpc.v ===== *)
(** The node-side RPC server that hands mask shares to the clients that reserved
    them (src/crates/off-chain/src/lib.rs, module [node_rpc]). *)
From S2P Require Import Prelude Shared Execution Samples Server.

Record AssignedMaskShare : Type := mkAssignedMaskShare {
  ams_reserved_index : u64;
  ams_share_bytes : bytes }.

Record AssignedMaskRequest : Type := mkAssignedMaskRequest {
  req_start : u64;
  req_count : u64;
  req_sink : SubscriptionSink }.

Record NodeRPCExecutionState : Type := mkNodeExec {
  index_to_client : gmap u64 ClientIdentity;
  assigned_reservations : gmap u64 AssignedMaskReservation;
  assigned_sinks : gmap ClientIdentity AssignedMaskRequest;
  mask_shares : gmap u64 bytes }.

#[export] Instance node_exec_eta : Eta NodeRPCExecutionState := fun d =>
  mkNodeExec (index_to_client d) (assigned_reservations d) (assigned_sinks d) (mask_shares d).

Abbreviation NodeExec := NodeRPCExecutionState.

Definition new_node_execution : NodeExec := mkNodeExec ∅ ∅ ∅ ∅.

Inductive OffChainNodeRPCServerError : Type := NodeSerializationFailed | NodeExecutionMissing.
Definition node_error_code (e : OffChainNodeRPCServerError) : Z :=
  match e with NodeSerializationFailed => 1 | NodeExecutionMissing => 2 end.

(** ** The listener's executions *)

(** An execution's state is a shared object: the registry maps an identifier to a
    reference, and a call that already holds the reference keeps using the object
    after the execution was retired. *)
Abbreviation StateRef := positive.

Record NodeRPCServerInternal : Type := mkNodeServer {
  node_executions : gmap ExecutionId StateRef;
  node_heap : gmap StateRef NodeExec }.

#[export] Instance node_server_eta : Eta NodeRPCServerInternal := fun s =>
  mkNodeServer (node_executions s) (node_heap s).

Definition new_node_server : NodeRPCServerInternal := mkNodeServer ∅ ∅.

Definition node_register_execution (eid : ExecutionId) (s : NodeRPCServerInternal)
    : NodeRPCServerInternal * result CoordinatorError unit :=
  if is_zero eid
  then (s, Err (JSONError "zero execution IDs are not valid for persistent RPC listeners"))
  else if is_some (node_executions s !! eid)
  then (s, Err (JSONError "Execution {execution_id} is already registered"))
  else if (DEFAULT_MAX_CONCURRENT_EXECUTIONS <=? N.of_nat (size (node_executions s)))%N
  then (s, Err (JSONError "Execution capacity {} reached"))
  else
    let ref := fresh (dom (node_heap s)) in
    (s <| node_executions ::= <[eid := ref]> |> <| node_heap ::= <[ref := new_node_execution]> |>,
     Ok tt).

Definition node_retire_execution (eid : ExecutionId) (s : NodeRPCServerInternal)
    : NodeRPCServerInternal * bool :=
  (s <| node_executions ::= delete eid |>, is_some (node_executions s !! eid)).

Definition node_execution_state (s : NodeRPCServerInternal) (eid : ExecutionId) : option StateRef :=
  node_executions s !! eid.

(** Run [f] on the locked state object. *)
Definition on_node_execution {L A} (eid : ExecutionId)
    (f : NodeExec → NodeExec * list L * result NodeRPCError A) (s : NodeRPCServerInternal)
    : NodeRPCServerInternal * list L * result NodeRPCError A :=
  match node_execution_state s eid with
  | None => (s, [], Err NodeExecutionNotFound)
  | Some ref =>
      match node_heap s !! ref with
      | None => (s, [], Panic)
      | Some d => let '(d', log, r) := f d in (s <| node_heap ::= <[ref := d']> |>, log, r)
      end
  end.

(** ** Range requests *)

Definition assigned_mask_share (d : NodeExec) (reserved_index : u64) (share_bytes : bytes)
    : result NodeRPCError AssignedMaskShare :=
  _ ← ok_or (assigned_reservations d !! reserved_index) IndexNotAdded;
  Ok (mkAssignedMaskShare reserved_index share_bytes).

(** The loop over the [k] indices from [i]. *)
Fixpoint collect_mask_shares (d : NodeExec) (id : ClientIdentity) (i : u64) (k : nat)
    : result NodeRPCError (option (list AssignedMaskShare)) :=
  match k with
  | O => Ok (Some [])
  | S k =>
      match index_to_client d !! i with
      | None => Ok None
      | Some client =>
          if negb (bool_decide (client = id)) then Err (AuthenticationFailed id)
          else
            match mask_shares d !! i with
            | None => Ok None
            | Some share =>
                x ← assigned_mask_share d i share;
                rest ← collect_mask_shares d id (i + 1)%N k;
                Ok (option_map (cons x) rest)
            end
      end
  end.

Definition assigned_mask_shares_for_client (d : NodeExec) (id : ClientIdentity) (start count : u64)
    : result NodeRPCError (option (list AssignedMaskShare)) :=
  _ ← ok_or (u64_checked_add start count) IndexNotAdded;
  collect_mask_shares d id start (N.to_nat count).

(** A share list as a message. *)
Inductive NodeMessage : Type := MMaskShares (l : list AssignedMaskShare).
Abbreviation NodeSend := (SubscriptionSink * NodeMessage)%type.

(** The outcome of a subscription call to a node. *)
Inductive NodeSubOutcome : Type :=
  | NodeRejected (e : ErrorObject)
  | NodeNotAccepted
  | NodeSubscribed.

(** [receive_assigned_mask_shares] on the locked state. *)
Definition receive_on (accept : option SubscriptionSink) (self : ClientIdentity) (start count : u64)
    (d : NodeExec) : NodeExec * list NodeSend * NodeSubOutcome :=
  let d := d <| assigned_sinks ::= delete self |> in
  match assigned_mask_shares_for_client d self start count with
  | Ok (Some shares) =>
      match accept with
      | None => (d, [], NodeNotAccepted)
      | Some sink => (d, [(sink, MMaskShares shares)], NodeSubscribed)
      end
  | Ok None =>
      match accept with
      | None => (d, [], NodeNotAccepted)
      | Some sink =>
          (d <| assigned_sinks ::= <[self := mkAssignedMaskRequest start count sink]> |>, [],
           NodeSubscribed)
      end
  | _ => (d, [], NodeRejected (rpc_error (node_error_code NodeSerializationFailed)))
  end.

Definition receive_assigned_mask_shares (accept : option SubscriptionSink) (self : ClientIdentity)
    (eid : ExecutionId) (start count : u64) (s : NodeRPCServerInternal)
    : NodeRPCServerInternal * list NodeSend * NodeSubOutcome :=
  match node_execution_state s eid with
  | None => (s, [], NodeRejected (rpc_error (node_error_code NodeExecutionMissing)))
  | Some ref =>
      match node_heap s !! ref with
      | None => (s, [], NodeNotAccepted)
      | Some d =>
          let '(d', log, o) := receive_on accept self start count d in
          (s <| node_heap ::= <[ref := d']> |>, log, o)
      end
  end.

(** ** Adding reservations and shares *)

(** [if !touched.contains(&id) { touched.push(id) }] *)
Definition touch (id : ClientIdentity) (touched : list ClientIdentity) : list ClientIdentity :=
  if contains touched id then touched else touched ++ [id].

(** Phase 1 of a reservation batch. *)
Fixpoint record_reservations (reservations : list AssignedMaskReservation) (d : NodeExec)
    (touched : list ClientIdentity) : NodeExec * list ClientIdentity :=
  match reservations with
  | [] => (d, touched)
  | r :: rs =>
      record_reservations rs
        (d <| index_to_client ::= <[amr_reserved_index r := amr_client r]> |>
           <| assigned_reservations ::= <[amr_reserved_index r := r]> |>)
        (touch (amr_client r) touched)
  end.

(** Phase 2: one look at the pending request of each touched client.  An error
    leaves at once: the request just taken out and the sends gathered so far are
    gone with it. *)
Fixpoint serve_touched (touched : list ClientIdentity) (d : NodeExec) (pending : list NodeSend)
    : NodeExec * list NodeSend * result NodeRPCError unit :=
  match touched with
  | [] => (d, pending, Ok tt)
  | id :: ids =>
      match assigned_sinks d !! id with
      | None => serve_touched ids d pending
      | Some request =>
          let d1 := d <| assigned_sinks ::= delete id |> in
          match assigned_mask_shares_for_client d1 id (req_start request) (req_count request) with
          | Ok (Some shares) =>
              serve_touched ids d1 (pending ++ [(req_sink request, MMaskShares shares)])
          | Ok None =>
              serve_touched ids (d1 <| assigned_sinks ::= <[id := request]> |>) pending
          | Err e => (d1, [], Err e)
          | Panic => (d1, [], Panic)
          end
      end
  end.

Definition add_assigned_reserved_indices (reservations : list AssignedMaskReservation) (d : NodeExec)
    : NodeExec * list NodeSend * result NodeRPCError unit :=
  match for_each (fun r => ensure (negb (is_some (index_to_client d !! amr_reserved_index r)))
                             IndexAlreadyAdded) reservations with
  | Ok _ =>
      let '(d, touched) := record_reservations reservations d [] in
      serve_touched touched d []
  | Err e => (d, [], Err e)
  | Panic => (d, [], Panic)
  end.

Definition add_assigned_reserved_indices_for_execution (eid : ExecutionId)
    (reservations : list AssignedMaskReservation) :=
  on_node_execution eid (add_assigned_reserved_indices reservations).

Definition add_assigned_reserved_index_for_execution (eid : ExecutionId)
    (reservation : AssignedMaskReservation) :=
  add_assigned_reserved_indices_for_execution eid [reservation].

(** The reservations of one unassigned event. *)
Definition reservations_of (client : ClientIdentity) (indices : list u64)
    : list AssignedMaskReservation :=
  (fun i => mkAssignedMaskReservation client i i) <$> indices.

Definition add_reserved_indices_for_execution (eid : ExecutionId) (client : ClientIdentity)
    (indices : list u64) :=
  add_assigned_reserved_indices_for_execution eid (reservations_of client indices).

Definition add_reserved_index_for_execution (eid : ExecutionId) (client : ClientIdentity)
    (reserved_index : u64) :=
  add_reserved_indices_for_execution eid client [reserved_index].

Section shares.
Context {S : Type} (serialize : S → option bytes).

(** Phase 1 of a share batch; a share that cannot be serialised ends the call
    with the earlier ones recorded. *)
Fixpoint record_shares (shares : list (u64 * S)) (d : NodeExec) (touched : list ClientIdentity)
    : NodeExec * result NodeRPCError (list ClientIdentity) :=
  match shares with
  | [] => (d, Ok touched)
  | (i, share) :: shares =>
      match serialize share with
      | None => (d, Err NodeSerializationError)
      | Some share_bytes =>
          record_shares shares (d <| mask_shares ::= <[i := share_bytes]> |>)
            match index_to_client d !! i with
            | Some id => touch id touched
            | None => touched
            end
      end
  end.

Definition add_mask_shares (shares : list (u64 * S)) (d : NodeExec)
    : NodeExec * list NodeSend * result NodeRPCError unit :=
  match for_each (fun p => ensure (negb (is_some (mask_shares d !! p.1))) IndexAlreadyAdded) shares with
  | Ok _ =>
      match record_shares shares d [] with
      | (d, Ok touched) => serve_touched touched d []
      | (d, Err e) => (d, [], Err e)
      | (d, Panic) => (d, [], Panic)
      end
  | Err e => (d, [], Err e)
  | Panic => (d, [], Panic)
  end.

Definition add_mask_shares_for_execution (eid : ExecutionId) (shares : list (u64 * S)) :=
  on_node_execution eid (add_mask_shares shares).

Definition add_mask_share_for_execution (eid : ExecutionId) (i : u64) (share : S) :=
  add_mask_shares_for_execution eid [(i, share)].
End shares.

(** ** What a range request yields *)

(** [shares] are the shares of [count] indices from [start], all reserved by [id]. *)
Definition owned_shares (d : NodeExec) (id : ClientIdentity) (start : u64) (k : nat)
    (shares : list AssignedMaskShare) : Prop :=
  length shares = k ∧
  ∀ j, j < k → ∃ b, let i := (start + N.of_nat j)%N in
    index_to_client d !! i = Some id ∧ is_Some (assigned_reservations d !! i) ∧
    mask_shares d !! i = Some b ∧ shares !! j = Some (mkAssignedMaskShare i b).

Lemma owned_shares_cons d id start k x shares :
  owned_shares d id start (S k) (x :: shares) ↔
  (∃ b, index_to_client d !! start = Some id ∧ is_Some (assigned_reservations d !! start) ∧
     mask_shares d !! start = Some b ∧ x = mkAssignedMaskShare start b) ∧
  owned_shares d id (start + 1)%N k shares.
Proof.
  unfold owned_shares. simpl. split.
  - intros [Hlen Hj]. split.
    + destruct (Hj 0) as (b & H1 & H2 & H3 & H4); [lia|]. rewrite N.add_0_r in *. simpl in H4.
      simplify_eq. by exists b.
    + split; [lia|]. intros j Hlt. destruct (Hj (S j)) as (b & Hb); [lia|]. exists b.
      by replace (start + 1 + N.of_nat j)%N with (start + N.of_nat (S j))%N by lia.
  - intros [(b & H1 & H2 & H3 & ->) [Hlen Hj]]. split; [lia|]. intros [|j] Hlt.
    + exists b. rewrite N.add_0_r. done.
    + destruct (Hj j) as (b' & Hb); [lia|]. exists b'.
      by replace (start + N.of_nat (S j))%N with (start + 1 + N.of_nat j)%N by lia.
Qed.

Lemma collect_mask_shares_Some d id i k shares :
  collect_mask_shares d id i k = Ok (Some shares) ↔ owned_shares d id i k shares.
Proof.
  revert i shares. induction k as [|k IH]; intros i shares; simpl.
  { unfold owned_shares. split; [intros [= <-]; split; [done|lia]|].
    intros [Hlen _]. by destruct shares. }
  split.
  - intros Hc. destruct (index_to_client d !! i) as [client|] eqn:Hi; [|done].
    case_bool_decide; [subst client|done]. simpl in Hc.
    destruct (mask_shares d !! i) as [b|] eqn:Hm; [|done]. unfold assigned_mask_share in Hc.
    destruct (assigned_reservations d !! i) as [r|] eqn:Hr; [|done]. simpl in Hc.
    destruct (collect_mask_shares d id (i + 1) k) as [[rest|]| |] eqn:Hrest; [|done..].
    simpl in Hc. injection Hc as <-. apply owned_shares_cons. split; [by exists b; eauto|].
    by apply IH.
  - intros Ho. destruct shares as [|x shares]; [by destruct Ho|].
    apply owned_shares_cons in Ho as [(b & Hi & [r Hr] & Hm & ->) Hrest].
    rewrite Hi, bool_decide_true, Hm by done. simpl. unfold assigned_mask_share. rewrite Hr. simpl.
    apply IH in Hrest. by rewrite Hrest.
Qed.

Lemma range_request_Some d id start count shares :
  assigned_mask_shares_for_client d id start count = Ok (Some shares) ↔
  (start + count < u64_modulus)%N ∧ owned_shares d id start (N.to_nat count) shares.
Proof.
  unfold assigned_mask_shares_for_client, u64_checked_add.
  destruct (start + count <? u64_modulus)%N eqn:Hw; reflect_bool; simpl.
  - rewrite collect_mask_shares_Some. naive_solver.
  - split; [done|]. intros [? _]. lia.
Qed.

(** Waiting requests do not matter for what a range yields. *)
Lemma range_request_sinks d f id start count :
  assigned_mask_shares_for_client (d <| assigned_sinks ::= f |>) id start count =
  assigned_mask_shares_for_client d id start count.
Proof.
  unfold assigned_mask_shares_for_client. destruct (u64_checked_add start count); [|done].
  cbn [ok_or mbind result_bind]. generalize start.
  induction (N.to_nat count) as [|k IH]; intros i; [done|]. cbn [collect_mask_shares].
  rewrite IH. done.
Qed.

(** ** The invariant *)

(** Every owned index has its reservation on record. *)
Definition node_wf (d : NodeExec) : Prop :=
  ∀ i, is_Some (index_to_client d !! i) → is_Some (assigned_reservations d !! i).

(** No waiting request could be answered: nobody waits for shares that are there. *)
Definition nobody_kept_waiting (d : NodeExec) : Prop :=
  ∀ id req shares, assigned_sinks d !! id = Some req →
    assigned_mask_shares_for_client d id (req_start req) (req_count req) ≠ Ok (Some shares).

(** Two states that differ in the waiting requests only. *)
Definition same_but_sinks (d d' : NodeExec) : Prop := d' = d <| assigned_sinks := assigned_sinks d' |>.

#[export] Instance same_but_sinks_trans : Transitive same_but_sinks.
Proof. intros [] [] []. unfold same_but_sinks, upd. simpl. intros [=] [=]. by subst. Qed.

Lemma same_but_sinks_request d d' id start count :
  same_but_sinks d d' →
  assigned_mask_shares_for_client d' id start count = assigned_mask_shares_for_client d id start count.
Proof. intros ->. apply range_request_sinks. Qed.

(** What the serving phase does to each waiting request of a touched client: it
    keeps waiting because its range is incomplete, or it is answered. *)
Record served (touched : list ClientIdentity) (d d' : NodeExec) (log : list NodeSend) : Prop := {
  sv_frame : same_but_sinks d d';
  sv_subset : assigned_sinks d' ⊆ assigned_sinks d;
  sv_other : ∀ id, id ∉ touched → assigned_sinks d' !! id = assigned_sinks d !! id;
  sv_touched : ∀ id req, id ∈ touched → assigned_sinks d !! id = Some req →
    (assigned_sinks d' !! id = Some req ∧
     assigned_mask_shares_for_client d id (req_start req) (req_count req) = Ok None) ∨
    (assigned_sinks d' !! id = None ∧ ∃ shares,
     assigned_mask_shares_for_client d id (req_start req) (req_count req) = Ok (Some shares) ∧
     (req_sink req, MMaskShares shares) ∈ log);
  sv_log : ∀ x, x ∈ log → ∃ id req shares, assigned_sinks d !! id = Some req ∧
     x = (req_sink req, MMaskShares shares) ∧
     assigned_mask_shares_for_client d id (req_start req) (req_count req) = Ok (Some shares) }.

Lemma serve_touched_pending touched d pending :
  serve_touched touched d pending =
    let '(d', log, r) := serve_touched touched d [] in
    (d', match r with Ok _ => pending ++ log | _ => [] end, r).
Proof.
  revert d pending. induction touched as [|id ids IH]; intros d pending; simpl.
  { by rewrite app_nil_r. }
  destruct (assigned_sinks d !! id) as [req|]; [|by apply IH].
  destruct (assigned_mask_shares_for_client _ _ _ _) as [[sh|]| |]; [|by apply IH|done..].
  rewrite (IH _ (pending ++ _)), (IH _ [_]). destruct (serve_touched ids _ []) as [[d2 log2] r2].
  destruct r2; [|done..]. by rewrite <-app_assoc.
Qed.

Lemma served_nil d : served [] d d [].
Proof.
  constructor; try done; [by destruct d|..].
  - intros id req Hin. by apply not_elem_of_nil in Hin.
  - intros x Hin. by apply not_elem_of_nil in Hin.
Qed.

(** One touched client in front of the others. *)
Lemma served_cons id ids d d1 d' log :
  same_but_sinks d d1 → assigned_sinks d1 = assigned_sinks d →
  (∀ req, assigned_sinks d !! id = Some req →
     assigned_mask_shares_for_client d id (req_start req) (req_count req) = Ok None) →
  served ids d1 d' log → served (id :: ids) d d' log.
Proof.
  intros Hs Heq Hnone [F1 F2 F3 F4 F5].
  assert (d1 = d) as -> by (unfold same_but_sinks in Hs; rewrite Heq in Hs; by destruct d).
  constructor; [done..| | |done].
  - intros x Hx. apply F3. set_solver.
  - intros x req [->|Hx]%elem_of_cons Hreq; [|by apply F4].
    destruct (decide (id ∈ ids)) as [Hin|Hin]; [by apply F4|].
    left. rewrite F3 by done. auto.
Qed.

Lemma served_answer id ids d d' log req shares :
  assigned_sinks d !! id = Some req →
  assigned_mask_shares_for_client d id (req_start req) (req_count req) = Ok (Some shares) →
  served ids (d <| assigned_sinks ::= delete id |>) d' log →
  served (id :: ids) d d' ((req_sink req, MMaskShares shares) :: log).
Proof.
  intros Hreq Hsh [F1 F2 F3 F4 F5]. simpl in *.
  assert (∀ x st ct, assigned_mask_shares_for_client (d <| assigned_sinks ::= delete id |>) x st ct =
    assigned_mask_shares_for_client d x st ct) as Hsame.
  { intros x st ct. apply range_request_sinks. }
  constructor.
  - etrans; [|exact F1]. by destruct d.
  - etrans; [exact F2|apply delete_subseteq].
  - intros x Hx. rewrite F3 by set_solver. apply lookup_delete_ne. set_solver.
  - intros x rq [->|Hx]%elem_of_cons Hrq.
    + simplify_eq. right. split.
      * eapply lookup_weaken_None; [|exact F2]. apply lookup_delete_eq.
      * exists shares. split; [done|left].
    + destruct (decide (x = id)) as [->|Hne].
      { simplify_eq. right. split; [eapply lookup_weaken_None; [apply lookup_delete_eq|exact F2]|].
        exists shares. split; [done|left]. }
      destruct (F4 x rq Hx) as [[H1 H2]|(H1 & sh & H2 & H3)].
      * by rewrite lookup_delete_ne.
      * left. rewrite <-(Hsame x). auto.
      * right. split; [done|]. exists sh. rewrite <-(Hsame x). split; [done|by right].
  - intros x [->|Hx]%elem_of_cons; [by exists id, req, shares|].
    destruct (F5 x Hx) as (i & rq & sh & H1 & -> & H2). exists i, rq, sh.
    apply lookup_delete_Some in H1 as [_ H1]. rewrite <-(Hsame i). auto.
Qed.

Lemma serve_touched_served touched d d' log r :
  serve_touched touched d [] = (d', log, Ok r) → served touched d d' log.
Proof.
  revert d log. induction touched as [|id ids IH]; intros d log; simpl.
  { intros [= <- <- _]. apply served_nil. }
  destruct (assigned_sinks d !! id) as [req|] eqn:Hreq.
  2: { intros Hs%IH. eapply served_cons, Hs; [by destruct d|done|]. by intros rq ?; congruence. }
  rewrite range_request_sinks.
  destruct (assigned_mask_shares_for_client d id _ _) as [[sh|]| |] eqn:Hsh; [|..|done|done].
  - rewrite serve_touched_pending.
    destruct (serve_touched ids (d <| assigned_sinks ::= delete id |>) []) as [[d2 log2] r2] eqn:H2.
    intros [= <- <- ->]. simpl. apply served_answer; [done..|]. by apply IH.
  - match goal with |- serve_touched ids ?x [] = _ → _ => replace x with d end.
    2: { destruct d. unfold upd. simpl in *. unfold upd. simpl. by rewrite insert_delete_id. }
    intros Hs%IH. eapply served_cons, Hs; [by destruct d|done|]. intros rq ?. by simplify_eq.
Qed.

(** ** The recording phases *)

Lemma elem_of_touch x id touched : x ∈ touch id touched ↔ x = id ∨ x ∈ touched.
Proof.
  unfold touch, contains. case_bool_decide as Hd; [naive_solver|].
  rewrite elem_of_app, list_elem_of_singleton. naive_solver.
Qed.

Lemma record_reservations_spec rs d touched d' touched' :
  record_reservations rs d touched = (d', touched') →
  mask_shares d' = mask_shares d ∧ assigned_sinks d' = assigned_sinks d ∧
  (∀ x, x ∈ touched' ↔ x ∈ touched ∨ x ∈ amr_client <$> rs) ∧
  (node_wf d → node_wf d') ∧
  (∀ i c, index_to_client d' !! i = Some c →
     index_to_client d !! i = Some c ∨ ∃ r, r ∈ rs ∧ amr_reserved_index r = i ∧ amr_client r = c).
Proof.
  revert d touched. induction rs as [|r rs IH]; intros d touched; simpl.
  { intros [= <- <-]. split_and!; [done..| |done|by left]. intros x. set_solver. }
  intros Hr. apply IH in Hr as (Hm & Hs & Ht & Hwf & Hidx). simpl in *. split_and!; [done..| | |].
  - intros x. rewrite Ht, elem_of_touch, elem_of_cons. naive_solver.
  - intros Hd. apply Hwf. intros i. simpl. rewrite !lookup_insert. case_decide; [eauto|apply Hd].
  - intros i c Hi. apply Hidx in Hi as [Hi|(r' & Hin & Hri & Hrc)].
    + rewrite lookup_insert in Hi. case_decide; [|by left]. simplify_eq. right.
      exists r. split_and!; [left|done..].
    + right. exists r'. split_and!; [by right|done..].
Qed.

Lemma record_shares_spec {S} (serialize : S → option bytes) shares d touched d' touched' :
  record_shares serialize shares d touched = (d', Ok touched') →
  index_to_client d' = index_to_client d ∧ assigned_reservations d' = assigned_reservations d ∧
  assigned_sinks d' = assigned_sinks d ∧
  (∀ x, x ∈ touched → x ∈ touched') ∧
  (∀ i b, mask_shares d' !! i = Some b → mask_shares d !! i = Some b ∨
     ∀ c, index_to_client d !! i = Some c → c ∈ touched').
Proof.
  revert d touched. induction shares as [|[i s] shares IH]; intros d touched; simpl.
  { intros [= <- <-]. split_and!; [done..|by left]. }
  destruct (serialize s) as [b|]; [|done]. intros Hr.
  apply IH in Hr as (H1 & H2 & H3 & H4 & H5). simpl in *. split_and!; [done..| |].
  - intros x Hx. apply H4. destruct (index_to_client d !! i); [|done].
    apply elem_of_touch. by right.
  - intros j b' Hj. apply H5 in Hj as [Hj|Hj]; [|by right].
    rewrite lookup_insert in Hj. case_decide; [|by left]. subst j. right.
    intros c Hc. apply H4. rewrite Hc. apply elem_of_touch. by left.
Qed.

(** A request that is answered after serving was never left waiting. *)
Lemma served_nobody touched d1 d d' log :
  served touched d d' log → nobody_kept_waiting d1 →
  assigned_sinks d = assigned_sinks d1 →
  (∀ id start count shares, id ∉ touched →
     assigned_mask_shares_for_client d id start count = Ok (Some shares) →
     assigned_mask_shares_for_client d1 id start count = Ok (Some shares)) →
  nobody_kept_waiting d'.
Proof.
  intros [F1 F2 F3 F4 F5] Hn Hsinks Hold id req shares Hreq Hsh.
  rewrite (same_but_sinks_request d d') in Hsh by done.
  assert (assigned_sinks d !! id = Some req) as Hreq0 by (by eapply lookup_weaken).
  destruct (decide (id ∈ touched)) as [Hin|Hin].
  - destruct (F4 id req Hin Hreq0) as [[_ H2]|(H1 & _)]; congruence.
  - apply Hold in Hsh; [|done]. rewrite Hsinks in Hreq0. by eapply Hn.
Qed.

(** Fewer owned indices with the same shares yield no more. *)
Lemma request_weaken d d1 id start count shares :
  node_wf d1 →
  (∀ i, index_to_client d !! i = Some id → index_to_client d1 !! i = Some id) →
  (∀ i b, index_to_client d !! i = Some id → mask_shares d !! i = Some b →
     mask_shares d1 !! i = Some b) →
  assigned_mask_shares_for_client d id start count = Ok (Some shares) →
  assigned_mask_shares_for_client d1 id start count = Ok (Some shares).
Proof.
  intros Hwf Hidx Hm [Hw [Hlen Ho]]%range_request_Some. apply range_request_Some. split; [done|].
  split; [done|]. intros j Hj. destruct (Ho j Hj) as (b & H1 & H2 & H3 & H4). exists b.
  split_and!; [by auto| |by auto|done]. apply Hwf. eauto.
Qed.

(** A subscription answers at once or starts waiting for an incomplete range. *)
Lemma receive_on_idle accept self start count d d' log o :
  node_wf d → nobody_kept_waiting d → receive_on accept self start count d = (d', log, o) →
  node_wf d' ∧ nobody_kept_waiting d'.
Proof.
  intros Hwf Hidle. unfold receive_on. set (d1 := d <| assigned_sinks ::= delete self |>).
  assert (nobody_kept_waiting d1) as Hidle1.
  { intros id req sh Hl. subst d1. simpl in Hl. apply lookup_delete_Some in Hl as [_ Hreq].
    rewrite range_request_sinks. by apply Hidle. }
  assert (node_wf d1) as Hwf1 by done.
  destruct (assigned_mask_shares_for_client d1 self start count) as [[sh|]| |] eqn:Hreq;
    [| |by intros [= <- _ _]..].
  - destruct accept; intros [= <- _ _]; done.
  - destruct accept as [sink|]; intros [= <- _ _]; [|done]. split; [done|].
    intros id req sh Hl. rewrite range_request_sinks. simpl in Hl.
    rewrite lookup_insert in Hl. case_decide; [|by apply Hidle1].
    simplify_eq. simpl. by rewrite Hreq.
Qed.

(** ** Claims *)

(** A node hands a client exactly its own shares: a range is answered
    precisely when it does not overflow and every index of it was reserved by this
    client and has a share, and the answer is those shares in the order of their
    indices; an index reserved by someone else is never part of an answer. *)
Theorem node_releases_exactly_own_shares d id start count shares :
  (assigned_mask_shares_for_client d id start count = Ok (Some shares) ↔
     (start + count < u64_modulus)%N ∧ owned_shares d id start (N.to_nat count) shares) ∧
  (∀ i other, (start <= i < start + count)%N → index_to_client d !! i = Some other → other ≠ id →
     assigned_mask_shares_for_client d id start count ≠ Ok (Some shares)).
Proof.
  split; [apply range_request_Some|].
  intros i other Hi Hother Hne [_ [_ Ho]]%range_request_Some.
  destruct (Ho (N.to_nat (i - start))) as (b & H1 & _); [lia|].
  replace (start + N.of_nat (N.to_nat (i - start)))%N with i in H1 by lia. congruence.
Qed.

(** No wake-up is lost.  If nobody waits for shares that are there, then after
    a subscription, a batch of reservations or a batch of shares that succeeds
    nobody does: every request a batch completes is answered with exactly its
    range, every other one keeps waiting, and nothing else is sent. *)
Theorem node_keeps_nobody_waiting {S} (serialize : S → option bytes) d
    (Hwf : node_wf d) (Hidle : nobody_kept_waiting d) :
  (∀ accept self start count d' log o,
     receive_on accept self start count d = (d', log, o) → node_wf d' ∧ nobody_kept_waiting d') ∧
  (∀ reservations d' log,
     add_assigned_reserved_indices reservations d = (d', log, Ok tt) →
     node_wf d' ∧ nobody_kept_waiting d' ∧
     (∀ id req, assigned_sinks d !! id = Some req → assigned_sinks d' !! id = Some req ∨
        ∃ shares, (req_sink req, MMaskShares shares) ∈ log ∧
          assigned_mask_shares_for_client d' id (req_start req) (req_count req) = Ok (Some shares))) ∧
  (∀ shares d' log,
     add_mask_shares serialize shares d = (d', log, Ok tt) →
     node_wf d' ∧ nobody_kept_waiting d' ∧
     (∀ id req, assigned_sinks d !! id = Some req → assigned_sinks d' !! id = Some req ∨
        ∃ shares, (req_sink req, MMaskShares shares) ∈ log ∧
          assigned_mask_shares_for_client d' id (req_start req) (req_count req) = Ok (Some shares))).
Proof.
  assert (∀ touched d1 d' log, served touched d1 d' log → assigned_sinks d1 = assigned_sinks d →
    ∀ id req, assigned_sinks d !! id = Some req → assigned_sinks d' !! id = Some req ∨
      ∃ shares, (req_sink req, MMaskShares shares) ∈ log ∧
        assigned_mask_shares_for_client d' id (req_start req) (req_count req) = Ok (Some shares))
    as Hanswered.
  { intros touched d1 d' log [F1 F2 F3 F4 F5] Hs id req Hreq. rewrite <-Hs in Hreq.
    destruct (decide (id ∈ touched)) as [Hin|Hin].
    - destruct (F4 id req Hin Hreq) as [[? _]|(_ & sh & H1 & H2)]; [by left|right].
      exists sh. by rewrite (same_but_sinks_request d1 d').
    - left. by rewrite F3. }
  split_and!.
  - intros accept self start count d' log o Hr. by eapply receive_on_idle.
  - intros rs d' log Hr. unfold add_assigned_reserved_indices in Hr.
    destruct (for_each _ rs) as [[]| |]; [|done..].
    destruct (record_reservations rs d []) as [d1 touched] eqn:Hrec.
    apply record_reservations_spec in Hrec as (Hm & Hs & Ht & Hwf1 & Hidx).
    apply serve_touched_served in Hr as Hsv. pose proof (sv_frame _ _ _ _ Hsv) as Hfr.
    split_and!; [|eapply served_nobody; [done..|]|by eapply Hanswered].
    + intros i. rewrite Hfr. by apply Hwf1.
    + intros id start count sh Hnot. apply request_weaken; [done| |by rewrite Hm].
      intros i Hi. apply Hidx in Hi as [|(r & Hin & _ & Hc)]; [done|]. exfalso. apply Hnot, Ht.
      right. apply list_elem_of_fmap. eauto.
  - intros shs d' log Hr. unfold add_mask_shares in Hr.
    destruct (for_each _ shs) as [[]| |]; [|done..].
    destruct (record_shares serialize shs d []) as [d1 [touched| |]] eqn:Hrec; [|done..].
    apply record_shares_spec in Hrec as (Hi & Hres & Hs & _ & Hm).
    apply serve_touched_served in Hr as Hsv. pose proof (sv_frame _ _ _ _ Hsv) as Hfr.
    split_and!; [|eapply served_nobody; [done..|]|by eapply Hanswered].
    + intros i. rewrite Hfr. simpl. rewrite Hi, Hres. apply Hwf.
    + intros id start count sh Hnot. apply request_weaken; [done|by rewrite Hi|].
      intros i b Hown Hb. apply Hm in Hb as [|Hb]; [done|]. rewrite Hi in Hown.
      exfalso. by apply Hnot, Hb.
Qed.

Lemma node_keeps_nobody_waiting_witness :
  nobody_kept_waiting
    (add_assigned_reserved_indices [mkAssignedMaskReservation client1 3 0] new_node_execution).1.1.
Proof.
  destruct (node_keeps_nobody_waiting (fun b : bytes => Some b) new_node_execution) as (_ & Hadd & _).
  - intros i [? Hi]. discriminate Hi.
  - intros id req shares Hs. discriminate Hs.
  - refine (proj1 (proj2 (Hadd [mkAssignedMaskReservation client1 3 0] _
      (add_assigned_reserved_indices [mkAssignedMaskReservation client1 3 0] new_node_execution).1.2 _))).
    apply outcome_eta.
Defined.

(** A request that turns out to be illegal cancels the answers of other
    clients: in a batch that completes the waiting request of one client and gives
    an index of another client's range to somebody else, the call fails, the first
    client's request is removed and its shares are never sent. *)
Theorem foreign_range_cancels_other_answers :
  let request1 := mkAssignedMaskRequest 0 1 7 in
  let request2 := mkAssignedMaskRequest 1 2 8 in
  let d := mkNodeExec ∅ ∅ {[client1 := request1; client2 := request2]}
             {[0%N := [Byte.x0a]; 1%N := [Byte.x0b]]} in
  let '(d', log, r) := add_assigned_reserved_indices
    [mkAssignedMaskReservation client1 0 0; mkAssignedMaskReservation client2 1 0;
     mkAssignedMaskReservation client1 2 0] d in
  r = Err (AuthenticationFailed client2) ∧ log = [] ∧
  is_some (assigned_sinks d' !! client1) = false ∧
  assigned_mask_shares_for_client d' client1 0 1 = Ok (Some [mkAssignedMaskShare 0 [Byte.x0a]]).
Proof. vm_compute. split_and!; reflexivity. Qed.

(** The registry: references are allocated, distinct, and bounded in number. *)
Record node_server_wf (s : NodeRPCServerInternal) : Prop := {
  ns_allocated : ∀ eid ref, node_executions s !! eid = Some ref → is_Some (node_heap s !! ref);
  ns_distinct : ∀ e1 e2 ref, node_executions s !! e1 = Some ref → node_executions s !! e2 = Some ref →
    e1 = e2;
  ns_bound : (N.of_nat (size (node_executions s)) <= DEFAULT_MAX_CONCURRENT_EXECUTIONS)%N }.

(** Executions of a node are isolated.  A registration succeeds exactly for a
    nonzero identifier that is not live while fewer than 1024 executions are, and
    gives it a new, empty state that no other execution shares, in particular not
    with an earlier execution of the same identifier; retiring removes the
    execution from the registry and leaves every state to the calls that hold it. *)
Theorem node_executions_isolated s eid (Hwf : node_server_wf s) :
  (let '(s', r) := node_register_execution eid s in
   node_server_wf s' ∧
   (r = Ok tt ↔ is_zero eid = false ∧ node_executions s !! eid = None ∧
      (N.of_nat (size (node_executions s)) < DEFAULT_MAX_CONCURRENT_EXECUTIONS)%N) ∧
   (r ≠ Ok tt → s' = s) ∧
   (r = Ok tt → ∃ ref, node_executions s' = <[eid := ref]> (node_executions s) ∧
      node_heap s !! ref = None ∧ node_heap s' = <[ref := new_node_execution]> (node_heap s))) ∧
  (let '(s', b) := node_retire_execution eid s in
   node_server_wf s' ∧ node_heap s' = node_heap s ∧ node_executions s' !! eid = None ∧
   (b = true ↔ is_Some (node_executions s !! eid)) ∧
   ∀ e, e ≠ eid → node_executions s' !! e = node_executions s !! e).
Proof.
  destruct Hwf as [Ha Hd Hb]. split.
  - unfold node_register_execution.
    destruct (is_zero eid); [split_and!; [done|naive_solver|done|done]|].
    destruct (node_executions s !! eid) as [old|] eqn:He; simpl;
      [split_and!; [done|naive_solver|done|done]|].
    destruct (_ <=? _)%N eqn:Hfull; reflect_bool.
    { split_and!; [done| |done|done]. split; [done|]. intros (_ & _ & ?). lia. }
    set (ref := fresh (dom (node_heap s))).
    assert (node_heap s !! ref = None) as Hfresh by (apply not_elem_of_dom, is_fresh).
    split_and!; [|done|done|intros _; by exists ref]. constructor; simpl.
    + intros e r. rewrite !lookup_insert. repeat case_decide; naive_solver.
    + intros e1 e2 r. rewrite !lookup_insert.
      assert (∀ e, node_executions s !! e ≠ Some ref) as Hno.
      { intros e Hr. destruct (Ha e ref Hr). congruence. }
      repeat case_decide; naive_solver.
    + rewrite map_size_insert_None by done. lia.
  - simpl. split_and!.
    + constructor; simpl.
      * intros e r [_ Hr]%lookup_delete_Some. by eapply Ha.
      * intros e1 e2 r [_ H1]%lookup_delete_Some [_ H2]%lookup_delete_Some. by eapply Hd.
      * rewrite map_size_delete. destruct (node_executions s !! eid); simpl; lia.
    + done.
    + apply lookup_delete_eq.
    + destruct (node_executions s !! eid); simpl; [split; eauto|split; [done|by intros []]].
    + intros e Hne. by rewrite lookup_delete_ne.
Qed.

Lemma node_executions_isolated_witness :
  is_ok (node_register_execution sample_eid new_node_server).2 = true.
Proof.
  destruct (node_executions_isolated new_node_server sample_eid) as [Hreg _].
  - constructor; [intros e r He; discriminate He|intros e1 e2 r He; discriminate He|by vm_compute].
  - destruct (node_register_execution sample_eid new_node_server) as [s' r].
    destruct Hreg as (_ & Hiff & _). rewrite (proj2 Hiff); [reflexivity|].
    split_and!; [by vm_compute|reflexivity|by vm_compute].
Defined.
