(* ===== verification/NodeBook.v ===== *)
(** What a node promises to the clients it serves, without how it keeps it: a book
    of who owns which mask index, which shares are there and who waits for which
    range.  The clients of a batch are looked up through a list of the touched ones
    in the code; the book only says that nobody is left waiting. *)
From S2P Require Import Prelude Shared Execution Samples Server NodeRpc.

(** ** The book *)

Record MaskBook : Type := mkMaskBook {
  owners : gmap u64 ClientIdentity;
  deposits : gmap u64 bytes;
  waiting : gmap ClientIdentity AssignedMaskRequest }.

#[export] Instance mask_book_eta : Eta MaskBook := fun b =>
  mkMaskBook (owners b) (deposits b) (waiting b).

(** The range [start .. start + count] is the client's own and complete, and
    [shares] are its shares in order. *)
Definition granted (b : MaskBook) (id : ClientIdentity) (start count : u64)
    (shares : list AssignedMaskShare) : Prop :=
  (start + count < u64_modulus)%N ∧ length shares = N.to_nat count ∧
  ∀ j, j < N.to_nat count → ∃ share, let i := (start + N.of_nat j)%N in
    owners b !! i = Some id ∧ deposits b !! i = Some share ∧
    shares !! j = Some (mkAssignedMaskShare i share).

(** An index of the range belongs to somebody else. *)
Definition trespasses (b : MaskBook) (id : ClientIdentity) (start count : u64) : Prop :=
  ∃ i other, (start <= i < start + count)%N ∧ owners b !! i = Some other ∧ other ≠ id.

(** Nobody waits for shares that are there. *)
Definition quiescent (b : MaskBook) : Prop :=
  ∀ id rq shares, waiting b !! id = Some rq → ¬ granted b id (req_start rq) (req_count rq) shares.

(** Every waiting range is a range of [u64]. *)
Definition ranges_fit (b : MaskBook) : Prop :=
  ∀ id rq, waiting b !! id = Some rq → (req_start rq + req_count rq < u64_modulus)%N.

(** An answer: to whom, into which subscription, and the shares. *)
Record Release : Type := mkRelease {
  rel_client : ClientIdentity;
  rel_sink : SubscriptionSink;
  rel_shares : list AssignedMaskShare }.

(** Waiting clients are answered, one after the other and in any order, each with
    exactly its range. *)
Inductive releases : MaskBook → list Release → MaskBook → Prop :=
  | rel_done b : releases b [] b
  | rel_next b id rq shares log b' :
      waiting b !! id = Some rq → granted b id (req_start rq) (req_count rq) shares →
      releases (b <| waiting ::= delete id |>) log b' →
      releases b (mkRelease id (req_sink rq) shares :: log) b'.

(** ** Operations *)

(** What clients and the node's own program ask of a book; a share that could not
    be serialised is [None]. *)
Inductive NodeOp : Type :=
  | OpSubscribe (accept : option SubscriptionSink) (self : ClientIdentity) (start count : u64)
  | OpReserve (reservations : list AssignedMaskReservation)
  | OpDeposit (shares : list (u64 * option bytes)).

Inductive NodeOutcome : Type :=
  | Subscription (o : NodeSubOutcome)
  | Called (r : result NodeRPCError unit).

Definition assign (reservations : list AssignedMaskReservation) (m : gmap u64 ClientIdentity)
    : gmap u64 ClientIdentity :=
  foldl (fun m r => <[amr_reserved_index r := amr_client r]> m) m reservations.

(** The shares up to the first that could not be serialised. *)
Fixpoint deposit (shares : list (u64 * option bytes)) (m : gmap u64 bytes) : gmap u64 bytes :=
  match shares with
  | (i, Some share) :: shares => deposit shares (<[i := share]> m)
  | _ => m
  end.

(** A batch that recorded [b] answers the clients it completes; or it is abandoned
    at a client whose own range trespasses, with that client's request and some
    others dropped and nothing sent. *)
Inductive settles (b : MaskBook) : list Release → result NodeRPCError unit → MaskBook → Prop :=
  | settled log b' : releases b log b' → settles b log (Ok tt) b'
  | abandoned id rq w :
      waiting b !! id = Some rq → trespasses b id (req_start rq) (req_count rq) →
      w ⊆ waiting b → w !! id = None →
      settles b [] (Err (AuthenticationFailed id)) (b <| waiting := w |>).

(** The operations on every branch. *)
Inductive book_op (b : MaskBook) : NodeOp → list Release → NodeOutcome → MaskBook → Prop :=
  | bo_answered sink self start count shares :
      granted b self start count shares →
      book_op b (OpSubscribe (Some sink) self start count) [mkRelease self sink shares]
        (Subscription NodeSubscribed) (b <| waiting ::= delete self |>)
  | bo_waits sink self start count :
      (start + count < u64_modulus)%N → (∀ shares, ¬ granted b self start count shares) →
      book_op b (OpSubscribe (Some sink) self start count) [] (Subscription NodeSubscribed)
        (b <| waiting ::= <[self := mkAssignedMaskRequest start count sink]> |>)
  | bo_not_accepted self start count :
      book_op b (OpSubscribe None self start count) [] (Subscription NodeNotAccepted)
        (b <| waiting ::= delete self |>)
  | bo_rejected accept self start count :
      (u64_modulus <= start + count)%N ∨ trespasses b self start count →
      book_op b (OpSubscribe accept self start count) []
        (Subscription (NodeRejected (rpc_error (node_error_code NodeSerializationFailed))))
        (b <| waiting ::= delete self |>)
  | bo_reserved rs log r b' :
      (∀ x, x ∈ rs → owners b !! amr_reserved_index x = None) →
      settles (b <| owners ::= assign rs |>) log r b' → book_op b (OpReserve rs) log (Called r) b'
  | bo_reserve_refused rs x :
      x ∈ rs → is_Some (owners b !! amr_reserved_index x) →
      book_op b (OpReserve rs) [] (Called (Err IndexAlreadyAdded)) b
  | bo_deposited shares log r b' :
      (∀ x, x ∈ shares → deposits b !! x.1 = None ∧ is_Some x.2) →
      settles (b <| deposits ::= deposit shares |>) log r b' →
      book_op b (OpDeposit shares) log (Called r) b'
  | bo_deposit_refused shares x :
      x ∈ shares → is_Some (deposits b !! x.1) →
      book_op b (OpDeposit shares) [] (Called (Err IndexAlreadyAdded)) b
  | bo_deposit_cut shares i :
      (∀ x, x ∈ shares → deposits b !! x.1 = None) → (i, None) ∈ shares →
      book_op b (OpDeposit shares) [] (Called (Err NodeSerializationError))
        (b <| deposits ::= deposit shares |>).

(** ** The node's state as a book *)

Definition book (d : NodeExec) : MaskBook :=
  mkMaskBook (index_to_client d) (mask_shares d) (assigned_sinks d).

Definition release_send (x : Release) : NodeSend := (rel_sink x, MMaskShares (rel_shares x)).

(** One call on the locked state object. *)
Definition node_apply (op : NodeOp) (d : NodeExec) : NodeExec * list NodeSend * NodeOutcome :=
  match op with
  | OpSubscribe accept self start count =>
      let '(d, log, o) := receive_on accept self start count d in (d, log, Subscription o)
  | OpReserve rs => let '(d, log, r) := add_assigned_reserved_indices rs d in (d, log, Called r)
  | OpDeposit shares => let '(d, log, r) := add_mask_shares id shares d in (d, log, Called r)
  end.

(** The calls on one state object, in order. *)
Fixpoint node_run (ops : list NodeOp) (d : NodeExec) : NodeExec * list NodeSend * list NodeOutcome :=
  match ops with
  | [] => (d, [], [])
  | op :: ops =>
      let '(d, log, o) := node_apply op d in
      let '(d, log', os) := node_run ops d in (d, log ++ log', o :: os)
  end.

(** No batch of the node's own program failed. *)
Definition succeeded (o : NodeOutcome) : Prop := ∀ e, o ≠ Called (Err e).

(** The same on the book. *)
Inductive book_run (b : MaskBook) : list NodeOp → list Release → list NodeOutcome → MaskBook → Prop :=
  | book_run_nil : book_run b [] [] [] b
  | book_run_snoc ops log os b1 op log' o b2 :
      book_run b ops log os b1 → book_op b1 op log' o b2 →
      book_run b (ops ++ [op]) (log ++ log') (os ++ [o]) b2.

Definition empty_book : MaskBook := mkMaskBook ∅ ∅ ∅.
