(* ===== verification/NodeBookFacts.v ===== *)
(** The node keeps its book: every call on an execution's state, on every branch,
    is an operation of the book of [NodeBook]. *)
From S2P Require Import Prelude Shared Execution Samples Server NodeRpc NodeBook.

(** ** What a range request yields, as statements about the book *)

Lemma granted_owned d id start count shares :
  node_wf d →
  granted (book d) id start count shares ↔
  (start + count < u64_modulus)%N ∧ owned_shares d id start (N.to_nat count) shares.
Proof.
  intros Hwf. unfold granted, owned_shares. simpl. split.
  - intros (Hw & Hl & Hj). split_and!; [done..|]. intros j Hlt.
    destruct (Hj j Hlt) as (sh & H1 & H2 & H3). exists sh. split_and!; [done| |done..]. apply Hwf. eauto.
  - intros (Hw & Hl & Hj). split_and!; [done..|]. intros j Hlt.
    destruct (Hj j Hlt) as (sh & H1 & _ & H2 & H3). eauto.
Qed.

Lemma request_granted d id start count shares :
  node_wf d →
  assigned_mask_shares_for_client d id start count = Ok (Some shares) ↔
  granted (book d) id start count shares.
Proof. intros Hwf. rewrite granted_owned by done. apply range_request_Some. Qed.

Lemma collect_mask_shares_fails d id i k r :
  node_wf d → collect_mask_shares d id i k = r →
  match r with
  | Ok _ => True
  | Err e => e = AuthenticationFailed id ∧ ∃ j other, (i <= j < i + N.of_nat k)%N ∧
      index_to_client d !! j = Some other ∧ other ≠ id
  | Panic => False
  end.
Proof.
  intros Hwf <-. revert i. induction k as [|k IH]; intros i; simpl; [done|].
  destruct (index_to_client d !! i) as [client|] eqn:Hi; [|done].
  case_bool_decide as Hc; simpl.
  2: { split; [done|]. exists i, client. split_and!; [lia..|done|done]. }
  destruct (mask_shares d !! i) as [share|]; [|done].
  destruct (Hwf i) as [rv Hrv]; [eauto|]. unfold assigned_mask_share. rewrite Hrv. simpl.
  specialize (IH (i + 1)%N). destruct (collect_mask_shares d id (i + 1) k); simpl; [done| |done].
  destruct IH as (-> & j & other & Hj & Ho). split; [done|]. exists j, other. split; [lia|done].
Qed.

(** A request fails only for a range that overflows or trespasses. *)
Lemma request_fails d id start count r :
  node_wf d → assigned_mask_shares_for_client d id start count = r →
  match r with
  | Ok _ => (start + count < u64_modulus)%N
  | Err e => (u64_modulus <= start + count)%N ∨
      (e = AuthenticationFailed id ∧ trespasses (book d) id start count)
  | Panic => False
  end.
Proof.
  intros Hwf <-. unfold assigned_mask_shares_for_client, u64_checked_add.
  destruct (start + count <? u64_modulus)%N eqn:Hw; reflect_bool; simpl; [|by left].
  pose proof (collect_mask_shares_fails d id start (N.to_nat count) _ Hwf (reflexivity _)) as Hc.
  destruct (collect_mask_shares d id start (N.to_nat count)); simpl in *; [done| |done].
  right. destruct Hc as (-> & j & other & Hj & Ho). split; [done|]. exists j, other.
  split_and!; [lia..|apply Ho|apply Ho].
Qed.

(** The state's invariant: reservations on record, and waiting ranges that fit. *)
Definition node_ok (d : NodeExec) : Prop := node_wf d ∧ ranges_fit (book d).

Lemma new_node_ok : node_ok new_node_execution.
Proof. split; [intros i [? Hi]|intros id rq Hi]; discriminate Hi. Qed.

Lemma quiescent_nobody d : node_wf d → quiescent (book d) ↔ nobody_kept_waiting d.
Proof.
  intros Hwf. unfold quiescent, nobody_kept_waiting. simpl.
  split; intros Hq id rq shares Hrq Hg; eapply Hq; try done; by apply request_granted in Hg || apply request_granted.
Qed.

(** What is granted does not depend on who waits. *)
Lemma granted_waiting b f id start count shares :
  granted (b <| waiting ::= f |>) id start count shares ↔ granted b id start count shares.
Proof. done. Qed.

(** ** Serving the touched clients *)

(** An answer in front of the others; it is gone with them when the batch is
    abandoned. *)
Lemma settles_after b id rq shares log r b' :
  waiting b !! id = Some rq → granted b id (req_start rq) (req_count rq) shares →
  settles (b <| waiting ::= delete id |>) log r b' →
  settles b (if is_ok r then mkRelease id (req_sink rq) shares :: log else []) r b'.
Proof.
  intros Hrq Hg Hs. destruct Hs as [log b' Hrel|id' rq' w Hw Ht Hsub Hnone]; simpl in *.
  - constructor. by eapply rel_next.
  - apply lookup_delete_Some in Hw as [_ Hw].
    apply (abandoned b id' rq' w); [done..| |done]. etrans; [exact Hsub|apply delete_subseteq].
Qed.

Lemma serve_touched_settles touched d :
  node_ok d →
  let '(d', log, r) := serve_touched touched d [] in
  ∃ rels, log = release_send <$> rels ∧ settles (book d) rels r (book d') ∧ node_ok d' ∧
    same_but_sinks d d' ∧ assigned_sinks d' ⊆ assigned_sinks d.
Proof.
  revert d. induction touched as [|id ids IH]; intros d Hok; simpl.
  { exists []. split_and!; [done|do 2 constructor|done|by destruct d|done]. }
  destruct (assigned_sinks d !! id) as [rq|] eqn:Hrq; [|by apply IH].
  rewrite range_request_sinks. destruct Hok as [Hwf Hfit].
  pose proof (request_fails d id (req_start rq) (req_count rq) _ Hwf (reflexivity _)) as Hf.
  assert (node_ok (d <| assigned_sinks ::= delete id |>)) as Hok1.
  { split; [done|]. intros i q Hq. simpl in Hq. apply lookup_delete_Some in Hq as [_ Hq]. by eapply Hfit. }
  assert (∀ d', same_but_sinks (d <| assigned_sinks ::= delete id |>) d' → same_but_sinks d d') as Hsame.
  { intros d' Hd'. etrans; [|exact Hd']. by destruct d. }
  destruct (assigned_mask_shares_for_client d id _ _) as [[shares|]|e|] eqn:Hreq; [| | |done].
  - rewrite serve_touched_pending. specialize (IH _ Hok1).
    destruct (serve_touched ids _ []) as [[d2 log2] r2]. destruct IH as (rels & -> & Hs & Hok2 & Hd2 & Hsub).
    apply request_granted in Hreq; [|done].
    assert (assigned_sinks d2 ⊆ assigned_sinks d) as Hsub2 by (etrans; [exact Hsub|apply delete_subseteq]).
    apply (settles_after (book d) id rq shares) in Hs; [|done..]. eexists. split_and!;
      [|exact Hs|done|by apply Hsame|done]. by destruct r2.
  - match goal with |- context [serve_touched ids ?x []] => replace x with d end; [by apply IH|].
    destruct d. unfold upd. simpl in *. unfold upd. simpl. by rewrite insert_delete_id.
  - destruct Hf as [Hover|[-> Ht]]; [exfalso; specialize (Hfit id rq Hrq); lia|].
    exists []. split_and!; [done| |done|by apply Hsame|apply delete_subseteq].
    eapply (abandoned (book d) id rq (delete id (assigned_sinks d))); [done..|apply delete_subseteq|].
    apply lookup_delete_eq.
Qed.

(** ** Recording a batch *)

Lemma record_reservations_book rs d touched d' touched' :
  record_reservations rs d touched = (d', touched') →
  book d' = (book d) <| owners ::= assign rs |>.
Proof.
  revert d touched. induction rs as [|r rs IH]; intros d touched; simpl; [by intros [= <- _]|].
  intros ->%IH. done.
Qed.

Lemma record_shares_book shares d touched :
  let '(d', r) := record_shares id shares d touched in
  book d' = (book d) <| deposits ::= deposit shares |> ∧
  index_to_client d' = index_to_client d ∧ assigned_reservations d' = assigned_reservations d ∧
  match r with
  | Ok _ => ∀ x, x ∈ shares → is_Some x.2
  | Err e => e = NodeSerializationError ∧ ∃ i, (i, None) ∈ shares
  | Panic => False
  end.
Proof.
  revert d touched. induction shares as [|[i [share|]] shares IH]; intros d touched; simpl.
  { split_and!; [done..|]. intros x Hx. by apply not_elem_of_nil in Hx. }
  2: { split_and!; [done..|]. exists i. left. }
  specialize (IH (d <| mask_shares ::= <[i := share]> |>)
    match index_to_client d !! i with Some c => touch c touched | None => touched end).
  destruct (record_shares id shares _ _) as [d' r]. destruct IH as (Hb & Hi & Hr & Ho).
  split_and!; [by rewrite Hb|done..|]. destruct r as [t|e|]; [| |done].
  - intros x [->|Hx]%elem_of_cons; [eauto|by apply Ho].
  - destruct Ho as (-> & j & Hj). split; [done|]. exists j. by right.
Qed.

(** What the code does with shares of any type is what it does with the outcome of
    serialising them. *)
Lemma add_mask_shares_serialized {S} (serialize : S → option bytes) shares d :
  add_mask_shares serialize shares d =
  add_mask_shares id ((fun x => (x.1, serialize x.2)) <$> shares) d.
Proof.
  assert (∀ d touched, record_shares serialize shares d touched =
    record_shares id ((fun x => (x.1, serialize x.2)) <$> shares) d touched) as Hrec.
  { induction shares as [|[i s] shares IH]; intros d' touched; [done|]. simpl.
    destruct (serialize s); simpl; [apply IH|done]. }
  assert (for_each (fun p : u64 * option bytes => ensure (negb (is_some (mask_shares d !! p.1)))
      IndexAlreadyAdded) ((fun x => (x.1, serialize x.2)) <$> shares) =
    for_each (fun p => ensure (negb (is_some (mask_shares d !! p.1))) IndexAlreadyAdded) shares) as Heach.
  { clear. induction shares as [|[i s] shares IH]; [done|]. rewrite fmap_cons. simpl. by rewrite IH. }
  unfold add_mask_shares. by rewrite Hrec, Heach.
Qed.

Lemma for_each_ensure {E A} (f : A → bool) (e : E) xs :
  (for_each (fun x => ensure (f x) e) xs = Ok tt ∧ ∀ x, x ∈ xs → f x = true) ∨
  (for_each (fun x => ensure (f x) e) xs = Err e ∧ ∃ x, x ∈ xs ∧ f x = false).
Proof.
  induction xs as [|x xs IH]; simpl.
  { left. split; [done|]. intros x Hx. by apply not_elem_of_nil in Hx. }
  destruct (f x) eqn:Hx; simpl; [|right; split; [done|]; exists x; split; [left|done]].
  destruct IH as [[Hf Hall]|(Hf & y & Hy & Hfy)]; [left|right]; (split; [done|]).
  - intros y [->|Hy]%elem_of_cons; auto.
  - exists y. split; [by right|done].
Qed.

(** ** The refinement *)

Lemma subscribe_book accept self start count d :
  node_ok d →
  let '(d', log, o) := receive_on accept self start count d in
  ∃ rels, log = release_send <$> rels ∧ node_ok d' ∧
    book_op (book d) (OpSubscribe accept self start count) rels (Subscription o) (book d').
Proof.
  intros [Hwf Hfit]. unfold receive_on. rewrite range_request_sinks.
  pose proof (request_fails d self start count _ Hwf (reflexivity _)) as Hf.
  assert (node_ok (d <| assigned_sinks ::= delete self |>)) as Hok.
  { split; [done|]. intros i q Hq. simpl in Hq. apply lookup_delete_Some in Hq as [_ Hq]. by eapply Hfit. }
  destruct (assigned_mask_shares_for_client d self start count) as [[shares|]|e|] eqn:Hreq; [| | |done].
  - apply request_granted in Hreq; [|done]. destruct accept as [sink|].
    + exists [mkRelease self sink shares]. split_and!; [done|done|]. by apply bo_answered.
    + exists []. split_and!; [done|done|]. apply bo_not_accepted.
  - destruct accept as [sink|]; exists []; (split_and!; [done| |]); [|..|done|].
    + split; [done|]. intros i q Hq. simpl in Hq. apply lookup_insert_Some in Hq as [[_ <-]|[_ Hq]]; [done|].
      apply lookup_delete_Some in Hq as [_ Hq]. by eapply Hfit.
    + pose proof (bo_waits (book d) sink self start count Hf) as Hop.
      unfold book, upd in *. simpl in *. unfold upd. simpl. rewrite insert_delete_eq.
      apply Hop. intros shares Hg. apply (request_granted d) in Hg; [|done]. congruence.
    + apply bo_not_accepted.
  - exists []. split_and!; [done|done|]. apply bo_rejected. naive_solver.
Qed.

Lemma reserve_book rs d :
  node_ok d →
  let '(d', log, r) := add_assigned_reserved_indices rs d in
  ∃ rels, log = release_send <$> rels ∧ node_ok d' ∧
    book_op (book d) (OpReserve rs) rels (Called r) (book d').
Proof.
  intros Hok. unfold add_assigned_reserved_indices.
  destruct (for_each_ensure (fun r => negb (is_some (index_to_client d !! amr_reserved_index r)))
    IndexAlreadyAdded rs) as [[-> Hfree]|(-> & x & Hx & Hf)].
  2: { exists []. split_and!; [done|done|]. apply (bo_reserve_refused _ rs x Hx). simpl.
       by destruct (index_to_client d !! _). }
  destruct (record_reservations rs d []) as [d1 touched] eqn:Hrec.
  pose proof (record_reservations_spec _ _ _ _ _ Hrec) as (_ & Hs & _ & Hwf & _).
  apply record_reservations_book in Hrec as Hb.
  assert (node_ok d1) as Hok1.
  { destruct Hok as [Hwf0 Hfit]. split; [by apply Hwf|]. intros i q Hq. apply (Hfit i). simpl in *. by rewrite <-Hs. }
  pose proof (serve_touched_settles touched d1 Hok1) as Hsv.
  destruct (serve_touched touched d1 []) as [[d2 log] r].
  destruct Hsv as (rels & -> & Hset & Hok2 & _). exists rels. split_and!; [done..|].
  rewrite Hb in Hset. apply bo_reserved; [|done]. intros x Hx. specialize (Hfree x Hx). simpl.
  by destruct (index_to_client d !! _).
Qed.

Lemma deposit_book shares d :
  node_ok d →
  let '(d', log, r) := add_mask_shares id shares d in
  ∃ rels, log = release_send <$> rels ∧ node_ok d' ∧
    book_op (book d) (OpDeposit shares) rels (Called r) (book d').
Proof.
  intros Hok. unfold add_mask_shares.
  destruct (for_each_ensure (fun x : u64 * option bytes => negb (is_some (mask_shares d !! x.1)))
    IndexAlreadyAdded shares) as [[-> Hfree]|(-> & x & Hx & Hf)].
  2: { exists []. split_and!; [done|done|]. apply (bo_deposit_refused _ shares x Hx). simpl.
       by destruct (mask_shares d !! _). }
  assert (∀ x, x ∈ shares → deposits (book d) !! x.1 = None) as Hnew.
  { intros x Hx. specialize (Hfree x Hx). simpl. by destruct (mask_shares d !! _). }
  pose proof (record_shares_book shares d []) as Hrec.
  destruct (record_shares id shares d []) as [d1 o]. destruct Hrec as (Hb & Hi & Hr & Ho).
  assert (node_ok d1) as Hok1.
  { destruct Hok as [Hwf Hfit]. split; [intros i; rewrite Hi, Hr; apply Hwf|].
    intros i q Hq. apply (Hfit i). change (waiting ((book d) <| deposits ::= deposit shares |>) !! i = Some q).
    by rewrite <-Hb. }
  destruct o as [touched|e|]; [| |done].
  - pose proof (serve_touched_settles touched d1 Hok1) as Hsv.
    destruct (serve_touched touched d1 []) as [[d2 log] r].
    destruct Hsv as (rels & -> & Hset & Hok2 & _). exists rels. split_and!; [done..|].
    rewrite Hb in Hset. apply bo_deposited; [|done]. auto.
  - destruct Ho as (-> & i & Hin). exists []. split_and!; [done..|]. rewrite Hb.
    by apply (bo_deposit_cut _ shares i).
Qed.

(** A batch that succeeds leaves nobody waiting who need not. *)
Lemma apply_quiescent op d d' log o :
  node_ok d → quiescent (book d) → node_apply op d = (d', log, o) →
  (∀ e, o ≠ Called (Err e)) → quiescent (book d').
Proof.
  intros [Hwf Hfit] Hq Ha Ho. apply quiescent_nobody in Hq; [|done].
  destruct (node_keeps_nobody_waiting id d Hwf Hq) as (Hsub & Hres & Hdep).
  assert (∀ e, Called (Err e) ≠ o) as Hno by (intros e He; by eapply Ho).
  destruct op as [accept self start count|rs|shares]; simpl in Ha.
  - destruct (receive_on accept self start count d) as [[d1 log1] o1] eqn:Hr. simplify_eq.
    destruct (Hsub _ _ _ _ _ _ _ Hr). by apply quiescent_nobody.
  - pose proof (reserve_book rs d (conj Hwf Hfit)) as Hb.
    destruct (add_assigned_reserved_indices rs d) as [[d1 log1] r1] eqn:Hr. simplify_eq.
    destruct r1 as [[]|e|]; [|by destruct (Hno e)|].
    + destruct (Hres _ _ _ Hr) as (? & ? & _). by apply quiescent_nobody.
    + destruct Hb as (rels & _ & _ & Hop). inversion Hop as [| | | |? ? ? ? ? Hs| | | |]; subst. inversion Hs.
  - pose proof (deposit_book shares d (conj Hwf Hfit)) as Hb.
    destruct (add_mask_shares id shares d) as [[d1 log1] r1] eqn:Hr. simplify_eq.
    destruct r1 as [[]|e|]; [|by destruct (Hno e)|].
    + destruct (Hdep _ _ _ Hr) as (? & ? & _). by apply quiescent_nobody.
    + destruct Hb as (rels & _ & _ & Hop). inversion Hop as [| | | | | |? ? ? ? ? Hs| |]; subst. inversion Hs.
Qed.

(** A node's state object implements the book.  Every call, on every branch, is an
    operation of the book with the same outcome and the same answers, and a call
    that does not fail leaves nobody waiting for shares that are there if nobody
    was before it. *)
Lemma node_apply_book op d d' log o
    (Hok : node_ok d) (Hcall : node_apply op d = (d', log, o)) :
  node_ok d' ∧
  (∃ rels, log = release_send <$> rels ∧ book_op (book d) op rels o (book d')) ∧
  (quiescent (book d) → (∀ e, o ≠ Called (Err e)) → quiescent (book d')).
Proof.
  assert (node_ok d' ∧ ∃ rels, log = release_send <$> rels ∧ book_op (book d) op rels o (book d')) as [? ?].
  { destruct op as [accept self start count|rs|shares]; simpl in Hcall.
    - pose proof (subscribe_book accept self start count d Hok) as Hb.
      destruct (receive_on accept self start count d) as [[??]?]. simplify_eq. naive_solver.
    - pose proof (reserve_book rs d Hok) as Hb.
      destruct (add_assigned_reserved_indices rs d) as [[??]?]. simplify_eq. naive_solver.
    - pose proof (deposit_book shares d Hok) as Hb.
      destruct (add_mask_shares id shares d) as [[??]?]. simplify_eq. naive_solver. }
  split; [done|]. split; [done|]. intros Hq Ho. exact (apply_quiescent op d d' log o Hok Hq Hcall Ho).
Qed.

(** ** Sequences of calls *)

Lemma node_run_app ops1 ops2 d :
  node_run (ops1 ++ ops2) d =
    let '(d1, log1, os1) := node_run ops1 d in
    let '(d2, log2, os2) := node_run ops2 d1 in (d2, log1 ++ log2, os1 ++ os2).
Proof.
  revert d. induction ops1 as [|op ops IH]; intros d; simpl.
  { by destruct (node_run ops2 d) as [[??]?]. }
  destruct (node_apply op d) as [[d1 log1] o1]. rewrite IH.
  destruct (node_run ops d1) as [[d2 log2] os2]. destruct (node_run ops2 d2) as [[d3 log3] os3].
  by rewrite app_assoc.
Qed.

Lemma node_run_ok ops d d' log os : node_ok d → node_run ops d = (d', log, os) → node_ok d'.
Proof.
  revert d log os. induction ops as [|op ops IH]; intros d log os Hok; simpl; [by intros [= <- _ _]|].
  destruct (node_apply op d) as [[d1 log1] o1] eqn:Ha.
  destruct (node_run ops d1) as [[d2 log2] os2] eqn:Hr. intros [= <- _ _].
  eapply IH, Hr. by apply (node_apply_book op d d1 log1 o1).
Qed.

(** Runs without a failed batch leave nobody waiting for shares that are there. *)
Lemma node_run_quiescent ops d d' log os :
  node_ok d → quiescent (book d) → node_run ops d = (d', log, os) → (∀ o, o ∈ os → succeeded o) →
  quiescent (book d').
Proof.
  revert d log os. induction ops as [|op ops IH]; intros d log os Hok Hq; simpl; [by intros [= <- _ _]|].
  destruct (node_apply op d) as [[d1 log1] o1] eqn:Ha.
  destruct (node_run ops d1) as [[d2 log2] os2] eqn:Hr. intros [= <- _ <-] Hos.
  destruct (node_apply_book op d d1 log1 o1 Hok Ha) as (Hok1 & _ & Hq1).
  eapply IH; [done| |done|]; [apply Hq1; [done|apply Hos; left]|]. intros o Ho. apply Hos. by right.
Qed.

Lemma node_run_book ops d log os :
  node_run ops new_node_execution = (d, log, os) →
  ∃ rels, log = release_send <$> rels ∧ book_run empty_book ops rels os (book d).
Proof.
  revert d log os. induction ops as [|op ops IH] using rev_ind; intros d log os.
  { intros [= <- <- <-]. exists []. split; [done|constructor]. }
  rewrite node_run_app. destruct (node_run ops new_node_execution) as [[d1 log1] os1] eqn:H1.
  destruct (IH _ _ _ (reflexivity _)) as (rels & -> & Hb). simpl.
  destruct (node_apply op d1) as [[d2 log2] o] eqn:Ha. intros [= <- <- <-].
  destruct (node_apply_book op d1 d2 log2 o) as (_ & (rels2 & -> & Hop) & _);
    [by eapply node_run_ok, H1; apply new_node_ok|done|].
  exists (rels ++ rels2). split; [by rewrite app_nil_r, fmap_app|by econstructor].
Qed.
