(* ===== verification/Client.v ===== *)
(** What clients and nodes do with the messages they receive: collecting mask
    shares, waiting for indices and inputs, and sealing, opening and
    reconstructing outputs (src/crates/off-chain/src/lib.rs,
    [NodeRPCClient] and [OffChainCoordinatorClient]).

    Share types, their codec and reconstruction, and the hybrid encryption belong
    to other crates: they are arguments of the definitions. *)
From S2P Require Import Prelude Shared Execution Samples Server NodeRpc.

(** A subscription's stream is the list of its notifications, each a value or
    [None] for one that could not be read; it ends where the list ends. *)

(** [map.entry(k).or_default().extend(vs)] *)
Definition extend_entry {K V} `{Countable K} (k : K) (vs : list V) (m : gmap K (list V))
    : gmap K (list V) :=
  <[k := default [] (m !! k) ++ vs]> m.

(** A stable sort by the first component, [sort_by_key(|(i, _)| *i)]. *)
Fixpoint insert_by_key {V} (x : u64 * V) (l : list (u64 * V)) : list (u64 * V) :=
  match l with
  | [] => [x]
  | y :: l => if (x.1 <=? y.1)%N then x :: y :: l else y :: insert_by_key x l
  end.
Definition sort_by_key {V} (l : list (u64 * V)) : list (u64 * V) := foldr insert_by_key [] l.

(** ** Waiting for indices and inputs *)

Definition subscription_ended : CoordinatorError :=
  JSONError "Subscription ended before event could be received".

Fixpoint wait_for_indices_loop (n_inputs received : u64) (map : gmap ClientIdentity (list u64))
    (stream : list (option Event))
    : result CoordinatorError (gmap ClientIdentity (list u64)) :=
  if (received <? n_inputs)%N then
    match stream with
    | Some (ReservedInputEvent client reserved_indices) :: stream =>
        wait_for_indices_loop n_inputs (u64_add received (vlen reserved_indices))
          (extend_entry client reserved_indices map) stream
    | _ => Err subscription_ended
    end
  else Ok map.

(** [wait_for_indices]; a refused subscription panics ([unwrap]). *)
Definition wait_for_indices (sub : option (list (option Event))) (n_inputs : u64)
    : result CoordinatorError (gmap ClientIdentity (list u64)) :=
  match sub with
  | None => Panic
  | Some stream => wait_for_indices_loop n_inputs 0 ∅ stream
  end.

Section client.
Context {S V : Type}.
Context (deserialize_value : bytes → option V) (deserialize_share : bytes → option S).
Context (compute_masked_input : V → S → option S).
Context (recover_secret : list S → usize → usize → option V).
Context (backend : MpcBackend).

(** One pair of a submission event. *)
Definition unmask_input (mask_shares : list S) (pair : u64 * bytes)
    : result CoordinatorError (u64 * S) :=
  mask_share ← index mask_shares (as_usize pair.1);
  masked_input ← ok_or (deserialize_value pair.2) DeserializationError;
  input ← ok_or (compute_masked_input masked_input mask_share) ShareErr;
  Ok (pair.1, input).

Fixpoint wait_for_inputs_loop (n_inputs : u64) (mask_shares : list S) (received : u64)
    (map : gmap ClientIdentity (list (u64 * S))) (stream : list (option Event))
    : result CoordinatorError (gmap ClientIdentity (list (u64 * S))) :=
  if (received <? n_inputs)%N then
    match stream with
    | Some (MaskedInputEvent client masked_inputs) :: stream =>
        inputs ← try_map (unmask_input mask_shares) masked_inputs;
        wait_for_inputs_loop n_inputs mask_shares (u64_add received (vlen masked_inputs))
          (if bool_decide (masked_inputs = []) then map else extend_entry client inputs map) stream
    | _ => Err subscription_ended
    end
  else Ok map.

Definition wait_for_inputs (sub : option (list (option Event))) (n_inputs : u64)
    (mask_shares : list S) : result CoordinatorError (gmap ClientIdentity (list S)) :=
  match sub with
  | None => Err (JSONError "{e}")
  | Some stream =>
      indexed ← wait_for_inputs_loop n_inputs mask_shares 0 ∅ stream;
      Ok ((fun indexed_inputs => (sort_by_key indexed_inputs).*2) <$>
            (indexed : gmap ClientIdentity (list (u64 * S))))
  end.

(** [wait_for_round] *)
Definition wait_for_round (sub : option (list (option Event))) : result CoordinatorError unit :=
  match sub with
  | None => Err (JSONError "{e}")
  | Some (Some _ :: _) => Ok tt
  | Some _ => Err subscription_ended
  end.

(** ** Collecting mask shares from the nodes *)

(** What joining one node's subscription task yields. *)
Inductive NodeReply : Type :=
  | TaskFailed
  | StreamClosed
  | Unreadable
  | AssignedShares (l : list AssignedMaskShare).

Definition wrong_range : CoordinatorError :=
  JSONError "MPC node returned the wrong assigned mask share range".

(** The shares of one reply, added to their indices. *)
Fixpoint add_reply (l : list AssignedMaskShare) (share_sets : gmap u64 (list S))
    : result CoordinatorError (gmap u64 (list S)) :=
  match l with
  | [] => Ok share_sets
  | x :: l =>
      share ← ok_or (deserialize_share (ams_share_bytes x)) DeserializationError;
      add_reply l (extend_entry (ams_reserved_index x) [share] share_sets)
  end.

(** [expected_indices != sorted indices] *)
Definition covers_range (expected : list u64) (l : list AssignedMaskShare) : bool :=
  bool_decide ((sort_by_key ((fun x => (ams_reserved_index x, tt)) <$> l)).*1 = expected).

Definition enough_shares (k : usize) (share_sets : gmap u64 (list S)) (i : u64) : bool :=
  match share_sets !! i with Some shares => (k <=? vlen shares)%N | None => false end.

(** The loop over the replies, in the order in which they arrive. *)
Fixpoint collect_replies (k : usize) (expected : list u64) (replies : list NodeReply)
    (share_sets : gmap u64 (list S)) : result CoordinatorError (gmap u64 (list S)) :=
  match replies with
  | [] => Ok share_sets
  | TaskFailed :: _ | Unreadable :: _ => Err (SubscriptionError "{e}")
  | StreamClosed :: replies => collect_replies k expected replies share_sets
  | AssignedShares l :: replies =>
      if negb (covers_range expected l) then Err wrong_range
      else
        share_sets ← add_reply l share_sets;
        if forallb (enough_shares k share_sets) expected then Ok share_sets
        else collect_replies k expected replies share_sets
  end.

(** The reconstruction of one mask. *)
Definition recover_mask (k n t : usize) (share_sets : gmap u64 (list S)) (i : u64)
    : result CoordinatorError V :=
  match share_sets !! i with
  | None => Err (MaskReconstructionFailed 0)
  | Some shares =>
      if (vlen shares <? k)%N then Err (MaskReconstructionFailed (vlen shares))
      else ok_or (recover_secret shares n t) (MaskReconstructionFailed (vlen shares))
  end.

(** [receive_assigned_masks]; [subscribed] tells for each node whether the
    subscription call succeeded. *)
Definition receive_assigned_masks (n t : usize) (start count : u64) (subscribed : list bool)
    (replies : list NodeReply) : result CoordinatorError (list V) :=
  end_ ← ok_or (u64_checked_add start count) (JSONError "Assigned mask range overflows u64");
  if (count =? 0)%N then Ok []
  else
    _ ← ensure (forallb id subscribed) (SubscriptionError "{e}");
    let expected_indices := range_iter start end_ in
    let k := min_shares backend t in
    share_sets ← collect_replies k expected_indices replies ∅;
    try_map (recover_mask k n t share_sets) expected_indices.

End client.

(** ** Outputs *)

Definition ENC_INFO : bytes := String.list_byte_of_string "StoffelOutputShareEncryption".
Definition execution_enc_info (eid : ExecutionId) : bytes := ENC_INFO ++ vec_to_list (as_bytes eid).

Section outputs.
Context {S V SK PK EK : Type}.
Context (deserialize_shares : bytes → option (list S)) (serialize_shares : list S → option bytes).
Context (recover_secret : list S → usize → usize → option V).
Context (backend : MpcBackend).
Context (from_pkcs8_der : bytes → option bytes) (private_key : bytes → option SK).
Context (public_key : bytes → option PK).
Context (encapped_key : bytes → option EK) (encapped_bytes : EK → bytes).
Context (single_shot_open : SK → EK → bytes → bytes → option bytes).
Context (single_shot_seal : PK → bytes → bytes → vec byte 32 → option (EK * bytes)).

(** One encrypted share vector. *)
Definition open_shares (sk : SK) (enc_info : bytes) (enc : bytes * bytes)
    : result CoordinatorError (list S) :=
  key ← ok_or (encapped_key enc.1) ParsingEncapsulatedKeyFailed;
  plain ← ok_or (single_shot_open sk key enc_info enc.2) DecryptionError;
  ok_or (deserialize_shares plain) DeserializationError.

(** All share vectors of a snapshot; those of the wrong length are skipped. *)
Fixpoint open_snapshot (sk : SK) (enc_info : bytes) (n_outputs : u64) (enc : list (bytes * bytes))
    : result CoordinatorError (list (list S)) :=
  match enc with
  | [] => Ok []
  | x :: enc =>
      shares ← open_shares sk enc_info x;
      rest ← open_snapshot sk enc_info n_outputs enc;
      Ok (if (vlen shares =? n_outputs)%N then shares :: rest else rest)
  end.

(** The [i]-th output, if its shares reconstruct; [shares[i]] is in range because
    only vectors of length [n_outputs] are kept. *)
Definition recover_output (n t : usize) (output_shares : list (list S)) (i : nat) : option V :=
  recover_secret (omap (fun shares => shares !! i) output_shares) n t.

Definition outputs_of_snapshot (n t : usize) (n_outputs : u64) (output_shares : list (list S))
    : list V :=
  omap (recover_output n t output_shares) (seq 0 (N.to_nat (as_usize n_outputs))).

Fixpoint obtain_outputs_loop (sk : SK) (enc_info : bytes) (n_parties t n_outputs : u64)
    (stream : list (option (list (bytes * bytes)))) : result CoordinatorError (list V) :=
  match stream with
  | Some enc_output_shares :: stream =>
      if (vlen enc_output_shares <? min_shares backend (as_usize t))%N
      then Err (SubscriptionError "Received {} output shares, but at least {} are required")
      else
        output_shares ← open_snapshot sk enc_info n_outputs enc_output_shares;
        let outputs := outputs_of_snapshot (as_usize n_parties) (as_usize t) n_outputs output_shares in
        if (vlen outputs =? as_usize n_outputs)%N then Ok outputs
        else obtain_outputs_loop sk enc_info n_parties t n_outputs stream
  | _ => Err (JSONError "Output shares subscription ended before enough output shares could be obtained")
  end.

(** [obtain_outputs] *)
Definition obtain_outputs (key_der : bytes) (eid : ExecutionId) (n_parties t n_outputs : u64)
    (sub : option (list (option (list (bytes * bytes))))) : result CoordinatorError (list V) :=
  match sub with
  | None => Err (JSONError "{e}")
  | Some stream =>
      raw_sk ← ok_or (from_pkcs8_der key_der) ParsingDERAsPKCS8Failed;
      client_sk ← ok_or (private_key raw_sk) ParsingPrivateKeyFailed;
      obtain_outputs_loop client_sk (execution_enc_info eid) n_parties t n_outputs stream
  end.

(** [send_output_shares] of a party: the bytes it hands to the coordinator.
    [resolved] is the answer of [resolve_output_encryption_key]: [None] when the
    call failed. *)
Definition seal_output_shares (resolved : option (option bytes)) (eid : ExecutionId) (key : bytes)
    (rng : vec byte 32) (output_shares : list S) : result CoordinatorError (bytes * bytes) :=
  let encryption_key := match resolved with Some (Some session_key) => session_key | _ => key end in
  client_pk ← ok_or (public_key encryption_key) ParsingPublicKeyFailed;
  output_shares_bytes ← ok_or (serialize_shares output_shares) SerializationError;
  sealed ← ok_or (single_shot_seal client_pk (execution_enc_info eid) output_shares_bytes rng)
             EncryptionError;
  Ok (encapped_bytes sealed.1, sealed.2).
End outputs.
