(* ===== verification/ClientFacts.v ===== *)
(** What clients and nodes compute from the messages they receive. *)
From S2P Require Import Prelude Shared Execution Samples Server NodeRpc Client.

(** ** Sorting by index *)

Definition key_le {V} (x y : u64 * V) : Prop := (x.1 <= y.1)%N.

#[export] Instance key_le_trans {V} : Transitive (@key_le V).
Proof. intros x y z. unfold key_le. lia. Qed.

Lemma insert_by_key_perm {V} (x : u64 * V) l : insert_by_key x l ≡ₚ x :: l.
Proof.
  induction l as [|y l IH]; [done|]. simpl. destruct (x.1 <=? y.1)%N; [done|].
  rewrite IH. apply Permutation_swap.
Qed.

Lemma sort_by_key_perm {V} (l : list (u64 * V)) : sort_by_key l ≡ₚ l.
Proof. induction l as [|x l IH]; [done|]. simpl. by rewrite insert_by_key_perm, IH. Qed.

Lemma insert_by_key_sorted {V} (x : u64 * V) l :
  StronglySorted key_le l → StronglySorted key_le (insert_by_key x l).
Proof.
  induction 1 as [|y l Hl IH Hall]; simpl; [repeat constructor|].
  destruct (x.1 <=? y.1)%N eqn:Hxy; reflect_bool.
  - constructor; [by constructor|]. constructor; [done|].
    eapply Forall_impl; [exact Hall|]. intros z. unfold key_le. lia.
  - constructor; [done|]. rewrite insert_by_key_perm. constructor; [|done].
    unfold key_le. lia.
Qed.

Lemma sort_by_key_sorted {V} (l : list (u64 * V)) : StronglySorted key_le (sort_by_key l).
Proof. induction l; simpl; [constructor|]. by apply insert_by_key_sorted. Qed.

(** Sorting distinct keys that form a range yields the range. *)
Lemma sorted_keys_unique (l k : list u64) :
  l ≡ₚ k → StronglySorted N.le l → StronglySorted N.le k → l = k.
Proof. intros Hp Hl Hk. apply (StronglySorted_unique N.le); done. Qed.

Lemma range_iter_cons a b : (a < b)%N → range_iter a b = a :: range_iter (a + 1) b.
Proof.
  intros Hab. unfold range_iter. replace (N.to_nat (b - a)) with (S (N.to_nat (b - (a + 1)))) by lia.
  simpl. rewrite N.add_0_r. f_equal. rewrite <-fmap_S_seq, <-list_fmap_compose.
  apply list_fmap_ext. intros k x _. simpl. lia.
Qed.

Lemma range_iter_nil a b : (b <= a)%N → range_iter a b = [].
Proof. intros Hab. unfold range_iter. by replace (N.to_nat (b - a)) with 0 by lia. Qed.

Lemma range_iter_sorted a b : StronglySorted N.le (range_iter a b).
Proof.
  remember (N.to_nat (b - a)) as k eqn:Hk. revert a Hk. induction k as [|k IH]; intros a Hk.
  { rewrite range_iter_nil by lia. constructor. }
  rewrite range_iter_cons by lia. constructor; [apply IH; lia|].
  apply Forall_forall. intros x Hx%elem_of_range_iter. lia.
Qed.

Lemma NoDup_range_iter a b : NoDup (range_iter a b).
Proof. unfold range_iter. apply NoDup_fmap_2; [intros ???; lia|apply NoDup_seq]. Qed.

Lemma covers_range_perm l a b :
  covers_range (range_iter a b) l = true ↔ ams_reserved_index <$> l ≡ₚ range_iter a b.
Proof.
  unfold covers_range. rewrite bool_decide_eq_true.
  assert ((sort_by_key ((λ x, (ams_reserved_index x, ())) <$> l)).*1 ≡ₚ ams_reserved_index <$> l) as Hp.
  { rewrite sort_by_key_perm. by rewrite <-list_fmap_compose. }
  split; [intros <-; by rewrite Hp|]. intros Hr. apply sorted_keys_unique.
  - by rewrite Hp.
  - apply StronglySorted_fmap with key_le; [done|apply sort_by_key_sorted].
  - apply range_iter_sorted.
Qed.

(** ** Waiting for inputs *)

(** The pairs a client submitted, over a list of submission events. *)
Definition pairs_by (client : ClientIdentity) (e : ClientIdentity * list (u64 * bytes))
    : list (u64 * bytes) :=
  if decide (e.1 = client) then e.2 else [].
Definition announced (evs : list (ClientIdentity * list (u64 * bytes))) (client : ClientIdentity)
    : list (u64 * bytes) :=
  evs ≫= pairs_by client.
Definition total_announced (evs : list (ClientIdentity * list (u64 * bytes))) : N :=
  foldr (fun e k => (vlen e.2 + k)%N) 0%N evs.
Definition as_notification (e : ClientIdentity * list (u64 * bytes)) : option Event :=
  Some (MaskedInputEvent e.1 e.2).

Section inputs.
Context {Sh V : Type} (deserialize_value : bytes → option V) (compute_masked_input : V → Sh → option Sh).
Context (mask_shares : list Sh).

Abbreviation unmask := (unmask_input deserialize_value compute_masked_input mask_shares).

(** The entry of a client after adding [xs]. *)
Definition added_to (o : option (list (u64 * Sh))) (xs : list (u64 * Sh)) : option (list (u64 * Sh)) :=
  match xs with [] => o | _ => Some (default [] o ++ xs) end.

Lemma added_to_app o xs ys : added_to (added_to o xs) ys = added_to o (xs ++ ys).
Proof.
  unfold added_to. destruct xs as [|x xs], ys as [|y ys]; simpl; rewrite ?app_nil_r; try done.
  by rewrite <-app_assoc.
Qed.

Lemma try_map_app {E A B} (f : A → result E B) xs ys l :
  try_map f (xs ++ ys) = Ok l →
  ∃ l1 l2, l = l1 ++ l2 ∧ try_map f xs = Ok l1 ∧ try_map f ys = Ok l2.
Proof.
  revert l. induction xs as [|x xs IH]; intros l; simpl; [by exists [], l|].
  destruct (f x) as [y| |]; [|done..]. simpl.
  destruct (try_map f (xs ++ ys)) as [zs| |] eqn:Hz; [|done..]. simpl. intros [= <-].
  destruct (IH zs eq_refl) as (l1 & l2 & -> & H1 & H2). exists (y :: l1), l2.
  rewrite H1. done.
Qed.

Lemma try_map_nil {E A B} (f : A → result E B) xs l : try_map f xs = Ok l → l = [] ↔ xs = [].
Proof.
  destruct xs; simpl; [intros [= <-]; done|]. destruct (f a) as [y| |]; [|done..]. simpl.
  destruct (try_map f xs); [|done..]. by intros [= <-].
Qed.

(** The loop over events that are all readable: it stops at the first event that
    completes the count, and every client's entry has grown by its inputs. *)
Lemma wait_for_inputs_loop_run n received m evs rest :
  (n <= received + total_announced evs)%N →
  (∀ k, k < length evs → (received + total_announced (take k evs) < n)%N) →
  (received + total_announced evs < u64_modulus)%N →
  (∀ e p, e ∈ evs → p ∈ e.2 → is_ok (unmask p) = true) →
  ∃ m', wait_for_inputs_loop deserialize_value compute_masked_input n mask_shares received m
          ((as_notification <$> evs) ++ rest) = Ok m' ∧
    ∀ client, ∃ xs, try_map unmask (announced evs client) = Ok xs ∧
      m' !! client = added_to (m !! client) xs.
Proof.
  revert received m. induction evs as [|[c pairs] evs IH]; intros received m Hn Hmin Hw Hok; simpl.
  { simpl in Hn. exists m. split; [|intros client; by exists []].
    destruct rest as [|[[]|] rest]; simpl; by rewrite (proj2 (N.ltb_ge _ _)) by lia. }
  assert (received < n)%N as Hlt by (specialize (Hmin 0 ltac:(simpl; lia)); simpl in Hmin; lia).
  rewrite (proj2 (N.ltb_lt _ _) Hlt). simpl in *.
  assert (∃ xs, try_map unmask pairs = Ok xs) as [xs Hxs].
  { assert (∀ p, p ∈ pairs → is_ok (unmask p) = true) as Hp.
    { intros p Hin. apply (Hok (c, pairs)); [left|done]. }
    clear -Hp. induction pairs as [|p pairs IH]; [by exists []|]. simpl.
    destruct (unmask p) as [y| |] eqn:Hy;
      [|by specialize (Hp p ltac:(left)); rewrite Hy in Hp..].
    destruct IH as [ys ->]; [intros ??; apply Hp; by right|]. by eexists. }
  rewrite Hxs. simpl. unfold u64_add. rewrite u64_wrap_small by lia.
  match goal with |- context [wait_for_inputs_loop _ _ _ _ _ ?x _] => set (m1 := x) end.
  destruct (IH (received + vlen pairs)%N m1) as (m' & Hm' & Hall).
  - lia.
  - intros k Hk. specialize (Hmin (S k) ltac:(lia)). simpl in Hmin. lia.
  - lia.
  - intros e p He. apply Hok. by right.
  - exists m'. split; [exact Hm'|]. intros client. destruct (Hall client) as (ys & Hys & ->).
    assert (m1 !! client = added_to (m !! client) (if decide (c = client) then xs else [])) as ->.
    { subst m1. pose proof (try_map_nil _ _ _ Hxs) as Hnil.
      case_bool_decide as Hp.
      - rewrite (proj2 Hnil Hp). by case_decide.
      - unfold extend_entry. rewrite lookup_insert. case_decide as Hc; [|done]. subst client.
        unfold added_to. destruct xs; [by destruct Hnil as [Hx _]; destruct Hp; apply Hx|done]. }
    exists ((if decide (c = client) then xs else []) ++ ys). split; [|apply added_to_app].
    unfold announced in *. simpl. unfold pairs_by at 1. simpl.
    case_decide; [|done]. clear -Hxs Hys. revert xs Hxs.
    induction pairs as [|p pairs IHp]; intros xs Hxs; simpl in *; [by simplify_eq|].
    destruct (unmask p) as [y| |]; [|done..]. simpl in *.
    destruct (try_map unmask pairs) as [zs| |]; [|done..]. simpl in *. simplify_eq.
    by rewrite (IHp zs eq_refl).
Qed.
End inputs.

(** ** Claims: inputs *)

(** A node that waits for [n] inputs returns as soon as the events announce
    [n] of them, and holds for every client exactly the inputs it submitted, each
    unmasked with the share of its slot, sorted by slot; clients that submitted
    nothing have no entry, and no event after the last needed one is read. *)
Theorem wait_for_inputs_collects_all {Sh V} (deserialize_value : bytes → option V)
    (compute_masked_input : V → Sh → option Sh) (mask_shares : list Sh) n evs rest
    (Henough : (n <= total_announced evs)%N)
    (Hneeded : ∀ k, k < length evs → (total_announced (take k evs) < n)%N)
    (Hwidth : (total_announced evs < u64_modulus)%N)
    (Hreadable : ∀ e p, e ∈ evs → p ∈ e.2 →
       is_ok (unmask_input deserialize_value compute_masked_input mask_shares p) = true) :
  ∃ m, wait_for_inputs deserialize_value compute_masked_input
         (Some ((as_notification <$> evs) ++ rest)) n mask_shares = Ok m ∧
    ∀ client, ∃ xs,
      try_map (unmask_input deserialize_value compute_masked_input mask_shares)
        (announced evs client) = Ok xs ∧
      (announced evs client = [] → m !! client = None) ∧
      (announced evs client ≠ [] → ∃ sorted, m !! client = Some (sorted.*2) ∧
         sorted ≡ₚ xs ∧ StronglySorted key_le sorted).
Proof.
  destruct (wait_for_inputs_loop_run deserialize_value compute_masked_input mask_shares n 0 ∅ evs rest)
    as (m & Hm & Hall); [by rewrite ?N.add_0_l; auto..|].
  eexists. unfold wait_for_inputs. rewrite Hm. split; [done|]. intros client.
  destruct (Hall client) as (xs & Hxs & Hl). exists xs. split; [done|].
  pose proof (try_map_nil _ _ _ Hxs) as Hnil. rewrite lookup_fmap, Hl, lookup_empty.
  split; intros Ha.
  - by rewrite (proj2 Hnil Ha).
  - exists (sort_by_key xs). split; [|split; [apply sort_by_key_perm|apply sort_by_key_sorted]].
    destruct xs; [by destruct Ha; apply Hnil|done].
Qed.

(** Codecs and shares for the witnesses: a byte is a value and a share. *)
Definition byte_of (b : bytes) : option byte := head b.

Lemma wait_for_inputs_collects_all_witness :
  ∃ m, wait_for_inputs byte_of (fun v _ => Some v)
         (Some ((as_notification <$> [(client1, [(1%N, [Byte.x0b]); (0%N, [Byte.x0a])])]) ++ []))
         2 [Byte.x00; Byte.x00] = Ok m.
Proof.
  destruct (wait_for_inputs_collects_all byte_of (fun v _ => Some v) [Byte.x00; Byte.x00] 2
    [(client1, [(1%N, [Byte.x0b]); (0%N, [Byte.x0a])])] []) as (m & Hm & _).
  - by vm_compute.
  - intros [|k] Hk; [by vm_compute|simpl in Hk; lia].
  - by vm_compute.
  - intros e p He Hp. apply list_elem_of_singleton in He as ->. simpl in Hp.
    apply elem_of_cons in Hp as [->|Hp]; [reflexivity|].
    apply list_elem_of_singleton in Hp as ->. reflexivity.
  - exists m. exact Hm.
Defined.

(** ** Collecting mask shares *)

Section masks.
Context {Sh V : Type} (deserialize_share : bytes → option Sh).
Context (recover_secret : list Sh → usize → usize → option V).

(** Node [p] holds the share [share p i] of the mask at index [i]. *)
Context (share : ClientIdentity → u64 → Sh).

(** A complete reply of node [p] to the request for [a..b]. *)
Definition serves (a b : u64) (p : ClientIdentity) (l : list AssignedMaskShare) : Prop :=
  ams_reserved_index <$> l ≡ₚ range_iter a b ∧
  ∀ x, x ∈ l → deserialize_share (ams_share_bytes x) = Some (share p (ams_reserved_index x)).

(** The sets after the replies of the nodes [ps]. *)
Definition sets_of (a b : u64) (ps : list ClientIdentity) (m : gmap u64 (list Sh)) : Prop :=
  ∀ i, m !! i = if decide (i ∈ range_iter a b ∧ ps ≠ []) then Some ((fun p => share p i) <$> ps)
                else None.

Lemma add_reply_run p l m :
  (∀ x, x ∈ l → deserialize_share (ams_share_bytes x) = Some (share p (ams_reserved_index x))) →
  NoDup (ams_reserved_index <$> l) →
  ∃ m', add_reply deserialize_share l m = Ok m' ∧
    ∀ i, m' !! i = if decide (i ∈ ams_reserved_index <$> l)
                   then Some (default [] (m !! i) ++ [share p i]) else m !! i.
Proof.
  revert m. induction l as [|x l IH]; intros m Hd Hnd.
  { exists m. split; [done|]. intros i. case_decide as Hi; [by apply not_elem_of_nil in Hi|done]. }
  cbn [add_reply]. rewrite (Hd x) by left. cbn [ok_or mbind result_bind].
  rewrite fmap_cons in Hnd. apply NoDup_cons in Hnd as [Hx Hnd].
  destruct (IH (extend_entry (ams_reserved_index x) [share p (ams_reserved_index x)] m))
    as (m' & -> & Hm'); [intros ??; apply Hd; by right|done|].
  exists m'. split; [done|]. intros i. rewrite Hm'. unfold extend_entry. rewrite fmap_cons.
  destruct (decide (i = ams_reserved_index x)) as [->|Hne].
  - rewrite decide_False by done. rewrite decide_True by left. by rewrite lookup_insert_eq.
  - rewrite lookup_insert_ne by done. apply decide_ext. rewrite elem_of_cons. naive_solver.
Qed.

Lemma add_reply_serves a b p ps l m :
  serves a b p l → sets_of a b ps m →
  ∃ m', add_reply deserialize_share l m = Ok m' ∧ sets_of a b (ps ++ [p]) m'.
Proof.
  intros [Hperm Hd] Hm. destruct (add_reply_run p l m Hd) as (m' & Hadd & Hm').
  { rewrite Hperm. apply NoDup_range_iter. }
  exists m'. split; [done|]. intros i. rewrite Hm', Hm.
  assert (i ∈ ams_reserved_index <$> l ↔ i ∈ range_iter a b) as Hin by by rewrite Hperm.
  destruct (decide (i ∈ range_iter a b)) as [Hi|Hi].
  - rewrite (decide_True (P := i ∈ ams_reserved_index <$> l)) by by apply Hin.
    rewrite (decide_True (P := _ ∧ ps ++ [p] ≠ [])) by (split; [done|by destruct ps]).
    rewrite fmap_app. case_decide as Hps; [done|]. destruct ps; [done|]. naive_solver.
  - rewrite !decide_False by naive_solver. done.
Qed.

(** Replies as they arrive: [None] for a closed stream, or a node with its list. *)
Definition arrived (x : option (ClientIdentity * list AssignedMaskShare)) : NodeReply :=
  match x with None => StreamClosed | Some (_, l) => AssignedShares l end.
Definition answering (xs : list (option (ClientIdentity * list AssignedMaskShare)))
    : list ClientIdentity := omap (fun x => fst <$> x) xs.

Lemma enough_shares_sets a b ps m k :
  (a < b)%N → (1 <= k)%N → sets_of a b ps m →
  forallb (enough_shares k m) (range_iter a b) = (k <=? vlen ps)%N.
Proof.
  intros Hab Hk Hm. apply eq_true_iff_eq. rewrite forallb_forall, N.leb_le. unfold enough_shares.
  assert (∀ i, i ∈ range_iter a b → (match m !! i with Some shares => (k <=? vlen shares)%N
    | None => false end) = (k <=? vlen ps)%N) as Heq.
  { intros i Hi. rewrite Hm. destruct ps as [|p ps].
    - rewrite decide_False by naive_solver. symmetry. apply N.leb_gt. unfold vlen. simpl. lia.
    - rewrite decide_True by done. unfold vlen. by rewrite length_fmap. }
  split.
  - intros Hall. apply N.leb_le. rewrite <-(Heq a).
    + apply Hall. apply list_elem_of_In, elem_of_range_iter. lia.
    + apply elem_of_range_iter. lia.
  - intros Hle i Hi%list_elem_of_In. rewrite Heq by done. by apply N.leb_le.
Qed.

(** The loop takes the first [k] complete replies and stops there. *)
Lemma collect_replies_run a b k xs ps m :
  (a < b)%N → (1 <= k)%N → sets_of a b ps m → (vlen ps < k)%N →
  (∀ p l, Some (p, l) ∈ xs → serves a b p l) →
  (k <= vlen ps + vlen (answering xs))%N →
  ∃ m', collect_replies deserialize_share k (range_iter a b) (arrived <$> xs) m = Ok m' ∧
    sets_of a b (take (N.to_nat k) (ps ++ answering xs)) m'.
Proof.
  intros Hab Hk. revert ps m. induction xs as [|[[p l]|] xs IH]; intros ps m Hm Hlt Hs Hen.
  - unfold vlen in *. simpl in *. lia.
  - assert (serves a b p l) as Hp by (apply Hs; left).
    change (answering (Some (p, l) :: xs)) with (p :: answering xs) in *.
    rewrite fmap_cons. cbn [arrived collect_replies].
    rewrite (proj2 (covers_range_perm l a b)) by apply Hp. cbn [negb].
    destruct (add_reply_serves a b p ps l m Hp Hm) as (m1 & -> & Hm1). cbn [mbind result_bind].
    rewrite (enough_shares_sets a b (ps ++ [p]) m1 k) by done.
    assert (vlen (ps ++ [p]) = vlen ps + 1)%N as Hlen by (unfold vlen; rewrite length_app; simpl; lia).
    rewrite Hlen. destruct (k <=? vlen ps + 1)%N eqn:Hend; reflect_bool.
    + exists m1. split; [done|].
      replace (ps ++ p :: answering xs) with ((ps ++ [p]) ++ answering xs) by by rewrite <-app_assoc.
      rewrite take_app_length'; [done|]. unfold vlen in *. lia.
    + destruct (IH (ps ++ [p]) m1) as (m' & -> & Hm'); [done|lia|intros ???; apply Hs; by right| |].
      * rewrite Hlen. unfold vlen in *. simpl in *. lia.
      * exists m'. split; [done|]. by rewrite <-app_assoc in Hm'.
  - rewrite fmap_cons. cbn [arrived collect_replies].
    change (answering (None :: xs)) with (answering xs) in *.
    apply IH; [done..| |done]. intros p l Hin. apply Hs. by right.
Qed.

End masks.

(** ** Claims: masks *)

(** A client obtains its masks from the first [min_shares t] nodes that
    answer, in whatever order they answer and however many of the others stay
    silent: if every answer received is complete and reconstruction is sound for
    that many nodes, the result is the mask of every index of the range, in order.
    The node answers may list their indices in any order. *)
Theorem masks_from_first_answers {Sh V} (deserialize_share : bytes → option Sh)
    (recover_secret : list Sh → usize → usize → option V) backend
    (share : ClientIdentity → u64 → Sh) (mask : u64 → V) n t start count subscribed xs
    (Hrecover : ∀ ps i, NoDup ps → vlen ps = min_shares backend t →
       recover_secret ((fun p => share p i) <$> ps) n t = Some (mask i))
    (Hthreshold : (2 * t + 1 < u64_modulus)%N)
    (Hrange : (start + count < u64_modulus)%N)
    (Hsub : forallb id subscribed = true)
    (Hanswers : ∀ p l, Some (p, l) ∈ xs → serves deserialize_share share start (start + count) p l)
    (Hdistinct : NoDup (answering xs))
    (Henough : (min_shares backend t <= vlen (answering xs))%N) :
  receive_assigned_masks deserialize_share recover_secret backend n t start count subscribed
    (arrived <$> xs) = Ok (mask <$> range_iter start (start + count)).
Proof.
  unfold receive_assigned_masks, u64_checked_add. rewrite (proj2 (N.ltb_lt _ _) Hrange). simpl.
  destruct (count =? 0)%N eqn:Hc; reflect_bool.
  { subst count. by rewrite range_iter_nil by lia. }
  rewrite Hsub. simpl. set (k := min_shares backend t) in *.
  assert (1 <= k)%N as Hk.
  { subst k. destruct backend; simpl; unfold robust_min_shares, feldman_min_shares, u64_add;
      rewrite ?(u64_wrap_small (2 * t)), u64_wrap_small by lia; lia. }
  destruct (collect_replies_run deserialize_share share start (start + count) k xs [] ∅)
    as (m & -> & Hm); [lia|done| |unfold vlen; simpl; lia|done|unfold vlen in *; simpl; lia|].
  { intros i. rewrite lookup_empty, decide_False; [done|]. naive_solver. }
  cbn [app] in Hm. simpl. remember (take (N.to_nat k) (answering xs)) as ps eqn:Hps.
  assert (vlen ps = k) as Hlen by (rewrite Hps; unfold vlen in *; rewrite length_take; lia).
  apply try_map_Ok. intros i Hi. unfold recover_mask. rewrite Hm, decide_True.
  2: { split; [done|]. intros Hnil. rewrite Hnil in Hlen. unfold vlen in Hlen. simpl in Hlen. lia. }
  assert (vlen ((fun p => share p i) <$> ps) = k) as -> by (unfold vlen in *; by rewrite length_fmap).
  rewrite N.ltb_irrefl. rewrite Hrecover; [done| |done].
  rewrite <-(take_drop (N.to_nat k) (answering xs)), <-Hps in Hdistinct.
  by apply NoDup_app in Hdistinct as [? _].
Qed.

(** Reconstruction that reads the secret off the first share. *)
Definition first_share (l : list byte) (_ _ : usize) : option byte := head l.

Lemma masks_from_first_answers_witness :
  receive_assigned_masks byte_of first_share Avss 3 1 5 1 [true; true; true]
    (arrived <$> [Some (party2, [mkAssignedMaskShare 5 [Byte.x0c]]); None;
                  Some (party1, [mkAssignedMaskShare 5 [Byte.x0c]])]) =
    Ok ((fun _ => Byte.x0c) <$> range_iter 5 (5 + 1)).
Proof.
  apply (masks_from_first_answers byte_of first_share Avss (fun _ _ => Byte.x0c) (fun _ => Byte.x0c)).
  - intros [|p ps] i _ Hlen; [vm_compute in Hlen; discriminate Hlen|reflexivity].
  - by vm_compute.
  - by vm_compute.
  - reflexivity.
  - intros p l Hin. assert (l = [mkAssignedMaskShare 5 [Byte.x0c]]) as ->.
    { apply list_elem_of_In in Hin. simpl in Hin.
      destruct Hin as [[= _ <-]|[[=]|[[= _ <-]|[]]]]; reflexivity. }
    split; [reflexivity|]. intros x ->%list_elem_of_singleton. reflexivity.
  - apply (bool_decide_unpack _). by vm_compute.
  - by vm_compute.
Defined.

(** ** Outputs *)

Lemma execution_enc_info_inj eid1 eid2 :
  execution_enc_info eid1 = execution_enc_info eid2 → eid1 = eid2.
Proof.
  unfold execution_enc_info. intros Heq%app_inv_head. destruct eid1 as [v1], eid2 as [v2].
  f_equal. by apply vec_to_list_inj2.
Qed.

Section outputs.
Context {Sh V SK PK EK : Type}.
Context (deserialize_shares : bytes → option (list Sh)) (serialize_shares : list Sh → option bytes).
Context (recover_secret : list Sh → usize → usize → option V) (backend : MpcBackend).
Context (from_pkcs8_der : bytes → option bytes) (private_key : bytes → option SK).
Context (public_key : bytes → option PK).
Context (encapped_key : bytes → option EK) (encapped_bytes : EK → bytes).
Context (single_shot_open : SK → EK → bytes → bytes → option bytes).
Context (single_shot_seal : PK → bytes → bytes → vec byte 32 → option (EK * bytes)).

(** Party [p] holds the share [share p i] of output [i]. *)
Context (share : ClientIdentity → nat → Sh) (n_outputs : u64).
Definition share_vector (p : ClientIdentity) : list Sh := share p <$> seq 0 (N.to_nat n_outputs).

Abbreviation open_snapshot' := (open_snapshot deserialize_shares encapped_key single_shot_open).

Lemma open_snapshot_run sk info enc (ps : list ClientIdentity) :
  (∀ p, p ∈ ps → open_shares deserialize_shares encapped_key single_shot_open sk info (enc p) =
     Ok (share_vector p)) →
  open_snapshot' sk info n_outputs (enc <$> ps) = Ok (share_vector <$> ps).
Proof.
  induction ps as [|p ps IH]; intros Ho; [done|]. rewrite fmap_cons. cbn [open_snapshot].
  rewrite Ho by left. cbn [mbind result_bind]. rewrite IH by (intros ??; apply Ho; by right).
  cbn [mbind result_bind]. unfold share_vector at 1, vlen.
  rewrite length_fmap, length_seq, N2Nat.id, N.eqb_refl. done.
Qed.

Lemma output_shares_of i (ps : list ClientIdentity) :
  i < N.to_nat n_outputs →
  omap (fun shares => shares !! i) (share_vector <$> ps) = (fun p => share p i) <$> ps.
Proof.
  intros Hi. induction ps as [|p ps IH]; [done|]. rewrite !fmap_cons. cbn [omap list_omap].
  unfold share_vector at 1. rewrite list_lookup_fmap, lookup_seq_lt by done. simpl. f_equal. exact IH.
Qed.

Lemma outputs_of_snapshot_run (out : nat → V) n t (ps : list ClientIdentity) :
  (n_outputs < u64_modulus)%N →
  (∀ i, i < N.to_nat n_outputs → recover_secret ((fun p => share p i) <$> ps) n t = Some (out i)) →
  outputs_of_snapshot recover_secret n t n_outputs (share_vector <$> ps) =
    out <$> seq 0 (N.to_nat n_outputs).
Proof.
  intros Hw Hr. unfold outputs_of_snapshot. rewrite as_usize_small by done.
  assert (∀ l : list nat, (∀ i, i ∈ l → i < N.to_nat n_outputs) →
    omap (recover_output recover_secret n t (share_vector <$> ps)) l = out <$> l) as Hl.
  { induction l as [|i l IH]; intros Hin; [done|]. rewrite fmap_cons. cbn [omap list_omap].
    unfold recover_output at 1. rewrite output_shares_of by (apply Hin; left).
    rewrite Hr by (apply Hin; left). f_equal. apply IH. intros j Hj. apply Hin. by right. }
  apply Hl. intros i Hi%elem_of_seq. lia.
Qed.
End outputs.

(** ** Claims: outputs *)

(** Outputs make the round trip.  When at least [min_shares t] distinct
    parties sealed their shares of the outputs to the client's key for this
    execution, a client that holds the matching secret key and receives the sealed
    shares, in whatever order, obtains every output, provided opening undoes
    sealing for this key and context, decoding undoes encoding, and reconstruction
    is sound. *)
Theorem sealed_outputs_round_trip {Sh V SK PK EK} (deserialize_shares : bytes → option (list Sh))
    serialize_shares (recover_secret : list Sh → usize → usize → option V) backend
    from_pkcs8_der (private_key : bytes → option SK) (public_key : bytes → option PK)
    (encapped_key : bytes → option EK) encapped_bytes single_shot_open single_shot_seal
    (share : ClientIdentity → nat → Sh) (out : nat → V) key_der raw_sk sk resolved key eid rng enc
    (n_parties t n_outputs : u64) (ps : list ClientIdentity) rest
    (Hsk : from_pkcs8_der key_der = Some raw_sk ∧ private_key raw_sk = Some sk)
    (Hhpke : ∀ pk m r ek ct,
       public_key (match resolved with Some (Some k) => k | _ => key end) = Some pk →
       single_shot_seal pk (execution_enc_info eid) m r = Some (ek, ct) →
       encapped_key (encapped_bytes ek) = Some ek ∧
       single_shot_open sk ek (execution_enc_info eid) ct = Some m)
    (Hcodec : ∀ l b, serialize_shares l = Some b → deserialize_shares b = Some l)
    (Hrecover : ∀ qs i, NoDup qs → (min_shares backend t <= vlen qs)%N →
       recover_secret ((fun p => share p i) <$> qs) n_parties t = Some (out i))
    (Hwidth : (n_parties < u64_modulus)%N ∧ (t < u64_modulus)%N ∧ (n_outputs < u64_modulus)%N)
    (Hdistinct : NoDup ps) (Hquorum : (min_shares backend t <= vlen ps)%N)
    (Hsealed : ∀ p, p ∈ ps →
       seal_output_shares serialize_shares public_key encapped_bytes single_shot_seal resolved eid key
         (rng p) (share_vector share n_outputs p) = Ok (enc p)) :
  obtain_outputs deserialize_shares recover_secret backend from_pkcs8_der private_key encapped_key
    single_shot_open key_der eid n_parties t n_outputs (Some (Some (enc <$> ps) :: rest)) =
    Ok (out <$> seq 0 (N.to_nat n_outputs)).
Proof.
  destruct Hsk as [Hder Hpriv], Hwidth as (Hn & Ht & Ho).
  unfold obtain_outputs. rewrite Hder. simpl. rewrite Hpriv. simpl.
  rewrite !as_usize_small by done.
  assert (vlen (enc <$> ps) = vlen ps) as -> by (unfold vlen; by rewrite length_fmap).
  rewrite (proj2 (N.ltb_ge _ _) Hquorum).
  rewrite (open_snapshot_run deserialize_shares encapped_key single_shot_open share).
  - simpl. rewrite (outputs_of_snapshot_run recover_secret share n_outputs out);
      [|done|intros i _; by apply Hrecover].
    unfold vlen. rewrite length_fmap, length_seq, N2Nat.id, N.eqb_refl. done.
  - intros p Hp. specialize (Hsealed p Hp). unfold seal_output_shares in Hsealed. inv_ok.
    match goal with H : ok_or (single_shot_seal _ _ _ _) _ = _ |- _ => idtac
    | H : single_shot_seal _ _ _ _ = Some ?x |- _ => destruct x as [ek ct]; rename H into Hseal end.
    destruct (Hhpke _ _ _ _ _ ltac:(eassumption) Hseal) as [Hek Hop].
    simpl in Hsealed. unfold open_shares. rewrite <-Hsealed. simpl. rewrite Hek. simpl. rewrite Hop. simpl.
    match goal with H : serialize_shares _ = Some _ |- _ => by rewrite (Hcodec _ _ H) end.
Qed.

(** A sealing for the witnesses: the key and the context in front of the text. *)
Definition toy_seal (pk info m : bytes) (_ : vec byte 32) : option (unit * bytes) :=
  Some (tt, pk ++ info ++ m).
Definition toy_open (sk : bytes) (_ : unit) (info ct : bytes) : option bytes :=
  if decide (take (length (sk ++ info)) ct = sk ++ info) then Some (drop (length (sk ++ info)) ct)
  else None.

Lemma toy_open_seal sk u info m : toy_open sk u info (sk ++ info ++ m) = Some m.
Proof.
  unfold toy_open. rewrite app_assoc, take_app_length, drop_app_length.
  by rewrite decide_True.
Qed.

Definition toy_enc (p : ClientIdentity) : bytes * bytes :=
  ([], [Byte.x2a] ++ execution_enc_info sample_eid ++ [Byte.x0c; Byte.x0c]).

Lemma sealed_outputs_round_trip_witness :
  obtain_outputs (S := byte) Some first_share Avss Some Some (fun _ => Some tt) toy_open [Byte.x2a]
    sample_eid 3 1 2 (Some (Some (toy_enc <$> [party3; party1]) :: [])) =
    Ok ((fun _ => Byte.x0c) <$> seq 0 (N.to_nat 2)).
Proof.
  apply (sealed_outputs_round_trip (Sh := byte) Some Some first_share Avss Some Some Some
    (fun _ => Some tt) (fun _ => []) toy_open toy_seal (fun _ _ => Byte.x0c) (fun _ => Byte.x0c)
    [Byte.x2a] [Byte.x2a] [Byte.x2a] (Some (Some [Byte.x2a])) [] sample_eid
    (fun _ => vreplicate 32 Byte.x00) toy_enc 3 1 2 [party3; party1] []).
  - split; reflexivity.
  - intros pk m r ek ct [= <-] [= <- <-]. split; [reflexivity|].
    exact (toy_open_seal [Byte.x2a] tt (execution_enc_info sample_eid) m).
  - intros l b [= <-]. reflexivity.
  - intros [|q qs] i _ Hlen; [exfalso; revert Hlen; vm_compute; intros Hlen; by apply Hlen|reflexivity].
  - split_and!; by vm_compute.
  - apply (bool_decide_unpack _). by vm_compute.
  - by vm_compute.
  - intros p _. reflexivity.
Defined.

(** One sealed share that does not open ends the request: whatever the other
    parties sent, and however many of them there are, a single ciphertext that
    fails to open makes the client return an error instead of reconstructing. *)
Theorem one_unopenable_share_aborts {Sh V SK EK} (deserialize_shares : bytes → option (list Sh))
    (recover_secret : list Sh → usize → usize → option V) backend from_pkcs8_der
    (private_key : bytes → option SK) (encapped_key : bytes → option EK) single_shot_open
    key_der raw_sk sk eid n_parties t n_outputs good bad more ek rest
    (Hsk : from_pkcs8_der key_der = Some raw_sk ∧ private_key raw_sk = Some sk)
    (Hgood : ∀ x, x ∈ good → is_ok (open_shares deserialize_shares encapped_key single_shot_open sk
       (execution_enc_info eid) x) = true)
    (Hbad : encapped_key bad.1 = Some ek ∧
       single_shot_open sk ek (execution_enc_info eid) bad.2 = None)
    (Hquorum : (min_shares backend (as_usize t) <= vlen (good ++ bad :: more))%N) :
  obtain_outputs deserialize_shares recover_secret backend from_pkcs8_der private_key encapped_key
    single_shot_open key_der eid n_parties t n_outputs
    (Some (Some (good ++ bad :: more) :: rest)) = Err DecryptionError.
Proof.
  destruct Hsk as [Hder Hpriv], Hbad as [Hek Hop].
  unfold obtain_outputs. rewrite Hder. simpl. rewrite Hpriv. simpl.
  rewrite (proj2 (N.ltb_ge _ _) Hquorum).
  enough (open_snapshot deserialize_shares encapped_key single_shot_open sk (execution_enc_info eid)
    n_outputs (good ++ bad :: more) = Err DecryptionError) as -> by done.
  clear Hquorum. induction good as [|x good IH].
  - simpl. unfold open_shares at 1. rewrite Hek. simpl. by rewrite Hop.
  - simpl. pose proof (Hgood x ltac:(left)) as Hx.
    destruct (open_shares _ _ _ sk _ x) as [y| |]; [|done..]. simpl.
    rewrite IH; [done|]. intros z Hz. apply Hgood. by right.
Qed.

Lemma one_unopenable_share_aborts_witness :
  obtain_outputs (S := byte) Some first_share Avss Some Some (fun _ => Some tt) toy_open [Byte.x2a]
    sample_eid 4 1 2
    (Some (Some ([toy_enc party1; toy_enc party2; toy_enc party3] ++ ([], [Byte.xff]) :: []) :: [])) =
    Err DecryptionError.
Proof.
  apply (one_unopenable_share_aborts (Sh := byte) Some first_share Avss Some Some (fun _ => Some tt)
    toy_open [Byte.x2a] [Byte.x2a] [Byte.x2a] sample_eid 4 1 2
    [toy_enc party1; toy_enc party2; toy_enc party3] ([], [Byte.xff]) [] tt []).
  - split; reflexivity.
  - intros x Hx. apply list_elem_of_In in Hx. simpl in Hx.
    destruct Hx as [<-|[<-|[<-|[]]]]; by vm_compute.
  - split; reflexivity.
  - by vm_compute.
Defined.
