(* ===== verification/Delivery.v ===== *)
(** From the clients to the parties: what a party that waits for the inputs of an
    execution receives over the coordinator's feed, whatever the interleaving.
    Joins the coordinator's handlers ([Rpc]), the feed ([Feed]) and the parties'
    wait ([Client]). *)
From S2P Require Import Prelude Shared Execution Samples Rounds Sessions Server Rpc ServerSamples Invariant History.
From S2P Require Import Machine Feed FeedFacts NodeRpc Client ClientFacts.

(** ** The history and the slots *)

(** The batches of a history of submissions. *)
Definition batch_of (e : Event) : option (ClientIdentity * list (u64 * bytes)) :=
  match e with MaskedInputEvent c l => Some (c, l) | _ => None end.
Definition batches (evs : list Event) : list (ClientIdentity * list (u64 * bytes)) := omap batch_of evs.
Definition all_pairs (bs : list (ClientIdentity * list (u64 * bytes))) : list (u64 * bytes) :=
  bs ≫= snd.

(** A client that names no index twice in one call; indices are machine words. *)
Definition distinct_batch (b : ClientIdentity * list (u64 * bytes)) : Prop :=
  NoDup b.2.*1 ∧ Forall (fun p => (p.1 < u64_modulus)%N) b.2.

#[export] Instance distinct_batch_dec b : Decision (distinct_batch b).
Proof. unfold distinct_batch. apply _. Defined.

(** The slots hold exactly what the history says, and belong to those who sent it. *)
Record slots_recorded (n : u64) (d : Exec) : Prop := {
  sr_len : length (masked_inputs d) = N.to_nat n;
  sr_nonempty : Forall (fun b => b.2 ≠ []) (batches (masked_input_events d));
  sr_distinct : NoDup (all_pairs (batches (masked_input_events d))).*1;
  sr_owner : ∀ b p, b ∈ batches (masked_input_events d) → p ∈ b.2 →
    reserved_indices d !! N.to_nat p.1 = Some (Some b.1);
  sr_slots : ∀ i v, masked_inputs d !! i = Some (Some v) ↔
    (N.of_nat i, v) ∈ all_pairs (batches (masked_input_events d)) }.

Definition recorded_if_distinct (d : Exec) : Prop :=
  (n_inputs (registration d) < u64_modulus)%N ∧
  (Forall distinct_batch (batches (masked_input_events d)) → slots_recorded (n_inputs (registration d)) d).

Lemma batches_app l k : batches (l ++ k) = batches l ++ batches k.
Proof. apply omap_app. Qed.

Lemma all_pairs_app l k : all_pairs (l ++ k) = all_pairs l ++ all_pairs k.
Proof. apply bind_app. Qed.

Lemma pairs_keys_perm {A B} (l : list (A * B)) x y1 y2 :
  NoDup l.*1 → (x, y1) ∈ l → (x, y2) ∈ l → y1 = y2.
Proof.
  induction l as [|[a b] l IH]; intros Hn H1 H2; [by apply elem_of_nil in H1|].
  apply NoDup_cons in Hn as [Hni Hn]. simpl in Hni.
  assert (∀ y, (x, y) ∈ l → x ∈ l.*1) as Hk by (intros y Hy; apply list_elem_of_fmap; by exists (x, y)).
  apply elem_of_cons in H1 as [H1|H1]; apply elem_of_cons in H2 as [H2|H2].
  - congruence.
  - injection H1 as -> ->. destruct Hni. by eapply Hk.
  - injection H2 as -> ->. destruct Hni. by eapply Hk.
  - by apply IH.
Qed.

Lemma wrapped_pairs (ps : list (u64 * bytes)) :
  Forall (fun p => (p.1 < u64_modulus)%N) ps → prod_map as_usize id <$> ps = ps.
Proof.
  induction 1 as [|[k v] ps Hk _ IH]; [done|]. rewrite fmap_cons, IH. simpl in *.
  by rewrite as_usize_small.
Qed.

Section slots.
Context `{HashOrder}.
Implicit Types d : Exec.

(** Whatever leaves the history and the slots alone and keeps the owners. *)
Lemma recorded_frame d d' :
  registration d' = registration d →
  masked_inputs d' = masked_inputs d → masked_input_events d' = masked_input_events d →
  (∀ i c, reserved_indices d !! i = Some (Some c) → reserved_indices d' !! i = Some (Some c)) →
  recorded_if_distinct d → recorded_if_distinct d'.
Proof.
  intros Hn Hm He Hr [Hw Hrec]. unfold recorded_if_distinct. rewrite Hn, He. split; [done|]. intros Hd.
  destruct (Hrec Hd) as [H1 H2 H3 H4 H5]. constructor; rewrite ?Hm, ?He; [done..| |done].
  intros b p Hb Hp. by eapply Hr, H4.
Qed.

Lemma same_feed_recorded d d' : same_feed d d' → recorded_if_distinct d → recorded_if_distinct d'.
Proof. intros []. by apply recorded_frame. Qed.

(** A batch that was accepted, on top of the history. *)
Lemma submitted_recorded self inputs indices d :
  check_submit_batch self d inputs indices = Ok tt → recorded_if_distinct d →
  recorded_if_distinct (submitted_state self (zip indices inputs) d).
Proof.
  intros Hc [Hw Hrec]. split; [done|]. intros Hd. simpl. pose proof (check_submit_batch_Ok _ _ _ _ _ Hc) as (_ & Hlen & Hne & Hall).
  set (pairs := zip indices inputs) in *. simpl in Hd. rewrite batches_app in Hd.
  apply Forall_app in Hd as [Hold [[Hnd Hwidth] _]%Forall_cons]. simpl in Hnd, Hwidth.
  destruct (Hrec Hold) as [H1 H2 H3 H4 H5].
  assert (∀ k, k ∈ pairs.*1 → reserved_indices d !! N.to_nat k = Some (Some self) ∧
    masked_inputs d !! N.to_nat k = Some None) as Hnew.
  { intros k ([k' v] & -> & Hin)%list_elem_of_fmap. simpl. rewrite Forall_forall in Hwidth. rewrite Forall_forall in Hall.
    pose proof (Hwidth _ Hin) as Hk. apply elem_of_zip_l, Hall, check_submit_Ok in Hin as (_ & Hr & Hm).
    simpl in Hk. rewrite as_usize_small in Hr, Hm by done. done. }
  assert (∀ k, k ∈ (all_pairs (batches (masked_input_events d))).*1 → k ∉ pairs.*1) as Hdisj.
  { intros k ([k' v] & -> & Hin)%list_elem_of_fmap Hk. simpl in Hk. destruct (Hnew _ Hk) as [_ Hm].
    assert (masked_inputs d !! N.to_nat k' = Some (Some v)); [|congruence].
    apply H5. by rewrite N2Nat.id. }
  assert (all_pairs (batches [MaskedInputEvent self pairs]) = pairs) as Hone by apply app_nil_r.
  constructor; simpl; rewrite ?batches_app, ?all_pairs_app, ?Hone, ?(wrapped_pairs pairs Hwidth).
  - by rewrite length_fill_pairs.
  - apply Forall_app. split; [done|]. constructor; [|done]. simpl. subst pairs.
    destruct indices, inputs; done.
  - rewrite fmap_app. apply NoDup_app. split; [done|]. by split.
  - intros b p [Hb| ->%list_elem_of_singleton]%elem_of_app Hp; [by apply H4|].
    simpl in *. apply Hnew. by apply list_elem_of_fmap_2.
  - intros i v. rewrite elem_of_app.
    destruct (decide (N.of_nat i ∈ pairs.*1)) as [Hin|Hin].
    + assert ((N.of_nat i, v) ∉ all_pairs (batches (masked_input_events d))) as Hno.
      { intros Hx. apply (Hdisj (N.of_nat i)); [|done]. apply list_elem_of_fmap.
        by exists (N.of_nat i, v). }
      destruct (Hnew _ Hin) as [_ Hm]. rewrite Nat2N.id in Hm.
      destruct (lookup_fill_pairs_elem pairs (masked_inputs d) i) as (v' & Hv' & ->);
        [done|by eapply lookup_lt_Some|].
      split; [intros [= <-]; by right|]. intros [Hx|Hx]; [done|].
      by rewrite (pairs_keys_perm pairs (N.of_nat i) v v').
    + rewrite lookup_fill_pairs_ne by done. rewrite H5. split; [by left|].
      intros [Hx|Hx]; [done|]. destruct Hin. apply list_elem_of_fmap. by exists (N.of_nat i, v).
Qed.

Lemma submit_commit_recorded self inputs indices d d' r :
  submit_commit self inputs indices d = (d', r) → recorded_if_distinct d → recorded_if_distinct d'.
Proof.
  intros Hc Hrec. apply submit_commit_cases in Hc as [(e & _ & _ & ->)|[(_ & _ & ->)|(Hc & Hd)]]; [done..|].
  simpl in Hd. apply (submitted_recorded _ _ _ _ Hc) in Hrec.
  case_bool_decide; destruct Hd as [-> _]; [done|]. by eapply recorded_frame; [..|exact Hrec].
Qed.

Lemma submit_finish_recorded net quorum head p d d' log r :
  submit_finish net quorum head p d = (d', log, r) → recorded_if_distinct d → recorded_if_distinct d'.
Proof.
  unfold submit_finish. intros Hf Hrec.
  match type of Hf with context [try_advance _ _ ?x] =>
    destruct (try_advance_ok quorum head x) as (d2 & dels & Heq & Hadv & _) end.
  rewrite Heq in Hf. injection Hf as <- _ _. eapply same_feed_recorded; [by eapply advanced_same_feed|].
  by apply (recorded_frame d).
Qed.

Lemma fresh_recorded reg d : fresh_execution reg d → recorded_if_distinct d.
Proof.
  intros [Hr He _ _ Hm Hw]. split; [by rewrite Hr|]. intros _. rewrite Hr. constructor; rewrite ?He, ?Hm.
  - by rewrite length_replicate.
  - constructor.
  - constructor.
  - intros b p Hb. by apply elem_of_nil in Hb.
  - intros i v. rewrite lookup_replicate. split; [by intros [[=] _]|]. intros Hx. by apply elem_of_nil in Hx.
Qed.

(** Every execution of a world. *)
Definition all_recorded (w : World) : Prop :=
  ∀ eid d, executions (sv w) !! eid = Some d → recorded_if_distinct d.

Lemma put_recorded eid d d' s :
  (∀ e x, executions s !! e = Some x → recorded_if_distinct x) → executions s !! eid = Some d →
  (recorded_if_distinct d → recorded_if_distinct d') →
  ∀ e x, executions (put_execution eid d' s) !! e = Some x → recorded_if_distinct x.
Proof.
  intros Hall Hd Hrec e x. simpl. rewrite lookup_insert. case_decide; [|by apply Hall].
  intros [= <-]. by eapply Hrec, Hall.
Qed.

Lemma world_step_recorded w w' : world_ok w → world_step w w' → all_recorded w → all_recorded w'.
Proof.
  intros Hok Hstep Hall. destruct Hstep as [self reg delivery s' log r Hs|s' log Hs|net sink eid d d' log Hn Hd Hs
    |k self eid inputs indices d Hk Hd|k t self inputs indices d d' p Hk Hp Hf Hd Hs
    |k t self inputs indices d d' e Hk Hp Hf Hd Hs|k t p Hk Hp|net k t p head d d' log r Hk Hp Hh Hd Hs|k t log Hk Hl];
    unfold all_recorded; simpl; try done; try (eapply put_recorded; [done|done|]).
  - apply register_lookup in Hs as [_ Hs]. intros eid d Hd.
    destruct (Hs eid) as [Hx|[Hx|(_ & _ & x & Hx & Hf)]]; [rewrite Hx in Hd; eauto|congruence|].
    simplify_eq. by eapply fresh_recorded.
  - apply segment_framed in Hs as [Hfr _]; [|intros e d Hd; by apply (wo_shape _ Hok e d)].
    intros eid d' Hd'. destruct (Hfr eid) as [[_ ?]|(d & x & Hd & ? & Hsf)]; [congruence|]. simplify_eq.
    by eapply same_feed_recorded, Hall.
  - unfold subscribe_masked_inputs in Hs. destruct (replay _ _ _ _) as [l ok]. injection Hs as <- _.
    destruct ok; [|done]. by apply (recorded_frame d).
  - by eapply submit_commit_recorded.
  - by eapply submit_commit_recorded.
  - by eapply submit_finish_recorded.
Qed.

Lemma run_recorded n t nodes s0 w :
  new_server n t nodes = Ok s0 → rtc world_step (start s0) w → all_recorded w.
Proof.
  intros Hnew Hrun. assert (world_ok w ∧ all_recorded w) as [_ ?]; [|done].
  assert (world_ok (start s0) ∧ all_recorded (start s0)) as Hs.
  { split; [by eapply start_ok|]. unfold new_server in Hnew. inv_ok. intros eid d. simpl. by rewrite lookup_empty. }
  revert Hs. induction Hrun as [|w0 w1 w2 Hs _ IH]; [done|]. intros [H1 H2]. apply IH.
  split; [by eapply world_step_ok|by eapply world_step_recorded].
Qed.
End slots.

(** ** What a waiting party obtains *)

(** The slots that belong to a client, in order, with what they hold. *)
Definition owned_slots (d : Exec) (client : ClientIdentity) : list nat :=
  filter (fun i => reserved_indices d !! i = Some (Some client)) (seq 0 (length (masked_inputs d))).
Definition slot_pair (d : Exec) (i : nat) : u64 * bytes :=
  (N.of_nat i, default [] (mjoin (masked_inputs d !! i))).
Definition owned_inputs (d : Exec) (client : ClientIdentity) : list (u64 * bytes) :=
  slot_pair d <$> owned_slots d client.

Lemma try_map_perm {E A B} (f : A → result E B) l l' r :
  l ≡ₚ l' → try_map f l = Ok r → ∃ r', try_map f l' = Ok r' ∧ r ≡ₚ r'.
Proof.
  intros Hp. revert r. induction Hp as [|x l l' _ IH|x y l|l1 l2 l3 _ IH1 _ IH2]; intros r.
  - intros [= <-]. by exists [].
  - simpl. destruct (f x) as [z| |]; [|done..]. simpl.
    destruct (try_map f l) as [zs| |]; [|done..]. intros [= <-].
    destruct (IH zs eq_refl) as (r' & -> & Hr). exists (z :: r'). split; [done|by constructor].
  - simpl. destruct (f x) as [z| |], (f y) as [z'| |]; try done. simpl.
    destruct (try_map f l) as [zs| |]; [|done..]. intros [= <-]. exists (z :: z' :: zs).
    split; [done|constructor].
  - intros Hr. destruct (IH1 r Hr) as (r2 & Hr2 & H12). destruct (IH2 r2 Hr2) as (r3 & Hr3 & H23).
    exists r3. split; [done|by etrans].
Qed.

Lemma sorted_by_keys {A} (l : list (u64 * A)) : StronglySorted N.le l.*1 → StronglySorted key_le l.
Proof.
  induction l as [|x l IH]; intros Hs; [constructor|]. rewrite fmap_cons in Hs.
  apply StronglySorted_inv in Hs as [Hs Hall]. constructor; [by apply IH|].
  apply (Forall_fmap fst) in Hall. by eapply Forall_impl; [exact Hall|].
Qed.

Lemma key_sorted_unique {A} (l k : list (u64 * A)) :
  NoDup k.*1 → StronglySorted key_le l → StronglySorted key_le k → l ≡ₚ k → l = k.
Proof.
  intros Hn Hl Hk Hp. apply (StronglySorted_unique_strong key_le); [|done..].
  intros [x1 y1] [x2 y2] H1 H2 H12 H21. unfold key_le in *. simpl in *.
  assert (x1 = x2) as -> by lia. rewrite Hp in H1. f_equal. by eapply pairs_keys_perm.
Qed.

Lemma owned_keys_sorted d client : StronglySorted N.lt (owned_inputs d client).*1.
Proof.
  unfold owned_inputs, owned_slots. rewrite <-list_fmap_compose. generalize 0 as a.
  generalize (length (masked_inputs d)) as n. induction n as [|n IH]; intros a; [constructor|].
  assert (∀ k, k ∈ (fst ∘ slot_pair d <$> filter (fun i => reserved_indices d !! i = Some (Some client))
    (seq (S a) n)) → (N.of_nat a < k)%N) as Hlow.
  { intros k (i & -> & [_ Hi%elem_of_seq]%list_elem_of_filter)%list_elem_of_fmap. simpl. lia. }
  cbn [seq]. rewrite filter_cons. case_decide; [|apply IH]. rewrite fmap_cons.
  constructor; [apply IH|]. by apply Forall_forall.
Qed.

Lemma sorted_lt_NoDup (l : list N) : StronglySorted N.lt l → NoDup l ∧ StronglySorted N.le l.
Proof.
  induction 1 as [|x l Hs [IH1 IH2] Hall]; [by split; constructor|]. split; constructor; try done.
  - rewrite Forall_forall in Hall. intros Hx%Hall. lia.
  - eapply Forall_impl; [exact Hall|]. simpl. lia.
Qed.

Section party.
Context (n : u64) (d : Exec) (Hrec : slots_recorded n d).
Context (Hfull : ∀ i, i < length (masked_inputs d) → ∃ v, masked_inputs d !! i = Some (Some v)).

Abbreviation bs := (batches (masked_input_events d)).

Lemma elem_of_announced client p :
  p ∈ announced bs client ↔ ∃ b, b ∈ bs ∧ b.1 = client ∧ p ∈ b.2.
Proof.
  unfold announced. rewrite list_elem_of_bind. unfold pairs_by. split.
  - intros (b & Hp & Hb). case_decide; [by exists b|by apply elem_of_nil in Hp].
  - intros (b & Hb & <- & Hp). exists b. by rewrite decide_True.
Qed.

Lemma announced_NoDup client : NoDup (announced bs client).
Proof.
  pose proof (sr_distinct _ _ Hrec) as Hd. clear Hrec. generalize dependent bs. intros l Hd.
  unfold announced. induction l as [|b l IH]; [constructor|]. simpl in *.
  rewrite fmap_app in Hd. apply NoDup_app in Hd as (H1 & H2 & H3). apply NoDup_app.
  split; [unfold pairs_by; case_decide; [by eapply NoDup_fmap_1|constructor]|].
  split; [|by apply IH]. intros [k v] Hk (b' & Hp & Hb')%list_elem_of_bind.
  unfold pairs_by in Hk, Hp. destruct (decide (b.1 = client)); [|by apply elem_of_nil in Hk].
  destruct (decide (b'.1 = client)); [|by apply elem_of_nil in Hp].
  apply (H2 k); apply list_elem_of_fmap; exists (k, v); [done|]. split; [done|].
  apply list_elem_of_bind. by exists b'.
Qed.

(** A client's submissions are what its slots hold. *)
Lemma announced_owned client : announced bs client ≡ₚ owned_inputs d client.
Proof.
  destruct Hrec as [Hlen _ Hdist Hown Hslots]. apply NoDup_Permutation.
  { apply announced_NoDup. }
  { eapply NoDup_fmap_1, sorted_lt_NoDup, owned_keys_sorted. }
  intros [k v]. rewrite elem_of_announced. unfold owned_inputs, owned_slots.
  rewrite list_elem_of_fmap. setoid_rewrite list_elem_of_filter. setoid_rewrite elem_of_seq. split.
  - intros (b & Hb & <- & Hp). pose proof (Hown _ _ Hb Hp) as Ho. simpl in Ho.
    assert (masked_inputs d !! N.to_nat k = Some (Some v)) as Hm.
    { apply Hslots. rewrite N2Nat.id. apply list_elem_of_bind. by exists b. }
    exists (N.to_nat k). unfold slot_pair. rewrite Hm, N2Nat.id. simpl.
    split_and!; [done..|lia|by eapply lookup_lt_Some].
  - intros (i & Hi & Hr & _ & Hlt). destruct (Hfull i) as [v' Hv']; [lia|].
    unfold slot_pair in Hi. rewrite Hv' in Hi. injection Hi as -> ->.
    pose proof (proj1 (Hslots _ _) Hv') as (b & Hp & Hb)%list_elem_of_bind.
    exists b. split_and!; [done| |done]. pose proof (Hown _ _ Hb Hp) as Ho. simpl in Ho.
    rewrite Nat2N.id in Ho. congruence.
Qed.

Lemma total_announced_pairs (l : list (ClientIdentity * list (u64 * bytes))) :
  total_announced l = vlen (all_pairs l).
Proof.
  induction l as [|b l IH]; [done|]. simpl. rewrite IH. unfold vlen, all_pairs. simpl.
  rewrite length_app. lia.
Qed.

Lemma total_announced_full : total_announced bs = n.
Proof.
  destruct Hrec as [Hlen _ Hdist Hown Hslots]. rewrite total_announced_pairs.
  assert ((all_pairs bs).*1 ≡ₚ N.of_nat <$> seq 0 (N.to_nat n)) as Hp.
  { apply NoDup_Permutation; [done|apply NoDup_fmap_2, NoDup_seq; apply _|]. intros k.
    rewrite list_elem_of_fmap. setoid_rewrite list_elem_of_fmap. setoid_rewrite elem_of_seq. split.
    - intros ([k' v] & -> & Hin). simpl. exists (N.to_nat k'). rewrite N2Nat.id. split; [done|].
      split; [lia|]. simpl. rewrite <-Hlen. eapply lookup_lt_Some, Hslots. by rewrite N2Nat.id.
    - intros (i & -> & _ & Hi). destruct (Hfull i) as [v Hv]; [lia|].
      exists (N.of_nat i, v). split; [done|]. by apply Hslots. }
  apply Permutation_length in Hp. rewrite !length_fmap, length_seq in Hp. unfold vlen. lia.
Qed.

(** No batch can be left out. *)
Lemma total_announced_needs_all k : k < length bs → (total_announced (take k bs) < n)%N.
Proof.
  intros Hk. rewrite <-total_announced_full, !total_announced_pairs.
  rewrite <-(take_drop k bs) at 2. rewrite all_pairs_app.
  pose proof (sr_nonempty _ _ Hrec) as Hne. rewrite <-(take_drop k bs) in Hne.
  apply Forall_app in Hne as [_ Hne]. destruct (drop k bs) as [|b l] eqn:Hd.
  { apply (f_equal length) in Hd. rewrite length_drop in Hd. simpl in Hd. lia. }
  apply Forall_cons in Hne as [Hb _]. unfold vlen, all_pairs. simpl. rewrite !length_app.
  destruct b as [c [|p ps]]; simpl in *; [done|lia].
Qed.
End party.

(** Unmasking keeps the indices. *)
Lemma try_map_unmask_keys {Sh V} (deserialize_value : bytes → option V)
    (compute_masked_input : V → Sh → option Sh) mask_shares l xs :
  try_map (unmask_input deserialize_value compute_masked_input mask_shares) l = Ok xs → xs.*1 = l.*1.
Proof.
  revert xs. induction l as [|[k v] l IH]; intros xs; simpl; [by intros [= <-]|].
  destruct (unmask_input _ _ _ (k, v)) as [[k' y]| |] eqn:Hy; [|done..]. simpl.
  destruct (try_map _ l) as [ys| |]; [|done..]. intros [= <-]. rewrite !fmap_cons, (IH ys eq_refl).
  unfold unmask_input in Hy. inv_ok. simpl in *. by simplify_eq.
Qed.

(** ** Claims *)

(** C9: a party that waits for the inputs of an execution obtains exactly those in the
    slots, whatever the interleaving of submissions and of every other segment of the
    coordinator.  The conditions: every slot is filled; the party is attached to the
    feed, and the identifier was not registered again while an earlier submission to it
    was in progress; no client named an index twice in one call, which the coordinator
    does not enforce; and every input in the slots can be unmasked with the party's
    shares.  Then waiting for the configured number of inputs returns, whatever the
    subscription brings afterwards; each client's entry holds the inputs of the slots the
    client reserved, in slot order, unmasked, and a client that owns no slot has no
    entry. *)
Theorem inputs_reach_every_party `{HashOrder} {Sh V} (deserialize_value : bytes → option V)
    (compute_masked_input : V → Sh → option Sh) (mask_shares : list Sh) n t nodes s0 w eid d s rest
    (Hnew : new_server n t nodes = Ok s0) (Hrun : rtc world_step (start s0) w)
    (Hd : executions (sv w) !! eid = Some d) (Hovertaken : eid ∉ overtaken w)
    (Hattached : s ∈ masked_input_sinks d)
    (Hdistinct : Forall distinct_batch (batches (masked_input_events d)))
    (Hfull : ∀ i, i < length (masked_inputs d) → ∃ v, masked_inputs d !! i = Some (Some v))
    (Hreadable : ∀ i v, masked_inputs d !! i = Some (Some v) →
       is_ok (unmask_input deserialize_value compute_masked_input mask_shares (N.of_nat i, v)) = true) :
  ∃ m, wait_for_inputs deserialize_value compute_masked_input
         (Some ((Some <$> feed_of s (wire w)) ++ rest)) (n_inputs (registration d)) mask_shares = Ok m ∧
    ∀ client, ∃ xs,
      try_map (unmask_input deserialize_value compute_masked_input mask_shares)
        (owned_inputs d client) = Ok xs ∧
      m !! client = if decide (owned_slots d client = []) then None else Some xs.*2.
Proof.
  pose proof (run_world_ok _ _ _ _ _ Hnew Hrun) as Hok.
  destruct (run_recorded _ _ _ _ _ Hnew Hrun _ _ Hd) as [Hwidth Hrec%(fun f => f Hdistinct)].
  rewrite (fo_attached _ _ _ _ (wo_feed _ Hok _ _ Hd Hovertaken) _ Hattached).
  assert ((Some <$> masked_input_events d) = (as_notification <$> batches (masked_input_events d))) as ->.
  { destruct (wo_shape _ Hok _ _ Hd) as [He _]. clear -He. induction He as [|e l (c & ps & ->) _ IH]; [done|].
    rewrite fmap_cons, IH. done. }
  pose proof (total_announced_full _ _ Hrec Hfull) as Htotal.
  destruct (wait_for_inputs_loop_run deserialize_value compute_masked_input mask_shares (n_inputs (registration d)) 0 ∅
    (batches (masked_input_events d)) rest) as (m & Hm & Hall).
  - lia.
  - intros k Hk. pose proof (total_announced_needs_all _ _ Hrec Hfull k Hk). lia.
  - by rewrite Htotal.
  - intros b [k v] Hb Hp. rewrite <-(N2Nat.id k). apply Hreadable, (sr_slots _ _ Hrec).
    rewrite N2Nat.id. apply list_elem_of_bind. by exists b.
  - eexists. unfold wait_for_inputs. rewrite Hm. split; [done|]. intros client.
    destruct (Hall client) as (xs' & Hxs' & Hl).
    destruct (try_map_perm _ _ _ _ (announced_owned _ _ Hrec Hfull client) Hxs') as (xs & Hxs & Hp).
    exists xs. split; [done|]. rewrite lookup_fmap, Hl, lookup_empty.
    assert (owned_slots d client = [] ↔ xs' = []) as Hnil.
    { rewrite (try_map_nil _ _ _ Hxs').
      pose proof (Permutation_length (announced_owned _ _ Hrec Hfull client)) as Hlen.
      unfold owned_inputs in Hlen. rewrite length_fmap in Hlen.
      by rewrite <-!length_zero_iff_nil, Hlen. }
    case_decide as Hdec; [by rewrite (proj1 Hnil Hdec)|].
    assert (added_to None xs' = Some xs') as ->.
    { destruct xs'; [by destruct Hdec; apply Hnil|done]. }
    cbn [fmap option_fmap option_map]. do 2 f_equal.
    pose proof (owned_keys_sorted d client) as [Hn Hs]%sorted_lt_NoDup.
    rewrite <-(try_map_unmask_keys _ _ _ _ _ Hxs) in Hn, Hs.
    apply key_sorted_unique; [done|apply sort_by_key_sorted|by apply sorted_by_keys|].
    by rewrite sort_by_key_perm.
Qed.

(** ** Witness: the subscriber that attached during the first submission *)

Lemma inputs_reach_every_party_witness :
  ∃ m : gmap ClientIdentity (list byte),
    wait_for_inputs byte_of (fun v _ => Some v) (Some ((Some <$> feed_of 2 (wire sample_delivered)) ++ []))
      2 [Byte.x00; Byte.x00] = Ok m.
Proof.
  assert (masked_inputs (sample_get (sv sample_delivered)) = [Some [Byte.x10]; Some [Byte.x20]]) as Hm.
  { apply (bool_decide_unpack _). by vm_compute. }
  destruct (inputs_reach_every_party (H := sample_order) byte_of (fun v (_ : byte) => Some v)
    [Byte.x00; Byte.x00] 4 1 parties sample_server sample_delivered sample_eid
    (sample_get (sv sample_delivered)) 2 []) as (m & Hw & _).
  - reflexivity.
  - exact sample_delivered_run.
  - apply sample_get_Some. by vm_compute.
  - apply (bool_decide_unpack _). by vm_compute.
  - apply (bool_decide_unpack _). by vm_compute.
  - apply (bool_decide_unpack _). by vm_compute.
  - rewrite Hm. clear Hm. intros [|[|i]] Hi; [by exists [Byte.x10]|by exists [Byte.x20]|].
    simpl in Hi. lia.
  - rewrite Hm. clear Hm. intros [|[|i]] v; [by intros [= <-]..|done].
  - exists m. assert (n_inputs (registration (sample_get (sv sample_delivered))) = 2%N) as Hn by (by vm_compute).
    rewrite Hn in Hw. exact Hw.
Defined.
