(* ===== verification/Dispatch.v ===== *)
(** From the parties to a client: the output shares the parties send reach the
    client and reconstruct, whatever the order of the calls.  Joins the output
    handlers ([Outputs]) and the client's wait ([Client]). *)
From S2P Require Import Prelude Shared Execution Samples Rounds Sessions Server Rpc ServerSamples.
From S2P Require Import Invariant History Topology Machine Inputs Outputs NodeRpc Client ClientFacts.

Section dispatch.
Context `{HashOrder} (net : Net) (eid : ExecutionId) (c : ClientIdentity) (sink : SubscriptionSink).
Context (enc : ClientIdentity → bytes * bytes).

(** The coordinator while outputs are distributed: which parties' shares for [c] it
    accepted, in order, whether [c] has asked, and what these calls sent. *)
Record Dispatch : Type := mkDispatch {
  dp_server : Server;
  dp_sent : list ClientIdentity;
  dp_asked : bool;
  dp_wire : list Send }.

(** Any segment of any handler that leaves the outputs of [c] alone: those of other
    executions, for other clients, of other handlers. *)
Record elsewhere (s s' : Server) : Prop := {
  el_step : step s s';
  el_exec : ∀ d, executions s !! eid = Some d → ∃ d', executions s' !! eid = Some d' ∧
    registration d' = registration d ∧ output_clients d' = output_clients d ∧
    output_sinks d' !! c = output_sinks d !! c ∧
    ∀ p, output_shares d' !! (c, p) = output_shares d !! (c, p) }.

(** Anyone may call to send shares for [c], any number of times; [c] may ask at any
    time, and again. *)
Inductive dispatch_step (w : Dispatch) : Dispatch → Prop :=
  | ds_send p s' log r :
      send_output_shares net p eid c (enc p) (dp_server w) = (s', log, r) →
      dispatch_step w (mkDispatch s' (dp_sent w ++ if is_ok r then [p] else []) (dp_asked w)
        (dp_wire w ++ log))
  | ds_ask s' log r :
      obtain_output_shares net (Some sink) c eid (dp_server w) = (s', log, r) →
      dispatch_step w (mkDispatch s' (dp_sent w) true (dp_wire w ++ log))
  | ds_elsewhere s' :
      elsewhere (dp_server w) s' → dispatch_step w (mkDispatch s' (dp_sent w) (dp_asked w) (dp_wire w)).

(** The snapshots sent into the client's subscription. *)
Definition snapshot_to (x : Send) : option (list (bytes * bytes)) :=
  match x with
  | (k, MOutputShares l) => if decide (k = sink) then Some l else None
  | _ => None
  end.
Definition snapshots (wire : list Send) : list (list (bytes * bytes)) := omap snapshot_to wire.

(** A snapshot that suffices: at least [k] of the parties [ps], each once. *)
Definition sufficient (k : N) (ps : list ClientIdentity) (l : list (bytes * bytes)) : Prop :=
  ∃ qs, l = enc <$> qs ∧ NoDup qs ∧ qs ⊆ ps ∧ (k <= vlen qs)%N.

Context (Hopen : is_closed net sink = false) (Hup : ∀ k, send_ok net sink k = true).

Record dispatch_ok (k : N) (w : Dispatch) (d : Exec) : Prop := {
  do_reachable : reachable (dp_server w);
  do_exec : executions (dp_server w) !! eid = Some d;
  do_quorum : min_output_shares (registration d) = k;
  do_client : c ∈ output_clients d;
  do_distinct : NoDup (dp_sent w);
  do_shares : ∀ p sh, output_shares d !! (c, p) = Some sh ↔ p ∈ dp_sent w ∧ sh = enc p;
  do_snapshots : Forall (sufficient k (dp_sent w)) (snapshots (dp_wire w));
  do_waiter :
    if dp_asked w
    then output_sinks d !! c = Some sink ∧
         ((k <= vlen (dp_sent w))%N → snapshots (dp_wire w) ≠ [])
    else has_open_waiter net c d = false ∧ snapshots (dp_wire w) = [] }.

Lemma snapshots_app l l' : snapshots (l ++ l') = snapshots l ++ snapshots l'.
Proof. apply omap_app. Qed.

Lemma sufficient_mono k ps ps' l : ps ⊆ ps' → sufficient k ps l → sufficient k ps' l.
Proof. intros Hs (qs & -> & Hn & Hq & Hk). exists qs. split_and!; [done..| |done]. set_solver. Qed.

(** The snapshot of a state that holds exactly the shares of [ps]. *)
Lemma snapshot_sufficient k ps d :
  (∀ p sh, output_shares d !! (c, p) = Some sh ↔ p ∈ ps ∧ sh = enc p) →
  (k <= N.of_nat (size (sent_by d c)))%N → sufficient k ps (shares_for d c).
Proof.
  intros Hs Hk. set (es := filter (fun e => e.1.1 = c) (map_iter (output_shares d))).
  assert (es ≡ₚ entries_for d c) as Hp by (unfold es, entries_for; by rewrite map_iter_perm).
  assert (shares_for d c = enc <$> ((fun e => e.1.2) <$> es)) as Heq.
  { unfold shares_for. fold es. rewrite <-list_fmap_compose. apply list_fmap_ext.
    intros i [[c' p] sh] He%list_elem_of_lookup_2. rewrite Hp in He.
    apply elem_of_entries_for in He as [Hc He]. simpl in *. subst c'. by apply Hs in He as [_ ->]. }
  exists ((fun e => e.1.2) <$> es). split_and!; [done| | |].
  - rewrite Hp. apply entries_for_senders_NoDup.
  - intros p. rewrite Hp. intros ([[c' q] sh] & -> & He)%list_elem_of_fmap.
    apply elem_of_entries_for in He as [Hc He]. simpl in *. subst c'. by apply Hs in He as [? _].
  - rewrite <-shares_for_length, Heq in Hk. unfold vlen in *. by rewrite !length_fmap in *.
Qed.

Lemma sent_size ps d :
  NoDup ps → (∀ p sh, output_shares d !! (c, p) = Some sh ↔ p ∈ ps ∧ sh = enc p) →
  N.of_nat (size (sent_by d c)) = vlen ps.
Proof.
  intros Hn Hs. assert (sent_by d c = list_to_set ps) as ->.
  { apply set_eq. intros p. rewrite elem_of_sent_by, elem_of_list_to_set. split.
    - by intros [sh [? _]%Hs].
    - intros Hp. exists (enc p). by apply Hs. }
  by rewrite size_list_to_set.
Qed.
Lemma reachable_quorum s d :
  reachable s → executions s !! eid = Some d →
  as_usize (min_output_shares (registration d)) = min_output_shares (registration d).
Proof.
  intros Hr%reachable_wf Hd. destruct (sw_execs s Hr eid d Hd) as (_ & _ & Hdwf).
  eapply min_output_shares_usize; [exact Hdwf|].
  rewrite <-(top_count _ _ _ (sw_topology s Hr)). apply (top_width _ _ _ (sw_topology s Hr)).
Qed.

(** Looking at the shares while the client's subscription is open, and while it has
    none. *)
Lemma deliver_open k s d :
  executions s !! eid = Some d → output_sinks d !! c = Some sink →
  deliver_ready_output_waiters net eid c k s =
    (s, if (k <=? N.of_nat (size (sent_by d c)))%N then [(sink, MOutputShares (shares_for d c))] else [],
     Ok tt).
Proof.
  intros Hd Hs. unfold deliver_ready_output_waiters, output_snapshot, ready_output_snapshot.
  rewrite Hd, Hs, Hopen, shares_for_length, N.ltb_antisym.
  destruct (k <=? _)%N; simpl; rewrite ?Hup, put_execution_id; done.
Qed.

Lemma deliver_idle k s d :
  executions s !! eid = Some d → has_open_waiter net c d = false →
  ∃ d', deliver_ready_output_waiters net eid c k s = (put_execution eid d' s, [], Ok tt) ∧
    same_but_waiters d d' ∧ has_open_waiter net c d' = false.
Proof.
  intros Hd Hs. destruct (deliver_spec net eid c k s d Hd) as (d' & Hdel & Hsame & Hsinks).
  exists d'. unfold ready_log in Hdel. unfold has_open_waiter in *. rewrite Hdel.
  destruct (output_sinks d !! c) as [w|] eqn:Hw; [rewrite Hs|]; (split; [done|]; split; [done|]);
    by destruct (Hsinks c) as [Hc|[Hc _]]; rewrite Hc, ?Hw.
Qed.

(** Sending shares: refused without effect, or stored and looked at. *)
Lemma send_output_shares_cases p sh s d :
  reachable s → executions s !! eid = Some d → c ∈ output_clients d →
  (∃ e, send_output_shares net p eid c sh s = (s, [], Err e)) ∨
  (output_shares d !! (c, p) = None ∧
   send_output_shares net p eid c sh s =
     deliver_ready_output_waiters net eid c (min_output_shares (registration d))
       (put_execution eid (d <| output_shares ::= <[(c, p) := sh]> |>) s)).
Proof.
  intros Hr Hd Hc%contains_true. unfold send_output_shares, store_output_shares.
  rewrite (with_execution_run _ _ _ d Hd), Hc, (reachable_quorum s d Hr Hd).
  destruct (contains (mpc_nodes s) p); simpl.
  2: { rewrite put_execution_id by done. eauto. }
  destruct (output_shares d !! (c, p)) as [old|] eqn:Ho; simpl.
  { rewrite put_execution_id by done. eauto. }
  by right.
Qed.

(** The shares of one more party. *)
Lemma shares_with ps p d :
  (∀ q sh, output_shares d !! (c, q) = Some sh ↔ q ∈ ps ∧ sh = enc q) →
  ∀ q sh, (<[(c, p) := enc p]> (output_shares d)) !! (c, q) = Some sh ↔ q ∈ ps ++ [p] ∧ sh = enc q.
Proof.
  intros Hs q sh. rewrite elem_of_app, list_elem_of_singleton, lookup_insert.
  case_decide as Heq; [|rewrite Hs; naive_solver]. injection Heq as <-. naive_solver.
Qed.

Lemma snapshots_to_sink l : snapshots [(sink, MOutputShares l)] = [l].
Proof. unfold snapshots. simpl. by rewrite decide_True. Qed.

Lemma send_step_ok k w d p s' log r :
  dispatch_ok k w d → send_output_shares net p eid c (enc p) (dp_server w) = (s', log, r) →
  ∃ d', dispatch_ok k (mkDispatch s' (dp_sent w ++ if is_ok r then [p] else []) (dp_asked w)
        (dp_wire w ++ log)) d'.
Proof.
  intros [Hr Hd Hk Hc Hn Hs Hsn Hw] Hcall.
  pose proof (send_output_shares_reachable net p eid c (enc p) _ Hr) as Hr'. rewrite Hcall in Hr'.
  destruct (send_output_shares_cases p (enc p) _ d Hr Hd Hc) as [[e He]|[Hnone He]]; rewrite He in Hcall.
  { injection Hcall as <- <- <-. simpl in *. rewrite !app_nil_r. by exists d. }
  set (d1 := d <| output_shares ::= <[(c, p) := enc p]> |>) in *.
  pose proof (shares_with _ p _ Hs) as Hs1.
  assert (p ∉ dp_sent w) as Hp by (intros Hin; specialize (Hs p (enc p)); naive_solver).
  assert (NoDup (dp_sent w ++ [p])) as Hn1.
  { apply NoDup_app. split; [done|]. split; [|apply NoDup_singleton]. set_solver. }
  assert (Forall (sufficient k (dp_sent w ++ [p])) (snapshots (dp_wire w))) as Hold.
  { eapply Forall_impl; [exact Hsn|]. intros l. apply sufficient_mono. set_solver. }
  destruct (dp_asked w) eqn:Hask; [destruct Hw as [Hsink Hsome]|destruct Hw as [Hno Hempty]].
  2: {
    destruct (deliver_idle (min_output_shares (registration d)) (put_execution eid d1 (dp_server w)) d1)
      as (d2 & Hdel & Hsame & Hno2); [apply put_execution_lookup|done|].
    rewrite Hdel in Hcall. injection Hcall as <- <- <-. exists d2. cbn [is_ok]. rewrite app_nil_r.
    constructor; cbn [dp_server dp_sent dp_asked dp_wire];
      [exact Hr'|apply put_execution_lookup|..|exact Hold|done].
    - by rewrite (f_equal registration Hsame).
    - by rewrite (f_equal output_clients Hsame).
    - done.
    - by rewrite (f_equal output_shares Hsame). }
  - rewrite (deliver_open _ _ d1) in Hcall; [|apply put_execution_lookup|done].
    rewrite (sent_size _ d1 Hn1 Hs1), Hk in Hcall. injection Hcall as <- <- <-. exists d1.
    cbn [is_ok]. constructor; simpl; try done.
    + apply lookup_insert_eq.
    + rewrite snapshots_app. apply Forall_app. split; [done|].
      destruct (k <=? _)%N eqn:Hle; [|constructor]. apply N.leb_le in Hle.
      rewrite snapshots_to_sink. constructor; [|done].
      apply snapshot_sufficient; [done|]. by rewrite (sent_size _ d1 Hn1 Hs1).
    + split; [done|]. intros Hle%N.leb_le. rewrite Hle, snapshots_app, snapshots_to_sink.
      by destruct (snapshots (dp_wire w)).
Qed.

Lemma ask_step_ok k w d s' log r :
  dispatch_ok k w d → obtain_output_shares net (Some sink) c eid (dp_server w) = (s', log, r) →
  ∃ d', dispatch_ok k (mkDispatch s' (dp_sent w) true (dp_wire w ++ log)) d'.
Proof.
  intros [Hr Hd Hk Hc Hn Hs Hsn Hw] Hcall.
  pose proof (obtain_output_shares_reachable net (Some sink) c eid _ Hr) as Hr'. rewrite Hcall in Hr'.
  pose proof Hc as Hc'%contains_true.
  unfold obtain_output_shares, obtain_check, execution_state, obtain_attach in Hcall.
  rewrite Hd in Hcall. cbn [ok_or] in Hcall. rewrite Hc' in Hcall. cbn [negb orb] in Hcall.
  destruct (dp_asked w); [destruct Hw as [Hsink Hsome]|destruct Hw as [Hno Hempty]].
  2: {
    rewrite Hno, (reachable_quorum _ d Hr Hd) in Hcall.
    set (d1 := d <| output_sinks ::= <[c := sink]> |>) in *.
    assert (output_sinks d1 !! c = Some sink) as Hd1 by apply lookup_insert_eq.
    rewrite (deliver_open _ _ d1) in Hcall; [|apply put_execution_lookup|done].
    rewrite (sent_size (dp_sent w) d1 Hn Hs), Hk in Hcall. injection Hcall as <- <- <-.
    exists d1. constructor; cbn [dp_server dp_sent dp_asked dp_wire]; try done.
    - apply put_execution_lookup.
    - rewrite snapshots_app, Hempty, app_nil_l. destruct (k <=? _)%N eqn:Hle; [|constructor].
      apply N.leb_le in Hle. rewrite snapshots_to_sink. constructor; [|done].
      apply snapshot_sufficient; [done|]. by rewrite (sent_size _ d1 Hn Hs).
    - split; [done|]. intros Hle%N.leb_le. by rewrite Hle, snapshots_app, snapshots_to_sink, Hempty. }
  - assert (has_open_waiter net c d = true) as Ho by (unfold has_open_waiter; by rewrite Hsink, Hopen).
    rewrite Ho in Hcall. injection Hcall as <- <- <-. exists d.
    rewrite app_nil_r. constructor; simpl; auto.
Qed.

Lemma elsewhere_step_ok k w d s' :
  dispatch_ok k w d → elsewhere (dp_server w) s' →
  ∃ d', dispatch_ok k (mkDispatch s' (dp_sent w) (dp_asked w) (dp_wire w)) d'.
Proof.
  intros [Hr Hd Hk Hc Hn Hs Hsn Hw] [Hstep He].
  pose proof (reach_step _ _ Hr Hstep) as Hr'. destruct (He d Hd) as (d' & Hd' & Hreg & Hcl & Hsi & Hsh).
  exists d'. constructor; simpl; [done..|by rewrite Hreg|by rewrite Hcl|done| |done|].
  - intros p sh. by rewrite Hsh.
  - unfold has_open_waiter in *. by rewrite Hsi.
Qed.

Lemma dispatch_run_ok k w w' :
  rtc dispatch_step w w' → (∃ d, dispatch_ok k w d) → ∃ d, dispatch_ok k w' d.
Proof.
  induction 1 as [|w w1 w2 Hs _ IH]; [done|]. intros [d Hok]. apply IH.
  destruct Hs as [p s' log r Hcall|s' log r Hcall|s' He].
  - by eapply send_step_ok.
  - by eapply ask_step_ok.
  - by eapply elsewhere_step_ok.
Qed.
End dispatch.

(** ** Claims *)

(** C15: the parties' outputs reach the client.  A client without an open request
    asks at any time, and the parties send their sealed shares in any order, with
    whatever strangers, retries and unrelated activity in between.  Once the client
    has asked and as many distinct parties as the output quorum were accepted, a
    snapshot has been sent into its subscription, and the first one it reads opens
    and reconstructs every output, provided the quorum covers the sharing's
    threshold, the accepted parties sealed their shares to the client's key for
    this execution, opening undoes sealing, decoding undoes encoding, and
    reconstruction is sound. *)
Theorem outputs_reach_the_client `{HashOrder} {Sh V SK PK EK}
    (deserialize_shares : bytes → option (list Sh)) serialize_shares
    (recover_secret : list Sh → usize → usize → option V) backend
    from_pkcs8_der (private_key : bytes → option SK) (public_key : bytes → option PK)
    (encapped_key : bytes → option EK) encapped_bytes single_shot_open single_shot_seal
    (share : ClientIdentity → nat → Sh) (out : nat → V) key_der raw_sk sk resolved rng enc
    (n_parties t n_outputs : u64) net eid c sink s d w rest
    (Hs : reachable s) (Hd : executions s !! eid = Some d) (Hc : c ∈ output_clients d)
    (Hnone : ∀ p, output_shares d !! (c, p) = None) (Hfree : has_open_waiter net c d = false)
    (Hopen : is_closed net sink = false) (Hup : ∀ k, send_ok net sink k = true)
    (Hrun : rtc (dispatch_step net eid c sink enc) (mkDispatch s [] false []) w)
    (Hasked : dp_asked w = true)
    (Hquorum : (min_output_shares (registration d) <= vlen (dp_sent w))%N)
    (Hthreshold : (min_shares backend t <= min_output_shares (registration d))%N)
    (Hsk : from_pkcs8_der key_der = Some raw_sk ∧ private_key raw_sk = Some sk)
    (Hhpke : ∀ pk m r ek ct,
       public_key (match resolved with Some (Some k) => k | _ => c end) = Some pk →
       single_shot_seal pk (execution_enc_info eid) m r = Some (ek, ct) →
       encapped_key (encapped_bytes ek) = Some ek ∧
       single_shot_open sk ek (execution_enc_info eid) ct = Some m)
    (Hcodec : ∀ l b, serialize_shares l = Some b → deserialize_shares b = Some l)
    (Hrecover : ∀ qs i, NoDup qs → (min_shares backend t <= vlen qs)%N →
       recover_secret ((fun p => share p i) <$> qs) n_parties t = Some (out i))
    (Hwidth : (n_parties < u64_modulus)%N ∧ (t < u64_modulus)%N ∧ (n_outputs < u64_modulus)%N)
    (Hsealed : ∀ p, p ∈ dp_sent w →
       seal_output_shares serialize_shares public_key encapped_bytes single_shot_seal resolved eid c
         (rng p) (share_vector share n_outputs p) = Ok (enc p)) :
  obtain_outputs deserialize_shares recover_secret backend from_pkcs8_der private_key encapped_key
    single_shot_open key_der eid n_parties t n_outputs
    (Some ((Some <$> snapshots sink (dp_wire w)) ++ rest)) = Ok (out <$> seq 0 (N.to_nat n_outputs)).
Proof.
  destruct (dispatch_run_ok net eid c sink enc Hopen Hup (min_output_shares (registration d)) _ _ Hrun)
    as [d' Hok].
  { exists d. constructor; simpl; try done; [apply NoDup_nil_2|].
    intros p sh. rewrite Hnone. split; [done|]. by intros [?%elem_of_nil _]. }
  pose proof (do_snapshots _ _ _ _ _ _ _ _ Hok) as Hall.
  pose proof (do_waiter _ _ _ _ _ _ _ _ Hok) as Hw. rewrite Hasked in Hw. destruct Hw as [_ Hw].
  specialize (Hw Hquorum). destruct (snapshots sink (dp_wire w)) as [|l more]; [done|].
  apply Forall_cons in Hall as [(qs & -> & Hnd & Hqs & Hk) _]. rewrite fmap_cons.
  apply (sealed_outputs_round_trip deserialize_shares serialize_shares recover_secret backend
    from_pkcs8_der private_key public_key encapped_key encapped_bytes single_shot_open single_shot_seal
    share out key_der raw_sk sk resolved c eid rng); try done.
  - lia.
  - intros p Hp. by apply Hsealed, Hqs.
Qed.

(** ** Witness: the client asks between the parties' calls *)

Definition do_send (p : ClientIdentity) (w : Dispatch) : Dispatch :=
  let o := send_output_shares all_up p sample_eid client1 (toy_enc p) (dp_server w) in
  mkDispatch o.1.1 (dp_sent w ++ if is_ok o.2 then [p] else []) (dp_asked w) (dp_wire w ++ o.1.2).
Definition do_ask (w : Dispatch) : Dispatch :=
  let o := obtain_output_shares all_up (Some 5%positive) client1 sample_eid (dp_server w) in
  mkDispatch o.1.1 (dp_sent w) true (dp_wire w ++ o.1.2).

Abbreviation sample_step := (dispatch_step all_up sample_eid client1 5%positive toy_enc).

Lemma do_send_run w0 p w : rtc sample_step w0 w → rtc sample_step w0 (do_send p w).
Proof. intros Hr. eapply rtc_r; [exact Hr|]. unfold do_send. cbn zeta. eapply ds_send, outcome_eta. Qed.

Lemma do_ask_run w0 w : rtc sample_step w0 w → rtc sample_step w0 (do_ask w).
Proof. intros Hr. eapply rtc_r; [exact Hr|]. unfold do_ask. cbn zeta. eapply ds_ask, outcome_eta. Qed.

Definition sample_dispatched : Dispatch :=
  do_send party4 (do_send party1 (do_send party1 (do_ask (do_send party3
    (mkDispatch sample_run [] false []))))).

Lemma sample_dispatched_run :
  rtc sample_step (mkDispatch sample_run [] false []) sample_dispatched.
Proof. do 3 apply do_send_run. apply do_ask_run, do_send_run. apply rtc_refl. Qed.

Lemma outputs_reach_the_client_witness :
  obtain_outputs (S := byte) Some first_share Avss Some Some (fun _ => Some tt) toy_open [Byte.x2a]
    sample_eid 4 1 2 (Some ((Some <$> snapshots 5 (dp_wire sample_dispatched)) ++ [])) =
    Ok ((fun _ => Byte.x0c) <$> seq 0 (N.to_nat 2)).
Proof.
  apply (outputs_reach_the_client (Sh := byte) Some Some first_share Avss Some Some Some
    (fun _ => Some tt) (fun _ => []) toy_open toy_seal (fun _ _ => Byte.x0c) (fun _ => Byte.x0c)
    [Byte.x2a] [Byte.x2a] [Byte.x2a] (Some (Some [Byte.x2a])) (fun _ => vreplicate 32 Byte.x00) toy_enc
    4 1 2 all_up sample_eid client1 5 sample_run (sample_get sample_run) sample_dispatched []).
  - apply sample_run_reachable.
  - apply sample_get_Some. by vm_compute.
  - apply contains_true. by vm_compute.
  - assert (output_shares (sample_get sample_run) = ∅) as -> by (apply (bool_decide_unpack _); by vm_compute).
    intros p. apply lookup_empty.
  - by vm_compute.
  - reflexivity.
  - reflexivity.
  - apply sample_dispatched_run.
  - reflexivity.
  - apply N.leb_le. by vm_compute.
  - apply N.leb_le. by vm_compute.
  - split; reflexivity.
  - intros pk m r ek ct [= <-] [= <- <-]. split; [reflexivity|].
    exact (toy_open_seal [Byte.x2a] tt (execution_enc_info sample_eid) m).
  - intros l b [= <-]. reflexivity.
  - intros [|q qs] i _ Hlen; [exfalso; revert Hlen; vm_compute; intros Hlen; by apply Hlen|reflexivity].
  - split_and!; by vm_compute.
  - intros p _. reflexivity.
Defined.
