(* ===== verification/Coordinator.v ===== *)
(** The [Coordinator] interface that parties and clients program against
    (src/crates/coord-shared/src/lib.rs, trait [Coordinator]) with its default
    methods, and the off-chain client that implements it by calls to the
    coordinator's RPC methods (src/crates/off-chain/src/lib.rs,
    [OffChainCoordinatorClient]). *)
From S2P Require Import Prelude Shared Execution Sessions Server Rpc NodeRpc Client.

(** ** The interface *)

(** The methods that change the state behind the interface.  [St] is that state,
    passed explicitly; [Value] is the type of masked inputs.  The waiting methods
    read streams and are modelled on their own ([Client], [OnChain]). *)
Class CoordinatorOps (St Value : Type) : Type := {
  op_start_preprocessing : St → St * result CoordinatorError unit;
  op_reserve_input_masks : St → St * result CoordinatorError unit;
  op_collect_inputs : St → St * result CoordinatorError unit;
  op_start_mpc : St → St * result CoordinatorError unit;
  op_send_output : St → St * result CoordinatorError unit;
  op_finalize : St → St * result CoordinatorError unit;
  op_reserve_mask_index : u64 → St → St * result CoordinatorError unit;
  op_send_masked_input : Value → u64 → St → St * result CoordinatorError unit }.

Section defaults.
Context `{CoordinatorOps St Value}.

(** The default [reserve_mask_indices]: a loop that stops at the first error. *)
Fixpoint default_reserve_mask_indices (indices : list u64) (st : St)
    : St * result CoordinatorError unit :=
  match indices with
  | [] => (st, Ok tt)
  | i :: indices =>
      match op_reserve_mask_index i st with
      | (st, Ok _) => default_reserve_mask_indices indices st
      | (st, r) => (st, r)
      end
  end.

(** The default [send_masked_inputs]. *)
Fixpoint default_send_masked_inputs (inputs : list (u64 * Value)) (st : St)
    : St * result CoordinatorError unit :=
  match inputs with
  | [] => (st, Ok tt)
  | (i, masked_input) :: inputs =>
      match op_send_masked_input masked_input i st with
      | (st, Ok _) => default_send_masked_inputs inputs st
      | (st, r) => (st, r)
      end
  end.
End defaults.

(** ** The off-chain client *)

(** A connected client: the identity its connection authenticated, and its
    execution. *)
Record OffChainCoordinatorClient : Type := mkOffChainClient {
  oc_identity : ClientIdentity;
  oc_execution_id : ExecutionId;
  oc_t : u64;
  oc_n_parties : u64;
  oc_n_outputs : u64;
  oc_key_der : bytes }.

(** The coordinator the client talks to, with what it has sent so far. *)
Abbreviation Remote := (Server * list Send)%type.

Definition rpc_failed : CoordinatorError := JSONError "{e}".

(** One RPC: the coordinator runs the handler, and an error reply becomes a
    [JSONError]. *)
Definition call_rpc {A} (handler : Server → Outcome A) (st : Remote)
    : Remote * result CoordinatorError A :=
  let '(s, log, r) := handler st.1 in ((s, st.2 ++ log), map_err (fun _ => rpc_failed) r).

Section off_chain.
Context `{HashOrder} (net : Net) (c : OffChainCoordinatorClient).

Definition oc_trigger_round (r : Round) : Remote → Remote * result CoordinatorError unit :=
  call_rpc (rpc_transition (oc_identity c) (oc_execution_id c) r).

Definition oc_register_execution (reg : ExecutionRegistration) (delivery : LockId)
    : Remote → Remote * result CoordinatorError unit :=
  call_rpc (rpc_register_execution (oc_identity c) reg delivery).

Definition oc_retire_execution : Remote → Remote * result CoordinatorError unit :=
  call_rpc (rpc_retire_execution (oc_identity c) (oc_execution_id c)).

(** The channel that the call fires is part of the answer. *)
Definition oc_request_shutdown (st : Remote)
    : Remote * option positive * result CoordinatorError unit :=
  let '(s, fired, r) := rpc_request_shutdown (oc_identity c) st.1 in
  ((s, st.2), fired, map_err (fun _ => rpc_failed) r).

Definition oc_start_preprocessing : Remote → Remote * result CoordinatorError unit :=
  call_rpc (start_preprocessing (oc_identity c) (oc_execution_id c)).
Definition oc_reserve_input_masks : Remote → Remote * result CoordinatorError unit :=
  call_rpc (reserve_input_masks (oc_identity c) (oc_execution_id c)).
Definition oc_collect_inputs : Remote → Remote * result CoordinatorError unit :=
  call_rpc (collect_inputs (oc_identity c) (oc_execution_id c)).
Definition oc_start_mpc : Remote → Remote * result CoordinatorError unit :=
  call_rpc (start_mpc (oc_identity c) (oc_execution_id c)).
Definition oc_send_output : Remote → Remote * result CoordinatorError unit :=
  call_rpc (send_output (oc_identity c) (oc_execution_id c)).
Definition oc_finalize : Remote → Remote * result CoordinatorError unit :=
  call_rpc (finalize (oc_identity c) (oc_execution_id c)).

(** The batch forms override the defaults by a single call. *)
Definition oc_reserve_mask_indices (indices : list u64)
    : Remote → Remote * result CoordinatorError unit :=
  call_rpc (reserve_mask_indices net (oc_identity c) (oc_execution_id c) indices).

Definition oc_reserve_mask_index (i : u64) : Remote → Remote * result CoordinatorError unit :=
  oc_reserve_mask_indices [i].

Section values.
Context {V : Type} (serialize_value : V → option bytes).

(** Serialize every input first; nothing is sent when one of them fails. *)
Definition serialize_inputs (inputs : list (u64 * V)) : result CoordinatorError (list (u64 * bytes)) :=
  try_map (fun p => b ← ok_or (serialize_value p.2) SerializationError; Ok (p.1, b)) inputs.

Definition oc_send_masked_inputs (inputs : list (u64 * V)) (st : Remote)
    : Remote * result CoordinatorError unit :=
  match serialize_inputs inputs with
  | Ok pairs =>
      call_rpc (submit_masked_inputs net (oc_identity c) (oc_execution_id c) pairs.*2 pairs.*1) st
  | Err e => (st, Err e)
  | Panic => (st, Panic)
  end.

Definition oc_send_masked_input (masked_input : V) (i : u64)
    : Remote → Remote * result CoordinatorError unit :=
  oc_send_masked_inputs [(i, masked_input)].

#[export] Instance off_chain_ops : CoordinatorOps Remote V := {|
  op_start_preprocessing := oc_start_preprocessing;
  op_reserve_input_masks := oc_reserve_input_masks;
  op_collect_inputs := oc_collect_inputs;
  op_start_mpc := oc_start_mpc;
  op_send_output := oc_send_output;
  op_finalize := oc_finalize;
  op_reserve_mask_index := oc_reserve_mask_index;
  op_send_masked_input := oc_send_masked_input |}.
End values.

Section outputs.
Context {S V SK PK EK : Type}.
Context (deserialize_shares : bytes → option (list S)) (serialize_shares : list S → option bytes).
Context (recover_secret : list S → usize → usize → option V) (backend : MpcBackend).
Context (from_pkcs8_der : bytes → option bytes) (private_key : bytes → option SK).
Context (public_key : bytes → option PK).
Context (encapped_key : bytes → option EK) (encapped_bytes : EK → bytes).
Context (single_shot_open : SK → EK → bytes → bytes → option bytes).
Context (single_shot_seal : PK → bytes → bytes → vec byte 32 → option (EK * bytes)).

(** [obtain_outputs] of this client; [sub] is the stream its subscription yields. *)
Definition oc_obtain_outputs (sub : option (list (option (list (bytes * bytes)))))
    : result CoordinatorError (list V) :=
  obtain_outputs deserialize_shares recover_secret backend from_pkcs8_der private_key encapped_key
    single_shot_open (oc_key_der c) (oc_execution_id c) (oc_n_parties c) (oc_t c) (oc_n_outputs c) sub.

(** [send_output_shares] of a party: ask for the client's current key, seal, send.
    [rng] is what the generator yields. *)
Definition oc_send_output_shares (client_id : ClientIdentity) (key : bytes) (rng : vec byte 32)
    (output_shares : list S) (st : Remote) : Remote * result CoordinatorError unit :=
  let resolved := match resolve_output_encryption_key (oc_execution_id c) client_id st.1 with
                  | Ok session_key => Some session_key
                  | _ => None
                  end in
  match seal_output_shares serialize_shares public_key encapped_bytes single_shot_seal resolved
          (oc_execution_id c) key rng output_shares with
  | Ok enc => call_rpc (send_output_shares net (oc_identity c) (oc_execution_id c) client_id enc) st
  | Err e => (st, Err e)
  | Panic => (st, Panic)
  end.
End outputs.
End off_chain.
