(* ===== verification/CoordinatorFacts.v ===== *)
(** The interface's default loops against the off-chain client's batch calls:
    submitting one by one leaves the coordinator as a batch would, reserving one
    by one does not work. *)
From S2P Require Import Prelude Shared Execution Samples Rounds Sessions Server Rpc ServerSamples.
From S2P Require Import Invariant History Topology Machine Inputs NodeRpc Client ClientFacts Coordinator.

(** ** States up to the feed *)

(** What an execution holds apart from its masked-input feed. *)
Definition forget_feed (d : Exec) : Exec :=
  d <| masked_input_events := [] |> <| masked_input_sinks := [] |> <| assigned_masked_input_sinks := [] |>.

Definition same_but_feed (d d' : Exec) : Prop := forget_feed d = forget_feed d'.

#[export] Instance same_but_feed_equiv : Equivalence same_but_feed.
Proof. unfold same_but_feed. split; [done|by intros ??|intros ???; congruence]. Qed.

(** What the slots and the assigned events become. *)
Definition written (self : ClientIdentity) (pairs : list (u64 * bytes)) (d : Exec) : Exec :=
  d <| masked_inputs := fill_pairs (prod_map as_usize id <$> pairs) (masked_inputs d) |>
    <| assigned_masked_input_events := assigned_masked_input_events d ++ assigned_inputs self d pairs |>.

#[export] Instance written_proper self pairs : Proper (same_but_feed ==> same_but_feed) (written self pairs).
Proof.
  intros d d' Hd. unfold same_but_feed, forget_feed in *. destruct d, d'. simpl in *. by simplify_eq.
Qed.

Lemma written_cons self p pairs d : written self (p :: pairs) d = written self pairs (written self [p] d).
Proof.
  assert (assigned_inputs self d (p :: pairs) =
    assigned_inputs self d [p] ++ assigned_inputs self (written self [p] d) pairs) as Ha.
  { unfold assigned_inputs at 1 2. cbn. by destruct (input_assignments d !! _). }
  unfold written at 1. rewrite Ha, app_assoc. by destruct d.
Qed.

Lemma next_quorum_round_feed quorum d : next_quorum_round quorum (forget_feed d) = next_quorum_round quorum d.
Proof. by destruct d. Qed.

Lemma transition_feed event r d :
  transition event r (forget_feed d) = prod_map id forget_feed <$> transition event r d.
Proof. destruct d. unfold transition. by destruct (round_before r). Qed.

(** The round engine does not look at the feed. *)
Lemma try_advance_loop_feed fuel quorum head d acc :
  try_advance_loop fuel quorum head (forget_feed d) acc =
  prod_map forget_feed id <$> try_advance_loop fuel quorum head d acc.
Proof.
  revert d acc. induction fuel as [|fuel IH]; intros d acc; [done|]. cbn [try_advance_loop].
  rewrite next_quorum_round_feed. destruct (next_quorum_round quorum d) as [r|]; [|done].
  change (blocking_precondition (forget_feed d) r) with (blocking_precondition d r).
  destruct (blocking_precondition d r); [done|]. destruct (round_event head r) as [e|]; [|done].
  rewrite transition_feed. destruct (transition e r d) as [[waiting d']| |]; [|done..].
  cbn. apply IH.
Qed.

Lemma try_advance_feed quorum head d d' d1 dels1 d1' dels1' :
  same_but_feed d d' → try_advance quorum head d = Ok (d1, dels1) →
  try_advance quorum head d' = Ok (d1', dels1') → same_but_feed d1 d1' ∧ dels1 = dels1'.
Proof.
  unfold same_but_feed, try_advance. intros Hd H1 H2.
  pose proof (try_advance_loop_feed 7 quorum head d []) as E1.
  pose proof (try_advance_loop_feed 7 quorum head d' []) as E2.
  rewrite H1 in E1. rewrite H2 in E2. rewrite Hd, E2 in E1.
  split; [exact (eq_sym (f_equal (fun r => match r with Ok x => x.1 | _ => d end) E1))|].
  exact (eq_sym (f_equal (fun r => match r with Ok x => x.2 | _ => [] end) E1)).
Qed.

(** Nothing moves while an input is missing. *)
Lemma try_advance_missing quorum head d k :
  round d = InputCollection → masked_inputs d !! k = Some None →
  try_advance quorum head d = Ok (d, []).
Proof.
  intros Hr Hk. apply settled_try_advance. intros r Hn.
  apply next_quorum_round_Some in Hn as [Hm _]. rewrite Hr in Hm.
  assert (r = MPCExecution) as ->.
  { inversion Hm as [? r' Hb| |]; [|done..]. by destruct r. }
  apply not_false_iff_true. intros Hb. pose proof (proj1 (blocking_precondition_false _ _) Hb) as Hb'.
  destruct (Hb' eq_refl) as [Hp|Hall]; [by rewrite Hr in Hp|].
  unfold inputs_complete in Hall. rewrite Forall_lookup in Hall. by destruct (Hall _ _ Hk).
Qed.

(** ** Submissions at one execution *)

(** What the handler does to the execution. *)
Definition submit_exec (net : Net) (quorum : usize) (head self : ClientIdentity) (inputs : list bytes)
    (indices : list u64) (d : Exec) : Exec * list Send * result ErrorObject unit :=
  match submit_commit self inputs indices d with
  | (d, Ok p) =>
      let '(d, log, r) := submit_finish net quorum head p d in
      (d, submit_sends p ++ log, r)
  | (d, Err e) => (d, [], Err e)
  | (d, Panic) => (d, [], Panic)
  end.

Lemma submit_exec_allowed nodes q net head self inputs indices d :
  exec_wf nodes q d → submission_allowed self d inputs indices →
  ∃ d1 log d2 dels, submit_exec net q head self inputs indices d = (d1, log, Ok tt) ∧
    try_advance q head (written self (zip indices inputs) d) = Ok (d2, dels) ∧ same_but_feed d1 d2 ∧
    masked_input_events d1 = masked_input_events d ++ [MaskedInputEvent self (zip indices inputs)] ∧
    exec_wf nodes q d1.
Proof.
  intros Hwf Hallowed. pose proof (proj2 (check_submit_batch_iff _ _ _ _ _ _ Hwf) Hallowed) as Hc.
  destruct (submit_exec net q head self inputs indices d) as [[d1 log] r] eqn:Hs.
  unfold submit_exec in Hs. destruct (submit_commit self inputs indices d) as [dc rc] eqn:Hcommit.
  pose proof (submit_commit_wf _ _ _ _ _ _ _ _ Hwf Hcommit) as Hwfc.
  apply submit_commit_cases in Hcommit as [(e & Hc' & _)|[(Hc' & _)|(_ & Hdc)]]; [congruence..|].
  assert (same_but_feed dc (written self (zip indices inputs) d) ∧ masked_input_events dc =
    masked_input_events d ++ [MaskedInputEvent self (zip indices inputs)] ∧ ∃ p, rc = Ok p)
    as (Hsame & Hev & p & ->).
  { simpl in Hdc. case_bool_decide; destruct Hdc as [-> ->];
      (split; [by destruct d|split; [done|by eexists]]). }
  clear Hdc. destruct (submit_finish net q head p dc) as [[df logf] rf] eqn:Hf.
  pose proof (submit_finish_wf _ _ _ _ _ _ _ _ _ Hwfc Hf) as Hwff.
  injection Hs as <- <- <-. unfold submit_finish in Hf.
  match type of Hf with context [try_advance _ _ ?x] => set (dc' := x) in Hf end.
  assert (same_but_feed dc' dc) as Hsame' by (by destruct dc).
  destruct (try_advance_ok q head dc') as (d3 & dels & Heq & Hadv & _). rewrite Heq in Hf.
  injection Hf as <- <- <-.
  destruct (try_advance_ok q head (written self (zip indices inputs) d)) as (d2 & dels2 & Heq2 & _).
  exists d3, (submit_sends p ++ deliver_transitions dels), d2, dels2. split_and!; [done|done| | |done].
  - refine (proj1 (try_advance_feed _ _ _ _ _ _ _ _ _ Heq Heq2)). by rewrite Hsame'.
  - pose proof (adv_frame _ _ _ _ _ Hadv) as Hfr.
    rewrite (f_equal masked_input_events Hfr). exact Hev.
Qed.

(** ** Sending inputs through the client *)

Section sending.
Context `{HashOrder} (net : Net) (c : OffChainCoordinatorClient).
Context {V : Type} (serialize_value : V → option bytes).

Abbreviation eid := (oc_execution_id c).
Abbreviation self := (oc_identity c).
Abbreviation send_all := (oc_send_masked_inputs net c serialize_value).
Abbreviation send_loop :=
  (default_send_masked_inputs (H := off_chain_ops net c serialize_value)).

Lemma put_execution_put e d d' s : put_execution e d (put_execution e d' s) = put_execution e d s.
Proof. unfold put_execution. destruct s. unfold upd. simpl. by rewrite insert_insert_eq. Qed.

Lemma serialize_inputs_cons x inputs pairs :
  serialize_inputs serialize_value (x :: inputs) = Ok pairs →
  ∃ b rest, pairs = (x.1, b) :: rest ∧ serialize_value x.2 = Some b ∧
    serialize_inputs serialize_value inputs = Ok rest.
Proof.
  unfold serialize_inputs. simpl. destruct (serialize_value x.2) as [b|]; [|done]. simpl.
  destruct (try_map _ inputs) as [rest| |]; [|done..]. intros [= <-]. by exists b, rest.
Qed.

Lemma send_all_run s d log inputs pairs :
  topology_ok (n s) (t s) (mpc_nodes s) → exec_wf (mpc_nodes s) (transition_quorum s) d → executions s !! eid = Some d →
  serialize_inputs serialize_value inputs = Ok pairs → submission_allowed self d pairs.*2 pairs.*1 →
  ∃ head d1 log1 d2 dels, roster_head s = Ok head ∧
    send_all inputs (s, log) = ((put_execution eid d1 s, log ++ log1), Ok tt) ∧
    try_advance (transition_quorum s) head (written self pairs d) = Ok (d2, dels) ∧
    same_but_feed d1 d2 ∧
    masked_input_events d1 = masked_input_events d ++ [MaskedInputEvent self pairs] ∧
    exec_wf (mpc_nodes s) (transition_quorum s) d1.
Proof.
  intros Htop Hwf Hd Hser Hallowed. destruct (roster_head_Ok s Htop) as (head & Hhead & _).
  destruct (submit_exec_allowed _ _ net head _ _ _ _ Hwf Hallowed)
    as (d1 & log1 & d2 & dels & Hs & Ha & Hsame & Hev & Hwf1).
  rewrite zip_fst_snd in Ha, Hev. exists head, d1, log1, d2, dels. split_and!; try done.
  unfold oc_send_masked_inputs. rewrite Hser. unfold call_rpc, submit_masked_inputs. simpl.
  rewrite Hhead. rewrite (with_execution_run _ _ _ d Hd). fold (submit_exec net (transition_quorum s) head
    self pairs.*2 pairs.*1 d). by rewrite Hs.
Qed.

Lemma same_feed_submission d d' inputs indices :
  same_but_feed d d' → submission_allowed self d' inputs indices → submission_allowed self d inputs indices.
Proof.
  intros Hs. unfold submission_allowed, may_submit.
  pose proof (f_equal round Hs) as H1. pose proof (f_equal reserved_indices Hs) as H2.
  pose proof (f_equal masked_inputs Hs) as H3. simpl in H1, H2, H3. by rewrite H1, H2, H3.
Qed.

(** Sending one by one ends where the batch would, after the same rounds. *)
Lemma send_loop_run inputs pairs s d log :
  topology_ok (n s) (t s) (mpc_nodes s) → exec_wf (mpc_nodes s) (transition_quorum s) d →
  executions s !! eid = Some d → serialize_inputs serialize_value inputs = Ok pairs →
  submission_allowed self d pairs.*2 pairs.*1 → NoDup (as_usize <$> pairs.*1) →
  ∃ head d1 log1 d2 dels, roster_head s = Ok head ∧
    send_loop inputs (s, log) = ((put_execution eid d1 s, log ++ log1), Ok tt) ∧
    try_advance (transition_quorum s) head (written self pairs d) = Ok (d2, dels) ∧
    same_but_feed d1 d2 ∧
    masked_input_events d1 =
      masked_input_events d ++ ((fun p => MaskedInputEvent self [p]) <$> pairs) ∧
    exec_wf (mpc_nodes s) (transition_quorum s) d1.
Proof.
  revert pairs s d log. induction inputs as [|[i v] inputs IH];
    intros pairs s d log Htop Hwf Hd Hser Hallowed Hnd.
  { injection Hser as <-. by destruct Hallowed as (_ & _ & Hne & _). }
  destruct (serialize_inputs_cons _ _ _ Hser) as (b & rest & -> & Hb & Hrest). simpl in Hb.
  assert (serialize_inputs serialize_value [(i, v)] = Ok [(i, b)]) as Hser1.
  { unfold serialize_inputs. simpl. by rewrite Hb. }
  assert (submission_allowed self d [b] [i]) as Hone.
  { destruct Hallowed as (H1 & _ & _ & H4). split_and!; [done..|].
    intros j ->%list_elem_of_singleton. apply H4. by left. }
  destruct (send_all_run s d log [(i, v)] [(i, b)] Htop Hwf Hd Hser1 Hone)
    as (head & d1 & log1 & d2 & dels & Hhead & Hrun & Hadv & Hsame & Hev & Hwf1).
  cbn [default_send_masked_inputs op_send_masked_input off_chain_ops].
  unfold oc_send_masked_input. rewrite Hrun.
  destruct inputs as [|[i' v'] inputs].
  { injection Hrest as <-. by exists head, d1, log1, d2, dels. }
  destruct (serialize_inputs_cons _ _ _ Hrest) as (b' & rest' & -> & _ & _).
  apply NoDup_cons in Hnd as [Hni Hnd].
  change (as_usize i ∉ as_usize <$> ((i', b') :: rest').*1) in Hni.
  (* an input is still missing, so the rounds stay where they are *)
  assert (try_advance (transition_quorum s) head (written self [(i, b)] d) = Ok (written self [(i, b)] d, []))
    as Hstay.
  { destruct Hallowed as (H1 & _ & _ & H4). apply (try_advance_missing _ _ _ (N.to_nat (as_usize i'))); [done|].
    destruct (H4 i') as [_ Hfree]; [right; by left|]. simpl. rewrite list_lookup_insert_ne; [done|].
    intros Heq. apply Hni, elem_of_cons. left. by apply N2Nat.inj. }
  rewrite Hadv in Hstay. injection Hstay as -> ->.
  destruct (IH ((i', b') :: rest') (put_execution eid d1 s) d1 (log ++ log1))
    as (head' & d3 & log3 & d4 & dels4 & Hhead' & Hloop & Hadv4 & Hsame4 & Hev4 & Hwf3); [done|done| | | | |].
  - simpl. apply lookup_insert_eq.
  - done.
  - apply (same_feed_submission _ _ _ _ Hsame). destruct Hallowed as (H1 & H2 & _ & H4).
    split_and!; [done|by rewrite !length_fmap|done|]. intros j Hj. destruct (H4 j) as [Hown Hfree]; [by right|].
    split; [done|]. simpl. rewrite list_lookup_insert_ne; [done|]. intros Heq. apply Hni.
    apply list_elem_of_fmap. exists j. split; [|done]. apply N2Nat.inj. exact Heq.
  - done.
  - assert (head' = head) as ->.
    { change (roster_head (put_execution eid d1 s)) with (roster_head s) in Hhead'. congruence. }
    destruct (try_advance_ok (transition_quorum s) head (written self ((i, b) :: (i', b') :: rest') d))
      as (d5 & dels5 & Heq5 & _).
    exists head, d3, (log1 ++ log3), d5, dels5. split_and!; [done| |done| | |exact Hwf3].
    + by rewrite Hloop, app_assoc, put_execution_put.
    + transitivity d4; [done|]. rewrite written_cons in Heq5.
      refine (proj1 (try_advance_feed _ _ _ _ _ _ _ _ _ Hadv4 Heq5)). by rewrite Hsame.
    + rewrite Hev4, Hev, <-app_assoc. done.
Qed.

(** A batch that is not allowed changes nothing. *)
Lemma send_all_refused s d log inputs pairs :
  topology_ok (n s) (t s) (mpc_nodes s) → exec_wf (mpc_nodes s) (transition_quorum s) d → executions s !! eid = Some d →
  serialize_inputs serialize_value inputs = Ok pairs → ¬ submission_allowed self d pairs.*2 pairs.*1 →
  send_all inputs (s, log) = ((s, log), Err rpc_failed).
Proof.
  intros Htop Hwf Hd Hser Hno. destruct (roster_head_Ok s Htop) as (head & Hhead & _).
  pose proof (check_submit_batch_iff _ _ self d pairs.*2 pairs.*1 Hwf) as Hiff.
  pose proof (check_submit_batch_no_panic _ _ self d pairs.*2 pairs.*1 Hwf) as Hnp.
  unfold oc_send_masked_inputs. rewrite Hser. unfold call_rpc, submit_masked_inputs. simpl. rewrite Hhead.
  rewrite (with_execution_run _ _ _ d Hd).
  destruct (submit_commit self pairs.*2 pairs.*1 d) as [dc rc] eqn:Hcommit.
  apply submit_commit_cases in Hcommit as [(e & _ & -> & ->)|[(Hc & _)|(Hc & _)]]; simpl.
  - by rewrite put_execution_id, app_nil_r.
  - by rewrite Hc in Hnp.
  - by destruct Hno; apply Hiff.
Qed.

Lemma serialize_inputs_app xs ys l k :
  serialize_inputs serialize_value xs = Ok l → serialize_inputs serialize_value ys = Ok k →
  serialize_inputs serialize_value (xs ++ ys) = Ok (l ++ k).
Proof.
  revert l. induction xs as [|x xs IH]; intros l Hx Hy; [by injection Hx as <-|].
  destruct (serialize_inputs_cons _ _ _ Hx) as (b & rest & -> & Hb & Hrest). specialize (IH _ Hrest Hy).
  unfold serialize_inputs in *. simpl. by rewrite Hb, IH.
Qed.

Lemma send_loop_app xs ys st st' :
  send_loop xs st = (st', Ok tt) → send_loop (xs ++ ys) st = send_loop ys st'.
Proof.
  revert st. induction xs as [|[i v] xs IH]; intros st; simpl; [by intros [= ->]|].
  unfold oc_send_masked_input. destruct (send_all [(i, v)] st) as [st1 [[]| |]]; [apply IH|done..].
Qed.

(** What may not be submitted before a batch may not be submitted after it. *)
Lemma written_may_submit pairs d i : may_submit self (written self pairs d) i → may_submit self d i.
Proof.
  intros [Hr Hm]. split; [exact Hr|]. simpl in Hm. set (ps := prod_map as_usize id <$> pairs) in *.
  destruct (decide (N.of_nat (N.to_nat (as_usize i)) ∈ ps.*1)) as [Hin|Hin]; [exfalso|by rewrite lookup_fill_pairs_ne in Hm].
  destruct (lookup_fill_pairs_elem ps (masked_inputs d) _ Hin) as (v & _ & Hv); [|congruence].
  apply lookup_lt_Some in Hm. by rewrite length_fill_pairs in Hm.
Qed.
End sending.

(** ** Claims *)

(** C22: sending inputs one by one, as the interface's default method does, compared with
    the off-chain client's single batch call.  Of a list of inputs let [sent] be a part at
    the front that the coordinator allows as a batch, with distinct indices, and let it be
    all of the list or be followed by an input that may not be submitted.  The loop sends
    [sent] one by one and leaves the execution as a batch of [sent] would, except for the
    feed, which carries one event per input instead of one, with the same pairs in the
    same order; the intermediate calls cannot start the program, since inputs are missing
    until the last.  If that is all of the list, loop and batch call both succeed.
    Otherwise both fail, and here they differ: the loop has kept [sent], the batch call
    leaves everything as it was. *)
Theorem sending_one_by_one_agrees `{HashOrder} {V} net c (serialize_value : V → option bytes)
    sent rest pairs rest_pairs s d log
    (Hreach : reachable s) (Hd : executions s !! oc_execution_id c = Some d)
    (Hser : serialize_inputs serialize_value sent = Ok pairs)
    (Hser_rest : serialize_inputs serialize_value rest = Ok rest_pairs)
    (Hallowed : submission_allowed (oc_identity c) d pairs.*2 pairs.*1)
    (Hdistinct : NoDup (as_usize <$> pairs.*1))
    (Hrest : ∀ p, head rest_pairs = Some p → ¬ may_submit (oc_identity c) d p.1) :
  ∃ d1 d2 log1 log2,
    oc_send_masked_inputs net c serialize_value sent (s, log) =
      ((put_execution (oc_execution_id c) d1 s, log1), Ok tt) ∧
    default_send_masked_inputs (H := off_chain_ops net c serialize_value) (sent ++ rest) (s, log) =
      ((put_execution (oc_execution_id c) d2 s, log2),
       if bool_decide (rest = []) then Ok tt else Err rpc_failed) ∧
    (rest ≠ [] → oc_send_masked_inputs net c serialize_value (sent ++ rest) (s, log) = ((s, log), Err rpc_failed)) ∧
    same_but_feed d1 d2 ∧
    masked_input_events d1 = masked_input_events d ++ [MaskedInputEvent (oc_identity c) pairs] ∧
    masked_input_events d2 =
      masked_input_events d ++ ((fun p => MaskedInputEvent (oc_identity c) [p]) <$> pairs).
Proof.
  pose proof (sw_topology s (reachable_wf s Hreach)) as Htop.
  pose proof (reachable_exec_wf _ _ _ Hreach Hd) as Hwf.
  destruct (send_all_run net c serialize_value s d log sent pairs Htop Hwf Hd Hser Hallowed)
    as (head & d1 & log1 & d1' & dels1 & Hhead & Hrun & Ha1 & Hs1 & He1 & _).
  destruct (send_loop_run net c serialize_value sent pairs s d log Htop Hwf Hd Hser Hallowed Hdistinct)
    as (head' & d2 & log2 & d2' & dels2 & Hhead' & Hloop & Ha2 & Hs2 & He2 & Hwf2).
  assert (head' = head) as -> by congruence.
  assert (same_but_feed d1 d2) as Hsame.
  { transitivity d1'; [done|]. transitivity d2'; [|done]. congruence. }
  exists d1, d2, (log ++ log1), (log ++ log2). rewrite (send_loop_app _ _ _ _ _ _ _ Hloop).
  destruct rest as [|[i v] rest]; [by split_and!|].
  destruct (serialize_inputs_cons _ _ _ _ Hser_rest) as (b & rest_pairs' & -> & Hb & Hser_rest'). simpl in Hb.
  specialize (Hrest _ eq_refl). simpl in Hrest.
  assert (¬ may_submit (oc_identity c) d2 i) as Hno.
  { intros Hm. apply Hrest, (written_may_submit c pairs).
    destruct (try_advance_ok (transition_quorum s) head (written (oc_identity c) pairs d)) as (d3 & dels & Heq & Hadv & _).
    rewrite Ha2 in Heq. injection Heq as <- <-. pose proof (adv_frame _ _ _ _ _ Hadv) as Hf.
    unfold may_submit in *. pose proof (f_equal reserved_indices Hf) as R1. pose proof (f_equal masked_inputs Hf) as R2.
    pose proof (f_equal reserved_indices Hs2) as R3. pose proof (f_equal masked_inputs Hs2) as R4.
    simpl in R1, R2, R3, R4. by rewrite R3, R1, R4, R2 in Hm. }
  split_and!; [done| | |done..].
  - cbn [default_send_masked_inputs op_send_masked_input off_chain_ops]. unfold oc_send_masked_input.
    rewrite (send_all_refused net c serialize_value (put_execution (oc_execution_id c) d2 s) d2 _ [(i, v)] [(i, b)]);
      [done|done|done|simpl; apply lookup_insert_eq|unfold serialize_inputs; simpl; by rewrite Hb|].
    intros (_ & _ & _ & Hall). apply Hno, Hall. by left.
  - intros _. rewrite (send_all_refused net c serialize_value s d log _ (pairs ++ (i, b) :: rest_pairs')); [done..| |].
    + by apply serialize_inputs_app.
    + intros (_ & _ & _ & Hall). apply Hrest, Hall. rewrite fmap_app. apply elem_of_app. right. by left.
Qed.

(** The default loop does not work for reservations.  Where the off-chain
    client's batch call reserves two or more indices, the interface's default
    method, which reserves them one at a time, fails at the second and leaves
    only the first reserved, because a client that holds a reservation is
    refused another. *)
Theorem reserving_one_by_one_fails `{HashOrder} {V} net c (serialize_value : V → option bytes)
    i j rest s d log
    (Hreach : reachable s) (Hd : executions s !! oc_execution_id c = Some d)
    (Hallowed : reservation_allowed (oc_identity c) d (i :: j :: rest)) :
  (oc_reserve_mask_indices net c (i :: j :: rest) (s, log)).2 = Ok tt ∧
  (oc_reserve_mask_index net c i (s, log)).2 = Ok tt ∧
  default_reserve_mask_indices (H := off_chain_ops net c serialize_value) (i :: j :: rest) (s, log) =
    ((oc_reserve_mask_index net c i (s, log)).1, Err rpc_failed).
Proof.
  pose proof (reachable_exec_wf _ _ _ Hreach Hd) as Hwf.
  assert (reservation_allowed (oc_identity c) d [i]) as Hone.
  { destruct Hallowed as (H1 & _ & H3 & H4). split_and!; [done..|].
    intros k ->%list_elem_of_singleton. apply H4. by left. }
  assert (∀ l, reservation_allowed (oc_identity c) d l →
    ∃ d1 log1, oc_reserve_mask_indices net c l (s, log) =
        ((put_execution (oc_execution_id c) d1 s, log ++ log1), Ok tt) ∧
      reserved_indices d1 = fill (oc_identity c) (as_usize <$> l) (reserved_indices d) ∧
      round d1 = round d) as Hrun.
  { intros l Hl. apply (check_reserve_batch_iff _ _ _ _ _ Hwf) in Hl.
    unfold oc_reserve_mask_indices, call_rpc, reserve_mask_indices. simpl.
    rewrite (with_execution_run _ _ _ d Hd).
    destruct (reserve_batch net (oc_identity c) l d) as [[d1 log1] r1] eqn:Hr. simpl.
    exists d1, log1.
    apply reserve_batch_cases in Hr as [(e & Hc & _)|[(Hc & _)|(_ & -> & Hd1)]]; [congruence..|].
    split; [done|]. simpl in Hd1. case_bool_decide; by destruct Hd1 as [-> _]. }
  destruct (Hrun _ Hallowed) as (db & logb & Hb & _).
  destruct (Hrun _ Hone) as (d1 & log1 & H1 & Hres & Hround). rewrite Hb.
  cbn [default_reserve_mask_indices op_reserve_mask_index off_chain_ops].
  unfold oc_reserve_mask_index. rewrite H1. split_and!; [done..|].
  unfold oc_reserve_mask_indices at 1. unfold call_rpc, reserve_mask_indices. cbn [fst snd].
  rewrite (with_execution_run _ _ _ d1) by (simpl; apply lookup_insert_eq).
  assert (∃ e, check_reserve_batch (oc_identity c) d1 [j] = Err e) as [e He].
  { destruct Hallowed as (Hr & _ & _ & H4). destruct (H4 i) as (Hlt & Hfree & _); [by left|].
    unfold check_reserve_batch. rewrite Hround, (bool_decide_true (round d = _)) by done. simpl.
    assert (existsb (fun owner => bool_decide (owner = Some (oc_identity c))) (reserved_indices d1) = true)
      as ->; [|by eexists].
    apply existsb_exists. exists (Some (oc_identity c)). rewrite bool_decide_eq_true. split; [|done].
    apply list_elem_of_In. apply (list_elem_of_lookup_2 _ (N.to_nat (as_usize i))).
    rewrite Hres. simpl. apply list_lookup_insert_eq. by eapply lookup_lt_Some. }
  unfold reserve_batch. rewrite He. simpl. by rewrite put_execution_put, app_nil_r.
Qed.

(** ** Witnesses *)

(** The client of the samples, connected to their coordinator; a value is a byte. *)
Definition sample_client : OffChainCoordinatorClient := mkOffChainClient client1 sample_eid 1 4 1 [].
Definition byte_value (b : byte) : option bytes := Some [b].

(** A client that owns both slots and has reserved them. *)
Definition two_slots : ExecutionRegistration :=
  mkExecutionRegistration sample_eid sample_hash 2 [client1]
    (mkInputAssignment [client1] [mkInputClientRange 0 2]) 3.
Definition sample_two_slots : Server :=
  let s := (rpc_register_execution party1 two_slots 1 sample_server).1.1 in
  let s := vote_all InputMaskReservation (vote_all Preprocessing s) in
  vote_all InputCollection (reserve_mask_indices all_up client1 sample_eid [0%N; 1%N] s).1.1.

Lemma sample_two_slots_reachable : reachable sample_two_slots.
Proof.
  unfold sample_two_slots. cbv zeta. apply vote_all_reachable.
  eapply reach_step; [|eapply step_reserve, outcome_eta]. do 2 apply vote_all_reachable.
  eapply reach_step; [apply sample_server_reachable|eapply step_register, outcome_eta].
Qed.

(** It sends its two inputs and one for a slot that does not exist. *)
Definition two_inputs : list (u64 * byte) := [(0%N, Byte.x10); (1%N, Byte.x20)].
Definition stray_input : list (u64 * byte) := [(5%N, Byte.x30)].

Lemma sending_one_by_one_agrees_witness :
  ∃ d2 log2,
    default_send_masked_inputs (H := off_chain_ops all_up sample_client byte_value) (two_inputs ++ stray_input)
      (sample_two_slots, []) = ((put_execution sample_eid d2 sample_two_slots, log2), Err rpc_failed) ∧
    oc_send_masked_inputs all_up sample_client byte_value (two_inputs ++ stray_input) (sample_two_slots, []) =
      ((sample_two_slots, []), Err rpc_failed) ∧
    masked_input_events d2 =
      [MaskedInputEvent client1 [(0%N, [Byte.x10])]; MaskedInputEvent client1 [(1%N, [Byte.x20])]].
Proof.
  pose proof (sample_get_Some sample_two_slots ltac:(by vm_compute)) as Hd.
  destruct (sending_one_by_one_agrees all_up sample_client byte_value two_inputs stray_input
    [(0%N, [Byte.x10]); (1%N, [Byte.x20])] [(5%N, [Byte.x30])] sample_two_slots (sample_get sample_two_slots) [])
    as (d1 & d2 & log1 & log2 & _ & Hloop & Hbatch & _ & _ & He2).
  - apply sample_two_slots_reachable.
  - exact Hd.
  - reflexivity.
  - reflexivity.
  - apply (check_submit_batch_iff _ _ client1 _ [[Byte.x10]; [Byte.x20]] [0%N; 1%N]
      (reachable_exec_wf _ _ _ sample_two_slots_reachable Hd)).
    by vm_compute.
  - apply (bool_decide_unpack _). by vm_compute.
  - intros p Hp [Hr _]. injection Hp as <-. revert Hr.
    assert (reserved_indices (sample_get sample_two_slots) !! N.to_nat (as_usize 5) = None) as Hnone by (by vm_compute).
    intros Hr. cbn [fst] in Hr. rewrite Hnone in Hr. discriminate Hr.
  - exists d2, log2. split; [exact Hloop|]. split; [apply Hbatch; discriminate|]. rewrite He2.
    assert (masked_input_events (sample_get sample_two_slots) = []) as -> by (by vm_compute). reflexivity.
Defined.

Lemma reserving_one_by_one_fails_witness :
  (default_reserve_mask_indices (H := off_chain_ops all_up sample_client byte_value) [0%N; 0%N]
    (sample_reserving, [])).2 = Err rpc_failed.
Proof.
  pose proof (sample_get_Some sample_reserving ltac:(by vm_compute)) as Hd.
  destruct (reserving_one_by_one_fails all_up sample_client byte_value 0 0 [] sample_reserving
    (sample_get sample_reserving) []) as (_ & _ & Hloop).
  - apply sample_reserving_reachable.
  - exact Hd.
  - apply (check_reserve_batch_iff _ _ client1 _ [0%N; 0%N]
      (reachable_exec_wf _ _ _ sample_reserving_reachable Hd)).
    by vm_compute.
  - exact (f_equal snd Hloop).
Defined.
