(* ===== verification/Browser.v ===== *)
(** The browser transport: signed requests, the WebAuthn bind ceremony and the
    [browser_*] methods of the coordinator and of a node
    (src/crates/off-chain/src/browser_rpc.rs). *)
From S2P Require Import Prelude Shared Execution Sessions Server Rpc NodeRpc.

(** ** What the transport takes from other crates *)

(** SHA-256, P-256 ECDSA, serde_json and base64, by the functions called. *)
Class Platform : Type := {
  sha256 : bytes → vec byte 32;
  VerifyingKey : Type;
  Signature : Type;
  from_sec1_bytes : bytes → option VerifyingKey;
  from_slice : bytes → option Signature;
  from_der : bytes → option Signature;
  verify : VerifyingKey → bytes → Signature → bool;
  Value : Type;
  value_from_slice : bytes → option Value;
  value_get_str : Value → string → option string;
  base64_decode : string → option bytes;
  base64_encode : vec byte 32 → string }.

Definition str_bytes (s : string) : bytes := String.list_byte_of_string s.

Definition AUTH_DOMAIN : bytes := str_bytes "stoffel-browser-rpc-auth".
Definition BIND_DOMAIN : bytes := str_bytes "stoffel-browser-webauthn-bind-v1".

(** ** Wire data *)

Record SignedBrowserRequest : Type := mkSignedBrowserRequest {
  public_key : bytes;
  created : u64;
  nonce : bytes;
  signature : bytes;
  body : bytes;
  session_token : string }.

Record WebauthnAssertion : Type := mkWebauthnAssertion {
  authenticator_data : bytes;
  client_data_json : bytes;
  assertion_signature : bytes }.

Record BindWebauthnIdentity : Type := mkBindWebauthnIdentity {
  bind_execution_id : ExecutionId;
  bind_assertion : WebauthnAssertion;
  bind_ecdsa_public_key : bytes;
  bind_ecdh_public_key : bytes;
  bind_credential_id : bytes }.

Record BindWebauthnIdentityToNode : Type := mkBindWebauthnIdentityToNode {
  nb_client_identity : ClientIdentity;
  nb_assertion : WebauthnAssertion;
  nb_ecdsa_public_key : bytes;
  nb_ecdh_public_key : bytes }.

Record WebauthnBindingResponse : Type := mkWebauthnBindingResponse {
  resp_session_token : string;
  resp_client_identity : ClientIdentity }.

Record BrowserCall : Type := mkBrowserCall {
  call_execution_id : ExecutionId;
  call_request : SignedBrowserRequest }.

Record MaskRange : Type := mkMaskRange { mr_start : u64; mr_count : u64 }.

Record MaskedInputBatch : Type := mkMaskedInputBatch {
  batch_reserved_indices : list u64;
  batch_masked_inputs : list bytes }.

Record BrowserExecutionStatus : Type := mkBrowserExecutionStatus {
  st_round : Round;
  st_input_indices : list u64;
  st_total_inputs : u64;
  st_reserved_inputs : u64;
  st_submitted_inputs : u64;
  st_total_clients : u64;
  st_submitted_clients : u64;
  st_own_input_reserved : bool;
  st_own_input_submitted : bool;
  st_output_ready : bool }.

Definition unregistered_error : ErrorObject := rpc_error (-32016).
Definition unauthorized_error : ErrorObject := rpc_error (-32012).
Definition mask_share_error : ErrorObject := rpc_error (-32051).
Definition body_error : ErrorObject := rpc_error BAD_BODY.

(** ** The credential index *)

Inductive IoErrorKind : Type := NotFound | OtherIo.

(** A directory entry: its extension and stem, when they are text, and what
    reading the file gives. *)
Record DirEntry : Type := mkDirEntry {
  extension : option string;
  file_stem : option string;
  contents : result IoErrorKind bytes }.

(** [load_credential_id_index]; [read_cert stem] reads [stem.crt]. *)
Fixpoint load_entries (read_cert : string → result IoErrorKind bytes)
    (entries : list (result IoErrorKind DirEntry)) (ix : gmap bytes ClientIdentity)
    : result IoErrorKind (gmap bytes ClientIdentity) :=
  match entries with
  | [] => Ok ix
  | entry :: entries =>
      path ← entry;
      if negb (bool_decide (extension path = Some "id"%string))
      then load_entries read_cert entries ix
      else
        match file_stem path with
        | None => load_entries read_cert entries ix
        | Some stem =>
            credential_id ← contents path;
            match read_cert stem with
            | Ok public_key => load_entries read_cert entries (<[credential_id := public_key]> ix)
            | Err NotFound => load_entries read_cert entries ix
            | Err e => Err e
            | Panic => Panic
            end
        end
  end.

Definition load_credential_id_index (read_cert : string → result IoErrorKind bytes)
    (read_dir : result IoErrorKind (list (result IoErrorKind DirEntry)))
    : result IoErrorKind (gmap bytes ClientIdentity) :=
  match read_dir with
  | Ok entries => load_entries read_cert entries ∅
  | Err NotFound => Ok ∅
  | Err e => Err e
  | Panic => Panic
  end.

(** ** Short-circuiting iterators whose test can fail *)

Fixpoint try_any {E A} (f : A → result E bool) (l : list A) : result E bool :=
  match l with
  | [] => Ok false
  | x :: l => b ← f x; if b : bool then Ok true else try_any f l
  end.

Fixpoint try_all {E A} (f : A → result E bool) (l : list A) : result E bool :=
  match l with
  | [] => Ok true
  | x :: l => b ← f x; if b : bool then try_all f l else Ok false
  end.

Fixpoint try_filter {E A} (f : A → result E bool) (l : list A) : result E (list A) :=
  match l with
  | [] => Ok []
  | x :: l => b ← f x; rest ← try_filter f l; Ok (if b : bool then x :: rest else rest)
  end.

(** [iter.enumerate()] *)
Definition enumerate {A} (l : list A) : list (usize * A) := imap (fun i x => (N.of_nat i, x)) l.

(** The slots of an execution assigned to a client. *)
Definition slots_of (d : Exec) (client : ClientIdentity) : list usize :=
  omap (fun e => if bool_decide (input_slot_client d e.2 = Some client) then Some e.1 else None)
    (enumerate (input_assignments d)).

(** [execution.masked_inputs[index].is_some()] *)
Definition slot_submitted {E} (d : Exec) (i : usize) : result E bool :=
  m ← index (masked_inputs d) i; Ok (is_some m).

Definition slot_reserved_by {E} (d : Exec) (client : ClientIdentity) (i : usize) : result E bool :=
  owner ← index (reserved_indices d) i; Ok (bool_decide (owner = Some client)).

Section browser.
Context `{HashOrder} `{Platform}.

(** ** Signed requests *)

Definition authentication_message (method : string) (eid : ExecutionId) (created : u64)
    (nonce : vec byte 16) (body : bytes) (session_token : string) : bytes :=
  AUTH_DOMAIN ++ [Byte.x00] ++ str_bytes method ++ [Byte.x00] ++ vec_to_list (as_bytes eid) ++
  to_le_bytes 8 created ++ vec_to_list nonce ++ vec_to_list (sha256 body) ++
  str_bytes session_token.

(** The signature check of [authenticate]: the nonce as an array. *)
Definition check_signature (method : string) (call : BrowserCall) : result ErrorObject (vec byte 16) :=
  let request := call_request call in
  nonce ← ok_or (try_into 16 (nonce request)) auth_error;
  key ← ok_or (from_sec1_bytes (public_key request)) auth_error;
  signature ← ok_or (from_slice (signature request)) auth_error;
  let message := authentication_message method (call_execution_id call) (created request) nonce
                   (body request) (session_token request) in
  _ ← ensure (verify key message signature) auth_error;
  Ok nonce.

(** The session lookup of [authenticate]. *)
Definition session_identity (bindings : WebauthnBindings) (request : SignedBrowserRequest)
    : result ErrorObject ClientIdentity :=
  binding ← ok_or (bindings_get bindings (session_token request)) auth_error;
  _ ← ensure (bool_decide (ecdsa_public_key binding = public_key request)) auth_error;
  Ok (client_identity binding).

Definition authenticate (method : string) (call : BrowserCall) (now : u64)
    (nonces : NonceBook) (bindings : WebauthnBindings) : NonceBook * result ErrorObject ClientIdentity :=
  match nonce ← check_signature method call;
        identity ← session_identity bindings (call_request call);
        Ok (nonce, identity) with
  | Ok (nonce, identity) =>
      match nonce_accept nonces (call_execution_id call) identity (created (call_request call))
              nonce now with
      | (nonces, Ok _) => (nonces, Ok identity)
      | (nonces, Err e) => (nonces, Err e)
      | (nonces, Panic) => (nonces, Panic)
      end
  | Err e => (nonces, Err e)
  | Panic => (nonces, Panic)
  end.

Definition webauthn_bind_challenge (ecdsa_public_key ecdh_public_key : bytes) : vec byte 32 :=
  sha256 (BIND_DOMAIN ++ ecdsa_public_key ++ ecdh_public_key).

Definition USER_PRESENT : N := 1.
Definition USER_VERIFIED : N := 4.

Definition verify_webauthn_assertion (assertion : WebauthnAssertion) (candidate_public_key : bytes)
    (expected_rp_id_hash : vec byte 32) (expected_origin : string)
    (expected_challenge : vec byte 32) : result unit u32 :=
  client_data ← ok_or (value_from_slice (client_data_json assertion)) tt;
  _ ← ensure (bool_decide (value_get_str client_data "type" = Some "webauthn.get"%string)) tt;
  _ ← ensure (bool_decide (value_get_str client_data "origin" = Some expected_origin)) tt;
  challenge_b64 ← ok_or (value_get_str client_data "challenge") tt;
  challenge ← ok_or (base64_decode challenge_b64) tt;
  _ ← ensure (bool_decide (challenge = vec_to_list expected_challenge)) tt;
  let data := authenticator_data assertion in
  _ ← ensure (negb (vlen data <? 37)%N) tt;
  _ ← ensure (bool_decide (take 32 data = vec_to_list expected_rp_id_hash)) tt;
  flags ← index data 32;
  _ ← ensure (negb ((N.land (Byte.to_N flags) USER_PRESENT =? 0)%N ||
                    (N.land (Byte.to_N flags) USER_VERIFIED =? 0)%N)) tt;
  count_bytes ← expect (try_into 4 (take 4 (drop 33 data)));
  let sign_count := from_be_bytes (vec_to_list count_bytes) in
  key ← ok_or (from_sec1_bytes candidate_public_key) tt;
  signature ← ok_or (from_der (assertion_signature assertion)) tt;
  let signed := data ++ vec_to_list (sha256 (client_data_json assertion)) in
  _ ← ensure (verify key signed signature) tt;
  Ok sign_count.

(** ** The coordinator's browser methods *)

(** The bindings are the coordinator's own table. *)
Record CoordinatorBrowserState : Type := mkCoordBrowser {
  coordinator : Server;
  cb_nonces : NonceBook;
  cb_sign_counts : SignCounts;
  cb_rp_id_hash : vec byte 32;
  cb_origin : string;
  credential_id_index : gmap bytes ClientIdentity }.

#[export] Instance coord_browser_eta : Eta CoordinatorBrowserState := fun c =>
  mkCoordBrowser (coordinator c) (cb_nonces c) (cb_sign_counts c) (cb_rp_id_hash c) (cb_origin c)
    (credential_id_index c).

Definition cb_bindings (c : CoordinatorBrowserState) : WebauthnBindings :=
  webauthn_bindings (coordinator c).

(** [coordinator_browser_methods]: the initial state; an index that cannot be
    loaded is empty. *)
Definition coordinator_browser_state (s : Server) (rp_id : string)
    (index : option (result IoErrorKind (gmap bytes ClientIdentity))) : CoordinatorBrowserState :=
  mkCoordBrowser s NonceBook_default SignCounts_default (sha256 (str_bytes rp_id))
    ("https://" ++ rp_id)%string
    match index with Some (Ok index) => index | _ => ∅ end.

(** What a browser call did. *)
Abbreviation BrowserOutcome A := (CoordinatorBrowserState * list Send * result ErrorObject A)%type.

(** Authenticate, then run [f] as the authenticated identity. *)
Definition as_identity {A} (method : string) (call : BrowserCall) (now : u64)
    (f : ClientIdentity → CoordinatorBrowserState → BrowserOutcome A) (c : CoordinatorBrowserState)
    : BrowserOutcome A :=
  match authenticate method call now (cb_nonces c) (cb_bindings c) with
  | (nonces, Ok identity) => f identity (c <| cb_nonces := nonces |>)
  | (nonces, Err e) => (c <| cb_nonces := nonces |>, [], Err e)
  | (nonces, Panic) => (c <| cb_nonces := nonces |>, [], Panic)
  end.

(** Run a coordinator call with the parsed body as its argument. *)
Definition with_body {A B} (decode : bytes → option A) (call : BrowserCall)
    (f : A → Server → Outcome B) (c : CoordinatorBrowserState) : BrowserOutcome B :=
  match decode (body (call_request call)) with
  | None => (c, [], Err body_error)
  | Some a =>
      let '(s, log, r) := f a (coordinator c) in (c <| coordinator := s |>, log, r)
  end.

(** [CoordinatorRPCServerSharedBase::browser_execution_status] *)
Definition browser_execution_status (eid : ExecutionId) (client : ClientIdentity) (s : Server)
    : result ErrorObject BrowserExecutionStatus :=
  d ← ok_or (executions s !! eid) unregistered_error;
  let input_indices := slots_of d client in
  let authorized_for_output := contains (output_clients d) client in
  _ ← ensure (negb (bool_decide (input_indices = []) && negb authorized_for_output))
        unauthorized_error;
  own_input_reserved ← (if bool_decide (input_indices = []) then Ok false
                        else try_all (slot_reserved_by d client) input_indices);
  own_input_submitted ← (if bool_decide (input_indices = []) then Ok false
                         else try_all (slot_submitted d) input_indices);
  let output_share_count := vlen (filter (fun k => k.1 = client) (map_iter (output_shares d)).*1) in
  let assigned_clients : gset ClientIdentity :=
    list_to_set (omap (input_slot_client d) (input_assignments d)) in
  submitted ← try_filter (fun candidate => try_all (slot_submitted d) (slots_of d candidate))
                (set_iter assigned_clients);
  Ok {| st_round := round d;
        st_input_indices := input_indices;
        st_total_inputs := n_inputs (registration d);
        st_reserved_inputs := N.of_nat (count_some (reserved_indices d));
        st_submitted_inputs := N.of_nat (count_some (masked_inputs d));
        st_total_clients := N.of_nat (size assigned_clients);
        st_submitted_clients := vlen submitted;
        st_own_input_reserved := own_input_reserved;
        st_own_input_submitted := own_input_submitted;
        st_output_ready := authorized_for_output &&
          (as_usize (min_output_shares (registration d)) <=? output_share_count)%N |}.

(** [browser_round] *)
Definition browser_round (eid : ExecutionId) (s : Server) : result ErrorObject Round :=
  ok_or (round <$> executions s !! eid) unregistered_error.

(** [browser_output_shares] *)
Definition browser_output_shares (eid : ExecutionId) (client : ClientIdentity) (s : Server)
    : result ErrorObject (option (list (bytes * bytes))) :=
  d ← ok_or (executions s !! eid) unregistered_error;
  _ ← ensure (contains (output_clients d) client) unauthorized_error;
  let shares := shares_for d client in
  if (vlen shares <? as_usize (min_output_shares (registration d)))%N then Ok None
  else Ok (Some shares).

(** The registered methods. *)
Definition execution_status_method (call : BrowserCall) (now : u64) :=
  as_identity "browser_execution_status" call now (fun identity c =>
    (c, [], browser_execution_status (call_execution_id call) identity (coordinator c))).

Definition reserve_mask_indices_method (decode : bytes → option (list u64)) (net : Net)
    (call : BrowserCall) (now : u64) :=
  as_identity "browser_reserve_mask_indices" call now (fun identity =>
    with_body decode call (fun indices =>
      reserve_mask_indices net identity (call_execution_id call) indices)).

(** After a successful submission the session's own binding is recorded again. *)
Definition submit_masked_inputs_method (decode : bytes → option MaskedInputBatch) (net : Net)
    (call : BrowserCall) (now : u64) :=
  as_identity "browser_submit_masked_inputs" call now (fun identity =>
    with_body decode call (fun batch s =>
      let '(s, log, r) := submit_masked_inputs net identity (call_execution_id call)
        (batch_masked_inputs batch) (batch_reserved_indices batch) s in
      match r with
      | Ok _ =>
          (s <| webauthn_bindings ::= fun b =>
                  pin_binding_from_token b (call_execution_id call) (session_token (call_request call)) |>,
           log, Ok tt)
      | _ => (s, log, r)
      end)).

Definition output_shares_method (call : BrowserCall) (now : u64) :=
  as_identity "browser_output_shares" call now (fun identity c =>
    (c, [], browser_output_shares (call_execution_id call) identity (coordinator c))).

(** ** The bind ceremony *)

(** Every identity admitted to the execution. *)
Definition bind_candidates (d : Exec) : gset ClientIdentity :=
  list_to_set (omap (input_slot_client d) (input_assignments d) ++ output_clients d).

(** The first candidate whose key verifies the assertion. *)
Fixpoint find_verifying (verify1 : ClientIdentity → result unit u32) (l : list ClientIdentity)
    : option (ClientIdentity * u32) :=
  match l with
  | [] => None
  | x :: l => match verify1 x with Ok k => Some (x, k) | _ => find_verifying verify1 l end
  end.

Definition indexed_match (index : gmap bytes ClientIdentity) (candidates : gset ClientIdentity)
    (verify1 : ClientIdentity → result unit u32) (credential_id : bytes)
    : option (ClientIdentity * u32) :=
  if bool_decide (credential_id = []) then None
  else
    match index !! credential_id with
    | Some candidate =>
        if bool_decide (candidate ∈ candidates)
        then match verify1 candidate with Ok k => Some (candidate, k) | _ => None end
        else None
    | None => None
    end.

(** The first segment of the bind handler, under the coordinator lock: the
    identity that made the assertion and its signature counter. *)
Definition bind_check (call : BindWebauthnIdentity) (c : CoordinatorBrowserState)
    : result ErrorObject (ClientIdentity * u32) :=
  d ← ok_or (executions (coordinator c) !! bind_execution_id call) unregistered_error;
  let candidates := bind_candidates d in
  let challenge := webauthn_bind_challenge (bind_ecdsa_public_key call) (bind_ecdh_public_key call) in
  let verify1 candidate := verify_webauthn_assertion (bind_assertion call) candidate
                             (cb_rp_id_hash c) (cb_origin c) challenge in
  found ← match indexed_match (credential_id_index c) candidates verify1 (bind_credential_id call) with
          | Some found => Ok found
          | None => ok_or (find_verifying verify1 (set_iter candidates)) auth_error
          end;
  already_submitted ← try_any (slot_submitted d) (slots_of d found.1);
  _ ← ensure (negb already_submitted) auth_error;
  Ok found.

(** The second segment, under the lock of the counters. *)
Definition bind_count (found : ClientIdentity * u32) (c : CoordinatorBrowserState)
    : CoordinatorBrowserState * result ErrorObject unit :=
  let '(counts, r) := sign_count_accept (cb_sign_counts c) found.1 found.2 in
  (c <| cb_sign_counts := counts |>, r).

(** The third segment, under the lock of the bindings; [None] when the token
    draws given are used up. *)
Definition bind_insert (call : BindWebauthnIdentity) (identity : ClientIdentity)
    (draws : list (vec byte 32)) (c : CoordinatorBrowserState)
    : option (CoordinatorBrowserState * WebauthnBindingResponse) :=
  let binding := mkWebauthnBinding identity (bind_ecdsa_public_key call) (bind_ecdh_public_key call) in
  '(token, b) ← bindings_insert base64_encode draws (Some (bind_execution_id call)) binding
                  (cb_bindings c);
  Some (c <| coordinator ::= fun s => s <| webauthn_bindings := b |> |>,
        mkWebauthnBindingResponse token identity).

(** The uninterrupted handler. *)
Definition bind_webauthn_identity_method (call : BindWebauthnIdentity) (draws : list (vec byte 32))
    (c : CoordinatorBrowserState)
    : option (CoordinatorBrowserState * result ErrorObject WebauthnBindingResponse) :=
  match bind_check call c with
  | Ok found =>
      match bind_count found c with
      | (c, Ok _) => '(c, response) ← bind_insert call found.1 draws c; Some (c, Ok response)
      | (c, Err e) => Some (c, Err e)
      | (c, Panic) => Some (c, Panic)
      end
  | Err e => Some (c, Err e)
  | Panic => Some (c, Panic)
  end.

(** ** A node's browser methods *)

Record NodeBrowserState : Type := mkNodeBrowser {
  node : NodeRPCServerInternal;
  nb_nonces : NonceBook;
  nb_bindings : WebauthnBindings;
  nb_sign_counts : SignCounts;
  nb_rp_id_hash : vec byte 32;
  nb_origin : string }.

#[export] Instance node_browser_eta : Eta NodeBrowserState := fun c =>
  mkNodeBrowser (node c) (nb_nonces c) (nb_bindings c) (nb_sign_counts c) (nb_rp_id_hash c)
    (nb_origin c).

(** [node_browser_methods] *)
Definition node_browser_state (node : NodeRPCServerInternal) (rp_id : string) : NodeBrowserState :=
  mkNodeBrowser node NonceBook_default WebauthnBindings_default SignCounts_default
    (sha256 (str_bytes rp_id)) ("https://" ++ rp_id)%string.

(** The share lookup; the state object is read under its lock. *)
Definition browser_mask_shares (eid : ExecutionId) (identity : ClientIdentity) (range : MaskRange)
    (s : NodeRPCServerInternal) : result ErrorObject (option (list AssignedMaskShare)) :=
  ref ← ok_or (node_execution_state s eid) unregistered_error;
  d ← expect (node_heap s !! ref);
  map_err (fun _ => mask_share_error)
    (assigned_mask_shares_for_client d identity (mr_start range) (mr_count range)).

Definition assigned_mask_shares_method (decode : bytes → option MaskRange) (call : BrowserCall)
    (now : u64) (c : NodeBrowserState)
    : NodeBrowserState * result ErrorObject (option (list AssignedMaskShare)) :=
  let '(nonces, r) := authenticate "browser_assigned_mask_shares" call now (nb_nonces c) (nb_bindings c) in
  let c := c <| nb_nonces := nonces |> in
  (c, identity ← r;
      range ← ok_or (decode (body (call_request call))) body_error;
      browser_mask_shares (call_execution_id call) identity range (node c)).

Definition node_bind_method (call : BindWebauthnIdentityToNode) (draws : list (vec byte 32))
    (c : NodeBrowserState) : option (NodeBrowserState * result ErrorObject WebauthnBindingResponse) :=
  let challenge := webauthn_bind_challenge (nb_ecdsa_public_key call) (nb_ecdh_public_key call) in
  match map_err (fun _ => auth_error)
          (verify_webauthn_assertion (nb_assertion call) (nb_client_identity call)
             (nb_rp_id_hash c) (nb_origin c) challenge) with
  | Ok sign_count =>
      let '(counts, r) := sign_count_accept (nb_sign_counts c) (nb_client_identity call) sign_count in
      let c := c <| nb_sign_counts := counts |> in
      match r with
      | Ok _ =>
          let binding := mkWebauthnBinding (nb_client_identity call) (nb_ecdsa_public_key call)
                           (nb_ecdh_public_key call) in
          '(token, b) ← bindings_insert base64_encode draws None binding (nb_bindings c);
          Some (c <| nb_bindings := b |>,
                Ok (mkWebauthnBindingResponse token (nb_client_identity call)))
      | Err e => Some (c, Err e)
      | Panic => Some (c, Panic)
      end
  | Err e => Some (c, Err e)
  | Panic => Some (c, Panic)
  end.
End browser.
