(* ===== verification/BrowserSamples.v ===== *)
(** A concrete platform and concrete browser sessions on which the theorems about
    the browser transport are exercised.  A signature of the sample platform is
    the key that made it. *)
From S2P Require Import Prelude Shared Execution Samples Rounds Sessions Server Rpc ServerSamples.
From S2P Require Import Invariant History Topology Machine Inputs NodeRpc Browser.

#[export] Instance sample_platform : Platform := {|
  sha256 _ := vreplicate 32 Byte.x07;
  VerifyingKey := bytes;
  Signature := bytes;
  from_sec1_bytes := Some;
  from_slice := Some;
  from_der := Some;
  verify key _ signature := bool_decide (key = signature);
  Value := unit;
  value_from_slice _ := Some tt;
  value_get_str _ field :=
    if String.eqb field "type" then Some "webauthn.get"%string
    else if String.eqb field "origin" then Some "https://vote.example"%string
    else Some ""%string;
  base64_decode _ := Some (replicate 32 Byte.x07);
  base64_encode bytes := String.string_of_list_byte (vec_to_list bytes) |}.

(** An assertion of [identity], user present and verified. *)
Definition sample_assertion (identity : ClientIdentity) (count : byte) : WebauthnAssertion :=
  mkWebauthnAssertion
    (replicate 32 Byte.x07 ++ [Byte.x05; Byte.x00; Byte.x00; Byte.x00; count]) [] identity.

(** A bind call of [client1] for the encryption key [ecdh]. *)
Definition sample_bind (ecdh : bytes) (count : byte) : BindWebauthnIdentity :=
  mkBindWebauthnIdentity sample_eid (sample_assertion client1 count) [Byte.x0a] ecdh [].

Definition sample_draw (b : byte) : vec byte 32 := vreplicate 32 b.
Definition sample_token : string := base64_encode (sample_draw Byte.x41).

Definition sample_listener : CoordinatorBrowserState :=
  coordinator_browser_state sample_collecting_run "vote.example" None.

(** The listener after [client1] opened a session with the encryption key [0c]. *)
Definition sample_bound : CoordinatorBrowserState :=
  match bind_webauthn_identity_method (sample_bind [Byte.x0c] Byte.x01) [sample_draw Byte.x41]
          sample_listener with
  | Some (c, _) => c
  | None => sample_listener
  end.

(** A call signed in that session. *)
Definition sample_call : BrowserCall :=
  mkBrowserCall sample_eid
    (mkSignedBrowserRequest [Byte.x0a] 1000 (replicate 16 Byte.x01) [Byte.x0a] [] sample_token).

Definition sample_decode (body : bytes) : option MaskedInputBatch :=
  Some (mkMaskedInputBatch [0%N] [[Byte.x10]]).

Abbreviation sample_submission :=
  (submit_masked_inputs_method sample_decode all_up sample_call 1010 sample_bound).
