(* ===== verification/BrowserFacts.v ===== *)
(** What the browser transport guarantees: a signed request determines what it
    asks for, a session acts only for the identity that authorised it, and the
    bind ceremony admits roster identities only. *)
From S2P Require Import Prelude Shared Execution Samples Rounds Sessions Server Rpc ServerSamples.
From S2P Require Import Invariant History Topology Machine Inputs NodeRpc Browser BrowserSamples.

(** ** Encodings *)

Lemma str_bytes_inj s1 s2 : str_bytes s1 = str_bytes s2 → s1 = s2.
Proof.
  intros Heq. rewrite <-(String.string_of_list_byte_of_string s1),
    <-(String.string_of_list_byte_of_string s2). by apply (f_equal String.string_of_list_byte).
Qed.

Lemma split_at_zero (a b x y : bytes) :
  Byte.x00 ∉ a → Byte.x00 ∉ b → a ++ [Byte.x00] ++ x = b ++ [Byte.x00] ++ y → a = b ∧ x = y.
Proof.
  revert b. induction a as [|c a IH]; intros [|c' b] Ha Hb Heq; simpl in *; simplify_eq.
  - done.
  - exfalso. apply Hb. left.
  - exfalso. apply Ha. left.
  - rewrite not_elem_of_cons in Ha, Hb. destruct (IH b) as [-> ->]; [naive_solver..|done].
Qed.

Lemma length_to_le_bytes n x : length (to_le_bytes n x) = n.
Proof. revert x. induction n as [|n IH]; intros x; simpl; [done|]. by rewrite IH. Qed.

Lemma byte_of_mod x : ∃ b, Byte.of_N (x mod 256) = Some b ∧ Byte.to_N b = (x mod 256)%N.
Proof.
  assert (x mod 256 < 256)%N as Hlt by (by apply N.mod_lt).
  destruct (Byte.of_N (x mod 256)) as [b|] eqn:Hb.
  - exists b. split; [done|]. by apply Byte.to_of_N.
  - apply Byte.of_N_None_iff in Hb. lia.
Qed.

Lemma to_le_bytes_inj n x y :
  (x < 256 ^ N.of_nat n)%N → (y < 256 ^ N.of_nat n)%N → to_le_bytes n x = to_le_bytes n y → x = y.
Proof.
  revert x y. induction n as [|n IH]; intros x y Hx Hy Heq.
  { simpl in *. lia. }
  rewrite Nat2N.inj_succ, N.pow_succ_r' in Hx, Hy. simpl in Heq.
  destruct (byte_of_mod x) as (bx & Hbx & Hx'), (byte_of_mod y) as (by_ & Hby & Hy').
  rewrite Hbx, Hby in Heq. simpl in Heq. injection Heq as -> Heq.
  apply IH in Heq; [|apply N.Div0.div_lt_upper_bound; lia..].
  rewrite (N.div_mod' x 256), (N.div_mod' y 256). congruence.
Qed.

Lemma vec_to_list_inj' {A n} (v w : vec A n) : vec_to_list v = vec_to_list w → v = w.
Proof. apply vec_to_list_inj2. Qed.

(** ** Iterators *)

Lemma try_any_total {E A} (f : A → result E bool) (g : A → bool) l :
  (∀ x, x ∈ l → f x = Ok (g x)) → try_any f l = Ok (existsb g l).
Proof.
  induction l as [|x l IH]; intros Hf; simpl; [done|].
  rewrite Hf by left. simpl. destruct (g x); simpl; [done|]. apply IH. intros y ?. apply Hf. by right.
Qed.

Lemma try_all_total {E A} (f : A → result E bool) (g : A → bool) l :
  (∀ x, x ∈ l → f x = Ok (g x)) → try_all f l = Ok (forallb g l).
Proof.
  induction l as [|x l IH]; intros Hf; simpl; [done|].
  rewrite Hf by left. simpl. destruct (g x); simpl; [|done]. apply IH. intros y ?. apply Hf. by right.
Qed.

Lemma try_filter_total {E A} (f : A → result E bool) (g : A → bool) l :
  (∀ x, x ∈ l → f x = Ok (g x)) → try_filter f l = Ok (filter (fun x => g x = true) l).
Proof.
  induction l as [|x l IH]; intros Hf; simpl; [done|].
  rewrite Hf by left. simpl. rewrite IH by (intros y ?; apply Hf; by right). simpl. rewrite filter_cons.
  destruct (g x); case_decide; done.
Qed.

Lemma elem_of_slots_of d client i :
  i ∈ slots_of d client ↔
  ∃ slot, input_assignments d !! N.to_nat i = Some slot ∧ input_slot_client d slot = Some client.
Proof.
  unfold slots_of, enumerate. rewrite list_elem_of_omap. split.
  - intros ([k slot] & (j & slot' & [= -> ->] & Hj)%elem_of_lookup_imap & Hs). simpl in *.
    case_bool_decide; simplify_eq. rewrite Nat2N.id. eauto.
  - intros (slot & Hl & Hs). exists (i, slot). split.
    + apply elem_of_lookup_imap. exists (N.to_nat i), slot. by rewrite N2Nat.id.
    + simpl. by rewrite bool_decide_true.
Qed.

(** [vec[i].is_some()] in range. *)
Definition submitted_at (d : Exec) (i : usize) : bool :=
  match masked_inputs d !! N.to_nat i with Some (Some _) => true | _ => false end.
Definition reserved_at (d : Exec) (client : ClientIdentity) (i : usize) : bool :=
  bool_decide (reserved_indices d !! N.to_nat i = Some (Some client)).

(** ** The slots of a well-formed execution *)

Section slots.
Context `{HashOrder}.
Context (nodes : list ClientIdentity) (q : usize) (d : Exec).
Hypothesis Hwf : exec_wf nodes q d.

Lemma assignments_cover : input_assignments d = [] ∨ vlen (input_assignments d) = n_inputs (registration d).
Proof.
  pose proof (wf_slots _ _ _ Hwf) as Hs. destruct (wf_coverage _ _ _ Hwf) as [Hr|Hc].
  - left. by rewrite Hs, Hr.
  - right. rewrite Hc, u64_sum_mod, <-vlen_expand_ranges, <-Hs.
    symmetry. apply N.mod_small. pose proof (slots_fit _ _ _ Hwf). unfold isize_max, u64_modulus in *. lia.
Qed.

Lemma slot_in_range client i :
  i ∈ slots_of d client →
  (∃ m, masked_inputs d !! N.to_nat i = Some m) ∧ (∃ o, reserved_indices d !! N.to_nat i = Some o).
Proof.
  intros (slot & Hl & _)%elem_of_slots_of. pose proof (wf_masked_len _ _ _ Hwf) as Hm.
  pose proof (wf_reserved_len _ _ _ Hwf) as Hr. pose proof (lookup_lt_Some _ _ _ Hl) as Hlt.
  destruct assignments_cover as [Hc|Hc]; [rewrite Hc in Hl; done|]. unfold vlen in *.
  split; apply lookup_lt_is_Some_2; lia.
Qed.

Lemma slot_submitted_total {E} client i :
  i ∈ slots_of d client → slot_submitted (E := E) d i = Ok (submitted_at d i).
Proof.
  intros Hi. destruct (slot_in_range client i Hi) as [[m Hm] _].
  unfold slot_submitted, submitted_at, index. rewrite Hm. by destruct m.
Qed.

Lemma slot_reserved_total {E} client i :
  i ∈ slots_of d client → slot_reserved_by (E := E) d client i = Ok (reserved_at d client i).
Proof.
  intros Hi. destruct (slot_in_range client i Hi) as [_ [o Ho]].
  unfold slot_reserved_by, reserved_at, index. rewrite Ho. simpl. f_equal.
  apply bool_decide_ext. naive_solver.
Qed.

Lemma submitted_slots_total {E} client :
  try_all (E := E) (slot_submitted d) (slots_of d client) =
    Ok (forallb (submitted_at d) (slots_of d client)).
Proof. apply try_all_total. intros i. apply slot_submitted_total. Qed.
End slots.

(** ** Sessions over time *)

Section sessions.
Context `{HashOrder} `{Platform}.
Implicit Types c : CoordinatorBrowserState.

(** The signature and session checks, as one proposition. *)
Definition signed_by_session (method : string) (call : BrowserCall) (b : WebauthnBindings)
    (identity : ClientIdentity) : Prop :=
  ∃ nonce key signature binding,
    try_into 16 (Browser.nonce (call_request call)) = Some nonce ∧
    from_sec1_bytes (public_key (call_request call)) = Some key ∧
    from_slice (Browser.signature (call_request call)) = Some signature ∧
    verify key (authentication_message method (call_execution_id call) (created (call_request call))
                  nonce (body (call_request call)) (session_token (call_request call))) signature = true ∧
    bindings_get b (session_token (call_request call)) = Some binding ∧
    ecdsa_public_key binding = public_key (call_request call) ∧ client_identity binding = identity.

Lemma authenticate_Ok_inv method call now nonces b nonces' identity :
  authenticate method call now nonces b = (nonces', Ok identity) →
  signed_by_session method call b identity.
Proof.
  unfold authenticate. intros Ha.
  destruct (nonce ← check_signature method call; _) as [[nonce id]| |] eqn:Hc; [|done..].
  destruct (nonce_accept _ _ _ _ _ _) as [? [?|?|]]; simplify_eq.
  unfold check_signature, session_identity in Hc. inv_ok. simplify_eq.
  repeat match goal with Hb : bool_decide _ = true |- _ => apply bool_decide_eq_true in Hb end.
  simplify_eq. by repeat eexists.
Qed.

(** A ceremony: an assertion of [identity] that covers the two keys. *)
Definition ceremony c (identity : ClientIdentity) (ecdsa ecdh : bytes) : Prop :=
  ∃ assertion count,
    verify_webauthn_assertion assertion identity (cb_rp_id_hash c) (cb_origin c)
      (webauthn_bind_challenge ecdsa ecdh) = Ok count.

Definition authorised c (b : WebauthnBinding) : Prop :=
  ceremony c (client_identity b) (ecdsa_public_key b) (ecdh_public_key b).

Lemma find_verifying_Some f l x k : find_verifying f l = Some (x, k) → x ∈ l ∧ f x = Ok k.
Proof.
  induction l as [|y l IH]; simpl; [done|].
  destruct (f y) eqn:Hy; intros Hf; simplify_eq; try (apply IH in Hf as [??]; split; [by right|done]).
  split; [left|done].
Qed.

Lemma indexed_match_Some ix cands f cred x k :
  indexed_match ix cands f cred = Some (x, k) → x ∈ cands ∧ f x = Ok k.
Proof. unfold indexed_match. intros Hm. repeat case_match; simplify_eq. by case_bool_decide. Qed.

(** The assertion check of a bind call against one candidate. *)
Definition bind_verifies (call : BindWebauthnIdentity) c (candidate : ClientIdentity) : result unit u32 :=
  verify_webauthn_assertion (bind_assertion call) candidate (cb_rp_id_hash c) (cb_origin c)
    (webauthn_bind_challenge (bind_ecdsa_public_key call) (bind_ecdh_public_key call)).

Lemma bind_check_Ok_inv call c identity k :
  bind_check call c = Ok (identity, k) →
  ∃ d, executions (coordinator c) !! bind_execution_id call = Some d ∧
    identity ∈ bind_candidates d ∧ bind_verifies call c identity = Ok k ∧
    try_any (E := ErrorObject) (slot_submitted d) (slots_of d identity) = Ok false.
Proof.
  unfold bind_check. intros Hb. inv_ok. simplify_eq. reflect_bool. simplify_eq.
  match goal with Hd : executions _ !! _ = Some ?d |- _ => exists d; split; [done|] end.
  assert (identity ∈ bind_candidates a ∧ bind_verifies call c identity = Ok k) as [??]; [|done].
  destruct (indexed_match _ _ _ _) as [[x k']|] eqn:Hm; simplify_eq.
  - by apply indexed_match_Some in Hm.
  - inv_ok. match goal with Hf : find_verifying _ _ = _ |- _ => apply find_verifying_Some in Hf as [Hin ?] end.
    split; [|done]. rewrite set_iter_perm in Hin. by apply elem_of_elements.
Qed.

(** Bind ceremonies in progress: checked but not counted yet, and counted but not
    recorded yet. *)
Record BrowserWorld : Type := mkBrowserWorld {
  bw_state : CoordinatorBrowserState;
  bw_checked : list (BindWebauthnIdentity * (ClientIdentity * u32));
  bw_counted : list (BindWebauthnIdentity * ClientIdentity) }.

(** The segments of the browser methods and of the native transport, in any
    order.  A submission pins the binding of any token: the segment itself does
    not depend on the submission. *)
Inductive browser_step (w : BrowserWorld) : BrowserWorld → Prop :=
  | bs_authenticate method call now nonces r :
      authenticate method call now (cb_nonces (bw_state w)) (cb_bindings (bw_state w)) = (nonces, r) →
      browser_step w (mkBrowserWorld ((bw_state w) <| cb_nonces := nonces |>) (bw_checked w) (bw_counted w))
  | bs_coordinator s :
      step (coordinator (bw_state w)) s → webauthn_bindings s = cb_bindings (bw_state w) →
      browser_step w (mkBrowserWorld ((bw_state w) <| coordinator := s |>) (bw_checked w) (bw_counted w))
  | bs_pin eid token :
      browser_step w (mkBrowserWorld
        ((bw_state w) <| coordinator ::= fun s => s <| webauthn_bindings ::= fun b =>
           pin_binding_from_token b eid token |> |>) (bw_checked w) (bw_counted w))
  | bs_bind_check call found :
      bind_check call (bw_state w) = Ok found →
      browser_step w (mkBrowserWorld (bw_state w) ((call, found) :: bw_checked w) (bw_counted w))
  | bs_bind_count call found rest c :
      bw_checked w ≡ₚ (call, found) :: rest → bind_count found (bw_state w) = (c, Ok tt) →
      browser_step w (mkBrowserWorld c rest ((call, found.1) :: bw_counted w))
  | bs_bind_insert call identity rest draws c response :
      bw_counted w ≡ₚ (call, identity) :: rest →
      bind_insert call identity draws (bw_state w) = Some (c, response) →
      browser_step w (mkBrowserWorld c (bw_checked w) rest).

(** A coordinator whose browser listener starts with no sessions. *)
Definition browser_initial (w : BrowserWorld) : Prop :=
  ∃ s rp_id ix, webauthn_bindings s = WebauthnBindings_default ∧
    w = mkBrowserWorld (coordinator_browser_state s rp_id ix) [] [].

Definition browser_reachable (w : BrowserWorld) : Prop :=
  ∃ w0, browser_initial w0 ∧ rtc browser_step w0 w.

(** Every recorded or pending binding was authorised by its identity. *)
Record bindings_ok (w : BrowserWorld) : Prop := {
  bo_tokens : ∀ token b, by_token (cb_bindings (bw_state w)) !! token = Some b →
    authorised (bw_state w) b;
  bo_pinned : ∀ eid id b,
    by_execution_and_client_identity (cb_bindings (bw_state w)) !! (eid, id) = Some b →
    client_identity b = id ∧ authorised (bw_state w) b;
  bo_checked : ∀ call found, (call, found) ∈ bw_checked w →
    ceremony (bw_state w) found.1 (bind_ecdsa_public_key call) (bind_ecdh_public_key call);
  bo_counted : ∀ call identity, (call, identity) ∈ bw_counted w →
    ceremony (bw_state w) identity (bind_ecdsa_public_key call) (bind_ecdh_public_key call) }.

Lemma bindings_insert_inv encode draws eid binding b token b' :
  bindings_insert encode draws eid binding b = Some (token, b') →
  by_token b !! token = None ∧ by_token b' = <[token := binding]> (by_token b) ∧
  by_execution_and_client_identity b' =
    match eid with
    | Some eid => <[(eid, client_identity binding) := binding]> (by_execution_and_client_identity b)
    | None => by_execution_and_client_identity b
    end.
Proof.
  induction draws as [|draw draws IH]; simpl; [done|].
  destruct (by_token b !! encode draw) eqn:Ht; [apply IH|]. intros [= <- <-]. by destruct eid.
Qed.

Lemma pin_binding_inv b eid token e id x :
  by_execution_and_client_identity (pin_binding_from_token b eid token) !! (e, id) = Some x →
  by_execution_and_client_identity b !! (e, id) = Some x ∨
  by_token b !! token = Some x ∧ e = eid ∧ id = client_identity x.
Proof.
  unfold pin_binding_from_token. destruct (by_token b !! token) as [y|]; simpl; [|by left].
  rewrite lookup_insert. case_decide; [|by left]. intros [= ->]. right. by simplify_eq.
Qed.

Lemma pin_by_token b eid token : by_token (pin_binding_from_token b eid token) = by_token b.
Proof. unfold pin_binding_from_token. by destruct (by_token b !! token). Qed.

(** Replacing the coordinator keeps the invariant if its bindings stay. *)
Definition with_coordinator (s : Server) (w : BrowserWorld) : BrowserWorld :=
  mkBrowserWorld ((bw_state w) <| coordinator := s |>) (bw_checked w) (bw_counted w).

Lemma with_coordinator_ok w s :
  bindings_ok w → webauthn_bindings s = cb_bindings (bw_state w) → bindings_ok (with_coordinator s w).
Proof.
  intros [Ht Hp Hc Hn] Hs. unfold cb_bindings in *.
  constructor; simpl; [intros token b|intros eid id b|exact Hc|exact Hn];
    unfold cb_bindings; simpl; rewrite Hs; [apply Ht|apply Hp].
Qed.

Lemma browser_step_ok w w' : bindings_ok w → browser_step w w' → bindings_ok w'.
Proof.
  intros Hok Hstep. pose proof Hok as [Ht Hp Hc Hn].
  destruct Hstep as [method call now nonces r Ha|s _ Hs|eid token|call [id k] Hk|call [id k] rest c Hperm Hb
    |call id rest draws c resp Hperm Hb].
  - by constructor.
  - by apply with_coordinator_ok.
  - constructor; simpl; [| |exact Hc|exact Hn].
    + intros tk b. unfold cb_bindings. simpl. rewrite pin_by_token. apply Ht.
    + intros e id b [Hb|(Hb & -> & ->)]%pin_binding_inv; [by eapply Hp|].
      split; [done|]. by eapply Ht.
  - constructor; simpl; [exact Ht|exact Hp| |exact Hn]. intros call' found [[= -> ->]|Hin]%elem_of_cons; [|by apply Hc].
    apply bind_check_Ok_inv in Hk as (d & _ & _ & Hv & _). by eexists _, _.
  - unfold bind_count in Hb. destruct (sign_count_accept _ _ _) as [counts r]. simplify_eq.
    constructor; simpl; [exact Ht|exact Hp| |].
    + intros call' found Hin. apply Hc. rewrite Hperm. by right.
    + intros call' id' [[= -> ->]|Hin]%elem_of_cons; [|by apply Hn].
      apply (Hc call (id, k)). rewrite Hperm. left.
  - unfold bind_insert in Hb. destruct (bindings_insert _ _ _ _ _) as [[token b]|] eqn:Hi; simpl in Hb; [|done].
    simplify_eq. apply bindings_insert_inv in Hi as (_ & Hbt & Hbe).
    assert (ceremony (bw_state w) id (bind_ecdsa_public_key call) (bind_ecdh_public_key call)) as Hcer.
    { apply Hn. rewrite Hperm. left. }
    constructor; simpl; [| |exact Hc|].
    + intros tk x. unfold cb_bindings. simpl. rewrite Hbt, lookup_insert.
      case_decide; [intros [= <-]; exact Hcer|apply Ht].
    + intros e id' x. unfold cb_bindings. simpl. rewrite Hbe, lookup_insert.
      case_decide; [|apply Hp]. intros [= <-]. simplify_eq. split; [done|exact Hcer].
    + intros call' id' Hin. apply Hn. rewrite Hperm. by right.
Qed.

Lemma browser_reachable_ok w : browser_reachable w → bindings_ok w.
Proof.
  intros (w0 & (s & rp & ix & Hb & ->) & Hrun).
  assert (bindings_ok (mkBrowserWorld (coordinator_browser_state s rp ix) [] [])) as Hok.
  { constructor; unfold cb_bindings; simpl; rewrite ?Hb; intros *; simpl.
    - by rewrite lookup_empty.
    - by rewrite lookup_empty.
    - intros Hin. by apply not_elem_of_nil in Hin.
    - intros Hin. by apply not_elem_of_nil in Hin. }
  revert Hok. induction Hrun as [|x y z Hstep _ IH]; [done|]. intros Hok. by eapply IH, browser_step_ok.
Qed.
End sessions.

(** ** One bind call, one submission, one status query *)

Section calls.
Context `{HashOrder} `{Platform}.
Implicit Types c : CoordinatorBrowserState.

Lemma find_verifying_None f l : find_verifying f l = None ↔ ∀ x, x ∈ l → is_ok (f x) = false.
Proof.
  induction l as [|y l IH]; simpl.
  { split; [|done]. intros _ x Hx. by apply not_elem_of_nil in Hx. }
  destruct (f y) eqn:Hy.
  - split; [done|]. intros Hall. specialize (Hall y). rewrite Hy in Hall.
    assert (y ∈ y :: l) as Hin by left. by specialize (Hall Hin).
  - rewrite IH. setoid_rewrite elem_of_cons. split; [|naive_solver]. intros Hl x [->|?]; [by rewrite Hy|auto].
  - rewrite IH. setoid_rewrite elem_of_cons. split; [|naive_solver]. intros Hl x [->|?]; [by rewrite Hy|auto].
Qed.

Lemma elem_of_set_iter (s : gset ClientIdentity) x : x ∈ set_iter s ↔ x ∈ s.
Proof. by rewrite set_iter_perm, elem_of_elements. Qed.

(** The candidate the search of [bind_check] arrives at. *)
Definition bind_found (call : BindWebauthnIdentity) c (d : Exec) : option (ClientIdentity * u32) :=
  match indexed_match (credential_id_index c) (bind_candidates d) (bind_verifies call c)
          (bind_credential_id call) with
  | Some found => Some found
  | None => find_verifying (bind_verifies call c) (set_iter (bind_candidates d))
  end.

Lemma bind_found_unique call c d id k :
  id ∈ bind_candidates d → bind_verifies call c id = Ok k →
  (∀ other, other ∈ bind_candidates d → is_ok (bind_verifies call c other) = true → other = id) →
  bind_found call c d = Some (id, k).
Proof.
  intros Hin Hv Huniq.
  assert (∀ x k', x ∈ bind_candidates d → bind_verifies call c x = Ok k' → (x, k') = (id, k)) as Hu.
  { intros x k' Hx Hk. assert (x = id) as -> by (apply Huniq; [done|by rewrite Hk]). congruence. }
  unfold bind_found. destruct (indexed_match _ _ _ _) as [[x k']|] eqn:Hm.
  { apply indexed_match_Some in Hm as [??]. by rewrite (Hu x k'). }
  destruct (find_verifying _ _) as [[x k']|] eqn:Hf.
  - apply find_verifying_Some in Hf as [Hx ?]. apply elem_of_set_iter in Hx. by rewrite (Hu x k').
  - rewrite find_verifying_None in Hf. specialize (Hf id). rewrite elem_of_set_iter, Hv in Hf.
    by specialize (Hf Hin).
Qed.

Lemma bind_check_eq nodes q call c d :
  executions (coordinator c) !! bind_execution_id call = Some d → exec_wf nodes q d →
  bind_check call c =
    match bind_found call c d with
    | Some found => if existsb (submitted_at d) (slots_of d found.1) then Err auth_error else Ok found
    | None => Err auth_error
    end.
Proof.
  intros Hd Hwf. unfold bind_check, bind_found, bind_verifies. rewrite Hd. simpl.
  destruct (indexed_match _ _ _ _) as [found|]; simpl; [|destruct (find_verifying _ _) as [found|]; simpl; [|done]];
    rewrite (try_any_total _ (submitted_at d)) by (intros i; by apply (slot_submitted_total nodes q d Hwf));
    simpl; by destruct (existsb _ _).
Qed.

Lemma existsb_submitted_false d id :
  existsb (submitted_at d) (slots_of d id) = false ↔ ∀ i, i ∈ slots_of d id → submitted_at d i = false.
Proof.
  rewrite <-not_true_iff_false, existsb_exists. setoid_rewrite <-list_elem_of_In. split.
  - intros Hn i Hi. apply not_true_iff_false. naive_solver.
  - intros Hall (i & Hi & Ht). rewrite Hall in Ht; done.
Qed.

(** The counter shown is new for the identity. *)
Definition fresh_count (counts : SignCounts) (identity : ClientIdentity) (k : u32) : Prop :=
  let stored := default 0%N (last_known counts !! identity) in
  (stored < k)%N ∨ stored = 0%N ∧ k = 0%N.

Lemma sign_count_accept_cases counts id k :
  (fresh_count counts id k ∧ sign_count_accept counts id k =
     (mkSignCounts (<[id := k]> (last_known counts)), Ok tt)) ∨
  (¬ fresh_count counts id k ∧ sign_count_accept counts id k = (counts, Err auth_error)).
Proof.
  unfold sign_count_accept, fresh_count. set (stored := default _ _).
  destruct ((negb (k =? 0)%N || negb (stored =? 0)%N) && (k <=? stored)%N) eqn:Hc; [right|left].
  - reflect_bool. split; [|done]. apply orb_true_iff in H1 as [Hz|Hz]; reflect_bool; lia.
  - split; [|done]. apply andb_false_iff in Hc as [Hz|Hz]; reflect_bool; lia.
Qed.

Lemma bind_count_cases found c :
  (fresh_count (cb_sign_counts c) found.1 found.2 ∧
   bind_count found c =
     (c <| cb_sign_counts := mkSignCounts (<[found.1 := found.2]> (last_known (cb_sign_counts c))) |>,
      Ok tt)) ∨
  (¬ fresh_count (cb_sign_counts c) found.1 found.2 ∧ bind_count found c = (c, Err auth_error)).
Proof.
  unfold bind_count. destruct (sign_count_accept_cases (cb_sign_counts c) found.1 found.2) as [[Hf ->]|[Hf ->]];
    [by left|right]. split; [done|]. by destruct c.
Qed.

Lemma bindings_insert_total encode draws eid binding b draw :
  draw ∈ draws → by_token b !! encode draw = None →
  is_Some (bindings_insert encode draws eid binding b).
Proof.
  induction draws as [|x draws IH]; intros Hin Hn; [by apply not_elem_of_nil in Hin|]. simpl.
  destruct (by_token b !! encode x) eqn:Hx; [|eauto].
  apply elem_of_cons in Hin as [->|Hin]; [congruence|auto].
Qed.

(** The effect of recording a binding. *)
Lemma bind_insert_effect call id draws c c' resp :
  bind_insert call id draws c = Some (c', resp) →
  resp_client_identity resp = id ∧ cb_sign_counts c' = cb_sign_counts c ∧
  bindings_get (cb_bindings c) (resp_session_token resp) = None ∧
  bindings_get (cb_bindings c') (resp_session_token resp) =
    Some (mkWebauthnBinding id (bind_ecdsa_public_key call) (bind_ecdh_public_key call)) ∧
  resolve_ecdh_public_key (cb_bindings c') (bind_execution_id call) id = Some (bind_ecdh_public_key call).
Proof.
  unfold bind_insert. intros Hb.
  destruct (bindings_insert _ _ _ _ _) as [[token b]|] eqn:Hi; simpl in Hb; [|done].
  simplify_eq. apply bindings_insert_inv in Hi as (Hn & Hbt & Hbe). unfold cb_bindings. simpl.
  unfold bindings_get, resolve_ecdh_public_key. rewrite Hbt, Hbe. simpl.
  rewrite !lookup_insert_eq. done.
Qed.

Lemma bind_method_reachable call draws c c' r :
  reachable (coordinator c) → bind_webauthn_identity_method call draws c = Some (c', r) →
  reachable (coordinator c').
Proof.
  intros Hreach Hm. unfold bind_webauthn_identity_method in Hm.
  destruct (bind_check call c) as [found| |]; [|by simplify_eq..].
  destruct (bind_count_cases found c) as [[_ Hc]|[_ Hc]]; rewrite Hc in Hm; [|by simplify_eq].
  unfold bind_insert in Hm. destruct (bindings_insert _ _ _ _ _) as [[token b]|] eqn:Hi; simpl in Hm; [|done].
  injection Hm as <- <-. eapply reach_step; [exact Hreach|]. by eapply step_bind.
Qed.

(** Who is the only admitted identity to verify the assertion gets the session. *)
Lemma bind_admits nodes q call draws c d id k draw :
  executions (coordinator c) !! bind_execution_id call = Some d → exec_wf nodes q d →
  id ∈ bind_candidates d → bind_verifies call c id = Ok k →
  (∀ other, other ∈ bind_candidates d → is_ok (bind_verifies call c other) = true → other = id) →
  (∀ i, i ∈ slots_of d id → submitted_at d i = false) → fresh_count (cb_sign_counts c) id k →
  draw ∈ draws → bindings_get (cb_bindings c) (base64_encode draw) = None →
  ∃ c' resp, bind_webauthn_identity_method call draws c = Some (c', Ok resp) ∧
    resp_client_identity resp = id ∧ cb_nonces c' = cb_nonces c ∧
    bindings_get (cb_bindings c') (resp_session_token resp) =
      Some (mkWebauthnBinding id (bind_ecdsa_public_key call) (bind_ecdh_public_key call)).
Proof.
  intros Hd Hwf Hin Hv Huniq Hsub Hfresh Hdraw Hn. unfold bind_webauthn_identity_method.
  rewrite (bind_check_eq nodes q call c d Hd Hwf), (bind_found_unique _ _ _ _ _ Hin Hv Huniq). simpl.
  rewrite (proj2 (existsb_submitted_false d id) Hsub).
  destruct (bind_count_cases (id, k) c) as [[_ Hc]|[Hbad _]]; [|by destruct Hbad]. rewrite Hc. simpl.
  set (c1 := c <| cb_sign_counts := _ |>).
  destruct (bind_insert call id draws c1) as [[c2 resp]|] eqn:Hi; simpl.
  - exists c2, resp. split; [done|].
    pose proof (bind_insert_effect _ _ _ _ _ _ Hi) as (-> & _ & _ & Hb & _). split_and!; [done| |exact Hb].
    unfold bind_insert in Hi. destruct (bindings_insert _ _ _ _ _) as [[tk b]|]; simpl in Hi; [|done].
    by injection Hi as <- _.
  - exfalso. unfold bind_insert in Hi.
    destruct (bindings_insert_total base64_encode draws (Some (bind_execution_id call))
      (mkWebauthnBinding id (bind_ecdsa_public_key call) (bind_ecdh_public_key call)) (cb_bindings c1) draw)
      as [[tk b] Hs]; [done|exact Hn|]. by rewrite Hs in Hi.
Qed.

(** C27: the bind ceremony is exact.  A session is opened only for an identity that
    the execution admits, whose key verifies the assertion over the two session
    keys, that has not submitted an input and whose authenticator counted on; it
    gets a token no session had, and the new encryption key.  When exactly one
    admitted identity verifies the assertion and the conditions hold, the session
    is opened for it.  Every refusal leaves the listener as it was. *)
Theorem bind_ceremony_exact nodes q call draws c d
    (Hd : executions (coordinator c) !! bind_execution_id call = Some d) (Hwf : exec_wf nodes q d) :
  (∀ c' resp, bind_webauthn_identity_method call draws c = Some (c', Ok resp) →
     let id := resp_client_identity resp in
     id ∈ bind_candidates d ∧
     (∃ k, bind_verifies call c id = Ok k ∧ fresh_count (cb_sign_counts c) id k ∧
        last_known (cb_sign_counts c') !! id = Some k) ∧
     (∀ i, i ∈ slots_of d id → submitted_at d i = false) ∧
     bindings_get (cb_bindings c) (resp_session_token resp) = None ∧
     bindings_get (cb_bindings c') (resp_session_token resp) =
       Some (mkWebauthnBinding id (bind_ecdsa_public_key call) (bind_ecdh_public_key call)) ∧
     resolve_ecdh_public_key (cb_bindings c') (bind_execution_id call) id =
       Some (bind_ecdh_public_key call)) ∧
  (∀ c' r, bind_webauthn_identity_method call draws c = Some (c', r) →
     (∃ resp, r = Ok resp) ∨ r = Err auth_error ∧ c' = c) ∧
  (∀ id k draw, id ∈ bind_candidates d → bind_verifies call c id = Ok k →
     (∀ other, other ∈ bind_candidates d → is_ok (bind_verifies call c other) = true → other = id) →
     (∀ i, i ∈ slots_of d id → submitted_at d i = false) → fresh_count (cb_sign_counts c) id k →
     draw ∈ draws → bindings_get (cb_bindings c) (base64_encode draw) = None →
     ∃ c' resp, bind_webauthn_identity_method call draws c = Some (c', Ok resp) ∧
       resp_client_identity resp = id).
Proof.
  pose proof (bind_check_eq nodes q call c d Hd Hwf) as Hcheck. split_and!.
  - intros c' resp Hm. unfold bind_webauthn_identity_method in Hm.
    destruct (bind_check call c) as [[id k]| |] eqn:Hb; [|done..].
    apply bind_check_Ok_inv in Hb as (d' & Hd' & Hin & Hv & _). rewrite Hd in Hd'. simplify_eq.
    assert (existsb (submitted_at d') (slots_of d' id) = false) as Hsub.
    { destruct (bind_found call c d') as [found|]; [|done].
      destruct (existsb _ (slots_of d' found.1)) eqn:He; [done|]. by injection Hcheck as <-. }
    destruct (bind_count_cases (id, k) c) as [[Hf Hc]|[_ Hc]]; rewrite Hc in Hm; [|done].
    destruct (bind_insert _ _ _ _) as [[c1 r1]|] eqn:Hi; simpl in Hm; [|done]. injection Hm as -> ->.
    apply bind_insert_effect in Hi as (Hid & Hsc & Hn & Ht & Hr). simpl in *.
    rewrite Hid. split_and!; [done| |by apply existsb_submitted_false|exact Hn|done..].
    exists k. split_and!; [done..|]. rewrite Hsc. simpl. by rewrite lookup_insert_eq.
  - intros c' r Hm. unfold bind_webauthn_identity_method in Hm. rewrite Hcheck in Hm.
    destruct (bind_found call c d) as [found|]; [|simplify_eq; by right].
    destruct (existsb _ _); [simplify_eq; by right|].
    destruct (bind_count_cases found c) as [[_ Hc]|[_ Hc]]; rewrite Hc in Hm; [|simplify_eq; by right].
    destruct (bind_insert _ _ _ _) as [[c1 r1]|]; simpl in Hm; [|done]. simplify_eq. left. eauto.
  - intros id k draw Hin Hv Huniq Hsub Hfresh Hdraw Hn.
    destruct (bind_admits nodes q call draws c d id k draw) as (c' & resp & ? & ? & _); eauto.
Qed.

(** An accepted batch fills a slot that belongs to the client, if slots are assigned. *)
Lemma submitted_own_slot nodes q d d' self inputs indices :
  exec_wf nodes q d → input_assignments d ≠ [] →
  submission_allowed self d inputs indices →
  registration d' = registration d → input_assignments d' = input_assignments d →
  (∀ k, if decide (N.of_nat k ∈ as_usize <$> indices)
        then ∃ raw m, (raw, m) ∈ zip indices inputs ∧ as_usize raw = N.of_nat k ∧
               masked_inputs d' !! k = Some (Some m)
        else masked_inputs d' !! k = masked_inputs d !! k) →
  existsb (submitted_at d') (slots_of d' self) = true.
Proof.
  intros Hwf Hne (_ & _ & Hix & Hall) Hreg Hia Hslots.
  destruct indices as [|raw indices]; [done|]. clear Hix.
  destruct (Hall raw) as [Hres Hm]; [left|]. set (k := N.to_nat (as_usize raw)) in *.
  destruct (assignments_cover nodes q d Hwf) as [|Hcov]; [done|].
  destruct (lookup_lt_is_Some_2 (input_assignments d) k) as [slot Hslot].
  { apply lookup_lt_Some in Hm. pose proof (wf_masked_len _ _ _ Hwf). unfold vlen in *. lia. }
  apply existsb_exists. exists (N.of_nat k). split.
  - apply list_elem_of_In, elem_of_slots_of. exists slot. rewrite Nat2N.id, Hia. split; [done|].
    unfold input_slot_client. rewrite Hreg. by eapply (wf_owner _ _ _ Hwf).
  - specialize (Hslots k). rewrite decide_True in Hslots.
    + destruct Hslots as (raw' & m & _ & _ & Hk). unfold submitted_at. by rewrite Nat2N.id, Hk.
    + unfold k. rewrite N2Nat.id. apply list_elem_of_fmap. exists raw. split; [done|left].
Qed.

(** C40: what a browser submission does.  It is carried out for the identity that
    authorised the session, on exactly the batch in the signed body; the parties
    then encrypt that client's outputs to the key of this very session, and, when
    the execution assigns its slots, the client cannot open another session for
    this execution.  A refused submission changes no session. *)
Theorem submission_pins_session_key decode net call now c c' log r
    (Hreach : reachable (coordinator c))
    (Hcall : submit_masked_inputs_method decode net call now c = (c', log, r)) :
  (r ≠ Ok tt → coordinator c' = coordinator c ∧ log = []) ∧
  (r = Ok tt → ∃ identity binding batch d,
     let eid := call_execution_id call in
     signed_by_session "browser_submit_masked_inputs" call (cb_bindings c) identity ∧
     bindings_get (cb_bindings c) (session_token (call_request call)) = Some binding ∧
     client_identity binding = identity ∧
     decode (body (call_request call)) = Some batch ∧
     executions (coordinator c) !! eid = Some d ∧
     submission_allowed identity d (batch_masked_inputs batch) (batch_reserved_indices batch) ∧
     resolve_output_encryption_key eid identity (coordinator c') = Ok (Some (ecdh_public_key binding)) ∧
     by_token (cb_bindings c') = by_token (cb_bindings c) ∧
     (input_assignments d ≠ [] →
      ∀ call2 k, bind_execution_id call2 = eid → bind_check call2 c' ≠ Ok (identity, k))).
Proof.
  unfold submit_masked_inputs_method, as_identity in Hcall.
  destruct (authenticate _ _ _ _ _) as [nonces [identity|e|]] eqn:Ha; [|by simplify_eq..].
  apply authenticate_Ok_inv in Ha. unfold with_body in Hcall.
  destruct (decode _) as [batch|] eqn:Hdec; [|by simplify_eq]. simpl in Hcall.
  destruct (submit_masked_inputs _ _ _ _ _ _) as [[s log1] r1] eqn:Hs.
  destruct (executions (coordinator c) !! call_execution_id call) as [d|] eqn:Hd.
  2: { destruct (roster_head_Ok _ (sw_topology _ (reachable_wf _ Hreach))) as (head & Hh & _).
       unfold submit_masked_inputs, with_execution, execution_state in Hs. rewrite Hh, Hd in Hs.
       simpl in Hs. injection Hs as <- <- <-. by injection Hcall as <- <- <-. }
  pose proof (submit_masked_inputs_spec _ _ _ _ _ _ _ _ _ _ Hreach Hd Hs) as (Hiff & Hbad & Hok).
  destruct r1 as [[]|e|].
  2,3: destruct Hbad as [-> ->]; [done|]; by injection Hcall as <- <- <-.
  injection Hcall as <- <- <-. split; [done|]. intros _.
  destruct Ha as (nonce & key & sg & binding & Hn & Hkey & Hsig & Hver & Hb & Hpk & Hid).
  destruct (Hok eq_refl) as (d' & -> & Hslots & _ & _ & _ & Hreg & Hia & _).
  exists identity, binding, batch, d. pose proof (proj1 Hiff eq_refl) as Hallow.
  split_and!; [by exists nonce, key, sg, binding|done..| | |].
  - unfold resolve_output_encryption_key, resolve_ecdh_public_key, pin_binding_from_token. simpl.
    unfold bindings_get, cb_bindings in Hb. rewrite Hb. simpl. by rewrite Hid, lookup_insert_eq.
  - unfold cb_bindings. simpl. apply pin_by_token.
  - intros Hne call2 k Heid Hbc. apply bind_check_Ok_inv in Hbc as (d2 & Hd2 & _ & _ & Hany).
    simpl in Hd2. rewrite Heid, lookup_insert_eq in Hd2. simplify_eq.
    pose proof (submit_masked_inputs_reachable net (client_identity binding) (call_execution_id call)
      (batch_masked_inputs batch) (batch_reserved_indices batch) _ Hreach) as Hr2. rewrite Hs in Hr2.
    pose proof (reachable_exec_wf _ _ d2 Hr2 (lookup_insert_eq _ _ _)) as Hwf2.
    pose proof (reachable_exec_wf _ _ _ Hreach Hd) as Hwf.
    rewrite (try_any_total _ (submitted_at d2)) in Hany.
    + injection Hany as Hany. by erewrite (submitted_own_slot _ _ d d2) in Hany.
    + intros i. eapply slot_submitted_total, Hwf2.
Qed.
End calls.

(** ** Witnesses *)

Lemma sample_listener_wf :
  exec_wf (mpc_nodes sample_collecting_run) (transition_quorum sample_collecting_run)
    (sample_get sample_collecting_run).
Proof.
  eapply reachable_exec_wf; [apply sample_collecting_run_reachable|]. apply sample_get_Some. by vm_compute.
Qed.

Lemma sample_candidates :
  omap (input_slot_client (sample_get sample_collecting_run))
    (input_assignments (sample_get sample_collecting_run)) ++
  output_clients (sample_get sample_collecting_run) = [client1; client2; client1].
Proof. by vm_compute. Qed.

Lemma elem_of_bind_candidates d x :
  x ∈ bind_candidates d ↔
  x ∈ omap (input_slot_client d) (input_assignments d) ++ output_clients d.
Proof. unfold bind_candidates. by rewrite elem_of_list_to_set. Qed.

Lemma elem_of_three {A} (x a b c : A) : x ∈ [a; b; c] → x = a ∨ x = b ∨ x = c.
Proof. rewrite !elem_of_cons, elem_of_nil. tauto. Qed.

Lemma sample_single_verifier other :
  other ∈ bind_candidates (sample_get sample_collecting_run) →
  is_ok (bind_verifies (sample_bind [Byte.x0c] Byte.x01) sample_listener other) = true → other = client1.
Proof.
  assert (is_ok (bind_verifies (sample_bind [Byte.x0c] Byte.x01) sample_listener client2) = false) as Hno
    by by vm_compute.
  intros Hin%elem_of_bind_candidates Hok. rewrite sample_candidates in Hin.
  apply elem_of_three in Hin as [->|[->| ->]]; [reflexivity| |reflexivity].
  rewrite Hno in Hok. discriminate Hok.
Qed.

Lemma bind_ceremony_exact_witness :
  ∃ c' resp, bind_webauthn_identity_method (sample_bind [Byte.x0c] Byte.x01) [sample_draw Byte.x41]
      sample_listener = Some (c', Ok resp) ∧ resp_client_identity resp = client1.
Proof.
  pose proof (bind_ceremony_exact (mpc_nodes sample_collecting_run)
    (transition_quorum sample_collecting_run) (sample_bind [Byte.x0c] Byte.x01) [sample_draw Byte.x41]
    sample_listener (sample_get sample_collecting_run)) as Hb.
  destruct Hb as (_ & _ & Hb).
  - apply sample_get_Some. by vm_compute.
  - apply sample_listener_wf.
  - apply (Hb client1 1%N (sample_draw Byte.x41)).
    + apply (bool_decide_unpack _). by vm_compute.
    + by vm_compute.
    + exact sample_single_verifier.
    + apply existsb_submitted_false. by vm_compute.
    + left. by vm_compute.
    + left.
    + by vm_compute.
Defined.

Lemma sample_bound_reachable : reachable (coordinator sample_bound).
Proof.
  unfold sample_bound.
  destruct (bind_webauthn_identity_method _ _ _) as [[c r]|] eqn:Hm;
    [|exact sample_collecting_run_reachable].
  eapply bind_method_reachable; [|exact Hm]. exact sample_collecting_run_reachable.
Qed.

Lemma submission_pins_session_key_witness :
  bind_check (sample_bind [Byte.x0e] Byte.x02) sample_submission.1.1 ≠ Ok (client1, 2%N) ∧
  sample_submission.2 = Ok tt.
Proof.
  assert (sample_submission.2 = Ok tt) as Hr by by vm_compute. split; [|exact Hr].
  destruct (submission_pins_session_key sample_decode all_up sample_call 1010 sample_bound
    sample_submission.1.1 sample_submission.1.2 sample_submission.2) as [_ Hok].
  - exact sample_bound_reachable.
  - apply outcome_eta.
  - destruct (Hok Hr) as (identity & binding & batch & d & _ & Hb & Hid & _ & Hd & _ & _ & _ & Hno).
    assert (bindings_get (cb_bindings sample_bound) sample_token =
      Some (mkWebauthnBinding client1 [Byte.x0a] [Byte.x0c])) as Hb' by by vm_compute.
    assert (input_assignments <$> executions (coordinator sample_bound) !! sample_eid =
      Some [mkInputSlotAssignment 0 0; mkInputSlotAssignment 1 0]) as Hia by by vm_compute.
    change (call_execution_id sample_call) with sample_eid in Hd, Hno. rewrite Hd in Hia.
    change (session_token (call_request sample_call)) with sample_token in Hb. rewrite Hb' in Hb.
    injection Hb as <-. injection Hia as Hia. simpl in Hid. subst identity.
    apply Hno; [by rewrite Hia|done].
Defined.
