(* ===== verification/NodeWorld.v ===== *)
(** A node under load: its native connections, its browser methods and its own
    program, all at once.  Whatever the interleaving, a mask share leaves the node
    only towards the client that reserved its index. *)
From S2P Require Import Prelude Shared Execution Samples Sessions Server Rpc NodeRpc NodeBook NodeBookFacts.
From S2P Require Import Browser BrowserSamples BrowserFacts.

(** ** What an operation of the book can release *)

Definition owned_by (b : MaskBook) (id : ClientIdentity) (shares : list AssignedMaskShare) : Prop :=
  ∀ x, x ∈ shares → owners b !! ams_reserved_index x = Some id ∧
    deposits b !! ams_reserved_index x = Some (ams_share_bytes x).

Lemma granted_owned_by b id start count shares :
  granted b id start count shares → owned_by b id shares.
Proof.
  intros (_ & Hlen & Hj) x [j Hx]%list_elem_of_lookup. apply lookup_lt_Some in Hx as Hlt.
  destruct (Hj j) as (share & H1 & H2 & H3); [lia|]. simplify_eq. done.
Qed.

Definition book_grows (b b' : MaskBook) : Prop := owners b ⊆ owners b' ∧ deposits b ⊆ deposits b'.

#[export] Instance book_grows_trans : Transitive book_grows.
Proof. intros x y z [] []. split; by etrans. Qed.

Lemma owned_by_grows b b' id shares : book_grows b b' → owned_by b id shares → owned_by b' id shares.
Proof. intros [Ho Hd] H x Hx. destruct (H x Hx). split; by eapply lookup_weaken. Qed.

Lemma assign_grows rs m :
  (∀ x, x ∈ rs → m !! amr_reserved_index x = None) → m ⊆ assign rs m.
Proof.
  intros Hfree. apply map_subseteq_spec. intros i c Hi.
  assert (∀ rs m, m !! i = Some c → (∀ x, x ∈ rs → amr_reserved_index x ≠ i) →
    assign rs m !! i = Some c) as Hgo.
  { clear. induction rs as [|r rs IH]; intros m Hi Hne; [done|]. simpl. apply IH.
    - rewrite lookup_insert_ne; [done|]. apply Hne. left.
    - intros x Hx. apply Hne. by right. }
  apply Hgo; [done|]. intros x Hx Heq. specialize (Hfree x Hx). congruence.
Qed.

Lemma deposit_grows shares m :
  (∀ x, x ∈ shares → m !! x.1 = None) → m ⊆ deposit shares m.
Proof.
  intros Hfree. apply map_subseteq_spec. intros i c Hi.
  assert (∀ shares m, m !! i = Some c → (∀ x, x ∈ shares → x.1 ≠ i) →
    deposit shares m !! i = Some c) as Hgo.
  { clear. induction shares as [|[j [s|]] shares IH]; intros m Hi Hne; [done| |done]. simpl. apply IH.
    - rewrite lookup_insert_ne; [done|]. apply (Hne (j, Some s)). left.
    - intros x Hx. apply Hne. by right. }
  apply Hgo; [done|]. intros x Hx Heq. specialize (Hfree x Hx). congruence.
Qed.

(** Answers go to waiting clients, each at most once. *)
Record answers (b : MaskBook) (log : list Release) (b' : MaskBook) : Prop := {
  an_same : owners b' = owners b ∧ deposits b' = deposits b;
  an_sub : waiting b' ⊆ waiting b;
  an_from : ∀ x, x ∈ log → ∃ rq, waiting b !! rel_client x = Some rq ∧ rel_sink x = req_sink rq ∧
    waiting b' !! rel_client x = None ∧ owned_by b (rel_client x) (rel_shares x);
  an_once : NoDup (rel_client <$> log) }.

Lemma releases_answers b log b' : releases b log b' → answers b log b'.
Proof.
  induction 1 as [b|b id rq shares log b' Hrq Hg Hr [Hs Hsub Hf Hn]]; simpl in *.
  { split; [done..| |constructor]. intros x Hx. by apply not_elem_of_nil in Hx. }
  assert (waiting b' !! id = None) as Hid.
  { eapply lookup_weaken_None; [apply lookup_delete_eq|exact Hsub]. }
  split; [done|etrans; [exact Hsub|apply delete_subseteq]|..].
  - intros x [->|Hx]%elem_of_cons; simpl.
    + exists rq. split_and!; [done..|by eapply granted_owned_by].
    + destruct (Hf x Hx) as (q & Hq & ? & ? & ?). apply lookup_delete_Some in Hq as [_ Hq]. eauto.
  - rewrite fmap_cons. constructor; [|done]. simpl. intros (x & -> & Hx)%list_elem_of_fmap.
    destruct (Hf x Hx) as (q & Hq & _). by apply lookup_delete_Some in Hq as [? _].
Qed.

(** What every operation does, seen by a waiting client. *)
Record op_effect (b : MaskBook) (op : NodeOp) (log : list Release) (b' : MaskBook) : Prop := {
  oe_grows : book_grows b b';
  oe_from : ∀ x, x ∈ log → owned_by b' (rel_client x) (rel_shares x) ∧
    waiting b' !! rel_client x = None ∧
    ((∃ rq, waiting b !! rel_client x = Some rq ∧ rel_sink x = req_sink rq) ∨
     ∃ start count, op = OpSubscribe (Some (rel_sink x)) (rel_client x) start count);
  oe_once : NoDup (rel_client <$> log);
  oe_waiting : ∀ id rq, waiting b' !! id = Some rq → waiting b !! id = Some rq ∨
    op = OpSubscribe (Some (req_sink rq)) id (req_start rq) (req_count rq) ∧ log = [] }.

Lemma settles_effect b b0 op log r b' :
  settles b log r b' → book_grows b0 b → waiting b = waiting b0 → op_effect b0 op log b'.
Proof.
  intros Hs Hg Hw. destruct Hs as [log b' [[Ho Hd] Hsub Hf Hn]%releases_answers|id rq w ? ? Hsub ?].
  - split; [|..|done|].
    + destruct Hg. split; [by rewrite Ho|by rewrite Hd].
    + intros x Hx. destruct (Hf x Hx) as (rq & H1 & H2 & H3 & H4). split_and!; [|done|left].
      * unfold owned_by. by rewrite Ho, Hd.
      * rewrite <-Hw. eauto.
    + intros id rq Hq. left. rewrite <-Hw. by eapply lookup_weaken.
  - split; [done| |constructor|].
    + intros x Hx. by apply not_elem_of_nil in Hx.
    + intros i q Hq. left. rewrite <-Hw. simpl in Hq. by eapply lookup_weaken.
Qed.

Lemma book_op_effect b op log o b' : book_op b op log o b' → op_effect b op log b'.
Proof.
  assert (∀ x : Release, x ∈ [] → False) as Hnil by (intros x Hx; by apply not_elem_of_nil in Hx).
  assert (∀ id0 id rq, (delete id0 (waiting b)) !! id = Some rq → waiting b !! id = Some rq) as Hdel.
  { intros id0 id rq Hq. by apply lookup_delete_Some in Hq as [_ ?]. }
  destruct 1 as [sink self start count shares Hg|sink self start count Hw Hno| | |rs log r b' Hfree Hs
    |rs x Hx Hs|shares log r b' Hfree Hs|shares x Hx Hs|shares i Hfree Hi].
  - split; [done|..|by apply NoDup_singleton|simpl; eauto].
    intros x ->%list_elem_of_singleton. simpl. split_and!; [|apply lookup_delete_eq|right; eauto].
    by apply (granted_owned_by b self start count).
  - split; [done|naive_solver|constructor|]. intros id rq Hq. simpl in Hq.
    apply lookup_insert_Some in Hq as [[<- <-]|[_ Hq]]; [by right|by left].
  - split; [done|naive_solver|constructor|simpl; eauto].
  - split; [done|naive_solver|constructor|simpl; eauto].
  - eapply settles_effect; [done| |done]. split; [by apply assign_grows|done].
  - split; [done|naive_solver|constructor|auto].
  - eapply settles_effect; [done| |done]. split; [done|]. apply deposit_grows. intros x Hx. by apply Hfree.
  - split; [done|naive_solver|constructor|auto].
  - split; [|naive_solver|constructor|auto]. split; [done|]. by apply deposit_grows.
Qed.

(** ** The node *)

(** A native answer names the state object it came from and the subscription it
    went to; a browser answer the state object and the identity that asked. *)
Record NodeWorld : Type := mkNodeWorld {
  nw_state : NodeBrowserState;
  nw_held : list (ExecutionId * StateRef);
  nw_authed : list (BrowserCall * ClientIdentity);
  nw_counted : list BindWebauthnIdentityToNode;
  nw_opened : gmap SubscriptionSink (StateRef * ClientIdentity);
  nw_sent : list (StateRef * NodeSend);
  nw_fetched : list (StateRef * BrowserCall * ClientIdentity * list AssignedMaskShare) }.

#[export] Instance node_world_eta : Eta NodeWorld := fun w =>
  mkNodeWorld (nw_state w) (nw_held w) (nw_authed w) (nw_counted w) (nw_opened w) (nw_sent w)
    (nw_fetched w).

(** The subscription an operation opens. *)
Definition opens (op : NodeOp) (ref : StateRef) (m : gmap SubscriptionSink (StateRef * ClientIdentity))
    : gmap SubscriptionSink (StateRef * ClientIdentity) :=
  match op with
  | OpSubscribe (Some sink) self _ _ => <[sink := (ref, self)]> m
  | _ => m
  end.

Definition fresh_sink (op : NodeOp) (m : gmap SubscriptionSink (StateRef * ClientIdentity)) : Prop :=
  match op with OpSubscribe (Some sink) _ _ _ => m !! sink = None | _ => True end.

Definition mask_method : string := "browser_assigned_mask_shares".

Section world.
Context `{Platform}.

Definition heap (w : NodeWorld) : gmap StateRef NodeExec := node_heap (node (nw_state w)).

(** A ceremony of the node: an assertion of [identity] that covers the two keys. *)
Definition node_ceremony (c : NodeBrowserState) (identity : ClientIdentity) (ecdsa ecdh : bytes) : Prop :=
  ∃ assertion count,
    verify_webauthn_assertion assertion identity (nb_rp_id_hash c) (nb_origin c)
      (webauthn_bind_challenge ecdsa ecdh) = Ok count.

(** The segments.  A call looks its execution up under the registry's lock and
    works on the state object under that object's own lock, perhaps after the
    execution was retired.  The browser method authenticates, looks the execution
    up and reads; the bind method verifies and counts, then records. *)
Inductive node_step (w : NodeWorld) : NodeWorld → Prop :=
  | ns_register eid s r :
      node_register_execution eid (node (nw_state w)) = (s, r) →
      node_step w (w <| nw_state ::= fun c => c <| node := s |> |>)
  | ns_retire eid s r :
      node_retire_execution eid (node (nw_state w)) = (s, r) →
      node_step w (w <| nw_state ::= fun c => c <| node := s |> |>)
  | ns_enter eid ref :
      node_execution_state (node (nw_state w)) eid = Some ref →
      node_step w (w <| nw_held ::= cons (eid, ref) |>)
  | ns_call eid ref op d d' log o :
      (eid, ref) ∈ nw_held w → heap w !! ref = Some d → fresh_sink op (nw_opened w) →
      node_apply op d = (d', log, o) →
      node_step w (w <| nw_state ::= fun c => c <| node ::= fun s => s <| node_heap ::= <[ref := d']> |> |> |>
        <| nw_opened ::= opens op ref |> <| nw_sent ::= (.++ ((ref,.) <$> log)) |>)
  | ns_authenticate call now nonces r :
      authenticate mask_method call now (nb_nonces (nw_state w)) (nb_bindings (nw_state w)) = (nonces, r) →
      node_step w (w <| nw_state ::= fun c => c <| nb_nonces := nonces |> |>
        <| nw_authed ::= match r with Ok identity => cons (call, identity) | _ => id end |>)
  | ns_fetch call identity ref d start count shares :
      (call, identity) ∈ nw_authed w → (call_execution_id call, ref) ∈ nw_held w →
      heap w !! ref = Some d →
      assigned_mask_shares_for_client d identity start count = Ok (Some shares) →
      node_step w (w <| nw_fetched ::= cons (ref, call, identity, shares) |>)
  | ns_bind_count call count counts :
      verify_webauthn_assertion (nb_assertion call) (nb_client_identity call)
        (nb_rp_id_hash (nw_state w)) (nb_origin (nw_state w))
        (webauthn_bind_challenge (nb_ecdsa_public_key call) (nb_ecdh_public_key call)) = Ok count →
      sign_count_accept (nb_sign_counts (nw_state w)) (nb_client_identity call) count = (counts, Ok tt) →
      node_step w (w <| nw_state ::= fun c => c <| nb_sign_counts := counts |> |>
        <| nw_counted ::= cons call |>)
  | ns_bind_insert call draws token b :
      call ∈ nw_counted w →
      bindings_insert base64_encode draws None
        (mkWebauthnBinding (nb_client_identity call) (nb_ecdsa_public_key call) (nb_ecdh_public_key call))
        (nb_bindings (nw_state w)) = Some (token, b) →
      node_step w (w <| nw_state ::= fun c => c <| nb_bindings := b |> |>).

Definition node_initial (w : NodeWorld) : Prop :=
  ∃ rp_id, w = mkNodeWorld (node_browser_state new_node_server rp_id) [] [] [] ∅ [] [].

Definition node_reachable (w : NodeWorld) : Prop := ∃ w0, node_initial w0 ∧ rtc node_step w0 w.

(** ** The invariant *)

(** The shares are the client's own at the state object. *)
Definition owned_at (w : NodeWorld) (ref : StateRef) (id : ClientIdentity)
    (shares : list AssignedMaskShare) : Prop :=
  ∃ d, heap w !! ref = Some d ∧ owned_by (book d) id shares.

(** A subscription waits at one state object for one client, until it is answered. *)
Definition waits (w : NodeWorld) (sink : SubscriptionSink) : Prop :=
  ∃ ref d id rq, heap w !! ref = Some d ∧ assigned_sinks d !! id = Some rq ∧ req_sink rq = sink.

Record node_world_ok (w : NodeWorld) : Prop := {
  nk_registry : node_server_wf (node (nw_state w));
  nk_objects : ∀ ref d, heap w !! ref = Some d → node_ok d;
  nk_waiting : ∀ ref d id rq, heap w !! ref = Some d → assigned_sinks d !! id = Some rq →
    nw_opened w !! req_sink rq = Some (ref, id);
  nk_sent : ∀ ref sink shares, (ref, (sink, MMaskShares shares)) ∈ nw_sent w →
    ∃ id, nw_opened w !! sink = Some (ref, id) ∧ ¬ waits w sink ∧ owned_at w ref id shares;
  nk_once : NoDup ((fun x => x.2.1) <$> nw_sent w);
  nk_bindings : ∀ token b, by_token (nb_bindings (nw_state w)) !! token = Some b →
    node_ceremony (nw_state w) (client_identity b) (ecdsa_public_key b) (ecdh_public_key b);
  nk_counted : ∀ call, call ∈ nw_counted w →
    node_ceremony (nw_state w) (nb_client_identity call) (nb_ecdsa_public_key call) (nb_ecdh_public_key call);
  nk_authed : ∀ call identity, (call, identity) ∈ nw_authed w →
    signed_by_session mask_method call (nb_bindings (nw_state w)) identity;
  nk_fetched : ∀ ref call identity shares, (ref, call, identity, shares) ∈ nw_fetched w →
    (call, identity) ∈ nw_authed w ∧ owned_at w ref identity shares }.

Lemma owned_at_grows w w' :
  (∀ ref d, heap w !! ref = Some d → ∃ d', heap w' !! ref = Some d' ∧ book_grows (book d) (book d')) →
  ∀ ref id shares, owned_at w ref id shares → owned_at w' ref id shares.
Proof.
  intros Hg ref id shares (d & Hd & Ho). destruct (Hg ref d Hd) as (d' & Hd' & Hb).
  exists d'. split; [done|by eapply owned_by_grows].
Qed.

(** One call, in the terms of the book. *)
Lemma call_effect w ref op d d' log o :
  node_world_ok w → heap w !! ref = Some d → node_apply op d = (d', log, o) →
  node_ok d' ∧ ∃ rels, log = release_send <$> rels ∧ op_effect (book d) op rels (book d').
Proof.
  intros Hw Hd Ha.
  destruct (node_apply_book op d d' log o (nk_objects w Hw ref d Hd) Ha) as (Hok & (rels & -> & Hop) & _).
  split; [done|]. exists rels. split; [done|]. by eapply book_op_effect.
Qed.

Lemma opens_old op ref m sink x : fresh_sink op m → m !! sink = Some x → opens op ref m !! sink = Some x.
Proof.
  intros Hf Hm. destruct op as [[s|] self start count|rs|shares]; simpl in *; [|done..].
  rewrite lookup_insert_ne; [done|]. intros ->. congruence.
Qed.

(** A request that waits after a call waited before, or was opened by the call. *)
Lemma call_waits w ref op d d' log o w' :
  node_world_ok w → heap w !! ref = Some d → fresh_sink op (nw_opened w) → node_apply op d = (d', log, o) →
  heap w' = <[ref := d']> (heap w) → nw_opened w' = opens op ref (nw_opened w) →
  ∀ r e id rq, heap w' !! r = Some e → assigned_sinks e !! id = Some rq →
    nw_opened w' !! req_sink rq = Some (r, id) ∧
    ((∃ e0, heap w !! r = Some e0 ∧ assigned_sinks e0 !! id = Some rq) ∨
     nw_opened w !! req_sink rq = None ∧ log = []).
Proof.
  intros Hw Hd Hfresh Ha Hheap Hopened r e id rq He Hrq.
  destruct (call_effect w ref op d d' log o Hw Hd Ha) as (Hok & rels & Hlog & [_ _ _ Hwait]).
  rewrite Hheap in He. apply lookup_insert_Some in He as [[<- <-]|[Hne He]].
  - destruct (Hwait id rq Hrq) as [Hold|[-> ->]].
    + split; [rewrite Hopened; apply opens_old; [done|by eapply nk_waiting]|]. left. eauto.
    + rewrite Hopened. split; [apply lookup_insert_eq|by right].
  - split; [rewrite Hopened; apply opens_old; [done|by eapply nk_waiting]|]. left. eauto.
Qed.

Lemma NoDup_fmap_via {A B C} (f : A → B) (g : A → C) l :
  NoDup (f <$> l) → (∀ x y, x ∈ l → y ∈ l → g x = g y → f x = f y) → NoDup (g <$> l).
Proof.
  induction l as [|x l IH]; intros Hn Hg; [constructor|]. rewrite !fmap_cons in *.
  apply NoDup_cons in Hn as [Hx Hn]. constructor.
  - intros (y & Hxy & Hy)%list_elem_of_fmap. apply Hx. apply list_elem_of_fmap. exists y.
    split; [apply Hg; [left|by right|done]|done].
  - apply IH; [done|]. intros a b ??. apply Hg; by right.
Qed.

(** The answers of a call go to open subscriptions that were not answered before. *)
Lemma call_answers w ref op d d' log o w' :
  node_world_ok w → heap w !! ref = Some d → fresh_sink op (nw_opened w) → node_apply op d = (d', log, o) →
  heap w' = <[ref := d']> (heap w) → nw_opened w' = opens op ref (nw_opened w) →
  (∀ sink shares, (sink, MMaskShares shares) ∈ log →
     (∀ r x, (r, x) ∈ nw_sent w → x.1 ≠ sink) ∧
     ∃ id, nw_opened w' !! sink = Some (ref, id) ∧ ¬ waits w' sink ∧ owned_at w' ref id shares) ∧
  NoDup log.*1.
Proof.
  intros Hw Hd Hfresh Ha Hheap Hopened.
  pose proof (call_waits w ref op d d' log o w' Hw Hd Hfresh Ha Hheap Hopened) as Hwaits.
  destruct (call_effect w ref op d d' log o Hw Hd Ha) as (Hok & rels & -> & [Hg Hfrom Honce Hwait]).
  assert (∀ x, x ∈ rels → nw_opened w' !! rel_sink x = Some (ref, rel_client x)) as Hopen.
  { intros x Hx. rewrite Hopened. destruct (Hfrom x Hx) as (_ & _ & [(rq & Hrq & ->)|(st & ct & ->)]).
    - apply opens_old; [done|]. by eapply nk_waiting.
    - apply lookup_insert_eq. }
  split.
  - intros sink shares (x & [= -> ->] & Hx)%list_elem_of_fmap.
    destruct (Hfrom x Hx) as (Hown & Hnone & Hsrc). split.
    + intros r [s [l]] Hin. simpl. intros ->. destruct (nk_sent w Hw _ _ _ Hin) as (i & Hi & Hnw & _).
      destruct Hsrc as [(rq & Hrq & Hs)|(st & ct & ->)]; [|by simpl in Hfresh; congruence].
      apply Hnw. exists ref, d, (rel_client x), rq. done.
    + exists (rel_client x). split_and!; [by apply Hopen| |].
      * intros (r & e & i & rq & He & Hrq & Hs). destruct (Hwaits r e i rq He Hrq) as [Ho _].
        rewrite Hs, Hopen in Ho by done. injection Ho as <- <-.
        rewrite Hheap, lookup_insert_eq in He. injection He as <-. simpl in Hnone. congruence.
      * exists d'. rewrite Hheap, lookup_insert_eq. done.
  - rewrite <-list_fmap_compose. apply (NoDup_fmap_via rel_client); [done|].
    intros x y Hx Hy Hxy. simpl in Hxy. apply Hopen in Hx, Hy. rewrite Hxy in Hx. congruence.
Qed.

(** ** Every segment keeps the invariant *)

Lemma call_ok w eid ref op d d' log o :
  node_world_ok w → (eid, ref) ∈ nw_held w → heap w !! ref = Some d → fresh_sink op (nw_opened w) →
  node_apply op d = (d', log, o) →
  node_world_ok (w <| nw_state ::= fun c => c <| node ::= fun s => s <| node_heap ::= <[ref := d']> |> |> |>
    <| nw_opened ::= opens op ref |> <| nw_sent ::= (.++ ((ref,.) <$> log)) |>).
Proof.
  intros Hw _ Hd Hfresh Ha. set (w' := _ <| nw_sent ::= _ |>).
  assert (heap w' = <[ref := d']> (heap w)) as Hheap by done.
  assert (nw_opened w' = opens op ref (nw_opened w)) as Hopened by done.
  pose proof (call_waits w ref op d d' log o w' Hw Hd Hfresh Ha Hheap Hopened) as Hwaits.
  destruct (call_answers w ref op d d' log o w' Hw Hd Hfresh Ha Hheap Hopened) as [Hnew Honce].
  destruct (call_effect w ref op d d' log o Hw Hd Ha) as (Hok & rels & Hlog & [Hg _ _ _]).
  assert (∀ r id shares, owned_at w r id shares → owned_at w' r id shares) as Hown.
  { apply owned_at_grows. intros r e He. rewrite Hheap. destruct (decide (ref = r)) as [->|Hne].
    - exists d'. rewrite lookup_insert_eq. split; [done|]. by simplify_eq.
    - exists e. by rewrite lookup_insert_ne. }
  destruct Hw as [[K1 K2 K3] Hobj Hwait Hsent Hn Hb Hc Hau Hf]. split; [| | | | |done..|].
  - split; [|done|done]. intros e r He. change (is_Some (heap w' !! r)). rewrite Hheap.
    apply lookup_insert_is_Some'. right. by eapply K1.
  - intros r e. rewrite Hheap. intros [[_ <-]|[_ He]]%lookup_insert_Some; [done|by eapply Hobj].
  - intros r e i rq He Hrq. by apply Hwaits with (e := e).
  - intros r sink shares Hin.
    change ((r, (sink, MMaskShares shares)) ∈ nw_sent w ++ ((ref,.) <$> log)) in Hin.
    apply elem_of_app in Hin as [Hin|Hin].
    + destruct (Hsent _ _ _ Hin) as (i & Hi & Hnw & Ho). exists i. split_and!; [|..|by apply Hown].
      * rewrite Hopened. by apply opens_old.
      * intros (r1 & e & i1 & rq & He & Hrq & Hs).
        destruct (Hwaits r1 e i1 rq He Hrq) as [_ [(e0 & He0 & Hrq0)|[Hnone _]]]; [|congruence].
        apply Hnw. by exists r1, e0, i1, rq.
    + apply list_elem_of_fmap in Hin as (x & [= -> <-] & Hin). by apply Hnew.
  - change (NoDup ((fun x : StateRef * NodeSend => x.2.1) <$> (nw_sent w ++ ((ref,.) <$> log)))).
    rewrite fmap_app. apply NoDup_app. split_and!; [done| |].
    + intros s (x & -> & Hx)%list_elem_of_fmap (y & Hxy & Hy)%list_elem_of_fmap.
      apply list_elem_of_fmap in Hy as ([sink [shares]] & -> & Hy). simpl in Hxy.
      destruct x as [r x]. by destruct (proj1 (Hnew sink shares Hy) r x Hx).
    + rewrite <-list_fmap_compose. exact Honce.
  - intros r call i shares Hin. destruct (Hf _ _ _ _ Hin) as [? ?]. split; [done|by apply Hown].
Qed.

Lemma registry_ok w s :
  node_world_ok w → node_server_wf s →
  (node_heap s = heap w ∨
   ∃ ref, heap w !! ref = None ∧ node_heap s = <[ref := new_node_execution]> (heap w)) →
  node_world_ok (w <| nw_state ::= fun c => c <| node := s |> |>).
Proof.
  intros [_ Hobj Hwait Hsent Hn Hb Hc Hau Hf] Hs Hheap. set (w' := w <| nw_state ::= _ |>).
  assert (∀ r e, heap w' !! r = Some e → heap w !! r = Some e ∨ e = new_node_execution) as Hold.
  { intros r e He. change (node_heap s !! r = Some e) in He. destruct Hheap as [Heq|(ref & _ & Heq)].
    - left. by rewrite <-Heq.
    - rewrite Heq in He. apply lookup_insert_Some in He as [[_ <-]|[_ ?]]; [by right|by left]. }
  assert (∀ r id shares, owned_at w r id shares → owned_at w' r id shares) as Hown.
  { apply owned_at_grows. intros r e He. exists e. split; [|done].
    change (node_heap s !! r = Some e). destruct Hheap as [->|(ref & Hnone & ->)]; [done|].
    rewrite lookup_insert_ne; [done|]. intros ->. congruence. }
  assert (∀ sink, waits w' sink → waits w sink) as Hws.
  { intros sink (r & e & i & rq & He & Hrq & Hsk). destruct (Hold r e He) as [He0| ->].
    - by exists r, e, i, rq.
    - discriminate Hrq. }
  split; [done| | | |done..|].
  - intros r e He. destruct (Hold r e He) as [He0| ->]; [by eapply Hobj|apply new_node_ok].
  - intros r e i rq He Hrq. destruct (Hold r e He) as [He0| ->]; [by eapply Hwait|].
    discriminate Hrq.
  - intros r sink shares Hin. destruct (Hsent _ _ _ Hin) as (i & Hi & Hnw & Ho). exists i.
    split_and!; [done|auto|by apply Hown].
  - intros r call i shares Hin. destruct (Hf _ _ _ _ Hin) as [? ?]. split; [done|by apply Hown].
Qed.

Lemma signed_by_session_grows method call b b' identity :
  by_token b ⊆ by_token b' → signed_by_session method call b identity →
  signed_by_session method call b' identity.
Proof.
  intros Hsub (nonce & key & sg & bd & H1 & H2 & H3 & H4 & Hb & H5 & H6).
  exists nonce, key, sg, bd. split_and!; [done..| |done|done]. unfold bindings_get in *.
  by eapply lookup_weaken.
Qed.

Lemma node_step_ok w w' : node_world_ok w → node_step w w' → node_world_ok w'.
Proof.
  intros Hw Hstep. destruct Hstep as [eid s r Hr|eid s r Hr|eid ref He|eid ref op d d' log o Hh Hd Hfr Ha
    |call now nonces r Ha|call identity ref d start count shares Hau Hh Hd Hs|call count counts Hv Hs
    |call draws token b Hc Hb].
  - destruct (node_executions_isolated _ eid (nk_registry w Hw)) as [Hi _]. rewrite Hr in Hi.
    destruct Hi as (Hwf & Hok & Hsame & Hnew). apply registry_ok; [done..|].
    destruct (decide (is_ok r = true)) as [Hyes|Hno].
    + destruct r as [[]| |]; [|done..]. destruct Hnew as (ref & _ & ? & ?); [done|]. right. eauto.
    + left. rewrite Hsame; [done|]. intros ->. by apply Hno.
  - destruct (node_executions_isolated _ eid (nk_registry w Hw)) as [_ Hi]. rewrite Hr in Hi.
    destruct Hi as (Hwf & Hheap & _). apply registry_ok; [done..|by left].
  - by destruct Hw.
  - by eapply call_ok.
  - destruct Hw as [? ? ? ? ? ? ? Hau Hf]. split; [done..| |].
    + intros c i Hin. destruct r as [identity| |]; [|by apply Hau..].
      apply elem_of_cons in Hin as [[= -> ->]|Hin]; [|by apply Hau]. by eapply authenticate_Ok_inv.
    + intros ref c i shares Hin. destruct (Hf _ _ _ _ Hin) as [? ?]. split; [|done].
      destruct r; [by right|done..].
  - destruct Hw as [? Hobj ? ? ? ? ? ? Hf]. split; [done..|].
    intros r c i sh [[= -> -> -> ->]|Hin]%elem_of_cons; [|by apply Hf]. split; [done|].
    exists d. split; [done|]. apply request_granted in Hs; [|by eapply Hobj].
    by eapply granted_owned_by.
  - destruct Hw as [? ? ? ? ? ? Hc ? ?]. split; [done..| |done|done].
    intros c [->|Hin]%elem_of_cons; [|by apply Hc]. by eexists _, _.
  - destruct (bindings_insert_inv _ _ _ _ _ _ _ Hb) as (Hnone & Htok & _).
    destruct Hw as [? ? ? ? ? Hbd Hcn Hau Hf]. split; [done..| |done| |done].
    + intros t bd Hbt. change (by_token b !! t = Some bd) in Hbt. rewrite Htok in Hbt.
      apply lookup_insert_Some in Hbt as [[_ <-]|[_ Hbt]]; [|by eapply Hbd]. by apply Hcn.
    + intros c i Hin. eapply signed_by_session_grows; [|by apply Hau].
      change (by_token (nb_bindings (nw_state w)) ⊆ by_token b). rewrite Htok. by apply insert_subseteq.
Qed.

Lemma node_initial_ok w : node_initial w → node_world_ok w.
Proof.
  intros [rp_id ->]. split; simpl; try (intros * Hin; by apply not_elem_of_nil in Hin).
  - split; [intros e r He; discriminate He|intros e1 e2 r He; discriminate He|by vm_compute].
  - intros r d Hd. discriminate Hd.
  - intros r d i rq Hd. discriminate Hd.
  - constructor.
  - intros t b Hb. discriminate Hb.
Qed.

Lemma node_reachable_ok w : node_reachable w → node_world_ok w.
Proof.
  intros (w0 & H0%node_initial_ok & Hrun). clear -Hrun H0. induction Hrun; eauto using node_step_ok.
Qed.

(** C12: a mask share leaves a node only towards the client that reserved its index.
    In any interleaving of registrations, retirements, native calls, browser
    requests and ceremonies: a subscription is answered at most once, by the state
    object it was opened at, even if that execution has been retired since; every
    share of the answer is the recorded share of an index that this object assigns
    to the identity whose connection opened the subscription; and a share fetched
    by a browser is one of an index assigned to an identity whose authenticator
    authorised the key that signed the request. *)
Theorem shares_go_to_their_owner w (Hreach : node_reachable w) :
  (∀ ref sink shares, (ref, (sink, MMaskShares shares)) ∈ nw_sent w →
     ∃ id, nw_opened w !! sink = Some (ref, id) ∧ owned_at w ref id shares) ∧
  NoDup ((fun x => x.2.1) <$> nw_sent w) ∧
  (∀ ref call identity shares, (ref, call, identity, shares) ∈ nw_fetched w →
     owned_at w ref identity shares ∧
     signed_by_session mask_method call (nb_bindings (nw_state w)) identity ∧
     ∃ ecdh, node_ceremony (nw_state w) identity (public_key (call_request call)) ecdh).
Proof.
  destruct (node_reachable_ok w Hreach) as [_ _ _ Hsent Hn Hb _ Hau Hf]. split_and!; [|done|].
  - intros ref sink shares Hin. destruct (Hsent _ _ _ Hin) as (i & ? & _ & ?). eauto.
  - intros ref call identity shares Hin. destruct (Hf _ _ _ _ Hin) as [Ha Ho].
    apply Hau in Ha. split_and!; [done..|].
    destruct Ha as (nonce & key & sg & bd & _ & _ & _ & _ & Hbd & Hpk & <-).
    rewrite <-Hpk. exists (ecdh_public_key bd). by eapply Hb.
Qed.

(** ** The whole calls are made of these segments *)

(** A native call that is not interrupted looks the execution up and works on its
    state object. *)
Lemma native_call_run w eid ref d op d' log o :
  node_execution_state (node (nw_state w)) eid = Some ref → heap w !! ref = Some d →
  fresh_sink op (nw_opened w) → node_apply op d = (d', log, o) →
  ∃ w', rtc node_step w w' ∧ nw_sent w' = nw_sent w ++ ((ref,.) <$> log) ∧
    node (nw_state w') = (node (nw_state w)) <| node_heap ::= <[ref := d']> |>.
Proof.
  intros He Hd Hf Ha. eexists. split.
  - eapply rtc_l; [by apply ns_enter|]. eapply rtc_once, (ns_call _ eid ref op d d' log o); [left|done..].
  - done.
Qed.

Lemma reserve_call_run w eid rs s log r :
  is_Some (node_execution_state (node (nw_state w)) eid) → node_world_ok w →
  add_assigned_reserved_indices_for_execution eid rs (node (nw_state w)) = (s, log, r) →
  ∃ w' ref, rtc node_step w w' ∧ node (nw_state w') = s ∧ nw_sent w' = nw_sent w ++ ((ref,.) <$> log).
Proof.
  intros [ref He] Hw. unfold add_assigned_reserved_indices_for_execution, on_node_execution. rewrite He.
  destruct (ns_allocated _ (nk_registry w Hw) eid ref He) as [d Hd]. rewrite Hd.
  destruct (add_assigned_reserved_indices rs d) as [[d' log'] r'] eqn:Ha. intros [= <- <- <-].
  destruct (native_call_run w eid ref d (OpReserve rs) d' log' (Called r')) as (w' & Hr & Hs & Hn);
    [done..|simpl; by rewrite Ha|]. by exists w', ref.
Qed.

Lemma deposit_call_run {S} (serialize : S → option bytes) w eid shares s log r :
  is_Some (node_execution_state (node (nw_state w)) eid) → node_world_ok w →
  add_mask_shares_for_execution serialize eid shares (node (nw_state w)) = (s, log, r) →
  ∃ w' ref, rtc node_step w w' ∧ node (nw_state w') = s ∧ nw_sent w' = nw_sent w ++ ((ref,.) <$> log).
Proof.
  intros [ref He] Hw. unfold add_mask_shares_for_execution, on_node_execution. rewrite He.
  destruct (ns_allocated _ (nk_registry w Hw) eid ref He) as [d Hd]. rewrite Hd.
  rewrite add_mask_shares_serialized.
  destruct (add_mask_shares id _ d) as [[d' log'] r'] eqn:Ha. intros [= <- <- <-].
  destruct (native_call_run w eid ref d (OpDeposit ((fun x => (x.1, serialize x.2)) <$> shares)) d' log'
    (Called r')) as (w' & Hr & Hs & Hn); [done..|simpl; by rewrite Ha|]. by exists w', ref.
Qed.

Lemma subscribe_call_run w accept self eid start count s log o :
  is_Some (node_execution_state (node (nw_state w)) eid) → node_world_ok w →
  (∀ sink, accept = Some sink → nw_opened w !! sink = None) →
  receive_assigned_mask_shares accept self eid start count (node (nw_state w)) = (s, log, o) →
  ∃ w' ref, rtc node_step w w' ∧ node (nw_state w') = s ∧ nw_sent w' = nw_sent w ++ ((ref,.) <$> log).
Proof.
  intros [ref He] Hw Hf. unfold receive_assigned_mask_shares. rewrite He.
  destruct (ns_allocated _ (nk_registry w Hw) eid ref He) as [d Hd]. rewrite Hd.
  destruct (receive_on accept self start count d) as [[d' log'] o'] eqn:Ha. intros [= <- <- <-].
  destruct (native_call_run w eid ref d (OpSubscribe accept self start count) d' log' (Subscription o'))
    as (w' & Hr & Hs & Hn); [done..|destruct accept; simpl; by auto|simpl; by rewrite Ha|].
  by exists w', ref.
Qed.

(** A browser request that is answered was authenticated, and its answer read. *)
Lemma mask_method_run decode call now w c shares :
  assigned_mask_shares_method decode call now (nw_state w) = (c, Ok (Some shares)) →
  ∃ w' ref identity, rtc node_step w w' ∧ nw_state w' = c ∧
    nw_fetched w' = (ref, call, identity, shares) :: nw_fetched w.
Proof.
  unfold assigned_mask_shares_method. change "browser_assigned_mask_shares"%string with mask_method.
  destruct (authenticate mask_method call now (nb_nonces (nw_state w)) (nb_bindings (nw_state w)))
    as [nonces r] eqn:Ha. intros [= <- Hr]. destruct r as [identity| |]; [|done..]. cbn [mbind result_bind] in Hr.
  apply bind_Ok_inv in Hr as (range & _ & Hr). unfold browser_mask_shares in Hr.
  apply bind_Ok_inv in Hr as (ref & Href%ok_or_Ok_inv & Hr).
  apply bind_Ok_inv in Hr as (d & Hd & Hr).
  change (node_execution_state (node (nw_state w)) (call_execution_id call) = Some ref) in Href.
  change (expect (heap w !! ref) = Ok (E := ErrorObject) d) in Hd.
  destruct (heap w !! ref) as [d'|] eqn:Hd'; [|done]. simpl in Hd. injection Hd as ->.
  destruct (assigned_mask_shares_for_client d identity _ _) as [o| |] eqn:Hs; [|done..].
  simpl in Hr. injection Hr as ->. eexists _, ref, identity. split; [|split].
  - eapply rtc_l; [by eapply ns_authenticate|].
    eapply rtc_l; [by apply (ns_enter _ (call_execution_id call) ref)|].
    eapply rtc_once, (ns_fetch _ call identity ref d); [left|left|exact Hd'|exact Hs].
  - done.
  - done.
Qed.

(** ** The state objects, one by one *)

Definition sent_from (ref : StateRef) (w : NodeWorld) : list NodeSend :=
  (filter (fun x : StateRef * NodeSend => x.1 = ref) (nw_sent w)).*2.

(** Each object has seen its own sequence of calls, and nothing else. *)
Definition histories (w : NodeWorld) : Prop :=
  ∀ ref d, heap w !! ref = Some d → ∃ ops os, node_run ops new_node_execution = (d, sent_from ref w, os).

Lemma sent_from_app ref w r log :
  sent_from ref (w <| nw_sent ::= (.++ ((r,.) <$> log)) |>) =
    sent_from ref w ++ (if decide (r = ref) then log else []).
Proof.
  unfold sent_from. simpl. rewrite filter_app, fmap_app. f_equal.
  induction log as [|x log IH]; [by case_decide|]. rewrite fmap_cons, filter_cons. simpl.
  case_decide; [|exact IH]. rewrite fmap_cons. simpl. by f_equal.
Qed.

Lemma unallocated_silent w ref : node_world_ok w → heap w !! ref = None → sent_from ref w = [].
Proof.
  intros Hw Hnone. unfold sent_from. pose proof (nk_sent w Hw) as Hs. clear Hw.
  induction (nw_sent w) as [|[r [sink [l]]] sent IH]; [done|].
  rewrite filter_cons, decide_False; [apply IH; intros ????; apply Hs; by right|].
  simpl. intros ->. destruct (Hs ref sink l) as (id & _ & _ & d & Hd & _); [left|congruence].
Qed.

Lemma node_step_histories w w' : node_world_ok w → node_step w w' → histories w → histories w'.
Proof.
  intros Hw Hstep Hh. destruct Hstep as [eid s r Hr|eid s r Hr|eid ref He|eid ref op d d' log o Hin Hd Hfr Ha
    |call now nonces r Ha|call identity ref d start count shares Hau Hin Hd Hs|call count counts Hv Hs
    |call draws token b Hc Hb]; [| |exact Hh| |exact Hh..].
  - destruct (node_executions_isolated _ eid (nk_registry w Hw)) as [Hi _]. rewrite Hr in Hi.
    destruct Hi as (_ & _ & Hsame & Hnew). intros ref d Hd. change (node_heap s !! ref = Some d) in Hd.
    destruct (decide (is_ok r = true)) as [Hyes|Hno].
    + destruct r as [[]| |]; [|done..]. destruct Hnew as (ref0 & _ & Hfree & Hheap); [done|].
      rewrite Hheap in Hd. apply lookup_insert_Some in Hd as [[<- <-]|[_ Hd]]; [|by apply Hh].
      exists [], []. cbn. f_equal. f_equal. symmetry. by apply unallocated_silent.
    + rewrite Hsame in Hd; [by apply Hh|]. intros ->. by apply Hno.
  - destruct (node_executions_isolated _ eid (nk_registry w Hw)) as [_ Hi]. rewrite Hr in Hi.
    destruct Hi as (_ & Hheap & _). intros ref d Hd. change (node_heap s !! ref = Some d) in Hd.
    rewrite Hheap in Hd. by apply Hh.
  - intros r e He. change (<[ref := d']> (heap w) !! r = Some e) in He.
    set (w' := _ <| nw_sent ::= _ |>).
    assert (sent_from r w' = sent_from r w ++ (if decide (ref = r) then log else [])) as ->.
    { exact (sent_from_app r w ref log). }
    apply lookup_insert_Some in He as [[<- <-]|[Hne He]].
    + destruct (Hh ref d Hd) as (ops & os & Hrun). exists (ops ++ [op]), (os ++ [o]).
      rewrite node_run_app, Hrun. simpl. rewrite Ha. by rewrite decide_True, app_nil_r.
    + rewrite decide_False, app_nil_r by done. by apply Hh.
Qed.

Lemma node_reachable_histories w : node_reachable w → histories w.
Proof.
  intros (w0 & H0 & Hrun). assert (histories w0) as Hh.
  { destruct H0 as [rp_id ->]. intros ref d Hd. discriminate Hd. }
  apply node_initial_ok in H0. clear -Hrun H0 Hh.
  induction Hrun; eauto using node_step_ok, node_step_histories.
Qed.

(** C13: a node implements the mask books.  Whatever the interleaving, each of its state
    objects is a book that has seen a sequence of operations of its own, with the
    outcomes the callers saw and exactly the answers the object sent; in particular
    an execution registered again under the same identifier starts from an empty
    book.  As long as no batch has failed, nobody waits for shares that are there. *)
Theorem node_implements_mask_books w (Hreach : node_reachable w) ref d (Hd : heap w !! ref = Some d) :
  ∃ ops rels os, book_run empty_book ops rels os (book d) ∧ sent_from ref w = release_send <$> rels ∧
    ((∀ o, o ∈ os → succeeded o) → quiescent (book d)).
Proof.
  destruct (node_reachable_histories w Hreach ref d Hd) as (ops & os & Hrun).
  destruct (node_run_book _ _ _ _ Hrun) as (rels & Hlog & Hb). exists ops, rels, os. split_and!; [done..|].
  intros Hos. eapply node_run_quiescent; [apply new_node_ok| |exact Hrun|exact Hos].
  intros id rq shares Hrq. discriminate Hrq.
Qed.
End world.

(** ** A sample node: one subscription, answered when its share arrives *)

Definition sample_node_start : NodeWorld :=
  mkNodeWorld (node_browser_state new_node_server "vote.example") [] [] [] ∅ [] [].

Definition do_register (eid : ExecutionId) (w : NodeWorld) : NodeWorld :=
  w <| nw_state ::= fun c => c <| node := (node_register_execution eid (node (nw_state w))).1 |> |>.
Definition do_enter (eid : ExecutionId) (w : NodeWorld) : NodeWorld :=
  match node_execution_state (node (nw_state w)) eid with
  | Some ref => w <| nw_held ::= cons (eid, ref) |>
  | None => w
  end.
Definition do_call (ref : StateRef) (op : NodeOp) (w : NodeWorld) : NodeWorld :=
  match heap w !! ref with
  | Some d =>
      let '(d', log, o) := node_apply op d in
      w <| nw_state ::= fun c => c <| node ::= fun s => s <| node_heap ::= <[ref := d']> |> |> |>
        <| nw_opened ::= opens op ref |> <| nw_sent ::= (.++ ((ref,.) <$> log)) |>
  | None => w
  end.

Lemma do_register_run w0 eid w : rtc node_step w0 w → rtc node_step w0 (do_register eid w).
Proof.
  intros Hr. eapply rtc_r; [exact Hr|]. unfold do_register.
  destruct (node_register_execution eid (node (nw_state w))) as [s r] eqn:Hs. by eapply ns_register.
Qed.

Lemma do_enter_run w0 eid w : rtc node_step w0 w → rtc node_step w0 (do_enter eid w).
Proof.
  intros Hr. unfold do_enter. destruct (node_execution_state _ eid) as [ref|] eqn:He; [|done].
  eapply rtc_r; [exact Hr|]. by apply ns_enter.
Qed.

Lemma do_call_run w0 eid ref op w :
  (eid, ref) ∈ nw_held w → fresh_sink op (nw_opened w) →
  rtc node_step w0 w → rtc node_step w0 (do_call ref op w).
Proof.
  intros Hh Hf Hr. unfold do_call. destruct (heap w !! ref) as [d|] eqn:Hd; [|done].
  destruct (node_apply op d) as [[d' log] o] eqn:Ha. eapply rtc_r; [exact Hr|]. by eapply ns_call.
Qed.

Definition sample_entered : NodeWorld := do_enter sample_eid (do_register sample_eid sample_node_start).
Definition sample_ref : StateRef := default 1%positive (snd <$> head (nw_held sample_entered)).
Definition sample_subscribed : NodeWorld :=
  do_call sample_ref (OpSubscribe (Some 7%positive) client1 5 1) sample_entered.
Definition sample_reserved : NodeWorld :=
  do_call sample_ref (OpReserve [mkAssignedMaskReservation client1 5 0]) sample_subscribed.
Definition sample_node_world : NodeWorld :=
  do_call sample_ref (OpDeposit [(5%N, Some [Byte.x0c])]) sample_reserved.

Lemma sample_node_world_reachable : node_reachable sample_node_world.
Proof.
  exists sample_node_start. split; [by eexists|].
  repeat (apply (do_call_run _ sample_eid);
    [apply (bool_decide_unpack _); by vm_compute|first [exact I|by vm_compute]|]).
  by apply do_enter_run, do_register_run.
Qed.

Lemma shares_go_to_their_owner_witness :
  ∃ id, nw_opened sample_node_world !! 7%positive = Some (sample_ref, id) ∧
    owned_at sample_node_world sample_ref id [mkAssignedMaskShare 5 [Byte.x0c]].
Proof.
  destruct (shares_go_to_their_owner sample_node_world sample_node_world_reachable) as [Hs _].
  apply Hs. assert (nw_sent sample_node_world = [(sample_ref, (7%positive,
    MMaskShares [mkAssignedMaskShare 5 [Byte.x0c]]))]) as -> by by vm_compute. left.
Defined.

Lemma node_implements_mask_books_witness :
  ∃ ops rels os d, book_run empty_book ops rels os (book d) ∧
    sent_from sample_ref sample_node_world = release_send <$> rels.
Proof.
  destruct (heap sample_node_world !! sample_ref) as [d|] eqn:Hd.
  - destruct (node_implements_mask_books sample_node_world sample_node_world_reachable sample_ref d Hd)
      as (ops & rels & os & ? & ? & _). by exists ops, rels, os, d.
  - exfalso. assert (is_some (heap sample_node_world !! sample_ref) = true) as Hs by by vm_compute.
    rewrite Hd in Hs. discriminate Hs.
Defined.
