(* ===== verification/Masks.v ===== *)
(** From the nodes to the client: a client that has subscribed at its nodes gets its
    masks, in whatever order each node learns of reservations and shares and in
    whatever order the nodes answer. *)
From S2P Require Import Prelude Shared Execution Samples Server NodeRpc NodeBook NodeBookFacts.
From S2P Require Import Client ClientFacts NodeWorld.

(** ** A waiting client *)








(** ** One subscription *)













(** ** Many nodes *)


Section masks.
Context {Sh V : Type} (deserialize_share : bytes → option Sh).
Context (recover_secret : list Sh → usize → usize → option V) (backend : MpcBackend).
(** Node [p] holds the share [share p i] of the mask at index [i]. *)
Context (share : ClientIdentity → u64 → Sh) (mask : u64 → V).
Context (c : ClientIdentity) (start count : u64).







End masks.

(** ** Witness: two of three nodes, with different orders *)





