(* ===== verification/BrowserRequests.v ===== *)
(** Claims about signed requests, sessions and status queries of the browser
    transport. *)
From S2P Require Import Prelude Shared Execution Samples Rounds Sessions Server Rpc ServerSamples.
From S2P Require Import Invariant History Topology Machine Inputs NodeRpc Browser BrowserSamples.
From S2P Require Import BrowserFacts.

Section requests.
Context `{HashOrder} `{Platform}.

(** C36: a signature covers the whole request.  Two requests with the same signed
    message ask for the same method, execution, time, nonce and session, and have
    the same body unless the two bodies are a collision of the hash function. *)
Theorem signed_message_determines_request m1 m2 eid1 eid2 created1 created2 nonce1 nonce2
    body1 body2 token1 token2
    (Hm1 : Byte.x00 ∉ str_bytes m1) (Hm2 : Byte.x00 ∉ str_bytes m2)
    (Hc1 : (created1 < u64_modulus)%N) (Hc2 : (created2 < u64_modulus)%N)
    (Heq : authentication_message m1 eid1 created1 nonce1 body1 token1 =
           authentication_message m2 eid2 created2 nonce2 body2 token2) :
  m1 = m2 ∧ eid1 = eid2 ∧ created1 = created2 ∧ nonce1 = nonce2 ∧ token1 = token2 ∧
  (body1 = body2 ∨ body1 ≠ body2 ∧ sha256 body1 = sha256 body2).
Proof.
  unfold authentication_message in Heq. apply app_inj_1 in Heq as [_ Heq]; [|done].
  apply app_inj_1 in Heq as [_ Heq]; [|done]. apply split_at_zero in Heq as [Hm Heq]; [|done..].
  apply app_inj_1 in Heq as [He Heq]; [|by rewrite !length_vec_to_list].
  apply app_inj_1 in Heq as [Hc Heq]; [|by rewrite !length_to_le_bytes].
  apply app_inj_1 in Heq as [Hn Heq]; [|by rewrite !length_vec_to_list].
  apply app_inj_1 in Heq as [Hb Ht]; [|by rewrite !length_vec_to_list].
  apply vec_to_list_inj' in He, Hn, Hb. apply str_bytes_inj in Hm, Ht.
  apply to_le_bytes_inj in Hc; [|done..].
  split_and!; [done| |done..|destruct (decide (body1 = body2)); auto].
  destruct eid1, eid2. simpl in *. by subst.
Qed.

(** C10: a session acts only for the identity that authorised it.  However the
    methods interleave, a request is served as some identity only if it is signed
    by the key of its session and that identity's authenticator has signed, for
    this relying party, a challenge made of this very signing key and some
    encryption key; and a party is told to encrypt a client's outputs to a key only
    if that client's authenticator has signed a challenge containing the key. *)
Theorem sessions_act_for_verified_identities w (Hreach : browser_reachable w) :
  (∀ method call now nonces identity,
     authenticate method call now (cb_nonces (bw_state w)) (cb_bindings (bw_state w)) =
       (nonces, Ok identity) →
     signed_by_session method call (cb_bindings (bw_state w)) identity ∧
     ∃ ecdh, ceremony (bw_state w) identity (public_key (call_request call)) ecdh) ∧
  (∀ eid client key,
     resolve_output_encryption_key eid client (coordinator (bw_state w)) = Ok (Some key) →
     ∃ ecdsa, ceremony (bw_state w) client ecdsa key).
Proof.
  destruct (browser_reachable_ok w Hreach) as [Ht Hp _ _]. split.
  - intros method call now nonces identity Hs%authenticate_Ok_inv. split; [done|].
    destruct Hs as (nonce & key & sg & b & _ & _ & _ & _ & Hb & Hpk & Hid). subst identity.
    rewrite <-Hpk. exists (ecdh_public_key b). by eapply Ht.
  - unfold resolve_output_encryption_key, resolve_ecdh_public_key. intros eid client key Hk.
    injection Hk as Hk. apply fmap_Some in Hk as (b & Hb & ->).
    destruct (Hp _ _ _ Hb) as [<- Ha]. by exists (ecdsa_public_key b).
Qed.

(** The challenge of a bind ceremony is the hash of the two keys written one
    after the other, so an assertion does not commit to where the first key ends:
    whatever is accepted for the keys [a ++ b] and [k] is accepted for the keys
    [a] and [b ++ k] as well. *)
Theorem bind_assertion_covers_concatenation c eid assertion cred a b k :
  bind_check (mkBindWebauthnIdentity eid assertion a (b ++ k) cred) c =
  bind_check (mkBindWebauthnIdentity eid assertion (a ++ b) k cred) c.
Proof. unfold bind_check, webauthn_bind_challenge. simpl. by rewrite <-app_assoc. Qed.
End requests.

Lemma signed_message_determines_request_witness :
  sample_eid = sample_eid ∧ 1000%N = 1000%N.
Proof.
  destruct (signed_message_determines_request "browser_round" "browser_round" sample_eid sample_eid
    1000 1000 (vreplicate 16 Byte.x01) (vreplicate 16 Byte.x01) [] [] "t" "t")
    as (_ & He & Hc & _); [..|reflexivity|].
  - apply (bool_decide_unpack _). by vm_compute.
  - apply (bool_decide_unpack _). by vm_compute.
  - by vm_compute.
  - by vm_compute.
  - by split.
Defined.

(** The sample session, opened by its three segments. *)
Abbreviation sample_bind_world := (mkBrowserWorld sample_bound [] []).

Lemma sample_bind_world_reachable : browser_reachable sample_bind_world.
Proof.
  set (call := sample_bind [Byte.x0c] Byte.x01).
  exists (mkBrowserWorld sample_listener [] []). split.
  { exists sample_collecting_run, "vote.example"%string, None. by split. }
  assert (bind_check call sample_listener = Ok (client1, 1%N)) as Hc by by vm_compute.
  destruct (bind_count (client1, 1%N) sample_listener) as [c1 r1] eqn:Hn.
  assert (r1 = Ok tt) as -> by (apply (f_equal snd) in Hn; by vm_compute in Hn).
  apply (rtc_l _ _ (mkBrowserWorld sample_listener [(call, (client1, 1%N))] [])).
  { exact (bs_bind_check (mkBrowserWorld sample_listener [] []) call _ Hc). }
  apply (rtc_l _ _ (mkBrowserWorld c1 [] [(call, client1)])).
  { exact (bs_bind_count (mkBrowserWorld sample_listener [(call, (client1, 1%N))] []) call
      (client1, 1%N) [] c1 (reflexivity _) Hn). }
  destruct (bind_insert call client1 [sample_draw Byte.x41] c1) as [[c2 resp]|] eqn:Hi.
  - assert (sample_bound = c2) as Hb.
    { unfold sample_bound, bind_webauthn_identity_method. fold call. rewrite Hc, Hn. simpl. by rewrite Hi. }
    rewrite Hb. apply rtc_once.
    exact (bs_bind_insert (mkBrowserWorld c1 [] [(call, client1)]) call client1 [] _ c2 resp
      (reflexivity _) Hi).
  - exfalso.
    assert (is_some (bind_insert call client1 [sample_draw Byte.x41]
      (bind_count (client1, 1%N) sample_listener).1) = true) as Hsome by by vm_compute.
    rewrite Hn in Hsome. cbn [fst] in Hsome. by rewrite Hi in Hsome.
Qed.

Lemma sessions_act_for_verified_identities_witness :
  ∃ ecdsa, ceremony (bw_state sample_bind_world) client1 ecdsa [Byte.x0c].
Proof.
  destruct (sessions_act_for_verified_identities sample_bind_world sample_bind_world_reachable) as [_ Hk].
  assert (resolve_output_encryption_key sample_eid client1 (coordinator (bw_state sample_bind_world)) =
    Ok (Some [Byte.x0c])) as Hs by by vm_compute.
  exact (Hk sample_eid client1 [Byte.x0c] Hs).
Defined.

(** The bind handler gives up the coordinator lock before it records the
    session, so a submission can come in between.  Here the client submits in a
    session whose encryption key is [0c]; a second ceremony, checked before the
    submission and recorded after it, moves the key for the client's outputs to
    [0e], although the same ceremony is refused when it is checked after the
    submission. *)
Theorem bind_races_with_submission :
  let '(c1, _, r) := sample_submission in
  let call := sample_bind [Byte.x0e] Byte.x02 in
  r = Ok tt ∧
  resolve_output_encryption_key sample_eid client1 (coordinator c1) = Ok (Some [Byte.x0c]) ∧
  bind_check call c1 = Err auth_error ∧
  bind_check call sample_bound = Ok (client1, 2%N) ∧
  let '(c2, counted) := bind_count (client1, 2%N) c1 in
  counted = Ok tt ∧
  match bind_insert call client1 [sample_draw Byte.x42] c2 with
  | Some (c3, _) =>
      resolve_output_encryption_key sample_eid client1 (coordinator c3) = Ok (Some [Byte.x0e])
  | None => False
  end.
Proof. vm_compute. split_and!; reflexivity. Qed.

(** ** Status queries *)

Lemma length_filter_all {A} (P : A → Prop) `{∀ x, Decision (P x)} l :
  length (filter P l) = length l ↔ ∀ x, x ∈ l → P x.
Proof.
  induction l as [|x l IH].
  { split; [|done]. intros _ x Hx. by apply not_elem_of_nil in Hx. }
  rewrite filter_cons. setoid_rewrite elem_of_cons. case_decide as Hx; simpl.
  - rewrite Nat.succ_inj_wd, IH. naive_solver.
  - split; [|naive_solver]. pose proof (length_filter P l). lia.
Qed.

Section status.
Context `{HashOrder}.
Implicit Types d : Exec.

Lemma output_keys_count d client :
  vlen (filter (fun k => k.1 = client) (map_iter (output_shares d)).*1) = vlen (shares_for d client).
Proof.
  unfold shares_for, vlen. rewrite length_fmap. f_equal.
  induction (map_iter (output_shares d)) as [|[[c p] sh] l IH]; [done|].
  rewrite fmap_cons, !filter_cons. simpl. case_decide; simpl; auto.
Qed.

(** Every slot assigned to the client is filled. *)
Definition all_submitted d (client : ClientIdentity) : Prop :=
  ∀ i slot, input_assignments d !! i = Some slot → input_slot_client d slot = Some client →
    ∃ m, masked_inputs d !! i = Some (Some m).
Definition all_reserved d (client : ClientIdentity) : Prop :=
  ∀ i slot, input_assignments d !! i = Some slot → input_slot_client d slot = Some client →
    reserved_indices d !! i = Some (Some client).

Lemma forallb_slots d client (g : usize → bool) (P : nat → Prop) :
  (∀ i, g (N.of_nat i) = true ↔ P i) →
  forallb g (slots_of d client) = true ↔
  ∀ i slot, input_assignments d !! i = Some slot → input_slot_client d slot = Some client → P i.
Proof.
  intros Hg. rewrite forallb_forall. setoid_rewrite <-list_elem_of_In. setoid_rewrite elem_of_slots_of.
  split.
  - intros Hall i slot Hl Hs. apply Hg, Hall. exists slot. by rewrite Nat2N.id.
  - intros Hall i (slot & Hl & Hs). rewrite <-(N2Nat.id i). apply Hg. by eapply Hall.
Qed.

Lemma submitted_at_iff d i : submitted_at d (N.of_nat i) = true ↔ ∃ m, masked_inputs d !! i = Some (Some m).
Proof.
  unfold submitted_at. rewrite Nat2N.id. destruct (masked_inputs d !! i) as [[m|]|]; naive_solver.
Qed.

Lemma reserved_at_iff d client i :
  reserved_at d client (N.of_nat i) = true ↔ reserved_indices d !! i = Some (Some client).
Proof. unfold reserved_at. rewrite Nat2N.id. apply bool_decide_eq_true. Qed.

Definition assigned_clients d : gset ClientIdentity :=
  list_to_set (omap (input_slot_client d) (input_assignments d)).
Definition finished_clients d : list ClientIdentity :=
  filter (fun c => forallb (submitted_at d) (slots_of d c) = true) (set_iter (assigned_clients d)).

(** The status in closed form. *)
Lemma browser_execution_status_eq nodes q s eid client d :
  executions s !! eid = Some d → exec_wf nodes q d →
  browser_execution_status eid client s =
    if bool_decide (slots_of d client = []) && negb (contains (output_clients d) client)
    then Err unauthorized_error
    else Ok {| st_round := round d;
        st_input_indices := slots_of d client;
        st_total_inputs := n_inputs (registration d);
        st_reserved_inputs := N.of_nat (count_some (reserved_indices d));
        st_submitted_inputs := N.of_nat (count_some (masked_inputs d));
        st_total_clients := N.of_nat (size (assigned_clients d));
        st_submitted_clients := vlen (finished_clients d);
        st_own_input_reserved := negb (bool_decide (slots_of d client = [])) &&
          forallb (reserved_at d client) (slots_of d client);
        st_own_input_submitted := negb (bool_decide (slots_of d client = [])) &&
          forallb (submitted_at d) (slots_of d client);
        st_output_ready := contains (output_clients d) client &&
          (as_usize (min_output_shares (registration d)) <=? vlen (shares_for d client))%N |}.
Proof.
  intros Hd Hwf. unfold browser_execution_status. rewrite Hd. simpl.
  destruct (bool_decide (slots_of d client = []) && _) eqn:Hauth; [done|]. simpl.
  assert ((if bool_decide (slots_of d client = []) then Ok false
     else try_all (slot_reserved_by d client) (slots_of d client)) =
     Ok (E := ErrorObject) (negb (bool_decide (slots_of d client = [])) &&
       forallb (reserved_at d client) (slots_of d client))) as ->.
  { destruct (bool_decide (slots_of d client = [])); [done|]. apply try_all_total.
    intros i Hi. by eapply slot_reserved_total. }
  assert ((if bool_decide (slots_of d client = []) then Ok false
     else try_all (slot_submitted d) (slots_of d client)) =
     Ok (E := ErrorObject) (negb (bool_decide (slots_of d client = [])) &&
       forallb (submitted_at d) (slots_of d client))) as ->.
  { destruct (bool_decide (slots_of d client = [])); [done|]. by eapply submitted_slots_total. }
  simpl. rewrite (try_filter_total _ (fun c => forallb (submitted_at d) (slots_of d c)))
    by (intros c _; by eapply submitted_slots_total).
  simpl. by rewrite output_keys_count.
Qed.

(** All clients are done exactly when every assigned slot is filled. *)
Lemma finished_clients_all nodes q d :
  exec_wf nodes q d →
  vlen (finished_clients d) = N.of_nat (size (assigned_clients d)) ↔
  ∀ i slot, input_assignments d !! i = Some slot → ∃ m, masked_inputs d !! i = Some (Some m).
Proof.
  intros Hwf. unfold vlen, finished_clients. rewrite Nat2N.inj_iff.
  assert (size (assigned_clients d) = length (set_iter (assigned_clients d))) as ->.
  { rewrite set_iter_perm. done. }
  rewrite length_filter_all. setoid_rewrite (forallb_slots d _ _ _ (submitted_at_iff d)).
  setoid_rewrite elem_of_set_iter. unfold assigned_clients. setoid_rewrite elem_of_list_to_set.
  setoid_rewrite list_elem_of_omap. split; [|naive_solver].
  intros Hall i slot Hl. pose proof (wf_slot_clients _ _ _ Hwf) as Hsc. rewrite Forall_forall in Hsc.
  apply list_elem_of_lookup_2 in Hl as Hin. destruct (Hsc slot Hin) as [c Hc]. eapply Hall; eauto.
Qed.

(** The status a browser sees is the state of the execution.  It is refused
    exactly to identities that neither have a slot nor receive outputs, and it
    never panics.  The slots listed are those assigned to the client; the flags say
    whether all of them are reserved by the client and filled; the client counts
    agree exactly when every assigned slot is filled; and outputs are reported
    ready exactly when fetching them succeeds. *)
Theorem status_agrees_with_state s eid client d
    (Hwf : server_wf s) (Hd : executions s !! eid = Some d) :
  let r := browser_execution_status eid client s in
  no_panic r ∧
  (is_ok r = false ↔ slots_of d client = [] ∧ client ∉ output_clients d) ∧
  ∀ st, r = Ok st →
    st_round st = round d ∧
    (∀ i, i ∈ st_input_indices st ↔
       ∃ slot, input_assignments d !! N.to_nat i = Some slot ∧ input_slot_client d slot = Some client) ∧
    (st_own_input_reserved st = true ↔ st_input_indices st ≠ [] ∧ all_reserved d client) ∧
    (st_own_input_submitted st = true ↔ st_input_indices st ≠ [] ∧ all_submitted d client) ∧
    (st_submitted_clients st = st_total_clients st ↔
       ∀ i slot, input_assignments d !! i = Some slot → ∃ m, masked_inputs d !! i = Some (Some m)) ∧
    (st_output_ready st = true ↔ ∃ shares, browser_output_shares eid client s = Ok (Some shares)).
Proof.
  intros r. destruct (sw_execs s Hwf eid d Hd) as (_ & _ & Hdwf).
  unfold r. rewrite (browser_execution_status_eq _ _ s eid client d Hd Hdwf). clear r.
  destruct (bool_decide (slots_of d client = []) && negb (contains (output_clients d) client)) eqn:Hauth.
  { reflect_bool. split_and!; [done| |done]. simpl. by rewrite <-contains_false. }
  split_and!; [done| |].
  { simpl. split; [done|]. intros [Hs Hc]. rewrite bool_decide_true in Hauth by done.
    apply contains_false in Hc. by rewrite Hc in Hauth. }
  intros st Hst. injection Hst as <-. simpl. split_and!.
  - done.
  - intros i. apply elem_of_slots_of.
  - rewrite andb_true_iff, negb_true_iff, bool_decide_eq_false.
    by rewrite (forallb_slots d client _ _ (reserved_at_iff d client)).
  - rewrite andb_true_iff, negb_true_iff, bool_decide_eq_false.
    by rewrite (forallb_slots d client _ _ (submitted_at_iff d)).
  - by eapply finished_clients_all.
  - unfold browser_output_shares. rewrite Hd. simpl.
    destruct (contains (output_clients d) client); simpl; [|naive_solver].
    rewrite N.ltb_antisym. destruct (_ <=? _)%N; naive_solver.
Qed.
End status.

Lemma status_agrees_with_state_witness :
  no_panic (browser_execution_status sample_eid client1 sample_collecting_run).
Proof.
  refine (proj1 (status_agrees_with_state sample_collecting_run sample_eid client1
    (sample_get sample_collecting_run) _ _)).
  - apply reachable_wf, sample_collecting_run_reachable.
  - apply sample_get_Some. by vm_compute.
Defined.
