(* ===== verification/BrowserServe.v ===== *)
(** The two browser interfaces as wholes: the methods each listener registers and
    what is done with a request for one of them
    (src/crates/off-chain/src/browser_rpc.rs, [coordinator_browser_methods] and
    [node_browser_methods]). *)
From S2P Require Import Prelude Shared Execution Samples Rounds Sessions Server Rpc ServerSamples.
From S2P Require Import Invariant History Topology Machine Inputs NodeRpc NodeBook NodeBookFacts NodeWorld.
From S2P Require Import Browser BrowserSamples BrowserFacts BrowserRequests.

(** ** Registration *)

Definition coordinator_method_names : list string :=
  ["browser_execution_status"; "browser_round"; "browser_reserve_mask_indices";
   "browser_submit_masked_inputs"; "browser_output_shares"; "browser_bind_webauthn_identity"].
Definition node_method_names : list string :=
  ["browser_assigned_mask_shares"; "browser_bind_webauthn_identity"].

(** Registering one method after the other on a fresh module; each registration is
    unwrapped with [expect("method name is unique")]. *)
Fixpoint register_methods {M} (register : string → M → option M) (names : list string) (module : M)
    : result unit M :=
  match names with
  | [] => Ok module
  | name :: names => module ← expect (register name module); register_methods register names module
  end.

(** ** Requests *)

(** A request whose parameters could be read. *)
Inductive CoordinatorBrowserRPC : Type :=
  | BrowserExecutionStatusOf (call : BrowserCall)
  | BrowserRoundOf (execution_id : ExecutionId)
  | BrowserReserveMaskIndices (call : BrowserCall)
  | BrowserSubmitMaskedInputs (call : BrowserCall)
  | BrowserOutputSharesOf (call : BrowserCall)
  | BrowserBindIdentity (call : BindWebauthnIdentity).

Inductive NodeBrowserRPC : Type :=
  | BrowserAssignedMaskShares (call : BrowserCall)
  | BrowserBindIdentityToNode (call : BindWebauthnIdentityToNode).

Inductive BrowserReply : Type :=
  | StatusReply (status : BrowserExecutionStatus)
  | RoundReply (r : Round)
  | DoneReply
  | OutputSharesReply (shares : option (list (bytes * bytes)))
  | MaskSharesReply (shares : option (list AssignedMaskShare))
  | BoundReply (response : WebauthnBindingResponse).

Section serve.
Context `{HashOrder} `{Platform}.
(** [parse_body] at the three types of bodies. *)
Context (parse_indices : bytes → option (list u64)) (parse_batch : bytes → option MaskedInputBatch).
Context (parse_range : bytes → option MaskRange).

Abbreviation BrowserOutcome A := (CoordinatorBrowserState * list Send * result ErrorObject A)%type.

Definition reply_with {A} (f : A → BrowserReply) (o : BrowserOutcome A) : BrowserOutcome BrowserReply :=
  let '(c, log, r) := o in (c, log, f <$> r).

(** [now] is the clock and [draws] the random tokens; [None] when they are used up. *)
Definition serve_browser (net : Net) (now : u64) (draws : list (vec byte 32))
    (req : CoordinatorBrowserRPC) (c : CoordinatorBrowserState) : option (BrowserOutcome BrowserReply) :=
  match req with
  | BrowserExecutionStatusOf call => Some (reply_with StatusReply (execution_status_method call now c))
  | BrowserRoundOf eid => Some (reply_with RoundReply (c, [], browser_round eid (coordinator c)))
  | BrowserReserveMaskIndices call =>
      Some (reply_with (fun _ => DoneReply) (reserve_mask_indices_method parse_indices net call now c))
  | BrowserSubmitMaskedInputs call =>
      Some (reply_with (fun _ => DoneReply) (submit_masked_inputs_method parse_batch net call now c))
  | BrowserOutputSharesOf call => Some (reply_with OutputSharesReply (output_shares_method call now c))
  | BrowserBindIdentity call =>
      '(c, r) ← bind_webauthn_identity_method call draws c; Some (reply_with BoundReply (c, [], r))
  end.

Definition serve_node_browser (now : u64) (draws : list (vec byte 32)) (req : NodeBrowserRPC)
    (c : NodeBrowserState) : option (NodeBrowserState * result ErrorObject BrowserReply) :=
  match req with
  | BrowserAssignedMaskShares call =>
      let '(c, r) := assigned_mask_shares_method parse_range call now c in Some (c, MaskSharesReply <$> (r : result ErrorObject _))
  | BrowserBindIdentityToNode call =>
      '(c, r) ← node_bind_method call draws c; Some (c, BoundReply <$> (r : result ErrorObject _))
  end.

(** ** Every request is answered *)

Lemma register_methods_ok (register : string → list string → option (list string)) names module :
  (∀ name l, name ∉ l → register name l = Some (l ++ [name])) → NoDup (module ++ names) →
  register_methods register names module = Ok (module ++ names).
Proof.
  intros Hr. revert module. induction names as [|x names IH]; intros module Hn; simpl.
  { by rewrite app_nil_r. }
  rewrite Hr.
  - simpl. rewrite IH by by rewrite <-app_assoc. by rewrite <-app_assoc.
  - intros Hx. apply NoDup_app in Hn as (_ & Hn & _). eapply Hn; [exact Hx|left].
Qed.

Lemma authenticate_no_panic method call now nonces b : no_panic (authenticate method call now nonces b).2.
Proof.
  unfold authenticate. destruct (nonce ← check_signature method call; _) as [[nonce id]| |] eqn:Hc; [|done|].
  - unfold nonce_accept. by repeat case_match; simplify_eq.
  - exfalso. assert (no_panic (nonce ← check_signature method call;
      identity ← session_identity b (call_request call); Ok (nonce, identity))) as Hn.
    { unfold check_signature, session_identity. repeat (apply bind_no_panic; [auto with coord|intros ? ?]).
      all: repeat (apply bind_no_panic; [|intros ? ?]); auto with coord; done. }
    by rewrite Hc in Hn.
Qed.

Lemma verify_webauthn_assertion_no_panic assertion key rp origin challenge :
  no_panic (verify_webauthn_assertion assertion key rp origin challenge).
Proof.
  unfold verify_webauthn_assertion. do 6 (apply bind_no_panic; [auto with coord|intros ? _]).
  apply bind_no_panic; [auto with coord|]. intros [] Hlen%ensure_Ok_inv. reflect_bool. unfold vlen in Hlen.
  apply bind_no_panic; [auto with coord|]. intros _ _.
  apply bind_no_panic; [apply index_no_panic; unfold vlen; lia|]. intros flags _.
  apply bind_no_panic; [auto with coord|]. intros _ _.
  apply bind_no_panic.
  - assert (length (take 4 (drop 33 (authenticator_data assertion))) = 4) as Hl.
    { rewrite length_take, length_drop. lia. }
    destruct (take 4 (drop 33 (authenticator_data assertion))) as [|? [|? [|? [|? [|]]]]]; simpl in Hl; try lia.
    done.
  - intros ? _. repeat (apply bind_no_panic; [auto with coord|intros ? _]). done.
Qed.

Lemma as_identity_no_panic {A} method call now f c :
  (∀ identity c', coordinator c' = coordinator c → no_panic (f identity c').2) →
  no_panic (as_identity (A := A) method call now f c).2.
Proof.
  intros Hf. unfold as_identity.
  pose proof (authenticate_no_panic method call now (cb_nonces c) (cb_bindings c)) as Ha.
  destruct (authenticate _ _ _ _ _) as [nonces [identity|e|]]; [by apply Hf|done|done].
Qed.

Lemma with_body_no_panic {A B} decode call (f : A → Server → Outcome B) c :
  (∀ a, no_panic (f a (coordinator c)).2) → no_panic (with_body decode call f c).2.
Proof.
  intros Hf. unfold with_body. destruct (decode _) as [a|]; [|done]. specialize (Hf a).
  by destruct (f a (coordinator c)) as [[s log] r].
Qed.

Lemma reply_with_no_panic {A} (f : A → BrowserReply) o : no_panic o.2 → no_panic (reply_with f o).2.
Proof. by destruct o as [[c log] []]. Qed.

Lemma bind_method_no_panic call draws c c' r :
  server_wf (coordinator c) →
  bind_webauthn_identity_method call draws c = Some (c', r) → no_panic r.
Proof.
  intros Hwf Hm. unfold bind_webauthn_identity_method in Hm.
  assert (no_panic (bind_check call c)) as Hc.
  { destruct (executions (coordinator c) !! bind_execution_id call) as [d|] eqn:Hd.
    - destruct (sw_execs _ Hwf _ _ Hd) as (_ & _ & Hdwf).
      rewrite (bind_check_eq _ _ call c d Hd Hdwf). by repeat case_match.
    - unfold bind_check. by rewrite Hd. }
  destruct (bind_check call c) as [found| |]; [|by simplify_eq|done].
  destruct (bind_count_cases found c) as [[_ Hn]|[_ Hn]]; rewrite Hn in Hm; [|by simplify_eq].
  destruct (bind_insert _ _ _ _) as [[??]|]; simpl in Hm; by simplify_eq.
Qed.

Lemma serve_browser_no_panic net now draws req c c' log r :
  reachable (coordinator c) →
  serve_browser net now draws req c = Some (c', log, r) → no_panic r.
Proof.
  intros Hreach Hs. apply reachable_wf in Hreach as Hwf.
  destruct (handlers_never_panic (coordinator c) Hreach) as (_ & _ & _ & Hres & Hsub & _).
  assert (∀ o : BrowserOutcome BrowserReply, Some o = Some (c', log, r) → no_panic o.2 → no_panic r) as Hdone.
  { by intros o [= ->]. }
  destruct req as [call|eid|call|call|call|call]; simpl in Hs.
  - eapply Hdone; [exact Hs|]. apply reply_with_no_panic, as_identity_no_panic. intros identity c1 Hc1. simpl.
    rewrite Hc1. destruct (executions (coordinator c) !! call_execution_id call) as [d|] eqn:Hd.
    + destruct (sw_execs _ Hwf _ _ Hd) as (_ & _ & Hdwf).
      rewrite (browser_execution_status_eq _ _ _ _ _ d Hd Hdwf). by case_match.
    + unfold browser_execution_status. by rewrite Hd.
  - eapply Hdone; [exact Hs|]. unfold browser_round. simpl. by destruct (executions _ !! eid).
  - eapply Hdone; [exact Hs|]. apply reply_with_no_panic, as_identity_no_panic. intros identity c1 Hc1.
    apply with_body_no_panic. intros a. rewrite Hc1. apply Hres.
  - eapply Hdone; [exact Hs|]. apply reply_with_no_panic, as_identity_no_panic. intros identity c1 Hc1.
    apply with_body_no_panic. intros a. rewrite Hc1.
    specialize (Hsub net identity (call_execution_id call) (batch_masked_inputs a) (batch_reserved_indices a)).
    destruct (submit_masked_inputs _ _ _ _ _ _) as [[s1 l1] []]; done.
  - eapply Hdone; [exact Hs|]. apply reply_with_no_panic, as_identity_no_panic. intros identity c1 Hc1. simpl.
    unfold browser_output_shares. apply bind_no_panic; [auto with coord|]. intros d _.
    apply bind_no_panic; [auto with coord|]. intros _ _. by case_match.
  - destruct (bind_webauthn_identity_method call draws c) as [[c1 r1]|] eqn:Hm; [|done]. simpl in Hs.
    injection Hs as <- <- <-. apply bind_method_no_panic in Hm; [|done..]. by destruct r1.
Qed.

Lemma serve_node_browser_no_panic now draws req w c' r :
  node_world_ok w → serve_node_browser now draws req (nw_state w) = Some (c', r) → no_panic r.
Proof.
  intros Hw Hs. destruct req as [call|call]; simpl in Hs.
  - unfold assigned_mask_shares_method in Hs.
    pose proof (authenticate_no_panic "browser_assigned_mask_shares" call now (nb_nonces (nw_state w))
      (nb_bindings (nw_state w))) as Ha.
    destruct (authenticate _ _ _ _ _) as [nonces o]. injection Hs as <- <-.
    assert (no_panic (identity ← o; range ← ok_or (parse_range (body (call_request call))) body_error;
      browser_mask_shares (call_execution_id call) identity range (node (nw_state w)))) as Hn.
    { apply bind_no_panic; [done|]. intros identity _. apply bind_no_panic; [auto with coord|]. intros range _.
      unfold browser_mask_shares. apply bind_no_panic; [auto with coord|]. intros ref Href%ok_or_Ok_inv.
      destruct (ns_allocated _ (nk_registry w Hw) _ ref Href) as [d Hd]. rewrite Hd. simpl.
      destruct (nk_objects w Hw ref d Hd) as [Hwf _].
      pose proof (request_fails d identity (mr_start range) (mr_count range) _ Hwf (reflexivity _)) as Hf.
      by destruct (assigned_mask_shares_for_client _ _ _ _). }
    change (no_panic (MaskSharesReply <$> (identity ← o;
      range ← ok_or (parse_range (body (call_request call))) body_error;
      browser_mask_shares (call_execution_id call) identity range (node (nw_state w))))).
    by destruct (identity ← o; _).
  - destruct (node_bind_method call draws (nw_state w)) as [[c1 r1]|] eqn:Hm; [|done]. simpl in Hs.
    injection Hs as <- <-. enough (no_panic r1) by by destruct r1. unfold node_bind_method in Hm.
    pose proof (verify_webauthn_assertion_no_panic (nb_assertion call) (nb_client_identity call)
      (nb_rp_id_hash (nw_state w)) (nb_origin (nw_state w))
      (webauthn_bind_challenge (nb_ecdsa_public_key call) (nb_ecdh_public_key call))) as Hv.
    destruct (verify_webauthn_assertion _ _ _ _ _) as [k| |]; simpl in Hm; [|by simplify_eq|done].
    destruct (sign_count_accept_cases (nb_sign_counts (nw_state w)) (nb_client_identity call) k)
      as [[_ Hc]|[_ Hc]]; rewrite Hc in Hm; [|by simplify_eq].
    destruct (bindings_insert _ _ _ _ _) as [[??]|]; simpl in Hm; by simplify_eq.
Qed.

(** C19: every browser request is answered.  The methods of each listener have different
    names, so a module that accepts fresh names is built without a panic; and no
    request panics, at the coordinator in a reachable state and at a node in a
    reachable world. *)
Theorem every_browser_request_is_answered c w
    (Hreach : reachable (coordinator c)) (Hnode : node_reachable w) :
  (∀ register : string → list string → option (list string),
     (∀ name l, name ∉ l → register name l = Some (l ++ [name])) →
     register_methods register coordinator_method_names [] = Ok coordinator_method_names ∧
     register_methods register node_method_names [] = Ok node_method_names) ∧
  (∀ net now draws req c' log r, serve_browser net now draws req c = Some (c', log, r) → no_panic r) ∧
  (∀ now draws req c' r, serve_node_browser now draws req (nw_state w) = Some (c', r) → no_panic r).
Proof.
  split_and!.
  - intros register Hr. split; (rewrite register_methods_ok; [done|done|]);
      apply (bool_decide_unpack _); by vm_compute.
  - intros net now draws req c' log r. by apply serve_browser_no_panic.
  - intros now draws req c' r. apply serve_node_browser_no_panic. by apply node_reachable_ok.
Qed.
End serve.

Lemma every_browser_request_is_answered_witness :
  register_methods (fun name l => Some (l ++ [name])) coordinator_method_names [] =
    Ok coordinator_method_names.
Proof.
  destruct (every_browser_request_is_answered (fun _ => None) (fun _ => None) (fun _ => None)
    sample_listener sample_node_world) as [Hr _].
  - exact sample_collecting_run_reachable.
  - exact sample_node_world_reachable.
  - by apply Hr.
Defined.
