(* ===== verification/BrowserClient.v ===== *)
(** The honest browser of the test suite: how it builds the assertion of its passkey
    and signs a request, and that the coordinator serves it
    (src/crates/off-chain/src/browser_rpc.rs, [tests]). *)
From S2P Require Import Prelude Shared Execution Samples Rounds Sessions Server Rpc ServerSamples.
From S2P Require Import Invariant History Topology Machine Inputs NodeRpc Browser BrowserSamples.
From S2P Require Import BrowserFacts.

(** ** What the browser's side takes from other crates *)

(** The signing half of P-256 ECDSA, its encodings, and the JSON text of the client
    data with a given challenge and origin. *)
Class Authenticator `{Platform} : Type := {
  SigningKey : Type;
  verifying_key : SigningKey → VerifyingKey;
  to_sec1_bytes : VerifyingKey → bytes;
  sign : SigningKey → bytes → Signature;
  to_bytes : Signature → bytes;
  to_der : Signature → bytes;
  client_data_text : string → string → bytes }.

(** What is documented of them: encodings are read back, a signature verifies under
    the signer's key, base64 decodes what it encoded, and the text is an object with
    the three fields. *)
Class AuthenticatorLaws `{Authenticator} : Prop := {
  sec1_round_trip : ∀ k, from_sec1_bytes (to_sec1_bytes k) = Some k;
  fixed_round_trip : ∀ s, from_slice (to_bytes s) = Some s;
  der_round_trip : ∀ s, from_der (to_der s) = Some s;
  verify_sign : ∀ sk m, verify (verifying_key sk) m (sign sk m) = true;
  base64_round_trip : ∀ x, base64_decode (base64_encode x) = Some (vec_to_list x);
  client_data_fields : ∀ challenge origin, ∃ v,
    value_from_slice (client_data_text challenge origin) = Some v ∧
    value_get_str v "type" = Some "webauthn.get"%string ∧
    value_get_str v "challenge" = Some challenge ∧ value_get_str v "origin" = Some origin }.

(** [x.to_be_bytes()] *)
Definition to_be_bytes (n : nat) (x : N) : bytes := reverse (to_le_bytes n x).

Section browser.
Context `{Authenticator}.

Definition public_bytes (sk : SigningKey) : bytes := to_sec1_bytes (verifying_key sk).

(** [make_assertion_with_sign_count], for any relying party: the assertion of the
    passkey [signing_key]. *)
Definition make_assertion_with_sign_count (rp_id_hash : vec byte 32) (signing_key : SigningKey)
    (challenge : vec byte 32) (origin : string) (user_present user_verified : bool) (sign_count : u32)
    : WebauthnAssertion :=
  let client_data_json := client_data_text (base64_encode challenge) origin in
  let flags := 0%N in
  let flags := if user_present then N.lor flags 1 else flags in
  let flags := if user_verified then N.lor flags 4 else flags in
  let authenticator_data :=
    vec_to_list rp_id_hash ++ [default Byte.x00 (Byte.of_N flags)] ++ to_be_bytes 4 sign_count in
  let signed := authenticator_data ++ vec_to_list (sha256 client_data_json) in
  mkWebauthnAssertion authenticator_data client_data_json (to_der (sign signing_key signed)).

(** A request for [method] signed in a session. *)
Definition signed_call (method : string) (eid : ExecutionId) (session_key : SigningKey) (created : u64)
    (nonce : vec byte 16) (body : bytes) (token : string) : BrowserCall :=
  mkBrowserCall eid (mkSignedBrowserRequest (public_bytes session_key) created (vec_to_list nonce)
    (to_bytes (sign session_key (authentication_message method eid created nonce body token))) body token).

(** ** It is served *)

Context `{!AuthenticatorLaws}.

Lemma length_to_be_bytes n x : length (to_be_bytes n x) = n.
Proof. unfold to_be_bytes. by rewrite length_reverse, length_to_le_bytes. Qed.

Lemma foldl_be_app l b acc :
  foldl (fun acc b => (acc * 256 + Byte.to_N b)%N) acc (l ++ [b]) =
  (foldl (fun acc b => (acc * 256 + Byte.to_N b)%N) acc l * 256 + Byte.to_N b)%N.
Proof. by rewrite foldl_app. Qed.

Lemma be_bytes_round_trip n x : (x < 256 ^ N.of_nat n)%N → from_be_bytes (to_be_bytes n x) = x.
Proof.
  revert x. induction n as [|n IH]; intros x Hx; [simpl in *; unfold from_be_bytes; simpl; lia|].
  rewrite Nat2N.inj_succ, N.pow_succ_r' in Hx. unfold to_be_bytes, from_be_bytes in *. simpl.
  destruct (byte_of_mod x) as (b & Hb & Hb'). rewrite Hb. simpl. rewrite reverse_cons, foldl_be_app, Hb'.
  rewrite IH by (apply N.Div0.div_lt_upper_bound; lia). rewrite (N.div_mod' x 256) at 3. lia.
Qed.

Lemma try_into_length {A} n (l : list A) : length l = n → ∃ v, try_into n l = Some v ∧ vec_to_list v = l.
Proof.
  intros <-. exists (list_to_vec l). split; [|apply vec_to_list_to_vec].
  pose proof (try_into_vec (list_to_vec l)) as Hv. by rewrite vec_to_list_to_vec in Hv.
Qed.

(** An assertion verifies under the passkey's public key exactly when the user was
    present and verified and the origin and the challenge are the expected ones; it
    shows the authenticator's counter. *)
Lemma make_assertion_verifies rp_id_hash sk challenge origin up uv count origin' challenge' :
  (count < u32_modulus)%N →
  verify_webauthn_assertion (make_assertion_with_sign_count rp_id_hash sk challenge origin up uv count)
    (public_bytes sk) rp_id_hash origin' challenge' =
  if up && uv && bool_decide (origin = origin') && bool_decide (challenge = challenge')
  then Ok count else Err tt.
Proof.
  intros Hc. unfold verify_webauthn_assertion. cbn [client_data_json make_assertion_with_sign_count].
  destruct (client_data_fields (base64_encode challenge) origin) as (v & -> & Ht & Hch & Ho).
  cbn [ok_or mbind result_bind]. rewrite Ht, Hch, Ho.
  change (bool_decide (Some "webauthn.get"%string = Some "webauthn.get"%string)) with true.
  cbn [ensure ok_or mbind result_bind].
  assert (bool_decide (Some origin = Some origin') = bool_decide (origin = origin')) as ->.
  { apply bool_decide_ext. naive_solver. }
  destruct (bool_decide (origin = origin')) eqn:Horigin; [|by destruct up, uv].
  cbn [ensure mbind result_bind]. rewrite base64_round_trip. cbn [ok_or mbind result_bind].
  assert (bool_decide (vec_to_list challenge = vec_to_list challenge') = bool_decide (challenge = challenge')) as ->.
  { apply bool_decide_ext. split; [apply vec_to_list_inj'|by intros ->]. }
  destruct (bool_decide (challenge = challenge')); [|by destruct up, uv].
  cbn [ensure mbind result_bind].
  cbn [authenticator_data make_assertion_with_sign_count assertion_signature].
  set (flag := default Byte.x00 _). set (be := to_be_bytes 4 count).
  assert (length be = 4%nat) as Hbe by apply length_to_be_bytes.
  assert (length (vec_to_list rp_id_hash) = 32%nat) as Hrp by apply length_vec_to_list.
  assert (vlen (vec_to_list rp_id_hash ++ [flag] ++ be) = 37%N) as ->.
  { unfold vlen. rewrite !length_app, Hrp, Hbe. done. }
  cbn [N.ltb N.compare negb ensure mbind result_bind].
  rewrite (take_app_length' _ _ 32) by done. rewrite bool_decide_true by done. cbn [ensure mbind result_bind].
  unfold index. change (N.to_nat 32) with 32%nat.
  rewrite lookup_app_r by lia. rewrite Hrp. cbn [Nat.sub lookup list_lookup app expect mbind result_bind].
  assert (drop 33 (vec_to_list rp_id_hash ++ flag :: be) = be) as ->.
  { change (flag :: be) with ([flag] ++ be). rewrite app_assoc. apply drop_app_length'. rewrite length_app, Hrp. done. }
  rewrite (take_ge be) by lia. destruct (try_into_length 4 be Hbe) as (vb & -> & Hvb).
  cbn [expect mbind result_bind]. rewrite Hvb. unfold be. rewrite be_bytes_round_trip by (unfold u32_modulus in Hc; exact Hc).
  unfold public_bytes at 1. rewrite sec1_round_trip. cbn [ok_or mbind result_bind]. rewrite der_round_trip.
  cbn [ok_or mbind result_bind].
  rewrite verify_sign. by destruct up, uv.
Qed.

Lemma signed_call_signature method eid sk created nonce body token :
  check_signature method (signed_call method eid sk created nonce body token) = Ok nonce.
Proof.
  unfold check_signature, signed_call. cbn [call_request Browser.nonce]. rewrite try_into_vec.
  cbn [ok_or mbind result_bind public_key Browser.signature]. unfold public_bytes.
  rewrite sec1_round_trip, fixed_round_trip. cbn [ok_or mbind result_bind call_execution_id Browser.created Browser.body session_token].
  by rewrite verify_sign.
Qed.

Lemma signed_call_authenticated method eid sk created nonce body token now nonces b identity ecdh :
  bindings_get b token = Some (mkWebauthnBinding identity (public_bytes sk) ecdh) →
  (u64_abs_diff now created <= NONCE_WINDOW_SECONDS)%N →
  (∀ created', (created', nonce) ∉ default [] (seen nonces !! (eid, identity))) →
  (authenticate method (signed_call method eid sk created nonce body token) now nonces b).2 = Ok identity.
Proof.
  intros Hb Hclock Hnew. unfold authenticate. rewrite signed_call_signature.
  unfold session_identity. cbn [mbind result_bind call_request signed_call session_token]. rewrite Hb.
  cbn [ok_or mbind result_bind ecdsa_public_key public_key client_identity].
  rewrite bool_decide_true by done. cbn [ensure mbind result_bind call_execution_id Browser.created].
  unfold nonce_accept. rewrite (proj2 (N.ltb_ge _ _)) by done.
  destruct (existsb _ _) eqn:He; [|done]. exfalso. apply existsb_exists in He as ([t x] & Hin & Hx).
  apply bool_decide_eq_true in Hx. simpl in Hx. subst x. apply list_elem_of_In, list_elem_of_filter in Hin as [_ Hin].
  by eapply Hnew.
Qed.

(** C28: an honest browser is served.  A client whose passkey the execution admits, that
    has not submitted yet and whose authenticator counts on, builds the assertion of
    its passkey over two fresh session keys: the bind ceremony succeeds for its
    identity, and a request it then signs with the session key, with a clock at most
    two minutes off and a nonce it has not used, is authenticated as its identity.
    Its assertion must not verify under the key of another admitted client. *)
Theorem honest_browser_is_served rp_id nodes q c d eid passkey session_key ecdh cred count draw draws
    method body created now nonce
    (Hd : executions (coordinator c) !! eid = Some d) (Hwf : exec_wf nodes q d)
    (Hrp : cb_rp_id_hash c = sha256 (str_bytes rp_id)) (Horigin : cb_origin c = ("https://" ++ rp_id)%string)
    (Hadmitted : public_bytes passkey ∈ bind_candidates d)
    (Hopen : ∀ i, i ∈ slots_of d (public_bytes passkey) → submitted_at d i = false)
    (Hcount : fresh_count (cb_sign_counts c) (public_bytes passkey) count) (Hwidth : (count < u32_modulus)%N)
    (Hdraw : draw ∈ draws) (Hfree : bindings_get (cb_bindings c) (base64_encode draw) = None)
    (Hclock : (u64_abs_diff now created <= NONCE_WINDOW_SECONDS)%N)
    (Hnonce : ∀ created', (created', nonce) ∉ default [] (seen (cb_nonces c) !! (eid, public_bytes passkey))) :
  let assertion := make_assertion_with_sign_count (sha256 (str_bytes rp_id)) passkey
    (webauthn_bind_challenge (public_bytes session_key) ecdh) ("https://" ++ rp_id) true true count in
  let call := mkBindWebauthnIdentity eid assertion (public_bytes session_key) ecdh cred in
  (∀ other, other ∈ bind_candidates d → is_ok (bind_verifies call c other) = true →
     other = public_bytes passkey) →
  ∃ c' resp, bind_webauthn_identity_method call draws c = Some (c', Ok resp) ∧
    resp_client_identity resp = public_bytes passkey ∧
    (authenticate method
       (signed_call method eid session_key created nonce body (resp_session_token resp))
       now (cb_nonces c') (cb_bindings c')).2 = Ok (public_bytes passkey).
Proof.
  intros assertion call Hunique.
  assert (bind_verifies call c (public_bytes passkey) = Ok count) as Hv.
  { unfold bind_verifies, call, assertion. simpl. rewrite Hrp, Horigin, make_assertion_verifies by done.
    by rewrite !bool_decide_true. }
  destruct (bind_admits nodes q call draws c d (public_bytes passkey) count draw)
    as (c' & resp & Hbind & Hid & Hn & Hb); [done..|].
  exists c', resp. split_and!; [done..|]. eapply signed_call_authenticated; [exact Hb|done|]. by rewrite Hn.
Qed.
End browser.
