(* ===== verification/BrowserTests.v ===== *)
(** The program's own tests of the browser transport, run on the model
    (src/crates/off-chain/src/browser_rpc.rs, [tests]).

    A test is a computation that panics when an assertion fails.  The tests are
    written for any signature scheme, hash, JSON and base64 ([Platform],
    [Authenticator]); they are run on concrete ones. *)
From S2P Require Import Prelude Shared Execution Samples Sessions Server Rpc ServerSamples.
From S2P Require Import Invariant History Topology Machine Inputs NodeRpc Browser BrowserFacts BrowserClient.

Abbreviation TestRun := (result unit unit).

(** [assert!], [assert_eq!], [assert_ne!], [result.is_err()] and [unwrap]. *)
Definition assert_true (b : bool) : TestRun := if b then Ok tt else Panic.
Definition assert_eq {A} `{EqDecision A} (x y : A) : TestRun := assert_true (bool_decide (x = y)).
Definition assert_ne {A} `{EqDecision A} (x y : A) : TestRun := assert_true (negb (bool_decide (x = y))).
Definition is_err {E A} (r : result E A) : bool := match r with Err _ => true | _ => false end.
Definition unwrapped {E A} (r : result E A) : result unit A :=
  match r with Ok a => Ok a | _ => Panic end.

(** ** Fixtures *)

Definition test_execution_id : ExecutionId := from_bytes (vreplicate 32 Byte.x07).
Definition TEST_RP_ID : string := "vote.example.com".
Definition TEST_ORIGIN : string := "https://vote.example.com".
Definition TEST_CREATED : u64 := 1700000000.
Definition test_nonce (b : byte) : vec byte 16 := vreplicate 16 b.

(** The two directories of a catalog, as the files in them: names without their
    extension.  [None] for a directory that was removed. *)
Record Catalog : Type := mkCatalog {
  cert_dir : gmap string bytes;
  credential_id_dir : option (list (string * bytes)) }.

Definition catalog_entries (dirs : Catalog) : result IoErrorKind (list (result IoErrorKind DirEntry)) :=
  match credential_id_dir dirs with
  | Some files => Ok ((fun f : string * bytes => Ok (mkDirEntry (Some "id"%string) (Some f.1) (Ok f.2))) <$> files)
  | None => Err NotFound
  end.
Definition catalog_index (dirs : Catalog) : result IoErrorKind (gmap bytes ClientIdentity) :=
  load_credential_id_index (fun stem => ok_or (cert_dir dirs !! stem) NotFound) (catalog_entries dirs).

(** [temp_catalog_dirs] *)
Definition temp_catalog_dirs : Catalog := mkCatalog ∅ (Some []).
Definition write_cert (stem : string) (contents : bytes) (dirs : Catalog) : Catalog :=
  mkCatalog (<[stem := contents]> (cert_dir dirs)) (credential_id_dir dirs).
Definition write_id (stem : string) (contents : bytes) (dirs : Catalog) : Catalog :=
  mkCatalog (cert_dir dirs) ((fun files => files ++ [(stem, contents)]) <$> credential_id_dir dirs).

(** A step on a nonce book or on the counters that must succeed, or must fail. *)
Definition accepts {B E} (o : B * result E unit) : result unit B :=
  _ ← unwrapped o.2; Ok o.1.
Definition refuses {B} (o : B * result ErrorObject unit) : result unit B :=
  _ ← assert_true (is_err o.2); Ok o.1.

(** ** The catalog *)

Definition alice_id : bytes := str_bytes "alice-credential-id".

Definition load_credential_id_index_builds_map_from_matching_cert_and_id_files : TestRun :=
  let dirs := write_id "alice" alice_id (write_cert "alice" (replicate 65 Byte.x04) temp_catalog_dirs) in
  index ← unwrapped (catalog_index dirs);
  _ ← assert_eq (size index) 1;
  assert_eq (index !! alice_id) (Some (replicate 65 Byte.x04)).

Definition load_credential_id_index_skips_id_files_with_no_matching_cert : TestRun :=
  index ← unwrapped (catalog_index (write_id "alice" alice_id temp_catalog_dirs));
  assert_eq (size index) 0.

Definition load_credential_id_index_returns_empty_for_a_missing_directory : TestRun :=
  index ← unwrapped (catalog_index (mkCatalog (cert_dir temp_catalog_dirs) None));
  assert_eq (size index) 0.

(** ** Signature counters *)

Definition counted : ClientIdentity := [Byte.x2a].

Definition sign_counts_accepts_the_first_bind_regardless_of_its_sign_count : TestRun :=
  _ ← accepts (sign_count_accept SignCounts_default counted 0);
  _ ← accepts (sign_count_accept SignCounts_default counted 5);
  Ok tt.

Definition sign_counts_accepts_a_strictly_increasing_count : TestRun :=
  counts ← accepts (sign_count_accept SignCounts_default counted 1);
  counts ← accepts (sign_count_accept counts counted 2);
  _ ← accepts (sign_count_accept counts counted 10);
  Ok tt.

Definition sign_counts_rejects_a_non_increasing_count_once_tracking_has_started : TestRun :=
  counts ← accepts (sign_count_accept SignCounts_default counted 5);
  counts ← refuses (sign_count_accept counts counted 5);
  _ ← refuses (sign_count_accept counts counted 3);
  Ok tt.

Definition sign_counts_keeps_reporting_zero_as_not_suspicious_once_tracking_has_started : TestRun :=
  counts ← accepts (sign_count_accept SignCounts_default counted 0);
  _ ← accepts (sign_count_accept counts counted 0);
  Ok tt.

Definition sign_counts_is_independent_per_identity : TestRun :=
  let a : ClientIdentity := [Byte.x01] in
  let b : ClientIdentity := [Byte.x02] in
  counts ← accepts (sign_count_accept SignCounts_default a 5);
  counts ← accepts (sign_count_accept counts b 1);
  _ ← refuses (sign_count_accept counts a 1);
  Ok tt.

(** ** Nonces *)

Definition nonce_identity : ClientIdentity := [Byte.x14].

Definition request_nonces_are_independent_between_executions : TestRun :=
  let first := from_bytes (vreplicate 32 Byte.x01) in
  let second := from_bytes (vreplicate 32 Byte.x02) in
  let accept nonces eid nonce := nonce_accept nonces eid nonce_identity TEST_CREATED nonce TEST_CREATED in
  nonces ← accepts (accept NonceBook_default first (test_nonce Byte.x01));
  nonces ← accepts (accept nonces second (test_nonce Byte.x01));
  nonces ← refuses (accept nonces first (test_nonce Byte.x01));
  _ ← accepts (accept nonces first (test_nonce Byte.x02));
  Ok tt.

Definition nonce_book_rejects_a_replayed_nonce_within_the_window : TestRun :=
  nonces ← accepts (nonce_accept NonceBook_default test_execution_id nonce_identity TEST_CREATED
                      (test_nonce Byte.x01) TEST_CREATED);
  _ ← refuses (nonce_accept nonces test_execution_id nonce_identity TEST_CREATED
                 (test_nonce Byte.x01) (TEST_CREATED + 5));
  Ok tt.

Definition nonce_book_accepts_two_distinct_nonces_sharing_the_same_created_timestamp : TestRun :=
  nonces ← accepts (nonce_accept NonceBook_default test_execution_id nonce_identity TEST_CREATED
                      (test_nonce Byte.x01) TEST_CREATED);
  _ ← accepts (nonce_accept nonces test_execution_id nonce_identity TEST_CREATED
                 (test_nonce Byte.x02) TEST_CREATED);
  Ok tt.

Definition nonce_book_rejects_a_created_timestamp_outside_the_window : TestRun :=
  let now := (TEST_CREATED + 1000)%N in
  nonces ← refuses (nonce_accept NonceBook_default test_execution_id nonce_identity TEST_CREATED
                      (test_nonce Byte.x01) now);
  _ ← refuses (nonce_accept nonces test_execution_id nonce_identity (now + 1000)
                 (test_nonce Byte.x02) TEST_CREATED);
  Ok tt.

Definition nonce_book_evicts_expired_entries : TestRun :=
  nonces ← accepts (nonce_accept NonceBook_default test_execution_id nonce_identity TEST_CREATED
                      (test_nonce Byte.x01) TEST_CREATED);
  let later := (TEST_CREATED + NONCE_WINDOW_SECONDS * 3)%N in
  _ ← accepts (nonce_accept nonces test_execution_id nonce_identity later (test_nonce Byte.x01) later);
  Ok tt.

(** ** Bindings *)

Section bindings.
(** base64 and the random generator *)
Context (encode : vec byte 32 → string) (rng : list (vec byte 32)).

Definition inserted (eid : option ExecutionId) (binding : WebauthnBinding) (b : WebauthnBindings)
    : result unit (string * WebauthnBindings) := expect (bindings_insert encode rng eid binding b).

Definition key_a : bytes := replicate 65 Byte.x0a.
Definition key_b : bytes := replicate 65 Byte.x0b.
Definition binding_a : WebauthnBinding := mkWebauthnBinding counted [Byte.xa1] key_a.
Definition binding_b : WebauthnBinding := mkWebauthnBinding counted [Byte.xb1] key_b.
Definition exec_a : ExecutionId := from_bytes (vreplicate 32 Byte.x01).
Definition exec_b : ExecutionId := from_bytes (vreplicate 32 Byte.x02).

Definition resolve_ecdh_public_key_is_scoped_by_execution_not_just_identity : TestRun :=
  '(_, bindings) ← inserted (Some exec_a) binding_a WebauthnBindings_default;
  '(_, bindings) ← inserted (Some exec_b) binding_b bindings;
  _ ← assert_eq (resolve_ecdh_public_key bindings exec_a counted) (Some key_a);
  assert_eq (resolve_ecdh_public_key bindings exec_b counted) (Some key_b).

Definition insert_without_an_execution_id_does_not_populate_the_secondary_index : TestRun :=
  '(_, bindings) ← inserted None binding_a WebauthnBindings_default;
  assert_eq (resolve_ecdh_public_key bindings exec_a counted) None.

Definition pin_binding_from_token_re_affirms_the_execution_scoped_entry : TestRun :=
  '(token_a, bindings) ← inserted (Some test_execution_id) binding_a WebauthnBindings_default;
  '(_, bindings) ← inserted (Some test_execution_id) binding_b bindings;
  _ ← assert_eq (resolve_ecdh_public_key bindings test_execution_id counted) (Some key_b);
  let bindings := pin_binding_from_token bindings test_execution_id token_a in
  assert_eq (resolve_ecdh_public_key bindings test_execution_id counted) (Some key_a).
End bindings.

(** ** Assertions and signed requests *)

Section signing.
Context `{Authenticator} (key_from_bytes : vec byte 32 → option SigningKey).
Context (rng : list (vec byte 32)) (current_unix_time : u64).

Definition test_rp_id_hash : vec byte 32 := sha256 (str_bytes TEST_RP_ID).

Definition make_assertion_with_flags (signing_key : SigningKey) (challenge : vec byte 32)
    (origin : string) (user_present user_verified : bool) : WebauthnAssertion :=
  make_assertion_with_sign_count test_rp_id_hash signing_key challenge origin user_present user_verified 1.
Definition make_assertion (signing_key : SigningKey) (challenge : vec byte 32) : WebauthnAssertion :=
  make_assertion_with_flags signing_key challenge TEST_ORIGIN true true.

Definition key_of (b : byte) : result unit SigningKey := expect (key_from_bytes (vreplicate 32 b)).
Definition test_signing_key : result unit SigningKey := key_of Byte.x09.

Definition authentication_message_covers_created_nonce_and_session_token : TestRun :=
  let message created nonce token :=
    authentication_message "browser_round" test_execution_id created nonce (str_bytes "body") token in
  let base := message TEST_CREATED (test_nonce Byte.x01) "tok-a"%string in
  _ ← assert_ne base (message (TEST_CREATED + 1)%N (test_nonce Byte.x01) "tok-a"%string);
  _ ← assert_ne base (message TEST_CREATED (test_nonce Byte.x02) "tok-a"%string);
  _ ← assert_ne base (message TEST_CREATED (test_nonce Byte.x01) "tok-b"%string);
  _ ← assert_eq base (message TEST_CREATED (test_nonce Byte.x01) "tok-a"%string);
  assert_eq (drop (length base - 5) base) (str_bytes "tok-a").

Definition webauthn_bind_challenge_is_deterministic_and_key_specific : TestRun :=
  let a := webauthn_bind_challenge (str_bytes "ecdsa-key-a") (str_bytes "ecdh-key-a") in
  let a_again := webauthn_bind_challenge (str_bytes "ecdsa-key-a") (str_bytes "ecdh-key-a") in
  let b := webauthn_bind_challenge (str_bytes "ecdsa-key-b") (str_bytes "ecdh-key-a") in
  _ ← assert_eq a a_again;
  assert_ne a b.

Definition ecdsa_pub : bytes := str_bytes "ecdsa-pub".
Definition ecdh_pub : bytes := str_bytes "ecdh-pub".

Definition verify_webauthn_assertion_accepts_a_well_formed_assertion : TestRun :=
  signing_key ← test_signing_key;
  let challenge := webauthn_bind_challenge ecdsa_pub ecdh_pub in
  n ← unwrapped (verify_webauthn_assertion (make_assertion signing_key challenge) (public_bytes signing_key)
                   test_rp_id_hash TEST_ORIGIN challenge);
  assert_eq n 1%N.

Definition verify_webauthn_assertion_rejects_a_signature_from_a_different_key : TestRun :=
  signing_key ← test_signing_key;
  other_key ← key_of Byte.x0b;
  let challenge := webauthn_bind_challenge ecdsa_pub ecdh_pub in
  assert_true (is_err (verify_webauthn_assertion (make_assertion signing_key challenge) (public_bytes other_key)
                         test_rp_id_hash TEST_ORIGIN challenge)).

Definition verify_webauthn_assertion_rejects_a_mismatched_challenge : TestRun :=
  signing_key ← test_signing_key;
  let bound_challenge := webauthn_bind_challenge ecdsa_pub ecdh_pub in
  let different_challenge :=
    webauthn_bind_challenge (str_bytes "attacker-ecdsa") (str_bytes "attacker-ecdh") in
  assert_true (is_err (verify_webauthn_assertion (make_assertion signing_key bound_challenge)
                         (public_bytes signing_key) test_rp_id_hash TEST_ORIGIN different_challenge)).

Definition verify_webauthn_assertion_rejects_wrong_rp_id_hash_wrong_origin_and_missing_flags : TestRun :=
  signing_key ← test_signing_key;
  let public_key := public_bytes signing_key in
  let challenge := webauthn_bind_challenge ecdsa_pub ecdh_pub in
  let wrong_rp_id_hash := sha256 (str_bytes "attacker.example.com") in
  _ ← assert_true (is_err (verify_webauthn_assertion (make_assertion signing_key challenge) public_key
                             wrong_rp_id_hash TEST_ORIGIN challenge));
  let wrong_origin_assertion :=
    make_assertion_with_flags signing_key challenge "https://attacker.example.com" true true in
  _ ← assert_true (is_err (verify_webauthn_assertion wrong_origin_assertion public_key test_rp_id_hash
                             TEST_ORIGIN challenge));
  let not_user_verified := make_assertion_with_flags signing_key challenge TEST_ORIGIN true false in
  assert_true (is_err (verify_webauthn_assertion not_user_verified public_key test_rp_id_hash
                         TEST_ORIGIN challenge)).

(** [authenticate] on a fresh nonce book. *)
Definition authenticated (call : BrowserCall) (bindings : WebauthnBindings) : result ErrorObject ClientIdentity :=
  (authenticate "browser_round" call current_unix_time NonceBook_default bindings).2.

Definition authenticate_resolves_the_bound_identity_for_a_session_token : TestRun :=
  signing_key ← test_signing_key;
  '(token, bindings) ← inserted base64_encode rng (Some test_execution_id)
    (mkWebauthnBinding counted (public_bytes signing_key) [Byte.x07]) WebauthnBindings_default;
  let call := signed_call "browser_round" test_execution_id signing_key current_unix_time
                (test_nonce Byte.x01) [] token in
  resolved ← unwrapped (authenticated call bindings);
  assert_eq resolved counted.

Definition authenticate_rejects_a_signing_key_that_does_not_match_the_bound_token : TestRun :=
  bound_key ← test_signing_key;
  attacker_key ← key_of Byte.x0d;
  '(token, bindings) ← inserted base64_encode rng (Some test_execution_id)
    (mkWebauthnBinding counted (public_bytes bound_key) [Byte.x07]) WebauthnBindings_default;
  let call := signed_call "browser_round" test_execution_id attacker_key current_unix_time
                (test_nonce Byte.x01) [] token in
  assert_true (is_err (authenticated call bindings)).

Definition authenticate_rejects_a_request_with_an_unknown_session_token : TestRun :=
  signing_key ← test_signing_key;
  let call := signed_call "browser_round" test_execution_id signing_key current_unix_time
                (test_nonce Byte.x01) [] "not-a-real-session-token" in
  assert_true (is_err (authenticated call WebauthnBindings_default)).

Definition authenticate_rejects_a_nonce_of_the_wrong_length : TestRun :=
  signing_key ← test_signing_key;
  '(token, bindings) ← inserted base64_encode rng (Some test_execution_id)
    (mkWebauthnBinding counted (public_bytes signing_key) [Byte.x07]) WebauthnBindings_default;
  let call := mkBrowserCall test_execution_id
    (mkSignedBrowserRequest (public_bytes signing_key) current_unix_time [Byte.x01; Byte.x02; Byte.x03]
       (replicate 64 Byte.x00) [] token) in
  assert_true (is_err (authenticated call bindings)).
End signing.

(** ** The coordinator's methods *)

Section coordinator.
Context `{HashOrder} `{Authenticator} (key_from_bytes : vec byte 32 → option SigningKey).
Context (rng : list (vec byte 32)) (current_unix_time : u64) (net : Net).
(** The JSON text of a batch, and reading it. *)
Context (batch_text : MaskedInputBatch → bytes) (parse_batch : bytes → option MaskedInputBatch).

Definition two_client_registration (client_a client_b : ClientIdentity) : ExecutionRegistration :=
  mkExecutionRegistration test_execution_id (vreplicate 32 Byte.x09) 2 [client_a; client_b]
    (mkInputAssignment [client_a; client_b] [mkInputClientRange 0 1; mkInputClientRange 1 1]) 3.

(** A write to the one execution, as the tests do through the shared state. *)
Definition edit_execution (f : Exec → Exec) (s : Server) : Server :=
  s <| executions ::= alter f test_execution_id |>.

Definition coordinator_with_two_browser_clients (client_a client_b : ClientIdentity) : result unit Server :=
  s ← unwrapped (new_server 3 1 [[Byte.x0a]; [Byte.x0b]; [Byte.x0c]]);
  s ← accepts (register_execution (two_client_registration client_a client_b) 1 s);
  Ok (edit_execution (fun d => d <| round := InputMaskReservation |>) s).

Definition second_client : ClientIdentity := [Byte.x15].

Definition two_browser_clients_are_bound_to_distinct_input_slots : TestRun :=
  let client_a : ClientIdentity := [Byte.x14] in
  let client_b := second_client in
  s ← coordinator_with_two_browser_clients client_a client_b;
  let '(s, _, r) := reserve_mask_indices net client_a test_execution_id [1%N] s in
  _ ← assert_true (is_err r);
  let '(s, _, r) := reserve_mask_indices net client_a test_execution_id [0%N] s in
  _ ← unwrapped r;
  let '(s, _, r) := reserve_mask_indices net client_b test_execution_id [1%N] s in
  _ ← unwrapped r;
  a_status ← unwrapped (browser_execution_status test_execution_id client_a s);
  b_status ← unwrapped (browser_execution_status test_execution_id client_b s);
  _ ← assert_eq (st_input_indices a_status) [0%N];
  _ ← assert_eq (st_input_indices b_status) [1%N];
  _ ← assert_eq (st_reserved_inputs a_status) 2%N;
  _ ← assert_true (st_own_input_reserved a_status);
  _ ← assert_true (st_own_input_reserved b_status);
  assert_true (is_err (browser_execution_status test_execution_id [Byte.x63] s)).

(** [methods.call("browser_bind_webauthn_identity", bind_params(..))] *)
Definition call_bind (assertion : WebauthnAssertion) (ecdsa ecdh credential_id : bytes)
    (c : CoordinatorBrowserState)
    : result unit (CoordinatorBrowserState * result ErrorObject WebauthnBindingResponse) :=
  expect (bind_webauthn_identity_method
            (mkBindWebauthnIdentity test_execution_id assertion ecdsa ecdh credential_id) rng c).

Definition listener_of (s : Server) (dirs : option Catalog) : CoordinatorBrowserState :=
  coordinator_browser_state s TEST_RP_ID (catalog_index <$> dirs).

Definition voter_catalog (stem : string) (credential_id public_key : bytes) : Catalog :=
  write_id stem credential_id (write_cert stem public_key temp_catalog_dirs).

Definition pub_challenge : vec byte 32 := webauthn_bind_challenge ecdsa_pub ecdh_pub.
Definition counted_assertion (signing_key : SigningKey) (count : u32) : WebauthnAssertion :=
  make_assertion_with_sign_count test_rp_id_hash signing_key pub_challenge TEST_ORIGIN true true count.

Definition bind_uses_the_credential_id_index_for_an_on_roster_identity : TestRun :=
  signing_key ← test_signing_key key_from_bytes;
  let on_roster_public_key := public_bytes signing_key in
  s ← coordinator_with_two_browser_clients on_roster_public_key second_client;
  let methods := listener_of s
    (Some (voter_catalog "voter" (str_bytes "voter-credential-id") on_roster_public_key)) in
  '(_, r) ← call_bind (make_assertion signing_key pub_challenge) ecdsa_pub ecdh_pub
    (str_bytes "voter-credential-id") methods;
  response ← unwrapped r;
  assert_eq (resp_client_identity response) on_roster_public_key.

Definition bind_rejects_a_globally_indexed_credential_not_on_this_executions_roster : TestRun :=
  intruder_signing_key ← key_of key_from_bytes Byte.x4d;
  let intruder_public_key := public_bytes intruder_signing_key in
  s ← coordinator_with_two_browser_clients [Byte.x14] second_client;
  let methods := listener_of s
    (Some (voter_catalog "intruder" (str_bytes "intruder-credential-id") intruder_public_key)) in
  '(_, r) ← call_bind (make_assertion intruder_signing_key pub_challenge) ecdsa_pub ecdh_pub
    (str_bytes "intruder-credential-id") methods;
  assert_true (is_err r).

Definition bind_rejects_a_second_ceremony_after_the_identity_already_submitted : TestRun :=
  signing_key ← test_signing_key key_from_bytes;
  s ← coordinator_with_two_browser_clients (public_bytes signing_key) second_client;
  '(c, r) ← call_bind (counted_assertion signing_key 1) ecdsa_pub ecdh_pub [] (listener_of s None);
  _ ← unwrapped r;
  let c := c <| coordinator ::= edit_execution (fun d =>
             d <| masked_inputs ::= <[0%nat := Some [Byte.x01; Byte.x02; Byte.x03]]> |>) |> in
  '(_, r) ← call_bind (counted_assertion signing_key 2) ecdsa_pub ecdh_pub [] c;
  assert_true (is_err r).

Definition bind_still_allows_a_second_ceremony_before_submission : TestRun :=
  signing_key ← test_signing_key key_from_bytes;
  s ← coordinator_with_two_browser_clients (public_bytes signing_key) second_client;
  '(c, r) ← call_bind (counted_assertion signing_key 1) ecdsa_pub ecdh_pub [] (listener_of s None);
  _ ← unwrapped r;
  '(_, r) ← call_bind (counted_assertion signing_key 2) ecdsa_pub ecdh_pub [] c;
  _ ← unwrapped r;
  Ok tt.

Definition bind_rejects_a_second_ceremony_whose_sign_count_did_not_increase : TestRun :=
  signing_key ← test_signing_key key_from_bytes;
  s ← coordinator_with_two_browser_clients (public_bytes signing_key) second_client;
  '(c, r) ← call_bind (counted_assertion signing_key 5) ecdsa_pub ecdh_pub [] (listener_of s None);
  _ ← unwrapped r;
  '(_, r) ← call_bind (counted_assertion signing_key 5) ecdsa_pub ecdh_pub [] c;
  assert_true (is_err r).

Definition submitting_pins_the_encryption_key_despite_an_earlier_interleaved_rebind : TestRun :=
  request_signing_key ← key_of key_from_bytes Byte.x37;
  let request_ecdsa_public_key := public_bytes request_signing_key in
  identity_signing_key ← test_signing_key key_from_bytes;
  let identity_public_key := public_bytes identity_signing_key in
  s ← coordinator_with_two_browser_clients identity_public_key second_client;
  let ecdh_key_a := str_bytes "ecdh-key-a" in
  let bind_a := make_assertion_with_sign_count test_rp_id_hash identity_signing_key
    (webauthn_bind_challenge request_ecdsa_public_key ecdh_key_a) TEST_ORIGIN true true 1 in
  '(c, r) ← call_bind bind_a request_ecdsa_public_key ecdh_key_a [] (listener_of s None);
  bind_a_response ← unwrapped r;
  let session_token_a := resp_session_token bind_a_response in
  let ecdh_key_b := str_bytes "ecdh-key-b" in
  let bind_b := make_assertion_with_sign_count test_rp_id_hash identity_signing_key
    (webauthn_bind_challenge request_ecdsa_public_key ecdh_key_b) TEST_ORIGIN true true 2 in
  '(c, r) ← call_bind bind_b request_ecdsa_public_key ecdh_key_b [] c;
  _ ← unwrapped r;
  let c := c <| coordinator ::= edit_execution (fun d => d <| round := InputCollection |>
             <| reserved_indices ::= <[0%nat := Some identity_public_key]> |>) |> in
  let body := batch_text (mkMaskedInputBatch [0%N] [[Byte.x07; Byte.x07; Byte.x07]]) in
  let call := signed_call "browser_submit_masked_inputs" test_execution_id request_signing_key
    current_unix_time (test_nonce Byte.x09) body session_token_a in
  let '(c, _, r) := submit_masked_inputs_method parse_batch net call current_unix_time c in
  _ ← unwrapped r;
  assert_eq (resolve_ecdh_public_key (cb_bindings c) test_execution_id identity_public_key) (Some ecdh_key_a).
End coordinator.

(** ** The tests are run *)

(** A concrete bench: a hash that mixes all bytes, a signature that is the key
    followed by the message, base64 by two letters a byte, and client data as the
    challenge behind its length. *)
Definition bench_digest (m : bytes) : vec byte 32 :=
  fun_to_vec (fun i : fin 32 => default Byte.x00 (Byte.of_N
    (foldl (fun acc b => (acc * 31 + Byte.to_N b + N.of_nat (fin_to_nat i)) mod 256)%N 7%N m))).

Definition letter (n : N) : byte := default Byte.x00 (Byte.of_N (97 + n)).
Definition unletter (b : byte) : N := (Byte.to_N b - 97)%N.
Definition letters (b : byte) : bytes := [letter (Byte.to_N b / 16); letter (Byte.to_N b mod 16)].
Fixpoint unletters (l : bytes) : bytes :=
  match l with
  | x :: y :: l => default Byte.x00 (Byte.of_N (unletter x * 16 + unletter y)) :: unletters l
  | _ => []
  end.

Definition bench_text (challenge origin : string) : bytes :=
  replicate (String.length challenge) Byte.x01 ++ [Byte.x00] ++ str_bytes challenge ++ str_bytes origin.
Fixpoint count_ones (l : bytes) : nat :=
  match l with Byte.x01 :: l => S (count_ones l) | _ => 0 end.
Definition bench_parse (l : bytes) : string * string :=
  let n := count_ones l in
  let rest := drop (S n) l in
  (String.string_of_list_byte (take n rest), String.string_of_list_byte (drop n rest)).

#[local] Instance bench_platform : Platform := {|
  sha256 := bench_digest;
  VerifyingKey := bytes;
  Signature := bytes;
  from_sec1_bytes := Some;
  from_slice := Some;
  from_der := Some;
  verify key m s := bool_decide (s = key ++ m);
  Value := string * string;
  value_from_slice l := Some (bench_parse l);
  value_get_str v field :=
    if String.eqb field "type" then Some "webauthn.get"%string
    else if String.eqb field "challenge" then Some v.1
    else if String.eqb field "origin" then Some v.2 else None;
  base64_decode s := Some (unletters (str_bytes s));
  base64_encode x := String.string_of_list_byte (vec_to_list x ≫= letters) |}.

#[local] Instance bench : Authenticator := {|
  SigningKey := bytes;
  verifying_key sk := sk;
  to_sec1_bytes k := k;
  sign sk m := sk ++ m;
  to_bytes s := s;
  to_der s := s;
  client_data_text := bench_text |}.

Lemma unletters_letters l : unletters (l ≫= letters) = l.
Proof.
  induction l as [|b l IH]; [done|]. rewrite bind_cons. unfold letters at 1. cbn [app unletters].
  rewrite IH. f_equal. by destruct b.
Qed.

Lemma length_str_bytes s : length (str_bytes s) = String.length s.
Proof.
  unfold str_bytes, String.list_byte_of_string. rewrite List.length_map.
  induction s as [|x s IH]; [done|]. simpl. by rewrite IH.
Qed.

Lemma count_ones_replicate n l : count_ones (replicate n Byte.x01 ++ [Byte.x00] ++ l) = n.
Proof. induction n as [|n IH]; [done|]. cbn [replicate app count_ones]. by f_equal. Qed.

#[local] Instance bench_laws : AuthenticatorLaws.
Proof.
  split; try done.
  - intros sk m. by apply bool_decide_eq_true.
  - intros x. simpl. f_equal. unfold str_bytes.
    rewrite String.list_byte_of_string_of_list_byte. apply unletters_letters.
  - intros challenge origin. exists (challenge, origin). split; [|done]. simpl. f_equal.
    unfold bench_parse, bench_text. rewrite count_ones_replicate.
    assert (drop (S (String.length challenge)) (replicate (String.length challenge) Byte.x01 ++ [Byte.x00] ++
      str_bytes challenge ++ str_bytes origin) = str_bytes challenge ++ str_bytes origin) as ->.
    { rewrite app_assoc. apply drop_app_length'. rewrite length_app, length_replicate. simpl. lia. }
    rewrite take_app_length', drop_app_length' by by rewrite length_str_bytes.
    by rewrite !String.string_of_list_byte_of_string.
Qed.

Definition bench_key (x : vec byte 32) : option bytes := Some (vec_to_list x).
Definition bench_rng : list (vec byte 32) := vreplicate 32 <$> [Byte.x41; Byte.x42; Byte.x43].

(** The JSON of a batch with one input. *)
Definition bench_batch_text (b : MaskedInputBatch) : bytes := default [] (head (batch_masked_inputs b)).
Definition bench_parse_batch (l : bytes) : option MaskedInputBatch := Some (mkMaskedInputBatch [0%N] [l]).

(** All of them, in the order of the file. *)
Definition tests : list TestRun :=
  [authentication_message_covers_created_nonce_and_session_token;
   webauthn_bind_challenge_is_deterministic_and_key_specific;
   load_credential_id_index_builds_map_from_matching_cert_and_id_files;
   load_credential_id_index_skips_id_files_with_no_matching_cert;
   load_credential_id_index_returns_empty_for_a_missing_directory;
   verify_webauthn_assertion_accepts_a_well_formed_assertion bench_key;
   sign_counts_accepts_the_first_bind_regardless_of_its_sign_count;
   sign_counts_accepts_a_strictly_increasing_count;
   sign_counts_rejects_a_non_increasing_count_once_tracking_has_started;
   sign_counts_keeps_reporting_zero_as_not_suspicious_once_tracking_has_started;
   sign_counts_is_independent_per_identity;
   verify_webauthn_assertion_rejects_a_signature_from_a_different_key bench_key;
   verify_webauthn_assertion_rejects_a_mismatched_challenge bench_key;
   verify_webauthn_assertion_rejects_wrong_rp_id_hash_wrong_origin_and_missing_flags bench_key;
   authenticate_resolves_the_bound_identity_for_a_session_token bench_key bench_rng TEST_CREATED;
   authenticate_rejects_a_signing_key_that_does_not_match_the_bound_token bench_key bench_rng TEST_CREATED;
   authenticate_rejects_a_request_with_an_unknown_session_token bench_key TEST_CREATED;
   authenticate_rejects_a_nonce_of_the_wrong_length bench_key bench_rng TEST_CREATED;
   request_nonces_are_independent_between_executions;
   nonce_book_rejects_a_replayed_nonce_within_the_window;
   nonce_book_accepts_two_distinct_nonces_sharing_the_same_created_timestamp;
   nonce_book_rejects_a_created_timestamp_outside_the_window;
   nonce_book_evicts_expired_entries;
   two_browser_clients_are_bound_to_distinct_input_slots all_up;
   bind_uses_the_credential_id_index_for_an_on_roster_identity bench_key bench_rng;
   bind_rejects_a_globally_indexed_credential_not_on_this_executions_roster bench_key bench_rng;
   bind_rejects_a_second_ceremony_after_the_identity_already_submitted bench_key bench_rng;
   bind_still_allows_a_second_ceremony_before_submission bench_key bench_rng;
   bind_rejects_a_second_ceremony_whose_sign_count_did_not_increase bench_key bench_rng;
   resolve_ecdh_public_key_is_scoped_by_execution_not_just_identity base64_encode bench_rng;
   insert_without_an_execution_id_does_not_populate_the_secondary_index base64_encode bench_rng;
   pin_binding_from_token_re_affirms_the_execution_scoped_entry base64_encode bench_rng;
   submitting_pins_the_encryption_key_despite_an_earlier_interleaved_rebind bench_key bench_rng
     TEST_CREATED all_up bench_batch_text bench_parse_batch].

(** ** An honest browser on the bench *)

Definition bench_listener : CoordinatorBrowserState := listener_of sample_collecting_run None.
Definition bench_bind (ecdh : bytes) : BindWebauthnIdentity :=
  mkBindWebauthnIdentity sample_eid
    (make_assertion_with_sign_count (sha256 (str_bytes TEST_RP_ID)) client1
       (webauthn_bind_challenge (public_bytes [Byte.x0a]) ecdh) ("https://" ++ TEST_RP_ID) true true 1)
    (public_bytes [Byte.x0a]) ecdh [].

Lemma bench_single_verifier other :
  other ∈ bind_candidates (sample_get sample_collecting_run) →
  is_ok (bind_verifies (bench_bind [Byte.x0c]) bench_listener other) = true → other = public_bytes client1.
Proof.
  assert (is_ok (bind_verifies (bench_bind [Byte.x0c]) bench_listener client2) = false) as Hno by by vm_compute.
  intros Hin%elem_of_bind_candidates Hok. rewrite sample_candidates in Hin.
  apply elem_of_three in Hin as [->|[->| ->]]; [reflexivity| |reflexivity].
  rewrite Hno in Hok. discriminate Hok.
Qed.

Lemma honest_browser_is_served_witness :
  ∃ c' resp, bind_webauthn_identity_method (bench_bind [Byte.x0c]) [vreplicate 32 Byte.x41] bench_listener =
      Some (c', Ok resp) ∧ resp_client_identity resp = client1 ∧
    (authenticate "browser_submit_masked_inputs"
       (signed_call "browser_submit_masked_inputs" sample_eid [Byte.x0a] 1000 (test_nonce Byte.x01) []
          (resp_session_token resp)) 1060 (cb_nonces c') (cb_bindings c')).2 = Ok client1.
Proof.
  refine (honest_browser_is_served TEST_RP_ID (mpc_nodes sample_collecting_run)
    (transition_quorum sample_collecting_run) bench_listener (sample_get sample_collecting_run) sample_eid
    client1 [Byte.x0a] [Byte.x0c] [] 1 (vreplicate 32 Byte.x41) [vreplicate 32 Byte.x41]
    "browser_submit_masked_inputs" [] 1000 1060 (test_nonce Byte.x01) _ _ _ _ _ _ _ _ _ _ _ _ _).
  - apply sample_get_Some. by vm_compute.
  - apply sample_listener_wf.
  - reflexivity.
  - reflexivity.
  - apply (bool_decide_unpack _). by vm_compute.
  - apply existsb_submitted_false. by vm_compute.
  - left. by vm_compute.
  - by vm_compute.
  - left.
  - by vm_compute.
  - by vm_compute.
  - intros created' Hin. by apply not_elem_of_nil in Hin.
  - exact bench_single_verifier.
Defined.
