(* ===== verification/RunCoord.v ===== *)
(** The coordinator's command line: the one-off argument, the binding of the
    program's client slots to identities, and the configuration of the first
    execution (src/crates/bins/src/bin/run-coord.rs). *)
From S2P Require Import Prelude Shared Execution Samples Rounds Sessions Server Rpc ServerSamples.
From S2P Require Import Invariant History Topology Machine Inputs Registry.

(** ** Arguments *)

Record OneOff : Type := mkOneOff { hash : vec byte 32; one_off_id : ExecutionId }.

(** [split_once(c)] *)
Fixpoint split_once (c : Ascii.ascii) (s : string) : option (string * string) :=
  match s with
  | EmptyString => None
  | String x s =>
      if Ascii.eqb x c then Some (EmptyString, s)
      else '(a, b) ← split_once c s; Some (String x a, b)
  end.

Definition COMMA : Ascii.ascii := Ascii.ascii_of_N 44.

Definition parse_one_off (hex_decode : string → option bytes) (value : string)
    : result string OneOff :=
  parts ← ok_or (split_once COMMA value) "--one-off must be formatted as <hash>,<execution-id>"%string;
  bs ← ok_or (hex_decode parts.1) "invalid hash: {error}"%string;
  hash ← ok_or (try_into 32 bs) "hash should be 32 bytes"%string;
  execution_id ← parse_nonzero_execution_id hex_decode parts.2;
  Ok (mkOneOff hash execution_id).

(** ** The client manifest of a program *)

Section manifest.
Context {ShareType : Type}.

(** The schema of a compiled program, by the fields that are read. *)
Record ClientIoSchema : Type := mkClientIoSchema {
  client_slot : u64;
  inputs : list ShareType;
  outputs : list ShareType }.

Definition duplicate_slot : CoordinatorError :=
  JSONError "Duplicate client_slot {client_slot} in client IO manifest".
Definition unknown_slot : CoordinatorError :=
  JSONError "No client IO manifest entry for bound client_slot {client_slot}".
Definition unbound_slots : CoordinatorError :=
  JSONError "Client IO manifest slots are not bound to off-chain identities: {unbound_slots:?}".
Definition repeated_client : CoordinatorError :=
  JSONError "Client identity is bound to multiple client IO slots".
Definition too_many_clients : CoordinatorError :=
  JSONError "too many distinct input clients".

(** First loop: the schemas by slot. *)
Fixpoint index_schemas (schemas : list ClientIoSchema) (by_slot : gmap u64 ClientIoSchema)
    : result CoordinatorError (gmap u64 ClientIoSchema) :=
  match schemas with
  | [] => Ok by_slot
  | schema :: schemas =>
      if is_some (by_slot !! client_slot schema) then Err duplicate_slot
      else index_schemas schemas (<[client_slot schema := schema]> by_slot)
  end.

(** Identity, slot, number of inputs, number of outputs. *)
Abbreviation BoundClient := (ClientIdentity * u64 * u64 * u64)%type.

(** Second loop: each binding takes its slot. *)
Fixpoint bind_clients (bindings : list (u64 * ClientIdentity)) (by_slot : gmap u64 ClientIoSchema)
    (bound : list BoundClient)
    : result CoordinatorError (gmap u64 ClientIoSchema * list BoundClient) :=
  match bindings with
  | [] => Ok (by_slot, bound)
  | (slot, client) :: bindings =>
      schema ← ok_or (by_slot !! slot) unknown_slot;
      bind_clients bindings (delete slot by_slot)
        (bound ++ [(client, slot, vlen (inputs schema), vlen (outputs schema))])
  end.

(** Third loop: the identities with inputs, their ranges, and the identities with
    outputs. *)
Fixpoint lay_out (bound : list BoundClient) (seen_clients : gset ClientIdentity)
    (a : InputAssignment) (output_clients : list ClientIdentity)
    : result CoordinatorError (InputAssignment * list ClientIdentity) :=
  match bound with
  | [] => Ok (a, output_clients)
  | (client, _, input_count, output_count) :: bound =>
      if bool_decide (client ∈ seen_clients) then Err repeated_client
      else
        let seen_clients := {[client]} ∪ seen_clients in
        let output_clients :=
          if (0 <? output_count)%N then output_clients ++ [client] else output_clients in
        if (input_count =? 0)%N then lay_out bound seen_clients a output_clients
        else
          client_index ← ok_or (u32_try_from (vlen (ia_clients a))) too_many_clients;
          lay_out bound seen_clients
            (mkInputAssignment (ia_clients a ++ [client])
               (ia_ranges a ++ [mkInputClientRange client_index input_count])) output_clients
  end.

Definition build_input_assignment (manifest : list ClientIoSchema)
    (bindings : list (u64 * ClientIdentity))
    : result CoordinatorError (InputAssignment * list ClientIdentity) :=
  by_slot ← index_schemas manifest ∅;
  '(rest, bound) ← bind_clients bindings by_slot [];
  _ ← ensure (bool_decide (rest = ∅)) unbound_slots;
  lay_out bound ∅ InputAssignment_default [].

(** ** The configuration made by [main] *)

(** A loaded program: its backend and its manifest. *)
Record Program : Type := mkProgram {
  mpc_backend : MpcBackend;
  manifest_clients : list ClientIoSchema }.

Record Args : Type := mkArgs {
  arg_one_off : option OneOff;
  arg_mpc_nodes : list ClientIdentity;
  arg_n : u64;
  arg_t : u64;
  arg_n_inputs : option u64;
  arg_output_clients : list ClientIdentity;
  arg_program : option Program;
  arg_client_bindings : list (u64 * ClientIdentity);
  arg_backend : MpcBackend }.

(** [sort_by_key(|schema| schema.client_slot)], a stable sort. *)
Fixpoint insert_schema (x : ClientIoSchema) (l : list ClientIoSchema) : list ClientIoSchema :=
  match l with
  | [] => [x]
  | y :: l => if (client_slot x <=? client_slot y)%N then x :: y :: l else y :: insert_schema x l
  end.
Definition sort_schemas (l : list ClientIoSchema) : list ClientIoSchema := foldr insert_schema [] l.

(** Every failed [expect] and [assert!] of [main] is a panic. *)
Definition assert (cond : bool) : result CoordinatorError unit := if cond then Ok tt else Panic.
Definition expect_ok {E A} (r : result E A) : result CoordinatorError A :=
  match r with Ok a => Ok a | _ => Panic end.

(** The assertions on the roster, before the coordinator is created. *)
Definition check_roster (args : Args) : result CoordinatorError unit :=
  let public_keys := arg_mpc_nodes args in
  _ ← assert (0 <? arg_n args)%N;
  n ← expect (usize_try_from (arg_n args));
  _ ← assert (vlen public_keys =? n)%N;
  _ ← assert (arg_t args <? arg_n args)%N;
  assert (N.of_nat (size (list_to_set public_keys : gset ClientIdentity)) =? vlen public_keys)%N.

(** The bindings of a program's slots: given, or the output clients in slot order. *)
Definition program_bindings (args : Args) (program : Program)
    : result CoordinatorError (list (u64 * ClientIdentity)) :=
  if bool_decide (arg_client_bindings args = []) then
    let schemas := sort_schemas (manifest_clients program) in
    _ ← assert (vlen schemas =? vlen (arg_output_clients args))%N;
    Ok (zip (client_slot <$> schemas) (arg_output_clients args))
  else Ok (arg_client_bindings args).

Definition one_off_registration (args : Args) (one_off : OneOff)
    : result CoordinatorError ExecutionRegistration :=
  '(backend, assignment, output_clients, n_inputs) ←
    match arg_program args with
    | Some program =>
        bindings ← program_bindings args program;
        '(assignment, output_clients) ←
          expect_ok (build_input_assignment (manifest_clients program) bindings);
        Ok (mpc_backend program, assignment, output_clients,
            u64_sum (range_count <$> ia_ranges assignment))
    | None =>
        n_inputs ← expect (arg_n_inputs args);
        Ok (arg_backend args, InputAssignment_default, arg_output_clients args, n_inputs)
    end;
  let min_output_shares :=
    match backend with
    | HoneyBadger => u64_add (u64_wrap (2 * arg_t args)) 1
    | Avss => u64_add (arg_t args) 1
    end in
  Ok (mkExecutionRegistration (one_off_id one_off) (hash one_off) n_inputs output_clients assignment
        min_output_shares).

(** The coordinator [main] starts, and the execution it serves alone, if any. *)
Definition configure `{HashOrder} (args : Args) (delivery : LockId)
    : result CoordinatorError (Server * option ExecutionId) :=
  _ ← check_roster args;
  s ← expect_ok (new_server (arg_n args) (arg_t args) (arg_mpc_nodes args));
  match arg_one_off args with
  | None => Ok (s, None)
  | Some one_off =>
      reg ← one_off_registration args one_off;
      let '(s, r) := register_execution reg delivery s in
      _ ← expect_ok r;
      Ok (s, Some (one_off_id one_off))
  end.
End manifest.
Arguments ClientIoSchema : clear implicits.
Arguments Program : clear implicits.
Arguments Args : clear implicits.
