(* ===== verification/RunCoordFacts.v ===== *)
(** What the command line makes of a program's client manifest, and that the
    coordinator it configures serves the one-off execution. *)
From S2P Require Import Prelude Shared Execution Samples Rounds Sessions Server Rpc ServerSamples.
From S2P Require Import Invariant History Topology Machine Inputs Registry RunCoord.

Section layout.
Context {ShareType : Type}.
Implicit Types (manifest : list (ClientIoSchema ShareType)) (m : gmap u64 (ClientIoSchema ShareType)).

(** ** The three loops *)

Lemma index_schemas_spec manifest m m' :
  index_schemas manifest m = Ok m' ↔
  NoDup (client_slot <$> manifest) ∧ (∀ x, x ∈ manifest → m !! client_slot x = None) ∧
  m' = list_to_map ((fun x => (client_slot x, x)) <$> manifest) ∪ m.
Proof.
  revert m. induction manifest as [|x l IH]; intros m; simpl.
  { rewrite (left_id_L ∅ (∪) m). split; [|naive_solver]. intros [= ->]. split_and!; [constructor| |done].
    intros x Hx. by apply not_elem_of_nil in Hx. }
  rewrite NoDup_cons. setoid_rewrite elem_of_cons.
  destruct (m !! client_slot x) eqn:Hx; simpl.
  { split; [done|]. intros (_ & Hall & _). specialize (Hall x (or_introl eq_refl)). congruence. }
  rewrite IH. setoid_rewrite lookup_insert_None. split.
  - intros (Hnd & Hall & ->). split_and!; [|done| |].
    + intros (y & Hy & Hin)%list_elem_of_fmap. destruct (Hall y Hin) as [_ []]. congruence.
    + intros y [->|Hin]; [done|]. by apply Hall.
    + rewrite <-insert_union_l. symmetry. apply insert_union_r.
      apply not_elem_of_list_to_map_1. rewrite <-list_fmap_compose.
      intros (y & Hy & Hin)%list_elem_of_fmap. simpl in Hy. destruct (Hall y Hin) as [_ []]. congruence.
  - intros ((Hni & Hnd) & Hall & ->). split_and!; [done| |].
    + intros y Hin. split; [auto|]. intros Heq. apply Hni. apply list_elem_of_fmap. by exists y.
    + rewrite <-insert_union_l. apply insert_union_r.
      apply not_elem_of_list_to_map_1. rewrite <-list_fmap_compose.
      intros (y & Hy & Hin)%list_elem_of_fmap. simpl in Hy. apply Hni, list_elem_of_fmap. by exists y.
Qed.

Lemma foldr_delete_delete m slot (l : list u64) :
  foldr delete (delete slot m) l = delete slot (foldr delete m l).
Proof. induction l as [|s l IH]; simpl; [done|]. rewrite IH. apply delete_delete. Qed.

(** One binding resolved against the schemas. *)
Definition resolves m (b : u64 * ClientIdentity) (x : ClientIdentity * u64 * u64 * u64) : Prop :=
  ∃ schema, m !! b.1 = Some schema ∧ x = (b.2, b.1, vlen (inputs schema), vlen (outputs schema)).

Lemma bind_clients_spec bindings m acc rest bound :
  bind_clients bindings m acc = Ok (rest, bound) ↔
  NoDup bindings.*1 ∧ rest = foldr delete m bindings.*1 ∧
  ∃ new, bound = acc ++ new ∧ Forall2 (resolves m) bindings new.
Proof.
  revert m acc. induction bindings as [|[slot c] bs IH]; intros m acc; simpl.
  { split.
    - intros [= <- <-]. split_and!; [constructor|done|]. exists []. by rewrite app_nil_r.
    - intros (_ & -> & new & -> & Hf). inversion_clear Hf. by rewrite app_nil_r. }
  rewrite NoDup_cons. destruct (m !! slot) as [schema|] eqn:Hs; simpl.
  2: { split; [done|]. intros (_ & _ & new & _ & Hf). inversion_clear Hf as [|? ? ? ? (x & Hx & _) _].
       simpl in Hx. congruence. }
  rewrite IH. split.
  - intros (Hnd & -> & new & -> & Hf).
    assert (slot ∉ bs.*1) as Hni.
    { intros ([s' c'] & -> & Hin)%list_elem_of_fmap. simpl in *.
      apply list_elem_of_lookup_1 in Hin as [i Hi]. eapply Forall2_lookup_l in Hf as (y & _ & x & Hx & _); [|done].
      simpl in Hx. by rewrite lookup_delete_eq in Hx. }
    split_and!; [done|done| |].
    + apply foldr_delete_delete.
    + exists ((c, slot, vlen (inputs schema), vlen (outputs schema)) :: new). rewrite <-app_assoc.
      split; [done|]. constructor; [by exists schema|].
      eapply Forall2_impl; [exact Hf|]. intros b x (y & Hy & ->). apply lookup_delete_Some in Hy as [_ Hy].
      by exists y.
  - intros ([Hni Hnd] & -> & new & -> & Hf). inversion Hf as [|? x ? new' (y & Hy & ->) Hf']; subst.
    simpl in Hy. simplify_eq. split_and!; [done| |].
    + symmetry. apply foldr_delete_delete.
    + exists new'. rewrite <-app_assoc. split; [done|].
      apply Forall2_same_length_lookup_2; [by eapply Forall2_length|].
      intros i b x Hb Hx. eapply Forall2_lookup_lr in Hf' as (z & Hz & ->); [|done..].
      exists z. split; [|done]. rewrite lookup_delete_ne; [done|]. intros ->. apply Hni.
      apply list_elem_of_fmap. exists b. split; [done|]. by eapply list_elem_of_lookup_2.
Qed.

Definition bc_client (x : ClientIdentity * u64 * u64 * u64) : ClientIdentity := x.1.1.1.

(** The bound clients that have inputs, and those that have outputs. *)
Definition with_inputs (bound : list (ClientIdentity * u64 * u64 * u64)) :=
  filter (fun x => x.1.2 ≠ 0%N) bound.
Definition with_outputs (bound : list (ClientIdentity * u64 * u64 * u64)) :=
  filter (fun x => x.2 ≠ 0%N) bound.

(** The layout of a list of bound clients, continuing the one made so far. *)
Definition laid_out (bound : list (ClientIdentity * u64 * u64 * u64)) (a : InputAssignment)
    (outs : list ClientIdentity) : InputAssignment * list ClientIdentity :=
  (mkInputAssignment (ia_clients a ++ (bc_client <$> with_inputs bound))
     (ia_ranges a ++ imap (fun i x => mkInputClientRange (vlen (ia_clients a) + N.of_nat i) x.1.2)
        (with_inputs bound)),
   outs ++ (bc_client <$> with_outputs bound)).

Lemma laid_out_cons x bound a outs :
  laid_out (x :: bound) a outs =
    laid_out bound
      (if (x.1.2 =? 0)%N then a
       else mkInputAssignment (ia_clients a ++ [bc_client x])
              (ia_ranges a ++ [mkInputClientRange (vlen (ia_clients a)) x.1.2]))
      (if (0 <? x.2)%N then outs ++ [bc_client x] else outs).
Proof.
  unfold laid_out, with_inputs, with_outputs. rewrite !filter_cons. f_equal.
  - destruct (x.1.2 =? 0)%N eqn:Hz; reflect_bool; [by rewrite decide_False by tauto|].
    rewrite decide_True by done. rewrite fmap_cons, imap_cons. cbn [ia_clients ia_ranges].
    rewrite <-!app_assoc. cbn [app]. rewrite N.add_0_r. do 3 f_equal. apply imap_ext. intros i y _.
    cbn. f_equal. unfold vlen. rewrite length_app. simpl. lia.
  - destruct (0 <? x.2)%N eqn:Hz; reflect_bool.
    + rewrite decide_True by lia. by rewrite fmap_cons, <-app_assoc.
    + by rewrite decide_False by lia.
Qed.

Lemma lay_out_spec bound seen a outs r :
  (vlen (ia_clients a) <= u32_modulus)%N →
  lay_out bound seen a outs = Ok r ↔
  NoDup (bc_client <$> bound) ∧ (∀ x, x ∈ bound → bc_client x ∉ seen) ∧
  (vlen (ia_clients a) + vlen (with_inputs bound) <= u32_modulus)%N ∧ r = laid_out bound a outs.
Proof.
  revert seen a outs. induction bound as [|[[[c slot] ic] oc] l IH]; intros seen a outs Ha.
  { unfold laid_out. simpl. rewrite !app_nil_r. destruct a as [cs rs]. simpl in *. unfold vlen in *. simpl.
    split; [|naive_solver]. intros [= <-]. split_and!; [constructor| |lia|done].
    intros x Hx. by apply not_elem_of_nil in Hx. }
  rewrite laid_out_cons. cbn [lay_out fst snd]. rewrite fmap_cons, NoDup_cons. cbn [fst snd].
  setoid_rewrite elem_of_cons.
  assert (vlen (with_inputs ((c, slot, ic, oc) :: l)) =
    (vlen (with_inputs l) + if (ic =? 0)%N then 0 else 1)%N) as ->.
  { unfold with_inputs, vlen. rewrite filter_cons. simpl.
    destruct (ic =? 0)%N eqn:Hz; reflect_bool; case_decide; simpl; try lia; tauto. }
  assert (c ∉ seen →
    (NoDup (bc_client <$> l) ∧ ∀ x, x ∈ l → bc_client x ∉ ({[c]} ∪ seen : gset ClientIdentity)) ↔
    (bc_client (c, slot, ic, oc) ∉ (bc_client <$> l) ∧ NoDup (bc_client <$> l)) ∧
    ∀ x, x = (c, slot, ic, oc) ∨ x ∈ l → bc_client x ∉ seen) as Hsplit.
  { intros Hc. rewrite list_elem_of_fmap. change (bc_client (c, slot, ic, oc)) with c. split.
    - intros [Hnd Hall]. split_and!; [|done|].
      + intros (x & Hx & Hin). specialize (Hall x Hin). set_solver.
      + intros x [->|Hin]; [done|]. specialize (Hall x Hin). set_solver.
    - intros [[Hn Hnd] Hall]. split; [done|]. intros x Hin.
      assert (bc_client x ≠ c) by (intros Hx; apply Hn; eauto).
      assert (bc_client x ∉ seen) by auto. set_solver. }
  case_bool_decide as Hseen.
  { split; [done|]. intros (_ & Hall & _). by destruct (Hall _ (or_introl eq_refl)). }
  specialize (Hsplit Hseen). rewrite (assoc (∧) (_ ∧ NoDup _)), <-Hsplit, <-(assoc (∧)).
  destruct (ic =? 0)%N eqn:Hz.
  - rewrite IH by done. by rewrite N.add_0_r.
  - unfold u32_try_from. destruct (vlen (ia_clients a) <? u32_modulus)%N eqn:Hlt; reflect_bool; simpl.
    + rewrite IH by (unfold vlen in *; simpl; rewrite length_app; simpl; lia). simpl.
      assert (vlen (ia_clients a ++ [c]) + vlen (with_inputs l) =
        vlen (ia_clients a) + (vlen (with_inputs l) + 1))%N as ->
        by (unfold vlen; rewrite length_app; simpl; lia). done.
    + split; [done|]. intros (_ & _ & Hle & _). lia.
Qed.
End layout.

Section claims.
Context {ShareType : Type}.
Implicit Types (manifest : list (ClientIoSchema ShareType)).

(** A binding and what it is laid out as, by the manifest. *)
Definition bound_by manifest (b : u64 * ClientIdentity) (x : ClientIdentity * u64 * u64 * u64) : Prop :=
  ∃ schema, schema ∈ manifest ∧ client_slot schema = b.1 ∧
    x = (b.2, b.1, vlen (inputs schema), vlen (outputs schema)).

Definition slot_map manifest : gmap u64 (ClientIoSchema ShareType) :=
  list_to_map ((fun x => (client_slot x, x)) <$> manifest).

Lemma slot_map_lookup manifest slot schema :
  NoDup (client_slot <$> manifest) →
  slot_map manifest !! slot = Some schema ↔ schema ∈ manifest ∧ client_slot schema = slot.
Proof.
  intros Hnd. unfold slot_map. rewrite <-elem_of_list_to_map.
  - rewrite list_elem_of_fmap. split; [by intros (x & [= -> ->] & Hx)|]. intros [Hin <-]. eauto.
  - by rewrite <-list_fmap_compose.
Qed.

Lemma foldr_delete_empty {A} (m : gmap u64 A) keys :
  foldr delete m keys = ∅ ↔ ∀ k, is_Some (m !! k) → k ∈ keys.
Proof.
  rewrite map_empty. split.
  - intros Hall k [x Hk]. destruct (decide (k ∈ keys)) as [|Hni]; [done|].
    specialize (Hall k). rewrite lookup_foldr_delete, decide_False in Hall by done. congruence.
  - intros Hall k. rewrite lookup_foldr_delete. case_decide; [done|]. apply eq_None_not_Some. auto.
Qed.

Lemma bindings_cover manifest (keys : list u64) :
  NoDup (client_slot <$> manifest) → NoDup keys →
  ((∀ k, k ∈ keys → is_Some (slot_map manifest !! k)) ∧
   (∀ k, is_Some (slot_map manifest !! k) → k ∈ keys)) ↔
  keys ≡ₚ client_slot <$> manifest.
Proof.
  intros Hnd Hk.
  assert (∀ k, is_Some (slot_map manifest !! k) ↔ k ∈ (client_slot <$> manifest)) as Hsome.
  { intros k. unfold is_Some. setoid_rewrite slot_map_lookup; [|done..]. rewrite list_elem_of_fmap. naive_solver. }
  setoid_rewrite Hsome. split.
  - intros [H1 H2]. apply NoDup_Permutation; [done..|]. split; auto.
  - intros Hp. split; intros k; by rewrite Hp.
Qed.

Lemma resolves_all (m : gmap u64 (ClientIoSchema ShareType)) (bs : list (u64 * ClientIdentity)) :
  (∀ k, k ∈ bs.*1 → is_Some (m !! k)) → ∃ new, Forall2 (resolves m) bs new.
Proof.
  induction bs as [|b bs IH]; intros Hall; [by exists []|].
  destruct IH as [new Hnew]; [intros k Hk; apply Hall; by right|].
  destruct (Hall b.1) as [x Hx]; [left|]. eexists (_ :: new). constructor; [by exists x|done].
Qed.

Lemma resolves_clients (m : gmap u64 (ClientIoSchema ShareType)) bs new :
  Forall2 (resolves m) bs new → bc_client <$> new = bs.*2 ∧ length new = length bs ∧
  ∀ k, k ∈ bs.*1 → is_Some (m !! k).
Proof.
  induction 1 as [|b x bs new (schema & Hs & ->) _ (IH1 & IH2 & IH3)]; simpl.
  - split_and!; [done..|]. intros k Hk. by apply not_elem_of_nil in Hk.
  - split_and!; [by f_equal|by f_equal|]. intros k [->|Hk]%elem_of_cons; [eauto|auto].
Qed.

Lemma build_input_assignment_Ok manifest bindings r :
  (vlen manifest <= u32_modulus)%N →
  build_input_assignment manifest bindings = Ok r ↔
  NoDup (client_slot <$> manifest) ∧ bindings.*1 ≡ₚ client_slot <$> manifest ∧ NoDup bindings.*2 ∧
  ∃ bound, Forall2 (bound_by manifest) bindings bound ∧ r = laid_out bound InputAssignment_default [].
Proof.
  intros Hsize. unfold build_input_assignment. rewrite bind_Ok_inv. setoid_rewrite index_schemas_spec.
  assert (∀ bound, NoDup (client_slot <$> manifest) →
    Forall2 (resolves (slot_map manifest)) bindings bound ↔ Forall2 (bound_by manifest) bindings bound) as Hres.
  { intros bound Hnd. split; intros Hf; eapply Forall2_impl; try exact Hf; intros b x;
      unfold resolves, bound_by; setoid_rewrite slot_map_lookup; try done; naive_solver. }
  split.
  - intros (m & (Hnd & _ & ->) & Hrest). rewrite (right_id_L ∅ (∪)) in Hrest. fold (slot_map manifest) in Hrest.
    apply bind_Ok_inv in Hrest as ([rest bound] & Hb & Hrest).
    apply bind_clients_spec in Hb as (Hk & -> & new & -> & Hf). simpl in Hrest. inv_ok. reflect_bool.
    destruct (resolves_clients _ _ _ Hf) as (Hcl & Hlen & Hsome).
    apply lay_out_spec in Hrest as (Hndc & _ & _ & ->); [|by vm_compute]. rewrite Hcl in Hndc.
    split_and!; [done| |done|].
    + apply bindings_cover; [done..|]. split; [done|].
      by apply foldr_delete_empty.
    + exists new. split; [by apply Hres|done].
  - intros (Hnd & Hp & Hndc & bound & Hf & ->). apply Hres in Hf; [|done].
    assert (NoDup bindings.*1) as Hk by by rewrite Hp.
    destruct (resolves_clients _ _ _ Hf) as (Hcl & Hlen & Hsome).
    exists (slot_map manifest). split.
    { rewrite (right_id_L ∅ (∪)). split_and!; [done|intros; apply lookup_empty|done]. }
    apply bind_Ok_inv. exists (foldr delete (slot_map manifest) bindings.*1, bound). split.
    { apply bind_clients_spec. split_and!; [done..|]. by exists bound. }
    pose proof (Permutation_length Hp) as Hlp. rewrite !length_fmap in Hlp.
    apply bindings_cover in Hp as [_ Hall]; [|done..]. apply foldr_delete_empty in Hall.
    rewrite Hall, bool_decide_true by done. simpl. apply lay_out_spec; [by vm_compute|].
    rewrite Hcl. split_and!; [done|intros ? _; apply not_elem_of_empty| |done].
    apply (f_equal length) in Hcl. unfold with_inputs, vlen in *. simpl.
    pose proof (length_filter (fun x : ClientIdentity * u64 * u64 * u64 => x.1.2 ≠ 0%N) bound).
    lia.
Qed.

(** The program's client slots are bound exactly.  The layout is made precisely
    when the manifest's slots are distinct, the bindings name each of them once and
    no identity is bound twice.  It then gives each bound identity with inputs one
    range, in the order of the bindings, as long as its schema's inputs, numbered by
    its position among them; and the output clients are the bound identities whose
    schema has outputs. *)
Theorem client_slots_bound_exactly manifest bindings (Hsize : (vlen manifest <= u32_modulus)%N) :
  (is_ok (build_input_assignment manifest bindings) = true ↔
     NoDup (client_slot <$> manifest) ∧ bindings.*1 ≡ₚ client_slot <$> manifest ∧ NoDup bindings.*2) ∧
  ∀ a outs, build_input_assignment manifest bindings = Ok (a, outs) →
    ∃ bound, Forall2 (bound_by manifest) bindings bound ∧
      ia_clients a = bc_client <$> with_inputs bound ∧
      ia_ranges a = imap (fun i x => mkInputClientRange (N.of_nat i) x.1.2) (with_inputs bound) ∧
      outs = bc_client <$> with_outputs bound.
Proof.
  split.
  - split.
    + destruct (build_input_assignment manifest bindings) as [r| |] eqn:Hb; [|done..].
      apply build_input_assignment_Ok in Hb; [|done]. tauto.
    + intros (Hnd & Hp & Hndc). assert (NoDup bindings.*1) as Hk by by rewrite Hp.
      destruct (resolves_all (slot_map manifest) bindings) as [bound Hf].
      { by apply bindings_cover in Hp as [? _]. }
      assert (build_input_assignment manifest bindings =
        Ok (laid_out bound InputAssignment_default [])) as ->; [|done].
      apply build_input_assignment_Ok; [done|]. split_and!; [done..|]. exists bound. split; [|done].
      eapply Forall2_impl; [exact Hf|]. intros b x (schema & Hs & ->).
      apply slot_map_lookup in Hs as [??]; [|done]. by exists schema.
  - intros a outs Hb. apply build_input_assignment_Ok in Hb as (_ & _ & _ & bound & Hf & Heq); [|done].
    exists bound. unfold laid_out in Heq. simpl in Heq. by simplify_eq.
Qed.
End claims.

Section one_off.
Context `{HashOrder} {ShareType : Type}.

Lemma check_roster_Ok (args : Args ShareType) :
  topology_ok (arg_n args) (arg_t args) (arg_mpc_nodes args) → check_roster args = Ok tt.
Proof.
  intros [Hn Ht Hw Hnd]. unfold check_roster, usize_try_from, assert, u64_modulus, isize_max in *.
  rewrite (proj2 (N.ltb_lt _ _)) by lia. cbn [mbind result_bind].
  rewrite (proj2 (N.ltb_lt (arg_n args) _)) by lia. cbn [expect mbind result_bind].
  rewrite (proj2 (N.eqb_eq (vlen (arg_mpc_nodes args)) _)) by done. cbn [mbind result_bind].
  rewrite (proj2 (N.ltb_lt _ _)) by lia. cbn [mbind result_bind].
  rewrite size_list_to_set by done. unfold vlen. by rewrite N.eqb_refl.
Qed.

Lemma min_shares_in_roster n t nodes backend :
  topology_ok n t nodes →
  match backend with
  | HoneyBadger => u64_add (u64_wrap (2 * t)) 1
  | Avss => u64_add t 1
  end = min_shares backend t ∧ (1 <= min_shares backend t <= n)%N.
Proof.
  intros [Hn Ht Hw _]. unfold isize_max in *.
  destruct backend; (split; [done|]); unfold min_shares, robust_min_shares, feldman_min_shares, u64_add;
    rewrite ?(u64_wrap_small (2 * t)), u64_wrap_small; unfold u64_modulus; lia.
Qed.

Lemma new_execution_fields reg n delivery d :
  new_execution reg n delivery = Ok d →
  registration d = reg ∧ round d = Idle ∧ output_clients d = reg_output_clients reg.
Proof.
  intros Hn. by inv_new Hn.
Qed.

(** A layout names its clients by their positions. *)
Lemma laid_out_valid bound (a : InputAssignment) outs :
  laid_out bound InputAssignment_default [] = (a, outs) →
  assignment_valid (u64_sum (range_count <$> ia_ranges a)) a.
Proof.
  unfold laid_out. simpl. intros [= <- <-]. split; [by right|]. simpl.
  intros range (i & x & -> & Hx)%elem_of_lookup_imap. simpl.
  apply lookup_lt_Some in Hx. unfold vlen. rewrite !length_fmap. cbn [length]. lia.
Qed.

(** One slot per input, [OPTION_VEC_SIZE] bytes each, fits the address space. *)
Definition layout_fits (a : InputAssignment) : Prop :=
  (OPTION_VEC_SIZE * foldr N.add 0%N (range_count <$> ia_ranges a) <= isize_max)%N.

Lemma layout_fits_registration reg :
  n_inputs reg = u64_sum (range_count <$> ia_ranges (input_assignment reg)) →
  layout_fits (input_assignment reg) → registration_fits reg.
Proof.
  unfold layout_fits, registration_fits, total_inputs, OPTION_VEC_SIZE, SLOT_SIZE. intros -> Hf.
  rewrite u64_sum_mod. pose proof (N.Div0.mod_le (foldr N.add 0%N (range_count <$> ia_ranges (input_assignment reg))) u64_modulus).
  split; lia.
Qed.

(** The coordinator started for one program serves it.  For a valid roster, a
    nonzero program hash and identifier, inputs that fit the address space, and
    bindings that match the manifest, no
    assertion of the configuration fails: the coordinator comes up with exactly the
    one-off execution, idle, with the manifest's layout and output clients and the
    output quorum of the program's backend, and its state is a reachable one. *)
Theorem one_off_program_is_served (args : Args ShareType) one_off program bindings a outs delivery
    (Htop : topology_ok (arg_n args) (arg_t args) (arg_mpc_nodes args))
    (Hone : arg_one_off args = Some one_off) (Hprog : arg_program args = Some program)
    (Hid : is_zero (one_off_id one_off) = false) (Hhash : hash one_off ≠ zero_bytes)
    (Hsize : (vlen (manifest_clients program) <= u32_modulus)%N)
    (Hbind : program_bindings args program = Ok bindings)
    (Hbuild : build_input_assignment (manifest_clients program) bindings = Ok (a, outs))
    (Hfit : layout_fits a) :
  ∃ s d, configure args delivery = Ok (s, Some (one_off_id one_off)) ∧ reachable s ∧
    mpc_nodes s = arg_mpc_nodes args ∧ executions s = {[one_off_id one_off := d]} ∧
    round d = Idle ∧ output_clients d = outs ∧ input_assignment (registration d) = a ∧
    program_hash (registration d) = hash one_off ∧
    min_output_shares (registration d) = min_shares (mpc_backend program) (arg_t args).
Proof.
  destruct (min_shares_in_roster _ _ _ (mpc_backend program) Htop) as [Hmin Hquorum].
  assert (vlen (arg_mpc_nodes args) <= isize_max)%N as Hwidth
    by (rewrite <-(top_count _ _ _ Htop); apply Htop).
  apply build_input_assignment_Ok in Hbuild as Hb; [|done]. destruct Hb as (_ & _ & _ & bound & _ & Heq).
  set (s0 := mkServer (arg_mpc_nodes args) (arg_n args) (arg_t args) ∅ None None
    RetiredExecutions_default WebauthnBindings_default).
  assert (new_server (arg_n args) (arg_t args) (arg_mpc_nodes args) = Ok s0) as Hnew.
  { unfold new_server. by rewrite (proj2 (validate_topology_Ok _ _ _ Hwidth) Htop). }
  set (reg := mkExecutionRegistration (one_off_id one_off) (hash one_off)
    (u64_sum (range_count <$> ia_ranges a)) outs a (min_shares (mpc_backend program) (arg_t args))).
  assert (one_off_registration args one_off = Ok reg) as Hreg.
  { unfold one_off_registration. rewrite Hprog, Hbind. simpl. rewrite Hbuild. simpl. by rewrite Hmin. }
  assert (registration_valid reg (arg_n args)) as Hvalid.
  { split_and!; [done..|by eapply laid_out_valid|apply Hquorum|apply Hquorum|apply u64_sum_lt]. }
  apply (new_execution_valid_Ok _ _ delivery) in Hvalid; [|by apply layout_fits_registration].
  destruct (new_execution reg (arg_n args) delivery) as [d| |] eqn:Hd; [|done..]. clear Hvalid.
  apply new_execution_fields in Hd as Hf. destruct Hf as (Hfr & Hfi & Hfo).
  set (s1 := s0 <| executions ::= <[one_off_id one_off := d]> |>).
  assert (register_execution reg delivery s0 = (s1, Ok tt)) as Hregister.
  { unfold register_execution. simpl. rewrite lookup_empty, map_size_empty. simpl. by rewrite Hd. }
  exists s1, d. split_and!.
  - unfold configure. rewrite check_roster_Ok by done. simpl. rewrite Hnew. simpl.
    rewrite Hone. simpl. rewrite Hreg. simpl. by rewrite Hregister.
  - apply (reach_step s0); [by eapply reach_new|].
    destruct (arg_mpc_nodes args) as [|p ps] eqn:Hnodes.
    { destruct Htop as [Hn Ht _ _]. unfold vlen in Hn. simpl in Hn. lia. }
    eapply (step_register _ p reg delivery s1 [] (Ok tt)). unfold rpc_register_execution.
    rewrite (proj2 (contains_true (mpc_nodes s0) p)) by (simpl; left). simpl. by rewrite Hregister.
  - done.
  - done.
  - done.
  - done.
  - by rewrite Hfr.
  - by rewrite Hfr.
  - by rewrite Hfr.
Qed.
End one_off.

(** ** Witnesses *)

(** Two client slots: one input and one output, two inputs and no output. *)
Definition sample_manifest : list (ClientIoSchema unit) :=
  [mkClientIoSchema 0 [tt] [tt]; mkClientIoSchema 5 [tt; tt] []].
Definition sample_bindings : list (u64 * ClientIdentity) := [(5%N, client2); (0%N, client1)].
Definition sample_one_off : OneOff := mkOneOff sample_hash sample_eid.
Definition sample_args : Args unit :=
  mkArgs (Some sample_one_off) parties 4 1 None [] (Some (mkProgram Avss sample_manifest))
    sample_bindings HoneyBadger.
Definition sample_layout : InputAssignment :=
  mkInputAssignment [client2; client1] [mkInputClientRange 0 2; mkInputClientRange 1 1].

Lemma client_slots_bound_exactly_witness :
  build_input_assignment sample_manifest sample_bindings = Ok (sample_layout, [client1]) ∧
  ∃ bound, Forall2 (bound_by sample_manifest) sample_bindings bound ∧
    ia_clients sample_layout = bc_client <$> with_inputs bound.
Proof.
  assert (build_input_assignment sample_manifest sample_bindings = Ok (sample_layout, [client1])) as Hb
    by by vm_compute.
  split; [exact Hb|].
  destruct (client_slots_bound_exactly sample_manifest sample_bindings) as [_ Hl]; [by vm_compute|].
  destruct (Hl _ _ Hb) as (bound & Hf & Hc & _). by exists bound.
Defined.

Lemma one_off_program_is_served_witness :
  ∃ s d, configure sample_args 1 = Ok (s, Some sample_eid) ∧ round d = Idle ∧
    min_output_shares (registration d) = 2%N.
Proof.
  destruct (one_off_program_is_served sample_args sample_one_off (mkProgram Avss sample_manifest)
    sample_bindings sample_layout [client1] 1) as (s & d & Hc & _ & _ & _ & Hr & _ & _ & _ & Hq).
  - constructor; [done|done|done|]. apply (bool_decide_unpack _). by vm_compute.
  - reflexivity.
  - reflexivity.
  - reflexivity.
  - intros Heq. apply (f_equal (fun v => bool_decide (v = zero_bytes))) in Heq. by vm_compute in Heq.
  - by vm_compute.
  - reflexivity.
  - by vm_compute.
  - by vm_compute.
  - exists s, d. by split_and!.
Defined.
