(* ===== verification/UnitTests.v ===== *)
(** The unit tests of the identifiers (src/crates/coord-shared/src/lib.rs,
    [execution_id_tests]) and of the coordinator's command line
    (src/crates/bins/src/bin/run-coord.rs, [tests]), with the hexadecimal coding
    they run on. *)
From S2P Require Import Prelude Shared Execution Samples Rounds Sessions Server Rpc ServerSamples.
From S2P Require Import Invariant History Topology Machine Inputs NodeRpc Browser BrowserFacts BrowserClient BrowserTests.
From S2P Require Import Registry RunCoord.

Section identifiers.
Context (hex_encode : bytes → string) (hex_decode : string → option bytes).

Definition hex_round_trip_is_strict_and_stable : TestRun :=
  let id := from_bytes (vreplicate 32 Byte.xab) in
  let encoded := to_string hex_encode id in
  _ ← assert_eq (String.length encoded) 64%nat;
  parsed ← unwrapped (from_str hex_decode encoded);
  _ ← assert_eq parsed id;
  _ ← assert_true (is_err (from_str hex_decode "ab"));
  assert_true (is_err (from_str hex_decode (String.substring 0 63 encoded ++ "z"))).

Definition execution_id_validation_rejects_zero : TestRun :=
  _ ← assert_true (is_err (parse_nonzero_execution_id hex_decode (String.concat "" (replicate 32 "00"%string))));
  let execution_id := from_bytes (vreplicate 32 Byte.x07) in
  parsed ← unwrapped (parse_nonzero_execution_id hex_decode (to_string hex_encode execution_id));
  assert_eq parsed execution_id.
End identifiers.

Section manifest.
Context {ShareType : Type}.

(** The manifests of the test, by the fields that are read. *)
Definition int_manifest (secret_int : ShareType) : list (@ClientIoSchema ShareType) :=
  [mkClientIoSchema 0 [secret_int] [secret_int]].
Definition bool_manifest (secret_bool : ShareType) : list (@ClientIoSchema ShareType) :=
  [mkClientIoSchema 0 [secret_bool] [secret_bool]].

(** [&layout.clients[layout.ranges[0].client_index as usize]] *)
Definition client_of_first_range (layout : InputAssignment) : result unit ClientIdentity :=
  range ← expect (head (ia_ranges layout));
  expect (ia_clients layout !! N.to_nat (range_client_index range)).

Definition input_assignment_ignores_scalar_share_types (secret_int secret_bool : ShareType) : TestRun :=
  let client : ClientIdentity := [Byte.x07; Byte.x08; Byte.x09] in
  '(int_layout, int_outputs) ← unwrapped (build_input_assignment (int_manifest secret_int) [(0%N, client)]);
  '(bool_layout, bool_outputs) ← unwrapped (build_input_assignment (bool_manifest secret_bool) [(0%N, client)]);
  found ← client_of_first_range int_layout;
  _ ← assert_eq found client;
  range ← expect (head (ia_ranges int_layout));
  _ ← assert_eq (range_count range) 1%N;
  _ ← assert_eq (length (ia_ranges int_layout)) (length (ia_ranges bool_layout));
  assert_eq int_outputs bool_outputs.
End manifest.

(** ** Hexadecimal digits *)

Definition hex_digit (n : N) : Ascii.ascii :=
  Ascii.ascii_of_N (if (n <? 10)%N then 48 + n else 87 + n).
Definition hex_value (c : Ascii.ascii) : option N :=
  let n := Ascii.N_of_ascii c in
  if ((48 <=? n) && (n <=? 57))%N then Some (n - 48)%N
  else if ((65 <=? n) && (n <=? 70))%N then Some (n - 55)%N
  else if ((97 <=? n) && (n <=? 102))%N then Some (n - 87)%N
  else None.

Fixpoint hex_encode (bs : bytes) : string :=
  match bs with
  | [] => EmptyString
  | b :: bs => String (hex_digit (Byte.to_N b / 16)) (String (hex_digit (Byte.to_N b mod 16)) (hex_encode bs))
  end.
Fixpoint hex_decode (s : string) : option bytes :=
  match s with
  | EmptyString => Some []
  | String _ EmptyString => None
  | String c (String d s) =>
      hi ← hex_value c; lo ← hex_value d; b ← Byte.of_N (16 * hi + lo); (b ::.) <$> hex_decode s
  end.

(** Both directions agree on every identifier, not only on those of the tests. *)
Lemma hex_decode_encode bs : hex_decode (hex_encode bs) = Some bs.
Proof.
  induction bs as [|b bs IH]; [reflexivity|]. cbn [hex_encode hex_decode]. rewrite IH.
  destruct b; reflexivity.
Qed.

Lemma hex_encode_length bs : String.length (hex_encode bs) = (2 * length bs)%nat.
Proof. induction bs as [|b bs IH]; [reflexivity|]. cbn [hex_encode String.length length]. lia. Qed.

(** ** Every test passes *)

Definition tests : list TestRun :=
  BrowserTests.tests ++
  [hex_round_trip_is_strict_and_stable hex_encode hex_decode;
   execution_id_validation_rejects_zero hex_encode hex_decode;
   input_assignment_ignores_scalar_share_types false true].

(** The program's own unit tests pass on the model: the 33 tests of the browser
    transport on the bench, and those of the identifiers and of the command line,
    each translated step by step, end without a failed assertion. *)
Theorem tests_pass : Forall (fun t => t = Ok tt) tests.
Proof. repeat (apply List.Forall_cons; [by vm_compute|]). constructor. Qed.
