(* ===== verification/OnChain.v ===== *)
(** The on-chain backend: the node-side RPC server that authenticates clients by
    their Ethereum signature, and the client of the coordinator contract
    (src/crates/on-chain/src/lib.rs).  The contract, the Ethereum provider, the
    signature scheme, the share codec and the hybrid encryption belong to other
    code: they are arguments of the definitions. *)
From S2P Require Import Prelude Shared Execution Client.

Abbreviation Address := (vec byte 20).
Abbreviation U256 := N.

(** [u256_to_u64] *)
Definition u256_to_u64 (x : U256) : option u64 :=
  if (x <? u64_modulus)%N then Some x else None.

(** ** The node-side RPC server *)

Section node.
Context {Share Sig : Type} (serialize : Share → option bytes).
Context (from_raw : bytes → option Sig) (abi_encode : u64 → bytes) (keccak256 : bytes → vec byte 32).
Context (recover_address_from_msg : Sig → vec byte 32 → option Address).

(** [verify_client_sig]: the sum of the nonce and the index wraps. *)
Definition verify_client_sig (base_nonce i : u64) (addr : Address) (sig_bytes : bytes)
    : result unit bool :=
  sig ← ok_or (from_raw sig_bytes) tt;
  let hash := keccak256 (abi_encode (u64_add base_nonce i)) in
  sig_addr ← ok_or (recover_address_from_msg sig hash) tt;
  Ok (bool_decide (sig_addr = addr)).

(** [generate_client_sig] of a client whose wallet signs with [sign_message]. *)
Definition generate_client_sig (sign_message : vec byte 32 → option Sig) (base_nonce i : u64)
    : option Sig :=
  sign_message (keccak256 (abi_encode (u64_add base_nonce i))).

(** [verify_client_sig(..).unwrap_or(false)] *)
Definition sig_valid (base_nonce i : u64) (addr : Address) (sig_bytes : bytes) : bool :=
  match verify_client_sig base_nonce i addr sig_bytes with Ok b => b | _ => false end.

(** [NodeRPCServerShared]; an entry of [ids_and_addrs] is the client's TLS
    identity, its address and the signature that waits for the index. *)
Abbreviation IdEntry := (bytes * Address * option bytes)%type.

Record NodeRPCServerShared : Type := mkChainNode {
  cn_index_to_client : gmap u64 Address;
  cn_client_to_index : gmap Address u64;
  cn_authenticated : gset Address;
  cn_sinks : gmap Address SubscriptionSink;
  cn_mask_shares : gmap u64 Share;
  cn_ids_and_addrs : list IdEntry;
  cn_base_nonce : u64 }.

#[export] Instance chain_node_eta : Eta NodeRPCServerShared := fun d =>
  mkChainNode (cn_index_to_client d) (cn_client_to_index d) (cn_authenticated d) (cn_sinks d)
    (cn_mask_shares d) (cn_ids_and_addrs d) (cn_base_nonce d).

Definition new_chain_node (base_nonce : u64) : NodeRPCServerShared :=
  mkChainNode ∅ ∅ ∅ ∅ ∅ [] base_nonce.

Abbreviation ChainSend := (SubscriptionSink * bytes)%type.
Abbreviation ChainOutcome A := (NodeRPCServerShared * list ChainSend * A)%type.

(** [ids_and_addrs()] *)
Definition ids_and_addrs (d : NodeRPCServerShared) : list (bytes * Address) :=
  fst <$> filter (fun e : IdEntry => is_some e.2 = false) (cn_ids_and_addrs d).

(** [entry.2.take()] of the first entry for [addr]. *)
Fixpoint take_sig (addr : Address) (l : list IdEntry) : option (bytes * option bytes * list IdEntry) :=
  match l with
  | [] => None
  | (id, a, s) :: l =>
      if bool_decide (a = addr) then Some (id, s, (id, a, None) :: l)
      else '(id', s', l') ← take_sig addr l; Some (id', s', (id, a, s) :: l')
  end.

(** Sending the share of [i] to the sink kept for [addr], where both are there. *)
Definition send_kept_share (net : Net) (addr : Address) (i : u64) (d : NodeRPCServerShared)
    : list ChainSend * result NodeRPCError unit :=
  match cn_mask_shares d !! i, cn_sinks d !! addr with
  | Some share, Some sink =>
      match serialize share with
      | None => ([], Err NodeSerializationError)
      | Some share_bytes =>
          ([(sink, share_bytes)], if send_ok net sink 0 then Ok tt else Err NodeJSONError)
      end
  | _, _ => ([], Ok tt)
  end.

(** [add_reserved_index]; a failed assertion leaves what was written before it. *)
Definition add_reserved_index (net : Net) (addr : Address) (i : u64) (d : NodeRPCServerShared)
    : ChainOutcome (result NodeRPCError unit) :=
  if is_some (cn_index_to_client d !! i) then (d, [], Panic)
  else
    let d := d <| cn_index_to_client ::= <[i := addr]> |> <| cn_client_to_index ::= <[addr := i]> |> in
    match take_sig addr (cn_ids_and_addrs d) with
    | None => (d, [], Ok tt)
    | Some (_, None, _) => (d, [], Panic)
    | Some (tls_id, Some sig_bytes, entries) =>
        let d := d <| cn_ids_and_addrs := entries |> in
        if negb (sig_valid (cn_base_nonce d) i addr sig_bytes)
        then (d, [], Err (AuthenticationFailed tls_id))
        else
          let d := d <| cn_authenticated ::= ({[addr]} ∪.) |> in
          let '(log, r) := send_kept_share net addr i d in (d, log, r)
    end.

(** [add_mask_share] *)
Definition add_mask_share (net : Net) (i : u64) (share : Share) (d : NodeRPCServerShared)
    : ChainOutcome (result NodeRPCError unit) :=
  if is_some (cn_mask_shares d !! i) then (d, [], Panic)
  else
    let d := d <| cn_mask_shares ::= <[i := share]> |> in
    match cn_index_to_client d !! i with
    | Some addr =>
        if bool_decide (addr ∈ cn_authenticated d)
        then let '(log, r) := send_kept_share net addr i d in (d, log, r)
        else (d, [], Ok tt)
    | None => (d, [], Ok tt)
    end.

(** The end of a subscription call: rejected, not completed by the client, the
    share could not be sent, or run to its end. *)
Inductive ChainSubOutcome : Type :=
  | ChainRejected
  | ChainNotAccepted
  | ChainSendFailed
  | ChainSubscribed.

(** Keep the sink for later. *)
Definition keep_sink (accept : option SubscriptionSink) (self : bytes) (addr : Address)
    (pending_sig : option bytes) (d : NodeRPCServerShared) : ChainOutcome ChainSubOutcome :=
  match accept with
  | None => (d, [], ChainNotAccepted)
  | Some sink =>
      (d <| cn_sinks ::= <[addr := sink]> |> <| cn_ids_and_addrs ::= (.++ [(self, addr, pending_sig)]) |>,
       [], ChainSubscribed)
  end.

(** [receive_mask_share] *)
Definition receive_mask_share (net : Net) (accept : option SubscriptionSink) (self : bytes)
    (sig_bytes : bytes) (addr : Address) (d : NodeRPCServerShared) : ChainOutcome ChainSubOutcome :=
  if existsb (fun e : IdEntry => bool_decide (self = e.1.1) || bool_decide (addr = e.1.2))
       (cn_ids_and_addrs d)
  then (d, [], ChainRejected)
  else
    match cn_client_to_index d !! addr with
    | None => keep_sink accept self addr (Some sig_bytes) d
    | Some i =>
        if negb (sig_valid (cn_base_nonce d) i addr sig_bytes) then (d, [], ChainRejected)
        else
          let d := d <| cn_authenticated ::= ({[addr]} ∪.) |> in
          match cn_mask_shares d !! i with
          | None => keep_sink accept self addr None d
          | Some share =>
              match serialize share with
              | None => (d, [], ChainRejected)
              | Some share_bytes =>
                  match accept with
                  | None => (d, [], ChainNotAccepted)
                  | Some sink =>
                      if send_ok net sink 0
                      then (d <| cn_ids_and_addrs ::= (.++ [(self, addr, None)]) |>,
                            [(sink, share_bytes)], ChainSubscribed)
                      else (d, [(sink, share_bytes)], ChainSendFailed)
                  end
              end
          end
    end.
End node.
Arguments NodeRPCServerShared : clear implicits.

(** ** The client of a node *)

Section mask.
Context {Share V : Type} (deserialize_share : bytes → option Share).
Context (recover_secret : list Share → usize → usize → option V) (backend : MpcBackend).

(** The loop of [receive_mask] over the nodes' answers, in the order in which they
    arrive; an answer that cannot be read panics. *)
Fixpoint receive_mask_loop (n t : usize) (replies : list (option bytes)) (mask_shares : list Share)
    : result CoordinatorError V :=
  match replies with
  | [] => Err (MaskReconstructionFailed (vlen mask_shares))
  | reply :: replies =>
      share_bytes ← expect reply;
      share ← expect (deserialize_share share_bytes);
      let mask_shares := mask_shares ++ [share] in
      if (min_shares backend t <=? vlen mask_shares)%N
      then ok_or (recover_secret mask_shares n t) (MaskReconstructionFailed (vlen mask_shares))
      else receive_mask_loop n t replies mask_shares
  end.

(** [receive_mask]; [subscribed] tells which subscriptions were accepted. *)
Definition receive_mask (n t : usize) (subscribed : list bool) (replies : list (option bytes))
    : result CoordinatorError V :=
  if forallb id subscribed then receive_mask_loop n t replies [] else Panic.
End mask.

(** ** Events of the contract *)

(** What a log stream yields next: a decoded event, or an error or its end.  A
    list of items is what has been seen so far; a wait that has used it up is not
    over, which is the outcome [None]. *)
Inductive LogItem (E : Type) : Type :=
  | LogEvent (e : E)
  | LogOver.
Arguments LogEvent {E} e.
Arguments LogOver {E}.

(** [map.values().map(Vec::len).sum()] *)
Definition total_len (m : gmap Address (list u64)) : usize := u64_sum (vlen <$> (map_to_list m).*2).

(** The loop of [wait_for_indices]: the stream's end ends the wait, too. *)
Fixpoint chain_wait_for_indices_loop (n_inputs : u64) (addr_to_i : gmap Address (list u64))
    (events : list (LogItem (Address * U256)))
    : option (result CoordinatorError (gmap Address (list u64))) :=
  match events with
  | [] => None
  | LogOver :: _ => Some (Ok addr_to_i)
  | LogEvent (client, reservedIndex) :: events =>
      match u256_to_u64 reservedIndex with
      | None => Some Panic
      | Some i =>
          let addr_to_i := extend_entry client [i] addr_to_i in
          if (total_len addr_to_i =? n_inputs)%N then Some (Ok addr_to_i)
          else chain_wait_for_indices_loop n_inputs addr_to_i events
      end
  end.

(** [wait_for_indices]; an event filter that cannot be set up panics. *)
Definition chain_wait_for_indices (n_inputs : u64) (filter : option (list (LogItem (Address * U256))))
    : option (result CoordinatorError (gmap Address (list u64))) :=
  match filter with
  | None => Some Panic
  | Some events => chain_wait_for_indices_loop n_inputs ∅ events
  end.

Definition stream_ended : CoordinatorError := EthereumError "event stream ended unexpectedly".

Section chain_client.
Context {Share V : Type} (deserialize_value : bytes → option V).
Context (compute_masked_input : V → Share → option Share).

(** One masked input event; the share is looked up before the value is decoded. *)
Definition chain_unmask (mask_shares : list Share) (maskedInput : bytes) (reservedIndex : U256)
    : result CoordinatorError (u64 * Share) :=
  i ← ok_or (u256_to_u64 reservedIndex) U256ToU64Error;
  mask_share ← index mask_shares i;
  masked_input_value ← ok_or (deserialize_value maskedInput) DeserializationError;
  input ← ok_or (compute_masked_input masked_input_value mask_share) ShareErr;
  Ok (i, input).

(** The [n_inputs] iterations of [wait_for_inputs]. *)
Fixpoint chain_wait_for_inputs_loop (k : nat) (mask_shares : list Share)
    (inputs : gmap Address (list (u64 * Share))) (events : list (LogItem (Address * bytes * U256)))
    : option (result CoordinatorError (gmap Address (list (u64 * Share)))) :=
  match k with
  | O => Some (Ok inputs)
  | S k =>
      match events with
      | [] => None
      | LogOver :: _ => Some (Err stream_ended)
      | LogEvent (client, maskedInput, reservedIndex) :: events =>
          match chain_unmask mask_shares maskedInput reservedIndex with
          | Ok unmasked =>
              chain_wait_for_inputs_loop k mask_shares (extend_entry client [unmasked] inputs) events
          | Err e => Some (Err e)
          | Panic => Some Panic
          end
      end
  end.

(** [wait_for_inputs]; [None] for the event filter when it cannot be set up. *)
Definition chain_wait_for_inputs (n_inputs : u64) (mask_shares : list Share)
    (filter : option (list (LogItem (Address * bytes * U256))))
    : option (result CoordinatorError (gmap Address (list Share))) :=
  match filter with
  | None => Some (Err (EthereumError "error setting up event listener for MaskedInputEvent events"))
  | Some events =>
      match chain_wait_for_inputs_loop (N.to_nat n_inputs) mask_shares ∅ events with
      | Some (Ok indexed) =>
          Some (Ok ((fun indexed_inputs => (sort_by_key indexed_inputs).*2) <$>
                      (indexed : gmap Address (list (u64 * Share)))))
      | Some (Err e) => Some (Err e)
      | Some Panic => Some Panic
      | None => None
      end
  end.
End chain_client.

(** The contract call and the event of each round. *)
Inductive ContractCall : Type :=
  | startPreprocessing | reserveInputMasks | collectInputs | startMpc | sendOutputs | finalize.
Inductive ContractEvent : Type :=
  | PreprocessingStartedLog | InputMaskReservationStartedLog | InputCollectionStartedLog
  | MPCStartedLog | OutputSendingStartedLog | ExecutionDoneLog.

Definition round_call (r : Round) : option ContractCall :=
  match r with
  | Idle => None
  | Preprocessing => Some startPreprocessing
  | InputMaskReservation => Some reserveInputMasks
  | InputCollection => Some collectInputs
  | MPCExecution => Some startMpc
  | OutputDistribution => Some sendOutputs
  | ProgramFinished => Some finalize
  end.

Definition round_log (r : Round) : option ContractEvent :=
  match r with
  | Idle => None
  | Preprocessing => Some PreprocessingStartedLog
  | InputMaskReservation => Some InputMaskReservationStartedLog
  | InputCollection => Some InputCollectionStartedLog
  | MPCExecution => Some MPCStartedLog
  | OutputDistribution => Some OutputSendingStartedLog
  | ProgramFinished => Some ExecutionDoneLog
  end.

(** The outcome of sending a transaction and of waiting for it to be mined. *)
Inductive TxOutcome : Type := TxNotSent | TxNotMined | TxMined.

(** Send and wait, as every transaction of the client does. *)
Definition send_and_watch (o : TxOutcome) : result CoordinatorError unit :=
  match o with
  | TxMined => Ok tt
  | TxNotMined => Err (EthereumError "error waiting for transaction to be mined")
  | TxNotSent => Err (EthereumError "error sending transaction")
  end.

(** [trigger_round]; [send] is what the provider does with the call. *)
Definition chain_trigger_round (send : ContractCall → TxOutcome) (r : Round)
    : result CoordinatorError unit :=
  match round_call r with
  | None => Panic
  | Some call => send_and_watch (send call)
  end.

(** The six methods of [Coordinator] that start a round. *)
Definition chain_start_preprocessing (send : ContractCall → TxOutcome) : result CoordinatorError unit :=
  send_and_watch (send startPreprocessing).
Definition chain_reserve_input_masks (send : ContractCall → TxOutcome) : result CoordinatorError unit :=
  send_and_watch (send reserveInputMasks).
Definition chain_collect_inputs (send : ContractCall → TxOutcome) : result CoordinatorError unit :=
  send_and_watch (send collectInputs).
Definition chain_start_mpc (send : ContractCall → TxOutcome) : result CoordinatorError unit :=
  send_and_watch (send startMpc).
Definition chain_send_output (send : ContractCall → TxOutcome) : result CoordinatorError unit :=
  send_and_watch (send sendOutputs).
Definition chain_finalize (send : ContractCall → TxOutcome) : result CoordinatorError unit :=
  send_and_watch (send finalize).

(** [wait_for_round]; [None] while no log has arrived. *)
Definition chain_wait_for_round (logs : ContractEvent → option (list (LogItem unit))) (r : Round)
    : option (result CoordinatorError unit) :=
  match round_log r with
  | None => Some Panic
  | Some e =>
      match logs e with
      | None => Some (Err (EthereumError "error setting up event listener for {} events"))
      | Some [] => None
      | Some (LogEvent _ :: _) => Some (Ok tt)
      | Some (LogOver :: _) => Some (Err stream_ended)
      end
  end.

(** [reserve_mask_index]: a transaction that is not sent or has no receipt panics;
    [status] is the receipt's. *)
Definition chain_reserve_mask_index (receipt : option bool) : result CoordinatorError unit :=
  status ← expect receipt;
  ensure status (EthereumError "invalid receipt sending transaction to obtain input mask indices").

(** The contract's errors that [send_masked_input] tells apart. *)
Inductive SubmitRevert : Type :=
  | IndexNotReserved | ZeroMaskedInput | AlreadySubmittedInputs | OtherRevert.

(** What the provider does with a submission: the transaction is sent, or refused
    with a decoded error of the contract where there is one. *)
Inductive SubmitOutcome : Type :=
  | SubmitSent (mined : bool)
  | SubmitRefused (revert : option SubmitRevert).

Definition submit_message (revert : option SubmitRevert) : string :=
  match revert with
  | Some IndexNotReserved => "Index {} not reserved by address {}"
  | Some ZeroMaskedInput => "Masked input cannot be zero, but client {} submitted zero"
  | Some AlreadySubmittedInputs => "Client {} already submitted masked inputs"
  | Some OtherRevert => "Unexpected error"
  | None => "Unknown error"
  end.

(** [send_masked_input]; the index is passed on as it is. *)
Definition chain_send_masked_input {V} (serialize_value : V → option bytes)
    (submit : bytes → U256 → SubmitOutcome) (masked_input : V) (i : u64)
    : result CoordinatorError unit :=
  masked_input_bytes ← ok_or (serialize_value masked_input) SerializationError;
  match submit masked_input_bytes i with
  | SubmitSent true => Ok tt
  | SubmitSent false =>
      Err (EthereumError "error waiting for transaction to submit masked inputs be mined")
  | SubmitRefused revert =>
      Err (EthereumError
        ("error sending transaction to submit masked inputs: " +:+ submit_message revert))
  end.

(** ** Outputs *)

Section chain_outputs.
Context {S V SK PK EK : Type}.
Context (deserialize_shares : bytes → option (list S)) (serialize_shares : list S → option bytes).
Context (deserialize_sealed : bytes → option (bytes * bytes)).
Context (serialize_sealed : bytes * bytes → option bytes).
Context (recover_secret : list S → usize → usize → option V).
Context (backend : MpcBackend).
Context (from_pkcs8_der : bytes → option bytes) (private_key : bytes → option SK).
Context (public_key : bytes → option PK).
Context (encapped_key : bytes → option EK) (encapped_bytes : EK → bytes).
Context (single_shot_open : SK → EK → bytes → bytes → option bytes).
Context (single_shot_seal : PK → bytes → bytes → vec byte 32 → option (EK * bytes)).

(** One entry of an [EnoughOutputShares] event. *)
Definition chain_open_shares (sk : SK) (entry : bytes) : result CoordinatorError (list S) :=
  sealed ← ok_or (deserialize_sealed entry) DeserializationError;
  open_shares deserialize_shares encapped_key single_shot_open sk ENC_INFO sealed.

Fixpoint chain_open_event (sk : SK) (n_outputs : u64) (entries : list bytes)
    : result CoordinatorError (list (list S)) :=
  match entries with
  | [] => Ok []
  | entry :: entries =>
      shares ← chain_open_shares sk entry;
      rest ← chain_open_event sk n_outputs entries;
      Ok (if (vlen shares =? n_outputs)%N then shares :: rest else rest)
  end.

(** The loop of [obtain_outputs]: too few shares in an event are a bug of the
    contract and panic. *)
Fixpoint chain_obtain_outputs_loop (sk : SK) (n t n_outputs : u64)
    (events : list (LogItem (list bytes))) : option (result CoordinatorError (list V)) :=
  match events with
  | [] => None
  | LogOver :: _ => Some (Err stream_ended)
  | LogEvent shares :: events =>
      if (vlen shares <? min_shares backend (as_usize t))%N then Some Panic
      else
        match chain_open_event sk n_outputs shares with
        | Ok output_shares =>
            let outputs := outputs_of_snapshot recover_secret (as_usize n) (as_usize t) n_outputs
                             output_shares in
            if (vlen outputs =? as_usize n_outputs)%N then Some (Ok outputs)
            else chain_obtain_outputs_loop sk n t n_outputs events
        | Err e => Some (Err e)
        | Panic => Some Panic
        end
  end.

(** [obtain_outputs]; without a key it panics.  The constructor always sets the
    number of outputs. *)
Definition chain_obtain_outputs (key_der : option bytes) (n t n_outputs : u64)
    (filter : option (list (LogItem (list bytes)))) : option (result CoordinatorError (list V)) :=
  match (der_bytes ← expect key_der;
         raw_sk ← ok_or (from_pkcs8_der der_bytes) ParsingDERAsPKCS8Failed;
         ok_or (private_key raw_sk) ParsingPrivateKeyFailed) with
  | Ok client_sk =>
      match filter with
      | None => Some (Err (EthereumError "error setting up event listener for MPCStarted events"))
      | Some events => chain_obtain_outputs_loop client_sk n t n_outputs events
      end
  | Err e => Some (Err e)
  | Panic => Some Panic
  end.

(** [send_output_shares] of a party: the bytes of the contract call, whose outcome
    [tx] decides the result. *)
Definition chain_seal_output_shares (key : bytes) (rng : vec byte 32) (output_shares : list S)
    : result CoordinatorError bytes :=
  client_pk ← ok_or (public_key key) ParsingPublicKeyFailed;
  output_shares_bytes ← ok_or (serialize_shares output_shares) SerializationError;
  sealed ← ok_or (single_shot_seal client_pk ENC_INFO output_shares_bytes rng) EncryptionError;
  ok_or (serialize_sealed (encapped_bytes sealed.1, sealed.2)) SerializationError.

Definition chain_send_output_shares (send : bytes → TxOutcome) (key : bytes) (rng : vec byte 32)
    (output_shares : list S) : result CoordinatorError unit :=
  c ← chain_seal_output_shares key rng output_shares;
  send_and_watch (send c).
End chain_outputs.
