(* ===== verification/OnChainFacts.v ===== *)
(** What the on-chain node guarantees: mask shares go only to subscribers that
    proved they hold the address, and go there once everything is in place. *)
From S2P Require Import Prelude Shared Execution Samples Server NodeRpc Client OnChain.

Section node.
Context {Share Sig : Type} (serialize : Share → option bytes).
Context (from_raw : bytes → option Sig) (abi_encode : u64 → bytes) (keccak256 : bytes → vec byte 32).
Context (recover_address_from_msg : Sig → vec byte 32 → option Address).

Abbreviation ChainNode := (NodeRPCServerShared Share).
Abbreviation valid := (sig_valid from_raw abi_encode keccak256 recover_address_from_msg).
Abbreviation reserve :=
  (add_reserved_index serialize from_raw abi_encode keccak256 recover_address_from_msg).
Abbreviation add_share := (add_mask_share serialize).
Abbreviation request :=
  (receive_mask_share serialize from_raw abi_encode keccak256 recover_address_from_msg).

Definition entry_addr (e : bytes * Address * option bytes) : Address := e.1.2.

Lemma take_sig_Some addr l id s l' :
  take_sig addr l = Some (id, s, l') →
  ∃ l1 l2, l = l1 ++ (id, addr, s) :: l2 ∧ l' = l1 ++ (id, addr, None) :: l2.
Proof.
  revert l'. induction l as [|[[id0 a] s0] l IH]; intros l'; simpl; [done|].
  case_bool_decide as Ha.
  - intros [= <- <- <-]. subst a. by exists [], l.
  - destruct (take_sig addr l) as [[[id1 s1] l1]|] eqn:Ht; simpl; [|done]. intros [= <- <- <-].
    destruct (IH l1 eq_refl) as (k1 & k2 & -> & ->). by exists ((id0, a, s0) :: k1), k2.
Qed.

Lemma take_sig_None addr l : take_sig addr l = None ↔ addr ∉ (entry_addr <$> l).
Proof.
  induction l as [|[[id0 a] s0] l IH]; simpl; [split; [|done]; intros _; apply not_elem_of_nil|].
  rewrite not_elem_of_cons. unfold entry_addr at 1. simpl. case_bool_decide as Ha; [naive_solver|].
  destruct (take_sig addr l) as [[[id1 s1] l1]|]; simpl; naive_solver.
Qed.

Lemma take_sig_again addr l id s l' :
  take_sig addr l = Some (id, s, l') → take_sig addr l' = Some (id, None, l').
Proof.
  revert l'. induction l as [|[[id0 a] s0] l IH]; intros l'; simpl; [done|].
  case_bool_decide as Ha.
  - intros [= <- <- <-]. simpl. by rewrite bool_decide_true.
  - destruct (take_sig addr l) as [[[id1 s1] l1]|] eqn:Ht; simpl; [|done]. intros [= <- <- <-].
    simpl. rewrite bool_decide_false by done. by rewrite (IH l1 eq_refl).
Qed.

Lemma send_kept_share_cases net addr i (d : ChainNode) log r :
  send_kept_share serialize net addr i d = (log, r) →
  ∀ x, x ∈ log → ∃ share, cn_mask_shares d !! i = Some share ∧ cn_sinks d !! addr = Some x.1 ∧
    serialize share = Some x.2.
Proof.
  unfold send_kept_share. intros Hs x Hx.
  destruct (cn_mask_shares d !! i) as [share|]; [|simplify_eq; by apply not_elem_of_nil in Hx].
  destruct (cn_sinks d !! addr) as [sink|]; [|simplify_eq; by apply not_elem_of_nil in Hx].
  destruct (serialize share) as [b|] eqn:Hb; simplify_eq; [|by apply not_elem_of_nil in Hx].
  apply list_elem_of_singleton in Hx as ->. by exists share.
Qed.

(** A signature the client generated for its index verifies at the node, when its
    wallet signs so that the address is recovered, and reading undoes writing. *)
Lemma generated_signature_verifies (sign_message : vec byte 32 → option Sig) (as_raw : Sig → bytes)
    base_nonce i addr sig :
  (∀ h s, sign_message h = Some s → from_raw (as_raw s) = Some s ∧
     recover_address_from_msg s h = Some addr) →
  generate_client_sig abi_encode keccak256 sign_message base_nonce i = Some sig →
  valid base_nonce i addr (as_raw sig) = true.
Proof.
  unfold generate_client_sig. intros Hwallet Hsig. destruct (Hwallet _ _ Hsig) as [Hraw Hrec].
  unfold sig_valid, verify_client_sig. rewrite Hraw. simpl. rewrite Hrec. simpl.
  by apply bool_decide_eq_true.
Qed.

(** ** Runs of a node *)

(** A node, the subscription requests it was sent (sink, signature, address), and
    the shares it sent. *)
Record ChainWorld : Type := mkChainWorld {
  cw_node : ChainNode;
  cw_requests : list (SubscriptionSink * bytes * Address);
  cw_log : list (SubscriptionSink * bytes) }.

(** Every call holds the node's lock, so a run is a sequence of calls. *)
Inductive chain_step (w : ChainWorld) : ChainWorld → Prop :=
  | cs_reserve net addr i d log r :
      reserve net addr i (cw_node w) = (d, log, r) →
      chain_step w (mkChainWorld d (cw_requests w) (cw_log w ++ log))
  | cs_share net i share d log r :
      add_share net i share (cw_node w) = (d, log, r) →
      chain_step w (mkChainWorld d (cw_requests w) (cw_log w ++ log))
  | cs_request net sink self sig addr d log o :
      request net (Some sink) self sig addr (cw_node w) = (d, log, o) →
      chain_step w (mkChainWorld d (cw_requests w ++ [(sink, sig, addr)]) (cw_log w ++ log))
  | cs_abandoned net self sig addr d log o :
      request net None self sig addr (cw_node w) = (d, log, o) →
      chain_step w (mkChainWorld d (cw_requests w) (cw_log w ++ log)).

Definition chain_initial (base_nonce : u64) : ChainWorld :=
  mkChainWorld (new_chain_node base_nonce) [] [].

(** The sink was subscribed with a signature that is valid for an index reserved by
    the address. *)
Definition proved (d : ChainNode) (reqs : list (SubscriptionSink * bytes * Address))
    (sink : SubscriptionSink) (addr : Address) : Prop :=
  ∃ sig j, (sink, sig, addr) ∈ reqs ∧ cn_index_to_client d !! j = Some addr ∧
    valid (cn_base_nonce d) j addr sig = true.

(** A sent share is the share of an index whose address subscribed the sink. *)
Definition justified (d : ChainNode) (reqs : list (SubscriptionSink * bytes * Address))
    (x : SubscriptionSink * bytes) : Prop :=
  ∃ addr i share, cn_index_to_client d !! i = Some addr ∧ cn_mask_shares d !! i = Some share ∧
    serialize share = Some x.2 ∧ proved d reqs x.1 addr.

Record chain_ok (w : ChainWorld) : Prop := {
  ck_auth : ∀ addr, addr ∈ cn_authenticated (cw_node w) → is_Some (cn_client_to_index (cw_node w) !! addr);
  ck_index : ∀ addr j, cn_client_to_index (cw_node w) !! addr = Some j →
    cn_index_to_client (cw_node w) !! j = Some addr;
  ck_unique : NoDup (entry_addr <$> cn_ids_and_addrs (cw_node w));
  ck_entry : ∀ addr, is_Some (cn_sinks (cw_node w) !! addr) →
    addr ∈ (entry_addr <$> cn_ids_and_addrs (cw_node w));
  ck_pending : ∀ id addr sig, (id, addr, Some sig) ∈ cn_ids_and_addrs (cw_node w) →
    ∃ sink, cn_sinks (cw_node w) !! addr = Some sink ∧ (sink, sig, addr) ∈ cw_requests w;
  ck_kept : ∀ addr sink, cn_sinks (cw_node w) !! addr = Some sink →
    addr ∈ cn_authenticated (cw_node w) → proved (cw_node w) (cw_requests w) sink addr;
  ck_log : ∀ x, x ∈ cw_log w → justified (cw_node w) (cw_requests w) x }.

Lemma proved_mono (d d' : ChainNode) reqs reqs' sink addr :
  cn_index_to_client d ⊆ cn_index_to_client d' → cn_base_nonce d' = cn_base_nonce d →
  reqs ⊆ reqs' → proved d reqs sink addr → proved d' reqs' sink addr.
Proof.
  intros Hix Hn Hreq (sig & j & Hin & Hj & Hv). exists sig, j. rewrite Hn. split_and!; [auto| |done].
  by eapply lookup_weaken.
Qed.

(** What earlier calls logged stays justified. *)
Lemma justified_mono (d d' : ChainNode) reqs reqs' x :
  cn_index_to_client d ⊆ cn_index_to_client d' → cn_mask_shares d ⊆ cn_mask_shares d' →
  cn_base_nonce d' = cn_base_nonce d → reqs ⊆ reqs' → justified d reqs x → justified d' reqs' x.
Proof.
  intros Hix Hm Hn Hreq (addr & i & share & Hi & Hs & Hb & Hp).
  exists addr, i, share. split_and!; [by eapply lookup_weaken..|done|by eapply proved_mono].
Qed.

(** A sent share was kept for an authenticated address. *)
Lemma kept_share_justified net addr i (d : ChainNode) reqs log log' r :
  chain_ok (mkChainWorld d reqs log) → addr ∈ cn_authenticated d → cn_index_to_client d !! i = Some addr →
  send_kept_share serialize net addr i d = (log', r) → chain_ok (mkChainWorld d reqs (log ++ log')).
Proof.
  intros Hok Hauth Hi Hs. pose proof (send_kept_share_cases _ _ _ _ _ _ Hs) as Hsent.
  destruct Hok as [H1 H2 H3 H4 H5 H6 H7]. constructor; simpl in *; try done.
  intros x [Hin|Hin]%elem_of_app; [by apply H7|].
  destruct (Hsent _ Hin) as (share & Hm & Hk & Hb). simpl in *. exists addr, i, share. by split_and!; auto.
Qed.

Lemma index_added_ok addr i (d : ChainNode) reqs log :
  chain_ok (mkChainWorld d reqs log) → cn_index_to_client d !! i = None →
  chain_ok (mkChainWorld
    (d <| cn_index_to_client ::= <[i := addr]> |> <| cn_client_to_index ::= <[addr := i]> |>) reqs log).
Proof.
  intros [H1 H2 H3 H4 H5 H6 H7] Hi. simpl in *.
  assert (cn_index_to_client d ⊆ <[i := addr]> (cn_index_to_client d)) as Hsub by (by apply insert_subseteq).
  constructor; simpl; try done.
  - intros a Ha. rewrite lookup_insert. case_decide; [eauto|auto].
  - intros a j. rewrite !lookup_insert. case_decide as Ha.
    + intros [= <-]. subst a. by rewrite decide_True.
    + intros Hj%H2. rewrite decide_False; [done|]. intros ->. congruence.
  - intros a sink Hk Ha. eapply proved_mono; [| | |by apply H6]; try done.
  - intros x Hin. by eapply justified_mono; [| | | |by apply H7].
Qed.

Lemma sig_taken_ok addr id sig l1 l2 (d : ChainNode) reqs log :
  chain_ok (mkChainWorld d reqs log) → cn_ids_and_addrs d = l1 ++ (id, addr, Some sig) :: l2 →
  chain_ok (mkChainWorld (d <| cn_ids_and_addrs := l1 ++ (id, addr, None) :: l2 |>) reqs log).
Proof.
  intros [H1 H2 H3 H4 H5 H6 H7] Hl. simpl in *.
  assert ((entry_addr <$> l1 ++ (id, addr, None) :: l2) = (entry_addr <$> cn_ids_and_addrs d)) as Haddrs.
  { by rewrite Hl, !fmap_app, !fmap_cons. }
  constructor; simpl; try done; rewrite ?Haddrs; [done|done|].
  intros id' a sig' Hin. apply (H5 id' a sig'). rewrite Hl.
  apply elem_of_app in Hin as [Hin|[Hin|Hin]%elem_of_cons]; [|done|]; apply elem_of_app; [by left|].
  right. by right.
Qed.

Lemma authenticated_ok addr i sig (d : ChainNode) reqs log :
  chain_ok (mkChainWorld d reqs log) → cn_client_to_index d !! addr = Some i →
  (∀ k, cn_sinks d !! addr = Some k → (k, sig, addr) ∈ reqs) →
  valid (cn_base_nonce d) i addr sig = true →
  chain_ok (mkChainWorld (d <| cn_authenticated ::= ({[addr]} ∪.) |>) reqs log).
Proof.
  intros [H1 H2 H3 H4 H5 H6 H7] Hi Hk Hv. simpl in *. constructor; simpl; try done.
  - intros a [->%elem_of_singleton|Ha]%elem_of_union; [by rewrite Hi|auto].
  - intros a k Hs [->%elem_of_singleton|Ha]%elem_of_union; [|by apply H6].
    exists sig, i. auto.
Qed.

Lemma reserve_ok net addr i (d d' : ChainNode) reqs log log' r :
  chain_ok (mkChainWorld d reqs log) → reserve net addr i d = (d', log', r) →
  chain_ok (mkChainWorld d' reqs (log ++ log')).
Proof.
  intros Hok Hr. unfold add_reserved_index in Hr.
  destruct (cn_index_to_client d !! i) as [c|] eqn:Hi; simpl in Hr; [simplify_eq; by rewrite app_nil_r|].
  apply (index_added_ok addr i) in Hok; [|done].
  set (d1 := d <| cn_index_to_client ::= _ |> <| cn_client_to_index ::= _ |>) in *.
  destruct (take_sig addr (cn_ids_and_addrs d)) as [[[id s] l']|] eqn:Ht;
    [|simplify_eq; by rewrite app_nil_r].
  apply take_sig_Some in Ht as (l1 & l2 & Hl & ->).
  destruct s as [sig|]; [|simplify_eq; by rewrite app_nil_r].
  pose proof (ck_pending _ Hok id addr sig) as Hpend. simpl in Hpend. rewrite Hl in Hpend.
  destruct Hpend as (sink & Hsink & Hreq); [apply elem_of_app; right; left|].
  apply (sig_taken_ok addr id sig l1 l2) in Hok; [|done].
  destruct (sig_valid _ _ _ _ _ _ _ _) eqn:Hv; simpl in Hr; [|simplify_eq; by rewrite app_nil_r].
  destruct (send_kept_share _ _ _ _ _) as [log1 r1] eqn:Hs. injection Hr as <- <- <-.
  eapply kept_share_justified; [| | |exact Hs]; [|simpl; set_solver|simpl; by rewrite lookup_insert_eq].
  eapply authenticated_ok; [exact Hok|simpl; by rewrite lookup_insert_eq| |exact Hv].
  simpl. intros k Hk. rewrite Hsink in Hk. by injection Hk as <-.
Qed.

Lemma add_share_ok net i share (d d' : ChainNode) reqs log log' r :
  chain_ok (mkChainWorld d reqs log) → add_share net i share d = (d', log', r) →
  chain_ok (mkChainWorld d' reqs (log ++ log')).
Proof.
  intros Hok Hr. unfold add_mask_share in Hr.
  destruct (cn_mask_shares d !! i) as [c|] eqn:Hi; simpl in Hr; [simplify_eq; by rewrite app_nil_r|].
  assert (chain_ok (mkChainWorld (d <| cn_mask_shares ::= <[i := share]> |>) reqs log)) as Hok'.
  { destruct Hok as [H1 H2 H3 H4 H5 H6 H7]. constructor; simpl in *; try done.
    intros x Hin. eapply justified_mono; [| | | |by apply H7]; try done. by apply insert_subseteq. }
  destruct (cn_index_to_client d !! i) as [addr|] eqn:Ha; [|simplify_eq; by rewrite app_nil_r].
  case_bool_decide as Hauth; [|simplify_eq; by rewrite app_nil_r].
  destruct (send_kept_share _ _ _ _ _) as [log1 r1] eqn:Hs. injection Hr as <- <- <-.
  by eapply kept_share_justified.
Qed.

Lemma requests_mono (d : ChainNode) reqs x log :
  chain_ok (mkChainWorld d reqs log) → chain_ok (mkChainWorld d (reqs ++ [x]) log).
Proof.
  intros [H1 H2 H3 H4 H5 H6 H7]. simpl in *.
  assert (reqs ⊆ reqs ++ [x]) as Hsub by (intros y Hy; apply elem_of_app; by left).
  constructor; simpl; try done.
  - intros id a sig Hin. destruct (H5 id a sig Hin) as (sink & Hs & Hr). exists sink. auto.
  - intros a sink Hs Ha. eapply proved_mono; [done|done|exact Hsub|by apply H6].
  - intros y Hin. by eapply justified_mono; [| | | |by apply H7].
Qed.

(** A fresh entry for an address that has none; the sink is kept with it. *)
Lemma sink_kept_ok addr sink self pending sig (d : ChainNode) reqs log :
  chain_ok (mkChainWorld d reqs log) → addr ∉ (entry_addr <$> cn_ids_and_addrs d) →
  (∀ s, pending = Some s → s = sig) → (sink, sig, addr) ∈ reqs →
  (addr ∈ cn_authenticated d → proved d reqs sink addr) →
  chain_ok (mkChainWorld (d <| cn_sinks ::= <[addr := sink]> |>
    <| cn_ids_and_addrs ::= (.++ [(self, addr, pending)]) |>) reqs log).
Proof.
  intros [H1 H2 H3 H4 H5 H6 H7] Hfresh Hsig Hreq Hp. simpl in *. constructor; simpl; try done.
  - rewrite fmap_app. apply NoDup_app. split_and!; [done| |by apply NoDup_singleton].
    intros a Ha Heq%list_elem_of_singleton. simpl in Heq. unfold entry_addr in *. simpl in Heq. by subst a.
  - intros a. rewrite fmap_app, elem_of_app, lookup_insert. case_decide; [|auto].
    intros _. right. subst a. by left.
  - intros id a s [Hin|Hin%list_elem_of_singleton]%elem_of_app.
    + rewrite lookup_insert_ne; [by eapply H5|]. intros <-. apply Hfresh.
      apply list_elem_of_fmap. by exists (id, addr, Some s).
    + injection Hin as -> -> Hs. rewrite lookup_insert_eq. exists sink.
      by rewrite (Hsig s (eq_sym Hs)).
  - intros a k. rewrite lookup_insert. case_decide as Ha; [|by apply H6].
    intros [= <-] Hauth. subst a. by apply Hp.
Qed.

(** An entry whose address waits for nothing. *)
Lemma entry_added_ok addr self (d : ChainNode) reqs log :
  chain_ok (mkChainWorld d reqs log) → addr ∉ (entry_addr <$> cn_ids_and_addrs d) →
  chain_ok (mkChainWorld (d <| cn_ids_and_addrs ::= (.++ [(self, addr, None)]) |>) reqs log).
Proof.
  intros [H1 H2 H3 H4 H5 H6 H7] Hfresh. simpl in *. constructor; simpl; try done.
  - rewrite fmap_app. apply NoDup_app. split_and!; [done| |by apply NoDup_singleton].
    intros a Ha Heq%list_elem_of_singleton. simpl in Heq. unfold entry_addr in *. simpl in Heq. by subst a.
  - intros a Hk. rewrite fmap_app, elem_of_app. left. auto.
  - intros id a s [Hin|Hin%list_elem_of_singleton]%elem_of_app; [by eapply H5|done].
Qed.

Lemma request_ok net accept self sig addr (d d' : ChainNode) reqs log log' o :
  chain_ok (mkChainWorld d reqs log) →
  (∀ sink, accept = Some sink → (sink, sig, addr) ∈ reqs) →
  request net accept self sig addr d = (d', log', o) → chain_ok (mkChainWorld d' reqs (log ++ log')).
Proof.
  intros Hok Hreq Hr. unfold receive_mask_share in Hr.
  destruct (existsb _ _) eqn:Hex; [simplify_eq; by rewrite app_nil_r|].
  assert (addr ∉ (entry_addr <$> cn_ids_and_addrs d)) as Hfresh.
  { intros (e & He & Hin)%list_elem_of_fmap. apply not_true_iff_false in Hex. apply Hex.
    apply existsb_exists. exists e. split; [by apply list_elem_of_In|].
    unfold entry_addr in He. rewrite (bool_decide_true (addr = e.1.2)), orb_true_r; done. }
  assert (cn_sinks d !! addr = None) as Hns.
  { apply eq_None_not_Some. intros Hs. by apply Hfresh, (ck_entry _ Hok). }
  destruct (cn_client_to_index d !! addr) as [i|] eqn:Hi.
  - destruct (sig_valid _ _ _ _ _ _ _ _) eqn:Hv; simpl in Hr; [|simplify_eq; by rewrite app_nil_r].
    pose proof (ck_index _ Hok _ _ Hi) as Hix. simpl in Hix.
    apply (authenticated_ok addr i sig) in Hok; [|done|intros k; by rewrite Hns|done].
    set (d1 := d <| cn_authenticated ::= _ |>) in *.
    assert (∀ sink, accept = Some sink → proved d1 reqs sink addr) as Hp.
    { intros sink Ha. exists sig, i. split_and!; [by apply Hreq|done|done]. }
    destruct (cn_mask_shares d !! i) as [share|] eqn:Hm.
    + destruct (serialize share) as [b|] eqn:Hb; [|simplify_eq; by rewrite app_nil_r].
      destruct accept as [sink|]; [|simplify_eq; by rewrite app_nil_r].
      destruct (send_ok net sink 0); simplify_eq.
      * apply (entry_added_ok addr self) in Hok; [|done].
        destruct Hok as [H1 H2 H3 H4 H5 H6 H7]. constructor; simpl in *; try done.
        intros x [Hin| ->%list_elem_of_singleton]%elem_of_app; [by apply H7|].
        exists addr, i, share. split_and!; [done..|by apply Hp].
      * destruct Hok as [H1 H2 H3 H4 H5 H6 H7]. constructor; simpl in *; try done.
        intros x [Hin| ->%list_elem_of_singleton]%elem_of_app; [by apply H7|].
        exists addr, i, share. split_and!; [done..|by apply Hp].
    + unfold keep_sink in Hr. destruct accept as [sink|]; simplify_eq; rewrite app_nil_r; [|done].
      apply (sink_kept_ok addr sink self None sig); [done|done|done|by apply Hreq|]. intros _. by apply Hp.
  - unfold keep_sink in Hr. destruct accept as [sink|]; simplify_eq; rewrite app_nil_r; [|done].
    apply (sink_kept_ok addr sink self (Some sig) sig); [done|done|by intros ? [=]|by apply Hreq|].
    intros Ha%(ck_auth _ Hok). simpl in Ha. rewrite Hi in Ha. by destruct Ha.
Qed.

Lemma chain_step_ok w w' : chain_ok w → chain_step w w' → chain_ok w'.
Proof.
  destruct w as [d reqs log]. intros Hok Hstep. destruct Hstep; simpl in *.
  - by eapply reserve_ok.
  - by eapply add_share_ok.
  - eapply request_ok; [by apply requests_mono| |done].
    intros k [= <-]. apply elem_of_app. right. by left.
  - eapply request_ok; [exact Hok| |done]. intros k [=].
Qed.

Lemma chain_reachable_ok base_nonce w : rtc chain_step (chain_initial base_nonce) w → chain_ok w.
Proof.
  assert (chain_ok (chain_initial base_nonce)) as Hinit.
  2: { intros Hr. induction Hr; eauto using chain_step_ok. }
  constructor; simpl.
  - intros a Ha. by apply elem_of_empty in Ha.
  - intros a j. by rewrite lookup_empty.
  - constructor.
  - intros a [k Hk]. by rewrite lookup_empty in Hk.
  - intros id a s Hin. by apply elem_of_nil in Hin.
  - intros a k. by rewrite lookup_empty.
  - intros x Hin. by apply elem_of_nil in Hin.
Qed.

(** No call changes the node's nonce. *)
Lemma chain_step_nonce w w' : chain_step w w' → cn_base_nonce (cw_node w') = cn_base_nonce (cw_node w).
Proof.
  destruct 1 as [net addr i d log r Hr|net i share d log r Hr|net sink self sig addr d log o Hr
    |net self sig addr d log o Hr]; simpl;
    unfold add_reserved_index, add_mask_share, receive_mask_share, keep_sink in Hr;
    repeat match type of Hr with
    | context [match ?x with _ => _ end] => destruct x; try discriminate Hr
    | context [let '(_, _) := ?x in _] => destruct x
    end; injection Hr as <- <- <-; reflexivity.
Qed.

Lemma chain_reachable_nonce base_nonce w :
  rtc chain_step (chain_initial base_nonce) w → cn_base_nonce (cw_node w) = base_nonce.
Proof.
  assert (∀ w0 w1, rtc chain_step w0 w1 → cn_base_nonce (cw_node w1) = cn_base_nonce (cw_node w0)) as H.
  { induction 1 as [|w0 w1 w2 Hs _ IH]; [done|]. by rewrite IH, (chain_step_nonce _ _ Hs). }
  apply H.
Qed.

(** ** One client's three calls *)

(** What a node is told about a client, in the order the calls come in. *)
Inductive ChainCall : Type :=
  | ReserveCall (addr : Address) (i : u64)
  | ShareCall (i : u64) (share : Share)
  | RequestCall (sink : SubscriptionSink) (self sig : bytes) (addr : Address).

(** The state after the calls, what they sent, and whether all of them succeeded. *)
Fixpoint run_calls (net : Net) (calls : list ChainCall) (d : ChainNode)
    : ChainNode * list (SubscriptionSink * bytes) * bool :=
  match calls with
  | [] => (d, [], true)
  | call :: calls =>
      let '(d, log, good) :=
        match call with
        | ReserveCall addr i => let '(d, log, r) := reserve net addr i d in (d, log, is_ok r)
        | ShareCall i share => let '(d, log, r) := add_share net i share d in (d, log, is_ok r)
        | RequestCall sink self sig addr =>
            let '(d, log, o) := request net (Some sink) self sig addr d in
            (d, log, match o with ChainSubscribed => true | _ => false end)
        end in
      let '(d', log', good') := run_calls net calls d in (d', log ++ log', good && good')
  end.

Lemma run_calls_steps net calls w d log good :
  run_calls net calls (cw_node w) = (d, log, good) →
  ∃ w', rtc chain_step w w' ∧ cw_node w' = d ∧ cw_log w' = cw_log w ++ log.
Proof.
  revert w log good. induction calls as [|call calls IH]; intros w log good; simpl.
  { intros [= <- <- <-]. exists w. by rewrite app_nil_r. }
  assert (∀ w1 log1 good1, chain_step w w1 → cw_log w1 = cw_log w ++ log1 →
    (let '(d', log', good') := run_calls net calls (cw_node w1) in (d', log1 ++ log', good1 && good')) =
      (d, log, good) →
    ∃ w', rtc chain_step w w' ∧ cw_node w' = d ∧ cw_log w' = cw_log w ++ log) as Hstep.
  { intros w1 log1 good1 Hs Hl Hrun. destruct (run_calls net calls (cw_node w1)) as [[d2 l2] g2] eqn:H2.
    injection Hrun as -> <- _. destruct (IH w1 l2 g2 H2) as (w' & Hr & Hd & Hl').
    exists w'. split_and!; [by eapply rtc_l|done|]. by rewrite Hl', Hl, app_assoc. }
  destruct call as [addr i|i share|sink self sig addr].
  - destruct (reserve net addr i (cw_node w)) as [[d1 l1] r1] eqn:H1.
    eapply (Hstep (mkChainWorld d1 _ _)); [by eapply cs_reserve|done].
  - destruct (add_share net i share (cw_node w)) as [[d1 l1] r1] eqn:H1.
    eapply (Hstep (mkChainWorld d1 _ _)); [by eapply cs_share|done].
  - destruct (request net (Some sink) self sig addr (cw_node w)) as [[d1 l1] o1] eqn:H1.
    eapply (Hstep (mkChainWorld d1 _ _)); [by eapply cs_request|done].
Qed.

(** Nothing is known yet about the client and the index. *)
Record unseen (d : ChainNode) (self : bytes) (addr : Address) (i : u64) : Prop := {
  us_index : cn_index_to_client d !! i = None;
  us_client : cn_client_to_index d !! addr = None;
  us_share : cn_mask_shares d !! i = None;
  us_entries : ∀ e, e ∈ cn_ids_and_addrs d → e.1.1 ≠ self ∧ entry_addr e ≠ addr }.

Lemma unseen_entries d self addr i :
  unseen d self addr i →
  existsb (fun e : bytes * Address * option bytes =>
    bool_decide (self = e.1.1) || bool_decide (addr = e.1.2)) (cn_ids_and_addrs d) = false ∧
  ∀ s l, take_sig addr (cn_ids_and_addrs d ++ (self, addr, s) :: l) =
    Some (self, s, cn_ids_and_addrs d ++ (self, addr, None) :: l).
Proof.
  intros [_ _ _ He]. generalize dependent (cn_ids_and_addrs d). intros es He.
  induction es as [|[[id a] s] es IH]; simpl.
  { split; [done|]. intros s l. by rewrite bool_decide_true. }
  destruct (He (id, a, s)) as [H1 H2]; [by left|]. unfold entry_addr in H2. simpl in *.
  destruct IH as [-> Ht]; [intros e Hin; apply He; by right|].
  rewrite !bool_decide_false by congruence. split; [done|]. intros s0 l. by rewrite Ht.
Qed.

Section three_calls.
Context (net : Net) (w : ChainWorld) (base_nonce : u64) (self sig : bytes) (addr : Address) (i : u64).
Context (sink : SubscriptionSink) (share : Share) (b : bytes).
Context (Hreach : rtc chain_step (chain_initial base_nonce) w) (Hnew : unseen (cw_node w) self addr i).
Context (Hsig : valid base_nonce i addr sig = true) (Hb : serialize share = Some b).
Context (Hnet : send_ok net sink 0 = true).

Abbreviation delivers calls :=
  (∃ d, run_calls net calls (cw_node w) = (d, [(sink, b)], true) ∧
     cn_ids_and_addrs d = cn_ids_and_addrs (cw_node w) ++ [(self, addr, None)] ∧
     addr ∈ cn_authenticated d).

Lemma not_authenticated : addr ∉ cn_authenticated (cw_node w).
Proof.
  intros Ha%(ck_auth _ (chain_reachable_ok _ _ Hreach)). rewrite (us_client _ _ _ _ Hnew) in Ha.
  by destruct Ha.
Qed.

(** Evaluates the next call with what is known about the state. *)
Ltac run_calls_with :=
  repeat (simpl; first
    [ rewrite lookup_insert_eq
    | match goal with H : ?x = _ |- context [?x] => rewrite H end
    | match goal with H : ∀ s l, take_sig _ _ = _ |- _ => rewrite H end
    | rewrite bool_decide_false by set_solver
    | rewrite bool_decide_true by set_solver ]).

Lemma delivered_once_cases calls :
  calls ∈ permutations [ReserveCall addr i; ShareCall i share; RequestCall sink self sig addr] →
  delivers calls.
Proof.
  pose proof (unseen_entries _ _ _ _ Hnew) as [Hex Ht]. destruct Hnew as [Hi Hc Hm He].
  pose proof (chain_reachable_nonce _ _ Hreach) as Hn. pose proof not_authenticated as Hauth.
  assert (take_sig addr (cn_ids_and_addrs (cw_node w)) = None) as Hno.
  { apply take_sig_None. intros (e & Hae & Hin)%list_elem_of_fmap. by destruct (He e Hin). }
  clear Hreach Hnew He. destruct w as [d reqs log]. simpl in *.
  intros Hin. repeat (apply elem_of_cons in Hin as [->|Hin]); [..|by apply elem_of_nil in Hin];
    unfold run_calls, add_reserved_index, add_mask_share, receive_mask_share, send_kept_share, keep_sink;
    run_calls_with; (eexists; split_and!; [reflexivity|reflexivity|simpl; set_solver]).
Qed.
End three_calls.

(** ** Claims *)

(** C29: whatever the order of reservations, shares and requests, a node sends the
    share of an index only into a subscription that was opened with a signature
    which the address holding the index made for an index it reserved. *)
Theorem chain_share_requires_signature base_nonce w sink b
    (Hreach : rtc chain_step (chain_initial base_nonce) w) (Hsent : (sink, b) ∈ cw_log w) :
  ∃ addr i share sig j,
    cn_index_to_client (cw_node w) !! i = Some addr ∧ cn_mask_shares (cw_node w) !! i = Some share ∧
    serialize share = Some b ∧ (sink, sig, addr) ∈ cw_requests w ∧
    cn_index_to_client (cw_node w) !! j = Some addr ∧ valid base_nonce j addr sig = true.
Proof.
  destruct (ck_log _ (chain_reachable_ok _ _ Hreach) _ Hsent) as (addr & i & share & Hi & Hm & Hb & Hp).
  destruct Hp as (sig & j & Hr & Hj & Hv). rewrite (chain_reachable_nonce _ _ Hreach) in Hv.
  by exists addr, i, share, sig, j.
Qed.

(** Once a node knows a client's reservation, its share and its correctly signed
    request, in whatever order it learns them, it has sent the client the share
    exactly once and lists the pair of identity and address as authenticated. *)
Theorem chain_share_delivered_once net w base_nonce self sig addr i sink share b calls
    (Hreach : rtc chain_step (chain_initial base_nonce) w) (Hnew : unseen (cw_node w) self addr i)
    (Hsig : valid base_nonce i addr sig = true) (Hb : serialize share = Some b)
    (Hnet : send_ok net sink 0 = true)
    (Hcalls : calls ≡ₚ [ReserveCall addr i; ShareCall i share; RequestCall sink self sig addr]) :
  ∃ d, run_calls net calls (cw_node w) = (d, [(sink, b)], true) ∧
    (self, addr) ∈ ids_and_addrs d ∧ addr ∈ cn_authenticated d.
Proof.
  symmetry in Hcalls. apply permutations_Permutation in Hcalls.
  destruct (delivered_once_cases net w base_nonce self sig addr i sink share b Hreach Hnew Hsig Hb Hnet
    calls Hcalls) as (d & Hrun & He & Ha).
  exists d. split_and!; [done| |done]. unfold ids_and_addrs. rewrite He, filter_app, fmap_app.
  apply elem_of_app. right. by left.
Qed.

(** When the signature that waited for a reservation turns out to be wrong, the
    call reports the failure and sends nothing; the address stays unauthenticated
    for good, since every later request for it is rejected and every later
    reservation of it panics, and yet its identity is listed as authenticated. *)
Theorem failed_authentication_is_listed net base_nonce w id addr sig i
    (Hreach : rtc chain_step (chain_initial base_nonce) w)
    (Hpending : (id, addr, Some sig) ∈ cn_ids_and_addrs (cw_node w))
    (Hfree : cn_index_to_client (cw_node w) !! i = None)
    (Hwrong : valid base_nonce i addr sig = false) :
  ∃ d, reserve net addr i (cw_node w) = (d, [], Err (AuthenticationFailed id)) ∧
    cn_authenticated d = cn_authenticated (cw_node w) ∧ (id, addr) ∈ ids_and_addrs d ∧
    (∀ net' accept self sig', request net' accept self sig' addr d = (d, [], ChainRejected)) ∧
    (∀ net' j, ∃ d', reserve net' addr j d = (d', [], Panic)).
Proof.
  pose proof (chain_reachable_ok _ _ Hreach) as Hok.
  destruct (take_sig addr (cn_ids_and_addrs (cw_node w))) as [[[id' s] l']|] eqn:Ht.
  2: { apply take_sig_None in Ht. destruct Ht. apply list_elem_of_fmap. by exists (id, addr, Some sig). }
  destruct (take_sig_Some _ _ _ _ _ Ht) as (l1 & l2 & Hl & Hl').
  pose proof (ck_unique _ Hok) as Hu.
  assert (id' = id ∧ s = Some sig) as [-> ->].
  { rewrite Hl in Hpending, Hu. rewrite fmap_app, fmap_cons in Hu.
    apply NoDup_app in Hu as (_ & Hd & [Hn _]%NoDup_cons).
    assert (∀ l : list (bytes * Address * option bytes),
      (id, addr, Some sig) ∈ l → addr ∈ (entry_addr <$> l)) as Hin.
    { intros l H. apply list_elem_of_fmap. by exists (id, addr, Some sig). }
    apply elem_of_app in Hpending as [H|[H|H]%elem_of_cons]; [|by simplify_eq|].
    - exfalso. apply (Hd addr); [by apply Hin|by left].
    - exfalso. by apply Hn, Hin. }
  eexists. split.
  { unfold add_reserved_index. rewrite Hfree. simpl. rewrite Ht.
    rewrite (chain_reachable_nonce _ _ Hreach). simpl. rewrite Hwrong. reflexivity. }
  simpl. rewrite Hl'. split_and!.
  - done.
  - unfold ids_and_addrs. simpl. rewrite filter_app, fmap_app. apply elem_of_app. right. by left.
  - intros net' accept self sig'. unfold receive_mask_share. simpl.
    rewrite existsb_app. simpl. rewrite (bool_decide_true (addr = addr)) by done.
    by rewrite !orb_true_r.
  - intros net' j. unfold add_reserved_index. simpl.
    destruct (is_some _); [by eexists|].
    rewrite <-Hl', (take_sig_again _ _ _ _ _ Ht).
    by eexists.
Qed.
End node.

(** ** Witnesses *)

Lemma triple_eta {A B C} (x : A * B * C) : x = (x.1.1, x.1.2, x.2).
Proof. by destruct x as [[? ?] ?]. Qed.

(** A toy scheme: a signature is a byte of the address and the byte of the nonce it
    was made for; a share is a byte. *)
Definition toy_abi_encode (x : u64) : bytes := to_le_bytes 1 x.
Definition toy_keccak256 (l : bytes) : vec byte 32 := vreplicate 32 (default Byte.x00 (head l)).
Definition toy_recover (sig : bytes) (h : vec byte 32) : option Address :=
  match sig with
  | [a; x] => if bool_decide (h = vreplicate 32 x) then Some (vreplicate 20 a) else None
  | _ => None
  end.
Definition toy_serialize (b : byte) : option bytes := Some [b].
Abbreviation toy_addr := (vreplicate 20 Byte.x0a).
Abbreviation toy_step := (chain_step toy_serialize Some toy_abi_encode toy_keccak256 toy_recover).

Abbreviation toy_init := (chain_initial (Share := byte) 5).
Abbreviation toy_calls :=
  [RequestCall 1%positive [Byte.x01] [Byte.x0a; Byte.x08] toy_addr; ShareCall 3%N Byte.x42;
   ReserveCall toy_addr 3%N].

Lemma toy_unseen : unseen (cw_node toy_init) [Byte.x01] toy_addr 3.
Proof. constructor; try reflexivity. intros e He. by apply elem_of_nil in He. Qed.

Lemma chain_share_delivered_once_witness :
  ∃ d, run_calls toy_serialize Some toy_abi_encode toy_keccak256 toy_recover all_up toy_calls
    (new_chain_node 5) = (d, [(1%positive, [Byte.x42])], true).
Proof.
  destruct (chain_share_delivered_once toy_serialize Some toy_abi_encode toy_keccak256 toy_recover
    all_up toy_init 5 [Byte.x01] [Byte.x0a; Byte.x08] toy_addr 3 1%positive Byte.x42
    [Byte.x42] toy_calls) as (d & Hd & _).
  - apply rtc_refl.
  - exact toy_unseen.
  - by vm_compute.
  - reflexivity.
  - reflexivity.
  - solve_Permutation.
  - exists d. exact Hd.
Defined.

Lemma chain_share_requires_signature_witness :
  ∃ (addr : Address) (sig : bytes) j,
    sig_valid Some toy_abi_encode toy_keccak256 toy_recover 5 j addr sig = true.
Proof.
  destruct (delivered_once_cases toy_serialize Some toy_abi_encode toy_keccak256 toy_recover
    all_up toy_init 5 [Byte.x01] [Byte.x0a; Byte.x08] toy_addr 3 1%positive Byte.x42
    [Byte.x42] (rtc_refl _ _) toy_unseen ltac:(by vm_compute) eq_refl eq_refl toy_calls) as (d & Hd & _).
  { apply permutations_Permutation. solve_Permutation. }
  destruct (run_calls_steps _ _ _ _ _ _ _ _ _ _ _ Hd) as (w & Hw & _ & Hlog).
  destruct (chain_share_requires_signature toy_serialize Some toy_abi_encode toy_keccak256 toy_recover 5
    w 1%positive [Byte.x42] Hw) as (addr & i & share & sig & j & H).
  - rewrite Hlog. by left.
  - exists addr, sig, j. apply H.
Defined.

Abbreviation toy_request sig :=
  (receive_mask_share toy_serialize Some toy_abi_encode toy_keccak256 toy_recover all_up (Some 1%positive)
     [Byte.x01] sig toy_addr (cw_node toy_init)).
Abbreviation toy_requested sig := (mkChainWorld (toy_request sig).1.1
  ([] ++ [(1%positive, sig, toy_addr)]) ([] ++ (toy_request sig).1.2)).

Lemma failed_authentication_is_listed_witness :
  ∃ d : NodeRPCServerShared byte, ([Byte.x01], toy_addr) ∈ ids_and_addrs d.
Proof.
  destruct (failed_authentication_is_listed toy_serialize Some toy_abi_encode toy_keccak256 toy_recover
    all_up 5 (toy_requested [Byte.x0a; Byte.x09]) [Byte.x01] toy_addr [Byte.x0a; Byte.x09] 3)
    as (d & _ & _ & Hl & _).
  - apply rtc_once. eapply (cs_request _ _ _ _ _ toy_init all_up 1%positive [Byte.x01] _ toy_addr).
    exact (triple_eta _).
  - simpl. by left.
  - reflexivity.
  - by vm_compute.
  - exists d. exact Hl.
Defined.
