(* ===== verification/ChainRuns.v ===== *)
(** A client at a loaded node of the on-chain backend: the client's reservation, share
    and request among any calls of others, in any order
    (src/crates/on-chain/src/lib.rs). *)
From S2P Require Import Prelude Shared Execution Samples Client OnChain OnChainFacts.

Section runs.
Context {Share Sig : Type} (serialize : Share → option bytes).
Context (from_raw : bytes → option Sig) (abi_encode : u64 → bytes) (keccak256 : bytes → vec byte 32).
Context (recover_address_from_msg : Sig → vec byte 32 → option Address).

Abbreviation ChainNode := (NodeRPCServerShared Share).
Abbreviation ChainSend := (SubscriptionSink * bytes)%type.
Abbreviation valid := (sig_valid from_raw abi_encode keccak256 recover_address_from_msg).
Abbreviation IdEntry := (bytes * Address * option bytes)%type.

(** The calls of a node; a request is accepted by its client or not. *)
Inductive NodeCall : Type :=
  | ReserveIndex (addr : Address) (i : u64)
  | AddShare (i : u64) (share : Share)
  | RequestShare (accept : option SubscriptionSink) (self sig : bytes) (addr : Address).

Definition node_call (net : Net) (c : NodeCall) (d : ChainNode) : ChainNode * list ChainSend :=
  match c with
  | ReserveIndex addr i =>
      (add_reserved_index serialize from_raw abi_encode keccak256 recover_address_from_msg net addr i d).1
  | AddShare i share => (add_mask_share serialize net i share d).1
  | RequestShare accept self sig addr =>
      (receive_mask_share serialize from_raw abi_encode keccak256 recover_address_from_msg net accept self sig addr d).1
  end.

(** The calls in the order in which they get the node's lock, each with the network of
    its time: the state afterwards and everything sent. *)
Fixpoint node_calls (calls : list (Net * NodeCall)) (d : ChainNode) : ChainNode * list ChainSend :=
  match calls with
  | [] => (d, [])
  | (net, c) :: calls =>
      let '(d, log) := node_call net c d in
      let '(d, log') := node_calls calls d in (d, log ++ log')
  end.

(** Histories are the runs of the node. *)
Abbreviation steps := (chain_step serialize from_raw abi_encode keccak256 recover_address_from_msg).

Lemma node_call_step net c w :
  ∃ w', steps w w' ∧ cw_node w' = (node_call net c (cw_node w)).1 ∧
    cw_log w' = cw_log w ++ (node_call net c (cw_node w)).2.
Proof.
  destruct c as [addr i|i share|accept self sig addr]; simpl.
  - destruct (add_reserved_index _ _ _ _ _ _ _ _ _) as [[d log] r] eqn:Hr.
    exists (mkChainWorld d (cw_requests w) (cw_log w ++ log)). split; [by eapply cs_reserve|done].
  - destruct (add_mask_share _ _ _ _ _) as [[d log] r] eqn:Hr.
    exists (mkChainWorld d (cw_requests w) (cw_log w ++ log)). split; [by eapply cs_share|done].
  - destruct (receive_mask_share _ _ _ _ _ _ _ _ _ _ _) as [[d log] o] eqn:Hr. destruct accept as [sink|].
    + exists (mkChainWorld d (cw_requests w ++ [(sink, sig, addr)]) (cw_log w ++ log)).
      split; [by eapply cs_request|done].
    + exists (mkChainWorld d (cw_requests w) (cw_log w ++ log)). split; [by eapply cs_abandoned|done].
Qed.

Lemma history_is_run calls w d log :
  node_calls calls (cw_node w) = (d, log) →
  ∃ w', rtc steps w w' ∧ cw_node w' = d ∧ cw_log w' = cw_log w ++ log.
Proof.
  revert w log. induction calls as [|[net c] calls IH]; intros w log; simpl.
  { intros [= <- <-]. exists w. by rewrite app_nil_r. }
  destruct (node_call_step net c w) as (w1 & Hs & Hd & Hl).
  destruct (node_call net c (cw_node w)) as [d1 log1]. simpl in *. subst d1.
  destruct (node_calls calls (cw_node w1)) as [d2 log2] eqn:Hr. intros [= <- <-].
  destruct (IH w1 log2 Hr) as (w2 & Hs2 & Hd2 & Hl2). exists w2.
  split; [by eapply rtc_l|]. split; [done|]. by rewrite Hl2, Hl, app_assoc.
Qed.

Lemma run_is_history w w' :
  rtc steps w w' → ∃ calls log, node_calls calls (cw_node w) = (cw_node w', log) ∧ cw_log w' = cw_log w ++ log.
Proof.
  induction 1 as [w|w w1 w2 Hs _ (calls & log & Hc & Hl)]; [exists [], []; by rewrite app_nil_r|].
  assert (∃ net c log1, node_call net c (cw_node w) = (cw_node w1, log1) ∧ cw_log w1 = cw_log w ++ log1)
    as (net & c & log1 & H1 & Hl1).
  { destruct Hs as [net addr i d log' r Hr|net i share d log' r Hr|net sink self sig addr d log' o Hr
      |net self sig addr d log' o Hr]; exists net;
      [exists (ReserveIndex addr i)|exists (AddShare i share)|exists (RequestShare (Some sink) self sig addr)
      |exists (RequestShare None self sig addr)]; simpl; rewrite Hr; by exists log'. }
  exists ((net, c) :: calls), (log1 ++ log). simpl. rewrite H1, Hc. split; [done|]. by rewrite Hl, Hl1, app_assoc.
Qed.

(** ** One client *)

Section client.
Context (base_nonce : u64) (self sig : bytes) (addr : Address) (i : u64).
Context (sink : SubscriptionSink) (share : Share) (b : bytes).

(** The calls that concern the client: they name its address, its index, its identity
    or its subscription. *)
Definition concerns (c : NodeCall) : bool :=
  match c with
  | ReserveIndex a j => bool_decide (a = addr) || bool_decide (j = i)
  | AddShare j _ => bool_decide (j = i)
  | RequestShare accept id _ a =>
      bool_decide (id = self) || bool_decide (a = addr) || bool_decide (accept = Some sink)
  end.

Definition to_client (log : list ChainSend) : list ChainSend := filter (fun x : ChainSend => x.1 = sink) log.
Definition about_client (e : IdEntry) : Prop := e.1.1 = self ∨ e.1.2 = addr.

(** What the node knows of the client once the reservation, the share and the request
    that [r], [s] and [q] tell of have come in. *)
Record knows (r s q : bool) (d : ChainNode) : Prop := {
  kn_nonce : cn_base_nonce d = base_nonce;
  kn_index : cn_index_to_client d !! i = if r then Some addr else None;
  kn_only : ∀ j, cn_index_to_client d !! j = Some addr → j = i;
  kn_client : cn_client_to_index d !! addr = if r then Some i else None;
  kn_share : cn_mask_shares d !! i = if s then Some share else None;
  kn_auth : addr ∈ cn_authenticated d ↔ r = true ∧ q = true;
  kn_entry : filter about_client (cn_ids_and_addrs d) =
    if q then [(self, addr, if r then None else Some sig)] else [];
  kn_sink : q = true → r && s = false → cn_sinks d !! addr = Some sink;
  kn_no_sink : q = false → cn_sinks d !! addr = None;
  kn_alone : ∀ a, cn_sinks d !! a = Some sink → a = addr }.

Lemma new_node_knows : knows false false false (new_chain_node base_nonce).
Proof.
  constructor; try done. simpl. split; [by intros ?%elem_of_empty|by intros []].
Qed.

(** Reading the list of entries. *)
Lemma entries_none l : filter about_client l = [] → take_sig addr l = None ∧
  existsb (fun e : IdEntry => bool_decide (self = e.1.1) || bool_decide (addr = e.1.2)) l = false.
Proof.
  induction l as [|[[id a] s] l IH]; [done|]. rewrite filter_cons. case_decide as Hc; [done|].
  intros [H1 H2]%IH. unfold about_client in Hc. simpl in *.
  rewrite !bool_decide_false by naive_solver. by rewrite H1.
Qed.

Lemma entries_one l p : filter about_client l = [(self, addr, p)] →
  ∃ l', take_sig addr l = Some (self, p, l') ∧ filter about_client l' = [(self, addr, None)].
Proof.
  induction l as [|[[id a] s] l IH]; [done|]. rewrite filter_cons. case_decide as Hc.
  - intros [= -> -> -> Hl]. simpl. rewrite bool_decide_true by done. eexists. split; [done|].
    rewrite filter_cons, decide_True by done. by rewrite Hl.
  - intros (l' & Ht & Hf)%IH. unfold about_client in Hc. simpl in *.
    rewrite bool_decide_false by naive_solver. rewrite Ht. simpl. eexists. split; [done|].
    rewrite filter_cons, decide_False; [done|]. unfold about_client. simpl. done.
Qed.

(** Another address's entry is none of the client's. *)
Lemma entries_other l a id s l' p q :
  a ≠ addr → take_sig a l = Some (id, s, l') →
  filter about_client l = (if q : bool then [(self, addr, p)] else []) → filter about_client l' = filter about_client l.
Proof.
  intros Ha (l1 & l2 & -> & ->)%take_sig_Some. rewrite !filter_app, !filter_cons. intros Hf.
  destruct (decide (about_client (id, a, s))) as [Hc|Hc].
  - exfalso. assert ((id, a, s) ∈ (if q then [(self, addr, p)] else [])) as Hin.
    { rewrite <-Hf. apply elem_of_app. right. left. }
    destruct q; [apply list_elem_of_singleton in Hin; congruence|by apply elem_of_nil in Hin].
  - rewrite decide_False; [done|]. exact Hc.
Qed.

Lemma to_client_none log : (∀ x, x ∈ log → x.1 ≠ sink) → to_client log = [].
Proof.
  intros Hx. unfold to_client. induction log as [|x log IH]; [done|].
  rewrite filter_cons, decide_False by (apply Hx; left). apply IH. intros y Hy. apply Hx. by right.
Qed.

(** A kept share goes to the sink of its own address. *)
Lemma kept_share_elsewhere net a j (d : ChainNode) log r :
  (∀ k, cn_sinks d !! k = Some sink → k = addr) → a ≠ addr →
  send_kept_share serialize net a j d = (log, r) → to_client log = [].
Proof.
  intros Halone Ha Hs. apply to_client_none. intros x Hx Hk.
  destruct (send_kept_share_cases _ _ _ _ _ _ _ Hs x Hx) as (sh & _ & Hsink & _). rewrite Hk in Hsink.
  by apply Ha, Halone.
Qed.

(** ** Calls that do not concern the client *)

Lemma other_reserve r s q net a j (d d' : ChainNode) log :
  a ≠ addr → j ≠ i → knows r s q d → node_call net (ReserveIndex a j) d = (d', log) →
  knows r s q d' ∧ to_client log = [].
Proof.
  intros Ha Hj [K1 K2 K3 K4 K5 K6 K7 K8 K9 K10]. simpl. unfold add_reserved_index.
  destruct (is_some (cn_index_to_client d !! j)); [by intros [= <- <-]|].
  assert (∀ j', <[j := a]> (cn_index_to_client d) !! j' = Some addr → j' = i) as Honly.
  { intros j'. rewrite lookup_insert. case_decide; [congruence|apply K3]. }
  assert (knows r s q (d <| cn_index_to_client ::= <[j := a]> |> <| cn_client_to_index ::= <[a := j]> |>)) as Hk.
  { constructor; simpl; try done; by rewrite lookup_insert_ne. }
  simpl. destruct (take_sig a (cn_ids_and_addrs d)) as [[[id sg] l']|] eqn:Ht; [|by intros [= <- <-]].
  destruct sg as [sg|]; [|by intros [= <- <-]].
  pose proof (entries_other _ _ _ _ _ _ _ Ha Ht K7) as Hf.
  simpl. destruct (valid (cn_base_nonce d) j a sg); simpl.
  - destruct (send_kept_share _ _ _ _ _) as [log1 r1] eqn:Hs. simpl. intros [= <- <-].
    split; [|by eapply kept_share_elsewhere; [|exact Ha|exact Hs]].
    constructor; simpl; try done; rewrite ?lookup_insert_ne by done; try done; [|by rewrite Hf].
    rewrite elem_of_union, elem_of_singleton, <-K6. naive_solver.
  - intros [= <- <-]. split; [|done]. constructor; simpl; try done; rewrite ?lookup_insert_ne by done; try done.
    by rewrite Hf.
Qed.

Lemma other_share r s q net j sh (d d' : ChainNode) log :
  j ≠ i → knows r s q d → node_call net (AddShare j sh) d = (d', log) →
  knows r s q d' ∧ to_client log = [].
Proof.
  intros Hj [K1 K2 K3 K4 K5 K6 K7 K8 K9 K10]. simpl. unfold add_mask_share.
  destruct (is_some (cn_mask_shares d !! j)); [by intros [= <- <-]|].
  assert (knows r s q (d <| cn_mask_shares ::= <[j := sh]> |>)) as Hk.
  { constructor; simpl; try done. by rewrite lookup_insert_ne. }
  simpl. destruct (cn_index_to_client d !! j) as [a|] eqn:Ha; [|by intros [= <- <-]].
  case_bool_decide; [|by intros [= <- <-]].
  destruct (send_kept_share _ _ _ _ _) as [log1 r1] eqn:Hs. simpl. intros [= <- <-]. split; [done|].
  eapply (kept_share_elsewhere _ a); [|intros ->; by apply Hj, K3|exact Hs]. done.
Qed.

Lemma other_request r s q net accept id sg a (d d' : ChainNode) log :
  id ≠ self → a ≠ addr → accept ≠ Some sink → knows r s q d →
  node_call net (RequestShare accept id sg a) d = (d', log) →
  knows r s q d' ∧ to_client log = [].
Proof.
  intros Hid Ha Hacc [K1 K2 K3 K4 K5 K6 K7 K8 K9 K10]. simpl. unfold receive_mask_share.
  destruct (existsb _ _); [by intros [= <- <-]|].
  assert (∀ p, filter about_client (cn_ids_and_addrs d ++ [(id, a, p)]) = filter about_client (cn_ids_and_addrs d)) as Hf.
  { intros p. rewrite filter_app, filter_cons, decide_False; [by rewrite app_nil_r|]. unfold about_client. simpl. naive_solver. }
  assert (∀ dd p d1 log1 o, knows r s q dd → cn_ids_and_addrs dd = cn_ids_and_addrs d →
    keep_sink accept id a p dd = (d1, log1, o) → knows r s q d1 ∧ to_client log1 = []) as Hkeep.
  { intros dd p d1 log1 o [L1 L2 L3 L4 L5 L6 L7 L8 L9 L10] He. unfold keep_sink.
    destruct accept as [k|]; intros [= <- <- _]; [|by split]. split; [|done].
    constructor; simpl; try done; rewrite ?lookup_insert_ne by done; try done; [by rewrite He, Hf, <-He|].
    intros a'. rewrite lookup_insert. case_decide; [|apply L10]. intros [= ->]. by destruct Hacc. }
  destruct (cn_client_to_index d !! a) as [j|].
  2: { destruct (keep_sink _ _ _ _ _) as [[d1 log1] o] eqn:Hs. simpl. intros [= <- <-]. by eapply Hkeep. }
  destruct (negb _); [by intros [= <- <-]|].
  assert (knows r s q (d <| cn_authenticated ::= ({[a]} ∪.) |>)) as Hk.
  { constructor; simpl; try done. rewrite elem_of_union, elem_of_singleton, <-K6. naive_solver. }
  simpl. destruct (cn_mask_shares d !! j) as [sh|].
  2: { destruct (keep_sink _ _ _ _ _) as [[d1 log1] o] eqn:Hs. simpl. intros [= <- <-]. by eapply Hkeep. }
  destruct (serialize sh) as [bs|]; [|by intros [= <- <-]]. destruct accept as [k|]; [|by intros [= <- <-]].
  assert (to_client [(k, bs)] = []) as Hno.
  { apply to_client_none. intros x ->%list_elem_of_singleton Hx. simpl in Hx. by subst k. }
  destruct (send_ok net k 0); intros [= <- <-]; (split; [|exact Hno]); [|done].
  destruct Hk as [L1 L2 L3 L4 L5 L6 L7 L8 L9 L10]. constructor; simpl; try done. by rewrite Hf.
Qed.

Lemma other_call r s q net c (d d' : ChainNode) log :
  concerns c = false → knows r s q d → node_call net c d = (d', log) → knows r s q d' ∧ to_client log = [].
Proof.
  unfold concerns. destruct c as [a j|j sh|accept id sg a]; intros Hc; reflect_bool.
  - by apply other_reserve.
  - by apply other_share.
  - by apply other_request.
Qed.

(** ** The client's own calls *)

Context (Hsig : valid base_nonce i addr sig = true) (Hb : serialize share = Some b).

(** What reaches the client when the last of its three calls comes in. *)
Definition answer (last : bool) : list ChainSend := if last then [(sink, b)] else [].

Lemma own_reserve s q net (d d' : ChainNode) log :
  knows false s q d → node_call net (ReserveIndex addr i) d = (d', log) →
  knows true s q d' ∧ to_client log = answer (s && q).
Proof.
  intros [K1 K2 K3 K4 K5 K6 K7 K8 K9 K10]. simpl. unfold add_reserved_index. rewrite K2. simpl.
  assert (∀ j, <[i := addr]> (cn_index_to_client d) !! j = Some addr → j = i) as Honly.
  { intros j. rewrite lookup_insert. case_decide; [done|apply K3]. }
  destruct q.
  - destruct (entries_one _ _ K7) as (l' & -> & Hf). rewrite K1, Hsig. simpl.
    specialize (K8 eq_refl). rewrite andb_false_l in K8. specialize (K8 eq_refl).
    destruct (send_kept_share _ _ _ _ _) as [log1 r1] eqn:Hs. simpl. intros [= <- <-]. split.
    + constructor; simpl; try done; rewrite ?lookup_insert_eq; try done. split; [done|set_solver].
    + unfold send_kept_share in Hs. simpl in Hs. rewrite K5, K8 in Hs. destruct s; [|by simplify_eq].
      rewrite Hb in Hs. injection Hs as <- _. unfold to_client. rewrite filter_cons. simpl. by rewrite decide_True.
  - destruct (entries_none _ K7) as [-> _]. simpl. intros [= <- <-]. rewrite andb_false_r. split; [|done].
    constructor; simpl; try done; rewrite ?lookup_insert_eq; try done. rewrite K6. naive_solver.
Qed.

Lemma own_share r q net (d d' : ChainNode) log :
  knows r false q d → node_call net (AddShare i share) d = (d', log) →
  knows r true q d' ∧ to_client log = answer (r && q).
Proof.
  intros [K1 K2 K3 K4 K5 K6 K7 K8 K9 K10]. simpl. unfold add_mask_share. rewrite K5. simpl. rewrite K2.
  assert (knows r true q (d <| cn_mask_shares ::= <[i := share]> |>)) as Hk.
  { constructor; simpl; try done; [by rewrite lookup_insert_eq|]. intros -> Hr. apply K8; [done|]. by rewrite andb_false_r. }
  destruct r; [|by intros [= <- <-]]. simpl. case_bool_decide as Hauth.
  - apply K6 in Hauth as [_ ->]. specialize (K8 eq_refl eq_refl).
    destruct (send_kept_share _ _ _ _ _) as [log1 r1] eqn:Hs. simpl. intros [= <- <-]. split; [done|].
    unfold send_kept_share in Hs. simpl in Hs. rewrite lookup_insert_eq, K8, Hb in Hs. injection Hs as <- _.
    unfold to_client. rewrite filter_cons. simpl. by rewrite decide_True.
  - intros [= <- <-]. split; [done|]. destruct q; [|done]. destruct Hauth. by apply K6.
Qed.

Lemma own_request r s net (d d' : ChainNode) log :
  send_ok net sink 0 = true →
  knows r s false d → node_call net (RequestShare (Some sink) self sig addr) d = (d', log) →
  knows r s true d' ∧ to_client log = answer (r && s).
Proof.
  intros Hnet [K1 K2 K3 K4 K5 K6 K7 K8 K9 K10]. simpl. unfold receive_mask_share.
  destruct (entries_none _ K7) as [_ ->]. rewrite K4.
  assert (∀ p, filter about_client (cn_ids_and_addrs d ++ [(self, addr, p)]) = [(self, addr, p)]) as Hf.
  { intros p. rewrite filter_app, K7, filter_cons, decide_True; [done|]. by left. }
  destruct r; simpl.
  - rewrite K1, Hsig. simpl. rewrite K5. destruct s; simpl.
    + rewrite Hb, Hnet. simpl. intros [= <- <-]. split; [|unfold to_client; rewrite filter_cons; simpl; by rewrite decide_True].
      constructor; simpl; try done; [split; [done|set_solver]].
    + intros [= <- <-]. split; [|done]. constructor; simpl; try done;
        [split; [done|set_solver]|by rewrite lookup_insert_eq|].
      intros a. rewrite lookup_insert. case_decide; [done|apply K10].
  - intros [= <- <-]. split; [|done]. constructor; simpl; try done; [|by rewrite lookup_insert_eq|].
    + rewrite K6. naive_solver.
    + intros a. rewrite lookup_insert. case_decide; [done|apply K10].
Qed.

(** ** Whole histories *)

(** The client's calls that have not come in yet. *)
Definition todo (r s q : bool) : list NodeCall :=
  (if r then [] else [ReserveIndex addr i]) ++ (if s then [] else [AddShare i share]) ++
  (if q then [] else [RequestShare (Some sink) self sig addr]).

(** The calls of a history that concern the client. *)
Definition client_calls (calls : list (Net * NodeCall)) : list NodeCall :=
  filter (fun c => concerns c = true) calls.*2.

(** The next of the client's calls takes its answer with it. *)
Lemma own_call r s q net c rest (d d' : ChainNode) log :
  send_ok net sink 0 = true → c :: rest ≡ₚ todo r s q → knows r s q d → node_call net c d = (d', log) →
  ∃ r' s' q', knows r' s' q' d' ∧ rest ≡ₚ todo r' s' q' ∧
    to_client log ++ answer (negb (r' && s' && q')) = answer true.
Proof.
  intros Hnet Hp Hk Hc. assert (c ∈ todo r s q) as Hin by (rewrite <-Hp; left).
  unfold todo in Hin. rewrite !elem_of_app in Hin. destruct Hin as [Hin|[Hin|Hin]].
  - destruct r; [by apply elem_of_nil in Hin|]. apply list_elem_of_singleton in Hin as ->.
    destruct (own_reserve _ _ _ _ _ _ Hk Hc) as [Hk' ->]. exists true, s, q. split; [done|].
    split; [by apply Permutation_cons_inv in Hp|by destruct s, q].
  - destruct s; [by apply elem_of_nil in Hin|]. apply list_elem_of_singleton in Hin as ->.
    destruct (own_share _ _ _ _ _ _ Hk Hc) as [Hk' ->]. exists r, true, q. split; [done|].
    split; [by apply Permutation_cons_app_inv in Hp|by destruct r, q].
  - destruct q; [by apply elem_of_nil in Hin|]. apply list_elem_of_singleton in Hin as ->.
    destruct (own_request _ _ _ _ _ _ Hnet Hk Hc) as [Hk' ->]. exists r, s, true. split; [done|].
    unfold todo in Hp. rewrite app_assoc in Hp. split; [|by destruct r, s].
    apply Permutation_cons_app_inv in Hp. rewrite app_nil_r in Hp. unfold todo. by rewrite app_nil_r.
Qed.

Lemma history_answers calls r s q (d d' : ChainNode) log :
  (∀ net, net ∈ calls.*1 → send_ok net sink 0 = true) → client_calls calls ≡ₚ todo r s q →
  knows r s q d → node_calls calls d = (d', log) →
  knows true true true d' ∧ to_client log = answer (negb (r && s && q)).
Proof.
  revert r s q d log. induction calls as [|[net c] calls IH]; intros r s q d log Hnet Hp Hk; simpl.
  { intros [= <- <-]. apply Permutation_nil_l in Hp. unfold todo in Hp. by destruct r, s, q. }
  destruct (node_call net c d) as [d1 log1] eqn:Hc. destruct (node_calls calls d1) as [d2 log2] eqn:Hr.
  intros [= <- <-]. unfold client_calls in Hp. rewrite fmap_cons, filter_cons in Hp.
  assert (∀ net0, net0 ∈ calls.*1 → send_ok net0 sink 0 = true) as Hnet' by (intros n0 Hn; apply Hnet; by right).
  unfold to_client. rewrite filter_app. fold (to_client log1) (to_client log2). case_decide as Hcc.
  - destruct (own_call r s q net c (client_calls calls) d d1 log1) as (r' & s' & q' & Hk1 & Hp1 & Ha); [apply Hnet; left|done..|].
    destruct (IH r' s' q' d1 log2 Hnet' Hp1 Hk1 Hr) as [Hk2 ->]. split; [done|]. rewrite Ha.
    destruct r, s, q; try done. by apply Permutation_length in Hp.
  - apply not_true_is_false in Hcc. destruct (other_call _ _ _ _ _ _ _ _ Hcc Hk Hc) as [Hk1 ->].
    by apply (IH r s q d1 log2).
Qed.
End client.
End runs.
