(* ===== verification/OnChainWaits.v ===== *)
(** What the waits of the contract's client return, and how they compare with the
    waits of the off-chain client on the same events. *)
From S2P Require Import Prelude Shared Execution Samples Client ClientFacts OnChain.

(** ** Waiting for indices *)

(** The indices of each address, in the order of the events. *)
Definition indices_of (evs : list (Address * U256)) : gmap Address (list u64) :=
  foldl (fun m e => extend_entry e.1 [e.2] m) ∅ evs.

Definition lengths_sum {A} (m : gmap Address (list A)) : N :=
  foldr N.add 0%N (vlen <$> (map_to_list m).*2).

Lemma lengths_sum_empty {A} : lengths_sum (∅ : gmap Address (list A)) = 0%N.
Proof. unfold lengths_sum. by rewrite map_to_list_empty. Qed.

Lemma foldr_add_perm (l k : list N) : l ≡ₚ k → foldr N.add 0%N l = foldr N.add 0%N k.
Proof. induction 1; simpl; lia. Qed.

Lemma lengths_sum_insert {A} (m : gmap Address (list A)) a xs :
  m !! a = None → lengths_sum (<[a := xs]> m) = (vlen xs + lengths_sum m)%N.
Proof.
  intros Hm. unfold lengths_sum.
  rewrite (foldr_add_perm _ (vlen <$> (((a, xs) :: map_to_list m).*2))); [done|].
  by rewrite (map_to_list_insert m a xs Hm).
Qed.

Lemma lengths_sum_extend {A} (m : gmap Address (list A)) a x :
  lengths_sum (extend_entry a [x] m) = (lengths_sum m + 1)%N.
Proof.
  unfold extend_entry. destruct (m !! a) as [xs|] eqn:Hm; simpl.
  - rewrite <-(insert_delete_eq m a (xs ++ [x])).
    rewrite lengths_sum_insert by apply lookup_delete_eq.
    rewrite <-(insert_id m a xs Hm) at 2. rewrite <-(insert_delete_eq m a xs).
    rewrite lengths_sum_insert by apply lookup_delete_eq.
    unfold vlen. rewrite length_app. simpl. lia.
  - rewrite lengths_sum_insert by done. unfold vlen. simpl. lia.
Qed.

Lemma total_len_lengths (m : gmap Address (list u64)) :
  (lengths_sum m < u64_modulus)%N → total_len m = lengths_sum m.
Proof. intros H. unfold total_len. rewrite u64_sum_mod. by apply N.mod_small. Qed.

(** Every event carries an index that fits a machine word. *)
Definition readable_indices (evs : list (Address * U256)) : Prop :=
  Forall (fun e => (e.2 < u64_modulus)%N) evs.

Lemma u256_to_u64_small x : (x < u64_modulus)%N → u256_to_u64 x = Some x.
Proof. intros H. unfold u256_to_u64. by rewrite (proj2 (N.ltb_lt _ _) H). Qed.

(** The loop over readable events that do not complete the count. *)
Lemma chain_wait_for_indices_loop_run n m evs rest :
  readable_indices evs → (lengths_sum m + N.of_nat (length evs) < u64_modulus)%N →
  (∀ k, 0 < k <= length evs → (lengths_sum m + N.of_nat k)%N ≠ n) →
  chain_wait_for_indices_loop n m ((LogEvent <$> evs) ++ rest) =
  chain_wait_for_indices_loop n (foldl (fun m e => extend_entry e.1 [e.2] m) m evs) rest.
Proof.
  intros Hr. revert m. induction Hr as [|[a x] evs Hx Hr IH]; intros m Hw Hn; [done|].
  simpl in *. rewrite u256_to_u64_small by done.
  rewrite total_len_lengths by (rewrite lengths_sum_extend; lia). rewrite lengths_sum_extend.
  rewrite (proj2 (N.eqb_neq _ _)) by (apply (Hn 1); lia).
  apply IH; rewrite lengths_sum_extend; [lia|]. intros k Hk. specialize (Hn (S k)). lia.
Qed.

(** The wait ends at the [n]-th event. *)
Lemma chain_wait_for_indices_enough n evs rest :
  readable_indices evs → (N.of_nat (length evs) < u64_modulus)%N →
  (0 < n <= N.of_nat (length evs))%N →
  chain_wait_for_indices n (Some ((LogEvent <$> evs) ++ rest)) =
    Some (Ok (indices_of (take (N.to_nat n) evs))).
Proof.
  intros Hread Hwidth. unfold chain_wait_for_indices, indices_of.
  intros Hn. destruct (N.to_nat n) as [|k] eqn:Hk; [lia|].
  destruct (lookup_lt_is_Some_2 evs k) as [[a x] Hax]; [lia|].
  rewrite (take_S_r _ _ _ Hax), foldl_snoc. simpl.
  rewrite <-(take_drop_middle _ _ _ Hax) at 1. rewrite fmap_app, fmap_cons, <-app_assoc. simpl.
  unfold readable_indices in Hread. rewrite <-(take_drop_middle _ _ _ Hax) in Hread.
  apply Forall_app in Hread as [Hr [Hx _]%Forall_cons]. simpl in Hx.
  assert (length (take k evs) = k) as Hlen by (rewrite length_take; lia).
  assert (lengths_sum (foldl (fun m e => extend_entry e.1 [e.2] m) ∅ (take k evs)) =
    N.of_nat k) as Hsum.
  { rewrite <-Hlen at 2. clear. generalize (take k evs). intros l.
    assert (∀ m, lengths_sum (foldl (fun m (e : Address * U256) => extend_entry e.1 [e.2] m) m l) =
      (lengths_sum m + N.of_nat (length l))%N) as H.
    { induction l as [|e l IH]; intros m; simpl; [lia|]. rewrite IH, lengths_sum_extend. lia. }
    by rewrite H, lengths_sum_empty. }
  rewrite chain_wait_for_indices_loop_run; [|done|rewrite lengths_sum_empty; lia|intros j Hj; rewrite lengths_sum_empty; lia].
  simpl. rewrite u256_to_u64_small by done.
  rewrite total_len_lengths; rewrite lengths_sum_extend, Hsum; [|lia].
  by rewrite (proj2 (N.eqb_eq _ _)) by lia.
Qed.

(** C35: over readable events a party that waits for [n] indices on the contract
    returns exactly at the [n]-th event, with every address's indices in the order
    of the events.  With fewer events, or when it waits for none, it keeps waiting
    however many events come, and when the stream ends it returns what it has as
    if it were complete. *)
Theorem chain_wait_for_indices_exact n evs rest
    (Hread : readable_indices evs) (Hwidth : (N.of_nat (length evs) < u64_modulus)%N) :
  ((0 < n <= N.of_nat (length evs))%N →
     chain_wait_for_indices n (Some ((LogEvent <$> evs) ++ rest)) =
       Some (Ok (indices_of (take (N.to_nat n) evs)))) ∧
  (n = 0%N ∨ (N.of_nat (length evs) < n)%N →
     chain_wait_for_indices n (Some (LogEvent <$> evs)) = None ∧
     chain_wait_for_indices n (Some ((LogEvent <$> evs) ++ [LogOver])) = Some (Ok (indices_of evs))).
Proof.
  split; [|unfold chain_wait_for_indices, indices_of].
  - by apply chain_wait_for_indices_enough.
  - intros Hn. split.
    + rewrite <-(app_nil_r (LogEvent <$> evs)).
      by rewrite chain_wait_for_indices_loop_run; [|done|rewrite lengths_sum_empty; lia|intros j Hj; rewrite lengths_sum_empty; lia].
    + by rewrite chain_wait_for_indices_loop_run; [|done|rewrite lengths_sum_empty; lia|intros j Hj; rewrite lengths_sum_empty; lia].
Qed.

Abbreviation addr_a := (vreplicate 20 Byte.x0a).
Abbreviation addr_b := (vreplicate 20 Byte.x0b).

Lemma chain_wait_for_indices_exact_witness :
  chain_wait_for_indices 2 (Some (LogEvent <$> [(addr_a, 1%N); (addr_b, 0%N)])) =
    Some (Ok (indices_of [(addr_a, 1%N); (addr_b, 0%N)])) ∧
  chain_wait_for_indices 0 (Some (LogEvent <$> [(addr_a, 1%N); (addr_b, 0%N)])) = None.
Proof.
  assert (readable_indices [(addr_a, 1%N); (addr_b, 0%N)]) as Hr by (repeat constructor).
  split.
  - pose proof (proj1 (chain_wait_for_indices_exact 2 [(addr_a, 1%N); (addr_b, 0%N)] [] Hr
      ltac:(reflexivity)) ltac:(simpl; lia)) as H.
    rewrite app_nil_r in H. exact H.
  - exact (proj1 (proj2 (chain_wait_for_indices_exact 0 [(addr_a, 1%N); (addr_b, 0%N)] [] Hr
      ltac:(reflexivity)) ltac:(by left))).
Defined.

(** ** The two clients *)

#[local] Instance address_inj : Inj (=) (=) (vec_to_list : Address → ClientIdentity).
Proof. intros v w H. by apply vec_to_list_inj2. Qed.

(** A map keyed by addresses, with the addresses as byte strings. *)
Definition by_bytes {A} (m : gmap Address A) : gmap ClientIdentity A := kmap vec_to_list m.

(** The off-chain notification of the same reservation or submission. *)
Definition off_reservation (e : Address * U256) : option Event :=
  Some (ReservedInputEvent (vec_to_list e.1) [e.2]).
Definition off_submission (e : Address * bytes * U256) : option Event :=
  Some (MaskedInputEvent (vec_to_list e.1.1) [(e.2, e.1.2)]).

Lemma by_bytes_extend {A} (m : gmap Address (list A)) a xs :
  by_bytes (extend_entry a xs m) = extend_entry (vec_to_list a) xs (by_bytes m).
Proof. unfold by_bytes, extend_entry. rewrite (kmap_insert vec_to_list).
  by rewrite (lookup_kmap vec_to_list).  Qed.

Lemma by_bytes_empty {A} : by_bytes (∅ : gmap Address A) = ∅.
Proof. apply kmap_empty. Qed.

Lemma by_bytes_fmap {A B} (f : A → B) (m : gmap Address A) : by_bytes (f <$> m) = f <$> by_bytes m.
Proof. apply (kmap_fmap vec_to_list). Qed.

Lemma off_wait_for_indices_run n evs rest m received :
  (received + N.of_nat (length evs) = n)%N → (n < u64_modulus)%N →
  wait_for_indices_loop n received (by_bytes m) ((off_reservation <$> evs) ++ rest) =
    Ok (by_bytes (foldl (fun m e => extend_entry e.1 [e.2] m) m evs)).
Proof.
  revert m received. induction evs as [|[a x] evs IH]; intros m received Hn Hw; simpl in *.
  - destruct rest as [|o rest]; simpl; by rewrite (proj2 (N.ltb_ge _ _)) by lia.
  - rewrite (proj2 (N.ltb_lt _ _)) by lia. unfold vlen, u64_add. simpl.
    rewrite u64_wrap_small by lia. rewrite <-by_bytes_extend. apply IH; lia.
Qed.

Section inputs.
Context {Sh V : Type} (deserialize_value : bytes → option V).
Context (compute_masked_input : V → Sh → option Sh) (mask_shares : list Sh).

Lemma chain_unmask_agrees b x :
  (x < u64_modulus)%N →
  chain_unmask deserialize_value compute_masked_input mask_shares b x =
  unmask_input deserialize_value compute_masked_input mask_shares (x, b).
Proof.
  intros Hx. unfold chain_unmask, unmask_input. rewrite u256_to_u64_small by done. simpl.
  unfold as_usize. by rewrite u64_wrap_small by done.
Qed.

Lemma waits_for_inputs_agree evs rest rest' m received :
  Forall (fun e : Address * bytes * U256 => (e.2 < u64_modulus)%N) evs →
  (received + N.of_nat (length evs) < u64_modulus)%N →
  ∃ r, chain_wait_for_inputs_loop deserialize_value compute_masked_input (length evs) mask_shares m
         ((LogEvent <$> evs) ++ rest) = Some r ∧
    wait_for_inputs_loop deserialize_value compute_masked_input
      (received + N.of_nat (length evs)) mask_shares received (by_bytes m)
      ((off_submission <$> evs) ++ rest') = by_bytes <$> r.
Proof.
  intros Hr. revert m received. induction Hr as [|[[a b] x] evs Hx Hr IH]; intros m received Hw.
  { exists (Ok m). simpl. rewrite N.add_0_r.
    destruct rest' as [|o rest']; simpl; by rewrite (proj2 (N.ltb_ge _ _)) by lia. }
  simpl in *. rewrite (proj2 (N.ltb_lt received _)) by lia. rewrite chain_unmask_agrees by done.
  destruct (unmask_input _ _ _ (x, b)) as [y|e|]; simpl; [|by eexists..].
  unfold u64_add. rewrite u64_wrap_small by (unfold vlen; simpl; lia).
  rewrite <-by_bytes_extend.
  destruct (IH (extend_entry a [y] m) (received + 1)%N) as (r & Hc & Ho); [lia|].
  exists r. split; [done|].
  replace (received + N.of_nat (S (length evs)))%N
    with (received + 1 + N.of_nat (length evs))%N by lia.
  exact Ho.
Qed.
End inputs.

(** On the same reservations and submissions, one index each, the waits of the
    contract's client return what the waits of the off-chain client return: the
    same indices and the same unmasked inputs in the same order per client, and
    the same error where an input cannot be unmasked. *)
Theorem chain_waits_agree {Sh V} (deserialize_value : bytes → option V)
    (compute_masked_input : V → Sh → option Sh) (mask_shares : list Sh)
    (reserved : list (Address * U256)) (submitted : list (Address * bytes * U256))
    indices_after indices_after' inputs_after inputs_after'
    (Hreserved : readable_indices reserved)
    (Hsubmitted : Forall (fun e : Address * bytes * U256 => (e.2 < u64_modulus)%N) submitted)
    (Hsome : (0 < N.of_nat (length reserved) < u64_modulus)%N)
    (Hwidth : (N.of_nat (length submitted) < u64_modulus)%N) :
  (∃ m, chain_wait_for_indices (N.of_nat (length reserved))
          (Some ((LogEvent <$> reserved) ++ indices_after)) = Some (Ok m) ∧
     wait_for_indices (Some ((off_reservation <$> reserved) ++ indices_after'))
       (N.of_nat (length reserved)) = Ok (by_bytes m)) ∧
  (∃ r, chain_wait_for_inputs deserialize_value compute_masked_input (N.of_nat (length submitted))
          mask_shares (Some ((LogEvent <$> submitted) ++ inputs_after)) = Some r ∧
     wait_for_inputs deserialize_value compute_masked_input
       (Some ((off_submission <$> submitted) ++ inputs_after')) (N.of_nat (length submitted))
       mask_shares = by_bytes <$> r).
Proof.
  split.
  - exists (indices_of reserved). split.
    + rewrite chain_wait_for_indices_enough by (done || lia). by rewrite Nat2N.id, firstn_all.
    + unfold wait_for_indices, indices_of.
      rewrite <-(off_wait_for_indices_run (N.of_nat (length reserved)) reserved indices_after' ∅ 0) by lia.
      by rewrite by_bytes_empty.
  - destruct (waits_for_inputs_agree deserialize_value compute_masked_input mask_shares submitted
      inputs_after inputs_after' ∅ 0) as (r & Hc & Ho); [done|lia|].
    unfold chain_wait_for_inputs, wait_for_inputs. rewrite Nat2N.id, Hc.
    rewrite N.add_0_l in Ho. rewrite by_bytes_empty in Ho. rewrite Ho.
    destruct r as [m|e|]; simpl; [|by eexists..].
    eexists. split; [done|]. simpl. by rewrite by_bytes_fmap.
Qed.

Lemma chain_waits_agree_witness :
  ∃ m, chain_wait_for_indices 1 (Some ((LogEvent <$> [(addr_a, 7%N)]) ++ [])) = Some (Ok m) ∧
    wait_for_indices (Some ((off_reservation <$> [(addr_a, 7%N)]) ++ [])) 1 = Ok (by_bytes m).
Proof.
  destruct (chain_waits_agree (fun b => head b) (fun v (_ : byte) => Some v) [Byte.x00]
    [(addr_a, 7%N)] [(addr_a, [Byte.x01], 0%N)] [] [] [] []) as [(m & Hon & Hoff) _].
  - repeat constructor.
  - repeat constructor.
  - simpl. unfold u64_modulus. lia.
  - reflexivity.
  - exists m. split; [exact Hon|exact Hoff].
Defined.

(** ** Rounds *)

(** [trigger_round] is the method that starts the round. *)
Lemma chain_trigger_round_methods send :
  chain_trigger_round send Preprocessing = chain_start_preprocessing send ∧
  chain_trigger_round send InputMaskReservation = chain_reserve_input_masks send ∧
  chain_trigger_round send InputCollection = chain_collect_inputs send ∧
  chain_trigger_round send MPCExecution = chain_start_mpc send ∧
  chain_trigger_round send OutputDistribution = chain_send_output send ∧
  chain_trigger_round send ProgramFinished = chain_finalize send.
Proof. done. Qed.

(** ** Outputs *)

Section outputs.
Context {Sh V SK PK EK : Type}.
Context (deserialize_shares : bytes → option (list Sh)) (serialize_shares : list Sh → option bytes).
Context (deserialize_sealed : bytes → option (bytes * bytes)).
Context (serialize_sealed : bytes * bytes → option bytes).
Context (recover_secret : list Sh → usize → usize → option V) (backend : MpcBackend).
Context (public_key : bytes → option PK).
Context (encapped_key : bytes → option EK) (encapped_bytes : EK → bytes).
Context (single_shot_open : SK → EK → bytes → bytes → option bytes).
Context (single_shot_seal : PK → bytes → bytes → vec byte 32 → option (EK * bytes)).
Context (share : ClientIdentity → nat → Sh) (n_outputs : u64).

Abbreviation open_event :=
  (chain_open_event deserialize_shares deserialize_sealed encapped_key single_shot_open).
Abbreviation obtain_loop :=
  (chain_obtain_outputs_loop deserialize_shares deserialize_sealed recover_secret backend encapped_key
     single_shot_open).
Abbreviation seal :=
  (chain_seal_output_shares serialize_shares serialize_sealed public_key encapped_bytes single_shot_seal).

Lemma chain_open_event_run sk enc (ps : list ClientIdentity) :
  (∀ p, p ∈ ps → chain_open_shares deserialize_shares deserialize_sealed encapped_key single_shot_open
     sk (enc p) = Ok (share_vector share n_outputs p)) →
  open_event sk n_outputs (enc <$> ps) = Ok (share_vector share n_outputs <$> ps).
Proof.
  induction ps as [|p ps IH]; intros Ho; [done|]. rewrite fmap_cons. cbn [chain_open_event].
  rewrite Ho by left. cbn [mbind result_bind]. rewrite IH by (intros ??; apply Ho; by right).
  cbn [mbind result_bind]. unfold share_vector at 1, vlen.
  rewrite length_fmap, length_seq, N2Nat.id, N.eqb_refl. done.
Qed.

(** An event that opens, but from which not every output can be recovered yet. *)
Definition not_enough (sk : SK) (n t : u64) (entries : list bytes) : Prop :=
  (min_shares backend t <= vlen entries)%N ∧
  ∃ vectors i, open_event sk n_outputs entries = Ok vectors ∧ i < N.to_nat n_outputs ∧
    recover_output recover_secret n t vectors i = None.

Lemma outputs_missing n t vectors i :
  (n_outputs < u64_modulus)%N → i < N.to_nat n_outputs →
  recover_output recover_secret n t vectors i = None →
  vlen (outputs_of_snapshot recover_secret n t n_outputs vectors) ≠ n_outputs.
Proof.
  intros Hw Hi Hnone. unfold outputs_of_snapshot. rewrite as_usize_small by done.
  rewrite <-(take_drop_middle (seq 0 (N.to_nat n_outputs)) i i) by (by apply lookup_seq_lt).
  rewrite omap_app. cbn [omap list_omap]. rewrite Hnone. unfold vlen. rewrite length_app.
  assert (∀ l : list nat, length (omap (recover_output recover_secret n t vectors) l) <= length l) as Hle.
  { induction l as [|x l IH]; [done|]. cbn [omap list_omap].
    destruct (recover_output _ _ _ _ x); cbn [length]; [|apply Nat.le_le_succ_r]; [by apply le_n_S|done]. }
  pose proof (Hle (take i (seq 0 (N.to_nat n_outputs)))) as H1.
  pose proof (Hle (drop (S i) (seq 0 (N.to_nat n_outputs)))) as H2.
  rewrite length_take, length_seq in H1. rewrite length_drop, length_seq in H2. lia.
Qed.

Lemma obtain_loop_skips sk n t early rest :
  (n < u64_modulus)%N → (t < u64_modulus)%N → (n_outputs < u64_modulus)%N →
  Forall (not_enough sk n t) early →
  obtain_loop sk n t n_outputs ((LogEvent <$> early) ++ rest) = obtain_loop sk n t n_outputs rest.
Proof.
  intros Hn Ht Ho. induction 1 as [|entries early (Hlen & vectors & i & Hopen & Hi & Hnone) _ IH]; [done|].
  rewrite fmap_cons, <-app_comm_cons. cbn [chain_obtain_outputs_loop]. rewrite !as_usize_small by done.
  rewrite (proj2 (N.ltb_ge _ _) Hlen), Hopen.
  rewrite (proj2 (N.eqb_neq _ _)) by (by eapply outputs_missing). exact IH.
Qed.
End outputs.

(** C34: the contract's client waits as long as it has to and no longer.  While the
    events carry too few good shares it goes on; at the first event with the
    sealed shares of distinct parties from which reconstruction is sound it
    returns every output, given that opening undoes sealing and decoding undoes
    encoding. *)
Theorem chain_outputs_at_first_sufficient_event {Sh V SK PK EK} (deserialize_shares : bytes → option (list Sh))
    serialize_shares deserialize_sealed serialize_sealed
    (recover_secret : list Sh → usize → usize → option V) backend
    from_pkcs8_der (private_key : bytes → option SK) (public_key : bytes → option PK)
    (encapped_key : bytes → option EK) encapped_bytes single_shot_open single_shot_seal
    (share : ClientIdentity → nat → Sh) (out : nat → V) key_der raw_sk sk key rng enc
    (n t n_outputs : u64) early (ps : list ClientIdentity) rest
    (Hsk : from_pkcs8_der key_der = Some raw_sk ∧ private_key raw_sk = Some sk)
    (Hhpke : ∀ pk m r ek ct, public_key key = Some pk →
       single_shot_seal pk ENC_INFO m r = Some (ek, ct) →
       encapped_key (encapped_bytes ek) = Some ek ∧ single_shot_open sk ek ENC_INFO ct = Some m)
    (Hcodec : ∀ l b, serialize_shares l = Some b → deserialize_shares b = Some l)
    (Hsealed_codec : ∀ c b, serialize_sealed c = Some b → deserialize_sealed b = Some c)
    (Hrecover : ∀ qs i, NoDup qs → (min_shares backend t <= vlen qs)%N →
       recover_secret ((fun p => share p i) <$> qs) n t = Some (out i))
    (Hwidth : (n < u64_modulus)%N ∧ (t < u64_modulus)%N ∧ (n_outputs < u64_modulus)%N)
    (Hearly : Forall (not_enough deserialize_shares deserialize_sealed recover_secret backend encapped_key
       single_shot_open n_outputs sk n t) early)
    (Hdistinct : NoDup ps) (Hquorum : (min_shares backend t <= vlen ps)%N)
    (Hsealed : ∀ p, p ∈ ps →
       chain_seal_output_shares serialize_shares serialize_sealed public_key encapped_bytes
         single_shot_seal key (rng p) (share_vector share n_outputs p) = Ok (enc p)) :
  chain_obtain_outputs deserialize_shares deserialize_sealed recover_secret backend from_pkcs8_der
    private_key encapped_key single_shot_open (Some key_der) n t n_outputs
    (Some ((LogEvent <$> early) ++ LogEvent (enc <$> ps) :: rest)) =
    Some (Ok (out <$> seq 0 (N.to_nat n_outputs))).
Proof.
  destruct Hsk as [Hder Hpriv], Hwidth as (Hn & Ht & Ho).
  unfold chain_obtain_outputs. simpl. rewrite Hder. simpl. rewrite Hpriv. simpl.
  rewrite obtain_loop_skips by done. cbn [chain_obtain_outputs_loop]. rewrite !as_usize_small by done.
  assert (vlen (enc <$> ps) = vlen ps) as -> by (unfold vlen; by rewrite length_fmap).
  rewrite (proj2 (N.ltb_ge _ _) Hquorum), (chain_open_event_run _ _ _ _ share).
  - rewrite (outputs_of_snapshot_run recover_secret share n_outputs out);
      [|done|intros i _; by apply Hrecover].
    unfold vlen. rewrite length_fmap, length_seq, N2Nat.id, N.eqb_refl. done.
  - intros p Hp. specialize (Hsealed p Hp). unfold chain_seal_output_shares in Hsealed. inv_ok.
    match goal with H : single_shot_seal _ _ _ _ = Some ?x |- _ => destruct x as [ek ct]; rename H into Hseal end.
    destruct (Hhpke _ _ _ _ _ ltac:(eassumption) Hseal) as [Hek Hop].
    unfold chain_open_shares, open_shares.
    match goal with H : serialize_sealed _ = Some _ |- _ => rewrite (Hsealed_codec _ _ H) end.
    simpl. rewrite Hek. simpl. rewrite Hop. simpl.
    match goal with H : serialize_shares _ = Some _ |- _ => by rewrite (Hcodec _ _ H) end.
Qed.

(** A codec of sealed shares for the witness: the encapsulated key is empty. *)
Definition toy_sealed (c : bytes * bytes) : option bytes := if decide (c.1 = []) then Some c.2 else None.
Definition toy_unsealed (b : bytes) : option (bytes * bytes) := Some ([], b).
Definition nonzero_share (l : list byte) (_ _ : usize) : option byte :=
  match l with x :: _ => if decide (x = Byte.x00) then None else Some x | [] => None end.
Definition toy_event (x : byte) (_ : ClientIdentity) : bytes := [Byte.x2a] ++ ENC_INFO ++ [x; x].

Lemma chain_outputs_at_first_sufficient_event_witness :
  chain_obtain_outputs (S := byte) Some toy_unsealed nonzero_share Avss Some Some (fun _ => Some tt)
    toy_open (Some [Byte.x2a]) 3 1 2
    (Some ((LogEvent <$> [toy_event Byte.x00 <$> [party1; party2]]) ++
           LogEvent (toy_event Byte.x0c <$> [party3; party1]) :: [])) =
    Some (Ok ((fun _ => Byte.x0c) <$> seq 0 (N.to_nat 2))).
Proof.
  apply (chain_outputs_at_first_sufficient_event (Sh := byte) Some Some toy_unsealed toy_sealed
    nonzero_share Avss Some Some Some (fun _ => Some tt) (fun _ => []) toy_open toy_seal
    (fun _ _ => Byte.x0c) (fun _ => Byte.x0c) [Byte.x2a] [Byte.x2a] [Byte.x2a] [Byte.x2a]
    (fun _ => vreplicate 32 Byte.x00) (toy_event Byte.x0c) 3 1 2
    [toy_event Byte.x00 <$> [party1; party2]] [party3; party1] []).
  - split; reflexivity.
  - intros pk m r ek ct [= <-] [= <- <-]. split; [reflexivity|].
    exact (toy_open_seal [Byte.x2a] tt ENC_INFO m).
  - intros l b [= <-]. reflexivity.
  - intros [c1 c2] b. unfold toy_sealed. simpl. case_decide as Hc; [|done]. intros [= <-]. by subst c1.
  - intros [|q qs] i _ Hlen; [exfalso; revert Hlen; vm_compute; intros Hlen; by apply Hlen|reflexivity].
  - split_and!; by vm_compute.
  - constructor; [|constructor]. split; [by vm_compute|].
    exists [[Byte.x00; Byte.x00]; [Byte.x00; Byte.x00]], 0. split_and!; [by vm_compute|simpl; lia|done].
  - apply (bool_decide_unpack _). by vm_compute.
  - by vm_compute.
  - intros p _. reflexivity.
Defined.
