(* ===== verification/Listener.v ===== *)
(** The listeners: who a caller is, how connections come and go, and how a one-off
    coordinator ends (src/crates/coord-shared/src/rpc.rs, [start_coord],
    [start_coord_browser_tls]; src/crates/off-chain/src/lib.rs,
    [start_coord_one_off]).  TLS, certificate parsing, HTTP and JSON-RPC framing
    belong to other crates: the outcome of a handshake and the public key of a
    certificate are arguments. *)
From S2P Require Import Prelude Shared Execution Sessions Server Rpc.

(** ** Connections *)

(** A task of a listener: in its TLS handshake, or serving calls; a native
    connection serves as the identity taken from its certificate, a browser
    connection has none. *)
Inductive Connection : Type :=
  | Handshaking
  | Serving (id : option ClientIdentity).

Abbreviation ConnId := positive.

(** [RPCServerHandle] and the task it owns: whether the accept loop runs, the number
    the next connection task gets, and the connection tasks. *)
Record Listener : Type := mkListener {
  accepting : bool;
  next_connection : ConnId;
  connections : gmap ConnId Connection }.

#[export] Instance listener_eta : Eta Listener :=
  fun l => mkListener (accepting l) (next_connection l) (connections l).

(** The listener [start_coord] hands out, once certificate and address are good. *)
Definition start_listener (tls_config : result CoordinatorError unit) (bind : option unit)
    : result CoordinatorError Listener :=
  _ ← tls_config;
  _ ← ok_or bind (BindError "{e}");
  Ok (mkListener true 1%positive ∅).

(** [browser_tls_config]: the PEM parsers and the final assembly are rustls'. *)
Definition browser_tls_config (parse_certs : bytes → option (list bytes))
    (parse_key : bytes → option (option bytes)) (with_single_cert : list bytes → bytes → option unit)
    (cert_chain_pem key_pem : bytes) : result CoordinatorError unit :=
  certs ← ok_or (parse_certs cert_chain_pem) (TlsConfigError "invalid certificate chain PEM: {e}");
  _ ← ensure (bool_decide (certs ≠ []))
        (TlsConfigError "certificate chain PEM contained no certificates");
  key ← ok_or (parse_key key_pem) (TlsConfigError "invalid private key PEM: {e}");
  key ← ok_or key (TlsConfigError "private key PEM contained no key");
  ok_or (with_single_cert certs key) (TlsConfigError "{e}").

Section listener.
Context (subject_public_key : bytes → option bytes).

(** The identity of a native connection: the public key of the first certificate
    the peer presented. *)
Definition connection_identity (certificates : option (list bytes)) : option ClientIdentity :=
  certificates ← certificates;
  certificate ← head certificates;
  subject_public_key certificate.

(** The accept branch: a failed accept is logged and the loop goes on. *)
Definition accept_connection (accepted : bool) (l : Listener) : Listener :=
  if accepting l && accepted
  then l <| connections ::= <[next_connection l := Handshaking]> |> <| next_connection ::= Pos.succ |>
  else l.

(** The end of a handshake: [None] when it failed.  A task that returns is reaped. *)
Definition native_handshake (k : ConnId) (peer : option (option (list bytes))) (l : Listener) : Listener :=
  match connections l !! k with
  | Some Handshaking =>
      match certificates ← peer; connection_identity certificates with
      | Some id => l <| connections ::= <[k := Serving (Some id)]> |>
      | None => l <| connections ::= delete k |>
      end
  | _ => l
  end.

Definition browser_handshake (k : ConnId) (succeeded : bool) (l : Listener) : Listener :=
  match connections l !! k with
  | Some Handshaking =>
      if succeeded then l <| connections ::= <[k := Serving None]> |>
      else l <| connections ::= delete k |>
  | _ => l
  end.

Definition close_connection (k : ConnId) (l : Listener) : Listener :=
  l <| connections ::= delete k |>.

(** [RPCServerHandle::shutdown]: the accept loop ends and every connection task
    with it. *)
Definition shutdown_listener (l : Listener) : Listener := mkListener false (next_connection l) ∅.

(** ** Runs of a native listener *)

(** Besides the listener: the handshakes completed, with the certificates presented,
    and the calls served, with the identity the handler saw. *)
Record ListenerRun : Type := mkListenerRun {
  lr_listener : Listener;
  lr_peers : list (ConnId * list bytes);
  lr_calls : list (ConnId * ClientIdentity) }.

Inductive native_step (w : ListenerRun) : ListenerRun → Prop :=
  | ns_accept accepted :
      native_step w (mkListenerRun (accept_connection accepted (lr_listener w))
        (lr_peers w) (lr_calls w))
  | ns_handshake k certificates :
      connections (lr_listener w) !! k = Some Handshaking →
      native_step w (mkListenerRun (native_handshake k (Some (Some certificates)) (lr_listener w))
        (lr_peers w ++ [(k, certificates)]) (lr_calls w))
  | ns_failed k peer :
      peer = None ∨ peer = Some None →
      native_step w (mkListenerRun (native_handshake k peer (lr_listener w)) (lr_peers w) (lr_calls w))
  | ns_call k id :
      connections (lr_listener w) !! k = Some (Serving (Some id)) →
      native_step w (mkListenerRun (lr_listener w) (lr_peers w) (lr_calls w ++ [(k, id)]))
  | ns_close k :
      native_step w (mkListenerRun (close_connection k (lr_listener w)) (lr_peers w) (lr_calls w))
  | ns_shutdown :
      native_step w (mkListenerRun (shutdown_listener (lr_listener w)) (lr_peers w) (lr_calls w)).
End listener.

(** ** The one-off coordinator *)

(** The drain loop of [start_coord_one_off]: [polls] are the states it sees until
    the grace period is over, the last one being the state at that point; the
    progress is reported when the loop did not see completion. *)
Fixpoint drain (eid : ExecutionId) (polls : list Server) (at_end : Server) : option (usize * usize) :=
  match polls with
  | [] => Some (retirement_progress at_end eid).1
  | s :: polls => if (retirement_progress s eid).2 then None else drain eid polls at_end
  end.

(** [start_coord_one_off] after the shutdown request: what it reports, and the
    listener it leaves. *)
Definition start_coord_one_off (started : result CoordinatorError Listener) (eid : ExecutionId)
    (polls : list Server) (at_end : Server)
    : result CoordinatorError (option (usize * usize) * Listener) :=
  l ← started;
  Ok (drain eid polls at_end, shutdown_listener l).
