(* ===== verification/ListenerFacts.v ===== *)
(** What the listeners guarantee: calls are made under the key of the certificate
    presented on the connection, and none after the shutdown. *)
From S2P Require Import Prelude Shared Execution Samples Sessions Server Rpc ServerSamples.
From S2P Require Import Listener.

Section native.
Context (subject_public_key : bytes → option bytes).
Abbreviation step := (native_step subject_public_key).
Abbreviation identity_of := (connection_identity subject_public_key).

(** The identity [id] is the key of a certificate presented on connection [k]. *)
Definition presented (w : ListenerRun) (k : ConnId) (id : ClientIdentity) : Prop :=
  ∃ certificates, (k, certificates) ∈ lr_peers w ∧ identity_of (Some certificates) = Some id.

Record native_ok (w : ListenerRun) : Prop := {
  no_serving : ∀ k id, connections (lr_listener w) !! k = Some (Serving id) →
    ∃ id', id = Some id' ∧ presented w k id';
  no_calls : ∀ k id, (k, id) ∈ lr_calls w → presented w k id;
  no_closed : accepting (lr_listener w) = false → connections (lr_listener w) = ∅ }.

Lemma presented_mono w l calls k id peers :
  lr_peers w ⊆ peers → presented w k id → presented (mkListenerRun l peers calls) k id.
Proof. intros Hp (cs & Hin & Hid). exists cs. auto. Qed.

Lemma native_step_ok w w' : native_ok w → step w w' → native_ok w'.
Proof.
  intros [Hs Hc Hcl]. destruct 1 as [accepted|k cs Hk|k peer Hpeer|k id Hk|k|].
  - assert (∀ k id, connections (accept_connection accepted (lr_listener w)) !! k = Some (Serving id) →
      connections (lr_listener w) !! k = Some (Serving id)) as Hkeep.
    { intros k id. unfold accept_connection. destruct (_ && _); [|done]. simpl.
      rewrite lookup_insert. by case_decide. }
    constructor; simpl.
    + intros k id (id' & -> & Hp)%Hkeep%Hs. exists id'. split; [done|]. by eapply presented_mono.
    + intros k id Hin. eapply presented_mono; [done|]. auto.
    + unfold accept_connection. destruct (accepting (lr_listener w)) eqn:Ha; simpl; [|by auto].
      destruct accepted; simpl; congruence.
  - assert (lr_peers w ⊆ lr_peers w ++ [(k, cs)]) as Hsub by (intros x Hx; apply elem_of_app; by left).
    assert (accepting (lr_listener w) = true) as Hacc.
    { destruct (accepting (lr_listener w)); [done|]. rewrite Hcl in Hk by done. by rewrite lookup_empty in Hk. }
    assert (∀ k' id', connections (lr_listener w) !! k' = Some (Serving id') → ∃ i, id' = Some i ∧
      ∃ cs', (k', cs') ∈ lr_peers w ++ [(k, cs)] ∧ identity_of (Some cs') = Some i) as Hold.
    { intros k' id' (i & -> & cs' & Hin & Hi)%Hs. exists i. split; [done|]. exists cs'. auto. }
    unfold native_handshake. rewrite Hk. cbn [mbind option_bind].
    destruct (identity_of (Some cs)) as [id|] eqn:Hid; constructor; cbn;
      try (intros k' id' Hin; eapply presented_mono; [done|by apply Hc]); try congruence.
    + intros k' id'. rewrite lookup_insert. case_decide as Heq; [|apply Hold].
      intros [= <-]. subst k'. exists id. split; [done|]. exists cs. split; [|done].
      apply elem_of_app. right. by left.
    + intros k' id' [_ Hl]%lookup_delete_Some. by apply Hold.
  - unfold native_handshake.
    assert ((c ← peer; identity_of c) = None) as ->; [by destruct Hpeer as [-> | ->]|].
    destruct (connections (lr_listener w) !! k) as [[|i]|] eqn:Hk; [|by constructor..].
    constructor; simpl.
    + intros k' id' [_ Hl]%lookup_delete_Some. destruct (Hs _ _ Hl) as (i & -> & Hp). by exists i.
    + done.
    + intros Ha. rewrite Hcl by done. apply delete_empty.
  - destruct (Hs _ _ Hk) as (i & [= <-] & Hp). constructor; simpl; [done| |done].
    intros k' id' [Hin|[= -> ->]%list_elem_of_singleton]%elem_of_app; [by apply Hc|done].
  - constructor; simpl.
    + intros k' id' [_ Hl]%lookup_delete_Some. destruct (Hs _ _ Hl) as (i & -> & Hp). by exists i.
    + done.
    + intros Ha. rewrite Hcl by done. apply delete_empty.
  - constructor; simpl; [|done|done]. intros k id. by rewrite lookup_empty.
Qed.

Definition native_start (l : Listener) : ListenerRun := mkListenerRun l [] [].

(** Connections are numbered once: a handshake completes at most once under a number. *)
Record numbered (w : ListenerRun) : Prop := {
  nu_bound : ∀ k, is_Some (connections (lr_listener w) !! k) ∨ k ∈ (lr_peers w).*1 →
    (k < next_connection (lr_listener w))%positive;
  nu_fresh : ∀ k, connections (lr_listener w) !! k = Some Handshaking → k ∉ (lr_peers w).*1;
  nu_once : NoDup (lr_peers w).*1 }.

Lemma numbered_fewer w l calls :
  numbered w → next_connection l = next_connection (lr_listener w) →
  (∀ k c, connections l !! k = Some c → connections (lr_listener w) !! k = Some c) →
  numbered (mkListenerRun l (lr_peers w) calls).
Proof.
  intros [Hb Hf Ho] Hn Hsub. constructor; simpl; [|by eauto|done].
  intros k Hk. rewrite Hn. apply Hb. destruct Hk as [[c Hc]|Hk]; [left|by right].
  exists c. by apply Hsub.
Qed.

Lemma delete_sub (k : ConnId) (m : gmap ConnId Connection) k' c :
  delete k m !! k' = Some c → m !! k' = Some c.
Proof. by intros [_ ?]%lookup_delete_Some. Qed.

Lemma native_handshake_next k peer l :
  next_connection (native_handshake subject_public_key k peer l) = next_connection l.
Proof.
  unfold native_handshake. destruct (connections l !! k) as [[|]|]; [|done..]. by case_match.
Qed.

Lemma native_step_numbered w w' : numbered w → step w w' → numbered w'.
Proof.
  intros Hw. pose proof Hw as [Hb Hf Ho].
  destruct 1 as [accepted|k cs Hk|k peer Hpeer|k id Hk|k|];
    try (apply numbered_fewer; simpl; [done..|]; eauto using delete_sub; fail).
  - unfold accept_connection. destruct (_ && _); [|by apply numbered_fewer].
    constructor; simpl; [|intros k; rewrite lookup_insert; case_decide as Heq; [|by apply Hf]|done].
    + intros k. rewrite lookup_insert. case_decide as Heq; [intros _; subst k; lia|].
      intros Hk%Hb. lia.
    + intros _ Hin. assert (k < next_connection (lr_listener w))%positive by auto. subst k. lia.
  - assert (k ∉ (lr_peers w).*1) as Hnew by auto.
    assert (k < next_connection (lr_listener w))%positive as Hlt by eauto.
    set (l := native_handshake _ k (Some (Some cs)) (lr_listener w)).
    assert (next_connection l = next_connection (lr_listener w) ∧
      ∀ k' c, connections l !! k' = Some c → k' = k ∧ c ≠ Handshaking ∨ k' ≠ k ∧ connections (lr_listener w) !! k' = Some c)
      as [Hn Hl].
    { split; [apply native_handshake_next|]. unfold l, native_handshake. rewrite Hk.
      cbn [mbind option_bind]. destruct (identity_of (Some cs)) as [i|]; simpl; intros k' c.
      - rewrite lookup_insert. case_decide as Heq; [intros [= <-]; by left|by right].
      - intros [Hne ?]%lookup_delete_Some. by right. }
    clearbody l. constructor; simpl; rewrite ?fmap_app; simpl.
    + intros k' [[c Hc]|Hin]; rewrite Hn; [destruct (Hl _ _ Hc) as [[-> _]|[_ ?]]; eauto|].
      apply elem_of_app in Hin as [Hin|Hin%list_elem_of_singleton]; [auto|by subst k'].
    + intros k' Hc Hin. destruct (Hl _ _ Hc) as [[_ ?]|[Hne Hc']]; [done|].
      apply elem_of_app in Hin as [Hin|Hin%list_elem_of_singleton]; [by eapply Hf|done].
    + apply NoDup_app. split; [done|]. split; [|apply NoDup_singleton].
      by intros x Hx ->%list_elem_of_singleton.
  - apply numbered_fewer; [done|..].
    + apply native_handshake_next.
    + intros k' c. unfold native_handshake.
      assert ((c ← peer; identity_of c) = None) as ->; [by destruct Hpeer as [-> | ->]|].
      destruct (_ !! k) as [[|]|]; simpl; [apply delete_sub|done..].
  - apply numbered_fewer; [done..|]. intros k c. simpl. by rewrite lookup_empty.
Qed.

(** Without connections and an accept loop nothing more is served. *)
Lemma closed_run w w' :
  accepting (lr_listener w) = false → connections (lr_listener w) = ∅ → rtc step w w' →
  lr_calls w' = lr_calls w.
Proof.
  intros Ha Hc Hr. induction Hr as [|w w1 w2 Hs _ IH]; [done|].
  destruct Hs as [accepted|k cs Hk|k peer Hpeer|k id Hk|k|]; simpl in *.
  - unfold accept_connection in IH. rewrite Ha in IH. by apply IH.
  - by rewrite Hc, lookup_empty in Hk.
  - unfold native_handshake in IH. rewrite Hc, lookup_empty in IH. by apply IH.
  - by rewrite Hc, lookup_empty in Hk.
  - apply IH; [done|]. rewrite Hc. apply delete_empty.
  - by apply IH.
Qed.

Lemma native_run_ok tls bind l w :
  start_listener tls bind = Ok l → rtc step (native_start l) w → native_ok w ∧ numbered w.
Proof.
  intros Hl Hr. assert (native_ok (native_start l) ∧ numbered (native_start l)) as H0.
  { unfold start_listener in Hl. inv_ok. simplify_eq. split; constructor; simpl.
    - intros k id. by rewrite lookup_empty.
    - by intros ?? ?%elem_of_nil.
    - done.
    - intros k [[c Hc]|Hk%elem_of_nil]; [by rewrite lookup_empty in Hc|done].
    - intros k. by rewrite lookup_empty.
    - apply NoDup_nil_2. }
  induction Hr; [done|]. destruct H0. eauto using native_step_ok, native_step_numbered.
Qed.

(** A native listener hands every call to the handlers under the public key of
    the certificate the caller presented in the one completed handshake of that very
    connection, whatever connections come, fail and go; a connection without a
    readable certificate is never served, and after the shutdown no call is. *)
Theorem native_calls_are_authenticated tls bind l w
    (Hstart : start_listener tls bind = Ok l) (Hrun : rtc step (native_start l) w) :
  (∀ k id, (k, id) ∈ lr_calls w → ∃ certificates certificate,
     (k, certificates) ∈ lr_peers w ∧ head certificates = Some certificate ∧
     subject_public_key certificate = Some id) ∧
  NoDup (lr_peers w).*1 ∧
  (∀ w', rtc step (mkListenerRun (shutdown_listener (lr_listener w)) (lr_peers w) (lr_calls w)) w' →
     lr_calls w' = lr_calls w).
Proof.
  pose proof (native_run_ok _ _ _ _ Hstart Hrun) as [Hok Hnum]. split; [|split; [apply Hnum|]].
  - intros k id (cs & Hin & Hid)%(no_calls _ Hok). unfold connection_identity in Hid. simpl in Hid.
    destruct (head cs) as [cert|] eqn:Hh; simpl in Hid; [|done]. by exists cs, cert.
  - intros w' Hr. by apply closed_run in Hr.
Qed.
End native.

(** ** Witnesses *)

(** A certificate is its public key. *)
Definition sample_connected : ListenerRun :=
  mkListenerRun (mkListener true 2%positive {[ 1%positive := Serving (Some party1) ]}) [(1%positive, [party1])]
    [(1%positive, party1)].

Lemma sample_connected_run :
  rtc (native_step Some) (native_start (mkListener true 1%positive ∅)) sample_connected.
Proof.
  eapply rtc_l; [apply (ns_accept _ _ true)|].
  eapply rtc_l; [apply (ns_handshake _ _ 1%positive [party1]); reflexivity|].
  apply rtc_once.
  apply (ns_call _ (mkListenerRun (lr_listener sample_connected) (lr_peers sample_connected) [])
    1%positive party1).
  reflexivity.
Qed.

Lemma native_calls_are_authenticated_witness :
  ∃ certificate : bytes, Some certificate = Some party1.
Proof.
  destruct (proj1 (native_calls_are_authenticated Some (Ok tt) (Some tt) (mkListener true 1%positive ∅)
    sample_connected eq_refl sample_connected_run) 1%positive party1) as (cs & cert & _ & _ & Hid).
  - by left.
  - exists cert. exact Hid.
Defined.
