(* ===== verification/OneOff.v ===== *)
(** The life of a one-off coordinator: its execution is never reclaimed, its end is
    seen exactly when every party has acknowledged it, and then the listener goes
    down.  Joins the state machine ([Machine]), the registry ([Registry]) and the
    drain loop ([Listener]). *)
From S2P Require Import Prelude Shared Execution Samples Rounds Sessions Server Rpc ServerSamples.
From S2P Require Import Invariant History Topology Machine Inputs Registry Listener.

(** ** The drain loop *)

Lemma drain_None eid polls at_end :
  drain eid polls at_end = None ↔ ∃ s, s ∈ polls ∧ (retirement_progress s eid).2 = true.
Proof.
  induction polls as [|s polls IH]; simpl.
  { split; [done|]. by intros (s & Hin%elem_of_nil & _). }
  destruct (retirement_progress s eid).2 eqn:Hs.
  - split; [intros _; exists s; split; [left|done]|done].
  - rewrite IH. split; [intros (x & Hx & ?); exists x; split; [by right|done]|].
    intros (x & Hin%elem_of_cons & ?). destruct Hin as [->|Hx]; [congruence|by exists x].
Qed.

Lemma drain_Some eid polls at_end :
  drain eid polls at_end = None ∨ drain eid polls at_end = Some (retirement_progress at_end eid).1.
Proof. induction polls as [|s polls IH]; simpl; [by right|]. destruct (_.2); [by left|done]. Qed.

Lemma seal_other r e a eid :
  eid ≠ e → acks r !! eid = None → acks (seal r e a) !! eid = None.
Proof.
  intros Hne Hn. unfold seal.
  match goal with |- acks (drop_oldest ?m ?o) !! _ = _ =>
    destruct (drop_oldest_suffix m o) as (k & _ & -> & _) end.
  rewrite lookup_foldr_delete. case_decide; [done|]. by rewrite lookup_insert_ne.
Qed.

Section one_off.
Context `{HashOrder} (eid : ExecutionId).
Implicit Types (s : Server) (d : Exec).

(** ** The execution stays *)

(** A segment of any handler, by any caller; the watch stays on the execution. *)
Definition one_off_step (s s' : Server) : Prop := step s s' ∧ one_off_execution s' = Some eid.

Record live (s : Server) (d : Exec) : Prop := {
  lv_wf : server_wf s;
  lv_watched : one_off_execution s = Some eid;
  lv_exec : executions s !! eid = Some d;
  lv_unsealed : acks (retired s) !! eid = None }.

Lemma effect_unsealed s s' d :
  live s d → effect s s' → acks (retired s') !! eid = None.
Proof.
  intros [Hwf Ho Hd Hn] [s'' _ Hr _|e x x' _ _ _|reg delivery s'' r Hr|e p s'' r Hr]; [by rewrite Hr|done| |].
  - assert (∀ s1, room_made s s1 → acks (retired s1) !! eid = None) as Hroom.
    { intros s1 [_|e x _ Hx Hev]; [done|]. simpl. apply seal_other; [|done]. intros <-.
      unfold evictable in Hev. rewrite Ho in Hev. by rewrite bool_decide_true in Hev. }
    apply register_execution_outcome in Hr as [| | |s1 x _ Hm _|s1 err _ Hm _|s1 _ Hm _ _];
      [done..|exact (Hroom s1 Hm)|exact (Hroom s1 Hm)|exact (Hroom s1 Hm)].
  - apply retire_execution_cases in Hr as [(_ & -> & _)|(_ & _ & Hr)]; [done|].
    destruct Hr as [[Hs ->]|[(_ & _ & ->)|(x & _ & _ & ->)]]; [|done..]. simpl.
    assert (e ≠ eid) as Hne by (intros ->; rewrite Hn in Hs; by destruct Hs).
    unfold acknowledge. destruct (acks (retired s) !! e); [|done].
    case_match; simpl; [by rewrite lookup_delete_ne|by rewrite lookup_insert_ne].
Qed.

Lemma one_off_step_live s s' d :
  live s d → one_off_step s s' → ∃ d', live s' d' ∧ exec_le d d' ∧ mpc_nodes s' = mpc_nodes s.
Proof.
  intros Hl [Hstep Ho]. pose proof (step_effect _ _ (lv_wf _ _ Hl) Hstep) as He.
  pose proof (effect_unsealed _ _ _ Hl He) as Hn. destruct Hl as [Hwf Hw Hd _].
  pose proof (effect_grows _ _ _ _ He Hd) as Hg. unfold grows in Hg.
  destruct (executions s' !! eid) as [d'|] eqn:Hd'.
  - exists d'. split; [|split; [done|apply (effect_topology _ _ He)]].
    constructor; [by eapply effect_wf|done..].
  - unfold evictable in Hg. simpl in Hg. rewrite Hw in Hg. by rewrite bool_decide_true in Hg.
Qed.

Lemma one_off_run_live s s' d :
  live s d → rtc one_off_step s s' → ∃ d', live s' d' ∧ exec_le d d' ∧ mpc_nodes s' = mpc_nodes s.
Proof.
  intros Hl Hr. revert d Hl. induction Hr as [|s s1 s' Hs _ IH]; intros d Hl; [by exists d|].
  destruct (one_off_step_live _ _ _ Hl Hs) as (d1 & Hl1 & Hle1 & Hn1).
  destruct (IH d1 Hl1) as (d' & Hl' & Hle & Hn). exists d'.
  split; [done|]. split; [by etrans|]. by rewrite Hn.
Qed.

(** ** When it is complete *)

Lemma live_progress s d :
  live s d → retirement_progress s eid =
    (N.of_nat (size (retirement_acks d)), vlen (mpc_nodes s),
     bool_decide (Forall (fun p => p ∈ retirement_acks d) (mpc_nodes s))).
Proof.
  intros [Hwf _ Hd _]. unfold retirement_progress. rewrite Hd. f_equal.
  pose proof (wf_acks _ _ _ (proj2 (proj2 (sw_execs _ Hwf _ _ Hd)))) as Hacks.
  assert (vlen (mpc_nodes s) = N.of_nat (size (list_to_set (mpc_nodes s) : gset ClientIdentity))) as Hsize.
  { unfold vlen. by rewrite size_list_to_set by apply (top_unique _ _ _ (sw_topology s Hwf)). }
  destruct (_ <=? _)%N eqn:Hle; reflect_bool; symmetry.
  - apply bool_decide_true, Forall_forall. intros p Hp.
    assert (retirement_acks d ≡ list_to_set (mpc_nodes s)) as Heq.
    { apply set_subseteq_size_equiv; [done|]. lia. }
    rewrite Heq. by apply elem_of_list_to_set.
  - apply bool_decide_false. rewrite Forall_forall. intros Hall.
    enough (vlen (mpc_nodes s) <= N.of_nat (size (retirement_acks d)))%N by lia. rewrite Hsize.
    enough (size (list_to_set (mpc_nodes s) : gset ClientIdentity) ≤ size (retirement_acks d)); [lia|].
    apply subseteq_size. intros p ?%elem_of_list_to_set. auto.
Qed.

Lemma retire_call_acks p s s' log d :
  live s d → rpc_retire_execution p eid s = (s', log, Ok tt) →
  ∃ d', live s' d' ∧ p ∈ retirement_acks d' ∧ mpc_nodes s' = mpc_nodes s.
Proof.
  intros Hl Hcall. pose proof (lv_wf _ _ Hl) as Hwf.
  assert (one_off_step s s') as Hstep.
  { split; [by eapply step_retire|]. unfold rpc_retire_execution in Hcall.
    destruct (negb _); [done|]. destruct (retire_execution eid p s) as [s1 r1] eqn:Hr.
    injection Hcall as <- _ _. destruct Hl as [_ Hw _ _].
    apply retire_execution_cases in Hr as [(_ & -> & _)|(_ & _ & Hr)]; [done|].
    by destruct Hr as [[_ ->]|[(_ & _ & ->)|(x & _ & _ & ->)]]. }
  destruct (one_off_step_live _ _ _ Hl Hstep) as (d' & Hl' & _ & Hn). exists d'.
  split; [done|]. split; [|done].
  assert (p ∈ mpc_nodes s) as Hp.
  { unfold rpc_retire_execution in Hcall. destruct (contains (mpc_nodes s) p) eqn:Hc; [|done].
    by apply contains_true. }
  pose proof (retire_run p eid s d Hp (lv_unsealed _ _ Hl) (lv_exec _ _ Hl)) as Hrun.
  rewrite Hcall in Hrun. simpl in Hrun. subst s'.
  pose proof (lv_exec _ _ Hl') as Hd'. rewrite put_execution_lookup in Hd'. injection Hd' as <-.
  simpl. set_solver.
Qed.
End one_off.

(** ** Claims *)

(** C33: a one-off coordinator ends cleanly.  From the moment it watches for the
    shutdown request, whatever anyone calls and however full the coordinator gets,
    its execution stays registered, and its progress is complete in exactly the
    states in which every party has acknowledged it.  So once each party's
    acknowledgement was accepted at some point of the run, in whatever order and
    with anything in between, a poll after that ends the wait without a complaint;
    when no poll sees it within the grace period, the listener is shut down all the
    same and the number of acknowledgements and parties at that time is reported. *)
Theorem one_off_ends_cleanly `{HashOrder} eid tx s0 d0 l polls at_end
    (Hwf : server_wf s0) (Hd : executions s0 !! eid = Some d0)
    (Hfresh : acks (retired s0) !! eid = None) :
  let s1 := (watch_for_shutdown_request eid tx s0).1 in
  (∀ s, rtc (one_off_step eid) s1 s → ∃ d, executions s !! eid = Some d ∧
     ((retirement_progress s eid).2 = true ↔ ∀ p, p ∈ mpc_nodes s0 → p ∈ retirement_acks d)) ∧
  (∀ s, s ∈ polls →
     (∀ p, p ∈ mpc_nodes s0 → ∃ sa sb log, rtc (one_off_step eid) s1 sa ∧
        rpc_retire_execution p eid sa = (sb, log, Ok tt) ∧ rtc (one_off_step eid) sb s) →
     start_coord_one_off (Ok l) eid polls at_end = Ok (None, shutdown_listener l)) ∧
  ((∀ s, s ∈ polls → (retirement_progress s eid).2 = false) →
     start_coord_one_off (Ok l) eid polls at_end =
       Ok (Some (retirement_progress at_end eid).1, shutdown_listener l)).
Proof.
  intros s1. assert (live eid s1 d0) as H1.
  { constructor; [|done..]. by eapply effect_wf, step_effect, (step_watch s0 eid tx). }
  split_and!.
  - intros s Hr. destruct (one_off_run_live _ _ _ _ H1 Hr) as (d & Hl & _ & Hn).
    exists d. split; [apply Hl|]. rewrite (live_progress _ _ _ Hl). simpl. rewrite Hn.
    rewrite bool_decide_eq_true, Forall_forall. done.
  - intros s Hin Hall. unfold start_coord_one_off. simpl.
    rewrite (proj2 (drain_None eid polls at_end)); [done|]. exists s. split; [done|].
    assert (∃ d, live eid s d ∧ mpc_nodes s = mpc_nodes s0) as (d & Hl & Hn).
    { destruct (mpc_nodes s0) as [|p ps] eqn:Hps.
      { destruct (sw_topology s0 Hwf) as [Hc Ht _ _]. rewrite Hps in Hc. unfold vlen in Hc. simpl in Hc. lia. }
      destruct (Hall p ltac:(left)) as (sa & sb & log & Ha & Hc & Hb).
      destruct (one_off_run_live _ _ _ _ H1 Ha) as (da & Hla & _ & Hna).
      destruct (retire_call_acks _ _ _ _ _ _ Hla Hc) as (db & Hlb & _ & Hnb).
      destruct (one_off_run_live _ _ _ _ Hlb Hb) as (d & Hl & _ & Hn).
      exists d. split; [done|]. rewrite Hn, Hnb, Hna. exact Hps. }
    rewrite (live_progress _ _ _ Hl). simpl. apply bool_decide_true, Forall_forall. rewrite Hn.
    intros p (sa & sb & log & Ha & Hc & Hb)%Hall.
    destruct (one_off_run_live _ _ _ _ H1 Ha) as (da & Hla & _ & _).
    destruct (retire_call_acks _ _ _ _ _ _ Hla Hc) as (db & Hlb & Hp & _).
    destruct (one_off_run_live _ _ _ _ Hlb Hb) as (d' & Hl' & Hle & _).
    pose proof (lv_exec _ _ _ Hl') as He. rewrite (lv_exec _ _ _ Hl) in He. injection He as <-.
    by apply (le_acks _ _ Hle).
  - intros Hno. unfold start_coord_one_off. simpl.
    destruct (drain_Some eid polls at_end) as [Hn|Hn]; [|by rewrite Hn].
    apply drain_None in Hn as (x & Hx & Hc). rewrite Hno in Hc by done. done.
Qed.

(** ** Witness: the parties acknowledge one after the other *)

Lemma retire_call_step `{HashOrder} eid p s d :
  live eid s d → p ∈ mpc_nodes s →
  rpc_retire_execution p eid s = ((rpc_retire_execution p eid s).1.1, [], Ok tt) ∧
  one_off_step eid s (rpc_retire_execution p eid s).1.1.
Proof.
  intros [Hwf Hw Hd Hn] Hp. pose proof (retire_run p eid s d Hp Hn Hd) as Hrun. split.
  - unfold rpc_retire_execution in *. rewrite (proj2 (contains_true _ _) Hp) in *. simpl in *.
    destruct (retire_execution eid p s) as [s' r] eqn:Hr. simpl in *. subst s'.
    apply retire_execution_cases in Hr as [(? & _)|(_ & -> & _)]; done.
  - split; [eapply step_retire, outcome_eta|]. by rewrite Hrun.
Qed.

Lemma retire_all_run `{HashOrder} eid ps s d :
  live eid s d → (∀ p, p ∈ ps → p ∈ mpc_nodes s) →
  rtc (one_off_step eid) s (retire_all eid ps s) ∧
  ∀ p, p ∈ ps → ∃ sa sb log, rtc (one_off_step eid) s sa ∧
    rpc_retire_execution p eid sa = (sb, log, Ok tt) ∧ rtc (one_off_step eid) sb (retire_all eid ps s).
Proof.
  revert s d. induction ps as [|q ps IH]; intros s d Hl Hin.
  { split; [apply rtc_refl|]. by intros p ?%elem_of_nil. }
  destruct (retire_call_step eid q s d Hl) as [Hcall Hstep]; [apply Hin; left|].
  destruct (one_off_step_live _ _ _ _ Hl Hstep) as (d' & Hl' & _ & Hn).
  destruct (IH _ d' Hl') as [Hr Hall]; [rewrite Hn; intros ? ?; apply Hin; by right|].
  split; [by eapply rtc_l|]. intros p [->|Hp]%elem_of_cons.
  - eexists _, _, _. split; [apply rtc_refl|]. split; [exact Hcall|exact Hr].
  - destruct (Hall p Hp) as (sa & sb & log & H1 & H2 & H3). exists sa, sb, log.
    split; [by eapply rtc_l|]. done.
Qed.

Definition sample_watched : Server := (watch_for_shutdown_request sample_eid 9 sample_start).1.

Lemma one_off_ends_cleanly_witness :
  start_coord_one_off (Ok (mkListener true 1%positive ∅)) sample_eid
    [sample_watched; retire_all sample_eid [party3; party1; party4; party2] sample_watched] sample_start =
    Ok (None, shutdown_listener (mkListener true 1%positive ∅)).
Proof.
  assert (executions sample_start !! sample_eid = Some (sample_get sample_start)) as Hd
    by (apply sample_get_Some; by vm_compute).
  assert (server_wf sample_start) as Hwf by (apply reachable_wf, sample_start_reachable).
  assert ([party3; party1; party4; party2] ≡ₚ parties) as Hperm by (unfold parties; solve_Permutation).
  destruct (one_off_ends_cleanly sample_eid 9 sample_start (sample_get sample_start)
    (mkListener true 1%positive ∅)
    [sample_watched; retire_all sample_eid [party3; party1; party4; party2] sample_watched] sample_start
    Hwf Hd eq_refl) as (_ & Hend & _).
  eapply Hend; [right; left|]. change (mpc_nodes sample_start) with parties. intros p Hp.
  assert (live sample_eid sample_watched (sample_get sample_start)) as Hl.
  { constructor; [by eapply effect_wf, step_effect, (step_watch sample_start sample_eid 9)|done|exact Hd|done]. }
  apply (retire_all_run sample_eid [party3; party1; party4; party2] sample_watched _ Hl).
  - change (mpc_nodes sample_watched) with parties. intros q Hq. by rewrite <-Hperm.
  - by rewrite Hperm.
Defined.
