(* ===== verification/Deploy.v ===== *)
(** What is deployed for a program: the arguments of the coordinator contract
    (src/crates/bins/src/bin/deploy-contract.rs), and that they agree with what the
    off-chain coordinator registers for the same program.  Reading the program, the
    connection to the Ethereum node and the transaction belong to other crates. *)
From S2P Require Import Prelude Shared Execution Samples Rounds Sessions Server Rpc ServerSamples.
From S2P Require Import Invariant History Topology Machine Inputs Registry RunCoord RunCoordFacts.

(** [as u32], and the wrapping sum of [iter().sum::<u32>()]. *)
Definition as_u32 (x : N) : u32 := (x mod u32_modulus)%N.
Definition u32_sum (l : list u32) : u32 := foldl (fun a x => (a + x) mod u32_modulus)%N 0%N l.

Section deploy.
Context {ShareType Address : Type}.
Context (serialize : Program ShareType → option bytes) (keccak256 : bytes → bytes).
Context (address_from_str : string → option Address).

Definition program_hash (binary : Program ShareType) : result CoordinatorError bytes :=
  bs ← expect (serialize binary);
  Ok (keccak256 bs).

Record DeployArgs : Type := mkDeployArgs {
  da_nodes : list string;
  da_output_clients : list string;
  da_t : u32;
  da_program : Program ShareType }.

(** The arguments of [FakeCoordinator::deploy]. *)
Record Deployment : Type := mkDeployment {
  dep_hash : bytes;
  dep_t : N;
  dep_nodes : list Address;
  dep_n_inputs : N;
  dep_output_clients : list Address;
  dep_threshold : N }.

Definition manifest_inputs (binary : Program ShareType) : u32 :=
  u32_sum ((fun client => as_u32 (vlen (inputs client))) <$> manifest_clients binary).
Definition manifest_output_clients (binary : Program ShareType) : usize :=
  vlen (filter (fun client => outputs client ≠ []) (manifest_clients binary)).

(** [main], up to the transaction; a failed [expect] or [assert_eq!] panics. *)
Definition deployment (args : DeployArgs) : result CoordinatorError Deployment :=
  let binary := da_program args in
  hash ← program_hash binary;
  nodes ← try_map (fun s => expect (address_from_str s)) (da_nodes args);
  output_clients ← try_map (fun s => expect (address_from_str s)) (da_output_clients args);
  _ ← assert (vlen output_clients =? manifest_output_clients binary)%N;
  Ok (mkDeployment hash (da_t args) nodes (manifest_inputs binary) output_clients
        (min_shares (mpc_backend binary) (da_t args))).
End deploy.

(** ** Sums over a manifest *)

Definition total (l : list N) : N := foldr N.add 0%N l.

#[export] Instance total_perm : Proper ((≡ₚ) ==> (=)) total.
Proof. intros l l' Hp. induction Hp; simpl; lia. Qed.

Lemma total_nonzero (l : list N) : total (filter (fun x => x ≠ 0%N) l) = total l.
Proof.
  induction l as [|x l IH]; [done|]. rewrite filter_cons. simpl. case_decide; simpl; rewrite IH; lia.
Qed.

Lemma total_elem l x : x ∈ l → (x <= total l)%N.
Proof. induction l as [|y l IH]; [by intros ?%elem_of_nil|]. intros [->|Hx]%elem_of_cons; simpl; [lia|]. specialize (IH Hx). lia. Qed.

Lemma u32_sum_total l : (total l < u32_modulus)%N → u32_sum (as_u32 <$> l) = total l.
Proof.
  unfold u32_sum. assert (∀ a l, (a + total l < u32_modulus)%N →
    foldl (fun a x => (a + x) mod u32_modulus)%N a (as_u32 <$> l) = (a + total l)%N) as Hall.
  { clear l. intros a l. revert a. induction l as [|x l IH]; intros a Ha; simpl in *; [lia|].
    assert (as_u32 x = x) as -> by (apply N.mod_small; lia).
    rewrite N.mod_small by lia. rewrite IH; lia. }
  intros Hl. rewrite Hall; lia.
Qed.

Lemma u64_sum_total l : (total l < u64_modulus)%N → u64_sum l = total l.
Proof. intros Hl. rewrite u64_sum_mod. by apply N.mod_small. Qed.

Section agreement.
Context {ShareType : Type}.
Implicit Types (manifest : list (ClientIoSchema ShareType)).

(** Slot, number of inputs and number of outputs: of a schema, and of a bound client. *)
Definition schema_counts (x : ClientIoSchema ShareType) : u64 * u64 * u64 :=
  (client_slot x, vlen (inputs x), vlen (outputs x)).
Definition bound_counts (x : ClientIdentity * u64 * u64 * u64) : u64 * u64 * u64 :=
  (x.1.1.2, x.1.2, x.2).

(** Bound clients are the manifest's schemas, in the order of the bindings. *)
Lemma bound_counts_perm manifest (bindings : list (u64 * ClientIdentity)) bound :
  NoDup (client_slot <$> manifest) → bindings.*1 ≡ₚ client_slot <$> manifest →
  Forall2 (bound_by manifest) bindings bound →
  bound_counts <$> bound ≡ₚ schema_counts <$> manifest.
Proof.
  intros Hnd Hp Hf.
  assert (((fun x => x.1.1) <$> (bound_counts <$> bound)) = bindings.*1) as Hkeys.
  { clear Hp. induction Hf as [|b x bs new (schema & _ & _ & ->) _ IH]; [done|].
    rewrite !fmap_cons. by f_equal. }
  apply submseteq_length_Permutation.
  - apply NoDup_submseteq.
    + eapply (NoDup_fmap_1 (fun x : u64 * u64 * u64 => x.1.1)). rewrite Hkeys. by rewrite Hp.
    + intros y (x & -> & Hx)%list_elem_of_fmap.
      apply list_elem_of_lookup_1 in Hx as [i Hi].
      eapply Forall2_lookup_r in Hf as (b & _ & schema & Hin & Hs & ->); [|exact Hi].
      apply list_elem_of_fmap. exists schema. split; [|done]. unfold bound_counts, schema_counts.
      simpl. by rewrite Hs.
  - apply Forall2_length in Hf. apply Permutation_length in Hp. rewrite !length_fmap in *. lia.
Qed.

Lemma laid_out_inputs bound :
  range_count <$> imap (fun i x => mkInputClientRange (N.of_nat i) x.1.2) (with_inputs bound) =
    filter (fun x => x ≠ 0%N) ((fun x => x.1.2) <$> bound).
Proof.
  transitivity ((fun x : ClientIdentity * u64 * u64 * u64 => x.1.2) <$> with_inputs bound).
  { apply list_eq. intros i. rewrite !list_lookup_fmap, list_lookup_imap.
    by destruct (with_inputs bound !! i). }
  unfold with_inputs. induction bound as [|x l IH]; [done|]. rewrite !filter_cons, fmap_cons, filter_cons.
  case_decide; [by rewrite fmap_cons, IH|done].
Qed.

End agreement.

(** ** Claims *)

Lemma length_filter_fmap {A B} (f : A → B) (P : B → Prop) `{∀ y, Decision (P y)} l :
  length (filter P (f <$> l)) = length (filter (fun x => P (f x)) l).
Proof.
  induction l as [|x l IH]; [done|]. rewrite fmap_cons, !filter_cons. case_decide; simpl; auto.
Qed.

Lemma outputs_counted {ShareType} (manifest : list (ClientIoSchema ShareType)) bound :
  bound_counts <$> bound ≡ₚ schema_counts <$> manifest →
  length (with_outputs bound) = length (filter (fun x => outputs x ≠ []) manifest).
Proof.
  intros Hp. transitivity (length (filter (fun y : u64 * u64 * u64 => y.2 ≠ 0%N) (bound_counts <$> bound))).
  - by rewrite length_filter_fmap.
  - rewrite Hp, length_filter_fmap. f_equal. apply list_filter_iff. intros x. simpl.
    unfold vlen. destruct (outputs x); simpl; split; intros; [lia|done|done|lia].
Qed.

(** The inputs and output clients of a registration that was made for a program. *)
Lemma registration_counts {ShareType} (manifest : list (ClientIoSchema ShareType)) bindings a outs :
  (vlen manifest <= u32_modulus)%N → (total ((fun x => vlen (inputs x)) <$> manifest) < u32_modulus)%N →
  build_input_assignment manifest bindings = Ok (a, outs) →
  u64_sum (range_count <$> ia_ranges a) = total ((fun x => vlen (inputs x)) <$> manifest) ∧
  vlen outs = vlen (filter (fun x => outputs x ≠ []) manifest).
Proof.
  intros Hsize Htotal Hbuild.
  apply build_input_assignment_Ok in Hbuild as (Hnd & Hp & _ & bound & Hf & Heq); [|done].
  pose proof (bound_counts_perm _ _ _ Hnd Hp Hf) as Hc. unfold laid_out in Heq. simpl in Heq.
  simplify_eq. cbn [ia_ranges]. split.
  - assert (total ((fun x => x.1.2) <$> bound) = total ((fun x => vlen (inputs x)) <$> manifest)) as Heq.
    { apply (fmap_Permutation (fun y : u64 * u64 * u64 => y.1.2)) in Hc.
      rewrite <-!list_fmap_compose in Hc. by apply total_perm. }
    rewrite laid_out_inputs, u64_sum_total, total_nonzero; [done|].
    rewrite total_nonzero, Heq. unfold u32_modulus, u64_modulus in *. lia.
  - unfold vlen. rewrite length_fmap. by rewrite (outputs_counted manifest).
Qed.

(** C39: for the same program the two coordinators are set up alike.  Whenever the
    one-off coordinator's registration for a program is made, the contract is
    deployed exactly when as many output addresses are given as the registration
    has output clients, and then with the registration's number of inputs, output
    quorum and number of output clients, provided the addresses parse, the program
    serializes, the thresholds are equal, and the program has fewer than [2^32]
    inputs, which is where the contract's 32-bit sum starts to wrap around. *)
Theorem deployment_agrees_with_one_off {ShareType Address} (serialize : Program ShareType → option bytes)
    keccak256 (address_from_str : string → option Address) (address : string → Address)
    (args : Args ShareType) (dargs : DeployArgs) one_off program reg
    (Htop : topology_ok (arg_n args) (arg_t args) (arg_mpc_nodes args))
    (Hprog : arg_program args = Some program) (Hsame : da_program dargs = program)
    (Ht : da_t dargs = arg_t args)
    (Hsize : (vlen (manifest_clients program) <= u32_modulus)%N)
    (Htotal : (total ((fun x => vlen (inputs x)) <$> manifest_clients program) < u32_modulus)%N)
    (Hreg : one_off_registration args one_off = Ok reg)
    (Hserialize : is_some (serialize program) = true)
    (Hparse : ∀ a, a ∈ da_nodes dargs ++ da_output_clients dargs → address_from_str a = Some (address a)) :
  n_inputs reg = total ((fun x => vlen (inputs x)) <$> manifest_clients program) ∧
  (is_ok (deployment serialize keccak256 address_from_str dargs) = true ↔
     vlen (da_output_clients dargs) = vlen (reg_output_clients reg)) ∧
  ∀ D, deployment serialize keccak256 address_from_str dargs = Ok D →
    dep_n_inputs D = n_inputs reg ∧ dep_threshold D = min_output_shares reg ∧
    dep_output_clients D = address <$> da_output_clients dargs ∧
    dep_nodes D = address <$> da_nodes dargs.
Proof.
  destruct (min_shares_in_roster _ _ _ (mpc_backend program) Htop) as [Hmin _].
  unfold one_off_registration in Hreg. rewrite Hprog in Hreg.
  apply bind_Ok_inv in Hreg as ([[[b a] outs] k] & Hlay & Hreg).
  apply bind_Ok_inv in Hlay as (bindings & _ & Hlay).
  apply bind_Ok_inv in Hlay as ([a' outs'] & Hbuild & Hlay).
  injection Hlay as <- <- <- <-. injection Hreg as <-. cbn [n_inputs reg_output_clients min_output_shares].
  assert (build_input_assignment (manifest_clients program) bindings = Ok (a', outs')) as Hb
    by (destruct (build_input_assignment _ _); simpl in Hbuild; congruence).
  destruct (registration_counts _ _ _ _ Hsize Htotal Hb) as [Hin Hout]. rewrite Hin, Hmin.
  unfold deployment, program_hash. rewrite Hsame, Ht.
  destruct (serialize program) as [bs|]; [|done]. cbn [expect mbind result_bind].
  rewrite !(try_map_Ok _ address) by (intros x Hx; rewrite Hparse; [done|apply elem_of_app; auto]).
  cbn [mbind result_bind].
  assert (vlen (address <$> da_output_clients dargs) = vlen (da_output_clients dargs)) as ->
    by (unfold vlen; by rewrite length_fmap).
  assert (manifest_output_clients program = vlen outs') as -> by done.
  split; [done|]. unfold assert.
  destruct (_ =? _)%N eqn:Heq; reflect_bool; (split; [|intros D [= <-]]); try (split; done).
  cbn [dep_n_inputs dep_threshold dep_output_clients dep_nodes]. split_and!; try done.
  rewrite <-u32_sum_total by done. unfold manifest_inputs. by rewrite <-list_fmap_compose.
Qed.

Definition sample_deployment : DeployArgs (ShareType := unit) :=
  mkDeployArgs ["0x01"; "0x02"; "0x03"; "0x04"]%string ["0x05"]%string 1
    (mkProgram Avss sample_manifest).
Definition sample_one_off_registration : ExecutionRegistration :=
  mkExecutionRegistration sample_eid sample_hash 3 [client1] sample_layout 2.

Lemma deployment_agrees_with_one_off_witness :
  ∃ D, deployment (fun _ => Some []) id Some sample_deployment = Ok D ∧
    dep_n_inputs D = 3%N ∧ dep_threshold D = 2%N.
Proof.
  destruct (deployment_agrees_with_one_off (fun _ => Some []) id Some id sample_args sample_deployment
    sample_one_off (mkProgram Avss sample_manifest) sample_one_off_registration)
    as (_ & Hok & Hall).
  - constructor; [done|done|done|]. apply (bool_decide_unpack _). by vm_compute.
  - reflexivity.
  - reflexivity.
  - reflexivity.
  - by vm_compute.
  - by vm_compute.
  - by vm_compute.
  - reflexivity.
  - reflexivity.
  - assert (deployment (fun _ => Some []) id Some sample_deployment =
      Ok (mkDeployment [] 1 ["0x01"; "0x02"; "0x03"; "0x04"]%string 3 ["0x05"]%string 2)) as HD by by vm_compute.
    eexists. split; [exact HD|]. destruct (Hall _ HD) as (Hn & Ht & _). split; [exact Hn|exact Ht].
Defined.
