(* ===== verification/Tls.v ===== *)
(** TLS with self-signed certificates (src/crates/coord-shared/src/self_signed_certs.rs)
    and the generation of identities (src/crates/bins/src/bin/generate-ids.rs).  The
    handshake, its signatures and the certificates themselves are rustls', ring's and
    rcgen's: the class [Rustls] lists what the source calls. *)
From S2P Require Import Prelude Shared.

Abbreviation CertificateDer := bytes.
Abbreviation PrivateKeyDer := bytes.

Class Rustls : Type := {
  TlsError : Type;
  SignatureScheme : Type;
  DigitallySignedStruct : Type;
  ServerName : Type;
  UnixTime : Type;
  DistinguishedName : Type;
  SignatureAlgorithms : Type;
  ring_algorithms : SignatureAlgorithms;
  supported_schemes : SignatureAlgorithms → list SignatureScheme;
  rustls_verify_tls12_signature :
    bytes → CertificateDer → DigitallySignedStruct → SignatureAlgorithms → result TlsError unit;
  rustls_verify_tls13_signature :
    bytes → CertificateDer → DigitallySignedStruct → SignatureAlgorithms → result TlsError unit;
  (** [with_single_cert] and [with_client_auth_cert]: the key is readable and fits *)
  accept_cert : list CertificateDer → PrivateKeyDer → result TlsError unit }.

(** What [rcgen::generate_simple_self_signed] yields. *)
Record CertifiedKey : Type := mkCertifiedKey {
  ck_cert : CertificateDer;
  ck_key : PrivateKeyDer }.

Section tls.
Context `{Rustls}.

(** ** Verifiers *)

(** The traits a TLS endpoint checks its peer through. *)
Record ClientCertVerifier : Type := mkClientCertVerifier {
  root_hint_subjects : list DistinguishedName;
  verify_client_cert : CertificateDer → list CertificateDer → UnixTime → result TlsError unit;
  client_verify_tls12_signature :
    bytes → CertificateDer → DigitallySignedStruct → result TlsError unit;
  client_verify_tls13_signature :
    bytes → CertificateDer → DigitallySignedStruct → result TlsError unit;
  client_supported_verify_schemes : list SignatureScheme }.

Record ServerCertVerifier : Type := mkServerCertVerifier {
  verify_server_cert :
    CertificateDer → list CertificateDer → ServerName → bytes → UnixTime → result TlsError unit;
  server_verify_tls12_signature :
    bytes → CertificateDer → DigitallySignedStruct → result TlsError unit;
  server_verify_tls13_signature :
    bytes → CertificateDer → DigitallySignedStruct → result TlsError unit;
  server_supported_verify_schemes : list SignatureScheme }.

Definition SelfSignedClientVerifier : ClientCertVerifier := {|
  root_hint_subjects := [];
  verify_client_cert _ _ _ := Ok tt;
  client_verify_tls12_signature message cert dss :=
    rustls_verify_tls12_signature message cert dss ring_algorithms;
  client_verify_tls13_signature message cert dss :=
    rustls_verify_tls13_signature message cert dss ring_algorithms;
  client_supported_verify_schemes := supported_schemes ring_algorithms |}.

Definition SelfSignedServerVerifier : ServerCertVerifier := {|
  verify_server_cert _ _ _ _ _ := Ok tt;
  server_verify_tls12_signature message cert dss :=
    rustls_verify_tls12_signature message cert dss ring_algorithms;
  server_verify_tls13_signature message cert dss :=
    rustls_verify_tls13_signature message cert dss ring_algorithms;
  server_supported_verify_schemes := supported_schemes ring_algorithms |}.

(** ** Configurations *)

Record ServerConfig : Type := mkServerConfig {
  sc_verifier : ClientCertVerifier;
  sc_certs : list CertificateDer;
  sc_key : PrivateKeyDer }.

(** How a client checks the server: against roots, or by a verifier of its own. *)
Inductive ServerVerification : Type :=
  | RootCertificates (roots : list CertificateDer)
  | CustomVerifier (v : ServerCertVerifier).

Record ClientConfig : Type := mkClientConfig {
  cc_verifier : ServerVerification;
  cc_certs : list CertificateDer;
  cc_key : PrivateKeyDer }.

#[export] Instance ClientConfig_eta : Eta ClientConfig := fun c =>
  mkClientConfig (cc_verifier c) (cc_certs c) (cc_key c).

Definition server_tls_config (cert_der key_der : bytes) : result CoordinatorError ServerConfig :=
  let certs := [cert_der] in
  _ ← map_err (fun _ => TlsConfigError "{e}") (accept_cert certs key_der);
  Ok (mkServerConfig SelfSignedClientVerifier certs key_der).

Definition client_tls_config (cert_der key_der : bytes) : result CoordinatorError ClientConfig :=
  let certs := [cert_der] in
  _ ← map_err (fun _ => TlsConfigError "{e}") (accept_cert certs key_der);
  Ok (mkClientConfig (RootCertificates []) certs key_der).

(** The configuration [setup_client] connects with. *)
Definition setup_tls_config (cert_der key_der : bytes) : result CoordinatorError ClientConfig :=
  tls_config ← client_tls_config cert_der key_der;
  Ok (tls_config <| cc_verifier := CustomVerifier SelfSignedServerVerifier |>).
End tls.

(** [setup_client]; [addr] and [port] are used by the connection attempts, whose
    outcomes are arguments: TCP, the server's name, the handshake, the URL and the
    WebSocket. *)
Definition setup_client `{Rustls} {TlsStream Client : Type} (tcp domain : option unit)
    (handshake : ClientConfig → option TlsStream) (url : option unit)
    (build_with_stream : TlsStream → option Client) (cert_der key_der : bytes)
    : result CoordinatorError Client :=
  tls_config ← setup_tls_config cert_der key_der;
  _ ← ok_or tcp (ConnectError "{e}");
  _ ← ok_or domain (ConnectError "{e}");
  tls_stream ← ok_or (handshake tls_config) (ConnectError "{e}");
  _ ← ok_or url (ConnectError "{e}");
  ok_or (build_with_stream tls_stream) (ConnectError "{e}").

(** ** Certificates *)

Section certs.
Context (generate_simple_self_signed : list string → option CertifiedKey).

Definition server_cert : result CoordinatorError CertifiedKey :=
  expect (generate_simple_self_signed ["localhost"; "127.0.0.1"]%string).

Definition client_cert : result CoordinatorError CertifiedKey :=
  expect (generate_simple_self_signed ["client"]%string).

(** The files of the machine, and the paths that can be written. *)
Abbreviation Files := (gmap string bytes).

Record IdArgs : Type := mkIdArgs {
  ia_cert : string;
  ia_key : string;
  ia_subject_alt_names : list string }.

(** [std::fs::write] *)
Definition fs_write (writable : string → bool) (path : string) (contents : bytes) (fs : Files)
    : option Files :=
  if writable path then Some (<[path := contents]> fs) else None.

(** [main] of generate-ids: whatever fails panics; the files written before stay. *)
Definition generate_ids (writable : string → bool) (args : IdArgs) (fs : Files)
    : Files * result CoordinatorError unit :=
  match generate_simple_self_signed (ia_subject_alt_names args) with
  | None => (fs, Panic)
  | Some cert =>
      match fs_write writable (ia_cert args) (ck_cert cert) fs with
      | None => (fs, Panic)
      | Some fs =>
          match fs_write writable (ia_key args) (ck_key cert) fs with
          | None => (fs, Panic)
          | Some fs => (fs, Ok tt)
          end
      end
  end.
End certs.
