(* ===== verification/Startup.v ===== *)
(** Start and end of the processes: the listeners of a coordinator and of a node,
    the connections of a client, and what the coordinator's [main] reads from its
    arguments (src/crates/off-chain/src/lib.rs, [OffChainCoordinatorServer],
    [NodeRPCServer], [NodeRPCClient]; src/crates/on-chain/src/lib.rs;
    src/crates/bins/src/bin/run-coord.rs).  Files, sockets and certificates are
    arguments. *)
From S2P Require Import Prelude Shared Execution Sessions Server Rpc NodeRpc OnChain Listener RunCoord.
From S2P Require Import Coordinator.

(** ** The listeners of a process *)

(** The listeners a process has started, by handle. *)
Abbreviation Handle := positive.
Abbreviation Process := (gmap Handle Listener).

(** [start_coord] and [start_coord_browser_tls]. *)
Definition start_listening (tls_config : result CoordinatorError unit) (bind : option unit) (p : Process)
    : Process * result CoordinatorError Handle :=
  match start_listener tls_config bind with
  | Ok l => (<[fresh (dom p) := l]> p, Ok (fresh (dom p)))
  | Err e => (p, Err e)
  | Panic => (p, Panic)
  end.

(** [RPCServerHandle::shutdown], and [Drop for RPCServerHandle]: both end the accept
    loop and with it the connections. *)
Definition shutdown_handle (k : Handle) (p : Process) : Process := alter shutdown_listener k p.
Definition drop_handle (k : Handle) (p : Process) : Process := alter shutdown_listener k p.

(** The handles an [OffChainCoordinatorServer] or a [NodeRPCServer] owns. *)
Record ServerHandles : Type := mkServerHandles {
  server_handle : Handle;
  browser_handle : option Handle }.

(** [OffChainCoordinatorServer::start_coord] *)
Definition start_server (tls : result CoordinatorError unit) (bind : option unit) (p : Process)
    : Process * result CoordinatorError ServerHandles :=
  let '(p, r) := start_listening tls bind p in
  (p, (fun k => mkServerHandles k None) <$> r).

(** [start_coord_with_browser_tls]: when the second listener
    does not start, [?] drops the handle of the first. *)
Definition start_with_browser_tls (tls browser_tls : result CoordinatorError unit)
    (bind browser_bind : option unit) (p : Process) : Process * result CoordinatorError ServerHandles :=
  match start_listening tls bind p with
  | (p, Ok k) =>
      match start_listening browser_tls browser_bind p with
      | (p, Ok k') => (p, Ok (mkServerHandles k (Some k')))
      | (p, Err e) => (drop_handle k p, Err e)
      | (p, Panic) => (drop_handle k p, Panic)
      end
  | (p, Err e) => (p, Err e)
  | (p, Panic) => (p, Panic)
  end.

(** [OffChainCoordinatorServer::shutdown] *)
Definition shutdown_server (s : ServerHandles) (p : Process) : Process :=
  let p := match browser_handle s with Some k => shutdown_handle k p | None => p end in
  shutdown_handle (server_handle s) p.

(** [NodeRPCServer::start], [start_with_browser_tls] and [shutdown]: the same
    listeners, over a new node state. *)
Definition node_start (tls : result CoordinatorError unit) (bind : option unit) (p : Process)
    : Process * result CoordinatorError (ServerHandles * NodeRPCServerInternal) :=
  let '(p, r) := start_server tls bind p in
  (p, (fun server => (server, new_node_server)) <$> r).

Definition node_start_with_browser_tls (tls browser_tls : result CoordinatorError unit)
    (bind browser_bind : option unit) (p : Process)
    : Process * result CoordinatorError (ServerHandles * NodeRPCServerInternal) :=
  let '(p, r) := start_with_browser_tls tls browser_tls bind browser_bind p in
  (p, (fun server => (server, new_node_server)) <$> r).

Definition node_shutdown (server : ServerHandles * NodeRPCServerInternal) (p : Process) : Process :=
  shutdown_server server.1 p.

(** [NodeRPCServer::start_for_execution]: a refused execution drops the server. *)
Definition start_for_execution (tls : result CoordinatorError unit) (bind : option unit)
    (eid : ExecutionId) (p : Process)
    : Process * result CoordinatorError (ServerHandles * NodeRPCServerInternal) :=
  match node_start tls bind p with
  | (p, Ok (server, d)) =>
      match node_register_execution eid d with
      | (d, Ok _) => (p, Ok (server, d))
      | (_, Err e) => (drop_handle (server_handle server) p, Err e)
      | (_, Panic) => (drop_handle (server_handle server) p, Panic)
      end
  | (p, Err e) => (p, Err e)
  | (p, Panic) => (p, Panic)
  end.

(** The on-chain node's [start]: the base nonce comes from the contract; whatever
    fails panics. *)
Definition chain_node_start {Share} (base_nonce : option U256) (tls : result CoordinatorError unit)
    (bind : option unit) (p : Process)
    : Process * result CoordinatorError (Handle * @NodeRPCServerShared Share) :=
  match expect (E := CoordinatorError) base_nonce ≫= fun nonce => expect (u256_to_u64 nonce) with
  | Ok nonce =>
      let '(p, r) := start_listening tls bind p in
      (p, expect_ok ((fun k => (k, new_chain_node nonce)) <$> r))
  | _ => (p, Panic)
  end.

(** ** The connections of a client *)

(** [start_rpc_client_for_execution] of [NodeRPCClient]: one connection per node, all
    attempted; the first failure in the order of the nodes is reported.  The on-chain
    client panics instead. *)
Definition connect_nodes {A Client : Type} (setup : A → result CoordinatorError Client) (addrs : list A)
    : result CoordinatorError (list Client) := try_map id (setup <$> addrs).
Definition chain_connect_nodes {A Client : Type} (setup : A → result CoordinatorError Client)
    (addrs : list A) : result CoordinatorError (list Client) := expect_ok (connect_nodes setup addrs).

(** [start_rpc_client_for_execution] of [OffChainCoordinatorClient] on the outcome of
    [setup_client]; the connection is the identity it authenticates, and the private
    key also opens the outputs later. *)
Definition start_coordinator_client
    (setup_client : bytes → bytes → result CoordinatorError ClientIdentity) (t n_parties n_outputs : u64)
    (eid : ExecutionId) (cert_der key_der : bytes) : result CoordinatorError OffChainCoordinatorClient :=
  rpc_coord ← setup_client cert_der key_der;
  Ok (mkOffChainClient rpc_coord eid t n_parties n_outputs key_der).

(** ** Arguments of the coordinator *)

(** [str::parse::<u64>]: an optional plus sign and at least one decimal digit,
    without overflow. *)
Definition digit_of (c : Ascii.ascii) : option N :=
  let k := Ascii.N_of_ascii c in
  if ((48 <=? k) && (k <=? 57))%N then Some (k - 48)%N else None.

Fixpoint parse_digits (s : string) (acc : N) : option N :=
  match s with
  | EmptyString => Some acc
  | String c s =>
      d ← digit_of c;
      if (acc * 10 + d <? u64_modulus)%N then parse_digits s (acc * 10 + d)%N else None
  end.

Definition PLUS : Ascii.ascii := Ascii.ascii_of_N 43.
Definition EQUALS : Ascii.ascii := Ascii.ascii_of_N 61.

Definition parse_u64 (s : string) : option u64 :=
  match s with
  | EmptyString => None
  | String c rest =>
      if Ascii.eqb c PLUS then
        match rest with EmptyString => None | _ => parse_digits rest 0 end
      else parse_digits s 0
  end.

Section main.
Context (read : string → option bytes) (subject_public_key : bytes → option bytes).

(** The closure [parse_public_keys] of [main]. *)
Definition parse_public_keys (cert_files : list string) : result CoordinatorError (list ClientIdentity) :=
  try_map (fun cert_file =>
    cert_der ← expect (read cert_file);
    expect (subject_public_key cert_der)) cert_files.

(** The closure [binding_keys]. *)
Definition binding_key (binding : string) : result CoordinatorError (u64 * ClientIdentity) :=
  parts ← expect (split_once EQUALS binding);
  slot ← expect (parse_u64 parts.1);
  keys ← parse_public_keys [parts.2];
  key ← expect (head keys);
  Ok (slot, key).
Definition binding_keys (bindings : list string) : result CoordinatorError (list (u64 * ClientIdentity)) :=
  try_map binding_key bindings.

(** The browser options, and what [main] makes of them. *)
Record BrowserArgs : Type := mkBrowserArgs {
  browser_addr : option string;
  browser_port : N;
  browser_tls_cert_chain : option string;
  browser_tls_key : option string;
  webauthn_rp_id : option string;
  client_cert_dir : option string;
  client_credential_id_dir : option string }.

Record BrowserTls : Type := mkBrowserTls {
  bt_addr : string;
  bt_port : N;
  bt_cert_chain_pem : bytes;
  bt_key_pem : bytes;
  bt_rp_id : string;
  bt_credential_id_dirs : option (string * string) }.

Definition browser_tls (one_off : option OneOff) (b : BrowserArgs)
    : result CoordinatorError (option BrowserTls) :=
  _ ← assert (negb (is_some (browser_addr b)) || negb (is_some one_off));
  match browser_addr b with
  | None => Ok None
  | Some addr =>
      chain ← expect (browser_tls_cert_chain b);
      cert_chain_pem ← expect (read chain);
      key ← expect (browser_tls_key b);
      key_pem ← expect (read key);
      rp_id ← expect (webauthn_rp_id b);
      let dirs := match client_cert_dir b, client_credential_id_dir b with
                  | Some cert_dir, Some credential_id_dir => Some (cert_dir, credential_id_dir)
                  | _, _ => None
                  end in
      Ok (Some (mkBrowserTls addr (browser_port b) cert_chain_pem key_pem rp_id dirs))
  end.

(** The command line as text: files by name, bindings unread. *)
Record RawArgs : Type := mkRawArgs {
  ra_one_off : option OneOff;
  ra_mpc_nodes : list string;
  ra_server_cert : string;
  ra_server_key : string;
  ra_n : u64;
  ra_t : u64;
  ra_n_inputs : option u64;
  ra_output_clients : list string;
  ra_program : option string;
  ra_client_bindings : list string;
  ra_backend : MpcBackend;
  ra_browser : BrowserArgs }.

(** The files [main] reads; whatever is missing or malformed panics.  The program and
    the bindings are only looked at for a one-off coordinator. *)
Definition read_args {ShareType} (load_from_file : string → option (Program ShareType)) (raw : RawArgs)
    : result CoordinatorError (Args ShareType * option BrowserTls) :=
  public_keys ← parse_public_keys (ra_mpc_nodes raw);
  output_client_keys ← parse_public_keys (ra_output_clients raw);
  _ ← expect (read (ra_server_cert raw));
  _ ← expect (read (ra_server_key raw));
  tls ← browser_tls (ra_one_off raw) (ra_browser raw);
  '(program, bindings) ←
    match ra_one_off raw, ra_program raw with
    | Some _, Some path =>
        program ← expect (load_from_file path);
        bindings ← binding_keys (ra_client_bindings raw);
        Ok (Some program, bindings)
    | _, _ => Ok (None, [])
    end;
  Ok (mkArgs (ra_one_off raw) public_keys (ra_n raw) (ra_t raw) (ra_n_inputs raw) output_client_keys
        program bindings (ra_backend raw), tls).

(** [run_coord]: the listeners of a standing coordinator. *)
Definition run_coord (browser : option BrowserTls) (tls browser_config : result CoordinatorError unit)
    (bind browser_bind : option unit) (p : Process) : Process * result CoordinatorError ServerHandles :=
  let '(p, r) := match browser with
                 | Some _ => start_with_browser_tls tls browser_config bind browser_bind p
                 | None => start_server tls bind p
                 end in
  (p, expect_ok r).

(** [run_coord_one_off]: the shutdown request is watched before the listener starts;
    [polls] and [at_end] are the states the drain loop sees. *)
Definition run_coord_one_off (eid : ExecutionId) (tx : positive) (tls : result CoordinatorError unit)
    (bind : option unit) (polls : list Server) (at_end : Server) (s : Server)
    : Server * result CoordinatorError (option (usize * usize) * Listener) :=
  let s := (watch_for_shutdown_request eid tx s).1 in
  (s, expect_ok (start_coord_one_off (start_listener tls bind) eid polls at_end)).
End main.
