(* ===== verification/StartupFacts.v ===== *)
(** What starting and stopping leaves behind, and how a client binding is read. *)
From S2P Require Import Prelude Shared Execution Samples Sessions Server NodeRpc Listener RunCoord.
From S2P Require Import Startup.
From stdpp Require Import pretty.

(** ** Listeners *)

(** The handles whose listener accepts connections. *)
Definition running (p : Process) (k : Handle) : Prop := accepting <$> p !! k = Some true.

(** Listeners of [p'] in addition to those of [p]. *)
Definition started (ks : list Handle) (p p' : Process) : Prop :=
  ∀ j, running p' j ↔ running p j ∨ j ∈ ks.

Lemma start_listening_cases tls bind p :
  (∃ k, start_listening tls bind p = (<[k := mkListener true 1%positive ∅]> p, Ok k) ∧ p !! k = None ∧
     tls = Ok tt ∧ bind = Some tt) ∨
  (∃ r, start_listening tls bind p = (p, r) ∧ is_ok r = false ∧ ¬ (tls = Ok tt ∧ bind = Some tt)).
Proof.
  unfold start_listening, start_listener.
  destruct tls as [[]| |], bind as [[]|]; cbn; try (right; eexists; split_and!; [done..|naive_solver]).
  left. exists (fresh (dom p)). split_and!; [done| |done..]. apply not_elem_of_dom, is_fresh.
Qed.

Lemma running_insert k l p j : p !! k = None → accepting l = true → running (<[k := l]> p) j ↔ running p j ∨ j = k.
Proof.
  intros Hn Hl. unfold running. rewrite lookup_insert. case_decide as Heq.
  - subst j. rewrite Hn. simpl. rewrite Hl. naive_solver.
  - naive_solver.
Qed.

Lemma running_shutdown k p j : running (shutdown_handle k p) j ↔ running p j ∧ j ≠ k.
Proof.
  unfold running, shutdown_handle. rewrite lookup_alter. case_decide as Heq.
  - subst j. destruct (p !! k); simpl; naive_solver.
  - naive_solver.
Qed.

(** The new listener of a server that gives up again. *)
Lemma running_dropped k l p j :
  p !! k = None → accepting l = true → running (drop_handle k (<[k := l]> p)) j ↔ running p j.
Proof.
  intros Hn Hl. rewrite (running_shutdown k). rewrite running_insert by done.
  split; [naive_solver|]. intros Hr. split; [by left|]. intros ->. unfold running in Hr. by rewrite Hn in Hr.
Qed.

(** ** Arguments *)

Lemma digit_of_pretty x : (x < 10)%N → digit_of (pretty_N_char x) = Some x.
Proof.
  intros Hx.
  assert (x = 0 ∨ x = 1 ∨ x = 2 ∨ x = 3 ∨ x = 4 ∨ x = 5 ∨ x = 6 ∨ x = 7 ∨ x = 8 ∨ x = 9)%N as Hc by lia.
  by destruct Hc as [->|[->|[->|[->|[->|[->|[->|[->|[->| ->]]]]]]]]].
Qed.

Lemma parse_digits_pretty x s :
  (x < u64_modulus)%N → parse_digits (pretty_N_go x s) 0 = parse_digits s x.
Proof.
  revert s. induction (N.lt_wf_0 x) as [x _ IH]; intros s Hx.
  destruct (decide (x = 0%N)) as [->|Hne]; [by rewrite pretty_N_go_0|].
  rewrite pretty_N_go_step by lia.
  assert (x `div` 10 < x)%N as Hlt by (apply N.div_lt; lia).
  rewrite IH by lia. cbn [parse_digits].
  rewrite digit_of_pretty by (apply N.mod_lt; lia). cbn [mbind option_bind].
  assert (x `div` 10 * 10 + x `mod` 10 = x)%N as -> by (pose proof (N.div_mod x 10); lia).
  by rewrite (proj2 (N.ltb_lt _ _) Hx).
Qed.

Lemma pretty_char_not x c : (x < 10)%N → digit_of c = None → Ascii.eqb (pretty_N_char x) c = false.
Proof.
  intros Hx%digit_of_pretty Hc. destruct (Ascii.eqb_spec (pretty_N_char x) c) as [<-|]; congruence.
Qed.

Lemma pretty_N_go_app x s t : pretty_N_go x s +:+ t = pretty_N_go x (s +:+ t).
Proof.
  revert s. induction (N.lt_wf_0 x) as [x _ IH]; intros s.
  destruct (decide (x = 0%N)) as [->|Hne]; [by rewrite !pretty_N_go_0|].
  rewrite !(pretty_N_go_step x) by lia. rewrite IH by (apply N.div_lt; lia). done.
Qed.

(** Digits are never a separator. *)
Lemma split_once_pretty c x s a b :
  digit_of c = None → split_once c s = Some (a, b) →
  split_once c (pretty_N_go x s) = Some (pretty_N_go x a, b).
Proof.
  intros Hc. revert s a. induction (N.lt_wf_0 x) as [x _ IH]; intros s a Hs.
  destruct (decide (x = 0%N)) as [->|Hne]; [by rewrite !pretty_N_go_0|].
  rewrite !(pretty_N_go_step x) by lia. apply IH; [apply N.div_lt; lia|]. cbn [split_once].
  rewrite pretty_char_not by (done || (apply N.mod_lt; lia)). by rewrite Hs.
Qed.

(** A text that begins with a digit has no sign. *)
Definition begins_with_digit (s : string) : Prop :=
  ∃ x rest, (x < 10)%N ∧ s = String (pretty_N_char x) rest.

Lemma begins_with_digit_go x s : begins_with_digit s → begins_with_digit (pretty_N_go x s).
Proof.
  revert s. induction (N.lt_wf_0 x) as [x _ IH]; intros s Hs.
  destruct (decide (x = 0%N)) as [->|Hne]; [by rewrite pretty_N_go_0|].
  rewrite pretty_N_go_step by lia. apply IH; [apply N.div_lt; lia|].
  eexists _, _. split; [|done]. apply N.mod_lt. lia.
Qed.

Lemma parse_u64_unsigned s : begins_with_digit s → parse_u64 s = parse_digits s 0.
Proof.
  intros (x & rest & Hx & ->). unfold parse_u64. by rewrite pretty_char_not.
Qed.

Lemma parse_u64_pretty (x : N) : (x < u64_modulus)%N → parse_u64 (pretty x) = Some x.
Proof.
  intros Hx. unfold pretty, pretty_N. case_decide as Hz; [by subst x|].
  rewrite parse_u64_unsigned.
  - by rewrite parse_digits_pretty.
  - rewrite pretty_N_go_step by lia. apply begins_with_digit_go. eexists _, _. split; [|done].
    apply N.mod_lt. lia.
Qed.

Lemma split_once_binding (x : N) file :
  split_once EQUALS (pretty x +:+ String EQUALS file) = Some (pretty x, file).
Proof.
  unfold pretty, pretty_N. case_decide as Hz; [done|].
  rewrite pretty_N_go_app. by apply split_once_pretty.
Qed.

(** ** Claims *)

(** A start is all or nothing.  Starting the native and the browser listener of a
    coordinator or a node brings both up, exactly when both sets of certificates and
    both addresses are good; otherwise nothing more is listening than before, the
    native listener being taken down again when the browser's does not start.  The
    same holds for a node started for one execution, which also gives up when the
    execution's identifier is zero.  The shutdown takes down what was started and
    nothing else. *)
Theorem start_is_all_or_nothing tls browser_tls bind browser_bind eid p :
  (let '(p', r) := start_with_browser_tls tls browser_tls bind browser_bind p in
   match r with
   | Ok s => (tls = Ok tt ∧ bind = Some tt ∧ browser_tls = Ok tt ∧ browser_bind = Some tt) ∧
       (∃ k k', s = mkServerHandles k (Some k') ∧ k ≠ k' ∧ started [k; k'] p p') ∧
       started [] p (shutdown_server s p')
   | _ => ¬ (tls = Ok tt ∧ bind = Some tt ∧ browser_tls = Ok tt ∧ browser_bind = Some tt) ∧
       started [] p p'
   end) ∧
  (let '(p', r) := start_for_execution tls bind eid p in
   match r with
   | Ok (s, d) => (tls = Ok tt ∧ bind = Some tt ∧ is_zero eid = false) ∧
       (∃ k, s = mkServerHandles k None ∧ started [k] p p') ∧
       dom (node_executions d) = {[eid]} ∧ started [] p (shutdown_server s p')
   | _ => ¬ (tls = Ok tt ∧ bind = Some tt ∧ is_zero eid = false) ∧ started [] p p'
   end).
Proof.
  assert (∀ q, started [] q q) as Hrefl.
  { intros q j. split; [by left|]. by intros [?|?%elem_of_nil]. }
  split.
  - unfold start_with_browser_tls.
    destruct (start_listening_cases tls bind p) as [(k & -> & Hk & -> & ->)|(r & -> & Hr & Hno)].
    2: { destruct r; [done|..]; (split; [naive_solver|done]). }
    destruct (start_listening_cases browser_tls browser_bind (<[k := mkListener true 1%positive ∅]> p))
      as [(k' & -> & Hk' & -> & ->)|(r & -> & Hr & Hno)].
    2: { destruct r; [done|..]; (split; [naive_solver|]); intros j; rewrite running_dropped by done;
         apply (Hrefl p). }
    assert (k ≠ k') as Hne by (intros ->; by rewrite lookup_insert_eq in Hk').
    assert (p !! k' = None) as Hk2 by (by rewrite lookup_insert_ne in Hk').
    split; [done|]. split.
    + exists k, k'. split; [done|]. split; [done|]. intros j.
      rewrite running_insert, running_insert by done. set_solver.
    + intros j. unfold shutdown_server. cbn [browser_handle server_handle].
      rewrite !running_shutdown, running_insert, running_insert by done. rewrite elem_of_nil.
      split; [naive_solver|]. intros [Hj|[]].
      assert (∀ i, p !! i = None → j ≠ i) as Hfree.
      { intros i Hi ->. unfold running in Hj. by rewrite Hi in Hj. }
      split_and!; auto.
  - unfold start_for_execution, node_start, start_server.
    destruct (start_listening_cases tls bind p) as [(k & -> & Hk & -> & ->)|(r & -> & Hr & Hno)].
    2: { destruct r; [done|..]; (split; [naive_solver|done]). }
    cbn. unfold node_register_execution. destruct (is_zero eid) eqn:Hz; cbn.
    { split; [naive_solver|]. intros j. rewrite running_dropped by done. apply (Hrefl p). }
    split; [done|]. split; [|split].
    + exists k. split; [done|]. intros j. rewrite running_insert by done. set_solver.
    + set_solver.
    + intros j. unfold shutdown_server. cbn [browser_handle server_handle].
      rewrite running_shutdown, running_insert by done. rewrite elem_of_nil.
      split; [naive_solver|]. intros [Hj|[]]. split; [by left|].
      intros ->. unfold running in Hj. by rewrite Hk in Hj.
Qed.

(** The command line of a one-off coordinator is read as it was written.  When
    the files it names can be read, the bindings printed as slot and file, for slots
    that fit in 64 bits, are read back as slot and key, in the same order, and the
    parties and output clients are the keys of their files. *)
Theorem command_line_reads_back {ShareType} read subject_public_key (key : string → ClientIdentity)
    (load_from_file : string → option (Program ShareType)) raw one_off path program
    (bs : list (u64 * string))
    (Hone : ra_one_off raw = Some one_off) (Hnative : browser_addr (ra_browser raw) = None)
    (Hprogram : ra_program raw = Some path) (Hload : load_from_file path = Some program)
    (Hserver : is_some (read (ra_server_cert raw)) && is_some (read (ra_server_key raw)) = true)
    (Hbindings : ra_client_bindings raw = (fun b => pretty b.1 +:+ String EQUALS b.2) <$> bs)
    (Hslots : Forall (fun b => (b.1 < u64_modulus)%N) bs)
    (Hfiles : ∀ f, f ∈ ra_mpc_nodes raw ++ ra_output_clients raw ++ bs.*2 →
       (read f ≫= subject_public_key) = Some (key f)) :
  read_args read subject_public_key load_from_file raw =
    Ok (mkArgs (Some one_off) (key <$> ra_mpc_nodes raw) (ra_n raw) (ra_t raw) (ra_n_inputs raw)
          (key <$> ra_output_clients raw) (Some program) (prod_map id key <$> bs) (ra_backend raw), None).
Proof.
  assert (∀ fs, fs ⊆ ra_mpc_nodes raw ++ ra_output_clients raw ++ bs.*2 →
    parse_public_keys read subject_public_key fs = Ok (key <$> fs)) as Hkeys.
  { intros fs Hfs. apply try_map_Ok. intros f Hf. specialize (Hfiles f (Hfs f Hf)).
    destruct (read f) as [der|]; [|done]. cbn in Hfiles |- *. by rewrite Hfiles. }
  assert (binding_keys read subject_public_key (ra_client_bindings raw) = Ok (prod_map id key <$> bs)) as Hb.
  { rewrite Hbindings. unfold binding_keys.
    assert (∀ b, b ∈ bs → binding_key read subject_public_key (pretty b.1 +:+ String EQUALS b.2) =
      Ok (prod_map id key b)) as Hone_binding.
    { intros [slot f] Hin. unfold binding_key. cbn [fst snd]. rewrite split_once_binding.
      cbn [expect mbind result_bind fst snd].
      rewrite Forall_forall in Hslots. rewrite parse_u64_pretty by apply (Hslots _ Hin).
      cbn [expect mbind result_bind]. rewrite Hkeys; [done|].
      intros g ->%list_elem_of_singleton. rewrite !elem_of_app. right. right.
      apply list_elem_of_fmap. by exists (slot, f). }
    clear -Hone_binding. induction bs as [|b bs IH]; [done|]. rewrite !fmap_cons. cbn [try_map].
    rewrite Hone_binding by left. cbn [mbind result_bind].
    rewrite IH by (intros ? ?; apply Hone_binding; by right). done. }
  unfold read_args. rewrite !Hkeys by set_solver. cbn [mbind result_bind].
  apply andb_true_iff in Hserver as [Hc Hk].
  destruct (read (ra_server_cert raw)); [|done]. destruct (read (ra_server_key raw)); [|done].
  cbn [expect mbind result_bind]. unfold browser_tls. rewrite Hnative, Hone, Hprogram. cbn.
  rewrite Hload. cbn. rewrite Hb. done.
Qed.

(** ** Witness: a file's content is its name, and a certificate is its key *)

Definition sample_raw : RawArgs :=
  mkRawArgs (Some (mkOneOff sample_hash sample_eid)) ["a"; "b"; "c"; "d"]%string "cert" "key" 4 1 None
    ["x"]%string (Some "program"%string) ["7=x"]%string HoneyBadger
    (mkBrowserArgs None 31416 None None None None None).

Lemma command_line_reads_back_witness :
  read_args (fun f => Some (String.list_byte_of_string f)) Some (fun _ => Some (mkProgram (ShareType := unit) Avss []))
    sample_raw =
  Ok (mkArgs (Some (mkOneOff sample_hash sample_eid))
        (String.list_byte_of_string <$> ["a"; "b"; "c"; "d"]%string) 4 1 None
        [String.list_byte_of_string "x"] (Some (mkProgram Avss []))
        [(7%N, String.list_byte_of_string "x")] HoneyBadger, None).
Proof.
  apply (command_line_reads_back (ShareType := unit) (fun f => Some (String.list_byte_of_string f)) Some
    String.list_byte_of_string (fun _ => Some (mkProgram Avss [])) sample_raw
    (mkOneOff sample_hash sample_eid) "program" (mkProgram Avss []) [(7%N, "x"%string)]).
  - reflexivity.
  - reflexivity.
  - reflexivity.
  - reflexivity.
  - reflexivity.
  - reflexivity.
  - constructor; [reflexivity|constructor].
  - intros f _. reflexivity.
Defined.
