(* ===== verification/TlsFacts.v ===== *)
(** Who is admitted over TLS: exactly the holders of the key in the certificate they
    present; and the identities generate-ids makes are the identities the
    coordinator reads from its roster files and serves calls under. *)
From S2P Require Import Prelude Shared Execution Sessions Server Rpc Listener ListenerFacts.
From S2P Require Import RunCoord Startup Tls.

(** What a client shows in its handshake. *)
Record Handshake `{Rustls} : Type := mkHandshake {
  hs_tls13 : bool;
  hs_certs : list CertificateDer;
  hs_transcript : bytes;
  hs_signature : DigitallySignedStruct;
  hs_time : UnixTime }.

(** The signature check of a verifier for the version of the handshake. *)
Definition handshake_check `{Rustls} (v : ClientCertVerifier) (h : Handshake) (leaf : CertificateDer)
    : result TlsError unit :=
  (if hs_tls13 h then client_verify_tls13_signature v else client_verify_tls12_signature v)
    (hs_transcript h) leaf (hs_signature h).

(** The transcript is signed under the key of [leaf]. *)
Definition signed_by `{Rustls} (h : Handshake) (leaf : CertificateDer) : Prop :=
  (if hs_tls13 h then rustls_verify_tls13_signature else rustls_verify_tls12_signature)
    (hs_transcript h) leaf (hs_signature h) ring_algorithms = Ok tt.

(** A server that completes handshakes: it asks its verifier about the certificate
    and about the signature, and completes every handshake that is otherwise in
    order and passes both. *)
Class RustlsServer `{Rustls} : Type := {
  in_order : Handshake → Prop;
  accept_tls : ServerConfig → Handshake → result TlsError (list CertificateDer);
  accept_tls_checked cfg h certs : accept_tls cfg h = Ok certs →
    certs = hs_certs h ∧ ∃ leaf rest, certs = leaf :: rest ∧
      verify_client_cert (sc_verifier cfg) leaf rest (hs_time h) = Ok tt ∧
      handshake_check (sc_verifier cfg) h leaf = Ok tt;
  accept_tls_complete cfg h leaf rest : in_order h → hs_certs h = leaf :: rest →
    verify_client_cert (sc_verifier cfg) leaf rest (hs_time h) = Ok tt →
    handshake_check (sc_verifier cfg) h leaf = Ok tt → accept_tls cfg h = Ok (hs_certs h) }.

Section admission.
Context `{RustlsServer}.

Lemma server_tls_config_Ok cert key cfg :
  server_tls_config cert key = Ok cfg ↔
  accept_cert [cert] key = Ok tt ∧ cfg = mkServerConfig SelfSignedClientVerifier [cert] key.
Proof.
  unfold server_tls_config. destruct (accept_cert [cert] key) as [[]| |]; simpl; naive_solver.
Qed.

Lemma setup_tls_config_Ok cert key cfg :
  setup_tls_config cert key = Ok cfg ↔
  accept_cert [cert] key = Ok tt ∧
  cfg = mkClientConfig (CustomVerifier SelfSignedServerVerifier) [cert] key.
Proof.
  unfold setup_tls_config, client_tls_config.
  destruct (accept_cert [cert] key) as [[]| |]; simpl; naive_solver.
Qed.

(** The self-signed verifier admits a handshake exactly when it is signed. *)
Lemma admitted_signed cert key cfg h certs :
  server_tls_config cert key = Ok cfg → accept_tls cfg h = Ok certs →
  certs = hs_certs h ∧ ∃ leaf, head certs = Some leaf ∧ signed_by h leaf.
Proof.
  intros [_ ->]%server_tls_config_Ok (-> & leaf & rest & Hc & _ & Hs)%accept_tls_checked.
  split; [done|]. exists leaf. rewrite Hc. split; [done|].
  unfold handshake_check in Hs. unfold signed_by. by destruct (hs_tls13 h).
Qed.

Lemma signed_admitted cert key cfg h leaf rest :
  server_tls_config cert key = Ok cfg → in_order h → hs_certs h = leaf :: rest → signed_by h leaf →
  accept_tls cfg h = Ok (hs_certs h).
Proof.
  intros [_ ->]%server_tls_config_Ok Ho Hc Hs. eapply accept_tls_complete; [done|done|done|].
  unfold signed_by in Hs. unfold handshake_check. by destruct (hs_tls13 h).
Qed.

Context (subject_public_key : bytes → option bytes).

(** C31: a call is made by the holder of its identity's key.  A native listener
    configured by [server_tls_config] serves calls as an identity only on a
    connection whose one handshake presented a certificate of that key, whoever
    issued it, and was signed under it; after the shutdown it serves none. *)
Theorem served_calls_are_signed cert key cfg tls bind l w
    (Hcfg : server_tls_config cert key = Ok cfg)
    (Hstart : start_listener tls bind = Ok l)
    (Hrun : rtc (native_step subject_public_key) (native_start l) w)
    (Hpeers : ∀ k certs, (k, certs) ∈ lr_peers w → ∃ h, accept_tls cfg h = Ok certs) :
  (∀ k id, (k, id) ∈ lr_calls w → ∃ h leaf,
     (k, hs_certs h) ∈ lr_peers w ∧ head (hs_certs h) = Some leaf ∧
     subject_public_key leaf = Some id ∧ signed_by h leaf) ∧
  NoDup (lr_peers w).*1 ∧
  (∀ w', rtc (native_step subject_public_key)
     (mkListenerRun (shutdown_listener (lr_listener w)) (lr_peers w) (lr_calls w)) w' →
     lr_calls w' = lr_calls w).
Proof.
  pose proof (native_run_ok _ _ _ _ _ Hstart Hrun) as [Hok Hnum]. split; [|split; [apply Hnum|]].
  - intros k id (certs & Hin & Hid)%(no_calls _ _ Hok).
    destruct (Hpeers k certs Hin) as [h Hh].
    destruct (admitted_signed _ _ _ _ _ Hcfg Hh) as (-> & leaf & Hleaf & Hs).
    exists h, leaf. split_and!; [done..| |done].
    unfold connection_identity in Hid. simpl in Hid. by rewrite Hleaf in Hid.
  - intros w' Hr. by apply closed_run in Hr.
Qed.

(** ** Generated identities *)

(** What rcgen promises: the pair is accepted by rustls, the certificate holds a
    readable key and what the private key signs verifies under it. *)
Definition good_pair (sign : bool → bytes → bytes → DigitallySignedStruct) (ck : CertifiedKey)
    (pk : bytes) : Prop :=
  accept_cert [ck_cert ck] (ck_key ck) = Ok tt ∧ subject_public_key (ck_cert ck) = Some pk ∧
  (∀ message, rustls_verify_tls12_signature message (ck_cert ck)
     (sign false (ck_key ck) message) ring_algorithms = Ok tt) ∧
  (∀ message, rustls_verify_tls13_signature message (ck_cert ck)
     (sign true (ck_key ck) message) ring_algorithms = Ok tt).

(** The handshake a client configured by [cc] makes. *)
Definition made_with (sign : bool → bytes → bytes → DigitallySignedStruct) (cc : ClientConfig)
    (h : Handshake) : Prop :=
  hs_certs h = cc_certs cc ∧
  hs_signature h = sign (hs_tls13 h) (cc_key cc) (hs_transcript h).

Lemma generate_ids_Ok generate writable args fs fs' :
  generate_ids generate writable args fs = (fs', Ok tt) →
  ∃ ck, generate (ia_subject_alt_names args) = Some ck ∧
    fs' = <[ia_key args := ck_key ck]> (<[ia_cert args := ck_cert ck]> fs).
Proof.
  unfold generate_ids, fs_write. intros Hg. repeat case_match; simplify_eq. eauto.
Qed.

(** C32: the identity generated is the identity served.  A party whose two files
    generate-ids wrote connects with them, is admitted by the coordinator's
    listener, and its calls carry exactly the public key the coordinator reads from
    the certificate file on its roster. *)
Theorem generated_identity_is_served generate sign writable args fs fs' pk
    server_der server_key cfg k h l
    (Hgen : generate_ids generate writable args fs = (fs', Ok tt))
    (Hpaths : ia_cert args ≠ ia_key args)
    (Hrcgen : ∀ names ck, generate names = Some ck → good_pair sign ck pk)
    (Hcfg : server_tls_config server_der server_key = Ok cfg)
    (Hfresh : connections l !! k = Some Handshaking) :
  ∃ cert key cc,
    fs' !! ia_cert args = Some cert ∧ fs' !! ia_key args = Some key ∧
    setup_tls_config cert key = Ok cc ∧
    (in_order h → made_with sign cc h →
     ∃ certs, accept_tls cfg h = Ok certs ∧
       connections (native_handshake subject_public_key k (Some (Some certs)) l) !! k
         = Some (Serving (Some pk))) ∧
    parse_public_keys (fs' !!.) subject_public_key [ia_cert args] = Ok [pk].
Proof.
  apply generate_ids_Ok in Hgen as (ck & Hck & ->).
  destruct (Hrcgen _ _ Hck) as (Hacc & Hpk & H12 & H13).
  assert (<[ia_key args := ck_key ck]> (<[ia_cert args := ck_cert ck]> fs) !! ia_cert args = Some (ck_cert ck)) as Hc.
  { by rewrite lookup_insert_ne, lookup_insert_eq. }
  eexists (ck_cert ck), (ck_key ck), _. split_and!.
  - exact Hc.
  - apply lookup_insert_eq.
  - by apply setup_tls_config_Ok.
  - intros Ho [Hcerts Hsig]. simpl in *. exists (hs_certs h). split.
    + eapply signed_admitted; [done..|]. unfold signed_by. rewrite Hsig. by destruct (hs_tls13 h).
    + unfold native_handshake, connection_identity. rewrite Hfresh, Hcerts. simpl. rewrite Hpk. simpl.
      apply lookup_insert_eq.
  - unfold parse_public_keys. simpl. rewrite Hc. simpl. by rewrite Hpk.
Qed.
End admission.

(** ** Witnesses *)

(** A toy TLS: a certificate and its private key are the same bytes, and a signature
    is the key before the message. *)
Definition toy_verify (message : bytes) (cert : CertificateDer) (dss : bytes) (_ : unit)
    : result unit unit := if bool_decide (dss = cert ++ message) then Ok tt else Err tt.

Definition toy_rustls : Rustls := {|
  TlsError := unit;
  SignatureScheme := unit;
  DigitallySignedStruct := bytes;
  ServerName := unit;
  UnixTime := unit;
  DistinguishedName := unit;
  SignatureAlgorithms := unit;
  ring_algorithms := tt;
  supported_schemes _ := [tt];
  rustls_verify_tls12_signature := toy_verify;
  rustls_verify_tls13_signature := toy_verify;
  accept_cert certs key := if bool_decide (certs = [key]) then Ok tt else Err tt |}.

Definition toy_accept (cfg : @ServerConfig toy_rustls) (h : @Handshake toy_rustls)
    : result (@TlsError toy_rustls) (list CertificateDer) :=
  match hs_certs h with
  | [] => Err (tt : @TlsError toy_rustls)
  | leaf :: rest =>
      _ ← verify_client_cert (sc_verifier cfg) leaf rest (hs_time h);
      _ ← handshake_check (sc_verifier cfg) h leaf;
      Ok (leaf :: rest)
  end.

#[local] Obligation Tactic := idtac.
Program Definition toy_server : @RustlsServer toy_rustls := {|
  in_order _ := True;
  accept_tls := toy_accept |}.
Next Obligation.
  intros cfg h certs. unfold toy_accept. destruct (hs_certs h) as [|leaf rest] eqn:Hc; [done|].
  intros Ha. inv_ok. split; [done|]. by exists leaf, rest.
Qed.
Next Obligation.
  intros cfg h leaf rest _ Hc Hv Hs. unfold toy_accept. by rewrite Hc, Hv, Hs.
Qed.

Definition pair_sign (_ : bool) (key message : bytes) : @DigitallySignedStruct toy_rustls := key ++ message.

Definition toy_hello : @Handshake toy_rustls :=
  @mkHandshake toy_rustls true [ [Byte.x01] ] [Byte.x99] [Byte.x01; Byte.x99] tt.

Lemma served_calls_are_signed_witness :
  ∃ (h : @Handshake toy_rustls) (leaf : bytes), signed_by h leaf ∧ Some leaf = Some [Byte.x01].
Proof.
  destruct (proj1 (@served_calls_are_signed toy_rustls toy_server Some [Byte.x55] [Byte.x55]
    (@mkServerConfig toy_rustls SelfSignedClientVerifier [ [Byte.x55] ] [Byte.x55])
    (Ok tt) (Some tt) (mkListener true 1%positive ∅) sample_connected
    eq_refl eq_refl sample_connected_run ltac:(
      intros k certs [= -> ->]%list_elem_of_singleton; by exists toy_hello)) 1%positive [Byte.x01])
    as (h & leaf & _ & _ & Hid & Hs).
  - by left.
  - by exists h, leaf.
Defined.

Definition toy_generate (names : list string) : option CertifiedKey :=
  Some (mkCertifiedKey [Byte.x01] [Byte.x01]).

Lemma generated_identity_is_served_witness :
  let args := mkIdArgs "cert" "key" ["party"]%string in
  parse_public_keys ((generate_ids toy_generate (fun _ => true) args ∅).1 !!.) Some ["cert"%string]
    = Ok [ [Byte.x01] ].
Proof.
  intros args.
  destruct (@generated_identity_is_served toy_rustls toy_server Some toy_generate pair_sign (fun _ => true)
    args ∅ (generate_ids toy_generate (fun _ => true) args ∅).1 [Byte.x01] [Byte.x55] [Byte.x55]
    (@mkServerConfig toy_rustls SelfSignedClientVerifier [ [Byte.x55] ] [Byte.x55])
    1%positive toy_hello (mkListener true 2%positive {[1%positive := Handshaking]}))
    as (cert & key & cc & _ & _ & _ & _ & Hp).
  - reflexivity.
  - done.
  - intros names ck [= <-]. split_and!; [reflexivity..| |].
    + intros m. unfold rustls_verify_tls12_signature. simpl. unfold toy_verify.
      by rewrite bool_decide_eq_true_2.
    + intros m. unfold rustls_verify_tls13_signature. simpl. unfold toy_verify.
      by rewrite bool_decide_eq_true_2.
  - reflexivity.
  - reflexivity.
  - exact Hp.
Defined.
