(* ===== verification/Main.v ===== *)
(** [main] of run-coord (src/crates/bins/src/bin/run-coord.rs) from the text of its
    command line to the running coordinator: the arguments ([Startup.read_args]), the
    configuration ([RunCoord.configure]), the TLS configuration ([Tls]) and the
    listeners. *)
From S2P Require Import Prelude Shared Execution Samples Rounds Sessions Server Rpc ServerSamples.
From S2P Require Import Invariant History Topology Machine NodeRpc Browser Listener ListenerFacts OneOff.
From stdpp Require Import pretty.
From S2P Require Import RunCoord RunCoordFacts Tls Startup StartupFacts TlsFacts.

(** How the process ended up: a failed [expect] or [assert!]; a standing coordinator
    with its listeners; a one-off coordinator with what it reported at its end. *)
Inductive MainOutcome : Type :=
  | Panicked
  | Standing (s : Server) (p : Process) (r : result CoordinatorError ServerHandles)
  | OneOffEnded (s : Server) (r : result CoordinatorError (option (usize * usize) * Listener)).

Section main.
Context `{HashOrder} `{Rustls} {ShareType : Type}.
Context (read : string → option bytes) (subject_public_key : bytes → option bytes).
Context (load_from_file : string → option (Program ShareType)).

(** [install_default] is the outcome of installing the crypto provider; [bind] and
    [browser_bind] of binding the two addresses; [polls] and [at_end] are the states
    the drain loop of a one-off coordinator sees. *)
Definition main (install_default : option unit) (raw : RawArgs) (delivery : LockId) (tx : positive)
    (browser_config : BrowserTls → result CoordinatorError unit) (bind browser_bind : option unit)
    (polls : list Server) (at_end : Server) (p : Process) : MainOutcome :=
  match
    _ ← expect install_default;
    '(args, browser) ← read_args read subject_public_key load_from_file raw;
    cert_der ← expect (read (ra_server_cert raw));
    key_der ← expect (read (ra_server_key raw));
    '(s, one_off) ← configure args delivery;
    Ok (s, one_off, browser, (fun _ => tt) <$> server_tls_config cert_der key_der)
  with
  | Ok (s, Some eid, _, tls) =>
      let '(s, r) := run_coord_one_off eid tx tls bind polls at_end s in OneOffEnded s r
  | Ok (s, None, browser, tls) =>
      let browser_tls := match browser with Some b => browser_config b | None => Ok tt end in
      let '(p, r) := run_coord browser tls browser_tls bind browser_bind p in Standing s p r
  | _ => Panicked
  end.

(** C37: the command line as written is the coordinator that runs.  When the files it
    names are readable, the roster is valid, the printed bindings match the program's
    manifest, the program's inputs fit the address space, the server's pair is accepted and its address is free, a one-off
    [main] does not panic: it serves, from a reachable state that is already watched
    for its end, exactly the program's execution, with the roster, layout, output
    clients and quorum the files say; and its listener is up until the drain is
    over. *)
Theorem main_runs_the_program raw one_off path program (key : string → ClientIdentity)
    (bs : list (u64 * string)) bindings a outs delivery tx browser_config browser_bind polls at_end p
    server_cert server_key
    (Hone : ra_one_off raw = Some one_off) (Hnative : browser_addr (ra_browser raw) = None)
    (Hprogram : ra_program raw = Some path) (Hload : load_from_file path = Some program)
    (Hcert : read (ra_server_cert raw) = Some server_cert)
    (Hkey : read (ra_server_key raw) = Some server_key)
    (Hpair : accept_cert [server_cert] server_key = Ok tt)
    (Hbindings : ra_client_bindings raw = (fun b => pretty b.1 +:+ String EQUALS b.2) <$> bs)
    (Hslots : Forall (fun b => (b.1 < u64_modulus)%N) bs)
    (Hfiles : ∀ f, f ∈ ra_mpc_nodes raw ++ ra_output_clients raw ++ bs.*2 →
       (read f ≫= subject_public_key) = Some (key f))
    (Htop : topology_ok (ra_n raw) (ra_t raw) (key <$> ra_mpc_nodes raw))
    (Hid : is_zero (one_off_id one_off) = false) (Hhash : hash one_off ≠ zero_bytes)
    (Hsize : (vlen (manifest_clients program) <= u32_modulus)%N) :
  let args := mkArgs (Some one_off) (key <$> ra_mpc_nodes raw) (ra_n raw) (ra_t raw) (ra_n_inputs raw)
    (key <$> ra_output_clients raw) (Some program) (prod_map id key <$> bs) (ra_backend raw) in
  program_bindings args program = Ok bindings →
  build_input_assignment (manifest_clients program) bindings = Ok (a, outs) → layout_fits a →
  ∃ s d, main (Some tt) raw delivery tx browser_config (Some tt) browser_bind polls at_end p =
      OneOffEnded s (Ok (drain (one_off_id one_off) polls at_end,
                         shutdown_listener (mkListener true 1%positive ∅))) ∧
    reachable s ∧ one_off_execution s = Some (one_off_id one_off) ∧ shutdown_notify s = Some tx ∧
    mpc_nodes s = key <$> ra_mpc_nodes raw ∧ executions s = {[one_off_id one_off := d]} ∧
    round d = Idle ∧ output_clients d = outs ∧ input_assignment (registration d) = a ∧
    program_hash (registration d) = hash one_off ∧
    min_output_shares (registration d) = min_shares (mpc_backend program) (ra_t raw).
Proof.
  intros args Hbind Hbuild Hfit.
  destruct (one_off_program_is_served args one_off program bindings a outs delivery)
    as (s & d & Hconf & Hreach & Hnodes & Hex & Hround & Houts & Hlay & Hh & Hmin); [done..|].
  exists (watch_for_shutdown_request (one_off_id one_off) tx s).1, d. split.
  - unfold main. cbn [expect mbind result_bind].
    erewrite (command_line_reads_back read subject_public_key key load_from_file raw one_off path program bs);
      [|done..| |done|done|done].
    2: { by rewrite Hcert, Hkey. }
    cbn [mbind result_bind]. rewrite Hcert, Hkey. cbn [expect mbind result_bind]. fold args. rewrite Hconf.
    cbn [mbind result_bind]. unfold run_coord_one_off.
    rewrite (proj2 (server_tls_config_Ok server_cert server_key _) (conj Hpair eq_refl)). done.
  - split; [|by split_and!]. eapply reach_step; [exact Hreach|]. apply step_watch.
Qed.
End main.

(** ** Witness: a file's content is its name, and a certificate is its key *)

Definition program_raw : RawArgs :=
  mkRawArgs (Some sample_one_off) ["a"; "b"; "c"; "d"]%string "pair" "pair" 4 1 None []
    (Some "program"%string) ["5=y"; "0=x"]%string HoneyBadger
    (mkBrowserArgs None 31416 None None None None None).

Lemma main_runs_the_program_witness :
  ∃ s d, @main _ toy_rustls unit (fun f => Some (str_bytes f)) Some
      (fun _ => Some (mkProgram Avss sample_manifest)) (Some tt) program_raw 1 1 (fun _ => Ok tt) (Some tt)
      None [] sample_server ∅ =
    OneOffEnded s (Ok (Some (4%N, 4%N), mkListener false 1%positive ∅)) ∧
    one_off_execution s = Some sample_eid ∧ output_clients d = [str_bytes "x"].
Proof.
  destruct (@main_runs_the_program _ toy_rustls unit (fun f => Some (str_bytes f)) Some
    (fun _ => Some (mkProgram Avss sample_manifest)) program_raw sample_one_off "program"
    (mkProgram Avss sample_manifest) str_bytes [(5%N, "y"%string); (0%N, "x"%string)]
    [(5%N, str_bytes "y"); (0%N, str_bytes "x")]
    (mkInputAssignment [str_bytes "y"; str_bytes "x"] [mkInputClientRange 0 2; mkInputClientRange 1 1])
    [str_bytes "x"] 1 1 (fun _ => Ok tt) None [] sample_server ∅ (str_bytes "pair") (str_bytes "pair"))
    as (s & d & Hm & _ & Ho & _ & _ & _ & _ & Hout & _).
  - reflexivity.
  - reflexivity.
  - reflexivity.
  - reflexivity.
  - reflexivity.
  - reflexivity.
  - reflexivity.
  - reflexivity.
  - repeat constructor.
  - intros f _. reflexivity.
  - constructor; [done|done|done|]. apply (bool_decide_unpack _). by vm_compute.
  - reflexivity.
  - intros Heq. apply (f_equal (fun v => bool_decide (v = zero_bytes))) in Heq. by vm_compute in Heq.
  - by vm_compute.
  - reflexivity.
  - by vm_compute.
  - by vm_compute.
  - exists s, d. split_and!; [exact Hm|exact Ho|exact Hout].
Defined.
