(* ===== verification/ChainSetup.v ===== *)
(** The on-chain parts together (src/crates/on-chain/src/lib.rs): the client's set-up
    from the contract, the nodes started on the same contract, and the way of an
    input mask from the nodes to the client. *)
From S2P Require Import Prelude Shared Execution Sessions Server Rpc Client OnChain OnChainFacts ChainRuns.
From S2P Require Import NodeRpc Listener Startup.

(** ** The client of the contract *)

(** [ws_connect]: reading the wallet's key and connecting are alloy's. *)
Definition ws_connect {Wallet Provider : Type} (from_sk : string → option Wallet)
    (connect_ws : string → Wallet → option Provider) (addr wallet_sk : string)
    : result CoordinatorError Provider :=
  wallet ← expect (from_sk wallet_sk);
  expect (connect_ws addr wallet).

(** What the constant functions of the contract answer, if the call succeeds. *)
Record ContractViews : Type := mkContractViews {
  creationBlock : option U256;
  baseNonce : option U256 }.

Record OnChainCoordinator (Contract : Type) : Type := mkOnChainCoordinator {
  ch_coord : Contract;
  ch_contract_block : u64;
  ch_n : u64;
  ch_t : u64;
  ch_n_outputs : option u64;
  ch_key_der : option bytes }.
Arguments mkOnChainCoordinator {Contract}.

Definition coord_creation_block (c : ContractViews) : result CoordinatorError u64 :=
  x ← expect (creationBlock c);
  expect (u256_to_u64 x).

(** [OnChainCoordinator::base_nonce] *)
Definition chain_base_nonce (c : ContractViews) : result CoordinatorError u64 :=
  x ← expect (baseNonce c);
  expect (u256_to_u64 x).

(** [OnChainCoordinator::new] *)
Definition new_chain_coordinator {Contract : Type} (views : Contract → ContractViews) (coord : Contract)
    (n t n_outputs : u64) (key_der : option bytes) : result CoordinatorError (OnChainCoordinator Contract) :=
  contract_block ← coord_creation_block (views coord);
  Ok (mkOnChainCoordinator coord contract_block n t (Some n_outputs) key_der).

(** [setup_coord]; [at_address] is the generated binding of the contract. *)
Definition setup_coord {Provider Contract : Type} (at_address : Address → Provider → Contract)
    (views : Contract → ContractViews) (eth : Provider) (contract_addr : Address)
    (n t n_outputs : u64) (key_der : option bytes) : result CoordinatorError (OnChainCoordinator Contract) :=
  new_chain_coordinator views (at_address contract_addr eth) n t n_outputs key_der.

(** ** A mask on its way *)

(** Client and nodes take the nonce from the same place. *)
Lemma node_nonce_is_client_nonce {Share} (c : ContractViews) nonce tls bind p p' k (d : NodeRPCServerShared Share) :
  chain_base_nonce c = Ok nonce → chain_node_start (baseNonce c) tls bind p = (p', Ok (k, d)) →
  d = new_chain_node nonce.
Proof.
  unfold chain_base_nonce, chain_node_start. intros Hc Hs.
  assert (∀ r : result CoordinatorError u64, (x ← expect (baseNonce c); expect (u256_to_u64 x)) = r →
    expect (baseNonce c) ≫= (fun nonce => expect (u256_to_u64 nonce)) = r) as Hr by done.
  rewrite (Hr _ Hc) in Hs. by destruct (start_listening tls bind p) as [p1 [h| |]]; simplify_eq/=.
Qed.

Section loop.
Context {Share V : Type} (deserialize_share : bytes → option Share).
Context (recover_secret : list Share → usize → usize → option V) (backend : MpcBackend).

(** The loop stops at the first prefix that suffices. *)
Lemma receive_mask_loop_ok n t answers shares mask :
  Forall2 (fun b s => deserialize_share b = Some s) answers shares →
  (∀ k, (min_shares backend t <= N.of_nat k)%N → k ≠ 0 → k ≤ length shares →
     recover_secret (take k shares) n t = Some mask) →
  shares ≠ [] → (min_shares backend t <= vlen shares)%N →
  receive_mask_loop deserialize_share recover_secret backend n t (Some <$> answers) [] = Ok mask.
Proof.
  intros Hds Hrec Hne Hmin.
  assert (∀ bs rest acc, Forall2 (fun b s => deserialize_share b = Some s) bs rest → rest ≠ [] →
    (∀ k, (min_shares backend t <= N.of_nat k)%N → length acc < k → k ≤ length (acc ++ rest) →
       recover_secret (take k (acc ++ rest)) n t = Some mask) →
    (min_shares backend t <= vlen (acc ++ rest))%N →
    receive_mask_loop deserialize_share recover_secret backend n t (Some <$> bs) acc = Ok mask) as Hgen.
  2: { apply (Hgen answers shares []); [done|done| |done].
       intros k Hk Hlt Hle. apply Hrec; [done|simpl in Hlt; lia|done]. }
  clear. induction bs as [|b bs IH]; intros rest acc Hf Hne Hrec Hmin.
  { apply Forall2_nil_inv_l in Hf. done. }
  destruct rest as [|s rest]; [done|]. apply Forall2_cons in Hf as [Hb Hf].
  rewrite fmap_cons. cbn [receive_mask_loop expect mbind result_bind]. rewrite Hb. cbn [expect mbind result_bind].
  replace (acc ++ s :: rest) with ((acc ++ [s]) ++ rest) in * by (by rewrite <-app_assoc).
  destruct (_ <=? _)%N eqn:Hq; reflect_bool.
  - specialize (Hrec (length (acc ++ [s])) Hq). rewrite take_app_length in Hrec. rewrite Hrec; [done|..];
      rewrite !length_app; cbn [length]; lia.
  - apply (IH rest (acc ++ [s])); [done| | |done].
    + intros ->. rewrite app_nil_r in Hmin. unfold vlen in *. lia.
    + intros k Hk Hlt Hle. apply Hrec; [done| |done]. rewrite length_app in Hlt. lia.
Qed.
End loop.

Section mask.
Context {Share Sig V : Type}.
Context (serialize : Share → option bytes) (deserialize_share : bytes → option Share).
Context (from_raw : bytes → option Sig) (as_raw : Sig → bytes) (abi_encode : u64 → bytes).
Context (keccak256 : bytes → vec byte 32) (recover_address_from_msg : Sig → vec byte 32 → option Address).
Context (sign_message : vec byte 32 → option Sig).
Context (recover_secret : list Share → usize → usize → option V) (backend : MpcBackend).

(** A node: the state it was started in, its share of the index, the subscription the
    client opened at it, and every call it served, by whomever, in order. *)
Record NodeRun : Type := mkNodeRun {
  nr_started : NodeRPCServerShared Share;
  nr_share : Share;
  nr_sink : SubscriptionSink;
  nr_history : list (Net * NodeCall (Share := Share)) }.

(** The three calls that concern the client: the reservation, the share, its request. *)
Definition three_calls (self sig : bytes) (addr : Address) (i : u64) (x : NodeRun)
    : list (NodeCall (Share := Share)) :=
  [ReserveIndex addr i; AddShare i (nr_share x); RequestShare (Some (nr_sink x)) self sig addr].

(** What the node sent into the client's subscription. *)
Definition node_answers (x : NodeRun) : list (SubscriptionSink * bytes) :=
  to_client (nr_sink x)
    (node_calls serialize from_raw abi_encode keccak256 recover_address_from_msg (nr_history x) (nr_started x)).2.

(** C30: an on-chain client gets its mask.  It signs its one index under the nonce it
    read from the contract, and the nodes were started on that contract.  Every node
    served any calls in any order, among them, at any places, the reservation of the
    index for the client's address, the node's share of it and the client's request;
    no other call named the address, the index, the client's identity or its
    subscription, and the subscription can be written to.  Then every node sent into the
    subscription exactly one message, its share; and from these messages, in whatever
    order they arrive, the client recovers the mask. *)
Theorem chain_mask_reaches_the_client c nonce i addr self sig (nodes : list NodeRun) n t mask answers
    (Hnonce : chain_base_nonce c = Ok nonce)
    (Hsig : generate_client_sig abi_encode keccak256 sign_message nonce i = Some sig)
    (Hwallet : ∀ h s, sign_message h = Some s → from_raw (as_raw s) = Some s ∧
       recover_address_from_msg s h = Some addr)
    (Hstarted : ∀ x, x ∈ nodes →
       ∃ tls bind p p' k, chain_node_start (baseNonce c) tls bind p = (p', Ok (k, nr_started x)))
    (Hcalls : ∀ x, x ∈ nodes →
       client_calls self addr i (nr_sink x) (nr_history x) ≡ₚ three_calls self (as_raw sig) addr i x)
    (Hwritable : ∀ x net, x ∈ nodes → net ∈ (nr_history x).*1 → send_ok net (nr_sink x) 0 = true)
    (Hcodec : ∀ x, x ∈ nodes →
       ∃ b, serialize (nr_share x) = Some b ∧ deserialize_share b = Some (nr_share x))
    (Hrecover : ∀ shares, shares ⊆+ nr_share <$> nodes → (min_shares backend t <= vlen shares)%N →
       shares ≠ [] → recover_secret shares n t = Some mask)
    (Hcount : nodes ≠ [] ∧ (min_shares backend t <= vlen nodes)%N)
    (Harrive : answers ≡ₚ (nodes ≫= node_answers).*2) :
  (∀ x, x ∈ nodes → ∃ b, serialize (nr_share x) = Some b ∧ node_answers x = [(nr_sink x, b)]) ∧
  receive_mask deserialize_share recover_secret backend n t (replicate (length nodes) true)
    (Some <$> answers) = Ok mask.
Proof.
  assert (∀ x, x ∈ nodes → ∃ b, serialize (nr_share x) = Some b ∧
    deserialize_share b = Some (nr_share x) ∧ node_answers x = [(nr_sink x, b)]) as Hsent.
  { intros x Hx. destruct (Hcodec x Hx) as (b & Hb & Hdb). exists b. split_and!; [done..|].
    destruct (Hstarted x Hx) as (tls & bind & p & p' & k & Hd).
    apply (node_nonce_is_client_nonce c nonce) in Hd; [|done]. unfold node_answers. rewrite Hd.
    destruct (node_calls _ _ _ _ _ (nr_history x) (new_chain_node nonce)) as [d log] eqn:Hrun.
    eapply (history_answers serialize from_raw abi_encode keccak256 recover_address_from_msg nonce self (as_raw sig)
      addr i (nr_sink x) (nr_share x) b) with (r := false) (s := false) (q := false);
      [by eapply generated_signature_verifies|done|by intros; eapply Hwritable|by apply Hcalls
      |apply new_node_knows|exact Hrun]. }
  split; [intros x Hx; destruct (Hsent x Hx) as (b & ? & _ & ?); eauto|].
  assert (∃ bs, (nodes ≫= node_answers).*2 = bs ∧
    Forall2 (fun b s => deserialize_share b = Some s) bs (nr_share <$> nodes)) as (bs & Hbs & Hf).
  { exists ((nodes ≫= node_answers).*2). split; [done|]. clear Hstarted Hcalls Hwritable Hcodec Hrecover Hcount Harrive.
    induction nodes as [|x nodes IH]; [constructor|]. rewrite bind_cons, fmap_app, fmap_cons.
    destruct (Hsent x) as (b & _ & Hdb & ->); [by left|]. simpl. constructor; [done|].
    apply IH. intros y Hy. apply Hsent. by right. }
  rewrite Hbs in Harrive.
  destruct (Permutation_Forall2 (symmetry Harrive) Hf) as (shares & Hperm & Hf').
  assert (length shares = length nodes) as Hlen.
  { rewrite <-(Permutation_length Hperm). apply length_fmap. }
  unfold receive_mask. replace (forallb id (replicate (length nodes) true)) with true.
  2: { symmetry. clear. induction (length nodes); [done|]. done. }
  destruct Hcount as [Hne Hmin]. eapply receive_mask_loop_ok; [exact Hf'| | |].
  - intros k Hk Hk0 Hle. apply Hrecover.
    + rewrite Hperm. apply sublist_submseteq, sublist_take.
    + unfold vlen. rewrite length_take. lia.
    + intros Htk. apply (f_equal length) in Htk. rewrite length_take in Htk. simpl in Htk. lia.
  - intros ->. destruct nodes; [done|]. simpl in Hlen. lia.
  - unfold vlen in *. by rewrite Hlen.
Qed.
End mask.

(** ** Witness: three nodes, two of which suffice *)

Definition toy_sign (h : vec byte 32) : option bytes :=
  if bool_decide (h = vreplicate 32 (Vector.hd h)) then Some [Byte.x0a; Vector.hd h] else None.

Definition toy_views : ContractViews := mkContractViews (Some 1%N) (Some 5%N).

(** The client's three calls, and those of another client. *)
Abbreviation toy_reserve := (all_up, ReserveIndex toy_addr 3%N).
Abbreviation toy_share b := (all_up, AddShare 3%N b).
Abbreviation toy_ask sink := (all_up, RequestShare (Some sink) [Byte.x01] [Byte.x0a; Byte.x08] toy_addr).
Abbreviation toy_other_addr := (vreplicate 20 Byte.x0b).
Definition toy_other_calls : list (Net * NodeCall (Share := byte)) :=
  [(all_up, ReserveIndex toy_other_addr 4%N); (all_up, AddShare 4%N Byte.x77);
   (all_up, RequestShare (Some 9%positive) [Byte.x02] [Byte.x0b; Byte.x09] toy_other_addr)].

Definition toy_node (share : byte) (sink : positive) (history : list (Net * NodeCall (Share := byte))) : NodeRun :=
  mkNodeRun (new_chain_node 5) share sink history.
Definition toy_node1 : NodeRun :=
  toy_node Byte.x41 1%positive (toy_reserve :: toy_other_calls ++ [toy_share Byte.x41; toy_ask 1%positive]).
Definition toy_node2 : NodeRun :=
  toy_node Byte.x42 2%positive (toy_ask 2%positive :: toy_share Byte.x42 :: toy_other_calls ++ [toy_reserve]).
Definition toy_node3 : NodeRun :=
  toy_node Byte.x43 3%positive (toy_other_calls ++ [toy_share Byte.x43; toy_ask 3%positive; toy_reserve]).
Definition toy_nodes : list NodeRun := [toy_node1; toy_node2; toy_node3].

Lemma toy_nodes_cases x : x ∈ toy_nodes → x = toy_node1 ∨ x = toy_node2 ∨ x = toy_node3.
Proof.
  unfold toy_nodes. intros [->|[->|[->|Hx]%elem_of_cons]%elem_of_cons]%elem_of_cons; [auto..|].
  by apply elem_of_nil in Hx.
Qed.

(** The answers, the last node's first. *)
Definition toy_answers : list bytes :=
  reverse (toy_nodes ≫= node_answers toy_serialize Some toy_abi_encode toy_keccak256 toy_recover).*2.

Lemma chain_mask_reaches_the_client_witness :
  receive_mask (fun b => head b) (fun _ _ _ => Some 7%N) Avss 3 1 [true; true; true]
    (Some <$> toy_answers) = Ok 7%N.
Proof.
  apply (chain_mask_reaches_the_client toy_serialize (fun b => head b) Some (fun sig => sig) toy_abi_encode
    toy_keccak256 toy_recover toy_sign (fun _ _ _ => Some 7%N) Avss toy_views 5 3 toy_addr [Byte.x01]
    [Byte.x0a; Byte.x08] toy_nodes 3 1 7%N).
  - reflexivity.
  - by vm_compute.
  - intros h sg. unfold toy_sign. case_bool_decide as Hh; [|done]. intros [= <-]. split; [done|].
    unfold toy_recover. by rewrite bool_decide_eq_true_2.
  - intros x [->|[->| ->]]%toy_nodes_cases; exists (Ok tt), (Some tt), ∅; do 2 eexists; reflexivity.
  - intros x [->|[->| ->]]%toy_nodes_cases.
    + change (client_calls [Byte.x01] toy_addr 3%N 1%positive (nr_history toy_node1)) with
        [ReserveIndex toy_addr 3%N; AddShare 3%N Byte.x41;
         RequestShare (Some 1%positive) [Byte.x01] [Byte.x0a; Byte.x08] toy_addr].
      unfold three_calls. simpl. solve_Permutation.
    + change (client_calls [Byte.x01] toy_addr 3%N 2%positive (nr_history toy_node2)) with
        [RequestShare (Some 2%positive) [Byte.x01] [Byte.x0a; Byte.x08] toy_addr; AddShare 3%N Byte.x42;
         ReserveIndex toy_addr 3%N].
      unfold three_calls. simpl. solve_Permutation.
    + change (client_calls [Byte.x01] toy_addr 3%N 3%positive (nr_history toy_node3)) with
        [AddShare 3%N Byte.x43; RequestShare (Some 3%positive) [Byte.x01] [Byte.x0a; Byte.x08] toy_addr;
         ReserveIndex toy_addr 3%N].
      unfold three_calls. simpl. solve_Permutation.
  - intros x net [->|[->| ->]]%toy_nodes_cases; simpl; intros Hnet;
      repeat (apply elem_of_cons in Hnet as [->|Hnet]; [reflexivity|]); by apply elem_of_nil in Hnet.
  - intros x _. by exists [nr_share x].
  - done.
  - by split.
  - apply reverse_Permutation.
Defined.
