(* ===== verification/Service.v ===== *)
(** The coordinator as a service: the native listener over mutual TLS, the browser
    methods and the coordinator they share.  Whatever is recorded is recorded on the
    authority of an identity. *)
From S2P Require Import Prelude Shared Execution Samples Rounds Sessions Server Rpc ServerSamples.
From S2P Require Import Invariant History Topology Machine Ledger LedgerFacts Requests RequestsFacts.
From S2P Require Import NodeRpc Browser BrowserSamples BrowserFacts Listener ListenerFacts Tls TlsFacts.

(** Both transports; the coordinator is the one of the browser methods. *)
Record Service : Type := mkService {
  native : ListenerRun;
  browser : BrowserWorld }.

Definition coord (w : Service) : Server := coordinator (bw_state (browser w)).

Section service.
Context `{HashOrder} `{Platform} `{RustlsServer}.
Context (subject_public_key : bytes → option bytes) (cfg : ServerConfig).

(** One step of the service: the native listener's connections come and go, with
    certificates from completed handshakes; a connection's request is served; an
    authenticated browser request reserves or submits; a browser segment that
    records nothing, such as an authentication, a step of a bind ceremony or a
    query; the owner names its one execution. *)
Inductive service_step (w : Service) : Service → Prop :=
  | ss_listener l :
      native_step subject_public_key (native w) l → lr_calls l = lr_calls (native w) →
      (∀ k certs, (k, certs) ∈ lr_peers l →
         (k, certs) ∈ lr_peers (native w) ∨ ∃ h, accept_tls cfg h = Ok certs) →
      service_step w (mkService l (browser w))
  | ss_native k id net accept delivery req :
      connections (lr_listener (native w)) !! k = Some (Serving (Some id)) →
      service_step w (mkService
        (mkListenerRun (lr_listener (native w)) (lr_peers (native w)) (lr_calls (native w) ++ [(k, id)]))
        (with_coordinator (sv_state (serve net accept delivery id req (coord w))) (browser w)))
  | ss_browser_reserve decode net call now c log r :
      reserve_mask_indices_method decode net call now (bw_state (browser w)) = (c, log, r) →
      service_step w (mkService (native w)
        (mkBrowserWorld c (bw_checked (browser w)) (bw_counted (browser w))))
  | ss_browser_submit decode net call now c log r :
      submit_masked_inputs_method decode net call now (bw_state (browser w)) = (c, log, r) →
      service_step w (mkService (native w)
        (mkBrowserWorld c (bw_checked (browser w)) (bw_counted (browser w))))
  | ss_browser_other b :
      browser_step (browser w) b → ledger (coordinator (bw_state b)) = ledger (coord w) →
      service_step w (mkService (native w) b)
  | ss_owner eid tx :
      service_step w (mkService (native w)
        (with_coordinator (watch_for_shutdown_request eid tx (coord w)).1 (browser w))).

(** A service starts with both listeners up, a fresh coordinator and no sessions. *)
Definition service_initial (w : Service) : Prop :=
  (∃ tls bind l, start_listener tls bind = Ok l ∧ native w = native_start l) ∧
  browser_initial (browser w) ∧ reachable (coord w).

Definition service_reachable (w : Service) : Prop := ∃ w0, service_initial w0 ∧ rtc service_step w0 w.

(** What entitles [p] to act: the handshake of a connection was signed under the
    key that is [p], or a request is signed by a session that [p]'s authenticator
    authorised. *)
Inductive authority (w : Service) (p : ClientIdentity) : Prop :=
  | auth_tls k h leaf :
      (k, hs_certs h) ∈ lr_peers (native w) → head (hs_certs h) = Some leaf →
      subject_public_key leaf = Some p → signed_by h leaf → authority w p
  | auth_session method call ecdh :
      signed_by_session method call (cb_bindings (bw_state (browser w))) p →
      ceremony (bw_state (browser w)) p (public_key (call_request call)) ecdh → authority w p.

(** ** The invariant *)

Record service_ok (w : Service) : Prop := {
  so_native : native_ok subject_public_key (native w);
  so_peers : ∀ k certs, (k, certs) ∈ lr_peers (native w) → ∃ h, accept_tls cfg h = Ok certs;
  so_browser : bindings_ok (browser w);
  so_coord : reachable (coord w) }.

(** The browser methods that act: rejected with nothing recorded, or a request in the
    name of the session's identity. *)
Lemma as_identity_cases {A} method call now f c c' log (r : result ErrorObject A) :
  as_identity method call now f c = (c', log, r) →
  (∃ nonces, c' = c <| cb_nonces := nonces |>) ∨
  ∃ identity nonces, signed_by_session method call (cb_bindings c) identity ∧
    f identity (c <| cb_nonces := nonces |>) = (c', log, r).
Proof.
  unfold as_identity. destruct (authenticate method call now (cb_nonces c) (cb_bindings c)) as [nonces o] eqn:Ha.
  destruct o; [|intros [= <- _ _]; eauto..].
  intros Hf. right. eexists _, nonces. split; [by eapply authenticate_Ok_inv|exact Hf].
Qed.

(** What an acting browser method did to the coordinator. *)
Definition acted (c c' : CoordinatorBrowserState) (method : string) (call : BrowserCall) : Prop :=
  coordinator c' = coordinator c ∨
  ∃ identity net req s, signed_by_session method call (cb_bindings c) identity ∧
    s = sv_state (serve net None 1 identity req (coordinator c)) ∧
    (coordinator c' = s ∨ ∃ eid token, coordinator c' =
       s <| webauthn_bindings ::= fun b => pin_binding_from_token b eid token |>).

Lemma reserve_method_acted decode net call now c c' log r :
  reserve_mask_indices_method decode net call now c = (c', log, r) →
  acted c c' "browser_reserve_mask_indices" call ∧
  cb_rp_id_hash c' = cb_rp_id_hash c ∧ cb_origin c' = cb_origin c.
Proof.
  intros [(nonces & ->)|(identity & nonces & Hs & Hf)]%as_identity_cases; [by split; [left|]|].
  unfold with_body in Hf. destruct (decode _) as [indices|]; [|simplify_eq; by split; [left|]].
  simpl in Hf. destruct (reserve_mask_indices net identity (call_execution_id call) indices (coordinator c))
    as [[s log'] r'] eqn:Hr. simplify_eq. split; [|done]. right.
  exists identity, net, (inr (ReserveMaskIndices (call_execution_id call) indices)), s.
  split; [done|]. simpl. rewrite Hr. simpl. auto.
Qed.

Lemma submit_method_acted decode net call now c c' log r :
  submit_masked_inputs_method decode net call now c = (c', log, r) →
  acted c c' "browser_submit_masked_inputs" call ∧
  cb_rp_id_hash c' = cb_rp_id_hash c ∧ cb_origin c' = cb_origin c.
Proof.
  intros [(nonces & ->)|(identity & nonces & Hs & Hf)]%as_identity_cases; [by split; [left|]|].
  unfold with_body in Hf. destruct (decode _) as [batch|]; [|simplify_eq; by split; [left|]].
  simpl in Hf. destruct (submit_masked_inputs net identity (call_execution_id call)
    (batch_masked_inputs batch) (batch_reserved_indices batch) (coordinator c)) as [[s log'] r'] eqn:Hr.
  set (req := inr (SubmitMaskedInputs (call_execution_id call) (batch_masked_inputs batch)
    (batch_reserved_indices batch)) : Request).
  assert (s = sv_state (serve net None 1 identity req (coordinator c))) as Hserve.
  { simpl. by rewrite Hr. }
  split; [|by destruct r'; injection Hf as <- _ _].
  right. exists identity, net, req, s. split; [done|]. split; [done|].
  destruct r' as [u| |]; injection Hf as <- _ _; eauto.
Qed.

Lemma session_authority w method call p :
  service_ok w → signed_by_session method call (cb_bindings (bw_state (browser w))) p → authority w p.
Proof.
  intros [_ _ [Ht _ _ _] _] Hs. pose proof Hs as (nonce & key & sg & b & _ & _ & _ & _ & Hb & Hpk & Hid).
  subst p. eapply auth_session; [exact Hs|]. rewrite <-Hpk. by eapply Ht.
Qed.

Lemma connection_authority w k p :
  (∃ cert key, server_tls_config cert key = Ok cfg) → service_ok w →
  connections (lr_listener (native w)) !! k = Some (Serving (Some p)) → authority w p.
Proof.
  intros (cert & key & Hcfg) [Hn Hp _ _] Hk.
  destruct (no_serving _ _ Hn k _ Hk) as (id & [= ->] & certs & Hin & Hid).
  destruct (Hp k certs Hin) as [h Hh].
  destruct (admitted_signed _ _ _ _ _ Hcfg Hh) as (-> & leaf & Hleaf & Hs).
  eapply auth_tls; [exact Hin|exact Hleaf| |exact Hs].
  unfold connection_identity in Hid. simpl in Hid. by rewrite Hleaf in Hid.
Qed.

(** A browser world in which an acting method ran. *)
Lemma acted_ok b c method call :
  bindings_ok b → acted (bw_state b) c method call →
  cb_rp_id_hash c = cb_rp_id_hash (bw_state b) → cb_origin c = cb_origin (bw_state b) →
  bindings_ok (mkBrowserWorld c (bw_checked b) (bw_counted b)).
Proof.
  intros Hb Ha Hrp Horg.
  assert (∀ id ecdsa ecdh, ceremony (bw_state b) id ecdsa ecdh → ceremony c id ecdsa ecdh) as Hcer.
  { intros id ecdsa ecdh. unfold ceremony. by rewrite Hrp, Horg. }
  assert (cb_bindings c = cb_bindings (bw_state b) ∨
    ∃ eid token, cb_bindings c = pin_binding_from_token (cb_bindings (bw_state b)) eid token) as Hbind.
  { unfold cb_bindings. destruct Ha as [-> |(id & net & req & s & _ & -> & [-> |(eid & token & ->)])];
      [by left|left; apply serve_bindings|right].
    exists eid, token. simpl. by rewrite serve_bindings. }
  destruct Hb as [Ht Hp Hc Hn]. constructor; simpl.
  - intros token x Hx. apply Hcer. eapply Ht. destruct Hbind as [<-|(eid & tk & Hbind)]; [done|].
    by rewrite Hbind, pin_by_token in Hx.
  - intros eid id x Hx. destruct Hbind as [Hbind|(eid' & tk & Hbind)]; rewrite Hbind in Hx.
    + destruct (Hp _ _ _ Hx) as [? ?]. split; [done|]. by apply Hcer.
    + apply pin_binding_inv in Hx as [Hx|(Hx & -> & ->)].
      * destruct (Hp _ _ _ Hx) as [? ?]. split; [done|]. by apply Hcer.
      * split; [done|]. apply Hcer. by eapply Ht.
  - intros call' found Hin. by apply Hcer, Hc.
  - intros call' id Hin. by apply Hcer, Hn.
Qed.

Lemma browser_step_reachable b b' :
  browser_step b b' → reachable (coordinator (bw_state b)) → reachable (coordinator (bw_state b')).
Proof.
  intros Hstep Hr. destruct Hstep as [method call now nonces r _|s Hs _|eid token|call found _
    |call found rest c _ Hc|call id rest draws c resp _ Hi]; [done| | |done| |].
  - by eapply reach_step.
  - eapply reach_step; [exact Hr|]. apply step_pin.
  - unfold bind_count in Hc. by destruct (sign_count_accept _ _ _); simplify_eq.
  - unfold bind_insert in Hi. destruct (bindings_insert _ _ _ _ _) as [[token b']|] eqn:Hb; simpl in Hi; [|done].
    simplify_eq. eapply reach_step; [exact Hr|]. by eapply step_bind.
Qed.

Lemma acted_reachable c c' method call :
  acted c c' method call → reachable (coordinator c) → reachable (coordinator c').
Proof.
  intros [-> |(id & net & req & s & _ & -> & Hc)] Hr; [done|].
  pose proof (reachable_run _ _ Hr (serve_run net None 1 id req (coordinator c))) as Hs.
  destruct Hc as [-> |(eid & token & ->)]; [done|]. eapply reach_step; [exact Hs|]. apply step_pin.
Qed.

Lemma service_step_ok w w' : service_ok w → service_step w w' → service_ok w'.
Proof.
  intros Hok Hstep. pose proof Hok as [Hn Hp Hb Hr].
  destruct Hstep as [l Hl Hcalls Hnew|k id net accept delivery req Hk|decode net call now c log r Hm
    |decode net call now c log r Hm|b Hs Hl|eid tx].
  - constructor; simpl; [by eapply native_step_ok| |done|done].
    intros k certs Hin. destruct (Hnew _ _ Hin); eauto.
  - constructor; simpl; [|done| |].
    + eapply native_step_ok; [exact Hn|]. by apply ns_call.
    + apply with_coordinator_ok; [done|]. apply serve_bindings.
    + eapply reachable_run; [exact Hr|]. apply serve_run.
  - apply reserve_method_acted in Hm as (Ha & Hrp & Horg). constructor; simpl; [done|done| |].
    + by eapply acted_ok.
    + by eapply acted_reachable.
  - apply submit_method_acted in Hm as (Ha & Hrp & Horg). constructor; simpl; [done|done| |].
    + by eapply acted_ok.
    + by eapply acted_reachable.
  - constructor; simpl; [done|done|by eapply browser_step_ok|by eapply browser_step_reachable].
  - constructor; simpl; [done|done|by apply with_coordinator_ok|].
    eapply reach_step; [exact Hr|]. apply step_watch.
Qed.

Lemma service_reachable_ok w : service_reachable w → service_ok w.
Proof.
  intros (w0 & ((tls & bind & l & Hl & Hn) & Hb & Hr) & Hrun).
  assert (service_ok w0) as Hok0.
  { constructor; [| | |done].
    - rewrite Hn. by eapply (native_run_ok subject_public_key tls bind l).
    - rewrite Hn. by intros k certs ?%elem_of_nil.
    - apply browser_reachable_ok. exists (browser w0). by split. }
  clear -Hrun Hok0. induction Hrun; eauto using service_step_ok.
Qed.

Lemma acted_requests w c method call :
  service_ok w → acted (bw_state (browser w)) c method call →
  ledger (coordinator c) = ledger (coord w) ∨
  ∃ p, authority w p ∧ requests p (ledger (coord w)) (ledger (coordinator c)).
Proof.
  intros Hok [Heq|(id & net & req & s & Hs & -> & Hc)]; [left; by rewrite Heq|right].
  exists id. split; [by eapply session_authority|].
  pose proof (serve_requests net None 1 id req (coord w) (reachable_wf _ (so_coord w Hok))) as Hreq.
  destruct Hc as [-> |(eid & token & ->)]; exact Hreq.
Qed.

(** C11: every record has an author.  In a coordinator that serves both transports, a
    step changes the ledger only as one request that the ledger allows an identity
    with authority to act: the key of a handshake that was signed under it, or the
    identity whose authenticator authorised the session that signed the request.
    The one exception is the owner naming its execution. *)
Theorem records_have_an_author cert key w w'
    (Hcfg : server_tls_config cert key = Ok cfg)
    (Hreach : service_reachable w) (Hstep : service_step w w') :
  ledger (coord w') = ledger (coord w) ∨
  (∃ p, authority w p ∧ requests p (ledger (coord w)) (ledger (coord w'))) ∨
  ∃ eid, ledger (coord w') =
    (ledger (coord w)) <| l_one_off := Some eid |> <| l_listening := true |>.
Proof.
  apply service_reachable_ok in Hreach as Hok.
  destruct Hstep as [l Hl Hcalls Hnew|k id net accept delivery req Hk|decode net call now c log r Hm
    |decode net call now c log r Hm|b Hs Hl|eid tx].
  - by left.
  - right; left. exists id. split; [eapply connection_authority; [by eexists _, _|done|done]|].
    apply serve_requests, reachable_wf, Hok.
  - apply reserve_method_acted in Hm as (Ha & _ & _). apply acted_requests in Ha as [?|?]; auto.
  - apply submit_method_acted in Hm as (Ha & _ & _). apply acted_requests in Ha as [?|?]; auto.
  - by left.
  - right; right. by exists eid.
Qed.
End service.

(** ** Witness *)

(** A coordinator whose first native connection is served as [party1]. *)
Definition sample_service : Service :=
  mkService
    (mkListenerRun (mkListener true 2%positive {[1%positive := Serving (Some party1)]})
       [(1%positive, [party1])] [])
    (mkBrowserWorld (coordinator_browser_state sample_open "vote.example" None) [] []).

Definition toy_config : @ServerConfig toy_rustls :=
  @mkServerConfig toy_rustls SelfSignedClientVerifier [ [Byte.x55] ] [Byte.x55].

Lemma sample_service_reachable : @service_reachable _ _ toy_rustls toy_server Some toy_config sample_service.
Proof.
  set (b := mkBrowserWorld (coordinator_browser_state sample_open "vote.example" None) [] []).
  exists (mkService (native_start (mkListener true 1%positive ∅)) b). split; [split; [|split]|].
  - exists (Ok tt), (Some tt), (mkListener true 1%positive ∅). by split.
  - exists sample_open, "vote.example"%string, None. by split.
  - apply sample_open_reachable.
  - eapply rtc_l.
    { apply (ss_listener _ _ _ _ (ns_accept _ _ true)); [done|]. by left. }
    apply rtc_once.
    refine (ss_listener Some toy_config (mkService (mkListenerRun
      (mkListener true 2%positive {[1%positive := Handshaking]}) [] []) b) _
      (ns_handshake _ _ 1%positive [party1] _) _ _); [done|done|].
    intros k certs [= -> ->]%list_elem_of_singleton. right. by exists toy_hello.
Qed.

Lemma records_have_an_author_witness :
  let s := coord sample_service in
  let s' := sv_state (serve all_up None 1 party1 (inl (CollectInputs sample_eid)) s) in
  ledger s' = ledger s ∨
  (∃ p, @authority _ toy_rustls Some sample_service p ∧ requests p (ledger s) (ledger s')) ∨
  ∃ eid, ledger s' = (ledger s) <| l_one_off := Some eid |> <| l_listening := true |>.
Proof.
  intros s s'.
  apply (@records_have_an_author _ _ toy_rustls toy_server Some toy_config [Byte.x55] [Byte.x55]
    sample_service (mkService
      (mkListenerRun (lr_listener (native sample_service)) (lr_peers (native sample_service))
         (lr_calls (native sample_service) ++ [(1%positive, party1)]))
      (with_coordinator s' (browser sample_service)))).
  - reflexivity.
  - apply sample_service_reachable.
  - by apply (ss_native Some toy_config sample_service 1%positive party1 all_up None 1).
Defined.
